(* ===== verification/_CoqProject ===== *)
-Q . S2P
Prelude.v
RStr.v
Cidr.v
Fs.v
Room.v
IndexedClaim.v
Slot.v
SlotSpec.v
Firewall.v
Host.v
Egress.v
CloneRoutes.v
CloneNet.v
Pcap.v
PcapSpec.v
Artifacts.v
Prog.v
Returns.v
Config.v
Snapshot.v
Intents.v
Sys.v
Process.v
Teardown.v
InodeSeal.v
Images.v
Launch.v
Boot.v
RestoreLaunch.v
RestoreSource.v
RestoreTeardown.v
RestoreExec.v
RestoreOrder.v
Registry.v
Collect.v
SnapshotExec.v
SnapshotOrder.v
Vsock.v
VsockOrder.v
VsockServe.v
Runner.v
RunnerOrder.v
ShellQuote.v
RunnerWait.v
RunnerCollect.v
EgressAudit.v
Matrix.v
Lifecycle.v
Doctor.v
Preflight.v
DoctorLooks.v
Cli.v
CliSpec.v
Witness.v
Run.v
RunOrder.v
RunEnds.v
Handoff.v
CloneRecords.v
CloneBatch.v
CloneFates.v
CloneOrder.v
CloneEnds.v
CloneLeaks.v
Dispatch.v
DispatchSpec.v
