(* ===== verification/Prelude.v ===== *)
(** * rooms: verification library (root file)

    [rooms] runs untrusted commands in Firecracker microVMs.  A host has a pool of
    numbered slots (a tap, a /30 and a guest address each); a room is a directory,
    a jail and a process that holds a slot; a sealed base room can be frozen into a
    snapshot, which keeps its slot reserved, and restored into rooms that lease it,
    several at a time when each has a clone network of its own.  Commands of the
    CLI run concurrently in different processes and may die anywhere; what they
    share is files, locks and the kernel's network state.

    ** How the parts correspond to the code (all under [src/src])

    - [Prelude], [RStr], [Cidr], [Fs], [Host]: the shared base.  Results and
      notation; the string functions of Rust's library the code uses, on bytes;
      address arithmetic; a file tree with a monad of system calls each of which may
      fail, tear a write or be the last the process makes; programs run on a host
      whose answers are a parameter.
    - [Room] ([room.rs]): metadata, provenance, [/proc] classification.
      [IndexedClaim] ([indexed_claim.rs]): numbered claim files.  [Slot] and
      [SlotSpec] ([slot.rs]): the pool, and the abstract slot machine its
      operations refine.
    - [Firewall] ([isolation.rs], [veth_isolation.rs]), [Egress] ([egress.rs]),
      [CloneRoutes] and [CloneNet] ([clonenet.rs]): the predicates over
      [iptables -S] dumps and routes, and the commands that make and undo networks.
    - [Pcap] and [Artifacts] ([artifacts.rs]): the egress witness read from a
      capture, and the collection of a run's outputs; [PcapSpec] describes a capture
      by its bytes and holds the witness's theorem.
    - [Config] ([config.rs]), [Snapshot] ([snapshot.rs], [restore.rs]): the
      configuration and the two policies.  [Intents] ([snapshot_exec.rs],
      [restore_exec.rs]): the durable indexes of transactions.
    - [Prog] and [Sys]: the orchestrating parts are trees of host calls ([prog]);
      [Sys] lists the calls and the driver's errors.  [Returns] says what a program
      can return, whatever is answered.
    - [Process], [Teardown], [Launch], [Boot], [RestoreLaunch] ([firecracker.rs],
      [transport.rs]): ending a process, the teardowns, staging and the API, the
      boot, the spawn behind a launch barrier.
    - [InodeSeal] ([inode_seal.rs]), [Images] ([rootfs.rs], [toolstore.rs]).
    - [RestoreSource], [RestoreTeardown], [RestoreExec] ([restore_exec.rs]);
      [RestoreOrder] holds the theorem of the whole restore.
    - [Registry] ([registry.rs]); [Collect] holds the theorems of [kill] and [gc].
    - [SnapshotExec] ([snapshot_exec.rs]); [SnapshotOrder] holds the theorems of
      creation and recovery.
    - [Vsock] ([vsock.rs]): the listeners and the conversations with the guest;
      [VsockOrder] and [VsockServe] hold their theorems.
    - [Runner] ([runner.rs]): readiness, the workload, patch and push, collection,
      the input of a neutral base; [RunnerOrder], [ShellQuote], [RunnerWait] and
      [RunnerCollect] hold the theorems.
    - [EgressAudit] ([egress_audit.rs]), [Matrix] ([matrix.rs]), [Lifecycle]
      ([lifecycle.rs]), [Witness] ([witness.rs]).
    - [Doctor] ([doctor.rs]) and [Preflight] ([preflight.rs]); [DoctorLooks] holds
      the theorem of the whole doctor.
    - [Cli] ([main.rs]): the parsers, the harvest of secrets, the action of a run;
      [CliSpec] holds their theorems.  [Run] ([main.rs]): [rooms run] and
      [rooms base-create] over the programs of [Boot], [Runner], [Teardown] and the
      rest, each call marked with the part that makes it; what is raced or awaited
      under a deadline is a call that may be cut off.  [RunOrder] holds the theorem
      of the workload, [RunEnds] that of the whole run.
    - [Handoff] ([main.rs]): the signal listener and its owner, each step of either
      thread a step of a schedule.  [CloneRecords] and [CloneBatch] ([main.rs]):
      [rooms restore], [rooms clone] and [rooms matrix]; a task of a batch is a
      program of its own, spawned and joined by calls.  [CloneFates] says how a
      clone can end, [CloneOrder] and [CloneEnds] what a batch does in which order,
      and [CloneLeaks] composes the batch with its tasks.  [Dispatch] ([main.rs]):
      the commands, what each prints, the exit code; [DispatchSpec] holds the
      theorems of the records of failures and of the gate of [rooms diff].

    A function of the code is a definition of the same name (a method is prefixed
    with its type, and a name taken by another file keeps its own file's prefix in
    the manifest).  Where a body is long its parts are definitions composed in the
    order of the code.  Records and enums have the source's fields and
    constructors; the fields of a record carry a short prefix.

    ** Two models of effects

    The components whose state is files ([Room], [IndexedClaim], [Slot], [CloneNet],
    [Artifacts], [Intents], [Matrix], [Lifecycle]) are programs of the monad [io] of [Fs]: their theorems
    quantify over a list of faults, one per system call, so they cover every
    failure and every crash point; interleavings are sequences of steps over one
    tree.  The drivers (from [Process] on) are programs of [Prog], whose host
    answers every call arbitrarily: [run p tr o] says that [tr] is a prefix of the
    calls of a run with any answers.  A theorem about every [tr] therefore covers
    all failures, all concurrent changes to what is looked at, and all crashes.
    [guarded R tr] says every call was allowed by [R] after the calls before it;
    [spec] is the program logic these are proved with.  Calls to a component that
    is modelled in [io] appear in [Sys] as one call with its result type.

    ** What the theorems show

    - Slots and claims: a reservation is never lost, every slot operation refines
      the abstract machine under faults, holders keep their slot, claims never
      disturb each other, a walk claims the lowest hole, addresses stay in the pool.
    - Persistence: [room.json] and the snapshot index are old-or-new under crashes.
    - Orders of the transactions: boot, restore, snapshot and recovery, and the
      teardowns, each state what must have been answered before each destructive or
      exposing call, and what success and failure leave.
    - Collection: [kill] and [gc] end only what was verified dead or is theirs; what
      the allocators reclaim in their own reconciliations, one call of [gc] each, is
      the subject of [SlotSpec] for slots, and of no theorem for clone networks.
    - Network policy: the checks over live firewall dumps imply what packets can do,
      insertion at the computed rank passes the checks, installing fails closed.
    - The guest: the conversations over vsock keep their order and succeed with an
      agent that answers; every command for the guest is quoted; the push token goes
      to the push alone; archives are unpacked only when harmless.
    - The run: from admission to teardown, with the workload cut off anywhere.
    - Batches: nothing of a clone is torn down while a task may still run; given
      that joins answer what the tasks came to, every clone is torn down, killed or
      kept by agreement and every other network is given back.
    - Signals: the listener alone decides between a signal and the end of a run, in
      every interleaving, and an owner that asks is answered.
    - The host's checks only look, and the gates over their reports are exact; a
      command asked for a machine-readable outcome prints one when it fails, and
      exits with the code that goes with its error; the event stream of a run is told
      by how the calls that wrote it ended.
    - Parsing: [/proc] lines, egress policies, routes, captures, the numbers of the
      command line and change streams are read exactly; collection follows a
      reference only inside its directory.

    ** Fuel and bounds

    Loops that poll take fuel; a program that runs out is [Spin], which makes no
    further call and returns nothing, so the safety theorems hold for all fuel, and
    [Process.termination_returns] gives the fuel that is enough for each wait on a
    clock that does not go back (101, from the 5 s cap on the grace and the 50 ms
    poll) and bounds the looks of all waits together (124, and 51 for the guard);
    [RunnerWait.wait_returns] does so for the wait for the guest (as many rounds as
    poll intervals fit into its time, and two), and [Handoff.commit_answers] for a
    commit (six rounds, from the five steps two threads can have left).  The watcher of a capture loops as
    long as the capture runs, and so has only fuel.  Loops over
    input ([walk] of a capture, the DNS labels) take the
    input's length, proved enough where the theorem needs it.  Machine integers are
    [N] or [Z] with the wrap-around or the checked operation written out.

    ** Parameters

    [serde_json], SHA-256, DNS, the immutable flag's value, [Path] display, and the
    effects of [ip], [iptables], [sysctl], [curl], [tcpdump] and Firecracker itself
    are arguments; nothing is assumed of them but what a theorem names.

    ** Not modelled

    Logging, the stubs for platforms other than Linux, the waiting of async code
    other than the races and deadlines the code itself writes, what dropping a
    future does to its processes, and non-UTF-8 file names in directory listings.
    Of [main.rs]: how [clap] splits the arguments and which combinations of flags
    it refuses; in a batch, what the unwinding of a panicking worker drops. *)

From stdpp Require Export base tactics option list gmap strings sorting pretty.
From Stdlib Require Export NArith Lia Ascii.
From stdpp Require Import options.

(** ** Results

    Rust's [Result<A, E>], with the error type first so that [result E] is a
    monad. *)
Inductive result (E A : Type) : Type :=
| Ok (a : A)
| Err (e : E).
Arguments Ok {E A} a.
Arguments Err {E A} e.

#[export] Instance result_eq_dec `{EqDecision E} `{EqDecision A} : EqDecision (result E A).
Proof. solve_decision. Defined.

Definition rbind {E A B} (m : result E A) (k : A → result E B) : result E B :=
  match m with Ok a => k a | Err e => Err e end.

Definition map_err {E E' A} (f : E → E') (m : result E A) : result E' A :=
  match m with Ok a => Ok a | Err e => Err (f e) end.

Definition rmap {E A B} (f : A → B) (m : result E A) : result E B :=
  match m with Ok a => Ok (f a) | Err e => Err e end.

(** Rust's [Option::ok_or]. *)
Definition ok_or {E A} (o : option A) (e : E) : result E A :=
  match o with Some a => Ok a | None => Err e end.

Definition is_ok {E A} (m : result E A) : bool :=
  match m with Ok _ => true | Err _ => false end.

Declare Scope rooms_scope.
Delimit Scope rooms_scope with rooms.

Notation "'let?' x ':=' m 'in' k" := (rbind m (λ x, k))
  (at level 10, x pattern, m at level 100, k at level 200) : rooms_scope.
Notation "'ensure' b 'else' e ';;' k" := (if b then k else Err e)
  (at level 10, b at level 100, e at level 100, k at level 200) : rooms_scope.
Open Scope rooms_scope.

(** Rust's [Vec::insert]. *)
Definition vec_insert {A} (i : nat) (x : A) (l : list A) : list A := take i l ++ x :: drop i l.

(** ** Automation *)

Create HintDb rooms discriminated.
Create Rewrite HintDb rooms.

(** Split every conjunction of the goal and of the hypotheses. *)
Ltac splits := repeat match goal with |- _ ∧ _ => split end.

(** Case analysis on the scrutinee of the first [match] or [if] of the goal or
    of a hypothesis, keeping the equation. *)
Ltac case_step :=
  match goal with
  | |- context [match ?x with _ => _ end] => destruct x eqn:?
  | H : context [match ?x with _ => _ end] |- _ => destruct x eqn:?
  end.

(** Run [case_step] to exhaustion, discarding contradictory branches. *)
Ltac cases := repeat (case_step; simplify_eq/=; try done).

(** Turn boolean facts into propositions. *)
Ltac boolify :=
  repeat match goal with
  | H : (_ && _) = true |- _ => apply andb_true_iff in H as [? ?]
  | H : (_ || _) = false |- _ => apply orb_false_iff in H as [? ?]
  | H : negb _ = true |- _ => apply negb_true_iff in H
  | H : negb _ = false |- _ => apply negb_false_iff in H
  | H : bool_decide _ = true |- _ => apply bool_decide_eq_true in H
  | H : bool_decide _ = false |- _ => apply bool_decide_eq_false in H
  | H : (_ =? _)%N = true |- _ => apply N.eqb_eq in H
  | H : (_ =? _)%N = false |- _ => apply N.eqb_neq in H
  | H : (_ <=? _)%N = true |- _ => apply N.leb_le in H
  | H : (_ <=? _)%N = false |- _ => apply N.leb_gt in H
  | H : (_ <? _)%N = true |- _ => apply N.ltb_lt in H
  | H : (_ <? _)%N = false |- _ => apply N.ltb_ge in H
  | H : (_ =? _)%nat = true |- _ => apply Nat.eqb_eq in H
  | H : (_ =? _)%nat = false |- _ => apply Nat.eqb_neq in H
  | H : (_ <=? _)%nat = true |- _ => apply Nat.leb_le in H
  | H : (_ <=? _)%nat = false |- _ => apply Nat.leb_gt in H
  | H : (_ =? _)%string = true |- _ => apply String.eqb_eq in H
  | H : (_ =? _)%string = false |- _ => apply String.eqb_neq in H
  end.

(** ** Generic list lemmas *)

(** Rust's [Iterator::position]. *)
Fixpoint position {A} (p : A → bool) (l : list A) : option nat :=
  match l with
  | [] => None
  | x :: t => if p x then Some 0 else S <$> position p t
  end.

(** Rust's [Iterator::find]. *)
Fixpoint find_first {A} (p : A → bool) (l : list A) : option A :=
  match l with
  | [] => None
  | x :: t => if p x then Some x else find_first p t
  end.

(** Rust's [Iterator::find_map]. *)
Fixpoint find_map {A B} (p : A → option B) (l : list A) : option B :=
  match l with
  | [] => None
  | x :: t => match p x with Some y => Some y | None => find_map p t end
  end.

Lemma position_Some {A} (p : A → bool) l i :
  position p l = Some i ↔
  ∃ x, l !! i = Some x ∧ p x = true ∧ ∀ j y, j < i → l !! j = Some y → p y = false.
Proof.
  revert i; induction l as [|x l IH]; intros i; simpl.
  - split; [done|]. by intros (y & Hy & _); rewrite lookup_nil in Hy.
  - destruct (p x) eqn:Hp.
    + split.
      * intros [= <-]. exists x. splits; [done|done|]. intros; lia.
      * intros (y & Hy & Hpy & Hlt). destruct i as [|i]; [done|].
        specialize (Hlt 0 x ltac:(lia) eq_refl). congruence.
    + rewrite fmap_Some. split.
      * intros (k & Hk & ->). apply IH in Hk as (y & Hy & Hpy & Hlt).
        exists y. splits; [done|done|].
        intros j z Hj Hz. destruct j as [|j]; simplify_eq/=; [done|]. eapply (Hlt j); [lia|exact Hz].
      * intros (y & Hy & Hpy & Hlt). destruct i as [|i]; [simplify_eq/=; congruence|].
        exists i. split; [|done]. apply IH. exists y. splits; [done|done|].
        intros j z Hj Hz. apply (Hlt (S j)); [lia|exact Hz].
Qed.

Lemma position_None {A} (p : A → bool) l :
  position p l = None ↔ ∀ x, x ∈ l → p x = false.
Proof.
  induction l as [|x l IH]; simpl.
  - split; [|done]. intros _ x Hx. by apply not_elem_of_nil in Hx.
  - destruct (p x) eqn:Hp.
    + split; [done|]. intros H. specialize (H x ltac:(constructor)). congruence.
    + rewrite fmap_None, IH. split.
      * intros H y [->|Hy]%elem_of_cons; auto.
      * intros H y Hy. apply H. by constructor.
Qed.

Lemma position_app_l {A} (p : A → bool) l k i :
  position p l = Some i → position p (l ++ k) = Some i.
Proof.
  revert i; induction l as [|x l IH]; intros i; simpl; [done|].
  destruct (p x); [done|]. rewrite !fmap_Some. intros (j & Hj & ->). eauto.
Qed.

Lemma position_app_r {A} (p : A → bool) l k :
  position p l = None → position p (l ++ k) = (λ i, length l + i) <$> position p k.
Proof.
  induction l as [|x l IH]; simpl.
  - intros _. by destruct (position p k).
  - destruct (p x); [done|]. rewrite fmap_None. intros H. rewrite (IH H).
    by destruct (position p k).
Qed.

Lemma find_first_position {A} (p : A → bool) l : find_first p l = position p l ≫= λ i, l !! i.
Proof.
  induction l as [|x l IH]; [done|]. simpl. destruct (p x); [done|]. rewrite IH.
  by destruct (position p l).
Qed.

Lemma find_first_None {A} (p : A → bool) l : find_first p l = None ↔ ∀ x, x ∈ l → p x = false.
Proof.
  rewrite <- position_None, find_first_position. destruct (position p l) as [i|] eqn:E; [|done].
  apply position_Some in E as (x & Hx & _). simpl. by rewrite Hx.
Qed.

(** A found element splits the list at its first occurrence. *)
Lemma find_first_Some {A} (p : A → bool) l x :
  find_first p l = Some x ↔ ∃ i, l !! i = Some x ∧ p x = true ∧
    ∀ j y, j < i → l !! j = Some y → p y = false.
Proof.
  rewrite find_first_position. split.
  - destruct (position p l) as [i|] eqn:E; [|done]. simpl. intros Hx.
    apply position_Some in E as (y & Hy & Hp & Hlt). simplify_eq. eauto.
  - intros (i & Hx & Hp & Hlt).
    assert (E : position p l = Some i) by (apply position_Some; eauto). by rewrite E.
Qed.

Lemma filter_none {A} (P : A → Prop) `{∀ x, Decision (P x)} l :
  Forall (λ x, ¬ P x) l → filter P l = [].
Proof. induction 1; [done|]. by rewrite filter_cons_False. Qed.

Lemma omap_cons_eq {A B} (f : A → option B) x l :
  omap f (x :: l) = match f x with Some y => y :: omap f l | None => omap f l end.
Proof. done. Qed.

Lemma cons_eq_inv {A} (x y : A) l k : x :: l = y :: k → x = y ∧ l = k.
Proof. by intros [= -> ->]. Qed.
