(* ===== verification/RStr.v ===== *)
(** * RStr: the part of Rust's [str], [String] and integer parsing the code uses

    A Rust [str] is UTF-8; a [string] here is its sequence of bytes.  [len] is
    the byte length, searching is bytewise (UTF-8 is self-synchronising, so a
    bytewise match of a valid needle is a character match), and white space is
    Unicode's White_Space property, read from its one-, two- and three-byte
    encodings. *)

From S2P Require Import Prelude.
From Stdlib Require Structures.OrdersEx.
From stdpp Require Import options.

Abbreviation byte := ascii (only parsing).

Definition code (a : byte) : N := N_of_ascii a.

(** ** Character classes *)

Definition in_range (lo hi : N) (a : byte) : bool := ((lo <=? code a) && (code a <=? hi))%N.
Definition is_ascii_digit : byte → bool := in_range 48 57.
Definition is_ascii_lowercase : byte → bool := in_range 97 122.
Definition is_ascii_uppercase : byte → bool := in_range 65 90.
Definition is_ascii_alphabetic (a : byte) : bool := is_ascii_lowercase a || is_ascii_uppercase a.
(** [u8::is_ascii_whitespace]: space, tab, line feed, form feed, carriage return. *)
Definition is_ascii_whitespace (a : byte) : bool :=
  bool_decide (code a ∈ [32; 9; 10; 12; 13]%N).

Definition nl : byte := "010".
Definition cr : byte := "013".
Definition space : byte := " ".

(** Unicode White_Space, by encoding length. *)
Definition ws1 (a : byte) : bool := in_range 9 13 a || (code a =? 32)%N.
Definition ws2 (a b : byte) : bool :=
  ((code a =? 194) && ((code b =? 133) || (code b =? 160)))%N.
Definition ws3 (a b c : byte) : bool :=
  ((code a =? 225) && (code b =? 154) && (code c =? 128)
   || (code a =? 226) && (code b =? 128)
      && (in_range 128 138 c || (code c =? 168) || (code c =? 169) || (code c =? 175))
   || (code a =? 226) && (code b =? 129) && (code c =? 159)
   || (code a =? 227) && (code b =? 128) && (code c =? 128))%N.

(** ** Slicing and searching *)

Fixpoint len (s : string) : nat :=
  match s with EmptyString => 0 | String _ r => S (len r) end.

Definition is_empty (s : string) : bool :=
  match s with EmptyString => true | _ => false end.

Fixpoint all_bytes (p : byte → bool) (s : string) : bool :=
  match s with EmptyString => true | String a r => p a && all_bytes p r end.

Definition any_byte (p : byte → bool) (s : string) : bool := negb (all_bytes (λ a, negb (p a)) s).

Fixpoint strip_prefix (p s : string) : option string :=
  match p, s with
  | EmptyString, _ => Some s
  | String a p, String b s => if (a =? b)%char then strip_prefix p s else None
  | String _ _, EmptyString => None
  end.

Definition starts_with (s p : string) : bool :=
  match strip_prefix p s with Some _ => true | None => false end.

Fixpoint contains (s needle : string) : bool :=
  starts_with s needle ||
  match s with EmptyString => false | String _ r => contains r needle end.

Definition contains_byte (a : byte) (s : string) : bool := any_byte (λ b, (b =? a)%char) s.

Fixpoint ends_with_byte (a : byte) (s : string) : bool :=
  match s with
  | EmptyString => false
  | String b EmptyString => (b =? a)%char
  | String _ r => ends_with_byte a r
  end.

(** Drop a final byte [a], if the string ends in it. *)
Fixpoint strip_suffix_byte (a : byte) (s : string) : option string :=
  match s with
  | EmptyString => None
  | String b EmptyString => if (b =? a)%char then Some EmptyString else None
  | String b r => String b <$> strip_suffix_byte a r
  end.

(** Prepend a byte to the first field. *)
Definition push_head (a : byte) (l : list string) : list string :=
  match l with [] => [String a EmptyString] | h :: t => String a h :: t end.

(** [str::split] on one character: never empty. *)
Fixpoint split_byte (c : byte) (s : string) : list string :=
  match s with
  | EmptyString => [EmptyString]
  | String a r => if (a =? c)%char then EmptyString :: split_byte c r
                  else push_head a (split_byte c r)
  end.

(** [str::split_once] on one character. *)
Fixpoint split_once (c : byte) (s : string) : option (string * string) :=
  match s with
  | EmptyString => None
  | String a r => if (a =? c)%char then Some (EmptyString, r)
                  else (λ '(h, t), (String a h, t)) <$> split_once c r
  end.

(** [str::rsplit_once] on one character: the last occurrence splits. *)
Fixpoint rsplit_once (c : byte) (s : string) : option (string * string) :=
  match s with
  | EmptyString => None
  | String a r =>
      match rsplit_once c r with
      | Some (h, t) => Some (String a h, t)
      | None => if (a =? c)%char then Some (EmptyString, r) else None
      end
  end.

(** [str::split_inclusive('\n')]. *)
Fixpoint split_inclusive_nl (s : string) : list string :=
  match s with
  | EmptyString => []
  | String a r => if (a =? nl)%char then String a EmptyString :: split_inclusive_nl r
                  else push_head a (split_inclusive_nl r)
  end.

(** One line's terminator, ["\n"] or ["\r\n"]; a final unterminated line keeps
    its trailing ["\r"]. *)
Definition strip_line_end (l : string) : string :=
  match strip_suffix_byte nl l with
  | None => l
  | Some l' => default l' (strip_suffix_byte cr l')
  end.

(** [str::lines]. *)
Definition lines (s : string) : list string := strip_line_end <$> split_inclusive_nl s.

(** ** White space *)

Fixpoint trim_start (s : string) : string :=
  match s with
  | EmptyString => EmptyString
  | String a r =>
      if ws1 a then trim_start r else
      match r with
      | EmptyString => s
      | String b r2 =>
          if ws2 a b then trim_start r2 else
          match r2 with
          | EmptyString => s
          | String c r3 => if ws3 a b c then trim_start r3 else s
          end
      end
  end.

Fixpoint trim_end (s : string) : string :=
  match s with
  | EmptyString => EmptyString
  | String a r => if is_empty (trim_start s) then EmptyString else String a (trim_end r)
  end.

(** [str::trim]. *)
Definition trim (s : string) : string := trim_end (trim_start s).

(** [str::split(char::is_whitespace)]. *)
Fixpoint split_ws (s : string) : list string :=
  match s with
  | EmptyString => [EmptyString]
  | String a r =>
      if ws1 a then EmptyString :: split_ws r else
      match r with
      | EmptyString => push_head a (split_ws r)
      | String b r2 =>
          if ws2 a b then EmptyString :: split_ws r2 else
          match r2 with
          | EmptyString => push_head a (split_ws r)
          | String c r3 => if ws3 a b c then EmptyString :: split_ws r3
                           else push_head a (split_ws r)
          end
      end
  end.

(** [str::split_whitespace]. *)
Definition split_whitespace (s : string) : list string :=
  filter (λ w, is_empty w = false) (split_ws s).

Definition join (sep : string) (l : list string) : string := String.concat sep l.

(** [str] ordering is bytewise lexicographic. *)
Definition str_cmp (a b : string) : comparison := String.compare a b.
Definition str_lt (a b : string) : bool := match str_cmp a b with Lt => true | _ => false end.

(** [slice::sort] and [dedup] on strings. *)
Fixpoint str_insert (x : string) (l : list string) : list string :=
  match l with
  | [] => [x]
  | y :: l' => if str_lt y x then y :: str_insert x l' else x :: l
  end.

Fixpoint str_sort (l : list string) : list string :=
  match l with [] => [] | x :: l => str_insert x (str_sort l) end.

Fixpoint dedup (l : list string) : list string :=
  match l with
  | x :: (y :: _) as t => if (x =? y)%string then dedup t else x :: dedup t
  | _ => l
  end.

(** [str::trim_matches] with one character. *)
Fixpoint trim_start_byte (a : byte) (s : string) : string :=
  match s with
  | String b r => if (b =? a)%char then trim_start_byte a r else s
  | EmptyString => EmptyString
  end.

Fixpoint trim_end_byte (a : byte) (s : string) : string :=
  match s with
  | EmptyString => EmptyString
  | String b r => if is_empty (trim_start_byte a s) then EmptyString else String b (trim_end_byte a r)
  end.

Definition trim_matches_byte (a : byte) (s : string) : string := trim_end_byte a (trim_start_byte a s).

(** [slice::binary_search_by] on strings: the position of the element, or where
    it belongs.  The documentation leaves unsorted slices open. *)
Definition binary_search (l : list string) (x : string) : result nat nat :=
  match position (λ y, (y =? x)%string) l with
  | Some i => Ok i
  | None => Err (length (filter (λ y, str_lt y x = true) l))
  end.

(** ** Unsigned integers *)

Definition u8_max : N := 255.
Definition u16_max : N := 65535.
Definition u32_max : N := 4294967295.
Definition u64_max : N := 18446744073709551615.

Definition digit_value (a : byte) : option N :=
  if is_ascii_digit a then Some (code a - 48)%N else None.

(** Accumulate decimal digits, failing on a non-digit or past [max]. *)
Fixpoint parse_digits (max acc : N) (s : string) : option N :=
  match s with
  | EmptyString => Some acc
  | String a r =>
      match digit_value a with
      | None => None
      | Some d => let v := (acc * 10 + d)%N in
                  if (v <=? max)%N then parse_digits max v r else None
      end
  end.

(** [str::parse::<uN>]: an optional [+], at least one digit, no overflow. *)
Definition parse_uint (max : N) (s : string) : option N :=
  match s with
  | EmptyString => None
  | String a r =>
      if (a =? "+")%char then (if is_empty r then None else parse_digits max 0 r)
      else parse_digits max 0 s
  end.

(** [ToString] for an unsigned integer. *)
Definition show_N (n : N) : string := pretty n.

(** ** IPv4 addresses *)

(** An [Ipv4Addr] is its big-endian [u32]. *)
Definition ipv4 (a b c d : N) : N := (a * 16777216 + b * 65536 + c * 256 + d)%N.
Definition octet (ip : N) (i : N) : N := (N.shiftr ip (8 * (3 - i)) mod 256)%N.
Definition show_ipv4 (ip : N) : string :=
  show_N (octet ip 0) +:+ "." +:+ show_N (octet ip 1) +:+ "." +:+
  show_N (octet ip 2) +:+ "." +:+ show_N (octet ip 3).

(** One octet of [Ipv4Addr::from_str]: one to three digits, no sign, no leading
    zero unless the octet is ["0"], at most 255. *)
Definition parse_octet (s : string) : option N :=
  match s with
  | EmptyString => None
  | String a r =>
      if (3 <? len s)%nat then None
      else if ((a =? "0")%char && negb (is_empty r))%bool then None
      else parse_digits u8_max 0 s
  end.

(** [str::parse::<Ipv4Addr>]. *)
Definition parse_ipv4 (s : string) : option N :=
  match split_byte "." s with
  | [a; b; c; d] =>
      match parse_octet a, parse_octet b, parse_octet c, parse_octet d with
      | Some a, Some b, Some c, Some d => Some (ipv4 a b c d)
      | _, _, _, _ => None
      end
  | _ => None
  end.

Example lines_ex : lines ("a" +:+ String nl ("b" +:+ String cr (String nl "c"))) = ["a"; "b"; "c"].
Proof. reflexivity. Qed.
Example split_ws_ex : split_whitespace "  42 (a b)  7" = ["42"; "(a"; "b)"; "7"].
Proof. reflexivity. Qed.
Example ipv4_ex : show_ipv4 (ipv4 172 16 0 254) = "172.16.0.254".
Proof. vm_compute. reflexivity. Qed.
Example ipv4_parse_ex : parse_ipv4 "172.16.0.254" = Some (ipv4 172 16 0 254) ∧ parse_ipv4 "1.2.3.04" = None.
Proof. vm_compute. done. Qed.

(** ** String order *)

Definition slt (a b : string) : Prop := str_lt a b = true.

Lemma slt_OT a b : slt a b ↔ OrdersEx.String_as_OT.lt a b.
Proof.
  unfold slt, str_lt, str_cmp, OrdersEx.String_as_OT.lt.
  assert (E : String.compare a b = OrdersEx.String_as_OT.compare a b) by
    (revert b; induction a as [|x a IH]; intros [|y b]; simpl; rewrite ?IH; done).
  rewrite E. by destruct (OrdersEx.String_as_OT.compare a b).
Qed.

#[export] Instance slt_strict : StrictOrder slt.
Proof.
  pose proof OrdersEx.String_as_OT.lt_strorder as [Hi Ht]. split.
  - intros x Hx. by apply slt_OT, Hi in Hx.
  - intros x y z. rewrite !slt_OT. apply Ht.
Qed.

Lemma slt_total a b : slt a b ∨ a = b ∨ slt b a.
Proof. rewrite !slt_OT. destruct (OrdersEx.String_as_OT.compare_spec a b); auto. Qed.

Lemma slt_irrefl a : ¬ slt a a.
Proof. apply (StrictOrder_Irreflexive a). Qed.

Lemma slt_trans a b c : slt a b → slt b c → slt a c.
Proof. intros. by etrans. Qed.

Lemma str_cmp_spec a b : CompareSpec (a = b) (slt a b) (slt b a) (str_cmp a b).
Proof.
  unfold slt, str_lt, str_cmp. rewrite (String.compare_antisym b a).
  destruct (String.compare a b) eqn:E; constructor; try done. by apply String.compare_eq_iff.
Qed.

(** [str_sort] sorts. *)
Definition str_le (a b : string) : Prop := ¬ slt b a.

Lemma str_insert_perm x l : str_insert x l ≡ₚ x :: l.
Proof.
  induction l as [|y l IH]; [done|]. simpl. destruct (str_lt y x); [|done].
  rewrite IH. apply Permutation_swap.
Qed.

Lemma str_sort_perm l : str_sort l ≡ₚ l.
Proof. induction l as [|x l IH]; [done|]. simpl. by rewrite str_insert_perm, IH. Qed.

Lemma str_insert_hd x y l : HdRel str_le y l → str_le y x → HdRel str_le y (str_insert x l).
Proof. intros Hl Hx. destruct l as [|z l]; simpl; [by constructor|]. destruct (str_lt z x); constructor; by inversion Hl. Qed.

Lemma str_sort_sorted l : Sorted str_le (str_sort l).
Proof.
  induction l as [|x l IH]; [constructor|]. simpl. induction IH as [|y k Hs IH Hh]; [repeat constructor|].
  simpl. destruct (str_lt y x) eqn:E.
  - constructor; [done|]. apply str_insert_hd; [done|]. intros Hxy. apply (slt_irrefl x). by etrans.
  - repeat constructor; [done|done|]. unfold str_le, slt. by rewrite E.
Qed.

(** ** Strictly sorted lists as sets *)

Lemma sorted_NoDup l : StronglySorted slt l → NoDup l.
Proof.
  induction 1 as [|a l Hs IH Hf]; constructor; [|done].
  intros Ha. rewrite Forall_forall in Hf. by apply Hf, slt_irrefl in Ha.
Qed.

Lemma elem_of_vec_insert i (x y : string) l : y ∈ vec_insert i x l ↔ y = x ∨ y ∈ l.
Proof.
  unfold vec_insert. rewrite elem_of_app, elem_of_cons. rewrite <- (take_drop i l) at 3.
  rewrite elem_of_app. tauto.
Qed.

Lemma length_vec_insert i (x : string) l : length (vec_insert i x l) = S (length l).
Proof.
  unfold vec_insert. rewrite length_app. simpl. rewrite <- (take_drop i l) at 3.
  rewrite length_app. lia.
Qed.

Lemma binary_search_Ok l x i : binary_search l x = Ok i → l !! i = Some x.
Proof.
  unfold binary_search. destruct (position _ l) as [j|] eqn:E; [|done]. intros [= ->].
  apply position_Some in E as (y & Hy & Hp & _). by apply String.eqb_eq in Hp as ->.
Qed.

Lemma binary_search_Err l x i : binary_search l x = Err i → x ∉ l.
Proof.
  unfold binary_search. destruct (position _ l) as [j|] eqn:E; [done|]. intros _ Hx.
  rewrite position_None in E. apply E in Hx. by rewrite String.eqb_refl in Hx.
Qed.

Lemma binary_search_elem l x : is_ok (binary_search l x) = true ↔ x ∈ l.
Proof.
  destruct (binary_search l x) as [i|i] eqn:E; simpl.
  - apply binary_search_Ok in E. split; [|done]. intros _. by eapply list_elem_of_lookup_2.
  - apply binary_search_Err in E. done.
Qed.

(** Inserting at the reported position keeps the list strictly sorted. *)
Lemma binary_search_insert l x i :
  StronglySorted slt l → binary_search l x = Err i → StronglySorted slt (vec_insert i x l).
Proof.
  intros Hs Hb. pose proof (binary_search_Err _ _ _ Hb) as Hx. unfold binary_search in Hb.
  destruct (position _ l); [done|]. injection Hb as <-. revert Hx.
  induction Hs as [|a l Hs IH Hf]; intros Hx; [by repeat constructor|].
  apply not_elem_of_cons in Hx as [Hne Hx].
  destruct (slt_total a x) as [Ha|[->|Ha]]; [|done|].
  - rewrite filter_cons_True by done. change (vec_insert (length (a :: ?l1)) x (a :: l)) with
      (a :: vec_insert (length l1) x l). constructor; [by apply IH|].
    apply Forall_forall. intros y [->|Hy]%elem_of_vec_insert; [done|].
    by eapply Forall_forall in Hf.
  - assert (Hall : Forall (slt x) (a :: l)).
    { constructor; [done|]. eapply Forall_impl; [exact Hf|]. intros y Hy. by transitivity a. }
    assert (Hnil : filter (λ y, str_lt y x = true) (a :: l) = []).
    { apply filter_none. eapply Forall_impl; [exact Hall|].
      intros y Hy Hyx. apply (slt_irrefl x). by transitivity y. }
    rewrite Hnil. constructor; [by constructor|done].
Qed.

Lemma sorted_delete i l : StronglySorted slt l → StronglySorted slt (delete i l).
Proof.
  intros Hs. revert i. induction Hs as [|a l Hs IH Hf]; intros [|i]; [constructor|constructor|done|].
  constructor; [apply IH|]. by apply Forall_delete.
Qed.

(** ** Lemmas on concatenation and length *)

Lemma app_nil_l s : "" +:+ s = s.
Proof. done. Qed.
Lemma app_cons a s t : String a s +:+ t = String a (s +:+ t).
Proof. done. Qed.
Lemma app_nil_r s : s +:+ "" = s.
Proof. induction s as [|a s IH]; [done|]. by rewrite ?app_cons, IH. Qed.
Lemma app_assoc s t u : (s +:+ t) +:+ u = s +:+ (t +:+ u).
Proof. induction s as [|a s IH]; [done|]. by rewrite ?app_cons, IH. Qed.
Lemma len_app s t : len (s +:+ t) = len s + len t.
Proof. induction s as [|a s IH]; [done|]. rewrite ?app_cons; simpl. by rewrite IH. Qed.

Lemma length_list_ascii s : length (String.list_ascii_of_string s) = len s.
Proof. induction s as [|a s IH]; simpl; [done|]. by rewrite IH. Qed.

Lemma list_ascii_app s t :
  String.list_ascii_of_string (s +:+ t) = String.list_ascii_of_string s ++ String.list_ascii_of_string t.
Proof. induction s as [|a s IH]; [done|]. rewrite app_cons. simpl. by rewrite IH. Qed.

Lemma all_bytes_app p s t : all_bytes p (s +:+ t) = all_bytes p s && all_bytes p t.
Proof.
  induction s as [|a s IH]; [done|]. rewrite ?app_cons; simpl. by rewrite IH, andb_assoc.
Qed.

Lemma all_bytes_impl (p q : byte → bool) s :
  (∀ a, p a = true → q a = true) → all_bytes p s = true → all_bytes q s = true.
Proof.
  intros Hpq. induction s as [|a s IH]; simpl; [done|].
  intros [? ?]%andb_true_iff. rewrite Hpq, IH; done.
Qed.

#[export] Instance app_inj_l t : Inj (=) (=) (λ s, s +:+ t).
Proof.
  intros s1 s2 Heq.
  assert (Hlen : len s1 = len s2)
    by (apply (f_equal len) in Heq; rewrite !len_app in Heq; lia).
  revert s2 Heq Hlen; induction s1 as [|a s1 IH]; intros [|b s2]; simpl; try done.
  rewrite ?app_cons. intros [= -> Heq] [= Hlen]. by rewrite (IH s2).
Qed.

(** ** Prefixes *)

Lemma strip_prefix_app p s : strip_prefix p (p +:+ s) = Some s.
Proof. induction p as [|a p IH]; [done|]. rewrite ?app_cons; simpl. by rewrite Ascii.eqb_refl. Qed.

Lemma strip_prefix_Some p s r : strip_prefix p s = Some r ↔ s = p +:+ r.
Proof.
  split; [|intros ->; apply strip_prefix_app].
  revert s; induction p as [|a p IH]; intros [|b s]; simpl; try done; [by intros [= <-]..|].
  destruct (a =? b)%char eqn:E; [|done]. apply Ascii.eqb_eq in E as ->.
  intros H. rewrite ?app_cons. f_equal. by apply IH.
Qed.

Lemma starts_with_app p s : starts_with (p +:+ s) p = true.
Proof. unfold starts_with. by rewrite strip_prefix_app. Qed.

Lemma starts_with_true s p : starts_with s p = true ↔ ∃ r, s = p +:+ r.
Proof.
  unfold starts_with. destruct (strip_prefix p s) eqn:E.
  - apply strip_prefix_Some in E. naive_solver.
  - split; [done|]. intros [r ->]. by rewrite strip_prefix_app in E.
Qed.

Lemma contains_true s n : contains s n = true ↔ ∃ u v, s = u +:+ n +:+ v.
Proof.
  split.
  - induction s as [|a s IH]; simpl.
    + rewrite orb_false_r. intros [r Hr]%starts_with_true. by exists "", r.
    + intros [[r Hr]%starts_with_true|H]%orb_true_iff; [by exists "", r|].
      destruct (IH H) as (u & v & ->). by exists (String a u), v.
  - intros (u & v & ->). induction u as [|a u IH].
    + rewrite ?app_nil_l. destruct (n +:+ v) eqn:E; simpl; rewrite <-E, starts_with_app; done.
    + rewrite ?app_cons. simpl. by rewrite IH, orb_true_r.
Qed.

Lemma contains_refl s : contains s s = true.
Proof. apply contains_true. exists "", "". by rewrite app_nil_r. Qed.

Lemma contains_mid u n v : contains (u +:+ n +:+ v) n = true.
Proof. apply contains_true. by exists u, v. Qed.

(** ** Splitting on a byte *)

Definition lacks (c : byte) (s : string) : bool := all_bytes (λ a, negb (a =? c)%char) s.

Lemma lacks_app c s t : lacks c (s +:+ t) = lacks c s && lacks c t.
Proof. apply all_bytes_app. Qed.

Lemma split_byte_not_nil c s : split_byte c s ≠ [].
Proof. destruct s as [|a s]; simpl; [done|]. destruct (_ =? _)%char; [done|]. by destruct (split_byte c s). Qed.

Lemma split_byte_lacks c s : lacks c s = true → split_byte c s = [s].
Proof.
  induction s as [|a s IH]; [done|]. simpl. intros [Ha Hs]%andb_true_iff.
  destruct (a =? c)%char; [done|]. by rewrite IH.
Qed.

Lemma split_byte_app c w r :
  lacks c w = true → split_byte c (w +:+ String c r) = w :: split_byte c r.
Proof.
  induction w as [|a w IH]; simpl.
  - intros _. rewrite ?app_nil_l; simpl. by rewrite Ascii.eqb_refl.
  - intros [Ha Hw]%andb_true_iff. rewrite ?app_cons. simpl.
    destruct (a =? c)%char; [done|]. by rewrite IH.
Qed.

Lemma join_cons_cons sep x y l : join sep (x :: y :: l) = x +:+ sep +:+ join sep (y :: l).
Proof. done. Qed.

(** [join] undoes [split_byte]. *)
Lemma join_split_byte c s : join (String c "") (split_byte c s) = s.
Proof.
  induction s as [|a s IH]; [done|]. simpl.
  destruct (a =? c)%char eqn:E.
  - apply Ascii.eqb_eq in E as ->.
    destruct (split_byte c s) as [|h t] eqn:Es; [by apply split_byte_not_nil in Es|].
    rewrite join_cons_cons, IH. done.
  - destruct (split_byte c s) as [|h t] eqn:Es; [by apply split_byte_not_nil in Es|].
    simpl in *. rewrite <-IH. by destruct t.
Qed.

(** [split_byte] undoes [join] on fields without the separator. *)
Lemma split_byte_join c l :
  l ≠ [] → Forall (λ w, lacks c w = true) l → split_byte c (join (String c "") l) = l.
Proof.
  induction l as [|x [|y l] IH]; intros Hne Hl; [done|..]; inversion_clear Hl as [|?? Hx Hl'].
  - simpl. by apply split_byte_lacks.
  - rewrite join_cons_cons, app_cons, app_nil_l, split_byte_app by done. f_equal. by apply IH.
Qed.

Lemma split_byte_fields_lack c s : Forall (λ w, lacks c w = true) (split_byte c s).
Proof.
  induction s as [|a s IH]; simpl; [by constructor|].
  destruct (a =? c)%char eqn:E; [by constructor|].
  destruct (split_byte c s) as [|h t]; simpl.
  - constructor; [|done]. unfold lacks; simpl. by rewrite E.
  - inversion_clear IH. constructor; [|done]. unfold lacks in *; simpl. by rewrite E.
Qed.

Lemma split_once_app c h t : lacks c h = true → split_once c (h +:+ String c t) = Some (h, t).
Proof.
  induction h as [|a h IH]; simpl.
  - intros _. rewrite ?app_nil_l; simpl. by rewrite Ascii.eqb_refl.
  - intros [Ha Hh]%andb_true_iff. rewrite ?app_cons. simpl.
    destruct (a =? c)%char; [done|]. by rewrite IH.
Qed.

Lemma split_once_lacks c s : lacks c s = true → split_once c s = None.
Proof.
  induction s as [|a s IH]; [done|]. simpl. intros [Ha Hs]%andb_true_iff.
  destruct (a =? c)%char; [done|]. by rewrite IH.
Qed.

Lemma rsplit_once_app c h t : lacks c t = true → rsplit_once c (h +:+ String c t) = Some (h, t).
Proof.
  intros Ht.
  assert (Hnone : rsplit_once c t = None).
  { induction t as [|a t IH]; [done|]. simpl in *. apply andb_true_iff in Ht as [Ha Ht].
    rewrite IH by done. by destruct (a =? c)%char. }
  induction h as [|a h IH].
  - rewrite ?app_nil_l; simpl. by rewrite Hnone, Ascii.eqb_refl.
  - rewrite ?app_cons. simpl. by rewrite IH.
Qed.

Lemma rsplit_once_lacks c s : lacks c s = true → rsplit_once c s = None.
Proof.
  induction s as [|a s IH]; [done|]. simpl. intros [Ha Hs]%andb_true_iff.
  rewrite IH by done. by destruct (a =? c)%char.
Qed.

(** ** Lines *)

Lemma ends_with_byte_app a s : ends_with_byte a (s +:+ String a "") = true.
Proof.
  induction s as [|b s IH]; [by rewrite ?app_nil_l; simpl; rewrite Ascii.eqb_refl|].
  rewrite ?app_cons. simpl. destruct (s +:+ _) eqn:E; [|done]. by destruct s.
Qed.

Lemma strip_suffix_byte_app a s : strip_suffix_byte a (s +:+ String a "") = Some s.
Proof.
  induction s as [|b s IH]; [by rewrite ?app_nil_l; simpl; rewrite Ascii.eqb_refl|].
  rewrite ?app_cons. simpl. rewrite IH. destruct (s +:+ _) eqn:E; [|done]. by destruct s.
Qed.

Lemma strip_suffix_byte_Some a s r : strip_suffix_byte a s = Some r → s = r +:+ String a "".
Proof.
  revert r; induction s as [|b s IH]; intros r; [done|]. simpl. destruct s as [|b' s].
  - destruct (b =? a)%char eqn:E; [|done]. apply Ascii.eqb_eq in E as ->. by intros [= <-].
  - intros (r' & Hr & ->)%fmap_Some. rewrite ?app_cons. f_equal. by apply IH.
Qed.

Lemma strip_suffix_byte_lacks a s : lacks a s = true → strip_suffix_byte a s = None.
Proof.
  destruct (strip_suffix_byte a s) as [r|] eqn:E; [|done].
  apply strip_suffix_byte_Some in E as ->. rewrite lacks_app.
  unfold lacks; simpl. by rewrite Ascii.eqb_refl, andb_false_r.
Qed.

Lemma split_inclusive_app w r :
  lacks nl w = true →
  split_inclusive_nl (w +:+ String nl r) = (w +:+ String nl "") :: split_inclusive_nl r.
Proof.
  induction w as [|a w IH]; simpl; [done|].
  intros [Ha Hw]%andb_true_iff. rewrite ?app_cons. simpl.
  destruct (a =? nl)%char; [done|]. by rewrite IH.
Qed.

Lemma split_inclusive_lacks w :
  lacks nl w = true → w ≠ "" → split_inclusive_nl w = [w].
Proof.
  induction w as [|a w IH]; [done|]. simpl. intros [Ha Hw]%andb_true_iff _.
  destruct (a =? nl)%char; [done|]. destruct w as [|b w]; [done|]. by rewrite IH.
Qed.

(** A terminated line with no carriage return comes off the front of [lines]. *)
Lemma lines_cons w r :
  lacks nl w = true → lacks cr w = true → lines (w +:+ String nl r) = w :: lines r.
Proof.
  intros Hnl Hcr. unfold lines. rewrite split_inclusive_app by done. simpl. f_equal.
  unfold strip_line_end. by rewrite strip_suffix_byte_app, strip_suffix_byte_lacks.
Qed.

Lemma lines_crlf w r : lacks nl w = true → lines (w +:+ String cr (String nl r)) = w :: lines r.
Proof.
  intros Hnl. replace (w +:+ String cr (String nl r)) with ((w +:+ String cr "") +:+ String nl r)
    by (rewrite app_assoc; done).
  unfold lines. rewrite split_inclusive_app by (by rewrite lacks_app, Hnl). simpl. f_equal.
  unfold strip_line_end. by rewrite !strip_suffix_byte_app.
Qed.

Lemma lines_nil s : lines s = [] → s = "".
Proof.
  destruct s as [|a s]; [done|]. unfold lines. simpl. destruct (a =? nl)%char; [done|].
  by destruct (split_inclusive_nl s).
Qed.

Lemma ends_with_byte_lacks a s : lacks a s = true → ends_with_byte a s = false.
Proof.
  induction s as [|b s IH]; [done|]. intros [Hb Hs]%andb_true_iff. simpl.
  destruct s; [by destruct (b =? a)%char|]. by apply IH.
Qed.

Lemma lines_single w : lacks nl w = true → lacks cr w = true → lines (w +:+ String nl "") = [w].
Proof. intros. by rewrite lines_cons. Qed.

(** How the first line sits in the text. *)
Lemma lines_inv s l ls :
  lines s = l :: ls →
  ∃ r, lines r = ls ∧
    (s = l +:+ String nl r ∨ s = l +:+ String cr (String nl r) ∨ s = l ∧ r = "").
Proof.
  unfold lines.
  assert (Hsplit : s = "" ∨ (lacks nl s = true ∧ s ≠ "") ∨
    ∃ w r, lacks nl w = true ∧ s = w +:+ String nl r).
  { induction s as [|a s IH]; [by left|right].
    destruct (a =? nl)%char eqn:Ea.
    - right. apply Ascii.eqb_eq in Ea as ->. by exists "", s.
    - destruct IH as [->|[[H ?]|(w & r & Hw & ->)]].
      + left. unfold lacks; simpl. by rewrite Ea.
      + left. unfold lacks in *; simpl. by rewrite Ea.
      + right. exists (String a w), r. unfold lacks in *; simpl. by rewrite Ea. }
  destruct Hsplit as [->|[[H Hne]|(w & r & Hw & ->)]]; [done|..].
  - rewrite split_inclusive_lacks by done. simpl. intros [= <- <-].
    exists "". split; [done|]. do 2 right. unfold strip_line_end.
    by rewrite strip_suffix_byte_lacks.
  - rewrite split_inclusive_app by done. simpl. intros [= <- <-].
    exists r. split; [done|]. unfold strip_line_end. rewrite strip_suffix_byte_app.
    destruct (strip_suffix_byte cr w) as [w'|] eqn:E; simpl; [|by left].
    apply strip_suffix_byte_Some in E as ->. right; left. by rewrite app_assoc.
Qed.

(** ** White space and words *)

(** Printable, non-blank ASCII. *)
Definition graphic : byte → bool := in_range 33 126.

(** A non-empty run of printable ASCII: what [split_whitespace] returns whole. *)
Definition is_word (s : string) : bool := negb (is_empty s) && all_bytes graphic s.

Lemma in_range_true lo hi a : in_range lo hi a = true ↔ (lo ≤ code a ≤ hi)%N.
Proof. unfold in_range. rewrite andb_true_iff, !N.leb_le. done. Qed.

Lemma graphic_ws1 a : graphic a = true → ws1 a = false.
Proof.
  unfold ws1, graphic. rewrite in_range_true. intros H.
  apply orb_false_iff; split; [|by apply N.eqb_neq; lia].
  apply not_true_iff_false. rewrite in_range_true. lia.
Qed.

Lemma graphic_ws2 a b : graphic a = true → ws2 a b = false.
Proof.
  unfold ws2, graphic. rewrite in_range_true. intros H.
  assert (E : (code a =? 194)%N = false) by (apply N.eqb_neq; lia). by rewrite E.
Qed.

Lemma graphic_ws3 a b c : graphic a = true → ws3 a b c = false.
Proof.
  unfold ws3, graphic. rewrite in_range_true. intros H.
  assert (E : (code a =? 225)%N = false ∧ (code a =? 226)%N = false ∧ (code a =? 227)%N = false)
    by (splits; apply N.eqb_neq; lia).
  destruct E as (-> & -> & ->). done.
Qed.

Lemma graphic_lacks a s : graphic a = false → all_bytes graphic s = true → lacks a s = true.
Proof.
  intros Ha. apply all_bytes_impl. intros b Hb. apply negb_true_iff, Ascii.eqb_neq.
  intros ->. congruence.
Qed.

Lemma split_ws_cons a r :
  graphic a = true → split_ws (String a r) = push_head a (split_ws r).
Proof.
  intros Ha. destruct r as [|b [|c r]]; simpl;
    rewrite ?(graphic_ws1 a), ?(graphic_ws2 a), ?(graphic_ws3 a) by done; done.
Qed.

Lemma split_ws_space r : split_ws (String space r) = "" :: split_ws r.
Proof. done. Qed.

Lemma split_ws_word w r :
  all_bytes graphic w = true → split_ws (w +:+ String space r) = w :: split_ws r.
Proof.
  induction w as [|a w IH]; [done|]. cbn [all_bytes].
  intros [Ha Hw]%andb_true_iff. rewrite ?app_cons, split_ws_cons, IH by done. done.
Qed.

Lemma split_ws_last w : all_bytes graphic w = true → split_ws w = [w].
Proof.
  induction w as [|a w IH]; [done|]. simpl all_bytes. intros [Ha Hw]%andb_true_iff.
  rewrite split_ws_cons, IH by done. done.
Qed.

Lemma is_word_spec w : is_word w = true ↔ w ≠ "" ∧ all_bytes graphic w = true.
Proof. unfold is_word. rewrite andb_true_iff. destruct w; simpl; [split; [by intros [? _]|by intros [? _]]|]. split; intros [_ ?]; done. Qed.

(** Words joined by single spaces split back into the same words. *)
Lemma split_whitespace_join l :
  Forall (λ w, is_word w = true) l → split_whitespace (join " " l) = l.
Proof.
  unfold split_whitespace. induction l as [|x [|y l] IH]; intros Hl; [done|..];
    inversion_clear Hl as [|?? [Hne Hx]%is_word_spec Hl'].
  - simpl. rewrite split_ws_last by done. rewrite filter_cons_True by (by destruct x). done.
  - rewrite join_cons_cons. change (" " +:+ ?s) with (String space s).
    rewrite split_ws_word by done. rewrite filter_cons_True by (by destruct x).
    f_equal. by apply IH.
Qed.

Lemma split_whitespace_space s : split_whitespace (String space s) = split_whitespace s.
Proof. unfold split_whitespace. rewrite split_ws_space. by rewrite filter_cons_False. Qed.

Lemma lacks_join c sep l :
  lacks c sep = true → Forall (λ w, lacks c w = true) l → lacks c (join sep l) = true.
Proof.
  intros Hs. induction l as [|x [|y l] IH]; intros Hl; [done|by inversion Hl|].
  inversion_clear Hl. rewrite join_cons_cons, !lacks_app. rewrite H, Hs, IH by done. done.
Qed.

Lemma split_whitespace_word_cons w r :
  is_word w = true → split_whitespace (w +:+ String space r) = w :: split_whitespace r.
Proof.
  intros [Hne Hw]%is_word_spec. unfold split_whitespace.
  rewrite split_ws_word by done. rewrite filter_cons_True by (by destruct w). done.
Qed.

Lemma split_whitespace_word w : is_word w = true → split_whitespace w = [w].
Proof. intros H. apply (split_whitespace_join [w]). by constructor. Qed.

Lemma trim_start_graphic a r : graphic a = true → trim_start (String a r) = String a r.
Proof.
  intros Ha. destruct r as [|b [|c r]]; simpl;
    rewrite ?(graphic_ws1 a), ?(graphic_ws2 a), ?(graphic_ws3 a) by done; done.
Qed.

(** A string whose last byte is printable ASCII is not all white space. *)
Lemma trim_start_last_graphic s z : graphic z = true → trim_start (s +:+ String z "") ≠ "".
Proof.
  intros Hz.
  assert (H : ∀ n s, len s < n → trim_start (s +:+ String z "") ≠ ""); [|by apply (H (S (len s))); lia].
  assert (Hz1 := graphic_ws1 z Hz).
  assert (Hz2 : ∀ a, ws2 a z = false).
  { intros a. unfold ws2, graphic in *. apply in_range_true in Hz.
    apply andb_false_iff; right. apply orb_false_iff; split; apply N.eqb_neq; lia. }
  assert (Hz3 : ∀ a b, ws3 a b z = false).
  { intros a b. unfold ws3, graphic in *. apply in_range_true in Hz.
    assert (E : ∀ k, (k =? 128)%N || (k =? 159)%N || (k =? 168)%N || (k =? 169)%N || (k =? 175)%N = true →
      (code z =? k)%N = false) by (intros k Hk; apply N.eqb_neq; intros E; rewrite <-E in Hk;
        repeat apply orb_true_iff in Hk as [Hk|Hk]; apply N.eqb_eq in Hk; lia).
    assert (E2 : in_range 128 138 z = false) by (apply not_true_iff_false; rewrite in_range_true; lia).
    rewrite !E, E2 by done. rewrite ?andb_false_r. done. }
  induction n as [|n IH]; [lia|]. intros [|a [|b [|c t]]] Hn; simpl in *; cbn.
  - by rewrite Hz1.
  - rewrite Hz1, Hz2. by destruct (ws1 a).
  - rewrite Hz1, Hz2, Hz3. by destruct (ws1 a), (ws2 a b), (ws1 b).
  - pose proof (IH (String b (String c t)) ltac:(simpl; lia)) as H1.
    pose proof (IH (String c t) ltac:(simpl; lia)) as H2.
    pose proof (IH t ltac:(simpl; lia)) as H3.
    destruct (ws1 a); [exact H1|]. destruct (ws2 a b); [exact H2|].
    destruct (ws3 a b c); [exact H3|done].
Qed.

Lemma trim_end_last_graphic s z : graphic z = true → trim_end (s +:+ String z "") = s +:+ String z "".
Proof.
  intros Hz. induction s as [|a s IH].
  - simpl. by rewrite graphic_ws1.
  - rewrite ?app_cons. cbn [trim_end].
    destruct (is_empty (trim_start (String a (s +:+ String z "")))) eqn:E; [|by rewrite IH].
    exfalso. apply (trim_start_last_graphic (String a s) z Hz). rewrite ?app_cons.
    by destruct (trim_start _).
Qed.

(** [trim] leaves text that begins and ends with a printable byte alone. *)
Lemma trim_graphic a s z :
  graphic a = true → graphic z = true →
  trim (String a (s +:+ String z "")) = String a (s +:+ String z "").
Proof.
  intros Ha Hz. unfold trim. rewrite trim_start_graphic by done.
  apply (trim_end_last_graphic (String a s) z Hz).
Qed.

Lemma str_last_inv s : s = "" ∨ ∃ t z, s = t +:+ String z "".
Proof.
  induction s as [|a s [->|(t & z & ->)]]; [by left|right; by exists "", a|].
  right. by exists (String a t), z.
Qed.

Lemma trim_word w : is_word w = true → trim w = w.
Proof.
  intros [Hne Hw]%is_word_spec. destruct (str_last_inv w) as [->|(t & z & ->)]; [done|].
  rewrite all_bytes_app in Hw. simpl in Hw. boolify. unfold trim.
  destruct t as [|a t].
  - rewrite ?app_nil_l, trim_start_graphic by done.
    by apply (trim_end_last_graphic "" z).
  - cbn [all_bytes] in *. boolify. rewrite ?app_cons, trim_start_graphic by done.
    by apply (trim_end_last_graphic (String a t)).
Qed.

(** ** Decimal printing and parsing *)

Lemma digit_char_code d : (d < 10)%N → code (pretty_N_char d) = (48 + d)%N.
Proof.
  intros H.
  assert (d = 0 ∨ d = 1 ∨ d = 2 ∨ d = 3 ∨ d = 4 ∨ d = 5 ∨ d = 6 ∨ d = 7 ∨ d = 8 ∨ d = 9)%N as Hd by lia.
  by destruct_or! Hd; subst.
Qed.

Lemma digit_value_char d : (d < 10)%N → digit_value (pretty_N_char d) = Some d.
Proof.
  intros H. unfold digit_value, is_ascii_digit.
  assert (E : in_range 48 57 (pretty_N_char d) = true)
    by (apply in_range_true; rewrite digit_char_code; lia).
  rewrite E, digit_char_code by done. f_equal; lia.
Qed.

Lemma pretty_go_digits p x s :
  (∀ d, (d < 10)%N → p (pretty_N_char d) = true) →
  all_bytes p s = true → all_bytes p (pretty_N_go x s) = true.
Proof.
  intros Hp. revert s. induction (N.lt_wf_0 x) as [x _ IH]; intros s Hs.
  assert (x = 0 ∨ 0 < x)%N as [->|Hx] by lia; [by rewrite pretty_N_go_0|].
  rewrite pretty_N_go_step by done. apply IH; [by apply N.div_lt|].
  simpl. rewrite Hp, Hs by (by apply N.mod_lt). done.
Qed.

Lemma pretty_go_nonempty x s : s ≠ "" → pretty_N_go x s ≠ "".
Proof.
  revert s. induction (N.lt_wf_0 x) as [x _ IH]; intros s Hs.
  assert (x = 0 ∨ 0 < x)%N as [->|Hx] by lia; [by rewrite pretty_N_go_0|].
  rewrite pretty_N_go_step by done. apply IH; [by apply N.div_lt|done].
Qed.

Lemma show_N_digits n : all_bytes is_ascii_digit (show_N n) = true.
Proof.
  unfold show_N, pretty, pretty_N. case_decide; [done|].
  apply pretty_go_digits; [|done]. intros d Hd. apply in_range_true. rewrite digit_char_code; lia.
Qed.

Lemma show_N_nonempty n : show_N n ≠ "".
Proof.
  unfold show_N, pretty, pretty_N. case_decide; [done|].
  rewrite pretty_N_go_step by lia. by apply pretty_go_nonempty.
Qed.

#[export] Instance show_N_inj : Inj (=) (=) show_N.
Proof. apply pretty_N_inj. Qed.

Lemma digit_graphic a : is_ascii_digit a = true → graphic a = true.
Proof. unfold is_ascii_digit, graphic. rewrite !in_range_true. lia. Qed.

Lemma show_N_word n : is_word (show_N n) = true.
Proof.
  apply is_word_spec. split; [apply show_N_nonempty|].
  eapply all_bytes_impl; [apply digit_graphic|apply show_N_digits].
Qed.

Lemma show_N_lacks c n : is_ascii_digit c = false → lacks c (show_N n) = true.
Proof.
  intros Hc. eapply all_bytes_impl; [|apply (show_N_digits n)].
  intros a Ha. apply negb_true_iff, Ascii.eqb_neq. intros ->. congruence.
Qed.

(** Parsing the digits of [x] followed by [s] continues from [acc*10^k + x]. *)
Lemma parse_digits_pretty max x s :
  (0 < x ≤ max)%N → parse_digits max 0 (pretty_N_go x s) = parse_digits max x s.
Proof.
  revert s. induction (N.lt_wf_0 x) as [x _ IH]; intros s [Hx Hmax].
  rewrite pretty_N_go_step by done.
  assert (Hmod : (x mod 10 < 10)%N) by (by apply N.mod_lt).
  assert (Hdm := N.div_mod x 10 ltac:(done)).
  assert (Hstep : ∀ v, (v * 10 + x mod 10 ≤ max)%N →
    parse_digits max v (String (pretty_N_char (x mod 10)) s) = parse_digits max (v * 10 + x mod 10) s).
  { intros v Hv. cbn [parse_digits]. rewrite digit_value_char by done.
    cbv zeta. by apply N.leb_le in Hv as ->. }
  assert (x / 10 = 0 ∨ 0 < x / 10)%N as [E|E] by lia.
  - rewrite E, pretty_N_go_0, Hstep by lia. f_equal. lia.
  - assert (Hlt : (x / 10 < x)%N) by (by apply N.div_lt).
    rewrite IH, Hstep by lia. f_equal. lia.
Qed.

Lemma digit_not_plus a : is_ascii_digit a = true → (a =? "+")%char = false.
Proof.
  intros H. apply Ascii.eqb_neq. intros ->. done.
Qed.

Lemma parse_uint_digits max s :
  s ≠ "" → all_bytes is_ascii_digit s = true → parse_uint max s = parse_digits max 0 s.
Proof.
  destruct s as [|a s]; [done|]. simpl. intros _ [Ha _]%andb_true_iff.
  by rewrite digit_not_plus.
Qed.

(** Printing then parsing is the identity up to the type's maximum. *)
Lemma parse_show_N max n : (n ≤ max)%N → parse_uint max (show_N n) = Some n.
Proof.
  intros Hn. rewrite parse_uint_digits by (apply show_N_nonempty || apply show_N_digits).
  unfold show_N, pretty, pretty_N. case_decide as E.
  - subst. by destruct max.
  - by rewrite parse_digits_pretty by lia.
Qed.

Lemma parse_digits_bound max acc s v : (acc ≤ max)%N → parse_digits max acc s = Some v → (v ≤ max)%N.
Proof.
  revert acc; induction s as [|a s IH]; intros acc Hacc; cbn [parse_digits]; [by intros [= <-]|].
  destruct (digit_value a) as [d|]; [|done]. cbv zeta.
  destruct (acc * 10 + d <=? max)%N eqn:E; [|done]. apply N.leb_le in E. by apply IH.
Qed.

(** A parsed integer fits its type. *)
Lemma parse_uint_bound max s v : parse_uint max s = Some v → (v ≤ max)%N.
Proof.
  destruct s as [|a s]; [done|]. unfold parse_uint.
  destruct (a =? "+")%char.
  - destruct (is_empty s); [done|]. apply parse_digits_bound. lia.
  - apply parse_digits_bound. lia.
Qed.

(** ** IPv4 round trip *)

Lemma parse_octet_show o : (o ≤ 255)%N → parse_octet (show_N o) = Some o.
Proof.
  intros Ho.
  assert (H : forallb (λ o, bool_decide (parse_octet (show_N o) = Some o)) (N.of_nat <$> seq 0 256) = true)
    by (vm_compute; done).
  rewrite forallb_forall in H. specialize (H o). apply bool_decide_eq_true in H; [done|].
  apply list_elem_of_In, list_elem_of_fmap. exists (N.to_nat o). split; [lia|].
  apply elem_of_seq. lia.
Qed.

Lemma octet_le ip i : (octet ip i ≤ 255)%N.
Proof. unfold octet. pose proof (N.mod_lt (N.shiftr ip (8 * (3 - i))) 256). lia. Qed.

Lemma ipv4_octets ip :
  (ip < 4294967296)%N → ipv4 (octet ip 0) (octet ip 1) (octet ip 2) (octet ip 3) = ip.
Proof.
  intros H. unfold ipv4, octet. rewrite !N.shiftr_div_pow2.
  change (2 ^ (8 * (3 - 0)))%N with 16777216%N. change (2 ^ (8 * (3 - 1)))%N with 65536%N.
  change (2 ^ (8 * (3 - 2)))%N with 256%N. change (2 ^ (8 * (3 - 3)))%N with 1%N.
  rewrite N.div_1_r.
  pose proof (N.div_mod ip 256 ltac:(done)) as E0.
  pose proof (N.div_mod (ip / 256) 256 ltac:(done)) as E1.
  pose proof (N.div_mod (ip / 65536) 256 ltac:(done)) as E2.
  rewrite N.Div0.div_div in E1, E2.
  change (256 * 256)%N with 65536%N in E1. change (65536 * 256)%N with 16777216%N in E2.
  assert (ip / 16777216 < 256)%N by (apply N.Div0.div_lt_upper_bound; lia).
  rewrite (N.mod_small (ip / 16777216)) by done. lia.
Qed.

(** Printing then parsing an address is the identity. *)
Lemma parse_show_ipv4 ip : (ip < 4294967296)%N → parse_ipv4 (show_ipv4 ip) = Some ip.
Proof.
  intros H. unfold parse_ipv4, show_ipv4.
  assert (Hl : ∀ n, lacks "." (show_N n) = true) by (intros; by apply show_N_lacks).
  repeat match goal with |- context ["." +:+ ?s] => change ("." +:+ s) with (String "." s) end.
  rewrite !split_byte_app, split_byte_lacks by apply Hl.
  rewrite !parse_octet_show by apply octet_le. by rewrite ipv4_octets.
Qed.

Lemma parse_octet_bound s o : parse_octet s = Some o → (o ≤ 255)%N.
Proof.
  unfold parse_octet. destruct s as [|a r]; [done|]. destruct (3 <? _); [done|].
  destruct (_ && _)%bool; [done|]. intros H%parse_digits_bound; [done|]. unfold u8_max. lia.
Qed.

Lemma parse_ipv4_bound s ip : parse_ipv4 s = Some ip → (ip ≤ u32_max)%N.
Proof.
  unfold parse_ipv4. destruct (split_byte "." s) as [|a [|b [|c [|d []]]]]; try done.
  destruct (parse_octet a) as [a'|] eqn:Ha; [|done]. destruct (parse_octet b) as [b'|] eqn:Hb; [|done].
  destruct (parse_octet c) as [c'|] eqn:Hc; [|done]. destruct (parse_octet d) as [d'|] eqn:Hd; [|done].
  apply parse_octet_bound in Ha, Hb, Hc, Hd. intros [= <-]. unfold ipv4, u32_max. lia.
Qed.

(** A byte the text lacks rules out every needle that has it. *)
Lemma contains_lacks c s n : lacks c s = true → lacks c n = false → contains s n = false.
Proof.
  intros Hs Hn. destruct (contains s n) eqn:E; [|done]. apply contains_true in E as (u & v & ->).
  rewrite !lacks_app in Hs. apply andb_true_iff in Hs as [_ Hs]. apply andb_true_iff in Hs as [Hs _].
  congruence.
Qed.

#[export] Hint Rewrite app_assoc app_nil_r strip_prefix_app : rooms.
#[export] Hint Resolve show_N_word show_N_nonempty trim_word : rooms.
