(* ===== verification/Cidr.v ===== *)
(** * Cidr: IPv4 prefixes as intervals

    The masks the code computes, and the lemmas that turn mask arithmetic into
    intervals of addresses. *)

From S2P Require Import Prelude RStr.
From stdpp Require Import options.

Definition cidr_mask (prefix : N) : N :=
  if (prefix =? 0)%N then 0%N else N.land (N.shiftl u32_max (32 - prefix)) u32_max.

(** [!mask] on [u32]. *)
Definition not_u32 (x : N) : N := N.lxor x u32_max.

(** The addresses of a network: those that agree with the network on
    the prefix. *)
Definition in_cidr (network prefix ip : N) : Prop := (ip ≤ u32_max)%N ∧ N.land ip (cidr_mask prefix) = network.

(** A network address has no bits beyond its prefix. *)
Definition is_network (network prefix : N) : Prop :=
  (prefix ≤ 32)%N ∧ ∃ address, (address ≤ u32_max)%N ∧ network = N.land address (cidr_mask prefix).

Lemma prefix_cases (f g : N → N) :
  forallb (λ p, f p =? g p)%N (N.of_nat <$> seq 0 33) = true → ∀ p, (p ≤ 32)%N → f p = g p.
Proof.
  rewrite forallb_forall. intros H p Hp. apply N.eqb_eq, H, list_elem_of_In, list_elem_of_fmap.
  exists (N.to_nat p). split; [lia|]. apply elem_of_seq. lia.
Qed.

Lemma cidr_mask_ldiff p : (p ≤ 32)%N → cidr_mask p = N.ldiff (N.ones 32) (N.ones (32 - p)).
Proof. apply (prefix_cases cidr_mask (λ p, N.ldiff _ (N.ones (32 - p)))). vm_compute. reflexivity. Qed.

Lemma not_mask p : (p ≤ 32)%N → not_u32 (cidr_mask p) = N.ones (32 - p).
Proof. apply (prefix_cases (λ p, not_u32 (cidr_mask p)) (λ p, N.ones (32 - p))). vm_compute. reflexivity. Qed.

Lemma land_mask a p :
  (p ≤ 32)%N → (a ≤ u32_max)%N → N.land a (cidr_mask p) = (a / 2 ^ (32 - p) * 2 ^ (32 - p))%N.
Proof.
  intros Hp Ha. rewrite cidr_mask_ldiff by done.
  assert (E : N.land a (N.ldiff (N.ones 32) (N.ones (32 - p))) = N.ldiff (N.land a (N.ones 32)) (N.ones (32 - p))).
  { apply N.bits_inj. intros i. by rewrite N.land_spec, !N.ldiff_spec, N.land_spec, andb_assoc. }
  rewrite E, N.land_ones, N.mod_small by (unfold u32_max in Ha; lia).
  by rewrite N.ldiff_ones_r, N.shiftl_mul_pow2, N.shiftr_div_pow2.
Qed.

Lemma route_end_eq q n : N.lor (q * 2 ^ n) (N.ones n) = (q * 2 ^ n + (2 ^ n - 1))%N.
Proof.
  rewrite N.ones_equiv, <- N.sub_1_r.
  assert (Hdis : N.land (q * 2 ^ n) (2 ^ n - 1) = 0%N).
  { rewrite N.sub_1_r, <- N.ones_equiv, N.land_ones, N.Div0.mod_mul. done. }
  by rewrite N.add_nocarry_lxor, N.lxor_lor by done.
Qed.

Lemma div_interval x m q : (m ≠ 0 → x / m = q ↔ q * m ≤ x ≤ q * m + (m - 1))%N.
Proof.
  intros Hm. split.
  - intros <-. pose proof (N.div_mod x m Hm) as E. pose proof (N.mod_lt x m Hm) as Hr.
    revert E Hr. generalize (x / m)%N (x mod m)%N. intros d r -> Hr. rewrite N.mul_comm. lia.
  - intros H. symmetry. apply (N.div_unique _ _ _ (x - q * m)); [lia|]. rewrite N.mul_comm. lia.
Qed.

(** A destination is an interval. *)
Lemma in_cidr_interval network prefix ip :
  is_network network prefix →
  in_cidr network prefix ip ↔ (network ≤ ip ≤ network + (2 ^ (32 - prefix) - 1))%N.
Proof.
  intros (Hp & a & Ha & ->). rewrite (land_mask a) by done. set (n := (32 - prefix)%N) in *.
  assert (Hpow : (2 ^ n ≠ 0)%N) by (apply N.pow_nonzero; lia). unfold in_cidr.
  assert (Hq : (a / 2 ^ n < 2 ^ prefix)%N).
  { apply N.Div0.div_lt_upper_bound. rewrite <- N.pow_add_r. replace (n + prefix)%N with 32%N by lia.
    unfold u32_max in Ha. change (2 ^ 32)%N with 4294967296%N. lia. }
  assert (E : (2 ^ prefix * 2 ^ n = 4294967296)%N).
  { rewrite <- N.pow_add_r. by replace (prefix + n)%N with 32%N by lia. }
  rewrite <- div_interval by done. split.
  - intros [Hu H]. rewrite land_mask in H by done. by apply N.mul_cancel_r in H.
  - intros H. assert (Hu : (ip ≤ u32_max)%N).
    { apply div_interval in H as [_ H]; [|done]. revert H E Hq. unfold u32_max.
      generalize (2 ^ n)%N (2 ^ prefix)%N (a / 2 ^ n)%N. intros m b q H E Hq. nia. }
    split; [done|]. rewrite land_mask by done. fold n. by rewrite H.
Qed.
