(* ===== verification/Fs.v ===== *)
(** * Fs: files, system calls and faults

    The code keeps its durable state in files.  A world holds a tree of regular
    files and directories and a schedule of faults.  Every system call takes
    the next entry of the schedule: the call may pass, fail with an error and
    no effect, be cut short (a partial write), or the process may die at the
    call, leaving what the earlier calls did.  A theorem that quantifies over
    worlds therefore covers every error and every crash point.

    A path is its list of components.  A symbolic link can be made, read back,
    renamed and removed; only [canonicalize] and the calls built on it follow
    one, opening one is an error elsewhere.  Permissions and the order in which
    data reaches the disk are not modelled. *)

From S2P Require Import Prelude RStr.
From stdpp Require Import options.

Abbreviation path := (list string) (only parsing).

(** [Path::join] of one component. *)
Definition pjoin (p : path) (name : string) : path := p ++ [name].

Lemma pjoin_inj (p : path) a b : pjoin p a = pjoin p b ↔ a = b.
Proof. unfold pjoin. split; [by intros [= ?]%(inj (app p))|by intros ->]. Qed.

Lemma pjoin_ne (p : path) a b : a ≠ b → pjoin p a ≠ pjoin p b.
Proof. by rewrite pjoin_inj. Qed.

#[export] Hint Resolve pjoin_ne : rooms.

(** ** Errors and outcomes *)

Inductive errkind :=
| NotFound | AlreadyExists | PermissionDenied | InvalidInput | InvalidData
| IsADirectory | NotADirectory | WouldBlock | OtherKind.

#[export] Instance errkind_eq_dec : EqDecision errkind.
Proof. solve_decision. Defined.

Record io_error := IoError { kind : errkind; message : string }.

#[export] Instance io_error_eq_dec : EqDecision io_error.
Proof. solve_decision. Defined.

Definition io_err (k : errkind) : io_error := IoError k "".

Inductive fault :=
| Pass
| Fail (e : io_error)
| Short (n : nat) (e : io_error)
| Halt
| HaltShort (n : nat).

Inductive node := File (contents : string) | Dir | Link (target : string).

#[export] Instance node_eq_dec : EqDecision node.
Proof. solve_decision. Defined.

Abbreviation tree := (@gmap (list string) (@list_eq_dec string String.eq_dec)
  (@list_countable string String.eq_dec String.countable) node) (only parsing).

Record world := World { fs : gmap (list string) node; faults : list fault }.

(** A computation ends with a Rust result, or the process died inside it. *)
Inductive outcome (E A : Type) : Type :=
| Done (r : result E A)
| Crashed.
Arguments Done {E A} r.
Arguments Crashed {E A}.

Definition io (E A : Type) : Type := world → outcome E A * world.

Definition ret {E A : Type} (a : A) : io E A := λ w, (Done (Ok a), w).
Definition throw {E A : Type} (e : E) : io E A := λ w, (Done (Err e), w).

Definition bind {E A B : Type} (m : io E A) (k : A → io E B) : io E B := λ w,
  match m w with
  | (Done (Ok a), w') => k a w'
  | (Done (Err e), w') => (Done (Err e), w')
  | (Crashed, w') => (Crashed, w')
  end.

(** The error type of a function whose Rust signature has no [Result]. *)
Definition infallible : Type := Empty_set.

(** Read a computation's result as a value; a crash still ends everything. *)
Definition attempt {E E' A : Type} (m : io E A) : io E' (result E A) := λ w,
  match m w with
  | (Done r, w') => (Done (Ok r), w')
  | (Crashed, w') => (Crashed, w')
  end.

(** Rust's [map_err]. *)
Definition lift_err {E E' A : Type} (f : E → E') (m : io E A) : io E' A := λ w,
  match m w with
  | (Done r, w') => (Done (map_err f r), w')
  | (Crashed, w') => (Crashed, w')
  end.

Definition of_result {E A : Type} (r : result E A) : io E A := λ w, (Done r, w).

Notation "'let!' x ':=' m 'in' k" := (bind m (λ x, k))
  (at level 10, x pattern, m at level 100, k at level 200) : rooms_scope.
Notation "'do!' m 'in' k" := (bind m (λ _, k))
  (at level 10, m at level 100, k at level 200) : rooms_scope.

(** ** System calls *)

(** An injected failure never pretends to report on what the tree holds: the
    kinds [NotFound] and [AlreadyExists] come from the tree only. *)
Definition inject (e : io_error) : io_error :=
  match kind e with
  | NotFound | AlreadyExists => IoError OtherKind (message e)
  | _ => e
  end.

Definition injected (e : io_error) : Prop := kind e ≠ NotFound ∧ kind e ≠ AlreadyExists.

Lemma inject_injected e : injected (inject e).
Proof. unfold injected, inject. by destruct (kind e) eqn:E; simpl; rewrite ?E. Qed.

(** Run [act] under the next fault.  [part n] is the effect of a call cut short
    after [n] bytes. *)
Definition syscall {A : Type} (part : nat → tree → tree)
    (act : tree → result io_error A * tree) : io io_error A := λ w,
  match faults w with
  | [] => let '(r, t) := act (fs w) in (Done r, World t [])
  | Pass :: l => let '(r, t) := act (fs w) in (Done r, World t l)
  | Fail e :: l => (Done (Err (inject e)), World (fs w) l)
  | Short n e :: l => (Done (Err (inject e)), World (part n (fs w)) l)
  | Halt :: l => (Crashed, World (fs w) l)
  | HaltShort n :: l => (Crashed, World (part n (fs w)) l)
  end.

Definition atomic {A : Type} (act : tree → result io_error A * tree) : io io_error A :=
  syscall (λ _ t, t) act.

Definition parent_is_dir (t : tree) (p : path) : bool :=
  match t !! removelast p with Some Dir => true | _ => bool_decide (removelast p = []) end.

(** [std::fs::read_to_string]; contents that are not UTF-8 are a fault. *)
Definition read_to_string (p : path) : io io_error string := atomic (λ t,
  match t !! p with
  | Some (File s) => (Ok s, t)
  | Some Dir => (Err (io_err IsADirectory), t)
  | Some (Link _) => (Err (io_err OtherKind), t)
  | None => (Err (io_err NotFound), t)
  end).

(** [OpenOptions::new().create(true).write(true)], truncating or not. *)
Definition open_create (truncate : bool) (p : path) : io io_error unit := atomic (λ t,
  match t !! p with
  | Some (File s) => (Ok (), if truncate then <[p := File ""]> t else t)
  | Some Dir => (Err (io_err IsADirectory), t)
  | Some (Link _) => (Err (io_err OtherKind), t)
  | None => if parent_is_dir t p then (Ok (), <[p := File ""]> t) else (Err (io_err NotFound), t)
  end).

(** [OpenOptions::new().write(true).create_new(true)]: [O_CREAT|O_EXCL]. *)
Definition open_create_new (p : path) : io io_error unit := atomic (λ t,
  match t !! p with
  | Some _ => (Err (io_err AlreadyExists), t)
  | None => if parent_is_dir t p then (Ok (), <[p := File ""]> t) else (Err (io_err NotFound), t)
  end).

Fixpoint take_bytes (n : nat) (s : string) : string :=
  match n, s with
  | S n, String a r => String a (take_bytes n r)
  | _, _ => ""
  end.

Definition append_file (p : path) (s : string) (t : tree) : tree :=
  match t !! p with Some (File old) => <[p := File (old +:+ s)]> t | _ => t end.

(** [File::write_all] on a file opened at [p]; it can be cut short. *)
Definition write_all (p : path) (s : string) : io io_error unit :=
  syscall (λ n, append_file p (take_bytes n s)) (λ t, (Ok (), append_file p s t)).

(** [std::fs::write]. *)
Definition write_file (p : path) (s : string) : io io_error unit :=
  do! open_create true p in write_all p s.

(** [File::sync_all] and directory syncs: no effect on the tree, can fail. *)
Definition sync_all (p : path) : io io_error unit := atomic (λ t, (Ok (), t)).

Definition remove_file (p : path) : io io_error unit := atomic (λ t,
  match t !! p with
  | Some (File _ | Link _) => (Ok (), delete p t)
  | Some Dir => (Err (io_err IsADirectory), t)
  | None => (Err (io_err NotFound), t)
  end).

Definition rename (a b : path) : io io_error unit := atomic (λ t,
  match t !! a, t !! b with
  | None, _ => (Err (io_err NotFound), t)
  | Some _, Some Dir => (Err (io_err IsADirectory), t)
  | Some n, _ => (Ok (), <[b := n]> (delete a t))
  end).

(** [std::fs::hard_link] of a file that is not written again: the new name holds
    the same contents. *)
Definition hard_link (a b : path) : io io_error unit := atomic (λ t,
  match t !! a, t !! b with
  | None, _ => (Err (io_err NotFound), t)
  | Some _, Some _ => (Err (io_err AlreadyExists), t)
  | Some n, None => if parent_is_dir t b then (Ok (), <[b := n]> t) else (Err (io_err NotFound), t)
  end).

(** [std::fs::set_permissions]: modes are not modelled, the call can fail. *)
Definition set_permissions (p : path) : io io_error unit := atomic (λ t,
  match t !! p with Some _ => (Ok (), t) | None => (Err (io_err NotFound), t) end).

(** [std::os::unix::fs::symlink]. *)
Definition symlink (target : string) (p : path) : io io_error unit := atomic (λ t,
  match t !! p with
  | Some _ => (Err (io_err AlreadyExists), t)
  | None =>
      if negb (target =? "")%string && parent_is_dir t p then (Ok (), <[p := Link target]> t)
      else (Err (io_err NotFound), t)
  end).

(** [std::fs::read_link]. *)
Definition read_link (p : path) : io io_error string := atomic (λ t,
  match t !! p with
  | Some (Link target) => (Ok target, t)
  | Some _ => (Err (io_err InvalidInput), t)
  | None => (Err (io_err NotFound), t)
  end).

(** [std::fs::symlink_metadata]. *)
Definition symlink_metadata (p : path) : io io_error node := atomic (λ t,
  match t !! p with Some n => (Ok n, t) | None => (Err (io_err NotFound), t) end).

(** [Path::is_dir]: a failed [stat] reads as [false]. *)
Definition is_dir {E : Type} (p : path) : io E bool :=
  let! r := attempt (symlink_metadata p) in
  ret (match r with Ok Dir => true | _ => false end).

(** Make every prefix of [p] a directory. *)
Fixpoint mkdirs (done rest : path) (t : tree) : result io_error unit * tree :=
  match rest with
  | [] => (Ok (), t)
  | c :: rest =>
      let p := done ++ [c] in
      match t !! p with
      | Some (File _ | Link _) => (Err (io_err (match rest with [] => AlreadyExists | _ => NotADirectory end)), t)
      | Some Dir => mkdirs p rest t
      | None => mkdirs p rest (<[p := Dir]> t)
      end
  end.

Definition create_dir_all (p : path) : io io_error unit := atomic (mkdirs [] p).

(** The name of [q] when it is directly under [p]. *)
Definition child_of (p q : path) : option string :=
  match rev q with
  | name :: r => if bool_decide (rev r = p) then Some name else None
  | [] => None
  end.

(** [std::fs::read_dir], as the list of entry names, in some order. *)
Definition read_dir (p : path) : io io_error (list string) := atomic (λ t,
  match t !! p with
  | Some Dir => (Ok (omap (λ '(q, _), child_of p q) (map_to_list t)), t)
  | Some (File _ | Link _) => (Err (io_err NotADirectory), t)
  | None => (Err (io_err NotFound), t)
  end).

(** One step of the directory iterator: it can fail on its own. *)
Definition dir_entry (name : string) : io io_error string := atomic (λ t, (Ok name, t)).

(** [File::lock] on an open file: no effect on the tree, can fail. *)
Definition lock_file (p : path) : io io_error unit := atomic (λ t, (Ok (), t)).

(** [File::try_lock]: [false] when another process holds the lock. *)
Definition try_lock (p : path) : io io_error bool :=
  let! r := attempt (lock_file p) in
  match r with
  | Ok _ => ret true
  | Err e => if decide (kind e = WouldBlock) then ret false else throw e
  end.

(** [Path::extension] of a name. *)
Definition extension (name : string) : option string :=
  match rsplit_once "." name with
  | Some (before, after) => if is_empty before || (name =? "..")%string then None else Some after
  | None => None
  end.

(** [Path::file_stem] of a name. *)
Definition file_stem (name : string) : string :=
  match rsplit_once "." name with
  | Some (before, _) => if is_empty before || (name =? "..")%string then name else before
  | None => name
  end.

(** ** Path texts *)

(** [std::path::Component], on Unix. *)
Inductive component := RootDir | CurDir | ParentDir | Normal (name : string).

#[export] Instance component_eq_dec : EqDecision component.
Proof. solve_decision. Defined.

(** A piece between separators: empty pieces and inner ["."] pieces vanish. *)
Definition piece (s : string) : option component :=
  if (s =? "")%string || (s =? ".")%string then None
  else if (s =? "..")%string then Some ParentDir else Some (Normal s).

(** [Path::components]. *)
Definition components (s : string) : list component :=
  if is_empty s then [] else
  match split_byte "/" s with
  | "" :: rest => RootDir :: omap piece rest
  | "." :: rest => CurDir :: omap piece rest
  | all => omap piece all
  end.

(** Equality of [Path]s. *)
Definition path_eq (a b : string) : bool := bool_decide (components a = components b).

(** How many links a lookup follows before it gives up. *)
Definition MAX_LINKS : nat := 40.

(** Name resolution: from [base], along the components, through links. *)
Fixpoint resolve (links : nat) (t : tree) : path → list component → result errkind path :=
  fix go (base : path) (rest : list component) : result errkind path :=
    match rest with
    | [] => Ok base
    | RootDir :: rest => go [] rest
    | CurDir :: rest => go base rest
    | ParentDir :: rest => go (removelast base) rest
    | Normal name :: rest' =>
        let p := base ++ [name] in
        match t !! p with
        | None => Err NotFound
        | Some (File _) => match rest' with [] => Ok p | _ => Err NotADirectory end
        | Some Dir => go p rest'
        | Some (Link target) =>
            match links with
            | 0 => Err OtherKind
            | S links => resolve links t base (components target ++ rest')
            end
        end
    end.

(** A path may hold [".."] as a name. *)
Definition path_component (name : string) : component :=
  if (name =? "..")%string then ParentDir else Normal name.

Definition resolve_path (t : tree) (p : path) : result errkind path :=
  resolve MAX_LINKS t [] (path_component <$> p).

(** [Path::exists]: a failed [stat] reads as [false]. *)
Definition exists_ {E : Type} (p : path) : io E bool :=
  let! r := attempt (atomic (λ t, (map_err io_err (resolve_path t p), t))) in
  ret (is_ok r).

(** [std::fs::canonicalize]. *)
Definition canonicalize (p : path) : io io_error path := atomic (λ t, (map_err io_err (resolve_path t p), t)).

(** [Path::is_file]: a failed [stat] reads as [false]. *)
Definition is_file {E : Type} (p : path) : io E bool :=
  let! r := attempt (atomic (λ t,
    (match resolve_path t p with Ok q => Ok (t !! q) | Err k => Err (io_err k) end, t))) in
  ret (match r with Ok (Some (File _)) => true | _ => false end).

(** [read_to_string] through links. *)
Definition read_following (p : path) : io io_error string := atomic (λ t,
  match resolve_path t p with
  | Err k => (Err (io_err k), t)
  | Ok q => match t !! q with
            | Some (File s) => (Ok s, t)
            | _ => (Err (io_err IsADirectory), t)
            end
  end).

(** Run [f] on each element in order, stopping at the first error. *)
Fixpoint for_each {E A B : Type} (f : A → io E B) (l : list A) : io E (list B) :=
  match l with
  | [] => ret []
  | x :: l => let! y := f x in let! ys := for_each f l in ret (y :: ys)
  end.

(** ** Reasoning about computations

    [wp m Q t]: started in the tree [t], the outcome of [m] and the tree it
    leaves satisfy [Q], whatever the fault schedule. *)
Definition wp {E A : Type} (m : io E A) (Q : outcome E A → tree → Prop) (t : tree) : Prop :=
  ∀ l, Q (fst (m (World t l))) (fs (snd (m (World t l)))).

Lemma wp_mono {E A : Type} (m : io E A) (Q Q' : outcome E A → tree → Prop) (t : tree) :
  wp m Q t → (∀ o u, Q o u → Q' o u) → wp m Q' t.
Proof. unfold wp. auto. Qed.

Lemma wp_ret {E A : Type} (a : A) (Q : outcome E A → tree → Prop) (t : tree) :
  Q (Done (Ok a)) t → wp (ret a) Q t.
Proof. by intros H l. Qed.

Lemma wp_throw {E A : Type} (e : E) (Q : outcome E A → tree → Prop) (t : tree) :
  Q (Done (Err e)) t → wp (throw e) Q t.
Proof. by intros H l. Qed.

Lemma wp_of_result {E A : Type} (r : result E A) (Q : outcome E A → tree → Prop) (t : tree) :
  Q (Done r) t → wp (of_result r) Q t.
Proof. by intros H l. Qed.

(** The postcondition [bind] asks of its first computation. *)
Definition bind_post {E A B : Type} (k : A → io E B) (Q : outcome E B → tree → Prop)
    (o : outcome E A) (t : tree) : Prop :=
  match o with
  | Done (Ok a) => wp (k a) Q t
  | Done (Err e) => Q (Done (Err e)) t
  | Crashed => Q Crashed t
  end.

Lemma wp_bind {E A B : Type} (m : io E A) (k : A → io E B) (Q : outcome E B → tree → Prop) (t : tree) :
  wp m (bind_post k Q) t → wp (bind m k) Q t.
Proof.
  intros Hm l. specialize (Hm l). unfold bind, bind_post in *.
  destruct (m (World t l)) as [[[a|e]|] [t' l']]; simpl in *; auto.
Qed.

Definition attempt_post {E E' A : Type} (Q : outcome E' (result E A) → tree → Prop)
    (o : outcome E A) (t : tree) : Prop :=
  match o with Done r => Q (Done (Ok r)) t | Crashed => Q Crashed t end.

Lemma wp_attempt {E E' A : Type} (m : io E A) (Q : outcome E' (result E A) → tree → Prop) (t : tree) :
  wp m (attempt_post Q) t → wp (attempt m) Q t.
Proof. intros Hm l. specialize (Hm l). unfold attempt. by destruct (m (World t l)) as [[r|] w']. Qed.

Definition lift_post {E E' A : Type} (f : E → E') (Q : outcome E' A → tree → Prop)
    (o : outcome E A) (t : tree) : Prop :=
  match o with
  | Done (Ok a) => Q (Done (Ok a)) t
  | Done (Err e) => Q (Done (Err (f e))) t
  | Crashed => Q Crashed t
  end.

Lemma wp_lift_err {E E' A : Type} (f : E → E') (m : io E A) (Q : outcome E' A → tree → Prop) (t : tree) :
  wp m (lift_post f Q) t → wp (lift_err f m) Q t.
Proof. intros Hm l. specialize (Hm l). unfold lift_err. by destruct (m (World t l)) as [[[]|] w']. Qed.

(** A system call either runs, fails without effect, or is cut short. *)
Lemma wp_syscall {A : Type} (part : nat → tree → tree) (act : tree → result io_error A * tree)
    (Q : outcome io_error A → tree → Prop) (t : tree) :
  Q (Done (fst (act t))) (snd (act t)) →
  (∀ e, injected e → Q (Done (Err e)) t) → Q Crashed t →
  (∀ n e, injected e → Q (Done (Err e)) (part n t)) → (∀ n, Q Crashed (part n t)) →
  wp (syscall part act) Q t.
Proof.
  intros H1 H2 H3 H4 H5 l. unfold syscall. simpl in *.
  destruct l as [|[|e|n e| |n] l]; simpl; auto using inject_injected; by destruct (act t).
Qed.

Lemma wp_atomic {A : Type} (act : tree → result io_error A * tree)
    (Q : outcome io_error A → tree → Prop) (t : tree) :
  Q (Done (fst (act t))) (snd (act t)) → (∀ e, injected e → Q (Done (Err e)) t) → Q Crashed t →
  wp (atomic act) Q t.
Proof. intros. apply wp_syscall; auto. Qed.

(** A call that reads: the tree is unchanged. *)
Lemma wp_read {A : Type} (act : tree → result io_error A * tree)
    (Q : outcome io_error A → tree → Prop) (t : tree) :
  snd (act t) = t → (∀ r, r = fst (act t) ∨ (∃ e, r = Err e) → Q (Done r) t) → Q Crashed t →
  wp (atomic act) Q t.
Proof. intros E HQ HC. apply wp_atomic; [rewrite E|..]; eauto. Qed.

(** With no faults left, an atomic call is its action. *)
Lemma atomic_ok {A : Type} (act : tree → result io_error A * tree) t :
  atomic act (World t []) = (Done (fst (act t)), World (snd (act t)) []).
Proof. unfold atomic, syscall. simpl. by destruct (act t). Qed.

(** Compute the intermediate postconditions. *)
Ltac wp_post :=
  repeat match goal with
  | |- context [bind_post _ _ (Done _) _] => unfold bind_post at 1; cbv beta iota
  | |- context [bind_post _ _ Crashed _] => unfold bind_post at 1; cbv beta iota
  | |- context [attempt_post _ (Done _) _] => unfold attempt_post at 1; cbv beta iota
  | |- context [attempt_post _ Crashed _] => unfold attempt_post at 1; cbv beta iota
  | |- context [lift_post _ _ (Done _) _] => unfold lift_post at 1; cbv beta iota
  | |- context [lift_post _ _ Crashed _] => unfold lift_post at 1; cbv beta iota
  end.

(** The structural rules. *)
Ltac wp_struct :=
  repeat (wp_post; match goal with
  | |- wp (bind _ _) _ _ => apply wp_bind
  | |- wp (attempt _) _ _ => apply wp_attempt
  | |- wp (lift_err _ _) _ _ => apply wp_lift_err
  | |- wp (ret _) _ _ => apply wp_ret
  | |- wp (throw _) _ _ => apply wp_throw
  | |- wp (of_result _) _ _ => apply wp_of_result
  end); wp_post.

(** [std::fs::write]: only [p] can change; on success it holds [s]. *)
Lemma wp_write_file (p : path) (s : string) (Q : outcome io_error unit → tree → Prop) (t : tree) :
  (∀ o t', (∀ q, q ≠ p → t' !! q = t !! q) →
     (o = Done (Ok ()) → t' !! p = Some (File s)) → Q o t') →
  wp (write_file p s) Q t.
Proof.
  intros HQ. unfold write_file, open_create. wp_struct.
  assert (Hsame : ∀ o, o ≠ Done (Ok ()) → Q o t) by (intros o Ho; by apply HQ).
  apply wp_atomic; [|by intros; apply Hsame|by apply Hsame].
  assert (Hopen : wp (write_all p s) Q (<[p:=File ""]> t)).
  { apply wp_syscall; intros; apply HQ; simpl; unfold append_file; rewrite ?lookup_insert_eq;
      try done; intros; rewrite ?insert_insert_eq, ?lookup_insert_eq, ?lookup_insert_ne by done;
      done. }
  destruct (t !! p) as [[c| |]|]; simpl; [done|by apply Hsame..|].
  destruct (parent_is_dir t p); simpl; [done|by apply Hsame].
Qed.

(** ** Frames *)

(** The contents of the regular file at a path. *)
Definition file (t : tree) (q : path) : option string :=
  match t !! q with Some (File s) => Some s | _ => None end.

(** Only the paths of [l] may hold other contents in [t'] than in [t]. *)
Definition frame (l : list path) (t t' : tree) : Prop := ∀ q, q ∉ l → file t' q = file t q.

(** Every regular file of [t] is in [t'] with the same contents. *)
Definition keeps_files (t t' : tree) : Prop := ∀ q s, file t q = Some s → file t' q = Some s.

Lemma frame_refl l (t : tree) : frame l t t.
Proof. done. Qed.

Lemma frame_trans l (t t1 t2 : tree) : frame l t t1 → frame l t1 t2 → frame l t t2.
Proof. intros H1 H2 q Hq. rewrite H2, H1; done. Qed.

Lemma frame_weaken l l' (t t' : tree) : frame l t t' → l ⊆ l' → frame l' t t'.
Proof. intros H Hl q Hq. apply H. intros Hq'. by apply Hq, Hl. Qed.

Lemma keeps_files_refl (t : tree) : keeps_files t t.
Proof. by intros q s. Qed.

Lemma keeps_files_trans (t t1 t2 : tree) :
  keeps_files t t1 → keeps_files t1 t2 → keeps_files t t2.
Proof. unfold keeps_files. eauto. Qed.

Lemma file_insert (t : tree) p s : file (<[p := File s]> t) p = Some s.
Proof. unfold file. by rewrite lookup_insert_eq. Qed.

Lemma file_insert_ne (t : tree) p q n : q ≠ p → file (<[p := n]> t) q = file t q.
Proof. unfold file. intros. by rewrite lookup_insert_ne. Qed.

Lemma file_delete (t : tree) p : file (delete p t) p = None.
Proof. unfold file. by rewrite lookup_delete_eq. Qed.

Lemma file_delete_ne (t : tree) p q : q ≠ p → file (delete p t) q = file t q.
Proof. unfold file. intros. by rewrite lookup_delete_ne. Qed.

Lemma file_Some (t : tree) q s : file t q = Some s ↔ t !! q = Some (File s).
Proof. unfold file. destruct (t !! q) as [[| |]|]; naive_solver. Qed.

#[export] Hint Resolve frame_refl keeps_files_refl : rooms.

Lemma frame_insert (t : tree) p n : frame [p] t (<[p := n]> t).
Proof. intros q Hq. apply file_insert_ne. set_solver. Qed.

Lemma frame_delete (t : tree) p : frame [p] t (delete p t).
Proof. intros q Hq. apply file_delete_ne. set_solver. Qed.

Lemma frame_append (t : tree) p s : frame [p] t (append_file p s t).
Proof.
  unfold append_file. destruct (t !! p) as [[c| |]|]; auto using frame_insert, frame_refl.
Qed.

#[export] Hint Resolve frame_insert frame_delete frame_append : rooms.

(** ** Proof rules of the system calls *)

Lemma wp_read_to_string (p : path) (Q : outcome io_error string → tree → Prop) (t : tree) :
  (∀ s, file t p = Some s → Q (Done (Ok s)) t) →
  (∀ e, (kind e = NotFound → t !! p = None) → Q (Done (Err e)) t) → Q Crashed t →
  wp (read_to_string p) Q t.
Proof.
  intros HQ HE HC. apply wp_atomic; [|intros e []; by apply HE|done].
  unfold file in HQ. destruct (t !! p) as [[s| |]|]; simpl; auto; by apply HE.
Qed.

Lemma wp_remove_file (p : path) (Q : outcome io_error unit → tree → Prop) (t : tree) :
  (∀ s, file t p = Some s → Q (Done (Ok ())) (delete p t)) →
  (∀ s, t !! p = Some (Link s) → Q (Done (Ok ())) (delete p t)) →
  (∀ e, (kind e = NotFound → t !! p = None) → Q (Done (Err e)) t) → Q Crashed t →
  wp (remove_file p) Q t.
Proof.
  intros HQ HL HE HC. apply wp_atomic; [|intros e []; by apply HE|done].
  unfold file in HQ. destruct (t !! p) as [[s| |]|]; simpl; eauto; by apply HE.
Qed.

Lemma file_link (t : tree) p s : t !! p = Some (Link s) → file t p = None.
Proof. unfold file. by intros ->. Qed.

(** Removing a link removes no file. *)
Lemma file_delete_link (t : tree) p s q : t !! p = Some (Link s) → file (delete p t) q = file t q.
Proof.
  intros Hp. unfold file. destruct (decide (q = p)) as [->|]; [by rewrite lookup_delete_eq, Hp|].
  by rewrite lookup_delete_ne.
Qed.

Lemma wp_open_create_new (p : path) (Q : outcome io_error unit → tree → Prop) (t : tree) :
  (t !! p = None → Q (Done (Ok ())) (<[p := File ""]> t)) →
  (∀ e, (kind e = AlreadyExists → t !! p ≠ None) → Q (Done (Err e)) t) → Q Crashed t →
  wp (open_create_new p) Q t.
Proof.
  intros HQ HE HC. apply wp_atomic; [|intros e []; by apply HE|done].
  destruct (t !! p); simpl; auto. destruct (parent_is_dir t p); simpl; [by auto|by apply HE].
Qed.

(** Opening without truncation keeps every file. *)
Lemma wp_open_create (p : path) (Q : outcome io_error unit → tree → Prop) (t : tree) :
  (∀ t', t' = t ∨ (t !! p = None ∧ t' = <[p := File ""]> t) → Q (Done (Ok ())) t') →
  (∀ e, Q (Done (Err e)) t) → Q Crashed t →
  wp (open_create false p) Q t.
Proof.
  intros HQ HE HC. apply wp_atomic; [|auto|done].
  destruct (t !! p) as [[s| |]|] eqn:E; simpl; auto. destruct (parent_is_dir t p); simpl; auto.
Qed.

Lemma wp_open_truncate (p : path) (Q : outcome io_error unit → tree → Prop) (t : tree) :
  Q (Done (Ok ())) (<[p := File ""]> t) → (∀ e, Q (Done (Err e)) t) → Q Crashed t →
  wp (open_create true p) Q t.
Proof.
  intros HQ HE HC. apply wp_atomic; [|auto|done].
  destruct (t !! p) as [[s| |]|] eqn:E; simpl; auto. destruct (parent_is_dir t p); simpl; auto.
Qed.

Lemma wp_rename (a b : path) (Q : outcome io_error unit → tree → Prop) (t : tree) :
  (∀ n, t !! a = Some n → Q (Done (Ok ())) (<[b := n]> (delete a t))) →
  (∀ e, Q (Done (Err e)) t) → Q Crashed t →
  wp (rename a b) Q t.
Proof.
  intros HQ HE HC. apply wp_atomic; [|auto|done].
  destruct (t !! a) as [n|] eqn:E; simpl; [|done]. destruct (t !! b) as [[]|]; simpl; auto.
Qed.

(** Appending to an open file: all of [s], or some prefix when cut short. *)
Lemma wp_write_all (p : path) (s : string) (Q : outcome io_error unit → tree → Prop) (t : tree) :
  Q (Done (Ok ())) (append_file p s t) →
  (∀ s' e, Q (Done (Err e)) (append_file p s' t)) → (∀ s', Q Crashed (append_file p s' t)) →
  (∀ e, Q (Done (Err e)) t) → Q Crashed t →
  wp (write_all p s) Q t.
Proof. intros. apply wp_syscall; auto. Qed.

(** A call with no effect on the tree. *)
Lemma wp_pure_call {A : Type} (a : A) (Q : outcome io_error A → tree → Prop) (t : tree) :
  Q (Done (Ok a)) t → (∀ e, Q (Done (Err e)) t) → Q Crashed t →
  wp (atomic (λ t, (Ok a, t))) Q t.
Proof. intros. by apply wp_atomic. Qed.

Lemma mkdirs_keeps_files d rest (t : tree) : ∀ q, file (snd (mkdirs d rest t)) q = file t q.
Proof.
  revert d t; induction rest as [|c rest IH]; intros d t q; [done|]. simpl.
  destruct (t !! (d ++ [c])) as [[s| |]|] eqn:E; simpl; [done|apply IH|done|].
  rewrite IH. unfold file. destruct (decide (q = d ++ [c])) as [->|Hne].
  - by rewrite lookup_insert_eq, E.
  - by rewrite lookup_insert_ne.
Qed.

Lemma mkdirs_deeper d rest (t : tree) q :
  length (d ++ rest) < length q → snd (mkdirs d rest t) !! q = t !! q.
Proof.
  revert d t; induction rest as [|c rest IH]; intros d t Hq; [done|]. simpl.
  rewrite length_app in Hq. simpl in Hq.
  destruct (t !! (d ++ [c])) as [[s| |]|]; simpl; try done;
    (rewrite IH; [|rewrite !length_app; simpl; lia]); [done|].
  rewrite lookup_insert_ne; [done|]. intros <-. rewrite length_app in Hq. simpl in Hq. lia.
Qed.

(** A directory that was made is there, and stays while deeper ones are made. *)
Lemma mkdirs_dir d rest (t : tree) :
  t !! d = Some Dir → fst (mkdirs d rest t) = Ok () → snd (mkdirs d rest t) !! (d ++ rest) = Some Dir.
Proof.
  revert d t; induction rest as [|c rest IH]; intros d t Hd; simpl; [by rewrite (right_id_L [] (++))|].
  destruct (t !! (d ++ [c])) as [[s| |]|] eqn:E; simpl; try done; intros Hok;
    rewrite (cons_middle c d rest), (assoc_L (++)); apply IH; try done; apply lookup_insert_eq.
Qed.

Lemma mkdirs_made c rest (t : tree) :
  fst (mkdirs [] (c :: rest) t) = Ok () → snd (mkdirs [] (c :: rest) t) !! (c :: rest) = Some Dir.
Proof.
  simpl. destruct (t !! [c]) as [[s| |]|] eqn:E; simpl; try done; intros Hok;
    apply (mkdirs_dir [c]); try done; apply lookup_insert_eq.
Qed.

Lemma wp_create_dir_all (p : path) (Q : outcome io_error unit → tree → Prop) (t : tree) :
  (∀ o t', (∀ q, file t' q = file t q) → Q o t') → wp (create_dir_all p) Q t.
Proof. intros HQ. apply wp_atomic; intros; apply HQ; [apply mkdirs_keeps_files|done|done]. Qed.

(** ** Runs without faults *)

Definition runs {E A : Type} (m : io E A) (t : tree) (r : result E A) (t' : tree) : Prop :=
  m (World t []) = (Done r, World t' []).

Lemma runs_atomic {A : Type} (act : tree → result io_error A * tree) (t : tree) :
  runs (atomic act) t (fst (act t)) (snd (act t)).
Proof. apply atomic_ok. Qed.

Lemma runs_ret {E A : Type} (a : A) (t : tree) : runs (E:=E) (ret a) t (Ok a) t.
Proof. done. Qed.

Lemma runs_throw {E A : Type} (e : E) (t : tree) : runs (A:=A) (throw e) t (Err e) t.
Proof. done. Qed.

Lemma runs_bind {E A B : Type} (m : io E A) (k : A → io E B) t a t1 r t2 :
  runs m t (Ok a) t1 → runs (k a) t1 r t2 → runs (bind m k) t r t2.
Proof. unfold runs, bind. by intros ->. Qed.

Lemma runs_bind_err {E A B : Type} (m : io E A) (k : A → io E B) t e t1 :
  runs m t (Err e) t1 → runs (bind m k) t (Err e) t1.
Proof. unfold runs, bind. by intros ->. Qed.

Lemma runs_attempt {E E' A : Type} (m : io E A) t r t1 :
  runs m t r t1 → runs (E:=E') (attempt m) t (Ok r) t1.
Proof. unfold runs, attempt. by intros ->. Qed.

Lemma runs_lift_err {E E' A : Type} (f : E → E') (m : io E A) t r t1 :
  runs m t r t1 → runs (lift_err f m) t (map_err f r) t1.
Proof. unfold runs, lift_err. by intros ->. Qed.

Lemma runs_eq {E A : Type} (m : io E A) t r t1 r' t1' :
  runs m t r t1 → r = r' → t1 = t1' → runs m t r' t1'.
Proof. by intros ? -> ->. Qed.

Lemma runs_write_all (p : path) (s : string) (t : tree) :
  runs (write_all p s) t (Ok ()) (append_file p s t).
Proof. done. Qed.

(** [runs] determines the outcome. *)
Lemma runs_det {E A : Type} (m : io E A) t r t1 r' t1' :
  runs m t r t1 → runs m t r' t1' → r = r' ∧ t1 = t1'.
Proof. unfold runs. intros -> [= -> ->]. done. Qed.

(** ** Inversion of successful runs *)

Lemma bind_done {E A B : Type} (m : io E A) (k : A → io E B) w b w' :
  bind m k w = (Done (Ok b), w') → ∃ a w1, m w = (Done (Ok a), w1) ∧ k a w1 = (Done (Ok b), w').
Proof. unfold bind. destruct (m w) as [[[a|e]|] w1]; try done. eauto. Qed.

Lemma of_result_done {E A : Type} (r : result E A) w a w' :
  of_result r w = (Done (Ok a), w') → r = Ok a ∧ w' = w.
Proof. by intros [= -> ->]. Qed.

Lemma attempt_done {E E' A : Type} (m : io E A) w r w' :
  attempt (E':=E') m w = (Done (Ok r), w') → m w = (Done r, w').
Proof. unfold attempt. destruct (m w) as [[r'|] w1]; [|done]. by intros [= -> ->]. Qed.

Lemma lift_err_done {E E' A : Type} (f : E → E') (m : io E A) w a w' :
  lift_err f m w = (Done (Ok a), w') → m w = (Done (Ok a), w').
Proof. unfold lift_err. destruct (m w) as [[[|]|] w1]; try done. by intros [= -> ->]. Qed.

(** ** Which errors a computation can end with *)

Definition errs {E A : Type} (P : E → Prop) (m : io E A) : Prop :=
  ∀ w, match fst (m w) with Done (Err e) => P e | _ => True end.

Lemma errs_ret {E A : Type} (P : E → Prop) (a : A) : errs P (ret a).
Proof. by intros w. Qed.

Lemma errs_throw {E A : Type} (P : E → Prop) (e : E) : P e → errs (A:=A) P (throw e).
Proof. by intros H w. Qed.

Lemma errs_bind {E A B : Type} (P : E → Prop) (m : io E A) (k : A → io E B) :
  errs P m → (∀ a, errs P (k a)) → errs P (bind m k).
Proof. intros Hm Hk w. specialize (Hm w). unfold bind. destruct (m w) as [[[a|e]|] w1]; [apply Hk|done..]. Qed.

Lemma errs_lift {E E' A : Type} (P : E' → Prop) (f : E → E') (m : io E A) :
  (∀ e, P (f e)) → errs P (lift_err f m).
Proof. intros Hf w. unfold lift_err. destruct (m w) as [[[a|e]|] w1]; simpl; auto. Qed.

(** The error a computation was read with is one of its errors. *)
Lemma errs_attempt_bind {E E' A B : Type} (P : E → Prop) (P' : E' → Prop) (m : io E A)
    (k : result E A → io E' B) :
  errs P m → (∀ r, match r with Err e => P e | _ => True end → errs P' (k r)) → errs P' (bind (attempt m) k).
Proof.
  intros Hm Hk w. specialize (Hm w). unfold bind, attempt. destruct (m w) as [[r|] w1]; [|done].
  apply Hk. by destruct r.
Qed.

Lemma wp_errs {E A : Type} (P : E → Prop) (m : io E A) (Q : outcome E A → tree → Prop) (t : tree) :
  errs P m → wp m Q t → wp m (λ o t', Q o t' ∧ match o with Done (Err e) => P e | _ => True end) t.
Proof. intros He HQ l. split; [apply HQ|apply He]. Qed.

(** ** Calls that follow links change nothing *)

Lemma wp_canonicalize (p : path) (Q : outcome io_error path → tree → Prop) (t : tree) :
  (∀ q, resolve_path t p = Ok q → Q (Done (Ok q)) t) → (∀ e, Q (Done (Err e)) t) → Q Crashed t →
  wp (canonicalize p) Q t.
Proof. intros HQ HE HC. apply wp_atomic; [|auto|done]. simpl. destruct (resolve_path t p); simpl; auto. Qed.

Lemma wp_is_file {E : Type} (p : path) (Q : outcome E bool → tree → Prop) (t : tree) :
  (∀ q s, resolve_path t p = Ok q → file t q = Some s → Q (Done (Ok true)) t) →
  Q (Done (Ok false)) t → Q Crashed t →
  wp (is_file p) Q t.
Proof.
  intros HQ HF HC. unfold is_file. wp_struct. apply wp_atomic; [|intros; by wp_struct|done]. cbv beta. simpl.
  destruct (resolve_path t p) as [q|k] eqn:Hq; simpl; wp_struct; [|done].
  destruct (t !! q) as [[s| |]|] eqn:Hs; try done. apply (HQ q s); [done|]. by apply file_Some.
Qed.

Lemma wp_read_following (p : path) (Q : outcome io_error string → tree → Prop) (t : tree) :
  (∀ q s, resolve_path t p = Ok q → file t q = Some s → Q (Done (Ok s)) t) →
  (∀ e, Q (Done (Err e)) t) → Q Crashed t →
  wp (read_following p) Q t.
Proof.
  intros HQ HE HC. apply wp_atomic; [|auto|done]. simpl. destruct (resolve_path t p) as [q|k] eqn:Hq; [|simpl; auto].
  destruct (t !! q) as [[s| |]|] eqn:Hs; simpl; auto. apply (HQ q s); [done|]. by apply file_Some.
Qed.
