(* ===== verification/Room.v ===== *)
(** * Room: per-room metadata and liveness ([room.rs])

    A room's metadata record with its neutrality lineage, the atomic write and
    the read of [room.json], and the liveness of a recorded pid.  Reading
    [/proc/<pid>/stat] is the parameter [proc_stat]; the JSON codec of
    [serde_json] is the pair of parameters [to_vec_pretty] and [from_slice]. *)

From S2P Require Import Prelude RStr Fs.
From stdpp Require Import options.

Definition ROOM_META_SCHEMA_VERSION : N := 4.
Definition ROOM_META_FILE : string := "room.json".

(** ** Metadata *)

Record Slot := {
  slot_index : N;
  slot_tap : string;
  slot_gateway : N;
  slot_guest : N;
  slot_prefix : N
}.

Inductive Provenance := Provisioning | Neutral | Tainted.

#[export] Instance Provenance_eq_dec : EqDecision Provenance.
Proof. solve_decision. Defined.

Inductive IllegalSeal := IllegalSealFrom (from : option Provenance).

Definition Provenance_seal (p : Provenance) : result IllegalSeal Provenance :=
  match p with
  | Provisioning => Ok Neutral
  | other => Err (IllegalSealFrom (Some other))
  end.

Definition Provenance_is_snapshottable (p : Provenance) : bool :=
  match p with Neutral => true | _ => false end.

(** [started_at] is the instant in milliseconds. *)
Record RoomMeta := {
  schema_version : N;
  meta_id : string;
  label : option string;
  started_at : Z;
  pid : option N;
  pid_starttime : option N;
  keep : bool;
  slot : option Slot;
  clone_net_index : option N;
  provenance : option Provenance;
  snapshot_lineage : option string;
  toolstore_sha256 : option string;
  base_repo_sha : option string
}.

Definition RoomMeta_new (id : string) (label : option string) (pid pid_starttime : option N)
    (keep : bool) (started_at : Z) : RoomMeta :=
  {| schema_version := ROOM_META_SCHEMA_VERSION; meta_id := id; label := label;
     started_at := started_at; pid := pid; pid_starttime := pid_starttime; keep := keep;
     slot := None; clone_net_index := None; provenance := None; snapshot_lineage := None;
     toolstore_sha256 := None; base_repo_sha := None |}.

Definition set_provenance (p : option Provenance) (m : RoomMeta) : RoomMeta :=
  {| schema_version := schema_version m; meta_id := meta_id m; label := label m;
     started_at := started_at m; pid := pid m; pid_starttime := pid_starttime m;
     keep := keep m; slot := slot m; clone_net_index := clone_net_index m; provenance := p;
     snapshot_lineage := snapshot_lineage m; toolstore_sha256 := toolstore_sha256 m;
     base_repo_sha := base_repo_sha m |}.

Definition RoomMeta_new_base (id : string) (label : option string) (pid pid_starttime : option N)
    (keep : bool) (started_at : Z) : RoomMeta :=
  set_provenance (Some Provisioning) (RoomMeta_new id label pid pid_starttime keep started_at).

(** A method on [&mut self] returns its result and the record it leaves. *)
Definition RoomMeta_seal (m : RoomMeta) : result IllegalSeal unit * RoomMeta :=
  match ok_or (provenance m) (IllegalSealFrom None) with
  | Err e => (Err e, m)
  | Ok p =>
      match Provenance_seal p with
      | Err e => (Err e, m)
      | Ok sealed => (Ok (), set_provenance (Some sealed) m)
      end
  end.

Definition RoomMeta_taint (m : RoomMeta) : RoomMeta :=
  match provenance m with
  | Some _ => set_provenance (Some Tainted) m
  | None => m
  end.

Definition RoomMeta_is_snapshottable (m : RoomMeta) : bool :=
  match provenance m with Some p => Provenance_is_snapshottable p | None => false end.

(** ** Persistence *)

Section persistence.
  Variable to_vec_pretty : RoomMeta → result io_error string.
  Variable from_slice : string → result io_error RoomMeta.

Definition write_atomic (room_dir : path) (meta : RoomMeta) : io io_error unit :=
  let! json := of_result (to_vec_pretty meta) in
  let tmp := pjoin room_dir ".room.json.tmp" in
  let final_path := pjoin room_dir ROOM_META_FILE in
  do! write_file tmp json in
  rename tmp final_path.

Definition read (room_dir : path) : io io_error (option RoomMeta) :=
  let! r := attempt (read_to_string (pjoin room_dir ROOM_META_FILE)) in
  match r with
  | Ok bytes => let! meta := of_result (from_slice bytes) in ret (Some meta)
  | Err e => if decide (kind e = NotFound) then ret None else throw e
  end.

End persistence.

(** ** Liveness *)

Inductive Liveness := Alive | Dead | Unknown.

#[export] Instance Liveness_eq_dec : EqDecision Liveness.
Proof. solve_decision. Defined.

Definition ROOM_PROC_NAMES : list string := ["firecracker"; "jailer"].

Definition classify_comm (comm : string) : Liveness :=
  if bool_decide (trim comm ∈ ROOM_PROC_NAMES) then Alive else Dead.

(** [matches!(state, Some('Z' | 'X' | 'x'))] on the first character of [s]. *)
Definition dead_state (s : string) : bool :=
  match s with
  | String a _ => (a =? "Z")%char || (a =? "X")%char || (a =? "x")%char
  | "" => false
  end.

Definition classify_stat (stat : string) : Liveness :=
  match rsplit_once ")" stat with
  | None => Unknown
  | Some (before, after) =>
      match split_once "(" before with
      | None => Unknown
      | Some (_, comm) =>
          if dead_state (trim_start after) then Dead else classify_comm comm
      end
  end.

Definition parse_starttime (stat : string) : option N :=
  '(_, rest) ← rsplit_once ")" stat;
  tok ← split_whitespace rest !! 19;
  parse_uint u64_max tok.

Definition classify_stat_with_identity (stat : string) (expected_starttime : option N) : Liveness :=
  let live := classify_stat stat in
  if decide (live ≠ Alive) then live else
  match expected_starttime with
  | None => Alive
  | Some expected =>
      match parse_starttime stat with
      | Some actual => if (actual =? expected)%N then Alive else Dead
      | None => Unknown
      end
  end.

(** What reading [/proc/<pid>/stat] gives. *)
Inductive ProcStat := Stat (line : string) | StatNotFound | StatUnreadable.

Section probe.
  Variable proc_stat : N → ProcStat.

Definition starttime_of (pid : N) : option N :=
  match proc_stat pid with Stat line => parse_starttime line | _ => None end.

Definition probe_pid (pid : N) (expected_starttime : option N) : Liveness :=
  match proc_stat pid with
  | Stat stat => classify_stat_with_identity stat expected_starttime
  | StatNotFound => Dead
  | StatUnreadable => Unknown
  end.

Definition probe (pid : option N) (expected_starttime : option N) : Liveness :=
  match pid with
  | None => Unknown
  | Some pid => probe_pid pid expected_starttime
  end.

End probe.

(** The line the kernel writes: any [comm], a one-letter state, and fields that
    are words without a closing parenthesis, the start time being field 22. *)
Definition stat_line (pid : N) (comm : string) (state : byte) (fields : list string)
    (starttime : N) (more : list string) : string :=
  show_N pid +:+ " (" +:+ comm +:+ ") " +:+
  join " " (String state "" :: fields ++ show_N starttime :: more).

Definition stat_fields_ok (state : byte) (fields more : list string) : Prop :=
  graphic state = true ∧ state ≠ ")"%char ∧ length fields = 18 ∧
  Forall (λ w, is_word w = true ∧ lacks ")" w = true) (fields ++ more).

(** ** Properties *)

Lemma stat_line_split pid comm state fields st more :
  stat_fields_ok state fields more →
  rsplit_once ")" (stat_line pid comm state fields st more) =
    Some (show_N pid +:+ " (" +:+ comm,
          String space (join " " (String state "" :: fields ++ show_N st :: more))).
Proof.
  intros (Hg & Hs & _ & Hf%Forall_and). destruct Hf as [_ Hf]. apply Forall_app in Hf as [Hf Hm].
  replace (stat_line pid comm state fields st more) with
    ((show_N pid +:+ " (" +:+ comm) +:+
     String ")" (String space (join " " (String state "" :: fields ++ show_N st :: more))))
    by (unfold stat_line; rewrite !app_assoc; done).
  rewrite rsplit_once_app; [done|].
  change (String space ?s) with (" " +:+ s).
  rewrite lacks_app, lacks_join; [done|done|].
  constructor; [|apply Forall_app; split; [done|constructor; [by apply show_N_lacks|done]]].
  unfold lacks; cbn [all_bytes]. destruct (Ascii.eqb_spec state ")"); done.
Qed.

Lemma stat_line_tokens state fields st more :
  stat_fields_ok state fields more →
  split_whitespace (String space (join " " (String state "" :: fields ++ show_N st :: more)))
  = String state "" :: fields ++ show_N st :: more.
Proof.
  intros (Hg & _ & _ & Hf%Forall_and). destruct Hf as [Hf _]. apply Forall_app in Hf as [Hf Hm].
  rewrite split_whitespace_space. apply split_whitespace_join.
  constructor; [unfold is_word; cbn; by rewrite Hg|].
  apply Forall_app; split; [done|]. constructor; [apply show_N_word|done].
Qed.

Lemma parse_starttime_line pid comm state fields st more :
  stat_fields_ok state fields more → (st ≤ u64_max)%N →
  parse_starttime (stat_line pid comm state fields st more) = Some st.
Proof.
  intros Hok Hst. unfold parse_starttime. rewrite stat_line_split by done. cbn [mbind option_bind].
  rewrite stat_line_tokens by done. destruct Hok as (_ & _ & Hlen & _).
  change (?x :: fields ++ ?l) with ([x] ++ fields ++ l). rewrite lookup_app_r by (simpl; lia).
  rewrite lookup_app_r by (simpl; lia). simpl length. rewrite Hlen. simpl. by apply parse_show_N.
Qed.

Lemma classify_stat_line pid comm state fields st more :
  stat_fields_ok state fields more →
  classify_stat (stat_line pid comm state fields st more) =
    if dead_state (String state "") then Dead else classify_comm comm.
Proof.
  intros Hok. unfold classify_stat. rewrite stat_line_split by done.
  replace (show_N pid +:+ " (" +:+ comm) with ((show_N pid +:+ " ") +:+ String "(" comm)
    by (rewrite !app_assoc; done).
  rewrite split_once_app; [|by rewrite lacks_app, show_N_lacks].
  change (trim_start (String space ?r)) with (trim_start r).
  destruct (fields ++ show_N st :: more) as [|y l] eqn:E;
    [by destruct fields|]. rewrite join_cons_cons, app_cons.
  rewrite trim_start_graphic by apply Hok. done.
Qed.

(** On every line the kernel can write, whatever bytes the process name
    holds, the identity check answers [Alive] exactly for a process that is not
    a zombie or dead, is named firecracker or jailer, and has the recorded start
    time when one was recorded; it answers [Dead] otherwise, never [Unknown]. *)
Theorem classify_stat_with_identity_spec pid comm state fields st more expected :
  stat_fields_ok state fields more → (st ≤ u64_max)%N →
  classify_stat_with_identity (stat_line pid comm state fields st more) expected =
    if negb (dead_state (String state "")) && bool_decide (trim comm ∈ ROOM_PROC_NAMES) &&
       match expected with Some e => (e =? st)%N | None => true end
    then Alive else Dead.
Proof.
  intros Hok Hst. unfold classify_stat_with_identity.
  rewrite classify_stat_line, parse_starttime_line by done. unfold classify_comm.
  destruct (dead_state _); [done|]. simpl negb. simpl andb.
  destruct (bool_decide (trim comm ∈ _)); [|done]. simpl.
  destruct expected as [e|]; [|done]. rewrite N.eqb_sym. by destruct (_ =? _)%N.
Qed.

Lemma classify_stat_with_identity_spec_witness :
  classify_stat_with_identity
    (stat_line 42 "jailer" "S" (replicate 18 "0") 777 ["9"]) (Some 777%N) = Alive.
Proof.
  rewrite classify_stat_with_identity_spec; [vm_compute; reflexivity| |done].
  split; [reflexivity|]. split; [done|]. split; [reflexivity|].
  repeat (constructor; [by split|]). constructor.
Defined.

Inductive prov_op := OpSeal | OpTaint.

Definition prov_step (m : RoomMeta) (o : prov_op) : RoomMeta :=
  match o with OpSeal => snd (RoomMeta_seal m) | OpTaint => RoomMeta_taint m end.

Definition prov_run (ops : list prov_op) (m : RoomMeta) : RoomMeta := fold_left prov_step ops m.

(** Neutrality is monotonic: after any sequence of seals and taints, in any
    order and from any record, a room may be frozen exactly when it was never
    tainted and either was neutral already or was a fresh base that has been
    sealed.  In particular no sequence makes a room without provenance, or a
    tainted one, snapshottable. *)
Theorem snapshottable_iff (ops : list prov_op) (m : RoomMeta) :
  RoomMeta_is_snapshottable (prov_run ops m) = true ↔
  (OpTaint ∉ ops) ∧
  (provenance m = Some Neutral ∨ (provenance m = Some Provisioning ∧ OpSeal ∈ ops)).
Proof.
  revert m; induction ops as [|o ops IH]; intros m; simpl.
  - unfold RoomMeta_is_snapshottable. rewrite !elem_of_nil.
    destruct (provenance m) as [[| |]|]; naive_solver.
  - unfold prov_run in *. simpl. rewrite IH, !not_elem_of_cons, !elem_of_cons.
    destruct o, (provenance m) as [[| |]|] eqn:E; simpl;
      unfold RoomMeta_seal, RoomMeta_taint; rewrite E; simpl; rewrite ?E; naive_solver.
Qed.

Lemma write_atomic_wp enc dir m t :
  wp (write_atomic enc dir m) (λ o t',
    ((∃ json, enc m = Ok json ∧ t' !! pjoin dir ROOM_META_FILE = Some (File json)) ∨
     (o ≠ Done (Ok ()) ∧ t' !! pjoin dir ROOM_META_FILE = t !! pjoin dir ROOM_META_FILE))) t.
Proof.
  unfold write_atomic. wp_struct.
  destruct (enc m) as [json|e] eqn:E; simpl; [|by right].
  wp_struct. apply wp_write_file. intros o t' Hother Hok.
  assert (Hsame : t' !! pjoin dir ROOM_META_FILE = t !! pjoin dir ROOM_META_FILE).
  { apply Hother. by apply pjoin_ne. }
  destruct o as [[[]|e]|]; simpl; [|by right..].
  unfold rename. apply wp_atomic; [|by right..].
  rewrite (Hok eq_refl).
  destruct (t' !! pjoin dir ROOM_META_FILE) as [[c| |c]|] eqn:Hf; simpl;
    [|rewrite Hf; by right|..]; left; exists json; by rewrite lookup_insert_eq.
Qed.

Lemma read_result dec dir (t : tree) :
  fst (read dec dir (World t [])) =
    match t !! pjoin dir ROOM_META_FILE with
    | Some (File s) => Done (rmap Some (dec s))
    | Some Dir => Done (Err (io_err IsADirectory))
    | Some (Link _) => Done (Err (io_err OtherKind))
    | None => Done (Ok None)
    end.
Proof.
  unfold read, read_to_string, bind, attempt. rewrite atomic_ok.
  destruct (t !! _) as [[s| |]|]; simpl; [|done..]. by destruct (dec s).
Qed.

(** C24.  Writing [room.json] is atomic: whatever system calls fail and wherever
    the process dies, a later read gives the old metadata or the new one, and
    after a successful write it gives the new one. *)
Theorem write_atomic_old_or_new to_vec_pretty from_slice dir m t l o w' r r' :
  (∀ m json, to_vec_pretty m = Ok json → from_slice json = Ok m) →
  write_atomic to_vec_pretty dir m (World t l) = (o, w') →
  fst (read from_slice dir (World t [])) = r →
  fst (read from_slice dir (World (fs w') [])) = r' →
  (r' = r ∨ r' = Done (Ok (Some m))) ∧ (o = Done (Ok ()) → r' = Done (Ok (Some m))).
Proof.
  intros Hcodec Hw <- <-. pose proof (write_atomic_wp to_vec_pretty dir m t l) as H.
  rewrite Hw in H. simpl in H. rewrite !read_result.
  destruct H as [(json & Hj & ->)|[Ho ->]]; [rewrite (Hcodec _ _ Hj); by split; [right|]|].
  split; [by left|]. intros He. destruct (Ho He).
Qed.

#[export] Instance Slot_eq_dec : EqDecision Slot.
Proof. solve_decision. Defined.

#[export] Instance RoomMeta_eq_dec : EqDecision RoomMeta.
Proof. solve_decision. Defined.

(** A codec for the records that carry an id only, for witnesses. *)
Definition toy_decode (s : string) : result io_error RoomMeta :=
  Ok (RoomMeta_new s None None None false 0%Z).
Definition toy_encode (m : RoomMeta) : result io_error string :=
  if decide (toy_decode (meta_id m) = Ok m) then Ok (meta_id m) else Err (io_err InvalidData).

Lemma write_atomic_old_or_new_witness :
  let m := RoomMeta_new "b" None None None false 0%Z in
  let t := {[ ["r"] := Dir; ["r"; "room.json"] := File "a" ]} in
  fst (read toy_decode ["r"]
    (World (fs (snd (write_atomic toy_encode ["r"] m (World t [])))) [])) = Done (Ok (Some m)).
Proof.
  intros m t.
  eapply (write_atomic_old_or_new toy_encode toy_decode ["r"] m t []); [|..|reflexivity].
  - intros m' json. unfold toy_encode. case_decide; by intros [= <-].
  - apply surjective_pairing.
  - reflexivity.
  - vm_compute. reflexivity.
Defined.
