(* ===== verification/IndexedClaim.v ===== *)
(** * IndexedClaim: crash-safe claims of indexed host resources ([indexed_claim.rs])

    A pool is a directory of claim files named by their index, with a lock file
    beside it.  Every claim, release and removal runs under the lock, so each
    locked section is one step of the pool; the unlocked observation of
    [reconcile_path] is revalidated under the lock by [reconcile_dead] and
    [discard_abandoned_partial], whose theorems hold from any tree.  The process
    table is the parameter [proc_stat]; warnings are not modelled. *)

From S2P Require Import Prelude RStr Fs Room.
From stdpp Require Import options.

(** ** Data *)

Record Claimer := { claimer_pid : N; claimer_starttime : N }.

Record Pool := {
  dir_name : string;
  lock_name : string;
  max_index : N;
  pool_label : string
}.

Inductive ClaimOutcome :=
| Claimed (index : N)
| PoolFull (cap : N)
| InvalidIndex (index max : N)
| TargetTaken (index : N).

Inductive ClaimDecision := Accept | Skip.

#[export] Instance ClaimDecision_eq_dec : EqDecision ClaimDecision.
Proof. solve_decision. Defined.

Record ClaimSpec := {
  spec_state : path;
  spec_pool : Pool;
  spec_owner : string;
  spec_me : Claimer;
  spec_cap : N;
  spec_target : option N
}.

Inductive FreeOutcome := Removed | AlreadyFree | AlreadyReassigned.

Inductive ReleaseError := ReleaseIo (e : io_error) | ReleaseCleanup (detail : string).

Record Reclaimed := { rec_index : N; rec_owner : string; rec_removed : bool }.

Inductive ReconcileAction := Keep | Remove.

#[export] Instance ReconcileAction_eq_dec : EqDecision ReconcileAction.
Proof. solve_decision. Defined.

Record ClaimToken := { tok_owner : string; tok_pid : N; tok_starttime : N }.

(** ** Claim text *)

Definition is_id_shaped (value : string) : bool :=
  (len value =? 26)%nat && all_bytes (λ b, is_ascii_digit b || is_ascii_lowercase b) value.

Definition claim_text (owner_id : string) (me : Claimer) : string :=
  owner_id +:+ String nl (show_N (claimer_pid me) +:+
    String space (show_N (claimer_starttime me) +:+ String nl "")).

Definition parse_claim (contents : string) : option ClaimToken :=
  if negb (ends_with_byte nl contents) then None else
  match lines contents with
  | [] => None
  | owner_id :: rest =>
      if negb (is_id_shaped owner_id) then None else
      match rest with
      | [] => None
      | line :: rest =>
          match split_whitespace line with
          | w1 :: parts =>
              p ← parse_uint u32_max w1;
              match parts with
              | w2 :: parts =>
                  s ← parse_uint u64_max w2;
                  match parts, rest with
                  | [], [] => Some {| tok_owner := owner_id; tok_pid := p; tok_starttime := s |}
                  | _, _ => None
                  end
              | [] => None
              end
          | [] => None
          end
      end
  end.

Definition valid_index (pool : Pool) (index : N) : bool :=
  ((0 <? index) && (index <=? max_index pool))%N.

Definition index_of (pool : Pool) (name : string) : option N :=
  index ← parse_uint u8_max name;
  if negb (bool_decide (name = show_N index)) || negb (valid_index pool index) then None
  else Some index.

(** ** Claims *)

Definition claim_path (state : path) (pool : Pool) (index : N) : path :=
  pjoin (pjoin state (dir_name pool)) (show_N index).

Definition lock_frees (state : path) (pool : Pool) : io io_error unit :=
  let p := pjoin state (lock_name pool) in
  do! open_create false p in lock_file p.

Definition try_claim (dir : path) (index : N) (owner_id : string) (me : Claimer)
    : io io_error bool :=
  let path := pjoin dir (show_N index) in
  let! open := attempt (open_create_new path) in
  match open with
  | Err e => if decide (kind e = AlreadyExists) then ret false else throw e
  | Ok _ =>
      let! written := attempt (write_all path (claim_text owner_id me)) in
      match written with
      | Err e => do! attempt (remove_file path) in throw e
      | Ok _ => ret true
      end
  end.

Definition remove_rejected_claim {E : Type} (dir : path) (index : N) : io E unit :=
  do! attempt (remove_file (pjoin dir (show_N index))) in ret ().

Section claiming.
  Context {E : Type}.
  Variable from_io : io_error → E.
  Variable select : N → io E ClaimDecision.

Definition select_claim (dir : path) (index : N) : io E bool :=
  let! decision := attempt (select index) in
  match decision with
  | Err error => do! remove_rejected_claim dir index in throw error
  | Ok decision =>
      if decide (decision = Accept) then ret true else
      do! lift_err from_io (remove_file (pjoin dir (show_N index))) in
      ret false
  end.

(** [try_claim(..)? && select_claim(..)?] *)
Definition try_and_select (dir : path) (owner_id : string) (me : Claimer) (index : N) : io E bool :=
  let! taken := lift_err from_io (try_claim dir index owner_id me) in
  if taken then select_claim dir index else ret false.

Definition claim_target (dir : path) (owner_id : string) (me : Claimer) (index : N)
    : io E ClaimOutcome :=
  let! won := try_and_select dir owner_id me index in
  ret (if won then Claimed index else TargetTaken index).

(** The walk over [1..=cap]. *)
Fixpoint claim_walk (dir : path) (owner_id : string) (me : Claimer) (cap : N) (indices : list N)
    : io E ClaimOutcome :=
  match indices with
  | [] => ret (PoolFull cap)
  | index :: rest =>
      let! won := try_and_select dir owner_id me index in
      if won then ret (Claimed index) else claim_walk dir owner_id me cap rest
  end.

Definition index_range (cap : N) : list N := N.of_nat <$> seq 1 (N.to_nat cap).

Definition claim_with (spec : ClaimSpec) : io E ClaimOutcome :=
  let pool := spec_pool spec in
  if negb (is_id_shaped (spec_owner spec)) then
    throw (from_io (IoError InvalidInput
      (pool_label pool +:+ " owner ID must be 26 lowercase ASCII letters or digits")))
  else
  let walk :=
    let dir := pjoin (spec_state spec) (dir_name pool) in
    do! lift_err from_io (create_dir_all dir) in
    do! lift_err from_io (lock_frees (spec_state spec) pool) in
    match spec_target spec with
    | Some index => claim_target dir (spec_owner spec) (spec_me spec) index
    | None =>
        let cap := N.min (spec_cap spec) (max_index pool) in
        claim_walk dir (spec_owner spec) (spec_me spec) cap (index_range cap)
    end in
  match spec_target spec with
  | Some index =>
      if negb (valid_index pool index) then ret (InvalidIndex index (max_index pool)) else walk
  | None => walk
  end.

End claiming.

Definition claim (state : path) (pool : Pool) (owner_id : string) (me : Claimer) (cap : N)
    (target : option N) : io io_error ClaimOutcome :=
  claim_with (λ e, e) (λ _, ret Accept)
    {| spec_state := state; spec_pool := pool; spec_owner := owner_id; spec_me := me;
       spec_cap := cap; spec_target := target |}.

(** ** Release *)

Definition free_with (state : path) (pool : Pool) (index : N) (expected_owner : string)
    (cleanup : io string unit) : io ReleaseError FreeOutcome :=
  let path := claim_path state pool index in
  do! lift_err ReleaseIo (lock_frees state pool) in
  let! read := attempt (read_to_string path) in
  match read with
  | Err e => if decide (kind e = NotFound) then ret AlreadyFree else throw (ReleaseIo e)
  | Ok contents =>
      if negb (bool_decide (head (lines contents) = Some expected_owner)) then ret AlreadyReassigned
      else
        do! lift_err ReleaseCleanup cleanup in
        let! removed := attempt (remove_file path) in
        match removed with
        | Ok _ => ret Removed
        | Err e => if decide (kind e = NotFound) then ret AlreadyFree else throw (ReleaseIo e)
        end
  end.

Definition free (state : path) (pool : Pool) (index : N) (expected_owner : string)
    : io io_error FreeOutcome :=
  lift_err (λ e, match e with ReleaseIo e => e | ReleaseCleanup d => IoError OtherKind d end)
    (free_with state pool index expected_owner (ret ())).

Definition owned_by (state : path) (pool : Pool) (index : N) (expected_owner : string)
    : io io_error bool :=
  do! lock_frees state pool in
  let! read := attempt (read_to_string (claim_path state pool index)) in
  match read with
  | Err e => if decide (kind e = NotFound) then ret false else throw e
  | Ok contents =>
      ret (match parse_claim contents with
           | Some c => bool_decide (tok_owner c = expected_owner)
           | None => false
           end)
  end.

Definition sync_dir (p : path) : io io_error unit := sync_all p.

Definition rewrite_atomic (dir : path) (index : N) (body : string) : io io_error unit :=
  let tmp := pjoin dir ("." +:+ show_N index +:+ ".tmp") in
  do! open_create true tmp in
  do! write_all tmp body in
  do! sync_all tmp in
  do! rename tmp (pjoin dir (show_N index)) in
  sync_dir dir.

(** ** Reconciliation *)

Definition classify_claimer_stat (stat : string) (expected_starttime : N) : Liveness :=
  match rsplit_once ")" stat with
  | None => Unknown
  | Some (_, rest) =>
      if dead_state (trim_start rest) then Dead else
      match parse_starttime stat with
      | Some actual => if (actual =? expected_starttime)%N then Alive else Dead
      | None => Unknown
      end
  end.

Section reconciling.
  Variable proc_stat : N → ProcStat.
  Variable cleanup : N → string → io string ReconcileAction.

Definition claimer_liveness (pid starttime : N) : Liveness :=
  match proc_stat pid with
  | Stat stat => classify_claimer_stat stat starttime
  | StatNotFound => Dead
  | StatUnreadable => Unknown
  end.

(** The error is logged and the claim left for the next pass. *)
Definition discard_abandoned_partial (state : path) (pool : Pool) (path : path) (observed : string)
    : io infallible unit :=
  let! _ := attempt (
    do! lock_frees state pool in
    let! read := attempt (read_to_string path) in
    match read with
    | Err e => if decide (kind e = NotFound) then ret false else throw e
    | Ok now =>
        if negb (bool_decide (now = observed)) || bool_decide (is_Some (parse_claim now))
        then ret false
        else do! remove_file path in ret true
    end) in
  ret ().

Definition reconcile_dead (state : path) (pool : Pool) (path : path) (index : N)
    (expected owner_id : string) : io infallible (option Reclaimed) :=
  let! result := attempt (
    do! lift_err message (lock_frees state pool) in
    let! read := attempt (read_to_string path) in
    match read with
    | Err e => if decide (kind e = NotFound) then ret None else throw (message e)
    | Ok now =>
        if negb (bool_decide (now = expected)) then ret None else
        let! action := cleanup index owner_id in
        if decide (action = Keep)
        then ret (Some {| rec_index := index; rec_owner := owner_id; rec_removed := false |})
        else
          do! lift_err message (remove_file path) in
          ret (Some {| rec_index := index; rec_owner := owner_id; rec_removed := true |})
    end) in
  ret (match result with Ok reclaimed => reclaimed | Err _ => None end).

Definition reconcile_path (state : path) (pool : Pool) (path : path) (index : N)
    : io infallible (option Reclaimed) :=
  let! read := attempt (read_to_string path) in
  match read with
  | Err _ => ret None
  | Ok contents =>
      match parse_claim contents with
      | None =>
          if starts_with contents "@" then ret None else
          do! discard_abandoned_partial state pool path contents in ret None
      | Some c =>
          if decide (claimer_liveness (tok_pid c) (tok_starttime c) ≠ Dead) then ret None
          else reconcile_dead state pool path index contents (tok_owner c)
      end
  end.

Definition reconcile_entry (state : path) (pool : Pool) (name : string)
    : io infallible (option Reclaimed) :=
  let! entry := attempt (dir_entry name) in
  match entry with
  | Err _ => ret None
  | Ok name =>
      match index_of pool name with
      | None => ret None
      | Some index =>
          reconcile_path state pool (pjoin (pjoin state (dir_name pool)) name) index
      end
  end.

Definition reconcile (state : path) (pool : Pool) : io infallible (list Reclaimed) :=
  let! read_dir := attempt (read_dir (pjoin state (dir_name pool))) in
  match read_dir with
  | Err _ => ret []
  | Ok names => let! items := for_each (reconcile_entry state pool) names in ret (omap (λ x, x) items)
  end.

End reconciling.

(** ** Claim text: lemmas *)

Lemma id_shaped_word w : is_id_shaped w = true → is_word w = true.
Proof.
  intros [Hlen Hw]%andb_true_iff. apply is_word_spec. split; [by intros ->|].
  eapply all_bytes_impl; [|exact Hw]. intros a. unfold is_ascii_digit, is_ascii_lowercase, graphic.
  rewrite orb_true_iff, !in_range_true. lia.
Qed.

Lemma id_shaped_lacks c w :
  is_id_shaped w = true → is_ascii_digit c || is_ascii_lowercase c = false → lacks c w = true.
Proof.
  intros [_ Hw]%andb_true_iff Hc. eapply all_bytes_impl; [|exact Hw]. intros a Ha.
  destruct (Ascii.eqb_spec a c) as [->|]; [congruence|done].
Qed.

Lemma claim_line_lacks c me :
  is_ascii_digit c = false → (c =? space)%char = false →
  lacks c (show_N (claimer_pid me) +:+ String space (show_N (claimer_starttime me))) = true.
Proof.
  intros Hc Hs. rewrite lacks_app. change (String space ?s) with (" " +:+ s).
  rewrite lacks_app, !show_N_lacks by done. unfold lacks; cbn [all_bytes].
  rewrite Ascii.eqb_sym. change " "%char with space. by rewrite Hs.
Qed.

Lemma claim_text_lines owner me :
  is_id_shaped owner = true →
  lines (claim_text owner me) =
    [owner; show_N (claimer_pid me) +:+ String space (show_N (claimer_starttime me))].
Proof.
  intros Ho. unfold claim_text.
  rewrite lines_cons by (by apply id_shaped_lacks). f_equal.
  change (String space (?a +:+ ?b)) with (String space a +:+ b).
  rewrite <- app_assoc. by apply lines_single; apply claim_line_lacks.
Qed.

Lemma claim_text_ends owner me : ends_with_byte nl (claim_text owner me) = true.
Proof.
  unfold claim_text. change (String nl (?a +:+ ?b)) with (String nl a +:+ b).
  change (String space (?a +:+ ?b)) with (String space a +:+ b).
  rewrite <- !app_assoc. apply ends_with_byte_app.
Qed.

Lemma parse_claim_text owner me :
  is_id_shaped owner = true →
  (claimer_pid me ≤ u32_max)%N → (claimer_starttime me ≤ u64_max)%N →
  parse_claim (claim_text owner me) = Some {| tok_owner := owner; tok_pid := claimer_pid me;
                                             tok_starttime := claimer_starttime me |}.
Proof.
  intros Ho Hp Hs. unfold parse_claim.
  rewrite claim_text_ends, claim_text_lines, Ho by done. cbn [negb].
  rewrite split_whitespace_word_cons, split_whitespace_word by apply show_N_word.
  rewrite !parse_show_N by done. done.
Qed.

Lemma parse_claim_inv s c :
  parse_claim s = Some c →
  is_id_shaped (tok_owner c) = true ∧ head (lines s) = Some (tok_owner c) ∧
  (tok_pid c ≤ u32_max)%N ∧ (tok_starttime c ≤ u64_max)%N.
Proof.
  unfold parse_claim. destruct (negb (ends_with_byte nl s)); [done|].
  destruct (lines s) as [|owner [|line rest]]; [done| |];
    (destruct (is_id_shaped owner) eqn:Ho; [|done]); [done|]. cbn [negb].
  destruct (split_whitespace line) as [|w1 parts]; [done|].
  destruct (parse_uint u32_max w1) as [p|] eqn:Hp; [|done]. cbn [mbind option_bind].
  destruct parts as [|w2 parts]; [done|].
  destruct (parse_uint u64_max w2) as [st|] eqn:Hs; [|done]. cbn [mbind option_bind].
  destruct parts, rest; try done. intros [= <-]. simpl.
  splits; eauto using parse_uint_bound.
Qed.

Lemma id_shaped_not_at l s : is_id_shaped l = true → "@" +:+ s ≠ l ∧ ∀ r, "@" +:+ s ≠ l +:+ r.
Proof.
  intros H. destruct l as [|a l]; [done|]. apply andb_true_iff in H as [_ H].
  apply andb_true_iff in H as [Ha _].
  split; [intros [= <- <-]; done|]. intros r. rewrite app_cons. by intros [= <- _].
Qed.

(** A text whose first line is an owner id is not a durable slot token. *)
Lemma owner_line_not_at s o :
  head (lines s) = Some o → is_id_shaped o = true → starts_with s "@" = false.
Proof.
  intros Hl Ho. destruct (starts_with s "@") eqn:E; [|done].
  apply starts_with_true in E as [r ->].
  destruct (lines ("@" +:+ r)) as [|l ls] eqn:El; [done|]. simplify_eq/=.
  apply lines_inv in El as (r' & _ & Hs). destruct (id_shaped_not_at o r Ho) as [H1 H2].
  destruct Hs as [Hs|[Hs|[Hs _]]]; [by apply H2 in Hs|by apply H2 in Hs|by apply H1 in Hs].
Qed.

(** A durable slot token is never a claim. *)
Lemma parse_claim_at s : starts_with s "@" = true → parse_claim s = None.
Proof.
  intros Hat. destruct (parse_claim _) as [c|] eqn:E; [|done].
  apply parse_claim_inv in E as (Hid & Hhead & _).
  rewrite (owner_line_not_at s (tok_owner c)) in Hat; done.
Qed.

Lemma claim_text_not_at owner me :
  is_id_shaped owner = true → starts_with (claim_text owner me) "@" = false.
Proof.
  intros Ho. apply owner_line_not_at with owner; [|done]. by rewrite claim_text_lines.
Qed.

#[export] Hint Resolve claim_text_not_at parse_claim_at : rooms.

(** ** Paths of a pool *)

Lemma claim_path_inj state pool i j : claim_path state pool i = claim_path state pool j ↔ i = j.
Proof.
  unfold claim_path. rewrite pjoin_inj. split; [apply show_N_inj|by intros ->].
Qed.

Lemma claim_path_lock state pool i : claim_path state pool i ≠ pjoin state (lock_name pool).
Proof.
  unfold claim_path, pjoin. rewrite <- (assoc_L (++)). intros [=]%(inj (app state)).
Qed.

Lemma claim_path_tmp state pool i j :
  claim_path state pool i ≠ pjoin (pjoin state (dir_name pool)) ("." +:+ show_N j +:+ ".tmp").
Proof.
  unfold claim_path. apply pjoin_ne. intros H.
  pose proof (show_N_lacks "." i eq_refl) as Hl. rewrite H in Hl. done.
Qed.

#[export] Hint Resolve claim_path_lock claim_path_tmp : rooms.

(** ** Proof rules of the pool's operations *)

Lemma wp_lock_frees state pool (Q : outcome io_error unit → tree → Prop) (t : tree) :
  (∀ o t', keeps_files t t' → frame [pjoin state (lock_name pool)] t t' → Q o t') →
  wp (lock_frees state pool) Q t.
Proof.
  intros HQ. unfold lock_frees, lock_file. wp_struct.
  apply wp_open_create; [|intros; apply HQ; auto with rooms..].
  intros t' Ht'. simpl.
  assert (keeps_files t t' ∧ frame [pjoin state (lock_name pool)] t t') as [Hk Hf].
  { destruct Ht' as [->|[Hn ->]]; [auto with rooms|]. split; [|auto with rooms].
    intros q s Hs. destruct (decide (q = pjoin state (lock_name pool))) as [->|].
    - apply file_Some in Hs. congruence.
    - by rewrite file_insert_ne. }
  apply wp_pure_call; intros; by apply HQ.
Qed.

(** [try_claim] creates the file only where nothing was, and leaves every other
    file as it is. *)
Lemma wp_try_claim state pool k owner me (t : tree) :
  let p := claim_path state pool k in
  wp (try_claim (pjoin state (dir_name pool)) k owner me) (λ o t',
    keeps_files t t' ∧ frame [p] t t' ∧
    match o with
    | Done (Ok true) => t !! p = None ∧ t' = <[p := File (claim_text owner me)]> t
    | Done (Ok false) => t' = t
    | _ => True
    end) t.
Proof.
  intros p. unfold try_claim. fold (claim_path state pool k). fold p. wp_struct.
  assert (Hput : ∀ n, t !! p = None → keeps_files t (<[p := n]> t)).
  { intros n Hn q s Hq. rewrite file_insert_ne; [done|]. intros ->. apply file_Some in Hq. congruence. }
  assert (Hdel : ∀ n, t !! p = None → keeps_files t (delete p (<[p := n]> t)) ∧
                      frame [p] t (delete p (<[p := n]> t))).
  { intros n Hn. rewrite delete_insert_id by done. auto with rooms. }
  apply wp_open_create_new; [intros Hn|intros e _|]; wp_struct; [|case_decide; wp_struct|];
    auto with rooms.
  assert (Happ : ∀ s, append_file p s (<[p := File ""]> t) = <[p := File s]> t).
  { intros s. unfold append_file. by rewrite lookup_insert_eq, insert_insert_eq. }
  assert (Hrm : ∀ n e, wp (E:=io_error) (A:=bool) (do! attempt (remove_file p) in throw e) (λ o t',
    keeps_files t t' ∧ frame [p] t t' ∧ match o with
    | Done (Ok true) => t !! p = None ∧ t' = <[p := File (claim_text owner me)]> t
    | Done (Ok false) => t' = t | _ => True end) (<[p := n]> t)).
  { intros n e. wp_struct. apply wp_remove_file; intros; wp_struct; splits;
      try apply Hput; try apply Hdel; auto with rooms. }
  apply wp_write_all; intros; rewrite ?Happ; wp_post; try apply Hrm; wp_struct; splits; auto with rooms.
Qed.

Section claim_effect.
  Context {E : Type} (from_io : io_error → E) (select : N → io E ClaimDecision).
  Variable (state : path) (pool : Pool).

Abbreviation P k := (claim_path state pool k).

(** What a claim may do to the files: nothing that existed changes; a claim won
    is the one new file, and its text names the claimer; a refused claim leaves
    nothing; a failure leaves at most one half-made claim. *)
Definition claim_effect (owner : string) (me : Claimer) (l : list path) (t : tree)
    (o : outcome E ClaimOutcome) (t' : tree) : Prop :=
  keeps_files t t' ∧
  match o with
  | Done (Ok (Claimed k)) =>
      file t (P k) = None ∧ file t' (P k) = Some (claim_text owner me) ∧ frame (P k :: l) t t'
  | Done (Ok _) => frame l t t'
  | _ => ∃ k, frame (P k :: l) t t'
  end.

(** Widen an effect by the lock file and the directories made before it. *)
Lemma claim_effect_widen owner me (t t1 : tree) o t' :
  keeps_files t t1 → frame [pjoin state (lock_name pool)] t t1 →
  claim_effect owner me [] t1 o t' → claim_effect owner me [pjoin state (lock_name pool)] t o t'.
Proof.
  intros Hk Hf [Hk2 H2]. split; [by eapply keeps_files_trans|].
  assert (Hfr : ∀ l, frame l t1 t' → frame (l ++ [pjoin state (lock_name pool)]) t t').
  { intros l H. eapply frame_trans; eapply frame_weaken; [exact Hf|set_solver|exact H|set_solver]. }
  destruct o as [[[j|c|i m|i]|e]|]; try (by apply (Hfr []));
    try (destruct H2 as [k H2]; exists k; by apply (Hfr [_])).
  destruct H2 as (Hj & Hj' & Hfj). splits; [|done|by apply (Hfr [_])].
  rewrite <- (Hf (P j)); [done|]. rewrite list_elem_of_singleton. apply claim_path_lock.
Qed.

Hypothesis select_frame : ∀ k (t : tree), wp (select k) (λ _ t', ∀ q, file t' q = file t q) t.

Lemma wp_try_and_select owner me k (t : tree) :
  wp (try_and_select from_io select (pjoin state (dir_name pool)) owner me k) (λ o t',
    keeps_files t t' ∧ frame [P k] t t' ∧
    match o with
    | Done (Ok true) => file t (P k) = None ∧ file t' (P k) = Some (claim_text owner me)
    | Done (Ok false) => frame [] t t'
    | _ => True
    end) t.
Proof using select_frame.
  unfold try_and_select. wp_struct.
  eapply wp_mono; [apply wp_try_claim|]. intros o t1 (Hk & Hf & Ho).
  destruct o as [[[]|e]|]; wp_struct; [|subst; auto with rooms|auto..].
  destruct Ho as [Hn ->]. unfold select_claim, remove_rejected_claim.
  fold (P k). wp_struct.
  assert (Hn' : file t (P k) = None) by (unfold file; by rewrite Hn).
  set (tx := <[P k := File (claim_text owner me)]> t) in *.
  assert (Hsel : ∀ t2, (∀ q, file t2 q = file tx q) → keeps_files t t2 ∧ frame [P k] t t2).
  { intros t2 H2. split; [intros q s Hs; rewrite H2; by apply Hk|intros q Hq; rewrite H2; by apply Hf]. }
  assert (Hdel : ∀ t2, (∀ q, file t2 q = file tx q) → frame [] t (delete (P k) t2)).
  { intros t2 H2 q _. destruct (decide (q = P k)) as [->|]; [by rewrite file_delete|].
    rewrite file_delete_ne, H2 by done. unfold tx. by rewrite file_insert_ne. }
  assert (Hdel' : ∀ t2, (∀ q, file t2 q = file tx q) → keeps_files t (delete (P k) t2) ∧
                        frame [P k] t (delete (P k) t2)).
  { intros t2 H2. split; [intros q s Hs|intros q _]; rewrite (Hdel t2 H2 q); set_solver. }
  eapply wp_mono; [apply select_frame|]. intros o t2 H2. simpl in H2.
  destruct (Hsel t2 H2) as [Hk2 Hf2], (Hdel' t2 H2) as [Hk3 Hf3].
  destruct o as [[d|e]|]; wp_struct; [|wp_struct; apply wp_remove_file; intros; wp_struct; auto|auto].
  case_decide; wp_struct; [splits; [done..|]; rewrite H2; apply file_insert|].
  apply wp_remove_file; intros; wp_struct; auto.
Qed.

Lemma wp_claim_walk owner me cap l (t : tree) :
  wp (claim_walk from_io select (pjoin state (dir_name pool)) owner me cap l)
     (claim_effect owner me [] t) t.
Proof using select_frame.
  revert t; induction l as [|k l IH]; intros t; simpl; wp_struct; [split; auto with rooms|].
  eapply wp_mono; [apply wp_try_and_select|]. intros o t1 (Hk & Hf & Ho).
  destruct o as [[[]|e]|]; wp_struct; unfold claim_effect; [naive_solver| |eauto..].
  eapply wp_mono; [apply IH|]. intros o t2 [Hk2 H2].
  split; [by eapply keeps_files_trans|].
  assert (Hfr : ∀ l, frame l t1 t2 → frame l t t2).
  { intros l' H. eapply frame_trans; [|exact H]. eapply frame_weaken; [exact Ho|set_solver]. }
  destruct o as [[[j|c|i m|i]|e]|]; auto; [|naive_solver..].
  destruct H2 as (Hj & Hj' & Hfj). splits; auto. rewrite <- (Ho (P j)); set_solver.
Qed.

Lemma wp_claim_target owner me k (t : tree) :
  wp (claim_target from_io select (pjoin state (dir_name pool)) owner me k)
     (claim_effect owner me [] t) t.
Proof using select_frame.
  unfold claim_target. wp_struct.
  eapply wp_mono; [apply wp_try_and_select|]. intros o t1 (Hk & Hf & Ho).
  destruct o as [[[]|e]|]; wp_struct; unfold claim_effect; naive_solver.
Qed.

End claim_effect.

Lemma wp_claim_with {E : Type} (from_io : io_error → E) select spec (t : tree) :
  (∀ k (t : tree), wp (select k) (λ _ t', ∀ q, file t' q = file t q) t) →
  wp (claim_with from_io select spec)
     (claim_effect (spec_state spec) (spec_pool spec) (spec_owner spec) (spec_me spec)
        [pjoin (spec_state spec) (lock_name (spec_pool spec))] t) t.
Proof.
  intros Hsel. unfold claim_with.
  set (lk := pjoin _ (lock_name _)).
  assert (Hnil : ∀ o, (∀ k, o ≠ Done (Ok (Claimed k))) → claim_effect (E:=E) (spec_state spec)
            (spec_pool spec) (spec_owner spec) (spec_me spec) [lk] t o t).
  { intros o Ho. split; [auto with rooms|]. destruct o as [[[]|]|]; try done; [by destruct (Ho index)|..];
      exists 0%N; auto with rooms. }
  destruct (negb (is_id_shaped _)); [wp_struct; by apply Hnil|].
  set (walk := bind _ _).
  assert (Hwalk : wp walk (claim_effect (spec_state spec) (spec_pool spec) (spec_owner spec)
                             (spec_me spec) [lk] t) t).
  { unfold walk. wp_struct. apply wp_create_dir_all. intros o t1 H1.
    assert (Hk1 : keeps_files t t1) by (intros q s Hs; by rewrite H1).
    assert (Hf1 : frame [lk] t t1) by (intros q Hq; by rewrite H1).
    assert (Hfail : ∀ (o : outcome E ClaimOutcome) t', keeps_files t t' → frame [lk] t t' →
              match o with Done (Ok _) => False | _ => True end →
              claim_effect (spec_state spec) (spec_pool spec) (spec_owner spec) (spec_me spec) [lk] t o t').
    { intros o' t' Hk Hf Ho. split; [done|]. destruct o' as [[]|]; [done|..]; exists 0%N;
        (eapply frame_weaken; [exact Hf|set_solver]). }
    destruct o as [[[]|e]|]; wp_struct; [|by apply Hfail..].
    apply wp_lock_frees. fold lk. intros o t2 Hk2 Hf2.
    pose proof (keeps_files_trans _ _ _ Hk1 Hk2) as Hk. pose proof (frame_trans _ _ _ _ Hf1 Hf2) as Hf.
    destruct o as [[[]|e]|]; wp_struct; [|by apply Hfail..].
    destruct (spec_target spec) as [k|];
      (eapply wp_mono; [by (apply wp_claim_target || apply wp_claim_walk)|]);
      intros o t3; by apply claim_effect_widen. }
  destruct (spec_target spec) as [k|]; [|done].
  destruct (negb (valid_index _ k)); [|done]. wp_struct. by apply Hnil.
Qed.

(** A claim fails with an I/O error or with an error of its selection. *)
Lemma errs_claim_with {E : Type} (P : E → Prop) (from_io : io_error → E) select spec :
  (∀ e, P (from_io e)) → (∀ k, errs P (select k)) → errs P (claim_with from_io select spec).
Proof.
  intros Hio Hsel.
  assert (Htry : ∀ dir owner me k, errs P (try_and_select from_io select dir owner me k)).
  { intros dir owner me k. unfold try_and_select, select_claim, remove_rejected_claim.
    apply errs_bind; [by apply errs_lift|]. intros []; [|apply errs_ret].
    eapply errs_attempt_bind; [apply Hsel|]. intros [d|e] He.
    - case_decide; [apply errs_ret|]. apply errs_bind; [by apply errs_lift|]. intros. apply errs_ret.
    - apply errs_bind; [|intros; by apply errs_throw].
      eapply (errs_attempt_bind (λ _, True)); [by intros w; destruct (fst _) as [[]|]|].
      intros; apply errs_ret. }
  assert (Hwalk : ∀ dir owner me cap l, errs P (claim_walk from_io select dir owner me cap l)).
  { intros dir owner me cap l. induction l as [|k l IH]; [apply errs_ret|]. simpl.
    apply errs_bind; [apply Htry|]. intros []; [apply errs_ret|done]. }
  unfold claim_with. destruct (negb (is_id_shaped _)); [by apply errs_throw|].
  assert (H : ∀ m, errs P m → errs P (do! lift_err from_io (create_dir_all (pjoin (spec_state spec)
    (dir_name (spec_pool spec)))) in do! lift_err from_io (lock_frees (spec_state spec) (spec_pool spec)) in
    m : io E ClaimOutcome)).
  { intros m Hm. apply errs_bind; [by apply errs_lift|]. intros _. by apply errs_bind; [apply errs_lift|]. }
  destruct (spec_target spec) as [k|]; [destruct (negb _); [apply errs_ret|]|]; apply H; [|apply Hwalk].
  unfold claim_target. apply errs_bind; [apply Htry|]. intros; apply errs_ret.
Qed.

Lemma wp_claim state pool owner me cap target (t : tree) :
  wp (claim state pool owner me cap target)
     (claim_effect state pool owner me [pjoin state (lock_name pool)] t) t.
Proof. apply (wp_claim_with (λ e, e) (λ _, ret Accept)). intros k t'. by wp_struct. Qed.

(** A release with a cleanup that leaves the files alone: only the released
    claim can go, only when its first line names the expected owner, and it is
    never rewritten. *)
Lemma wp_free_with state pool k owner cleanup (t : tree) :
  (∀ t : tree, wp cleanup (λ _ t', ∀ q, file t' q = file t q) t) →
  wp (free_with state pool k owner cleanup) (λ o t',
    let p := claim_path state pool k in
    frame [p; pjoin state (lock_name pool)] t t' ∧
    (∀ q s, q ≠ p → file t q = Some s → file t' q = Some s) ∧
    (file t' p = file t p ∨
     file t' p = None ∧ ∃ s, file t p = Some s ∧ head (lines s) = Some owner) ∧
    (o = Done (Ok Removed) → file t' p = None ∧ ∃ s, file t p = Some s ∧ head (lines s) = Some owner)) t.
Proof.
  intros Hcl. unfold free_with. wp_struct. set (p := claim_path state pool k).
  apply wp_lock_frees. intros o t1 Hk1 Hf1.
  assert (Hp1 : file t1 p = file t p).
  { apply Hf1. rewrite list_elem_of_singleton. apply claim_path_lock. }
  set (lk := pjoin state (lock_name pool)) in *.
  assert (Hsame : ∀ o t2, o ≠ Done (Ok Removed) → (∀ q, file t2 q = file t1 q) →
    frame [p; lk] t t2 ∧ (∀ q s, q ≠ p → file t q = Some s → file t2 q = Some s) ∧ (file t2 p = file t p ∨
     file t2 p = None ∧ ∃ s, file t p = Some s ∧ head (lines s) = Some owner) ∧
    (o = Done (E:=ReleaseError) (Ok Removed) →
      file t2 p = None ∧ ∃ s, file t p = Some s ∧ head (lines s) = Some owner)).
  { intros o' t2 Ho H2. splits; [| |left; by rewrite H2|done].
    - intros q Hq. rewrite H2. apply Hf1. set_solver.
    - intros q s _ Hq. rewrite H2. by apply Hk1. }
  destruct o as [[[]|e]|]; wp_struct; [|by apply Hsame..].
  apply wp_read_to_string; [intros s Hs|intros e _|]; wp_struct;
    [|case_decide; wp_struct; by apply Hsame|by apply Hsame].
  case_bool_decide as Hhead; cbn [negb]; wp_struct; [|by apply Hsame].
  eapply wp_mono; [apply Hcl|]. intros o t2 H2. simpl in H2.
  destruct o as [[[]|e]|]; wp_struct; [|by apply Hsame..].
  apply wp_remove_file; [intros s' Hs'|intros s' Hl%file_link|intros e _|]; wp_struct;
    [|by rewrite H2, Hs in Hl|case_decide; wp_struct; by apply Hsame|by apply Hsame].
  assert (file (delete p t2) p = None ∧ ∃ s, file t p = Some s ∧ head (lines s) = Some owner).
  { rewrite file_delete. split; [done|]. exists s. by rewrite <- Hp1. }
  splits; auto.
  - intros q Hq. rewrite file_delete_ne, H2 by set_solver. apply Hf1. set_solver.
  - intros q s'' Hq Hs''. rewrite file_delete_ne, H2 by done. by apply Hk1.
Qed.

Definition tmp_path (state : path) (pool : Pool) (index : N) : path :=
  pjoin (pjoin state (dir_name pool)) ("." +:+ show_N index +:+ ".tmp").

(** The replacement of a claim's text is all or nothing. *)
Lemma wp_rewrite_atomic state pool k body (t : tree) :
  let p := claim_path state pool k in
  wp (rewrite_atomic (pjoin state (dir_name pool)) k body) (λ o t',
    frame [p; tmp_path state pool k] t t' ∧
    (file t' p = file t p ∨ file t' p = Some body) ∧
    (o = Done (Ok ()) → file t' p = Some body)) t.
Proof.
  intros p. unfold rewrite_atomic. fold (tmp_path state pool k) (claim_path state pool k). fold p.
  set (tmp := tmp_path state pool k).
  assert (Hne : p ≠ tmp) by apply claim_path_tmp.
  assert (Htmp : ∀ s, frame [p; tmp] t (<[tmp := File s]> t) ∧ file (<[tmp := File s]> t) p = file t p).
  { intros s. rewrite file_insert_ne by done. split; [|done].
    eapply frame_weaken; [apply frame_insert|set_solver]. }
  assert (Happ : ∀ s, append_file tmp s (<[tmp := File ""]> t) = <[tmp := File s]> t).
  { intros s. unfold append_file. by rewrite lookup_insert_eq, insert_insert_eq. }
  match goal with |- wp _ ?post _ => set (Q := post) end.
  assert (Hsame : ∀ o, o ≠ Done (Ok ()) → Q o t) by (intros o Ho; unfold Q; splits; [auto with rooms|by left|done]).
  assert (Hpart : ∀ o s, o ≠ Done (Ok ()) → Q o (<[tmp := File s]> t)).
  { intros o s Ho. unfold Q. destruct (Htmp s). splits; [done|by left|done]. }
  unfold sync_dir, sync_all. wp_struct. apply wp_open_truncate; intros; wp_struct; [|by apply Hsame..].
  apply wp_write_all; intros; rewrite ?Happ; wp_struct; [|by apply Hpart..].
  apply wp_pure_call; intros; wp_struct; [|by apply Hpart..].
  apply wp_rename; [intros n|..]; intros; wp_struct; [|by apply Hpart..].
  simplify_map_eq.
  assert (Hdone : ∀ o, Q o (<[p:=File body]> (delete tmp (<[tmp:=File body]> t)))).
  { intros o. unfold Q. rewrite file_insert. splits; auto.
    intros q Hq. rewrite file_insert_ne, file_delete_ne, file_insert_ne by set_solver. done. }
  apply wp_pure_call; intros; apply Hdone.
Qed.

(** ** Reconciliation: what it may remove *)

Section reconcile_safety.
  Variable proc_stat : N → ProcStat.
  Variable cleanup : N → string → io string ReconcileAction.
  Variables (state : path) (pool : Pool).
  Variable I : tree → Prop.
  Variable removable : N → string → Prop.

(** The cleanup leaves the files alone and allows a removal only for a
    [removable] claim; [I] is what it relies on, which the pool's own steps keep. *)
Hypothesis cleanup_ok : ∀ k o (t : tree), I t → wp (cleanup k o) (λ out t',
  I t' ∧ (∀ q, file t' q = file t q) ∧ (out = Done (Ok Remove) → removable k o)) t.
Hypothesis I_lock : ∀ t t' : tree, I t → t' = t ∨ t' = <[pjoin state (lock_name pool) := File ""]> t → I t'.
Hypothesis I_delete : ∀ (t : tree) k, I t → I (delete (claim_path state pool k) t).

(** A claim text the reconciler may remove at index [k]. *)
Definition reclaimable (k : N) (s : string) : Prop :=
  (starts_with s "@" = false ∧ parse_claim s = None) ∨
  ∃ c, parse_claim s = Some c ∧
       claimer_liveness proc_stat (tok_pid c) (tok_starttime c) = Dead ∧ removable k (tok_owner c).

(** Files change only by the removal of reclaimable claims. *)
Definition only_reclaims (t t' : tree) : Prop := ∀ q,
  q ≠ pjoin state (lock_name pool) →
  file t' q = file t q ∨
  (file t' q = None ∧ ∃ k s, q = claim_path state pool k ∧ file t q = Some s ∧ reclaimable k s).

Lemma only_reclaims_refl t : only_reclaims t t.
Proof. intros q _. by left. Qed.

Lemma only_reclaims_trans t t1 t2 :
  only_reclaims t t1 → only_reclaims t1 t2 → only_reclaims t t2.
Proof.
  intros H1 H2 q Hq. destruct (H2 q Hq) as [->|(-> & k & s & -> & Hs & Hr)]; [by apply H1|].
  right. split; [done|]. destruct (H1 _ Hq) as [E|(E & _)]; [|congruence].
  exists k, s. by rewrite <- E.
Qed.

Lemma only_reclaims_frame t t1 : frame [pjoin state (lock_name pool)] t t1 → only_reclaims t t1.
Proof. intros H q Hq. left. apply H. by rewrite list_elem_of_singleton. Qed.

Lemma only_reclaims_delete t k s :
  file t (claim_path state pool k) = Some s → reclaimable k s →
  only_reclaims t (delete (claim_path state pool k) t).
Proof.
  intros Hs Hr q _. destruct (decide (q = claim_path state pool k)) as [->|].
  - right. rewrite file_delete. eauto 10.
  - left. by rewrite file_delete_ne.
Qed.

Lemma wp_lock_I (Q : outcome io_error unit → tree → Prop) (t : tree) :
  I t → (∀ o t', I t' → only_reclaims t t' → Q o t') → wp (lock_frees state pool) Q t.
Proof using I_lock.
  intros HI HQ. unfold lock_frees, lock_file. wp_struct.
  apply wp_open_create; [|intros; apply HQ; auto using only_reclaims_refl..].
  intros t' Ht'. simpl.
  assert (I t' ∧ only_reclaims t t') as [].
  { split; [apply (I_lock t); tauto|]. apply only_reclaims_frame.
    destruct Ht' as [->|[_ ->]]; auto with rooms. }
  apply wp_pure_call; intros; by apply HQ.
Qed.

Lemma wp_discard k observed (t : tree) :
  I t → starts_with observed "@" = false →
  wp (discard_abandoned_partial state pool (claim_path state pool k) observed)
     (λ _ t', I t' ∧ only_reclaims t t') t.
Proof using I_lock I_delete.
  intros HI Hat. unfold discard_abandoned_partial. wp_struct.
  apply wp_lock_I; [done|]. intros o t1 HI1 H1. destruct o as [[[]|e]|]; wp_struct; auto.
  apply wp_read_to_string; [intros s Hs|intros e _|]; wp_struct; [|case_decide; wp_struct; auto|auto].
  destruct (negb (bool_decide (s = observed)) || bool_decide (is_Some (parse_claim s))) eqn:E;
    wp_struct; [auto|]. boolify. subst s.
  apply wp_remove_file; [intros s' _|intros s' Hl%file_link; by rewrite Hl in Hs|intros e _|];
    wp_struct; [|auto..]. split; [by apply I_delete|].
  eapply only_reclaims_trans; [done|]. eapply only_reclaims_delete; [exact Hs|].
  left. split; [done|]. by apply eq_None_not_Some.
Qed.

Lemma wp_reconcile_dead k expected c (t : tree) :
  I t → parse_claim expected = Some c →
  claimer_liveness proc_stat (tok_pid c) (tok_starttime c) = Dead →
  wp (reconcile_dead cleanup state pool (claim_path state pool k) k expected (tok_owner c))
     (λ _ t', I t' ∧ only_reclaims t t') t.
Proof using cleanup_ok I_lock I_delete.
  intros HI Hc Hdead. unfold reconcile_dead. wp_struct.
  apply wp_lock_I; [done|]. intros o t1 HI1 H1. destruct o as [[[]|e]|]; wp_struct; auto.
  apply wp_read_to_string; [intros s Hs|intros e _|]; wp_struct; [|case_decide; wp_struct; auto|auto].
  case_bool_decide as E; cbn [negb]; wp_struct; [|auto]. subst s.
  eapply wp_mono; [by apply cleanup_ok|]. intros o t2 (HI2 & H2 & Hr). simpl in *.
  assert (only_reclaims t t2) by (eapply only_reclaims_trans; [done|]; intros q _; by left).
  destruct o as [[a|e]|]; wp_struct; auto. case_decide as Ha; wp_struct; [auto|].
  destruct a; [done|].
  apply wp_remove_file; [intros s' _|intros s' Hl%file_link; by rewrite H2, Hs in Hl|intros e' _|];
    wp_struct; auto.
  split; [by apply I_delete|]. eapply only_reclaims_trans; [done|].
  eapply only_reclaims_delete; [rewrite H2; exact Hs|]. right. exists c. by splits; auto.
Qed.

Lemma wp_reconcile_path k (t : tree) :
  I t → wp (reconcile_path proc_stat cleanup state pool (claim_path state pool k) k)
           (λ _ t', I t' ∧ only_reclaims t t') t.
Proof using cleanup_ok I_lock I_delete.
  intros HI. unfold reconcile_path. wp_struct.
  apply wp_read_to_string; [intros s Hs|intros e _|]; wp_struct; auto using only_reclaims_refl.
  destruct (parse_claim s) as [c|] eqn:Hc.
  - case_decide as Hd; wp_struct; [auto using only_reclaims_refl|].
    apply wp_reconcile_dead; [done..|]. by destruct (claimer_liveness _ _ _).
  - destruct (starts_with s "@") eqn:Hat; wp_struct; [auto using only_reclaims_refl|].
    eapply wp_mono; [by apply wp_discard|]. intros o t' H'. destruct o as [[]|]; by wp_struct.
Qed.

Lemma index_of_name name k : index_of pool name = Some k → name = show_N k ∧ valid_index pool k = true.
Proof.
  unfold index_of. destruct (parse_uint u8_max name) as [i|]; [|done]. cbn [mbind option_bind].
  destruct (negb (bool_decide _) || negb (valid_index pool i)) eqn:E; [done|].
  intros [= ->]. boolify. done.
Qed.

Lemma wp_reconcile (t : tree) :
  I t → wp (reconcile proc_stat cleanup state pool) (λ _ t', I t' ∧ only_reclaims t t') t.
Proof using cleanup_ok I_lock I_delete.
  intros HI. unfold reconcile, read_dir. wp_struct.
  apply wp_read; [by destruct (t !! _) as [[]|]| |wp_struct; auto using only_reclaims_refl].
  intros r _. destruct r as [names|]; wp_struct; [|auto using only_reclaims_refl].
  assert (H : wp (for_each (reconcile_entry proc_stat cleanup state pool) names)
                 (λ _ t', I t' ∧ only_reclaims t t') t).
  { revert t HI. induction names as [|name names IH]; intros t HI; simpl; wp_struct;
      [auto using only_reclaims_refl|].
    assert (wp (reconcile_entry proc_stat cleanup state pool name)
               (λ _ t', I t' ∧ only_reclaims t t') t) as Hentry.
    { unfold reconcile_entry, dir_entry. wp_struct.
      apply wp_pure_call; intros; wp_struct; auto using only_reclaims_refl.
      destruct (index_of pool name) as [k|] eqn:E; wp_struct; [|auto using only_reclaims_refl].
      apply index_of_name in E as [-> _]. by apply wp_reconcile_path. }
    eapply wp_mono; [exact Hentry|]. intros o t1 [HI1 H1]. destruct o as [[]|]; wp_struct; [|auto..].
    eapply wp_mono; [by apply IH|]. intros o t2 [HI2 H2]. pose proof (only_reclaims_trans _ _ _ H1 H2).
    destruct o as [[]|]; by wp_struct. }
  eapply wp_mono; [exact H|]. intros o t1 H1. destruct o as [[]|]; by wp_struct.
Qed.

End reconcile_safety.

(** ** Runs without faults *)

(** The lock file can be opened. *)
Definition lockable (t : tree) (state : path) (pool : Pool) : Prop :=
  match t !! pjoin state (lock_name pool) with
  | Some (File _) => True
  | Some (Dir | Link _) => False
  | None => parent_is_dir t (pjoin state (lock_name pool)) = true
  end.

Definition lock_tree (t : tree) (state : path) (pool : Pool) : tree :=
  match t !! pjoin state (lock_name pool) with
  | Some _ => t
  | None => <[pjoin state (lock_name pool) := File ""]> t
  end.

Lemma runs_lock_frees (t : tree) state pool :
  lockable t state pool → runs (lock_frees state pool) t (Ok ()) (lock_tree t state pool).
Proof.
  unfold lockable, lock_tree, lock_frees, open_create, lock_file. intros H.
  eapply runs_bind; [|eapply runs_eq; [apply runs_atomic|done|simpl; reflexivity]].
  eapply runs_eq; [apply runs_atomic|..]; cbv beta;
    (destruct (t !! pjoin state (lock_name pool)) as [[]|]; [done..|]); by rewrite H.
Qed.

Lemma lock_tree_other (t : tree) state pool q :
  q ≠ pjoin state (lock_name pool) → lock_tree t state pool !! q = t !! q.
Proof. intros Hq. unfold lock_tree. destruct (t !! pjoin _ _); [done|by rewrite lookup_insert_ne]. Qed.

Lemma lock_tree_file (t : tree) state pool q :
  q ≠ pjoin state (lock_name pool) → file (lock_tree t state pool) q = file t q.
Proof. intros Hq. unfold file. by rewrite lock_tree_other. Qed.

Lemma claim_path_parent state pool k :
  removelast (claim_path state pool k) = pjoin state (dir_name pool).
Proof. apply removelast_last. Qed.

(** No claim file, directory or other entry at the index. *)
Definition hole (t : tree) (state : path) (pool : Pool) (k : N) : bool :=
  bool_decide (t !! claim_path state pool k = None).

Lemma runs_try_claim_taken (t : tree) state pool k owner me :
  hole t state pool k = false →
  runs (try_claim (pjoin state (dir_name pool)) k owner me) t (Ok false) t.
Proof.
  unfold hole. intros Hn%bool_decide_eq_false. unfold try_claim, open_create_new.
  fold (claim_path state pool k). eapply runs_bind.
  - eapply runs_attempt, runs_eq; [apply runs_atomic|..]; cbv beta;
      (destruct (t !! claim_path state pool k); [|by destruct Hn]); reflexivity.
  - done.
Qed.

Lemma runs_try_claim_free (t : tree) state pool k owner me :
  hole t state pool k = true → t !! pjoin state (dir_name pool) = Some Dir →
  runs (try_claim (pjoin state (dir_name pool)) k owner me) t (Ok true)
    (<[claim_path state pool k := File (claim_text owner me)]> t).
Proof.
  unfold hole. intros Hn%bool_decide_eq_true Hdir. unfold try_claim, open_create_new.
  fold (claim_path state pool k).
  assert (Hp : parent_is_dir t (claim_path state pool k) = true).
  { unfold parent_is_dir. by rewrite claim_path_parent, Hdir. }
  eapply runs_bind.
  - eapply runs_attempt, runs_eq; [apply runs_atomic|..]; cbv beta; rewrite Hn, Hp; reflexivity.
  - cbv beta iota. eapply runs_bind; [eapply runs_attempt, runs_write_all|].
    cbv beta iota. unfold append_file; cbn [snd]. rewrite lookup_insert_eq, insert_insert_eq. apply runs_ret.
Qed.

Lemma runs_claim_walk (t : tree) state pool owner me cap l :
  t !! pjoin state (dir_name pool) = Some Dir →
  runs (claim_walk (λ e, e) (λ _, ret Accept) (pjoin state (dir_name pool)) owner me cap l) t
    (Ok (match find_first (hole t state pool) l with Some k => Claimed k | None => PoolFull cap end))
    (match find_first (hole t state pool) l with
     | Some k => <[claim_path state pool k := File (claim_text owner me)]> t
     | None => t
     end).
Proof.
  intros Hdir. induction l as [|k l IH]; simpl; [apply runs_ret|].
  unfold try_and_select. destruct (hole t state pool k) eqn:Hk.
  - eapply runs_bind; [eapply runs_bind|].
    + eapply runs_eq; [eapply runs_lift_err; by apply runs_try_claim_free|done|done].
    + done.
    + apply runs_ret.
  - eapply runs_bind; [eapply runs_bind|].
    + eapply runs_eq; [eapply runs_lift_err; by apply runs_try_claim_taken|done|done].
    + apply runs_ret.
    + apply IH.
Qed.

Lemma hole_lock_tree (t : tree) state pool k :
  hole (lock_tree t state pool) state pool k = hole t state pool k.
Proof. unfold hole. rewrite lock_tree_other by apply claim_path_lock. done. Qed.

Lemma find_first_ext {A} (p q : A → bool) l :
  (∀ x, p x = q x) → find_first p l = find_first q l.
Proof. intros H. induction l as [|x l IH]; [done|]. simpl. by rewrite H, IH. Qed.

(** The claim's outcome on a tree whose pool directory can be made and whose
    lock can be opened. *)
Lemma runs_claim (t : tree) state pool owner me cap :
  let dir := pjoin state (dir_name pool) in
  let t1 := snd (mkdirs [] dir t) in
  let t2 := lock_tree t1 state pool in
  let cap' := N.min cap (max_index pool) in
  is_id_shaped owner = true → fst (mkdirs [] dir t) = Ok () → lockable t1 state pool →
  runs (claim state pool owner me cap None) t
    (Ok (match find_first (hole t state pool) (index_range cap') with
         | Some k => Claimed k | None => PoolFull cap' end))
    (match find_first (hole t state pool) (index_range cap') with
     | Some k => <[claim_path state pool k := File (claim_text owner me)]> t2
     | None => t2
     end).
Proof.
  intros dir t1 t2 cap' Ho Hmk Hlk. unfold claim, claim_with. cbn [spec_owner spec_target spec_pool].
  rewrite Ho. cbn [negb spec_state spec_cap spec_me].
  eapply runs_bind; [|eapply runs_bind].
  - eapply runs_eq; [eapply runs_lift_err, runs_atomic|fold dir; by rewrite Hmk|reflexivity].
  - eapply runs_eq; [eapply runs_lift_err; by apply runs_lock_frees|done|reflexivity].
  - assert (Hdir : t2 !! dir = Some Dir).
    { unfold t2. rewrite lock_tree_other.
      - unfold t1, dir, pjoin in *. destruct (state ++ [dir_name pool]) eqn:E; [by destruct state|].
        by apply mkdirs_made.
      - unfold t1 in Hlk. unfold lockable in Hlk. intros E. rewrite <- E in Hlk.
        assert (Hm : snd (mkdirs [] dir t) !! dir = Some Dir).
        { unfold dir, pjoin in *. destruct (state ++ [dir_name pool]) eqn:E'; [by destruct state|].
          by apply mkdirs_made. }
        by rewrite Hm in Hlk. }
    assert (Hh : ∀ k, hole t2 state pool k = hole t state pool k).
    { intros k. unfold t2. rewrite hole_lock_tree. unfold hole, t1. rewrite mkdirs_deeper; [done|].
      unfold claim_path, dir, pjoin. rewrite !length_app. simpl. lia. }
    eapply runs_eq; [apply runs_claim_walk; exact Hdir|..];
      by rewrite (find_first_ext _ _ _ Hh).
Qed.

Lemma index_range_lookup n i k :
  index_range n !! i = Some k ↔ k = (N.of_nat i + 1)%N ∧ (k ≤ n)%N.
Proof.
  unfold index_range. rewrite list_lookup_fmap. split.
  - intros (j & Hj & ->)%fmap_Some. apply lookup_seq in Hj as [-> ?]. lia.
  - intros [-> ?]. rewrite lookup_seq_lt by lia. simpl. f_equal. lia.
Qed.

Lemma index_range_elem n k : k ∈ index_range n ↔ (1 ≤ k ≤ n)%N.
Proof.
  rewrite list_elem_of_lookup. setoid_rewrite index_range_lookup. split; [by intros [i [-> ?]]; lia|].
  intros ?. exists (N.to_nat (k - 1)). lia.
Qed.

Lemma find_first_index p n k :
  find_first p (index_range n) = Some k ↔
  (1 ≤ k ≤ n)%N ∧ p k = true ∧ ∀ j, (1 ≤ j < k)%N → p j = false.
Proof.
  rewrite find_first_Some. split.
  - intros (i & [-> Hn]%index_range_lookup & Hp & Hlt). splits; [lia..|done|].
    intros j Hj. apply (Hlt (N.to_nat (j - 1))); [lia|]. apply index_range_lookup. lia.
  - intros ([] & Hp & Hlt). exists (N.to_nat (k - 1)).
    splits; [apply index_range_lookup; lia|done|].
    intros i j Hi [-> ?]%index_range_lookup. apply Hlt. lia.
Qed.

(** ** Properties *)

(** A walk claims the lowest free index: when the pool directory can be
    made and the lock taken, [claim] wins the first index of [1..=min(cap,max)]
    with nothing at it and writes the claimer's token there, and answers
    [PoolFull] exactly when every index of the range is taken. *)
Theorem claim_lowest_hole (t : tree) state pool owner me cap :
  is_id_shaped owner = true →
  fst (mkdirs [] (pjoin state (dir_name pool)) t) = Ok () →
  lockable (snd (mkdirs [] (pjoin state (dir_name pool)) t)) state pool →
  ∃ outcome t', runs (claim state pool owner me cap None) t (Ok outcome) t' ∧
    match outcome with
    | Claimed k =>
        (1 ≤ k ≤ N.min cap (max_index pool))%N ∧
        t !! claim_path state pool k = None ∧
        (∀ j, (1 ≤ j < k)%N → t !! claim_path state pool j ≠ None) ∧
        t' !! claim_path state pool k = Some (File (claim_text owner me))
    | PoolFull c =>
        c = N.min cap (max_index pool) ∧ ∀ j, (1 ≤ j ≤ c)%N → t !! claim_path state pool j ≠ None
    | _ => False
    end.
Proof.
  intros Ho Hmk Hlk. eexists _, _. split; [by apply runs_claim|].
  assert (Hh : ∀ j, hole t state pool j = false ↔ t !! claim_path state pool j ≠ None).
  { intros j. unfold hole. by rewrite bool_decide_eq_false. }
  destruct (find_first _ _) as [k|] eqn:E.
  - apply find_first_index in E as (Hr & Hk & Hlt). unfold hole in Hk. boolify.
    splits; try done; [lia..| |apply lookup_insert_eq]. intros j Hj. by apply Hh, Hlt.
  - split; [done|]. intros j Hj. apply Hh. rewrite find_first_None in E.
    by apply E, index_range_elem.
Qed.

Lemma claim_lowest_hole_witness :
  let pool := {| dir_name := "slots"; lock_name := "slots.lock"; max_index := 63; pool_label := "slot" |} in
  let t : tree := {[ ["s"] := Dir; ["s"; "slots"] := Dir; ["s"; "slots"; "1"] := File "x" ]} in
  ∃ outcome t', runs (claim ["s"] pool "abcdefghijklmnopqrstuvwxyz" {| claimer_pid := 7; claimer_starttime := 9 |}
                  8 None) t (Ok outcome) t' ∧
    match outcome with
    | Claimed k =>
        (1 ≤ k ≤ N.min 8 63)%N ∧ t !! claim_path ["s"] pool k = None ∧
        (∀ j, (1 ≤ j < k)%N → t !! claim_path ["s"] pool j ≠ None) ∧
        t' !! claim_path ["s"] pool k = Some (File (claim_text "abcdefghijklmnopqrstuvwxyz"
          {| claimer_pid := 7; claimer_starttime := 9 |}))
    | PoolFull c => c = N.min 8 63 ∧ ∀ j, (1 ≤ j ≤ c)%N → t !! claim_path ["s"] pool j ≠ None
    | _ => False
    end.
Proof.
  intros pool t. apply claim_lowest_hole; [reflexivity|vm_compute; reflexivity|vm_compute; reflexivity].
Defined.

(** C23.  A claim never disturbs another: whatever fails and wherever the process
    dies, every file of the state directory keeps its contents; a claim that
    succeeds is the only new file, was made where none was and holds the
    claimer's token; a refusal leaves nothing behind; an error or a crash leaves
    at most one half-made claim. *)
Theorem claim_never_disturbs state pool owner me cap target t l o w' :
  claim state pool owner me cap target (World t l) = (o, w') →
  claim_effect state pool owner me [pjoin state (lock_name pool)] t o (fs w').
Proof. intros H. pose proof (wp_claim state pool owner me cap target t l) as Hw. by rewrite H in Hw. Qed.

Lemma claim_never_disturbs_witness :
  let pool := {| dir_name := "slots"; lock_name := "slots.lock"; max_index := 63; pool_label := "slot" |} in
  let me := {| claimer_pid := 7; claimer_starttime := 9 |} in
  let m := claim ["s"] pool "abcdefghijklmnopqrstuvwxyz" me 8 None
             (World {[ ["s"] := Dir ]} [Pass; Pass; Pass; Pass; HaltShort 3]) in
  claim_effect (E:=io_error) ["s"] pool "abcdefghijklmnopqrstuvwxyz" me [["s"; "slots.lock"]]
    {[ ["s"] := Dir ]} (fst m) (fs (snd m)).
Proof.
  intros pool me m. apply (claim_never_disturbs ["s"] pool "abcdefghijklmnopqrstuvwxyz" me 8 None
    {[ ["s"] := Dir ]} [Pass; Pass; Pass; Pass; HaltShort 3]). apply surjective_pairing.
Defined.
