(* ===== verification/Slot.v ===== *)
(** * Slot: network slots, reservations and leases ([slot.rs])

    A slot file holds a claim, or one of the durable [@] tokens a snapshot
    leaves on its slot: a reservation, a flat lease, or a set of clone leases.
    This file is the code; [SlotSpec] states what it promises. *)

From S2P Require Import Prelude RStr Fs Room IndexedClaim.
From stdpp Require Import options.

(** [SlotError] of [error.rs]. *)
Inductive SlotError :=
| SePoolFull (cap : N)
| SeInvalidIndex (index max : N)
| SeTargetTaken (index : N)
| SeNotReserved (index : N)
| SeLeaseHeld (index : N)
| SeCleanup (detail : string)
| SeIo (e : io_error).

(** The [Display] of [thiserror]. *)
Definition show_SlotError (e : SlotError) : string :=
  match e with
  | SePoolFull cap => "pool full: all " +:+ show_N cap +:+ " slots claimed"
  | SeInvalidIndex index max => "invalid slot index " +:+ show_N index +:+ ": valid pool slots are 1..=" +:+ show_N max
  | SeTargetTaken index => "target slot " +:+ show_N index +:+ " already claimed"
  | SeNotReserved index => "slot " +:+ show_N index +:+ " holds no reservation for this snapshot"
  | SeLeaseHeld index => "slot " +:+ show_N index +:+ " reservation is already leased"
  | SeCleanup detail => "checked slot cleanup failed: " +:+ detail
  | SeIo e => "io error: " +:+ message e
  end.

Definition SLOTS_DIR : string := "slots".
Definition FREE_LOCK : string := "slots.lock".
Definition MAX_SLOT : N := 63.
Definition SLOT_POOL : Pool :=
  {| dir_name := SLOTS_DIR; lock_name := FREE_LOCK; max_index := MAX_SLOT; pool_label := "slot" |}.
Definition DEFAULT_MAX_POOL : N := 8.
Definition MAX_CLONE_LEASES : nat := 8.

(** The /30 of slot [index], in wrapping [u8] arithmetic. *)
Definition derive (index : N) : Slot :=
  let base := ((4 * index) mod 256)%N in
  {| slot_index := index;
     slot_tap := "tap-fc" +:+ show_N index;
     slot_gateway := ipv4 172 16 0 ((base + 1) mod 256);
     slot_guest := ipv4 172 16 0 ((base + 2) mod 256);
     slot_prefix := 30 |}.

Definition ensure_pool_index (index : N) : result SlotError unit :=
  if ((index =? 0) || (MAX_SLOT <? index))%N then Err (SeInvalidIndex index MAX_SLOT) else Ok ().

Definition slots_lock (state : path) : io SlotError unit := lift_err SeIo (lock_frees state SLOT_POOL).

Definition slot_path (state : path) (index : N) : path := claim_path state SLOT_POOL index.
Definition slots_dir (state : path) : path := pjoin state SLOTS_DIR.

(** The [match] on [read_to_string] every operation starts with. *)
Definition read_slot (state : path) (index : N) : io SlotError (option string) :=
  let! read := attempt (read_to_string (slot_path state index)) in
  match read with
  | Ok contents => ret (Some contents)
  | Err e => if decide (kind e = NotFound) then ret None else throw (SeIo e)
  end.

(** ** Tokens *)

Inductive SlotToken :=
| TInProgress
| TClaimed (room_id : string) (pid starttime : N)
| TReserved (snapshot_id : string)
| TLeased (snapshot_id lessee : string)
| TCloneLeases (snapshot_id : string) (lessees : list string).

Definition reservation_token (snapshot_id : string) : string :=
  "@reservation " +:+ snapshot_id +:+ String nl "".

Definition lease_token (snapshot_id lessee_room_id : string) : string :=
  "@lease " +:+ snapshot_id +:+ " " +:+ lessee_room_id +:+ String nl "".

Definition clone_leases_token (snapshot_id : string) (lessees : list string) : string :=
  "@clone-leases " +:+ snapshot_id +:+ " " +:+ join " " lessees +:+ String nl "".

Definition parse_lease (rest : string) : SlotToken :=
  match split_byte " " rest with
  | [snapshot_id; lessee] =>
      if negb (is_id_shaped snapshot_id) || negb (is_id_shaped lessee) then TInProgress
      else TLeased snapshot_id lessee
  | _ => TInProgress
  end.

(** The loop over the members: each shaped and above the previous one. *)
Fixpoint members_ok (previous : option string) (lessees : list string) : bool :=
  match lessees with
  | [] => true
  | lessee :: rest =>
      if negb (is_id_shaped lessee) ||
         match previous with Some prior => negb (str_lt prior lessee) | None => false end
      then false
      else members_ok (Some lessee) rest
  end.

Definition parse_clone_leases (rest : string) : SlotToken :=
  match split_byte " " rest with
  | [] => TInProgress
  | snapshot_id :: lessees =>
      if negb (is_id_shaped snapshot_id) then TInProgress else
      if bool_decide (lessees = []) || (MAX_CLONE_LEASES <? length lessees)%nat then TInProgress else
      if members_ok None lessees then TCloneLeases snapshot_id lessees else TInProgress
  end.

Definition parse_token (contents : string) : SlotToken :=
  if negb (ends_with_byte nl contents) then TInProgress else
  match lines contents with
  | [] => TInProgress
  | first :: more =>
      match strip_prefix "@reservation " first with
      | Some rest =>
          if negb (is_id_shaped rest) || negb (bool_decide (more = [])) then TInProgress
          else TReserved rest
      | None =>
      match strip_prefix "@lease " first with
      | Some rest => if negb (bool_decide (more = [])) then TInProgress else parse_lease rest
      | None =>
      match strip_prefix "@clone-leases " first with
      | Some rest => if negb (bool_decide (more = [])) then TInProgress else parse_clone_leases rest
      | None =>
      match parse_claim contents with
      | Some c => TClaimed (tok_owner c) (tok_pid c) (tok_starttime c)
      | None => TInProgress
      end
      end
      end
      end
  end.

(** ** Claim and release *)

Definition slot_claim (state : path) (room_id : string) (me : Claimer) (cap : N) (target : option N)
    : io SlotError Slot :=
  let! outcome := lift_err SeIo (claim state SLOT_POOL room_id me cap target) in
  match outcome with
  | Claimed index => ret (derive index)
  | PoolFull cap => throw (SePoolFull cap)
  | InvalidIndex index max => throw (SeInvalidIndex index max)
  | TargetTaken index => throw (SeTargetTaken index)
  end.

Inductive Freed := FrRemoved | FrAlreadyFree | FrAlreadyReassigned.

Definition free_with_cleanup (state : path) (slot_index : N) (expected_room_id : string)
    (cleanup : io string unit) : io SlotError Freed :=
  do! of_result (ensure_pool_index slot_index) in
  let! outcome := lift_err (λ e, match e with ReleaseIo e => SeIo e | ReleaseCleanup d => SeCleanup d end)
    (free_with state SLOT_POOL slot_index expected_room_id cleanup) in
  ret (match outcome with
       | Removed => FrRemoved
       | AlreadyFree => FrAlreadyFree
       | AlreadyReassigned => FrAlreadyReassigned
       end).

Definition slot_free (state : path) (slot_index : N) (expected_room_id : string) : io SlotError Freed :=
  free_with_cleanup state slot_index expected_room_id (ret ()).

Definition cleanup_if_unclaimed (state : path) (slot_index : N) (cleanup : io string unit)
    : io SlotError bool :=
  do! of_result (ensure_pool_index slot_index) in
  do! slots_lock state in
  let! meta := attempt (symlink_metadata (slot_path state slot_index)) in
  match meta with
  | Ok _ => ret false
  | Err e =>
      if decide (kind e = NotFound) then do! lift_err SeCleanup cleanup in ret true
      else throw (SeIo e)
  end.

Definition claimed_by (state : path) (slot_index : N) (room_id : string) : io SlotError bool :=
  do! of_result (ensure_pool_index slot_index) in
  do! slots_lock state in
  let! read := read_slot state slot_index in
  match read with
  | None => ret false
  | Some contents =>
      ret (match parse_token contents with
           | TClaimed owner _ _ => bool_decide (owner = room_id)
           | _ => false
           end)
  end.

Definition leased_by (state : path) (slot_index : N) (snapshot_id room_id : string)
    : io SlotError bool :=
  do! of_result (ensure_pool_index slot_index) in
  do! slots_lock state in
  let! read := read_slot state slot_index in
  match read with
  | None => ret false
  | Some contents =>
      ret (match parse_token contents with
           | TLeased owner lessee => bool_decide (owner = snapshot_id) && bool_decide (lessee = room_id)
           | TCloneLeases owner lessees =>
               bool_decide (owner = snapshot_id) && is_ok (binary_search lessees room_id)
           | _ => false
           end)
  end.

(** ** Reservations and leases *)

Definition rewrite_slot_atomic (dir : path) (index : N) (body : string) : io SlotError unit :=
  lift_err SeIo (rewrite_atomic dir index body).

Definition slot_sync_dir (p : path) : io SlotError unit := lift_err SeIo (sync_dir p).

Inductive Reserved := Transferred | AlreadyReserved | NotOwned.

Definition reserve (state : path) (slot_index : N) (snapshot_id expected_room_id : string)
    : io SlotError Reserved :=
  do! of_result (ensure_pool_index slot_index) in
  let dir := slots_dir state in
  do! slots_lock state in
  let! read := read_slot state slot_index in
  match read with
  | None => ret NotOwned
  | Some contents =>
      if match parse_token contents with TReserved owner => bool_decide (owner = snapshot_id) | _ => false end
      then do! slot_sync_dir dir in ret AlreadyReserved
      else if negb (bool_decide (head (lines contents) = Some expected_room_id)) then ret NotOwned
      else
        do! rewrite_slot_atomic dir slot_index (reservation_token snapshot_id) in
        ret Transferred
  end.

Definition lease (state : path) (slot_index : N) (snapshot_id lessee_room_id : string)
    : io SlotError Slot :=
  do! of_result (ensure_pool_index slot_index) in
  let dir := slots_dir state in
  do! slots_lock state in
  let! read := read_slot state slot_index in
  match read with
  | None => throw (SeNotReserved slot_index)
  | Some contents =>
      match parse_token contents with
      | TReserved owner =>
          if decide (owner = snapshot_id) then
            do! rewrite_slot_atomic dir slot_index (lease_token snapshot_id lessee_room_id) in
            ret (derive slot_index)
          else throw (SeNotReserved slot_index)
      | TLeased owner lessee =>
          if decide (owner = snapshot_id) then
            if decide (lessee = lessee_room_id) then
              do! slot_sync_dir dir in ret (derive slot_index)
            else throw (SeLeaseHeld slot_index)
          else throw (SeNotReserved slot_index)
      | TCloneLeases owner _ =>
          if decide (owner = snapshot_id) then throw (SeLeaseHeld slot_index)
          else throw (SeNotReserved slot_index)
      | _ => throw (SeNotReserved slot_index)
      end
  end.

Definition lease_clone (state : path) (slot_index : N) (snapshot_id lessee_room_id : string)
    : io SlotError Slot :=
  do! of_result (ensure_pool_index slot_index) in
  if negb (is_id_shaped snapshot_id) || negb (is_id_shaped lessee_room_id)
  then throw (SeNotReserved slot_index) else
  let dir := slots_dir state in
  do! slots_lock state in
  let! read := read_slot state slot_index in
  match read with
  | None => throw (SeNotReserved slot_index)
  | Some contents =>
      match parse_token contents with
      | TReserved owner =>
          if decide (owner = snapshot_id) then
            do! rewrite_slot_atomic dir slot_index (clone_leases_token snapshot_id [lessee_room_id]) in
            ret (derive slot_index)
          else throw (SeNotReserved slot_index)
      | TCloneLeases owner lessees =>
          if decide (owner = snapshot_id) then
            match binary_search lessees lessee_room_id with
            | Ok _ => do! slot_sync_dir dir in ret (derive slot_index)
            | Err position =>
                if (length lessees =? MAX_CLONE_LEASES)%nat then throw (SeLeaseHeld slot_index) else
                do! rewrite_slot_atomic dir slot_index
                      (clone_leases_token snapshot_id (vec_insert position lessee_room_id lessees)) in
                ret (derive slot_index)
            end
          else throw (SeNotReserved slot_index)
      | TLeased owner _ =>
          if decide (owner = snapshot_id) then throw (SeLeaseHeld slot_index)
          else throw (SeNotReserved slot_index)
      | _ => throw (SeNotReserved slot_index)
      end
  end.

Definition clone_token_after_release (snapshot_id : string) (lessees : list string) (room_id : string)
    : option string :=
  match binary_search lessees room_id with
  | Err _ => None
  | Ok position =>
      let lessees := delete position lessees in
      if bool_decide (lessees = []) then Some (reservation_token snapshot_id)
      else Some (clone_leases_token snapshot_id lessees)
  end.

Inductive Released := Returned | AlreadyReturned | NotOurLease.

(** The lock is held while a [LeaseHold] lives. *)
Record LeaseHold := { hold_dir : path; hold_index : N; post_cleanup_token : string }.

Definition return_to_reservation (hold : LeaseHold) : io SlotError Released :=
  do! rewrite_slot_atomic (hold_dir hold) (hold_index hold) (post_cleanup_token hold) in
  ret Returned.

Definition hold_lease_for_teardown (state : path) (slot_index : N) (snapshot_id room_id : string)
    : io SlotError (option LeaseHold) :=
  do! of_result (ensure_pool_index slot_index) in
  let dir := slots_dir state in
  do! slots_lock state in
  let! read := read_slot state slot_index in
  match read with
  | None => ret None
  | Some contents =>
      match parse_token contents with
      | TLeased owner lessee =>
          if bool_decide (owner = snapshot_id) && bool_decide (lessee = room_id) then
            ret (Some {| hold_dir := dir; hold_index := slot_index;
                         post_cleanup_token := reservation_token snapshot_id |})
          else ret None
      | TCloneLeases owner lessees =>
          if decide (owner = snapshot_id) then
            match clone_token_after_release snapshot_id lessees room_id with
            | None => ret None
            | Some token => ret (Some {| hold_dir := dir; hold_index := slot_index;
                                         post_cleanup_token := token |})
            end
          else ret None
      | _ => ret None
      end
  end.

Definition release_lease (state : path) (slot_index : N) (snapshot_id lessee_room_id : string)
    : io SlotError Released :=
  do! of_result (ensure_pool_index slot_index) in
  let dir := slots_dir state in
  do! slots_lock state in
  let! read := read_slot state slot_index in
  match read with
  | None => ret NotOurLease
  | Some contents =>
      match parse_token contents with
      | TLeased owner lessee =>
          if bool_decide (owner = snapshot_id) && bool_decide (lessee = lessee_room_id) then
            do! rewrite_slot_atomic dir slot_index (reservation_token snapshot_id) in
            ret Returned
          else ret NotOurLease
      | TCloneLeases owner lessees =>
          if decide (owner = snapshot_id) then
            match clone_token_after_release snapshot_id lessees lessee_room_id with
            | None => ret NotOurLease
            | Some token => do! rewrite_slot_atomic dir slot_index token in ret Returned
            end
          else ret NotOurLease
      | TReserved owner =>
          if decide (owner = snapshot_id) then do! slot_sync_dir dir in ret AlreadyReturned
          else ret NotOurLease
      | _ => ret NotOurLease
      end
  end.

(** ** Reconciliation *)

Definition slot_reconcile (proc_stat : N → ProcStat) (state : path) (cleanup : N → io string unit)
    : io infallible (list Reclaimed) :=
  reconcile proc_stat (λ index room_id,
    let! present := is_dir (pjoin state room_id) in
    if present then ret Keep else
    do! cleanup index in
    ret Remove) state SLOT_POOL.

(** ** Token grammar: lemmas *)

Definition sorted_ids (l : list string) : Prop :=
  Forall (λ w, is_id_shaped w = true) l ∧ StronglySorted slt l.

Lemma members_ok_spec prev l :
  members_ok prev l = true ↔
  Forall (λ w, is_id_shaped w = true) l ∧ StronglySorted slt (option_list prev ++ l).
Proof.
  revert prev; induction l as [|x l IH]; intros prev; simpl.
  - split; [|done]. intros _. split; [done|]. destruct prev; simpl; repeat constructor.
  - rewrite Forall_cons. destruct (is_id_shaped x) eqn:Hx; simpl; [|naive_solver].
    destruct prev as [p|]; simpl.
    + destruct (str_lt p x) eqn:Hp; simpl.
      * rewrite IH. simpl. split; intros [H1 H2]; (split; [naive_solver|]).
        -- constructor; [done|]. inversion_clear H2. constructor; [done|].
           eapply Forall_impl; [done|]. intros y Hy. by transitivity x.
        -- by inversion H2.
      * split; [done|]. intros [_ H]. inversion_clear H as [|?? _ H']. inversion H'. unfold slt in *. congruence.
    + rewrite IH. naive_solver.
Qed.

Lemma members_ok_None l : members_ok None l = true ↔ sorted_ids l.
Proof. apply members_ok_spec. Qed.

(** A durable token's well-formedness and its line. *)
Definition durable (tok : SlotToken) : Prop :=
  match tok with
  | TReserved s => is_id_shaped s = true
  | TLeased s r => is_id_shaped s = true ∧ is_id_shaped r = true
  | TCloneLeases s l => is_id_shaped s = true ∧ sorted_ids l ∧ 1 ≤ length l ≤ MAX_CLONE_LEASES
  | _ => False
  end.

Definition durable_line (tok : SlotToken) : string :=
  match tok with
  | TReserved s => "@reservation " +:+ s
  | TLeased s r => "@lease " +:+ s +:+ " " +:+ r
  | TCloneLeases s l => "@clone-leases " +:+ s +:+ " " +:+ join " " l
  | _ => ""
  end.

Lemma id_lacks_space w : is_id_shaped w = true → lacks " " w = true.
Proof. intros. by apply id_shaped_lacks. Qed.

Lemma durable_line_lacks c tok :
  durable tok → c = nl ∨ c = cr → lacks c (durable_line tok) = true.
Proof.
  intros Hd Hc.
  assert (Hid : ∀ w, is_id_shaped w = true → lacks c w = true).
  { intros w Hw. apply id_shaped_lacks; [done|]. by destruct Hc as [->| ->]. }
  assert (Hsp : lacks c " " = true ∧ lacks c "@reservation " = true ∧ lacks c "@lease " = true ∧
                lacks c "@clone-leases " = true) by (destruct Hc as [->| ->]; done).
  destruct Hsp as (H1 & H2 & H3 & H4).
  destruct tok as [| | s|s r|s l]; simpl in *; try done; rewrite !lacks_app, ?H1, ?H2, ?H3, ?H4.
  - by rewrite Hid.
  - destruct Hd. by rewrite !Hid.
  - destruct Hd as (Hs & [Hl _] & _). rewrite Hid by done. simpl. apply lacks_join; [done|].
    eapply Forall_impl; [exact Hl|]. auto.
Qed.

(** What [parse_token] makes of the single line of a terminated text. *)
Lemma parse_token_line c tok :
  durable tok → ends_with_byte nl c = true → lines c = [durable_line tok] → parse_token c = tok.
Proof.
  intros Hd He Hl. unfold parse_token. rewrite He, Hl. cbn [negb].
  destruct tok as [| | s|s r|s l]; simpl in Hd; try done; cbn [durable_line].
  - rewrite strip_prefix_app, Hd. done.
  - change (strip_prefix "@reservation " _) with (@None string). cbv iota beta.
    rewrite strip_prefix_app. destruct Hd as [Hs Hr]. cbn. unfold parse_lease.
    change (" " +:+ ?x) with (String " " x).
    rewrite split_byte_app, split_byte_lacks, Hs, Hr by (by apply id_lacks_space). done.
  - change (strip_prefix "@reservation " _) with (@None string).
    change (strip_prefix "@lease " _) with (@None string). cbv iota beta.
    rewrite strip_prefix_app. destruct Hd as (Hs & Hsort & Hlen). cbn. unfold parse_clone_leases.
    change (" " +:+ ?x) with (String " " x).
    rewrite split_byte_app by (by apply id_lacks_space). cbv iota.
    change " " with (String " " "") at 2. rewrite split_byte_join; cycle 1.
    { intros ->. simpl in Hlen. lia. }
    { eapply Forall_impl; [apply Hsort|]. intros w. apply id_lacks_space. }
    rewrite Hs. cbn [negb]. rewrite bool_decide_eq_false_2 by (intros ->; simpl in Hlen; lia).
    replace (MAX_CLONE_LEASES <? length l)%nat with false by (symmetry; apply Nat.ltb_ge; lia).
    cbn [orb]. apply members_ok_None in Hsort as ->. done.
Qed.

Lemma durable_line_word tok w : durable tok → is_id_shaped w = true → durable_line tok ≠ w.
Proof. destruct tok; try done; intros _ Hw; simpl; by apply (id_shaped_not_at w). Qed.

(** What [parse_token] accepted. *)
Lemma parse_token_inv c tok :
  parse_token c = tok →
  match tok with
  | TInProgress => True
  | TClaimed r p st =>
      parse_claim c = Some {| tok_owner := r; tok_pid := p; tok_starttime := st |}
  | _ => durable tok ∧ ends_with_byte nl c = true ∧ lines c = [durable_line tok]
  end.
Proof.
  unfold parse_token. intros <-.
  destruct (ends_with_byte nl c) eqn:He; [|done]. cbn [negb].
  destruct (lines c) as [|first more] eqn:Hl; [done|].
  destruct (strip_prefix "@reservation " first) as [rest|] eqn:E1.
  { apply strip_prefix_Some in E1 as ->. destruct (is_id_shaped rest) eqn:Hr; [|done].
    cbn [negb orb]. case_bool_decide as Hm; [|done]. subst more. done. }
  destruct (strip_prefix "@lease " first) as [rest|] eqn:E2.
  { apply strip_prefix_Some in E2 as ->. case_bool_decide as Hm; [|done]. subst more. cbn [negb].
    unfold parse_lease. pose proof (join_split_byte " " rest) as Hj.
    destruct (split_byte " " rest) as [|s [|r [|]]]; try done.
    destruct (negb (is_id_shaped s) || negb (is_id_shaped r)) eqn:Hid; [done|]. boolify.
    by rewrite <- Hj. }
  destruct (strip_prefix "@clone-leases " first) as [rest|] eqn:E3.
  { apply strip_prefix_Some in E3 as ->. case_bool_decide as Hm; [|done]. subst more. cbn [negb].
    unfold parse_clone_leases. pose proof (join_split_byte " " rest) as Hj.
    destruct (split_byte " " rest) as [|s l]; [done|].
    destruct (is_id_shaped s) eqn:Hs; [|done]. cbn [negb].
    destruct (bool_decide (l = []) || (MAX_CLONE_LEASES <? length l)%nat) eqn:Hlen; [done|].
    destruct (members_ok None l) eqn:Hmem; [|done]. apply members_ok_None in Hmem.
    apply orb_false_iff in Hlen as [Hne%bool_decide_eq_false Hlen%Nat.ltb_ge].
    splits; [|done|].
    - split; [done|]. split; [done|]. split; [destruct l; [done|simpl; lia]|done].
    - cbn [durable_line]. rewrite <- Hj. by destruct l. }
  by destruct (parse_claim c) as [[]|].
Qed.

(** The texts that read back as a durable token. *)
Lemma parse_token_durable tok c :
  durable tok →
  parse_token c = tok ↔
  c = durable_line tok +:+ String nl "" ∨ c = durable_line tok +:+ String cr (String nl "").
Proof.
  intros Hd. pose proof (durable_line_lacks nl tok Hd (or_introl eq_refl)) as Hnl.
  pose proof (durable_line_lacks cr tok Hd (or_intror eq_refl)) as Hcr. split.
  - intros Hp%parse_token_inv.
    assert (Hp' : ends_with_byte nl c = true ∧ lines c = [durable_line tok])
      by (destruct tok; try done; apply Hp).
    clear Hp. destruct Hp' as [He Hl]. apply lines_inv in Hl as (r & ->%lines_nil & [->|[->|[-> _]]]); auto.
    by rewrite ends_with_byte_lacks in He.
  - intros [->| ->]; (apply parse_token_line; [done|..]).
    + apply ends_with_byte_app.
    + by apply lines_single.
    + replace (durable_line tok +:+ String cr (String nl "")) with
        ((durable_line tok +:+ String cr "") +:+ String nl "") by (rewrite app_assoc; done).
      apply ends_with_byte_app.
    + by rewrite lines_crlf.
Qed.

Lemma reservation_token_line s : reservation_token s = durable_line (TReserved s) +:+ String nl "".
Proof. unfold reservation_token. by rewrite <- !app_assoc. Qed.

Lemma lease_token_line s r : lease_token s r = durable_line (TLeased s r) +:+ String nl "".
Proof. unfold lease_token, durable_line. by rewrite !app_assoc. Qed.

Lemma clone_leases_token_line s l :
  clone_leases_token s l = durable_line (TCloneLeases s l) +:+ String nl "".
Proof. unfold clone_leases_token, durable_line. by rewrite !app_assoc. Qed.

Lemma parse_reservation_token s :
  is_id_shaped s = true → parse_token (reservation_token s) = TReserved s.
Proof. intros. apply parse_token_durable; [done|]. left. apply reservation_token_line. Qed.

Lemma parse_lease_token s r :
  is_id_shaped s = true → is_id_shaped r = true → parse_token (lease_token s r) = TLeased s r.
Proof. intros. apply parse_token_durable; [done|]. left. apply lease_token_line. Qed.

Lemma parse_clone_leases_token s l :
  is_id_shaped s = true → sorted_ids l → 1 ≤ length l ≤ MAX_CLONE_LEASES →
  parse_token (clone_leases_token s l) = TCloneLeases s l.
Proof. intros. apply parse_token_durable; [done|]. left. apply clone_leases_token_line. Qed.

Lemma lines_head_prefix c first more r :
  lines c = first :: more → strip_prefix ("@" +:+ r) first ≠ None → starts_with c "@" = true.
Proof.
  intros Hl Hp. destruct (strip_prefix ("@" +:+ r) first) as [x|] eqn:E; [|done].
  apply strip_prefix_Some in E as ->. apply starts_with_true.
  apply lines_inv in Hl as (y & _ & [->|[->|[-> _]]]); rewrite !app_assoc; eauto.
Qed.

(** Text that does not start with the sentinel is read as a claim or as a write
    in progress. *)
Lemma parse_token_not_at c : starts_with c "@" = false →
  parse_token c = match parse_claim c with
                  | Some k => TClaimed (tok_owner k) (tok_pid k) (tok_starttime k)
                  | None => TInProgress
                  end.
Proof.
  intros Hat. unfold parse_token.
  destruct (ends_with_byte nl c) eqn:He; cbn [negb];
    [|unfold parse_claim; by rewrite He].
  destruct (lines c) as [|first more] eqn:Hl; [unfold parse_claim; by rewrite He, Hl|].
  pose proof (lines_head_prefix c first more) as Hp.
  destruct (strip_prefix "@reservation " first) eqn:E1.
  { rewrite (Hp "reservation ") in Hat; [done|done|]. change ("@" +:+ _) with "@reservation ". by rewrite E1. }
  destruct (strip_prefix "@lease " first) eqn:E2.
  { rewrite (Hp "lease ") in Hat; [done|done|]. change ("@" +:+ _) with "@lease ". by rewrite E2. }
  destruct (strip_prefix "@clone-leases " first) eqn:E3.
  { rewrite (Hp "clone-leases ") in Hat; [done|done|]. change ("@" +:+ _) with "@clone-leases ". by rewrite E3. }
  done.
Qed.

Lemma durable_starts_at c tok :
  durable tok → parse_token c = tok → starts_with c "@" = true.
Proof.
  intros Hd [->| ->]%parse_token_durable; try done; destruct tok; try done;
    apply starts_with_true; cbn [durable_line]; rewrite !app_assoc; by eexists.
Qed.
