(* ===== verification/SlotSpec.v ===== *)
(** * SlotSpec: what the slot store promises

    An abstract state machine for one slot, and the proof that every operation
    of [Slot] refines it under any failure: an operation either answers as the
    machine does and leaves the machine's next state, or fails or dies having
    left the old state or the next one, never anything else.  The invariants of
    the machine then hold of every sequence of operations on the files. *)

From S2P Require Import Prelude RStr Fs Room IndexedClaim Slot.
From stdpp Require Import options.

(** ** The abstract slot *)

Inductive SlotState :=
| SFree
| SPartial (owner_line : option string)
| SClaimed (room : string) (pid starttime : N)
| SReserved (snap : string)
| SLeased (snap room : string)
| SClones (snap : string) (rooms : gset string).

(** The state a slot file's contents stand for. *)
Definition abs (contents : option string) : SlotState :=
  match contents with
  | None => SFree
  | Some c =>
      match parse_token c with
      | TInProgress => SPartial (head (lines c))
      | TClaimed r p st => SClaimed r p st
      | TReserved s => SReserved s
      | TLeased s r => SLeased s r
      | TCloneLeases s l => SClones s (list_to_set l)
      end
  end.

Definition slot_state (state : path) (t : tree) (k : N) : SlotState :=
  abs (file t (slot_path state k)).

(** The room a claim, finished or not, names. *)
Definition claim_owner (st : SlotState) : option string :=
  match st with
  | SPartial o => o
  | SClaimed r _ _ => Some r
  | _ => None
  end.

Inductive slot_op :=
| OpFree (room : string)
| OpReserve (snap room : string)
| OpLease (snap room : string)
| OpLeaseClone (snap room : string)
| OpRelease (snap room : string)
| OpTeardown (snap room : string).

Inductive slot_resp :=
| RFreed (f : Freed)
| RReserved (r : Reserved)
| RGranted (s : Slot)
| RReleased (r : Released)
| RTorn (r : option Released).

Definition release_clone (snap : string) (rooms : gset string) (room : string) : SlotState :=
  if decide (rooms ∖ {[room]} = ∅) then SReserved snap else SClones snap (rooms ∖ {[room]}).

(** The machine: the answer and the next state. *)
Definition spec (k : N) (op : slot_op) (st : SlotState) : result SlotError slot_resp * SlotState :=
  match op with
  | OpFree room =>
      match st with
      | SFree => (Ok (RFreed FrAlreadyFree), SFree)
      | _ => if decide (claim_owner st = Some room) then (Ok (RFreed FrRemoved), SFree)
             else (Ok (RFreed FrAlreadyReassigned), st)
      end
  | OpReserve snap room =>
      match st with
      | SReserved s => (Ok (RReserved (if decide (s = snap) then AlreadyReserved else NotOwned)), st)
      | _ => if decide (claim_owner st = Some room) then (Ok (RReserved Transferred), SReserved snap)
             else (Ok (RReserved NotOwned), st)
      end
  | OpLease snap room =>
      match st with
      | SReserved s => if decide (s = snap) then (Ok (RGranted (derive k)), SLeased snap room)
                       else (Err (SeNotReserved k), st)
      | SLeased s r => if decide (s = snap) then
                         if decide (r = room) then (Ok (RGranted (derive k)), st)
                         else (Err (SeLeaseHeld k), st)
                       else (Err (SeNotReserved k), st)
      | SClones s _ => (Err (if decide (s = snap) then SeLeaseHeld k else SeNotReserved k), st)
      | _ => (Err (SeNotReserved k), st)
      end
  | OpLeaseClone snap room =>
      match st with
      | SReserved s => if decide (s = snap) then (Ok (RGranted (derive k)), SClones snap {[room]})
                       else (Err (SeNotReserved k), st)
      | SClones s X => if decide (s = snap) then
                         if decide (room ∈ X) then (Ok (RGranted (derive k)), st)
                         else if decide (size X = MAX_CLONE_LEASES) then (Err (SeLeaseHeld k), st)
                         else (Ok (RGranted (derive k)), SClones snap ({[room]} ∪ X))
                       else (Err (SeNotReserved k), st)
      | SLeased s _ => (Err (if decide (s = snap) then SeLeaseHeld k else SeNotReserved k), st)
      | _ => (Err (SeNotReserved k), st)
      end
  | OpRelease snap room =>
      match st with
      | SLeased s r => if decide (s = snap ∧ r = room) then (Ok (RReleased Returned), SReserved snap)
                       else (Ok (RReleased NotOurLease), st)
      | SClones s X => if decide (s = snap ∧ room ∈ X)
                       then (Ok (RReleased Returned), release_clone snap X room)
                       else (Ok (RReleased NotOurLease), st)
      | SReserved s => (Ok (RReleased (if decide (s = snap) then AlreadyReturned else NotOurLease)), st)
      | _ => (Ok (RReleased NotOurLease), st)
      end
  | OpTeardown snap room =>
      match st with
      | SLeased s r => if decide (s = snap ∧ r = room) then (Ok (RTorn (Some Returned)), SReserved snap)
                       else (Ok (RTorn None), st)
      | SClones s X => if decide (s = snap ∧ room ∈ X)
                       then (Ok (RTorn (Some Returned)), release_clone snap X room)
                       else (Ok (RTorn None), st)
      | _ => (Ok (RTorn None), st)
      end
  end.

(** ** The operations of the code *)

(** [hold_lease_for_teardown] then [return_to_reservation], as teardown composes
    them. *)
Definition teardown (state : path) (k : N) (snap room : string) : io SlotError (option Released) :=
  let! hold := hold_lease_for_teardown state k snap room in
  match hold with
  | None => ret None
  | Some h => let! r := return_to_reservation h in ret (Some r)
  end.

Definition exec (state : path) (k : N) (op : slot_op) : io SlotError slot_resp :=
  match op with
  | OpFree room => let! f := slot_free state k room in ret (RFreed f)
  | OpReserve snap room => let! r := reserve state k snap room in ret (RReserved r)
  | OpLease snap room => let! s := lease state k snap room in ret (RGranted s)
  | OpLeaseClone snap room => let! s := lease_clone state k snap room in ret (RGranted s)
  | OpRelease snap room => let! r := release_lease state k snap room in ret (RReleased r)
  | OpTeardown snap room => let! r := teardown state k snap room in ret (RTorn r)
  end.

(** Identifiers are minted by rooms and always have the id shape. *)
Definition op_ids_ok (op : slot_op) : Prop :=
  match op with
  | OpFree room => is_id_shaped room = true
  | OpReserve snap room | OpLease snap room | OpLeaseClone snap room
  | OpRelease snap room | OpTeardown snap room =>
      is_id_shaped snap = true ∧ is_id_shaped room = true
  end.

Definition slot_files (state : path) (k : N) : list path :=
  [slot_path state k; tmp_path state SLOT_POOL k; pjoin state FREE_LOCK].

(** The refinement an operation satisfies from the tree [t]. *)
Definition refines {A : Type} (state : path) (k : N) (t : tree) (spec : result SlotError A * SlotState)
    (o : outcome SlotError A) (t' : tree) : Prop :=
  frame (slot_files state k) t t' ∧
  let st := slot_state state t k in
  let st' := slot_state state t' k in
  (o = Done (fst spec) ∧ st' = snd spec) ∨
  ((o = Crashed ∨ ∃ e, o = Done (Err (SeIo e))) ∧ (st' = st ∨ st' = snd spec)).

(** ** Refinement *)

Section refinement.
  Variable state : path.
  Variable k : N.

Abbreviation P := (slot_path state k).

Lemma refines_same {A : Type} (t t' : tree) sp (o : outcome SlotError A) :
  frame (slot_files state k) t t' → file t' P = file t P →
  (o = Done (fst sp) ∧ slot_state state t k = snd sp) ∨ (o = Crashed ∨ ∃ e, o = Done (Err (SeIo e))) →
  refines state k t sp o t'.
Proof.
  intros Hf He Ho. split; [done|]. unfold slot_state. rewrite He. tauto.
Qed.

(** The operation failed or died. *)
Definition failed {A : Type} (o : outcome SlotError A) : Prop :=
  o = Crashed ∨ ∃ e, o = Done (Err (SeIo e)).

Lemma wp_locked {A : Type} (m : io SlotError A) Q (t : tree) :
  (∀ t1 : tree, frame (slot_files state k) t t1 → file t1 P = file t P → wp m Q t1) →
  (∀ o t1, failed o → frame (slot_files state k) t t1 → file t1 P = file t P → Q o t1) →
  wp (do! slots_lock state in m) Q t.
Proof.
  intros Hm Hfail. unfold slots_lock. wp_struct. apply wp_lock_frees. intros o t1 _ Hf1.
  assert (Hp1 : file t1 P = file t P).
  { apply Hf1. rewrite list_elem_of_singleton. apply claim_path_lock. }
  assert (Hf1' : frame (slot_files state k) t t1).
  { eapply frame_weaken; [exact Hf1|]. unfold slot_files. set_solver. }
  destruct o as [[[]|e]|]; wp_struct; [by apply Hm|..]; apply Hfail; unfold failed; eauto.
Qed.

Lemma ensure_ok : valid_index SLOT_POOL k = true → ensure_pool_index k = Ok ().
Proof.
  unfold ensure_pool_index, valid_index. cbn [max_index SLOT_POOL]. intros [H1 H2]%andb_true_iff.
  boolify. destruct (N.eqb_spec k 0); [lia|]. destruct (N.ltb_spec MAX_SLOT k); [lia|done].
Qed.

Lemma wp_read_slot (Q : outcome SlotError (option string) → tree → Prop) (t : tree) :
  Q (Done (Ok (file t P))) t → (∀ o, failed o → Q o t) → wp (read_slot state k) Q t.
Proof.
  intros HQ Hfail. unfold read_slot. wp_struct.
  apply wp_read_to_string; [intros s Hs|intros e He|]; wp_struct; [by rewrite Hs in HQ| |].
  - case_decide as Hk; wp_struct; [|apply Hfail; unfold failed; eauto].
    unfold file in HQ. by rewrite (He Hk) in HQ.
  - apply Hfail. by left.
Qed.

(** The common prefix: index check, lock, read. *)
Lemma wp_slot_op {A : Type} (body : option string → io SlotError A) Q (t : tree) :
  valid_index SLOT_POOL k = true →
  (∀ t1 : tree, frame (slot_files state k) t t1 → file t1 P = file t P → wp (body (file t P)) Q t1) →
  (∀ o t1, failed o → frame (slot_files state k) t t1 → file t1 P = file t P → Q o t1) →
  wp (do! of_result (ensure_pool_index k) in
      do! slots_lock state in
      let! read := read_slot state k in body read) Q t.
Proof.
  intros Hk Hbody Hfail. rewrite ensure_ok by done. apply wp_bind, wp_of_result. wp_post.
  apply wp_locked; [|done]. intros t1 Hf Hp. apply wp_bind, wp_read_slot; wp_post.
  - rewrite Hp. by apply Hbody.
  - intros o [->|[e ->]]; wp_post; apply Hfail; unfold failed; eauto.
Qed.

Lemma wp_rewrite_slot (token : string) (Q : outcome SlotError unit → tree → Prop) (t t1 : tree) :
  frame (slot_files state k) t t1 → file t1 P = file t P →
  (∀ t2 : tree, frame (slot_files state k) t t2 → file t2 P = Some token → Q (Done (Ok ())) t2) →
  (∀ o t2, failed o → frame (slot_files state k) t t2 →
     file t2 P = file t P ∨ file t2 P = Some token → Q o t2) →
  wp (rewrite_slot_atomic (slots_dir state) k token) Q t1.
Proof.
  intros Hf1 Hp1 HQ Hfail. unfold rewrite_slot_atomic. wp_struct.
  eapply wp_mono; [apply (wp_rewrite_atomic state SLOT_POOL)|]. fold (slot_path state k).
  intros o t2 (Hf2 & Hp2 & Hok). rewrite Hp1 in Hp2.
  assert (Hf : frame (slot_files state k) t t2).
  { eapply frame_trans; [exact Hf1|]. eapply frame_weaken; [exact Hf2|]. unfold slot_files. set_solver. }
  destruct o as [[[]|e]|]; wp_struct; [apply HQ; auto|..]; apply Hfail; unfold failed; eauto.
Qed.

Lemma refines_fail {A : Type} (t t' : tree) (sp : result SlotError A * SlotState) o :
  failed o → frame (slot_files state k) t t' →
  file t' P = file t P ∨ slot_state state t' k = snd sp → refines state k t sp o t'.
Proof.
  intros Ho Hf Hst. split; [done|]. right. split; [done|].
  destruct Hst as [E|]; [left; unfold slot_state; by rewrite E|by right].
Qed.

Lemma refines_done {A : Type} (t t' : tree) (r : result SlotError A) st :
  frame (slot_files state k) t t' → slot_state state t' k = st → refines state k t (r, st) (Done r) t'.
Proof. intros Hf Hst. split; [done|]. by left. Qed.

End refinement.

(** Compute the state of a slot from what is known of its file. *)
Ltac slot_compute :=
  unfold slot_state;
  repeat match goal with H : file ?t (slot_path ?s ?k) = _ |- context [file ?t (slot_path ?s ?k)] =>
    rewrite H end;
  cbn [abs]; repeat match goal with H : parse_token _ = _ |- _ => rewrite H end.

(** Solve the failure side of a rule. *)
Ltac slot_fail :=
  let o := fresh "o" in let t := fresh "t" in let Ho := fresh "Ho" in
  intros o t Ho; intros; destruct Ho as [->|[? ->]]; wp_post;
  (apply refines_fail; [unfold failed; eauto|done|]);
  first [by left
        |match goal with H : _ ∨ _ |- _ => destruct H as [?E|?E]; [by left|right; slot_compute; auto] end].

(** An answer that leaves the slot as it is. *)
Ltac slot_answer := cbn [negb andb orb]; wp_struct; apply refines_done; [done|by slot_compute].

(** A directory sync, then an answer. *)
Ltac slot_sync :=
  unfold slot_sync_dir, sync_dir, sync_all; wp_struct; apply wp_pure_call; intros; wp_post;
  [slot_answer|(apply refines_fail; [unfold failed; eauto|done|by left])..].

(** A rewrite of the token, then an answer. *)
Ltac slot_rewrite :=
  wp_struct; eapply wp_rewrite_slot;
  [eassumption|eassumption|intros; wp_struct; apply refines_done; [done|slot_compute]|slot_fail].

(** Open an operation: the common prefix, then the slot's token. *)
Ltac slot_open :=
  apply wp_slot_op; [done| |slot_fail];
  let t1 := fresh "t1" in let Hf := fresh "Hf" in let Hp := fresh "Hp" in
  intros t1 Hf Hp;
  match goal with |- context [slot_state ?state ?t ?k] =>
    change (slot_state state t k) with (abs (file t (slot_path state k)));
    destruct (file t (slot_path state k)) as [c|] eqn:Hc; rewrite <- Hc in Hp; cbn [abs];
    [destruct (parse_token c) as [|r p st|s|s r|s l] eqn:Hpc|] end.

Lemma claim_head c r p st : parse_token c = TClaimed r p st → head (lines c) = Some r.
Proof. intros H%parse_token_inv. by apply parse_claim_inv in H as (_ & H & _). Qed.

Lemma durable_head c tok room :
  durable tok → parse_token c = tok → is_id_shaped room = true → head (lines c) ≠ Some room.
Proof.
  intros Hd Hp Hr Hh. pose proof (owner_line_not_at _ _ Hh Hr) as Hat.
  by rewrite (durable_starts_at c tok) in Hat.
Qed.

(** The first line of a slot that is neither partial nor claimed names no room. *)
Lemma durable_inv c tok :
  parse_token c = tok → match tok with TInProgress | TClaimed _ _ _ => True | _ => durable tok end.
Proof. intros H%parse_token_inv. destruct tok; try done; apply H. Qed.

Lemma not_elem_of_nil_len (l : list string) : l ≠ [] → 1 ≤ length l.
Proof. destruct l; [done|simpl; lia]. Qed.

(** The state after one member leaves, as a token. *)
Lemma clone_token_release snap l room :
  is_id_shaped snap = true → sorted_ids l → length l ≤ MAX_CLONE_LEASES →
  match clone_token_after_release snap l room with
  | None => room ∉ l
  | Some token => room ∈ l ∧ abs (Some token) = release_clone snap (list_to_set l) room
  end.
Proof.
  intros Hs [Hids Hsort] Hlen. unfold clone_token_after_release.
  destruct (binary_search l room) as [i|i] eqn:E; [|by eapply binary_search_Err].
  apply binary_search_Ok in E.
  assert (Hset : (list_to_set (delete i l) : gset string) = list_to_set l ∖ {[room]}).
  { pose proof (sorted_NoDup _ Hsort) as Hnd. apply delete_Permutation in E.
    rewrite E in Hnd. apply NoDup_cons in Hnd as [Hn _].
    rewrite E at 2. simpl. apply set_eq. intros x. set_solver. }
  assert (Hin : room ∈ l) by (by eapply list_elem_of_lookup_2).
  unfold release_clone. rewrite <- Hset.
  case_bool_decide as Hd.
  - split; [done|]. rewrite Hd. simpl. by rewrite parse_reservation_token.
  - split; [done|]. apply not_elem_of_nil_len in Hd. rewrite decide_False.
    2: { intros He. destruct (delete i l); simpl in *; [lia|set_solver]. }
    cbn [abs]. rewrite parse_clone_leases_token; [done|done| |].
    + split; [by apply Forall_delete|by apply sorted_delete].
    + assert (length (delete i l) ≤ length l) by (rewrite length_delete; [lia|eauto]). lia.
Qed.

Lemma claim_owner_head c room :
  is_id_shaped room = true →
  head (lines c) = Some room ↔ claim_owner (abs (Some c)) = Some room.
Proof.
  intros Hr. cbn [abs]. pose proof (durable_inv c _ eq_refl) as Hd.
  destruct (parse_token c) as [|r p st|s|s r|s l] eqn:Hpc; simpl; [done|..];
    [by rewrite (claim_head _ _ _ _ Hpc)|..];
    (split; [|done]); intros H; by apply (durable_head c _ room Hd Hpc Hr) in H.
Qed.

Lemma clone_token_single snap room :
  is_id_shaped snap = true → is_id_shaped room = true →
  parse_token (clone_leases_token snap [room]) = TCloneLeases snap [room].
Proof.
  intros Hs Hr. apply parse_clone_leases_token; [done|split; repeat constructor; done|simpl].
  unfold MAX_CLONE_LEASES. lia.
Qed.

Lemma clone_token_insert snap room l i :
  is_id_shaped snap = true → is_id_shaped room = true → sorted_ids l → length l < MAX_CLONE_LEASES →
  binary_search l room = Err i →
  abs (Some (clone_leases_token snap (vec_insert i room l))) = SClones snap ({[room]} ∪ list_to_set l).
Proof.
  intros Hs Hr [Hids Hsort] Hlen Hb. cbn [abs]. rewrite parse_clone_leases_token; [|done|split|].
  - f_equal. apply set_eq. intros x. rewrite elem_of_union, !elem_of_list_to_set, elem_of_vec_insert.
    set_solver.
  - apply Forall_forall. intros x [->|Hx]%elem_of_vec_insert; [done|].
    rewrite Forall_forall in Hids. by apply Hids.
  - by apply binary_search_insert.
  - rewrite length_vec_insert. lia.
Qed.

Section operations.
  Variable state : path.
  Variable k : N.
  Hypothesis Hk : valid_index SLOT_POOL k = true.

Lemma reserve_refines snap room (t : tree) :
  is_id_shaped snap = true → is_id_shaped room = true →
  wp (exec state k (OpReserve snap room))
     (refines state k t (spec k (OpReserve snap room) (slot_state state t k))) t.
Proof using Hk.
  intros Hs Hr. unfold exec. apply wp_bind. unfold reserve.
  pose proof (parse_reservation_token snap Hs) as Htok.
  slot_open; cbn [spec claim_owner].
  - case_bool_decide; cbn [negb]; [rewrite decide_True by done; slot_rewrite; done|].
    rewrite decide_False by done. slot_answer.
  - pose proof (claim_head _ _ _ _ Hpc) as ->.
    case_bool_decide; cbn [negb]; [rewrite decide_True by done; slot_rewrite; done|].
    rewrite decide_False by done. slot_answer.
  - case_bool_decide; [rewrite decide_True by done; slot_sync|].
    rewrite decide_False by done.
    rewrite bool_decide_eq_false_2; [slot_answer|].
    eapply durable_head; [by apply durable_inv in Hpc|done..].
  - rewrite bool_decide_eq_false_2; [slot_answer|].
    eapply durable_head; [by apply durable_inv in Hpc|done..].
  - rewrite bool_decide_eq_false_2; [slot_answer|].
    eapply durable_head; [by apply durable_inv in Hpc|done..].
  - slot_answer.
Qed.

Lemma lease_refines snap room (t : tree) :
  is_id_shaped snap = true → is_id_shaped room = true →
  wp (exec state k (OpLease snap room))
     (refines state k t (spec k (OpLease snap room) (slot_state state t k))) t.
Proof using Hk.
  intros Hs Hr. unfold exec. apply wp_bind. unfold lease.
  pose proof (parse_lease_token snap room Hs Hr) as Htok.
  slot_open; cbn [spec]; repeat case_decide; subst;
    first [slot_answer|slot_sync|slot_rewrite; done].
Qed.

Lemma lease_clone_refines snap room (t : tree) :
  is_id_shaped snap = true → is_id_shaped room = true →
  wp (exec state k (OpLeaseClone snap room))
     (refines state k t (spec k (OpLeaseClone snap room) (slot_state state t k))) t.
Proof using Hk.
  intros Hs Hr. unfold exec. apply wp_bind. unfold lease_clone. rewrite Hs, Hr. cbn [negb orb].
  slot_open; cbn [spec]; try (repeat case_decide; subst; slot_answer).
  - case_decide; [|slot_answer]. subst s.
    pose proof (clone_token_single snap room Hs Hr) as Htok.
    replace (SClones snap {[room]}) with (abs (Some (clone_leases_token snap [room])))
      by (cbn [abs]; rewrite Htok; f_equal/=; set_solver).
    slot_rewrite; done.
  - case_decide; [|slot_answer]. subst s.
    pose proof (durable_inv _ _ Hpc) as (_ & Hsort & Hlen).
    rewrite size_list_to_set by apply sorted_NoDup, Hsort.
    destruct (binary_search l room) as [i|i] eqn:Hb.
    + apply binary_search_Ok, list_elem_of_lookup_2 in Hb.
      rewrite decide_True by set_solver. slot_sync.
    + pose proof (binary_search_Err _ _ _ Hb) as Hn. rewrite decide_False by set_solver.
      destruct (Nat.eqb_spec (length l) MAX_CLONE_LEASES) as [Heq|Hne];
        [rewrite decide_True by done; slot_answer|rewrite decide_False by done].
      pose proof (clone_token_insert snap room l i Hs Hr Hsort ltac:(lia) Hb) as Htok.
      rewrite <- Htok. slot_rewrite; done.
Qed.

Lemma release_refines snap room (t : tree) :
  is_id_shaped snap = true → is_id_shaped room = true →
  wp (exec state k (OpRelease snap room))
     (refines state k t (spec k (OpRelease snap room) (slot_state state t k))) t.
Proof using Hk.
  intros Hs Hr. unfold exec. apply wp_bind. unfold release_lease.
  pose proof (parse_reservation_token snap Hs) as Htok.
  slot_open; cbn [spec]; try slot_answer.
  - case_decide; subst; [slot_sync|slot_answer].
  - destruct (decide (s = snap ∧ r = room)) as [[-> ->]|Hn].
    + rewrite !bool_decide_eq_true_2 by done. cbn [andb]. slot_rewrite; done.
    + rewrite <- bool_decide_and, bool_decide_eq_false_2 by done. slot_answer.
  - pose proof (durable_inv _ _ Hpc) as (_ & Hsort & Hlen).
    destruct (decide (s = snap)) as [->|Hn]; [|rewrite decide_False by tauto; slot_answer].
    pose proof (clone_token_release snap l room Hs Hsort ltac:(lia)) as Hrel.
    destruct (clone_token_after_release snap l room) as [token|].
    + destruct Hrel as [Hin Hst]. rewrite decide_True by set_solver. rewrite <- Hst.
      slot_rewrite; done.
    + rewrite decide_False by set_solver. slot_answer.
Qed.

Lemma teardown_refines snap room (t : tree) :
  is_id_shaped snap = true → is_id_shaped room = true →
  wp (exec state k (OpTeardown snap room))
     (refines state k t (spec k (OpTeardown snap room) (slot_state state t k))) t.
Proof using Hk.
  intros Hs Hr. unfold exec, teardown. do 2 apply wp_bind. unfold hold_lease_for_teardown.
  pose proof (parse_reservation_token snap Hs) as Htok.
  slot_open; cbn [spec]; try slot_answer.
  - destruct (decide (s = snap ∧ r = room)) as [[-> ->]|Hn].
    + rewrite !bool_decide_eq_true_2 by done. cbn [andb]. wp_struct. unfold return_to_reservation.
      cbn [hold_dir hold_index post_cleanup_token]. slot_rewrite; done.
    + rewrite <- bool_decide_and, bool_decide_eq_false_2 by done. slot_answer.
  - pose proof (durable_inv _ _ Hpc) as (_ & Hsort & Hlen).
    destruct (decide (s = snap)) as [->|Hn]; [|rewrite decide_False by tauto; slot_answer].
    pose proof (clone_token_release snap l room Hs Hsort ltac:(lia)) as Hrel.
    destruct (clone_token_after_release snap l room) as [token|].
    + destruct Hrel as [Hin Hst]. rewrite decide_True by set_solver. rewrite <- Hst.
      wp_struct. unfold return_to_reservation. cbn [hold_dir hold_index post_cleanup_token].
      slot_rewrite; done.
    + rewrite decide_False by set_solver. slot_answer.
Qed.

Lemma free_refines room (t : tree) :
  is_id_shaped room = true →
  wp (exec state k (OpFree room))
     (refines state k t (spec k (OpFree room) (slot_state state t k))) t.
Proof using Hk.
  intros Hr. unfold exec, slot_free, free_with_cleanup, free_with. rewrite ensure_ok by done.
  fold (slot_path state k). set (sp := spec k (OpFree room) (slot_state state t k)).
  assert (Hfail : ∀ (o : outcome SlotError slot_resp) t1, failed o → frame (slot_files state k) t t1 →
            file t1 (slot_path state k) = file t (slot_path state k) → refines state k t sp o t1).
  { intros o t1 Ho Hf Hp. apply refines_fail; auto. }
  wp_struct. apply wp_lock_frees. intros o t1 _ Hf1.
  assert (Hp1 : file t1 (slot_path state k) = file t (slot_path state k)).
  { apply Hf1. rewrite list_elem_of_singleton. apply claim_path_lock. }
  assert (Hf : frame (slot_files state k) t t1).
  { eapply frame_weaken; [exact Hf1|]. unfold slot_files. set_solver. }
  destruct o as [[[]|e]|]; wp_struct; [|apply Hfail; unfold failed; eauto..].
  assert (Hdone : ∀ r, sp = (Ok r, slot_state state t k) → refines state k t sp (Done (Ok r)) t1).
  { intros r ->. apply refines_done; [done|]. unfold slot_state. by rewrite Hp1. }
  assert (Hgone : t1 !! slot_path state k = None → sp = (Ok (RFreed FrAlreadyFree), slot_state state t k)).
  { intros Hn. unfold sp, slot_state. rewrite <- Hp1. unfold file. by rewrite Hn. }
  apply wp_read_to_string; [intros c Hc|intros e He|]; wp_struct;
    [|case_decide; wp_struct; [by apply Hdone, Hgone, He|apply Hfail; unfold failed; eauto]
     |apply Hfail; unfold failed; eauto].
  assert (Hst : slot_state state t k = abs (Some c)) by (unfold slot_state; by rewrite <- Hp1, Hc).
  pose proof (claim_owner_head c room Hr) as Hhead. rewrite <- Hst in Hhead.
  assert (Hne : slot_state state t k ≠ SFree).
  { rewrite Hst. cbn [abs]. by destruct (parse_token c). }
  case_bool_decide as Hh; cbn [negb]; wp_struct.
  - apply Hhead in Hh. assert (Hsp : sp = (Ok (RFreed FrRemoved), SFree)).
    { unfold sp. cbn [spec]. rewrite decide_True by done. by destruct (slot_state state t k). }
    apply wp_remove_file; [intros c' _|intros c' Hl%file_link; by rewrite Hl in Hc|intros e He|]; wp_struct.
    + rewrite Hsp. apply refines_done; [|unfold slot_state; by rewrite file_delete].
      intros q Hq. rewrite file_delete_ne by set_solver. by apply Hf.
    + case_decide; wp_struct; [|apply Hfail; unfold failed; eauto].
      unfold file in Hc. by rewrite He in Hc.
    + apply Hfail; unfold failed; eauto.
  - apply Hdone. unfold sp. cbn [spec]. rewrite decide_False by tauto. by destruct (slot_state state t k).
Qed.

Lemma exec_refines op (t : tree) :
  op_ids_ok op → wp (exec state k op) (refines state k t (spec k op (slot_state state t k))) t.
Proof using Hk.
  destruct op; intros Hids; [by apply free_refines|destruct Hids..].
  - by apply reserve_refines.
  - by apply lease_refines.
  - by apply lease_clone_refines.
  - by apply release_refines.
  - by apply teardown_refines.
Qed.

End operations.

(** An index outside the pool is refused before any system call. *)
Lemma exec_invalid state k op w :
  valid_index SLOT_POOL k = false → op_ids_ok op →
  exec state k op w = (Done (Err (SeInvalidIndex k MAX_SLOT)), w).
Proof.
  intros Hk Hids. assert (He : ensure_pool_index k = Err (SeInvalidIndex k MAX_SLOT)).
  { unfold ensure_pool_index. unfold valid_index in Hk. cbn [max_index SLOT_POOL] in Hk.
    destruct (N.eqb_spec k 0); [done|]. destruct (N.ltb_spec MAX_SLOT k); [done|].
    exfalso. apply andb_false_iff in Hk as [Hk|Hk]; boolify; lia. }
  destruct op; unfold exec, slot_free, free_with_cleanup, reserve, lease, lease_clone, release_lease,
    teardown, hold_lease_for_teardown, bind, of_result; by rewrite He.
Qed.

(** C2.  Every slot operation implements the abstract slot, under any failure:
    whichever system calls fail and wherever the process dies, the operation
    touches only this slot's files, and either it answers exactly what the
    machine answers and leaves the machine's next state, or it reports an I/O
    error or dies leaving the old state or the next one. *)
Theorem exec_refines_spec state k op (t : tree) l o w' :
  valid_index SLOT_POOL k = true → op_ids_ok op →
  exec state k op (World t l) = (o, w') →
  refines state k t (spec k op (slot_state state t k)) o (fs w').
Proof.
  intros Hk Hids H. pose proof (exec_refines state k Hk op t Hids l) as Hr. by rewrite H in Hr.
Qed.

Lemma exec_refines_spec_witness :
  let s := "aaaaaaaaaaaaaaaaaaaaaaaaaa" in let r := "bbbbbbbbbbbbbbbbbbbbbbbbbb" in
  let t : tree := {[ ["s"; "slots"; "3"] := File (reservation_token s); ["s"; "slots.lock"] := File "";
                     ["s"] := Dir; ["s"; "slots"] := Dir ]} in
  let m := exec ["s"] 3 (OpLease s r) (World t [Pass; Pass; Pass; Pass; Pass; Pass; Halt]) in
  refines ["s"] 3 t (spec 3 (OpLease s r) (slot_state ["s"] t 3)) (fst m) (fs (snd m)).
Proof.
  intros s r t m.
  apply (exec_refines_spec ["s"] 3 (OpLease s r) t [Pass; Pass; Pass; Pass; Pass; Pass; Halt]);
    [reflexivity|split; reflexivity|apply surjective_pairing].
Defined.

(** ** Processes sharing the store

    Every locked section is one step.  The last two events are the locked halves
    of [reconcile_path], run on an observation that may be arbitrarily old. *)

Inductive event :=
| EvOp (k : N) (op : slot_op)
| EvClaim (room : string) (me : Claimer) (cap : N) (target : option N)
| EvReconcile (proc_stat : N → ProcStat) (cleanup : N → string → io string ReconcileAction)
| EvDiscard (k : N) (observed : string)
| EvReap (proc_stat : N → ProcStat) (cleanup : N → string → io string ReconcileAction)
    (k : N) (expected : string).

(** A host cleanup does not write to the store. *)
Definition leaves_files (cleanup : N → string → io string ReconcileAction) : Prop :=
  ∀ k o (t : tree), wp (cleanup k o) (λ _ t', ∀ q, file t' q = file t q) t.

Inductive step (state : path) : tree → event → tree → Prop :=
| step_op (t : tree) k op l :
    op_ids_ok op → step state t (EvOp k op) (fs (snd (exec state k op (World t l))))
| step_claim (t : tree) room me cap target l :
    step state t (EvClaim room me cap target)
      (fs (snd (claim state SLOT_POOL room me cap target (World t l))))
| step_reconcile (t : tree) proc_stat cleanup l :
    leaves_files cleanup →
    step state t (EvReconcile proc_stat cleanup)
      (fs (snd (reconcile proc_stat cleanup state SLOT_POOL (World t l))))
| step_discard (t : tree) k observed l :
    starts_with observed "@" = false → parse_claim observed = None →
    step state t (EvDiscard k observed)
      (fs (snd (discard_abandoned_partial state SLOT_POOL (slot_path state k) observed (World t l))))
| step_reap (t : tree) proc_stat cleanup k expected c l :
    leaves_files cleanup → parse_claim expected = Some c →
    claimer_liveness proc_stat (tok_pid c) (tok_starttime c) = Dead →
    step state t (EvReap proc_stat cleanup k expected)
      (fs (snd (reconcile_dead cleanup state SLOT_POOL (slot_path state k) k expected (tok_owner c)
                 (World t l)))).

Section steps.
  Variable state : path.

Lemma slot_path_inj i j : slot_path state i = slot_path state j ↔ i = j.
Proof. apply claim_path_inj. Qed.

Lemma slot_not_other k j : j ≠ k → slot_path state j ∉ slot_files state k.
Proof.
  intros Hjk. unfold slot_files. rewrite !not_elem_of_cons. splits.
  - by rewrite slot_path_inj.
  - apply claim_path_tmp.
  - apply claim_path_lock.
  - by apply not_elem_of_nil.
Qed.

(** An operation moves its slot by the machine and leaves the others. *)
Lemma step_op_state (t t' : tree) k op j :
  step state t (EvOp k op) t' → op_ids_ok op ∧
  (slot_state state t' j = slot_state state t j ∨
   (j = k ∧ slot_state state t' j = snd (spec k op (slot_state state t k)))).
Proof.
  intros Hs. inversion Hs as [? ? ? l Hids| | | |]; subst. split; [done|].
  destruct (valid_index SLOT_POOL k) eqn:Hk; [|left; by rewrite exec_invalid].
  destruct (exec_refines state k Hk op t Hids l) as [Hf Hst].
  destruct (decide (j = k)) as [->|Hne].
  - destruct Hst as [[_ ->]|[_ [->| ->]]]; auto.
  - left. unfold slot_state. f_equal. by apply Hf, slot_not_other.
Qed.

Lemma step_claim_state (t t' : tree) room me cap target j s :
  step state t (EvClaim room me cap target) t' → file t (slot_path state j) = Some s →
  file t' (slot_path state j) = Some s.
Proof.
  intros Hs Hj. inversion Hs as [|? ? ? ? ? l| | |]; subst.
  by apply (wp_claim state SLOT_POOL room me cap target t l).
Qed.

(** The events of reconciliation and the process table they rely on. *)
Definition reconciles (ev : event) : option (option (N → ProcStat)) :=
  match ev with
  | EvReconcile p _ | EvReap p _ _ _ => Some (Some p)
  | EvDiscard _ _ => Some None
  | _ => None
  end.

Lemma step_reconcile_state (t t' : tree) ev p j s :
  step state t ev t' → reconciles ev = Some p → file t (slot_path state j) = Some s →
  file t' (slot_path state j) = Some s ∨
  file t' (slot_path state j) = None ∧ starts_with s "@" = false ∧
    ∀ c, parse_claim s = Some c →
      ∃ proc, p = Some proc ∧ claimer_liveness proc (tok_pid c) (tok_starttime c) = Dead.
Proof.
  intros Hs Hp Hj.
  assert (Hall : ∀ proc, only_reclaims proc state SLOT_POOL (λ _ _, True) t t' →
    (∀ c, parse_claim s = Some c → p = Some proc ∨ file t' (slot_path state j) = Some s) →
    file t' (slot_path state j) = Some s ∨
    file t' (slot_path state j) = None ∧ starts_with s "@" = false ∧
      ∀ c, parse_claim s = Some c →
      ∃ proc, p = Some proc ∧ claimer_liveness proc (tok_pid c) (tok_starttime c) = Dead).
  { intros proc Hr Hc. destruct (Hr (slot_path state j) (claim_path_lock _ _ _)) as [E|(E & k & s' & _ & Hs' & Hrec)];
      [left; by rewrite E|]. rewrite Hj in Hs'. injection Hs' as <-.
    destruct Hrec as [[Hat Hnone]|(c & Hc' & Hdead & _)].
    - right. splits; try done. intros c Hc'. congruence.
    - destruct (Hc c Hc') as [->|Hx]; [|by left]. right. splits; [done| |].
      + destruct (starts_with s "@") eqn:E'; [|done]. by rewrite parse_claim_at in Hc'.
      + intros c' Hc''. exists proc. split; [done|]. congruence. }
  inversion Hs as [| |? proc cl l Hcl|? k obs l Hat Hn|? proc cl k ex c l Hcl Hc Hdead]; subst;
    simpl in Hp; try done; injection Hp as <-.
  - apply (Hall proc); [|by left].
    apply (wp_reconcile proc cl state SLOT_POOL (λ _, True) (λ _ _, True)); try done.
    intros k o t1 _. eapply wp_mono; [apply Hcl|]. naive_solver.
  - apply (Hall (λ _, StatUnreadable)).
    + apply (wp_discard (λ _, StatUnreadable) state SLOT_POOL (λ _, True) (λ _ _, True)); done.
    + intros c Hc. right.
      pose proof (wp_discard (λ _, StatUnreadable) state SLOT_POOL (λ _, True) (λ _ _, True)) as Hw.
      specialize (Hw ltac:(done) ltac:(done) k obs t I Hat l) as [_ Hr].
      destruct (Hr (slot_path state j) (claim_path_lock _ _ _)) as [E|(E & k' & s' & _ & Hs' & Hrec)];
        [exact (eq_trans E Hj)|]. rewrite Hj in Hs'. injection Hs' as <-.
      by destruct Hrec as [[_ Hn']|(c' & Hc' & Hd & _)]; [congruence|].
  - apply (Hall proc); [|by left].
    apply (wp_reconcile_dead proc cl state SLOT_POOL (λ _, True) (λ _ _, True)); try done.
    intros k' o t1 _. eapply wp_mono; [apply Hcl|]. naive_solver.
Qed.

End steps.

(** ** Invariants of the shared store *)

(** The slot belongs to the snapshot: reserved, or leased from it. *)
Definition held_by (snap : string) (st : SlotState) : Prop :=
  match st with
  | SReserved s | SLeased s _ | SClones s _ => s = snap
  | _ => False
  end.

(** The room holds the slot: as its claim or under a lease. *)
Definition holds (room : string) (st : SlotState) : Prop :=
  match st with
  | SClaimed r _ _ | SLeased _ r => r = room
  | SClones _ X => room ∈ X
  | _ => False
  end.

Definition op_room (op : slot_op) : string :=
  match op with
  | OpFree r | OpReserve _ r | OpLease _ r | OpLeaseClone _ r | OpRelease _ r | OpTeardown _ r => r
  end.

Lemma spec_held snap k op st : held_by snap st → held_by snap (snd (spec k op st)).
Proof.
  destruct st as [|o|r p st|s|s r|s X]; simpl; try done; intros ->;
    destruct op; simpl; repeat case_decide; simpl; destruct_and?; subst; try done;
    unfold release_clone; by case_decide.
Qed.

Lemma spec_holds room k op st :
  op_room op ≠ room → holds room st → holds room (snd (spec k op st)).
Proof.
  destruct st as [|o|r p st|s|s r|s X]; simpl; try done.
  - intros Hne ->. destruct op; simpl in *; try done; rewrite decide_False by congruence; done.
  - intros Hne ->. destruct op; simpl in *; repeat case_decide; simpl; try done; destruct_and?; subst; done.
  - intros Hne Hin. destruct op; simpl in *; repeat case_decide; simpl; try done; try set_solver;
      unfold release_clone; case_decide; simpl; set_solver.
Qed.

(** A slot in a durable state has a file that starts with the sentinel. *)
Lemma abs_durable fc :
  match abs fc with
  | SReserved _ | SLeased _ _ | SClones _ _ => ∃ c, fc = Some c ∧ starts_with c "@" = true
  | _ => True
  end.
Proof.
  destruct fc as [c|]; [|done]. cbn [abs]. pose proof (durable_inv c _ eq_refl) as Hd.
  destruct (parse_token c) as [| |s|s r|s l] eqn:Hp; try done;
    exists c; (split; [done|]); by apply (durable_starts_at _ _ Hd Hp).
Qed.

Lemma step_durable state (t t' : tree) ev j :
  step state t ev t' → (∀ k op, ev ≠ EvOp k op) →
  (∃ c, file t (slot_path state j) = Some c ∧ starts_with c "@" = true) →
  slot_state state t' j = slot_state state t j.
Proof.
  intros Hs Hev (c & Hc & Hat). unfold slot_state.
  assert (H : file t' (slot_path state j) = Some c).
  { destruct ev as [k op|room me cap target|p cl|k obs|p cl k ex]; [by destruct (Hev k op)|..].
    - by apply (step_claim_state state t t' room me cap target j).
    - by destruct (step_reconcile_state state t t' _ _ j c Hs eq_refl Hc) as [|(_ & Hx & _)]; [|congruence].
    - by destruct (step_reconcile_state state t t' _ _ j c Hs eq_refl Hc) as [|(_ & Hx & _)]; [|congruence].
    - by destruct (step_reconcile_state state t t' _ _ j c Hs eq_refl Hc) as [|(_ & Hx & _)]; [|congruence]. }
  by rewrite H, Hc.
Qed.

Definition is_op (ev : event) : option (N * slot_op) :=
  match ev with EvOp k op => Some (k, op) | _ => None end.

Lemma step_held state (t t' : tree) ev j snap :
  step state t ev t' → held_by snap (slot_state state t j) → held_by snap (slot_state state t' j).
Proof.
  intros Hs Hh. destruct (is_op ev) as [[k op]|] eqn:Hev.
  - destruct ev; try done. injection Hev as -> ->.
    apply (step_op_state state t t' k op j) in Hs as [_ [->|[-> ->]]]; [done|by apply spec_held].
  - assert (Hx : ∃ c, file t (slot_path state j) = Some c ∧ starts_with c "@" = true).
    { pose proof (abs_durable (file t (slot_path state j))) as Ha. fold (slot_state state t j) in Ha.
      by destruct (slot_state state t j). }
    rewrite (step_durable state t t' ev j); [done|done| |done]. intros k op ->. done.
Qed.

(** What an event must not do to a room that holds a slot: act in its name, or
    reap it on evidence that its claimer is dead. *)
Definition spares (room : string) (st : SlotState) (ev : event) : Prop :=
  match ev with
  | EvOp _ op => op_room op ≠ room
  | EvClaim _ _ _ _ | EvDiscard _ _ => True
  | EvReconcile proc _ | EvReap proc _ _ _ =>
      match st with
      | SClaimed _ pid starttime => claimer_liveness proc pid starttime ≠ Dead
      | _ => True
      end
  end.

Lemma step_holds state (t t' : tree) ev j room :
  step state t ev t' → spares room (slot_state state t j) ev →
  holds room (slot_state state t j) → holds room (slot_state state t' j).
Proof.
  intros Hs Hsp Hh. destruct (is_op ev) as [[k op]|] eqn:Hev.
  { destruct ev; try done. injection Hev as -> ->.
    apply (step_op_state state t t' k op j) in Hs as [_ [->|[-> ->]]]; [done|by apply spec_holds]. }
  assert (Hnop : ∀ k op, ev ≠ EvOp k op) by (intros k op ->; done).
  pose proof (abs_durable (file t (slot_path state j))) as Ha. fold (slot_state state t j) in Ha.
  destruct (slot_state state t j) as [|o|r p st|s|s r|s X] eqn:Hst; try done.
  2,3: by rewrite (step_durable state t t' ev j), Hst.
  simpl in Hh. subst r.
  unfold slot_state in Hst. destruct (file t (slot_path state j)) as [c|] eqn:Hc; [|done].
  cbn [abs] in Hst. destruct (parse_token c) as [|r p' st'|s|s r|s l] eqn:Hpc; simplify_eq.
  pose proof (parse_token_inv c _ Hpc) as Hcl. cbv beta iota in Hcl.
  assert (H : file t' (slot_path state j) = Some c).
  { destruct (reconciles ev) as [q|] eqn:Hq.
    - destruct (step_reconcile_state state t t' ev q j c Hs Hq Hc) as [|(_ & _ & Hd)]; [done|].
      destruct (Hd _ Hcl) as (proc & -> & Hdead). simpl in Hdead.
      destruct ev; simpl in *; simplify_eq.
    - destruct ev; try done. by eapply step_claim_state. }
  unfold slot_state. rewrite H. cbn [abs]. by rewrite Hpc.
Qed.

(** Any number of steps of any processes. *)
Definition any_step (state : path) (t t' : tree) : Prop := ∃ ev, step state t ev t'.

(** C1.  A reservation never returns to the free pool: once a slot is reserved
    for a snapshot, every sequence of claims, frees, reservations, leases,
    releases and reconciliations by any processes, each with any failures and
    crashes and any stale observations, leaves it reserved for or leased from
    that same snapshot. *)
Theorem reservation_never_freed state (t t' : tree) k snap :
  rtc (any_step state) t t' →
  held_by snap (slot_state state t k) → held_by snap (slot_state state t' k).
Proof. induction 1 as [|t t1 t2 [ev Hev] _ IH]; [done|]. intros H. by eapply IH, step_held. Qed.

Lemma reservation_never_freed_witness :
  let s := "aaaaaaaaaaaaaaaaaaaaaaaaaa" in let r := "bbbbbbbbbbbbbbbbbbbbbbbbbb" in
  let t : tree := {[ ["s"; "slots"; "3"] := File (reservation_token s); ["s"; "slots.lock"] := File "";
                     ["s"] := Dir; ["s"; "slots"] := Dir ]} in
  let t' := fs (snd (exec ["s"] 3 (OpFree s) (World t []))) in
  held_by s (slot_state ["s"] t' 3).
Proof.
  intros s r t t'. apply (reservation_never_freed ["s"] t t' 3 s).
  - apply rtc_once. exists (EvOp 3 (OpFree s)). by apply step_op.
  - vm_compute. reflexivity.
Defined.

(** C3.  Ownership is stable: a room that holds a slot, by its claim or under a
    flat or clone lease, keeps it through every step of other processes that
    does not act in its name; its claim is reaped only on evidence that its
    claimer is dead.  A lease is not affected by reconciliation at all. *)
Theorem holder_stable state (t t' : tree) k room :
  rtc (λ t t', ∃ ev, step state t ev t' ∧ spares room (slot_state state t k) ev) t t' →
  holds room (slot_state state t k) → holds room (slot_state state t' k).
Proof. induction 1 as [|t t1 t2 (ev & Hev & Hsp) _ IH]; [done|]. intros H. by eapply IH, step_holds. Qed.

Lemma holder_stable_witness :
  let s := "aaaaaaaaaaaaaaaaaaaaaaaaaa" in let r := "bbbbbbbbbbbbbbbbbbbbbbbbbb" in
  let t : tree := {[ ["s"; "slots"; "3"] := File (lease_token s r); ["s"; "slots.lock"] := File "";
                     ["s"] := Dir; ["s"; "slots"] := Dir ]} in
  let t' := fs (snd (exec ["s"] 3 (OpRelease s s) (World t []))) in
  holds r (slot_state ["s"] t' 3).
Proof.
  intros s r t t'. apply (holder_stable ["s"] t t' 3 r).
  - apply rtc_once. exists (EvOp 3 (OpRelease s s)). split; [by apply step_op|done].
  - vm_compute. reflexivity.
Defined.
