(* ===== verification/Firewall.v ===== *)
(** * Firewall: what the host chains must look like ([isolation.rs],
    [veth_isolation.rs])

    The predicates read [iptables -S] dumps.  A dump is text; a rule is one of
    its lines.  The packet filter itself is not part of the program: theorems
    about packets take what one rule does to a packet as a parameter, with the
    documented behaviour of the rules they need as hypotheses. *)

From S2P Require Import Prelude RStr.
From stdpp Require Import options.

(** ** Tokens of a rule line *)

Fixpoint token_after (p : string → bool) (tokens : list string) : option string :=
  match tokens with
  | [] => None
  | t :: rest => if p t then head rest else token_after p rest
  end.

(** The value consumed after a key is not looked at as a key. *)
Fixpoint pair_in (key value : string) (tokens : list string) : bool :=
  match tokens with
  | [] => false
  | t :: rest =>
      if (t =? key)%string then
        match rest with
        | [] => false
        | v :: rest' => (v =? value)%string || pair_in key value rest'
        end
      else pair_in key value rest
  end.

Definition has_token_pair (line key value : string) : bool :=
  pair_in key value (split_whitespace line).

(** ** The flat chain ([isolation.rs]) *)

Definition SUPERNET : string := "172.16.0.0/24".
Definition ISOLATION_DROP : string := "-A ROOMS_FWD -s 172.16.0.0/24 -d 172.16.0.0/24 -j DROP".
Definition FORWARD_JUMP : string := "-A FORWARD -j ROOMS_FWD".
Definition MATCH_SRC : string := "-s 172.16.0.0/24".
Definition MATCH_DST : string := "-d 172.16.0.0/24".

Definition forward_jump_is_first (forward_dump : string) : bool :=
  bool_decide (trim <$> find_first (λ line, starts_with line "-A FORWARD ") (lines forward_dump)
               = Some FORWARD_JUMP).

Definition isolation_drop_line (rooms_fwd_dump : string) : option nat :=
  position (λ line, (trim line =? ISOLATION_DROP)%string) (lines rooms_fwd_dump).

Definition has_isolation_drop (rooms_fwd_dump : string) : bool :=
  bool_decide (is_Some (isolation_drop_line rooms_fwd_dump)).

(** An ACCEPT the check treats as able to match inter-slot traffic. *)
Definition dangerous_accept (line : string) : bool :=
  contains line "-j ACCEPT" &&
  ((contains line MATCH_SRC || contains line MATCH_DST) ||
   (negb (contains line "-s ") && negb (contains line "-d ") &&
    negb (contains line "-i ") && negb (contains line "-o "))).

Definition no_accept_before_drop (rooms_fwd_dump : string) : bool :=
  match isolation_drop_line rooms_fwd_dump, position dangerous_accept (lines rooms_fwd_dump) with
  | Some drop, Some accept => (drop <? accept)%nat
  | Some _, None => true
  | _, _ => false
  end.

Definition drop_precedes_egress (rooms_fwd_dump : string) : bool :=
  let egress := position (λ line, contains line MATCH_SRC && contains line "-o " &&
                                  contains line "-j ACCEPT") (lines rooms_fwd_dump) in
  match isolation_drop_line rooms_fwd_dump, egress with
  | Some drop, Some egress => (drop <? egress)%nat
  | Some _, None => true
  | _, _ => false
  end.

Definition rooms_fwd_isolates (rooms_fwd_dump : string) : bool :=
  has_isolation_drop rooms_fwd_dump && no_accept_before_drop rooms_fwd_dump &&
  drop_precedes_egress rooms_fwd_dump.

(** ** The clone chain ([veth_isolation.rs]) *)

Definition VETH_SUPERNET : string := "172.17.0.0/24".
Definition VETH_ISOLATION_DROP : string := "-A ROOMS_VETH_FWD -s 172.17.0.0/24 -d 172.17.0.0/24 -j DROP".
Definition VETH_ANTISPOOF_DROP : string := "-A ROOMS_VETH_FWD ! -s 172.17.0.0/24 -i veth-h+ -j DROP".
Definition FLAT_FORWARD_JUMP : string := "-A FORWARD -j ROOMS_FWD".
Definition VETH_INGRESS_JUMP : string := "-A FORWARD -i veth-h+ -j ROOMS_VETH_FWD".
Definition VETH_EGRESS_JUMP : string := "-A FORWARD -o veth-h+ -j ROOMS_VETH_FWD".
Definition FLAT_SUPERNET : string := "172.16.0.0/24".
Definition VETH_TAIL_DROP : string := "-A ROOMS_VETH_FWD -s 172.17.0.0/24 -j DROP".
Definition CLONE_EGRESS_CHAIN_PREFIX : string := "ROOMS_CEG_".
Definition CLONE_VETH_PREFIX : string := "veth-h".
Definition MAX_CLONE_VETH_INDEX : N := 63.
Definition PRIVATE_DROPS : list string :=
  ["-A ROOMS_VETH_FWD -s 172.17.0.0/24 -d 10.0.0.0/8 -j DROP";
   "-A ROOMS_VETH_FWD -s 172.17.0.0/24 -d 192.168.0.0/16 -j DROP";
   "-A ROOMS_VETH_FWD -s 172.17.0.0/24 -d 172.16.0.0/12 -j DROP"].

Definition jumps_to (line chain : string) : bool :=
  has_token_pair line "-j" chain || has_token_pair line "-g" chain.

Definition forward_jumps_ordered (forward_dump : string) : bool :=
  let rules := trim <$> filter (λ line, starts_with line "-A FORWARD " = true) (lines forward_dump) in
  match rules with
  | r1 :: r2 :: r3 :: rest =>
      bool_decide ([r1; r2; r3] = [FLAT_FORWARD_JUMP; VETH_INGRESS_JUMP; VETH_EGRESS_JUMP]) &&
      forallb (λ rule, negb (jumps_to rule "ROOMS_FWD") && negb (jumps_to rule "ROOMS_VETH_FWD")) rest
  | _ => false
  end.

Definition input_interface (line : string) : option string :=
  token_after (λ t, (t =? "-i")%string) (split_whitespace line).

Definition is_exact_flat_tap (interface : string) : bool :=
  match strip_prefix "tap-fc" interface with
  | Some suffix => negb (is_empty suffix) && all_bytes is_ascii_digit suffix
  | None => false
  end.

Definition has_negation (line : string) : bool :=
  existsb (λ token, (token =? "!")%string) (split_whitespace line).

Definition flat_rule_is_disjoint_from_veth (line : string) : bool :=
  if has_negation line then false else
  if has_token_pair line "-s" FLAT_SUPERNET then true else
  let input := input_interface line in
  if match input with Some i => is_exact_flat_tap i | None => false end then true else
  has_token_pair line "-d" FLAT_SUPERNET &&
  match input with
  | Some interface => negb (contains_byte "+" interface) && negb (starts_with interface "veth-h")
  | None => false
  end.

Definition flat_chain_falls_through_for_veth (chain_dump : string) : bool :=
  let rules := filter (λ line, starts_with line "-A ROOMS_FWD " = true) (trim <$> lines chain_dump) in
  negb (bool_decide (rules = [])) && forallb flat_rule_is_disjoint_from_veth rules.

Definition clone_veth_index (veth : string) : option N :=
  suffix ← strip_prefix CLONE_VETH_PREFIX veth;
  if is_empty suffix || negb (all_bytes is_ascii_digit suffix) then None else
  index ← parse_uint u8_max suffix;
  if negb ((1 <=? index) && (index <=? MAX_CLONE_VETH_INDEX))%N ||
     negb (bool_decide (suffix = show_N index))
  then None else Some index.

Definition clone_egress_chain (index : N) : string := CLONE_EGRESS_CHAIN_PREFIX +:+ show_N index.

Definition per_veth_source_index (line : string) : option N :=
  match split_whitespace line with
  | [t1; t2; t3; t4; source; t6; interface; t8; t9] =>
      if bool_decide ([t1; t2; t3; t4; t6; t8; t9] = ["-A"; "ROOMS_VETH_FWD"; "!"; "-s"; "-i"; "-j"; "DROP"])
      then
        index ← clone_veth_index interface;
        if bool_decide (source = "172.17.0." +:+ show_N ((4 * index + 2) mod 256) +:+ "/32")
        then Some index else None
      else None
  | _ => None
  end.

Definition clone_egress_jump_index (line : string) : option N :=
  match split_whitespace line with
  | [t1; t2; t3; veth; t5; chain] =>
      if bool_decide ([t1; t2; t3; t5] = ["-A"; "ROOMS_VETH_FWD"; "-i"; "-j"]) then
        index ← clone_veth_index veth;
        if bool_decide (chain = clone_egress_chain index) then Some index else None
      else None
  | _ => None
  end.

Definition egress_interface (line : string) : option string :=
  match split_whitespace line with
  | [t1; t2; t3; t4; t5; interface; t7; t8] =>
      if bool_decide ([t1; t2; t3; t4; t5; t7; t8] =
                      ["-A"; "ROOMS_VETH_FWD"; "-s"; VETH_SUPERNET; "-o"; "-j"; "ACCEPT"]) &&
         negb (contains_byte "+" interface)
      then Some interface else None
  | _ => None
  end.

Definition return_interface (line : string) : option string :=
  match split_whitespace line with
  | [t1; t2; t3; t4; t5; interface; t7; t8; t9; t10; t11; t12] =>
      if bool_decide ([t1; t2; t3; t4; t5; t7; t8; t9; t10; t11; t12] =
                      ["-A"; "ROOMS_VETH_FWD"; "-d"; VETH_SUPERNET; "-i"; "-m"; "state"; "--state";
                       "RELATED,ESTABLISHED"; "-j"; "ACCEPT"]) &&
         negb (contains_byte "+" interface)
      then Some interface else None
  | _ => None
  end.

(** The rules of the shared chain, in order. *)
Definition veth_rules (chain_dump : string) : list string :=
  filter (λ line, starts_with line "-A ROOMS_VETH_FWD " = true) (trim <$> lines chain_dump).

(** The [while let] over source bindings: duplicates reject. *)
Fixpoint take_bindings (bindings : list N) (rules : list string) : option (list N * list string) :=
  match rules with
  | line :: rest =>
      match per_veth_source_index line with
      | Some index =>
          if bool_decide (index ∈ bindings) then None else take_bindings (bindings ++ [index]) rest
      | None => Some (bindings, rules)
      end
  | [] => Some (bindings, [])
  end.

(** The [while let] over clone jumps: each at most once, and bound. *)
Fixpoint take_jumps (bindings clone_jumps : list N) (rules : list string)
    : option (list N * list string) :=
  match rules with
  | line :: rest =>
      match clone_egress_jump_index line with
      | Some index =>
          if bool_decide (index ∈ clone_jumps) || negb (bool_decide (index ∈ bindings)) then None
          else take_jumps bindings (clone_jumps ++ [index]) rest
      | None => Some (clone_jumps, rules)
      end
  | [] => Some (clone_jumps, [])
  end.

Definition fixed_prefix : list string := VETH_ANTISPOOF_DROP :: VETH_ISOLATION_DROP :: PRIVATE_DROPS.

(** The last three rules: upstream ACCEPT, its return path, the tail DROP. *)
Definition tail_ok (rules : list string) : bool :=
  match rules with
  | [egress; returned; tail] =>
      match egress_interface egress, return_interface returned with
      | Some out, Some input => (out =? input)%string && (tail =? VETH_TAIL_DROP)%string
      | _, _ => false
      end
  | _ => false
  end.

Definition rules_isolate (rules : list string) : bool :=
  match take_bindings [] rules with
  | None => false
  | Some (bindings, rules) =>
      bool_decide (take 5 rules = fixed_prefix) &&
      match take_jumps bindings [] (drop 5 rules) with
      | None => false
      | Some (_, rules) => tail_ok rules
      end
  end.

Definition rooms_veth_fwd_isolates (chain_dump : string) : bool := rules_isolate (veth_rules chain_dump).

Definition clone_forwarding_substrate (forward_dump flat_dump veth_dump : string) : bool :=
  forward_jumps_ordered forward_dump && flat_chain_falls_through_for_veth flat_dump &&
  rooms_veth_fwd_isolates veth_dump.

Definition clone_source_binding_present (chain_dump veth : string) : bool :=
  match clone_veth_index veth with
  | None => false
  | Some index =>
      (length (filter (λ candidate, candidate = index)
                (omap per_veth_source_index (trim <$> lines chain_dump))) =? 1)%nat
  end.

(** ** The INPUT drop of the [none] posture *)

Definition rule_target (line : string) : option string :=
  token_after (λ t, (t =? "-j")%string || (t =? "-g")%string) (split_whitespace line).

Definition rule_is_disjoint_from_veth (line veth : string) : bool :=
  if has_negation line then false else
  match input_interface line with
  | Some interface => negb (interface =? veth)%string && negb (contains_byte "+" interface)
  | None => false
  end.

Definition prior_rule_preserves_drop (line veth : string) : bool :=
  if rule_is_disjoint_from_veth line veth then true else
  match rule_target line with
  | None => true
  | Some target => bool_decide (target ∈ ["DROP"; "REJECT"; "LOG"])
  end.

Definition veth_input_drop_present (input_dump veth : string) : bool :=
  if is_empty veth || (15 <? len veth)%nat || any_byte is_ascii_whitespace veth then false else
  let expected := "-A INPUT -i " +:+ veth +:+ " -j DROP" in
  match position (λ line, (trim line =? expected)%string) (lines input_dump) with
  | None => false
  | Some drop => forallb (λ line, prior_rule_preserves_drop line veth) (take drop (lines input_dump))
  end.

(** ** Lemmas *)

Lemma clone_veth_index_spec v k :
  clone_veth_index v = Some k ↔ (1 ≤ k ≤ MAX_CLONE_VETH_INDEX)%N ∧ v = CLONE_VETH_PREFIX +:+ show_N k.
Proof.
  unfold clone_veth_index. split.
  - destruct (strip_prefix CLONE_VETH_PREFIX v) as [s|] eqn:E; [|done].
    apply strip_prefix_Some in E as ->. cbn [mbind option_bind].
    destruct (is_empty s || negb (all_bytes is_ascii_digit s)); [done|].
    destruct (parse_uint u8_max s) as [i|]; [|done]. cbn [mbind option_bind].
    destruct (negb _ || negb _) eqn:E; [done|]. intros [= ->]. boolify. split; [done|congruence].
  - intros [Hk ->]. rewrite strip_prefix_app. cbn [mbind option_bind].
    rewrite show_N_digits. destruct (is_empty (show_N k)) eqn:He.
    { pose proof (show_N_nonempty k). by destruct (show_N k). }
    cbn [negb orb]. rewrite parse_show_N by (unfold MAX_CLONE_VETH_INDEX, u8_max in *; lia).
    cbn [mbind option_bind]. rewrite bool_decide_eq_true_2 by done.
    destruct (N.leb_spec 1 k), (N.leb_spec k MAX_CLONE_VETH_INDEX); done || lia.
Qed.

Lemma clone_veth_index_self k :
  (1 ≤ k ≤ MAX_CLONE_VETH_INDEX)%N → clone_veth_index (CLONE_VETH_PREFIX +:+ show_N k) = Some k.
Proof. intros. by apply clone_veth_index_spec. Qed.

(** A rule's target token. *)
Lemma per_veth_source_target line k :
  per_veth_source_index line = Some k → rule_target line = Some "DROP".
Proof.
  unfold per_veth_source_index, rule_target.
  destruct (split_whitespace line) as [|t1 [|t2 [|t3 [|t4 [|s [|t6 [|i [|t8 [|t9 [|]]]]]]]]]]; try done.
  case_bool_decide as E; [|done]. injection E as -> -> -> -> -> -> ->. intros H.
  destruct (clone_veth_index i) as [j|] eqn:Hi; [|done].
  apply clone_veth_index_spec in Hi as [_ ->]. cbn [mbind option_bind] in H.
  case_bool_decide as Hs; [|done]. subst s. done.
Qed.

(** The rules accepted by [rules_isolate], cut into their parts. *)
Lemma take_bindings_spec bs rules bs' rest :
  take_bindings bs rules = Some (bs', rest) →
  ∃ pre, rules = pre ++ rest ∧ Forall (λ line, is_Some (per_veth_source_index line)) pre ∧
         omap per_veth_source_index pre = drop (length bs) bs' ∧ take (length bs) bs' = bs ∧
         (NoDup bs → NoDup bs').
Proof.
  revert bs; induction rules as [|line rules IH]; intros bs; simpl.
  - intros [= <- <-]. exists []. rewrite drop_all, take_ge by done. done.
  - destruct (per_veth_source_index line) as [k|] eqn:E.
    + case_bool_decide as Hk; [done|]. intros (pre & -> & Hpre & Hom & Htk & Hnd)%IH.
      rewrite length_app in *. simpl in *. exists (line :: pre). splits; [done|by constructor|..].
      * rewrite omap_cons_eq, E, Hom.
        assert (Hb : drop (length bs) bs' = drop (length bs) (take (length bs + 1) bs' ++ drop (length bs + 1) bs'))
          by (by rewrite take_drop).
        rewrite Hb, Htk, <- (assoc_L (++)), drop_app_length. done.
      * apply (f_equal (take (length bs))) in Htk. rewrite take_take, take_app_length in Htk.
        by rewrite Nat.min_l in Htk by lia.
      * intros H. apply Hnd. apply NoDup_app. split; [done|]. split; [|by apply NoDup_singleton].
        intros x Hx ->%list_elem_of_singleton. done.
    + intros [= <- <-]. exists []. rewrite drop_all, take_ge by done. done.
Qed.

(** ** What the clone chain does to packets *)

Record packet := { in_iface : string; src : N; dst : N }.

Inductive verdict := VAccept | VDrop | VReject.

(** [ip] is in the /24 whose network address is [net]. *)
Definition in_net24 (net ip : N) : Prop := (ip / 256 = net / 256)%N.

Definition clone_net : N := ipv4 172 17 0 0.

(** A packet a clone sends to a clone: it enters the host on a clone veth, and
    both its addresses are in the clone supernet. *)
Definition inter_clone (p : packet) : Prop :=
  (∃ k, clone_veth_index (in_iface p) = Some k) ∧ in_net24 clone_net (src p) ∧ in_net24 clone_net (dst p).

Section packets.
  (** What one rule does to a packet: a terminal verdict, or nothing. *)
  Variable rule_verdict : string → packet → option verdict.

(** Rules are tried in order until one is terminal. *)
Fixpoint eval (rules : list string) (p : packet) : option verdict :=
  match rules with
  | [] => None
  | r :: rules => match rule_verdict r p with Some v => Some v | None => eval rules p end
  end.

Definition flat_rules (chain_dump : string) : list string :=
  filter (λ line, starts_with line "-A ROOMS_FWD " = true) (trim <$> lines chain_dump).

(** FORWARD's first two rules: through the flat chain, then, as the packet came
    in on a clone veth, into the clone chain. *)
Definition path_verdict (flat_dump veth_dump : string) (p : packet) : option verdict :=
  match eval (flat_rules flat_dump) p with
  | Some v => Some v
  | None => eval (veth_rules veth_dump) p
  end.

(** A rule whose target is DROP can only drop. *)
Hypothesis drop_rule : ∀ line p, rule_target line = Some "DROP" →
  rule_verdict line p = None ∨ rule_verdict line p = Some VDrop.
(** A rule with a source match, not negated, passes over other sources. *)
Hypothesis source_match : ∀ line p, has_negation line = false →
  has_token_pair line "-s" FLAT_SUPERNET = true → ¬ in_net24 (ipv4 172 16 0 0) (src p) →
  rule_verdict line p = None.
(** A rule with an exact input interface, not negated, passes over the others. *)
Hypothesis interface_match : ∀ line p i, has_negation line = false →
  input_interface line = Some i → contains_byte "+" i = false → i ≠ in_iface p →
  rule_verdict line p = None.
(** The isolation rule drops what it names. *)
Hypothesis isolation_match : ∀ p, in_net24 clone_net (src p) → in_net24 clone_net (dst p) →
  rule_verdict VETH_ISOLATION_DROP p = Some VDrop.

Lemma eval_drops pre post p :
  Forall (λ r, rule_target r = Some "DROP") pre → eval post p = Some VDrop →
  eval (pre ++ post) p = Some VDrop.
Proof using drop_rule.
  intros Hpre Hpost. induction Hpre as [|r pre Hr _ IH]; [done|]. simpl.
  by destruct (drop_rule r p Hr) as [->| ->].
Qed.

Lemma eval_none rules p : Forall (λ r, rule_verdict r p = None) rules → eval rules p = None.
Proof. induction 1 as [|r rules Hr _ IH]; [done|]. simpl. by rewrite Hr. Qed.

Lemma digits_no_plus s : all_bytes is_ascii_digit s = true → contains_byte "+" s = false.
Proof.
  intros H. unfold contains_byte, any_byte. apply negb_false_iff.
  eapply all_bytes_impl; [|exact H]. intros a Ha. rewrite negb_true_iff. by apply digit_not_plus.
Qed.

Lemma flat_disjoint_verdict line p :
  flat_rule_is_disjoint_from_veth line = true → inter_clone p → rule_verdict line p = None.
Proof using source_match interface_match.
  intros H [[k [_ Hin]%clone_veth_index_spec] [Hs Hd]]. unfold flat_rule_is_disjoint_from_veth in H.
  destruct (has_negation line) eqn:Hn; [done|].
  destruct (has_token_pair line "-s" FLAT_SUPERNET) eqn:Hsrc.
  { apply source_match; try done. unfold in_net24 in *. rewrite Hs. by vm_compute. }
  destruct (input_interface line) as [i|] eqn:Hi; [|by rewrite andb_false_r in H].
  destruct (is_exact_flat_tap i) eqn:Ht.
  - unfold is_exact_flat_tap in Ht. destruct (strip_prefix "tap-fc" i) as [s|] eqn:E; [|done].
    apply strip_prefix_Some in E as ->. apply andb_true_iff in Ht as [_ Hdig].
    apply (interface_match line p _ Hn Hi); [|by rewrite Hin].
    unfold contains_byte, any_byte. rewrite all_bytes_app, negb_andb. apply orb_false_iff.
    split; [done|]. by apply digits_no_plus.
  - apply andb_true_iff in H as [_ H]. apply andb_true_iff in H as [Hp Hv]. boolify.
    apply (interface_match line p _ Hn Hi Hp). intros ->. rewrite Hin in Hv.
    unfold CLONE_VETH_PREFIX in Hv. by rewrite starts_with_app in Hv.
Qed.

Lemma rules_isolate_drops rules p :
  rules_isolate rules = true → inter_clone p → eval rules p = Some VDrop.
Proof using drop_rule isolation_match.
  unfold rules_isolate. destruct (take_bindings [] rules) as [[bs rest]|] eqn:Hb; [|done].
  intros [Hfix _]%andb_true_iff [_ [Hs Hd]]. apply bool_decide_eq_true in Hfix.
  apply take_bindings_spec in Hb as (pre & -> & Hpre & _).
  rewrite <- (take_drop 5 rest), Hfix. apply eval_drops.
  { eapply Forall_impl; [exact Hpre|]. intros line [k Hk]. by eapply per_veth_source_target. }
  unfold fixed_prefix. change (?a :: ?b :: ?c) with ([a] ++ b :: c). rewrite <- (assoc_L (++)).
  apply eval_drops; [by repeat constructor|]. simpl. by rewrite isolation_match.
Qed.

(** C25.  Clones cannot reach each other: when the custody check passes on the
    three live dumps, FORWARD begins with the jumps to the flat chain and, for
    clone veths, to the clone chain, and every packet from one clone to another
    is dropped on that path, whatever other rules the chains hold. *)
Theorem inter_clone_dropped forward_dump flat_dump veth_dump p :
  clone_forwarding_substrate forward_dump flat_dump veth_dump = true →
  inter_clone p →
  (∃ rest, trim <$> filter (λ line, starts_with line "-A FORWARD " = true) (lines forward_dump) =
           FLAT_FORWARD_JUMP :: VETH_INGRESS_JUMP :: rest) ∧
  path_verdict flat_dump veth_dump p = Some VDrop.
Proof using drop_rule source_match interface_match isolation_match.
  intros H Hp. unfold clone_forwarding_substrate in H. boolify. rename H into Hf, H1 into Hflat, H0 into Hv.
  split.
  - unfold forward_jumps_ordered in Hf. destruct (trim <$> _) as [|r1 [|r2 [|r3 rest]]]; try done.
    boolify. simplify_eq. eauto.
  - unfold path_verdict. rewrite eval_none; [by apply rules_isolate_drops|].
    unfold flat_chain_falls_through_for_veth in Hflat. boolify.
    apply Forall_forall. intros r Hr. apply flat_disjoint_verdict; [|done].
    rewrite forallb_forall in H0. apply H0. by apply list_elem_of_In.
Qed.

End packets.

(** A dump of the given lines. *)
Fixpoint dump_of (ls : list string) : string :=
  match ls with [] => "" | l :: ls => l +:+ String nl (dump_of ls) end.

(** A packet filter that knows the isolation rule only, for witnesses. *)
Definition toy_verdict (line : string) (p : packet) : option verdict :=
  if (line =? VETH_ISOLATION_DROP)%string && bool_decide (src p / 256 = clone_net / 256)%N &&
     bool_decide (dst p / 256 = clone_net / 256)%N
  then Some VDrop else None.

Lemma inter_clone_dropped_witness :
  let p := {| in_iface := "veth-h3"; src := ipv4 172 17 0 14; dst := ipv4 172 17 0 18 |} in
  let flat := dump_of ["-N ROOMS_FWD"; ISOLATION_DROP; "-A ROOMS_FWD -i tap-fc7 -j ROOMS_EG_7"] in
  let veth := dump_of (["-A ROOMS_VETH_FWD ! -s 172.17.0.14/32 -i veth-h3 -j DROP"] ++ fixed_prefix ++
    ["-A ROOMS_VETH_FWD -s 172.17.0.0/24 -o eth0 -j ACCEPT";
     "-A ROOMS_VETH_FWD -d 172.17.0.0/24 -i eth0 -m state --state RELATED,ESTABLISHED -j ACCEPT";
     VETH_TAIL_DROP]) in
  path_verdict toy_verdict flat veth p = Some VDrop.
Proof.
  intros p flat veth.
  apply (inter_clone_dropped toy_verdict) with
    (forward_dump := dump_of [FLAT_FORWARD_JUMP; VETH_INGRESS_JUMP; VETH_EGRESS_JUMP]).
  - intros line q _. unfold toy_verdict. destruct (_ && _); auto.
  - intros line q _ Hs _. unfold toy_verdict. destruct (String.eqb_spec line VETH_ISOLATION_DROP) as [->|]; done.
  - intros line q i _ Hi _ _. unfold toy_verdict.
    destruct (String.eqb_spec line VETH_ISOLATION_DROP) as [->|]; done.
  - intros q Hs Hd. unfold toy_verdict, in_net24 in *. rewrite Hs, Hd. reflexivity.
  - vm_compute. reflexivity.
  - split; [by exists 3%N|split; reflexivity].
Defined.

Section input_chain.
  Variable rule_verdict : string → packet → option verdict.
  Variable input_dump : string.
  Variable p : packet.

(** The documented behaviour of the dump's rules on this packet: LOG, DROP and
    REJECT rules and rules without a target never accept. *)
Hypothesis no_accept_target : ∀ line, line ∈ lines input_dump →
  match rule_target line with None => True | Some t => t ∈ ["DROP"; "REJECT"; "LOG"] end →
  rule_verdict line p ≠ Some VAccept.
Hypothesis interface_match : ∀ line i, line ∈ lines input_dump → has_negation line = false →
  input_interface line = Some i → contains_byte "+" i = false → i ≠ in_iface p →
  rule_verdict line p = None.
Hypothesis input_drop_match : ∀ line, line ∈ lines input_dump →
  trim line = "-A INPUT -i " +:+ in_iface p +:+ " -j DROP" → rule_verdict line p = Some VDrop.

(** The [none] posture's host boundary holds: when the INPUT check passes
    for a veth, the INPUT chain gives every packet that arrives on it a verdict,
    and never ACCEPT. *)
Theorem input_drop_blocks :
  veth_input_drop_present input_dump (in_iface p) = true →
  ∃ v, eval rule_verdict (lines input_dump) p = Some v ∧ v ≠ VAccept.
Proof using no_accept_target interface_match input_drop_match.
  unfold veth_input_drop_present.
  destruct (is_empty _ || _ || _); [done|].
  destruct (position _ _) as [i|] eqn:E; [|done]. intros Hall.
  apply position_Some in E as (line & Hline & Heq & _). apply String.eqb_eq in Heq.
  rewrite forallb_forall in Hall.
  assert (Hpre : ∀ r, r ∈ take i (lines input_dump) → rule_verdict r p ≠ Some VAccept).
  { intros r Hr. assert (Hin : r ∈ lines input_dump).
    { rewrite <- (take_drop i). apply elem_of_app. by left. }
    apply list_elem_of_In in Hr. apply Hall in Hr.
    unfold prior_rule_preserves_drop in Hr. destruct (rule_is_disjoint_from_veth r (in_iface p)) eqn:Hd.
    - unfold rule_is_disjoint_from_veth in Hd. destruct (has_negation r) eqn:Hn; [done|].
      destruct (input_interface r) as [j|] eqn:Hj; [|done].
      apply andb_true_iff in Hd as [Hd Hp]. rewrite negb_true_iff in Hd, Hp.
      apply String.eqb_neq in Hd. by rewrite (interface_match r j).
    - apply no_accept_target; [done|]. destruct (rule_target r); [|done].
      by apply bool_decide_eq_true in Hr. }
  assert (Hl : rule_verdict line p = Some VDrop).
  { apply input_drop_match; [by eapply list_elem_of_lookup_2|done]. }
  rewrite <- (take_drop_middle _ _ _ Hline). clear Hall Hline.
  induction (take i (lines input_dump)) as [|r rs IH]; simpl; [rewrite Hl; by exists VDrop|].
  destruct (rule_verdict r p) as [v|] eqn:Hr; [|apply IH; intros r' Hr'; apply Hpre; by right].
  exists v. split; [done|]. intros ->. by apply (Hpre r); [left|].
Qed.

End input_chain.

Definition toy_input_verdict (line : string) (p : packet) : option verdict :=
  if bool_decide (trim line = "-A INPUT -i " +:+ in_iface p +:+ " -j DROP") then Some VDrop else None.

Lemma input_drop_blocks_witness :
  let p := {| in_iface := "veth-h3"; src := 0; dst := 0 |} in
  ∃ v, eval toy_input_verdict (lines (dump_of ["-P INPUT ACCEPT"; "-A INPUT -i lo -j ACCEPT";
         "-A INPUT -i veth-h3 -j DROP"])) p = Some v ∧ v ≠ VAccept.
Proof.
  intros p. apply input_drop_blocks.
  - intros line _ _. unfold toy_input_verdict. by case_bool_decide.
  - intros line i Hl Hn Hi Hp Hne.
    change (lines _) with ["-P INPUT ACCEPT"; "-A INPUT -i lo -j ACCEPT"; "-A INPUT -i veth-h3 -j DROP"] in Hl.
    apply elem_of_cons in Hl as [->|Hl]; [done|]. apply elem_of_cons in Hl as [->|Hl]; [done|].
    apply list_elem_of_singleton in Hl as ->. vm_compute in Hi. injection Hi as <-. by destruct Hne.
  - intros line _ E. unfold toy_input_verdict. by rewrite bool_decide_eq_true_2.
  - vm_compute. reflexivity.
Defined.
