(* ===== verification/Host.v ===== *)
(** * Host: external programs

    The code drives [ip], [iptables] and [sysctl] as subprocesses.  [Host] is
    the interface: running a program with arguments.  What the program does is
    not modelled; a theorem that needs some of it says so in a hypothesis. *)

From S2P Require Import Prelude RStr Fs.
From stdpp Require Import options.

(** [std::process::Output], its streams read as text. *)
Record CmdOutput := { success : bool; stdout : string; stderr : string }.

Class Host := {
  (** [Command::new(program).args(args).output()]; the error is a failed spawn. *)
  run_program : string → list string → io io_error CmdOutput;
  (** [Mutex::lock] on the process-wide firewall transaction; fails when poisoned. *)
  lock_transaction : io string unit
}.

(** A host whose programs leave the rooms state directory alone. *)
Class HostFrame (H : Host) : Prop := {
  run_program_frame : ∀ program args (t : tree),
    wp (run_program program args) (λ _ t', ∀ q, file t' q = file t q) t;
  lock_transaction_frame : ∀ t : tree, wp lock_transaction (λ _ t', ∀ q, file t' q = file t q) t
}.

(** The files are as they were. *)
Definition same_files (t t' : tree) : Prop := ∀ q, file t' q = file t q.

#[export] Instance same_files_preorder : PreOrder same_files.
Proof. split; [by intros t q|]. intros t1 t2 t3 H1 H2 q. by rewrite H2, H1. Qed.

(** A computation that leaves the files alone, whatever happens. *)
Definition frames {E A : Type} (m : io E A) : Prop := ∀ t : tree, wp m (λ _ t', same_files t t') t.

Lemma frames_ret {E A : Type} (a : A) : frames (E:=E) (ret a).
Proof. intros t. by apply wp_ret. Qed.

Lemma frames_throw {E A : Type} (e : E) : frames (A:=A) (throw e).
Proof. intros t. by apply wp_throw. Qed.

Lemma frames_of_result {E A : Type} (r : result E A) : frames (of_result r).
Proof. intros t. by apply wp_of_result. Qed.

Lemma frames_bind {E A B : Type} (m : io E A) (k : A → io E B) :
  frames m → (∀ a, frames (k a)) → frames (bind m k).
Proof.
  intros Hm Hk t. wp_struct. eapply wp_mono; [apply Hm|]. intros o t1 H1.
  destruct o as [[a|e]|]; wp_post; [|done..].
  eapply wp_mono; [apply Hk|]. intros o t2 H2. by etrans.
Qed.

Lemma frames_lift_err {E E' A : Type} (f : E → E') (m : io E A) : frames m → frames (lift_err f m).
Proof.
  intros Hm t. wp_struct. eapply wp_mono; [apply Hm|]. intros o t1 H1. by destruct o as [[|]|]; wp_post.
Qed.

Lemma frames_attempt {E E' A : Type} (m : io E A) : frames m → frames (E:=E') (attempt m).
Proof.
  intros Hm t. wp_struct. eapply wp_mono; [apply Hm|]. intros o t1 H1. by destruct o as [[|]|]; wp_post.
Qed.

Lemma frames_run `{H : Host} `{!HostFrame H} program args : frames (run_program program args).
Proof. intros t. apply run_program_frame. Qed.

Lemma frames_lock `{H : Host} `{!HostFrame H} : frames lock_transaction.
Proof. intros t. apply lock_transaction_frame. Qed.

#[export] Hint Resolve frames_ret frames_throw frames_of_result frames_bind frames_lift_err frames_attempt
  frames_run frames_lock : rooms.

(** Run [body] while [cond] answers true.  A loop out of fuel has not returned,
    which the model shows as a process that dies there. *)
Fixpoint while_io {E : Type} (fuel : nat) (cond : io E bool) (body : io E unit) : io E unit :=
  match fuel with
  | 0 => λ w, (Crashed, w)
  | S fuel =>
      let! again := cond in
      if again then do! body in while_io fuel cond body else ret ()
  end.

Lemma frames_while {E : Type} fuel (cond : io E bool) (body : io E unit) :
  frames cond → frames body → frames (while_io fuel cond body).
Proof.
  intros Hc Hb. induction fuel as [|fuel IH]; [by intros t l|]. simpl.
  apply frames_bind; [done|]. intros []; [|apply frames_ret]. by apply frames_bind.
Qed.

#[export] Hint Resolve frames_while : rooms.

(** A command whose exit status is all that counts. *)
Record CommandSpec := { program : string; args : list string }.

Definition show_command (c : CommandSpec) : string := program c +:+ " " +:+ join " " (args c).
