(* ===== verification/Egress.v ===== *)
(** * Egress: per-room egress policy ([egress.rs])

    Parsing and resolving the policy, the rules it stands for, the predicates
    that prove it is enforced from live dumps, and the transactions that install
    and remove it through [iptables] on the [Host]. *)

From S2P Require Import Prelude RStr Fs Cidr Firewall Host.
From stdpp Require Import options.

Definition FWD_CHAIN : string := "ROOMS_FWD".
Definition INPUT_CHAIN : string := "INPUT".
Definition TAP_PREFIX : string := "tap-fc".
Definition EG_CHAIN_PREFIX : string := "ROOMS_EG_".
Definition VETH_FWD_CHAIN : string := "ROOMS_VETH_FWD".
Definition HOST_FWD_CHAIN : string := "FORWARD".
Definition XTABLES_WAIT_SECONDS : string := "2".
Definition dquote : byte := "034".

(** ** Policy *)

Inductive Dest := DestHost (host : string) | DestCidr (literal : string).

Inductive Policy := PolicyObserve | PolicyNone | PolicyAllowlist (dests : list Dest).

Inductive Plan := PlanObserve | PlanNone | PlanAllowlist (permitted : list string).

#[export] Instance Dest_eq_dec : EqDecision Dest.
Proof. solve_decision. Defined.
#[export] Instance Policy_eq_dec : EqDecision Policy.
Proof. solve_decision. Defined.
#[export] Instance Plan_eq_dec : EqDecision Plan.
Proof. solve_decision. Defined.

Definition enforces (plan : Plan) : bool :=
  match plan with PlanObserve => false | _ => true end.

Definition permitted (plan : Plan) : list string :=
  match plan with PlanAllowlist dests => dests | _ => [] end.

Definition validate_cidr (entry : string) : result string unit :=
  match split_once "/" entry with
  | None => Err ("invalid --egress CIDR '" +:+ entry +:+ "': missing '/'")
  | Some (addr, prefix) =>
      if negb (bool_decide (is_Some (parse_ipv4 addr))) then
        Err ("invalid --egress CIDR '" +:+ entry +:+ "': bad address")
      else if negb (match parse_uint u8_max prefix with Some p => (p <=? 32)%N | None => false end) then
        Err ("invalid --egress CIDR '" +:+ entry +:+ "': prefix must be 0..=32")
      else Ok ()
  end.

Definition parse_dest (entry : string) : result string Dest :=
  if contains_byte "/" entry then
    let? _ := validate_cidr entry in Ok (DestCidr entry)
  else if bool_decide (is_Some (parse_ipv4 entry)) then Ok (DestCidr entry)
  else Ok (DestHost entry).

Fixpoint parse_entries (entries : list string) : result string (list Dest) :=
  match entries with
  | [] => Ok []
  | entry :: rest =>
      let entry := trim entry in
      if is_empty entry then Err "invalid --egress allowlist: an empty destination in the list" else
      let? dest := parse_dest entry in
      let? dests := parse_entries rest in
      Ok (dest :: dests)
  end.

Definition parse_allowlist (rest : string) : result string Policy :=
  rmap PolicyAllowlist (parse_entries (split_byte "," rest)).

Definition parse (value : string) : result string Policy :=
  let value := trim value in
  if (value =? "none")%string then Ok PolicyNone else
  match strip_prefix "allowlist:" value with
  | Some rest => parse_allowlist rest
  | None => Err ("invalid --egress '" +:+ value +:+
                 "': want 'none' or 'allowlist:<host-or-cidr>[,...]'")
  end.

(** ** Resolution *)

Inductive IpAddr := V4 (ip : N) | V6 (ip : N).

Section resolve.
  (** [ToSocketAddrs] on a host name. *)
  Variable to_socket_addrs : string → result string (list IpAddr).

Definition resolve_host (host : string) : result string (list string) :=
  let? addrs := map_err (λ e, "--egress: cannot resolve host '" +:+ host +:+ "': " +:+ e)
                  (to_socket_addrs host) in
  let ips := dedup (str_sort (omap (λ a, match a with V4 ip => Some (show_ipv4 ip) | V6 _ => None end) addrs)) in
  if bool_decide (ips = []) then
    Err ("--egress: host '" +:+ host +:+ "' resolved to no IPv4 address")
  else Ok ips.

Fixpoint resolve_allowlist (dests : list Dest) : result string (list string) :=
  match dests with
  | [] => Ok []
  | DestCidr literal :: rest => let? ips := resolve_allowlist rest in Ok (literal :: ips)
  | DestHost host :: rest =>
      let? mine := resolve_host host in
      let? ips := resolve_allowlist rest in Ok (mine ++ ips)
  end.

Definition resolve (policy : Policy) : result string Plan :=
  match policy with
  | PolicyObserve => Ok PlanObserve
  | PolicyNone => Ok PlanNone
  | PolicyAllowlist dests => rmap PlanAllowlist (resolve_allowlist dests)
  end.

End resolve.

(** ** Chains and rules *)

Definition chain_for_tap (tap : string) : option string :=
  suffix ← strip_prefix TAP_PREFIX tap;
  if is_empty suffix || negb (all_bytes is_ascii_digit suffix) then None
  else Some (EG_CHAIN_PREFIX +:+ suffix).

Definition clone_chain_for_veth (veth : string) : option string :=
  clone_egress_chain <$> clone_veth_index veth.

Definition drop_log_prefix (chain : string) : string :=
  let k := match strip_prefix EG_CHAIN_PREFIX chain with
           | Some k => k
           | None => default chain (strip_prefix "ROOMS_CEG_" chain)
           end in
  "rooms-egress-drop:" +:+ k +:+ " ".

Definition subchain_rules (chain out_iface : string) (permitted : list string) : list (list string) :=
  ((λ dest, ["-A"; chain; "-d"; dest; "-o"; out_iface; "-j"; "ACCEPT"]) <$> permitted) ++
  [["-A"; chain; "-o"; out_iface; "-j"; "LOG"; "--log-prefix"; drop_log_prefix chain];
   ["-A"; chain; "-o"; out_iface; "-j"; "DROP"]].

Definition jump_rule (pos : nat) (tap chain : string) : list string :=
  ["-I"; FWD_CHAIN; show_N (N.of_nat pos); "-i"; tap; "-j"; chain].

Definition input_drop_rule (op tap : string) : list string := [op; INPUT_CHAIN; "-i"; tap; "-j"; "DROP"].

Definition input_drop_insert_rule (tap : string) : list string :=
  ["-I"; INPUT_CHAIN; "1"; "-i"; tap; "-j"; "DROP"].

Definition clone_jump_rule (pos : nat) (veth : string) : option (list string) :=
  if (pos =? 0)%nat then None else
  chain ← clone_chain_for_veth veth;
  Some ["-I"; VETH_FWD_CHAIN; show_N (N.of_nat pos); "-i"; veth; "-j"; chain].

Definition clone_jump_args (op veth : string) : option (list string) :=
  chain ← clone_chain_for_veth veth;
  Some [op; VETH_FWD_CHAIN; "-i"; veth; "-j"; chain].

Definition jump_args (op tap chain : string) : list string := [op; FWD_CHAIN; "-i"; tap; "-j"; chain].

(** ** Reading the dumps *)

Definition veth_egress_interface (line : string) : option string :=
  match split_whitespace line with
  | [t1; t2; t3; t4; t5; interface; t7; t8] =>
      if bool_decide ([t1; t2; t3; t4; t5; t7; t8] =
                      ["-A"; VETH_FWD_CHAIN; "-s"; VETH_SUPERNET; "-o"; "-j"; "ACCEPT"]) &&
         negb (contains_byte "+" interface)
      then Some interface else None
  | _ => None
  end.

Definition clone_insertion_point (line : string) : bool :=
  bool_decide (is_Some (clone_egress_jump_index line)) ||
  bool_decide (is_Some (veth_egress_interface line)).

Definition clone_insert_position (veth_dump : string) : option nat :=
  if negb (rooms_veth_fwd_isolates veth_dump) then None else
  S <$> position clone_insertion_point (veth_rules veth_dump).

Definition clone_out_iface (veth_dump : string) : option string :=
  if negb (rooms_veth_fwd_isolates veth_dump) then None else
  find_map veth_egress_interface (trim <$> lines veth_dump).

Definition is_supernet_egress_accept (line : string) : bool :=
  contains line ("-s " +:+ SUPERNET) && contains line "-o " && contains line "-j ACCEPT".

(** The rank counts the [-A ROOMS_FWD] rules. *)
Fixpoint insert_rank (rank : nat) (dump_lines : list string) : option nat :=
  match dump_lines with
  | [] => None
  | line :: rest =>
      let line := trim line in
      if negb (starts_with line "-A ROOMS_FWD") then insert_rank rank rest else
      if is_supernet_egress_accept line then Some (S rank) else insert_rank (S rank) rest
  end.

Definition insert_position (forward_dump : string) : option nat := insert_rank 0 (lines forward_dump).

Definition iface_after_o (line : string) : option string :=
  token_after (λ t, (t =? "-o")%string) (split_whitespace line).

Definition out_iface (forward_dump : string) : option string :=
  find_map iface_after_o
    (filter (λ line, is_supernet_egress_accept line = true) (trim <$> lines forward_dump)).

(** ** Enforcement predicates *)

Definition jump_line (forward_dump tap chain : string) : option nat :=
  position (λ line, let padded := trim line +:+ " " in
    contains padded ("-i " +:+ tap +:+ " ") && contains padded ("-j " +:+ chain +:+ " "))
    (lines forward_dump).

Definition is_isolation_drop (line : string) : bool :=
  contains line ("-s " +:+ SUPERNET) && contains line ("-d " +:+ SUPERNET) && contains line "-j DROP".

Definition line_of (dump : string) (pred : string → bool) : option nat :=
  position (λ line, pred (trim line)) (lines dump).

Definition subchain_terminates_in_drop (eg_dump out_iface : string) : bool :=
  match find_first (λ line, starts_with line "-A ") (rev (trim <$> lines eg_dump)) with
  | Some line => contains line ("-o " +:+ out_iface) && contains line "-j DROP"
  | None => false
  end.

Definition room_egress_enforced (tap out_iface forward_dump eg_dump : string) : bool :=
  match chain_for_tap tap with
  | None => false
  | Some chain =>
      match jump_line forward_dump tap chain, line_of forward_dump is_supernet_egress_accept,
            line_of forward_dump is_isolation_drop with
      | Some jump, Some accept, Some isolation_drop =>
          (jump <? accept)%nat && (isolation_drop <? jump)%nat &&
          subchain_terminates_in_drop eg_dump out_iface
      | _, _, _ => false
      end
  end.

Definition ipv4_network (destination : string) : option (N * N) :=
  '(address, prefix) ← match split_once "/" destination with
                       | Some (address, prefix) => p ← parse_uint u8_max prefix; Some (address, p)
                       | None => Some (destination, 32%N)
                       end;
  if (32 <? prefix)%N then None else
  address ← parse_ipv4 address;
  (** [checked_shl] by 32 is [None], read as 0. *)
  let mask := cidr_mask prefix in
  Some (N.land address mask, prefix).

Definition destinations_equivalent (expected live : string) : bool :=
  (expected =? live)%string ||
  match ipv4_network expected with
  | Some network => bool_decide (Some network = ipv4_network live)
  | None => false
  end.

Definition clone_accept_matches (line chain out_iface destination : string) : bool :=
  match split_whitespace line with
  | [t1; live_chain; t3; live_destination; t5; live_iface; t7; t8] =>
      bool_decide ([t1; t3; t5; t7; t8] = ["-A"; "-d"; "-o"; "-j"; "ACCEPT"]) &&
      (live_chain =? chain)%string && (live_iface =? out_iface)%string &&
      destinations_equivalent destination live_destination
  | _ => false
  end.

Definition clone_log_matches (line chain out_iface : string) : bool :=
  match strip_prefix ("-A " +:+ chain +:+ " -o " +:+ out_iface +:+ " -j LOG --log-prefix ") line with
  | None => false
  | Some prefix => (trim (trim_matches_byte dquote (trim prefix)) =? trim (drop_log_prefix chain))%string
  end.

(** The ACCEPT lines, one per permitted destination, in order. *)
Fixpoint match_accepts (permitted : list string) (ls : list string) (chain out_iface : string)
    : option (list string) :=
  match permitted with
  | [] => Some ls
  | destination :: permitted =>
      match ls with
      | [] => None
      | line :: ls =>
          if negb (clone_accept_matches line chain out_iface destination) then None
          else match_accepts permitted ls chain out_iface
      end
  end.

Definition clone_subchain_matches_plan (chain out_iface dump : string) (plan : Plan) : bool :=
  let dump_lines := filter (λ line, is_empty line = false) (trim <$> lines dump) in
  let check permitted :=
    match dump_lines with
    | [] => false
    | first :: rest =>
        if negb (first =? "-N " +:+ chain)%string then false else
        match match_accepts permitted rest chain out_iface with
        | Some [log; drop] =>
            clone_log_matches log chain out_iface &&
            (drop =? "-A " +:+ chain +:+ " -o " +:+ out_iface +:+ " -j DROP")%string
        | _ => false
        end
    end in
  match plan with
  | PlanNone => check []
  | PlanAllowlist destinations => check destinations
  | PlanObserve => false
  end.

Definition clone_jump_count (veth_dump : string) (index : N) : nat :=
  length (filter (λ candidate, candidate = index)
            (omap clone_egress_jump_index (trim <$> lines veth_dump))).

Definition clone_egress_enforced (veth out_iface veth_dump eg_dump input_dump : string) (plan : Plan) : bool :=
  if negb (enforces plan) || negb (rooms_veth_fwd_isolates veth_dump) then false else
  match clone_veth_index veth with
  | None => false
  | Some index =>
      let chain := clone_egress_chain index in
      if negb (bool_decide (clone_out_iface veth_dump = Some out_iface)) then false else
      if negb (clone_jump_count veth_dump index =? 1)%nat ||
         negb (clone_subchain_matches_plan chain out_iface eg_dump plan) then false else
      match plan with PlanNone => veth_input_drop_present input_dump veth | _ => true end
  end.

Definition clone_observe_unenforced (veth veth_dump input_dump : string) : bool :=
  match clone_veth_index veth with
  | None => false
  | Some index =>
      let stale_jump := existsb (λ candidate, (candidate =? index)%N)
                          (omap clone_egress_jump_index (trim <$> lines veth_dump)) in
      let expected_input := join " " (input_drop_rule "-A" veth) in
      let stale_input := existsb (λ line, (line =? expected_input)%string) (trim <$> lines input_dump) in
      negb stale_jump && negb stale_input
  end.

(** ** Transactions on the host's firewall *)

Definition iptables_rule_is_absent (stderr : string) : bool :=
  contains stderr "Bad rule" || contains stderr "No chain/target/match" ||
  contains stderr "No rule exists at that position" ||
  (contains stderr "rule in chain" && contains stderr "not found") ||
  (contains stderr "Chain" && contains stderr "does not exist").

Definition iptables_command_args (args : list string) : list string :=
  ["-w"; XTABLES_WAIT_SECONDS] ++ args.

Section host.
  Context `{H : Host}.
  (** How often a delete loop may run. *)
  Variable fuel : nat.

Definition iptables_output (args : list string) : io io_error CmdOutput :=
  run_program "iptables" (iptables_command_args args).

Definition run_iptables (args : list string) : io string unit :=
  let! out := lift_err (λ e, "iptables " +:+ join " " args +:+ ": " +:+ message e) (iptables_output args) in
  if success out then ret ()
  else throw ("iptables " +:+ join " " args +:+ " failed: " +:+ trim (stderr out)).

Definition iptables_exists (args : list string) : io string bool :=
  let! out := lift_err (λ e, "iptables " +:+ join " " args +:+ ": " +:+ message e) (iptables_output args) in
  if success out then ret true else
  if iptables_rule_is_absent (stderr out) then ret false
  else throw ("iptables " +:+ join " " args +:+ " probe failed: " +:+ trim (stderr out)).

Definition dump_named_chain (chain : string) : io string string :=
  let! out := lift_err (λ e, "iptables -S " +:+ chain +:+ ": " +:+ message e)
                (iptables_output ["-S"; chain]) in
  if negb (success out) then
    throw ("iptables -S " +:+ chain +:+ " failed: " +:+ trim (stderr out))
  else ret (stdout out).

Definition dump_forward : io string string := dump_named_chain FWD_CHAIN.
Definition dump_clone_forward : io string string := dump_named_chain VETH_FWD_CHAIN.
Definition dump_input : io string string := dump_named_chain INPUT_CHAIN.

Definition dump_clone_substrate : io string (string * string * string) :=
  let! host := dump_named_chain HOST_FWD_CHAIN in
  let! flat := dump_forward in
  let! veth := dump_clone_forward in
  ret (host, flat, veth).

Definition dump_verified_clone_substrate : io string (string * string * string) :=
  let! dumps := dump_clone_substrate in
  let '(host, flat, veth) := dumps in
  if clone_forwarding_substrate host flat veth then ret dumps
  else throw "clone forwarding substrate is not the exact FORWARD -> ROOMS_FWD fallthrough -> ROOMS_VETH_FWD path".

(** [for rule in rules { run_iptables(&rule)? }] *)
Fixpoint run_rules (rules : list (list string)) : io string unit :=
  match rules with
  | [] => ret ()
  | rule :: rules => do! run_iptables rule in run_rules rules
  end.

Definition remove_checked_locked (tap : string) : io string unit :=
  match chain_for_tap tap with
  | None => ret ()
  | Some chain =>
      do! while_io fuel (iptables_exists (input_drop_rule "-C" tap)) (run_iptables (input_drop_rule "-D" tap)) in
      let! present := iptables_exists ["-S"; chain] in
      if present then
        do! while_io fuel (iptables_exists (jump_args "-C" tap chain)) (run_iptables (jump_args "-D" tap chain)) in
        do! run_iptables ["-F"; chain] in
        run_iptables ["-X"; chain]
      else ret ()
  end.

Definition remove_checked (tap : string) : io string unit :=
  do! lock_transaction in remove_checked_locked tap.

(** The error is logged. *)
Definition remove (tap : string) : io infallible unit :=
  let! _ := attempt (remove_checked tap) in ret ().

Definition install_locked (tap : string) (plan : Plan) : io string unit :=
  if negb (enforces plan) then ret () else
  let! chain := of_result (ok_or (chain_for_tap tap) ("not a pool tap: '" +:+ tap +:+ "'")) in
  let! _ := attempt (remove_checked_locked tap) in
  let! dump := dump_forward in
  let! out := of_result (ok_or (out_iface dump)
    (FWD_CHAIN +:+ " has no supernet egress ACCEPT; run setup-tap.sh --host")) in
  let! pos := of_result (ok_or (insert_position dump)
    (FWD_CHAIN +:+ ": cannot locate the egress ACCEPT to place the jump")) in
  do! run_iptables ["-N"; chain] in
  do! run_rules (subchain_rules chain out (permitted plan)) in
  do! run_iptables (jump_rule pos tap chain) in
  match plan with
  | PlanNone => run_iptables (input_drop_insert_rule tap)
  | _ => ret ()
  end.

Definition install (tap : string) (plan : Plan) : io string unit :=
  do! lock_transaction in install_locked tap plan.

Definition not_canonical (veth : string) : string := "not a canonical clone veth: '" +:+ veth +:+ "'".

Definition remove_clone_checked_locked (veth : string) : io string unit :=
  let! chain := of_result (ok_or (clone_chain_for_veth veth) (not_canonical veth)) in
  do! while_io fuel (iptables_exists (input_drop_rule "-C" veth)) (run_iptables (input_drop_rule "-D" veth)) in
  let! present := iptables_exists ["-S"; chain] in
  if negb present then ret () else
  let! jump_check := of_result (ok_or (clone_jump_args "-C" veth) (not_canonical veth)) in
  let! jump_delete := of_result (ok_or (clone_jump_args "-D" veth) (not_canonical veth)) in
  do! while_io fuel (iptables_exists jump_check) (run_iptables jump_delete) in
  do! run_iptables ["-F"; chain] in
  run_iptables ["-X"; chain].

Definition remove_clone_checked (veth : string) : io string unit :=
  do! lock_transaction in remove_clone_checked_locked veth.

Definition remove_clone (veth : string) : io infallible unit :=
  let! _ := attempt (remove_clone_checked veth) in ret ().

Definition no_source_binding (veth : string) : string :=
  "clone forwarding substrate lacks the exact source binding for " +:+ veth.

Definition verify_clone_locked (veth : string) (plan : Plan) : io string unit :=
  let! chain := of_result (ok_or (clone_chain_for_veth veth) (not_canonical veth)) in
  let! dumps := dump_verified_clone_substrate in
  let '(_, _, veth_dump) := dumps in
  if negb (clone_source_binding_present veth_dump veth) then throw (no_source_binding veth) else
  if negb (enforces plan) then
    let! input := dump_input in
    if negb (clone_observe_unenforced veth veth_dump input) then
      throw ("observe-mode clone " +:+ veth +:+ " still has stale enforcing firewall state")
    else ret ()
  else
    let! out := of_result (ok_or (clone_out_iface veth_dump)
      (VETH_FWD_CHAIN +:+ " is malformed or lacks its upstream egress ACCEPT")) in
    let! eg_dump := dump_named_chain chain in
    let! input_dump := dump_input in
    if clone_egress_enforced veth out veth_dump eg_dump input_dump plan then ret ()
    else throw ("clone egress for " +:+ veth +:+ " is not enforced by the live iptables state").

Definition verify_clone (veth : string) (plan : Plan) : io string unit :=
  do! lock_transaction in verify_clone_locked veth plan.

Definition install_clone_fresh (veth chain : string) (plan : Plan) : io string unit :=
  let! dumps := dump_verified_clone_substrate in
  let '(_, _, veth_dump) := dumps in
  if negb (clone_source_binding_present veth_dump veth) then throw (no_source_binding veth) else
  let! out := of_result (ok_or (clone_out_iface veth_dump)
    (VETH_FWD_CHAIN +:+ " is malformed or lacks its upstream egress ACCEPT")) in
  let! position := of_result (ok_or (clone_insert_position veth_dump)
    (VETH_FWD_CHAIN +:+ ": cannot locate the clone-egress insertion point")) in
  do! run_iptables ["-N"; chain] in
  do! run_rules (subchain_rules chain out (permitted plan)) in
  let! jump := of_result (ok_or (clone_jump_rule position veth)
    ("invalid clone jump identity for '" +:+ veth +:+ "'")) in
  do! run_iptables jump in
  do! match plan with
      | PlanNone => run_iptables (input_drop_insert_rule veth)
      | _ => ret ()
      end in
  verify_clone_locked veth plan.

Definition install_clone_locked (veth : string) (plan : Plan) : io string unit :=
  let! chain := of_result (ok_or (clone_chain_for_veth veth) (not_canonical veth)) in
  do! remove_clone_checked_locked veth in
  if negb (enforces plan) then verify_clone_locked veth plan else
  let! result := attempt (install_clone_fresh veth chain plan) in
  match result with
  | Ok _ => ret ()
  | Err install_error =>
      let! cleaned := attempt (remove_clone_checked_locked veth) in
      match cleaned with
      | Ok _ => throw install_error
      | Err cleanup_error =>
          throw (install_error +:+ "; exact clone-egress cleanup also failed: " +:+ cleanup_error)
      end
  end.

Definition install_clone (veth : string) (plan : Plan) : io string unit :=
  do! lock_transaction in install_clone_locked veth plan.

End host.

(** ** Parsing: the accepted policies *)

(** The text of a destination, and when it is one. *)
Definition dest_text (d : Dest) : string :=
  match d with DestHost t | DestCidr t => t end.

Definition is_prefix_text (s : string) : bool :=
  match parse_uint u8_max s with Some p => (p <=? 32)%N | None => false end.

Definition is_cidr_text (t : string) : bool :=
  match split_once "/" t with
  | Some (addr, prefix) => bool_decide (is_Some (parse_ipv4 addr)) && is_prefix_text prefix
  | None => false
  end.

Definition dest_ok (d : Dest) : bool :=
  match d with
  | DestHost t => negb (contains_byte "/" t) && bool_decide (parse_ipv4 t = None)
  | DestCidr t => if contains_byte "/" t then is_cidr_text t else bool_decide (is_Some (parse_ipv4 t))
  end.

Lemma parse_dest_spec t d : parse_dest t = Ok d ↔ dest_text d = t ∧ dest_ok d = true.
Proof.
  unfold parse_dest, validate_cidr, dest_ok, is_cidr_text, is_prefix_text.
  destruct (contains_byte "/" t) eqn:Hs.
  - destruct (split_once "/" t) as [[addr prefix]|] eqn:Hsp; cbn [rbind].
    2: { split; [done|]. destruct d; simpl; intros [-> H]; rewrite Hs in H; [done|]. by rewrite Hsp in H. }
    case_bool_decide as Ha; cbn [negb rbind].
    2: { split; [done|]. destruct d; simpl; intros [-> H]; rewrite Hs in H; [done|]. rewrite Hsp in H.
         by rewrite bool_decide_eq_false_2 in H. }
    destruct (match parse_uint u8_max prefix with Some p => (p <=? 32)%N | None => false end) eqn:Hp;
      cbn [negb rbind].
    + split; [intros [= <-]; simpl; rewrite Hs, Hsp, bool_decide_eq_true_2, Hp by done; done|].
      destruct d; simpl; intros [-> H]; [by rewrite Hs in H|done].
    + split; [done|]. destruct d; simpl; intros [-> H]; rewrite Hs in H; [done|]. rewrite Hsp, Hp in H.
      by rewrite andb_false_r in H.
  - case_bool_decide as Ha.
    + split; [intros [= <-]; simpl; by rewrite Hs, bool_decide_eq_true_2|].
      destruct d; simpl; intros [-> H]; [|done]. rewrite Hs in H. apply bool_decide_eq_true in H. rewrite H in Ha. by destruct Ha.
    + split; [intros [= <-]; simpl; rewrite Hs; split; [done|]; apply bool_decide_eq_true;
              by apply eq_None_not_Some|].
      destruct d; simpl; intros [-> H]; [done|]. rewrite Hs in H. by apply bool_decide_eq_true in H.
Qed.

Lemma parse_entries_spec es ds :
  parse_entries es = Ok ds ↔
  dest_text <$> ds = trim <$> es ∧ Forall (λ d, dest_ok d = true ∧ dest_text d ≠ "") ds.
Proof.
  revert ds; induction es as [|e es IH]; intros ds; simpl.
  - split; [intros [= <-]; done|]. intros [H _]. by destruct ds.
  - destruct (is_empty (trim e)) eqn:He.
    { split; [done|]. intros [H Hf]. destruct ds as [|d ds]; [done|]. simpl in H. injection H as Hd _.
      apply Forall_cons in Hf as [[_ Hne] _]. rewrite Hd in Hne. by destruct (trim e). }
    destruct (parse_dest (trim e)) as [d|] eqn:Hd; cbn [rbind].
    + apply parse_dest_spec in Hd as [Hd Hok].
      destruct (parse_entries es) as [ds'|] eqn:Hes; cbn [rbind].
      * pose proof (proj1 (IH ds') eq_refl) as [H1 H2]. split.
        -- intros [= <-]. rewrite !fmap_cons, Hd, H1. split; [done|]. constructor; [|done]. split; [done|].
           rewrite Hd. intros E. by rewrite E in He.
        -- intros [H Hf]. destruct ds as [|d0 ds]; [done|]. rewrite !fmap_cons in H. injection H as Hd0 Hds.
           apply Forall_cons in Hf as [[Hok0 _] Hf].
           assert (Hp0 : parse_dest (trim e) = Ok d0) by (apply parse_dest_spec; done).
           assert (Hp : parse_dest (trim e) = Ok d) by (apply parse_dest_spec; done).
           assert (Ok (E:=string) ds' = Ok ds) by (by apply IH). congruence.
      * split; [done|]. intros [H Hf]. destruct ds as [|d0 ds]; [done|]. rewrite !fmap_cons in H. injection H as Hd0 Hds.
        apply Forall_cons in Hf as [_ Hf]. assert (Err e0 = Ok ds) by (by apply IH). done.
    + split; [done|]. intros [H Hf]. destruct ds as [|d0 ds]; [done|]. rewrite !fmap_cons in H. injection H as Hd0 _.
      apply Forall_cons in Hf as [[Hok0 _] _].
      assert (parse_dest (trim e) = Ok d0) by (apply parse_dest_spec; done). congruence.
Qed.

(** The accepted [--egress] values, completely: [none], or [allowlist:]
    followed by a comma-separated list whose entries, trimmed, are non-empty and
    each an IPv4 address, an IPv4 network with a prefix in 0..=32, or a name
    without a slash; every entry is kept, in order, and nothing parses as
    observe. *)
Theorem parse_spec value policy :
  parse value = Ok policy ↔
  match policy with
  | PolicyObserve => False
  | PolicyNone => trim value = "none"
  | PolicyAllowlist ds => ∃ rest, trim value = "allowlist:" +:+ rest ∧
      dest_text <$> ds = trim <$> split_byte "," rest ∧
      Forall (λ d, dest_ok d = true ∧ dest_text d ≠ "") ds
  end.
Proof.
  unfold parse. destruct (String.eqb_spec (trim value) "none") as [E|E].
  - rewrite E. split; [by intros [= <-]|]. destruct policy; [done|done|]. by intros (rest & [=] & _).
  - destruct (strip_prefix "allowlist:" (trim value)) as [rest|] eqn:Hp.
    + apply strip_prefix_Some in Hp. unfold parse_allowlist.
      destruct (parse_entries (split_byte "," rest)) as [ds|] eqn:Hes; simpl.
      * pose proof (proj1 (parse_entries_spec _ _) Hes) as Hspec. split.
        -- intros [= <-]. by exists rest.
        -- destruct policy as [| |ds']; [done|done|]. intros (rest' & Hr & Hds). rewrite Hp in Hr.
           apply (inj (String.append "allowlist:")) in Hr as <-.
           apply parse_entries_spec in Hds. congruence.
      * split; [done|]. destruct policy as [| |ds']; [done|done|]. intros (rest' & Hr & Hds). rewrite Hp in Hr.
        apply (inj (String.append "allowlist:")) in Hr as <-.
        apply parse_entries_spec in Hds. congruence.
    + split; [done|]. destruct policy as [| |ds']; [done|done|]. intros (rest' & Hr & Hds).
      by rewrite Hr, strip_prefix_app in Hp.
Qed.

(** ** The flat jump lands where it must *)

(** Listing of a chain after [iptables -I <chain> <rank> <rule>]: the new line
    comes before the line that was the chain's [rank]-th rule. *)
Fixpoint insert_at_rank (rank : nat) (is_rule : string → bool) (new : string) (ls : list string)
    : list string :=
  match ls with
  | [] => [new]
  | l :: ls =>
      if is_rule l then
        match rank with
        | S (S _ as r) => l :: insert_at_rank r is_rule new ls
        | _ => new :: l :: ls
        end
      else l :: insert_at_rank rank is_rule new ls
  end.

Definition is_fwd_rule (line : string) : bool := starts_with (trim line) "-A ROOMS_FWD".

(** The line [iptables -S] prints for the tap's jump. *)
Definition jump_text (tap chain : string) : string :=
  "-A ROOMS_FWD -i " +:+ tap +:+ " -j " +:+ chain.

Lemma insert_rank_cut r ls pos new :
  insert_rank r ls = Some pos →
  ∃ pre accept post, ls = pre ++ accept :: post ∧ is_supernet_egress_accept (trim accept) = true ∧
    Forall (λ l, is_fwd_rule l = true → is_supernet_egress_accept (trim l) = false) pre ∧
    r < pos ∧ insert_at_rank (pos - r) is_fwd_rule new ls = pre ++ new :: accept :: post.
Proof.
  revert r; induction ls as [|l ls IH]; intros r; simpl; [done|]. unfold is_fwd_rule at 2.
  destruct (starts_with (trim l) "-A ROOMS_FWD") eqn:Hr; cbn [negb].
  - destruct (is_supernet_egress_accept (trim l)) eqn:Ha.
    + intros [= <-]. exists [], l, ls. splits; [done|done|constructor|lia|].
      replace (S r - r) with 1 by lia. done.
    + intros (pre & a & post & -> & Hacc & Hpre & Hlt & Hins)%IH. exists (l :: pre), a, post.
      splits; [done|done|by constructor|lia|].
      replace (pos - r) with (S (pos - S r)) by lia. destruct (pos - S r) eqn:E; [lia|].
      simpl. by rewrite Hins.
  - intros (pre & a & post & -> & Hacc & Hpre & Hlt & Hins)%IH. exists (l :: pre), a, post.
    splits; [done|done|constructor; [unfold is_fwd_rule; by rewrite Hr|done]|done|]. simpl. by rewrite Hins.
Qed.

Lemma chain_for_tap_Some tap chain :
  chain_for_tap tap = Some chain →
  ∃ s, tap = TAP_PREFIX +:+ s ∧ chain = EG_CHAIN_PREFIX +:+ s ∧ s ≠ "" ∧ all_bytes is_ascii_digit s = true.
Proof.
  unfold chain_for_tap. destruct (strip_prefix TAP_PREFIX tap) as [s|] eqn:E; [|done].
  apply strip_prefix_Some in E as ->. cbn [mbind option_bind].
  destruct (is_empty s || negb (all_bytes is_ascii_digit s)) eqn:Hs; [done|]. intros [= <-].
  boolify. exists s. splits; try done. by intros ->.
Qed.

Lemma digits_graphic s : all_bytes is_ascii_digit s = true → all_bytes graphic s = true.
Proof. apply all_bytes_impl. apply digit_graphic. Qed.

Lemma digits_lacks c s : all_bytes is_ascii_digit s = true → is_ascii_digit c = false → lacks c s = true.
Proof.
  intros Hs Hc. eapply all_bytes_impl; [|exact Hs]. intros a Ha.
  destruct (Ascii.eqb_spec a c) as [->|]; [congruence|done].
Qed.

Lemma jump_text_facts tap chain :
  chain_for_tap tap = Some chain →
  lacks "/" (jump_text tap chain) = true ∧ trim (jump_text tap chain) = jump_text tap chain.
Proof.
  intros (s & -> & -> & Hne & Hs)%chain_for_tap_Some. unfold jump_text. split.
  - by rewrite !lacks_app, !(digits_lacks "/" s).
  - destruct (str_last_inv s) as [->|(t & z & ->)]; [done|].
    assert (Hz : graphic z = true).
    { rewrite all_bytes_app in Hs. apply andb_true_iff in Hs as [_ Hs]. apply andb_true_iff in Hs as [Hs _].
      by apply digit_graphic. }
    match goal with |- trim ?x = _ => set (X := x) end.
    assert (EX : X = String "-" ("A ROOMS_FWD -i " +:+ (TAP_PREFIX +:+ t +:+ String z "") +:+ " -j " +:+
                     EG_CHAIN_PREFIX +:+ t) +:+ String z "").
    { unfold X. by repeat rewrite ?app_assoc, ?app_cons, ?app_nil_l. }
    rewrite EX. by apply trim_graphic.
Qed.

Lemma jump_text_matches tap chain :
  let padded := jump_text tap chain +:+ " " in
  contains padded ("-i " +:+ tap +:+ " ") && contains padded ("-j " +:+ chain +:+ " ") = true.
Proof.
  intros padded. unfold padded, jump_text. apply andb_true_iff. split; apply contains_true.
  - exists "-A ROOMS_FWD ", ("-j " +:+ chain +:+ " "). rewrite !app_assoc. done.
  - exists ("-A ROOMS_FWD -i " +:+ tap +:+ " "), "". rewrite !app_assoc. done.
Qed.

(** Splicing the tap's jump at the computed rank enforces the room's policy:
    on any listing of the flat chain that has the isolation DROP above its
    supernet egress ACCEPT and no jump of this tap, the listing after the
    insertion, with a sub-chain that ends in its DROP, passes the enforcement
    check: the jump is above the ACCEPT and below the isolation DROP. *)
Theorem insert_position_enforces tap chain out dump dump' eg_dump pos drop accept :
  chain_for_tap tap = Some chain →
  insert_position dump = Some pos →
  jump_line dump tap chain = None →
  line_of dump is_isolation_drop = Some drop →
  line_of dump is_supernet_egress_accept = Some accept →
  drop < accept →
  (∀ line, line ∈ lines dump → is_supernet_egress_accept (trim line) = true → is_fwd_rule line = true) →
  lines dump' = insert_at_rank pos is_fwd_rule (jump_text tap chain) (lines dump) →
  subchain_terminates_in_drop eg_dump out = true →
  room_egress_enforced tap out dump' eg_dump = true.
Proof.
  intros Htap Hpos Hjump Hdrop Haccept Hlt Hfwd Hlines Heg.
  destruct (insert_rank_cut 0 (lines dump) pos (jump_text tap chain) Hpos)
    as (pre & a & post & Hl & Hacc & Hpre & _ & Hins).
  rewrite Nat.sub_0_r in Hins. rewrite Hins in Hlines. clear Hins.
  destruct (jump_text_facts tap chain Htap) as [Hslash Htrim].
  assert (Hacc_idx : position (λ line, is_supernet_egress_accept (trim line)) pre = None).
  { apply position_None. intros l Hin. destruct (is_supernet_egress_accept (trim l)) eqn:E; [|done].
    rewrite Forall_forall in Hpre. specialize (Hpre l Hin). rewrite Hpre in E; [done|].
    apply Hfwd; [rewrite Hl; apply elem_of_app; by left|done]. }
  unfold line_of in Haccept, Hdrop. rewrite Hl, position_app_r in Haccept by done.
  simpl in Haccept. rewrite Hacc in Haccept. injection Haccept as <-.
  rewrite Hl in Hdrop.
  assert (Hdrop_pre : position (λ line, is_isolation_drop (trim line)) pre = Some drop).
  { destruct (position (λ line, is_isolation_drop (trim line)) pre) as [d|] eqn:E.
    - by rewrite (position_app_l _ _ _ _ E) in Hdrop.
    - rewrite position_app_r in Hdrop by done. destruct (position _ (a :: post)); [|done].
      injection Hdrop as <-. lia. }
  unfold room_egress_enforced. rewrite Htap. unfold jump_line, line_of. rewrite Hlines.
  unfold jump_line in Hjump. rewrite Hl in Hjump.
  rewrite (position_app_r _ pre); cycle 1.
  { apply position_None. intros l Hin. rewrite position_None in Hjump. apply Hjump.
    apply elem_of_app. by left. }
  rewrite (position_app_r _ pre) by done. rewrite (position_app_l _ pre _ _ Hdrop_pre).
  cbn [position]. rewrite Htrim. cbv zeta. rewrite jump_text_matches.
  assert (Hna : is_supernet_egress_accept (jump_text tap chain) = false).
  { unfold is_supernet_egress_accept. by rewrite (contains_lacks "/" (jump_text tap chain)). }
  rewrite Hna, Hacc. cbn [fmap option_fmap option_map]. rewrite Heg, andb_true_r.
  apply position_Some in Hdrop_pre as (x & Hx & _). apply lookup_lt_Some in Hx.
  apply andb_true_iff; split; apply Nat.ltb_lt; lia.
Qed.

Lemma insert_position_enforces_witness :
  let dump := dump_of ["-N ROOMS_FWD"; "-A ROOMS_FWD -s 172.16.0.0/24 -d 172.16.0.0/24 -j DROP";
    "-A ROOMS_FWD -s 172.16.0.0/24 -o eth0 -j ACCEPT"] in
  let dump' := dump_of ["-N ROOMS_FWD"; "-A ROOMS_FWD -s 172.16.0.0/24 -d 172.16.0.0/24 -j DROP";
    "-A ROOMS_FWD -i tap-fc5 -j ROOMS_EG_5"; "-A ROOMS_FWD -s 172.16.0.0/24 -o eth0 -j ACCEPT"] in
  room_egress_enforced "tap-fc5" "eth0" dump'
    (dump_of ["-N ROOMS_EG_5"; "-A ROOMS_EG_5 -o eth0 -j DROP"]) = true.
Proof.
  intros dump dump'.
  apply (insert_position_enforces "tap-fc5" "ROOMS_EG_5" "eth0" dump dump' _ 2 1 2);
    try (vm_compute; reflexivity).
  - change (lines dump) with ["-N ROOMS_FWD"; "-A ROOMS_FWD -s 172.16.0.0/24 -d 172.16.0.0/24 -j DROP";
      "-A ROOMS_FWD -s 172.16.0.0/24 -o eth0 -j ACCEPT"].
    intros line Hl. repeat (apply elem_of_cons in Hl as [->|Hl]; [vm_compute; done|]).
    by apply not_elem_of_nil in Hl.
Defined.

(** ** The clone jump keeps the chain's grammar *)

Lemma take_bindings_complete bs pre rest new :
  (per_veth_source_index <$> pre) = Some <$> new → NoDup (bs ++ new) →
  match rest with l :: _ => per_veth_source_index l = None | [] => True end →
  take_bindings bs (pre ++ rest) = Some (bs ++ new, rest).
Proof.
  revert bs new; induction pre as [|l pre IH]; intros bs new Hpre Hnd Hrest.
  - destruct new; [|done]. rewrite (right_id_L [] (++)). destruct rest; simpl; [done|]. by rewrite Hrest.
  - destruct new as [|k new]; [done|]. rewrite !fmap_cons in Hpre. injection Hpre as Hl Hpre. simpl. rewrite Hl.
    assert (Hk : k ∉ bs).
    { apply NoDup_app in Hnd as (_ & Hd & _). intros Hk. apply (Hd k Hk). by left. }
    rewrite bool_decide_eq_false_2 by done. rewrite (IH (bs ++ [k]) new); try done;
      by rewrite <- (assoc_L (++)).
Qed.

Lemma take_bindings_inv bs rules bs' rest :
  NoDup bs → take_bindings bs rules = Some (bs', rest) →
  ∃ pre new, rules = pre ++ rest ∧ (per_veth_source_index <$> pre) = Some <$> new ∧ bs' = bs ++ new ∧
    NoDup bs' ∧ match rest with l :: _ => per_veth_source_index l = None | [] => True end.
Proof.
  revert bs; induction rules as [|l rules IH]; intros bs Hnd; simpl.
  - intros [= <- <-]. exists [], []. splits; try done; by rewrite (right_id_L [] (++)).
  - destruct (per_veth_source_index l) as [k|] eqn:E.
    + case_bool_decide as Hk; [done|]. intros H. apply IH in H as (pre & new & -> & Hpre & -> & Hnd' & Hr).
      * exists (l :: pre), (k :: new). rewrite !fmap_cons, E, Hpre, <- (assoc_L (++)). simpl.
        splits; try done. by rewrite <- (assoc_L (++)) in Hnd'.
      * apply NoDup_app. split; [done|]. split; [|by apply NoDup_singleton].
        intros x Hx ->%list_elem_of_singleton. done.
    + intros [= <- <-]. exists [], []. splits; try done; by rewrite (right_id_L [] (++)).
Qed.

Lemma take_jumps_complete bs js mid rest new :
  (clone_egress_jump_index <$> mid) = Some <$> new → NoDup (js ++ new) → Forall (λ k, k ∈ bs) new →
  match rest with l :: _ => clone_egress_jump_index l = None | [] => True end →
  take_jumps bs js (mid ++ rest) = Some (js ++ new, rest).
Proof.
  revert js new; induction mid as [|l mid IH]; intros js new Hmid Hnd Hbs Hrest.
  - destruct new; [|done]. rewrite (right_id_L [] (++)). destruct rest; simpl; [done|]. by rewrite Hrest.
  - destruct new as [|k new]; [done|]. rewrite !fmap_cons in Hmid. injection Hmid as Hl Hmid. simpl. rewrite Hl.
    apply Forall_cons in Hbs as [Hkb Hbs].
    assert (Hk : k ∉ js).
    { apply NoDup_app in Hnd as (_ & Hd & _). intros Hk. apply (Hd k Hk). by left. }
    rewrite bool_decide_eq_false_2, bool_decide_eq_true_2 by done. cbn [negb orb].
    rewrite (IH (js ++ [k]) new); try done; by rewrite <- (assoc_L (++)).
Qed.

Lemma take_jumps_inv bs js rules js' rest :
  NoDup js → take_jumps bs js rules = Some (js', rest) →
  ∃ mid new, rules = mid ++ rest ∧ (clone_egress_jump_index <$> mid) = Some <$> new ∧ js' = js ++ new ∧
    NoDup js' ∧ Forall (λ k, k ∈ bs) new ∧
    match rest with l :: _ => clone_egress_jump_index l = None | [] => True end.
Proof.
  revert js; induction rules as [|l rules IH]; intros js Hnd; simpl.
  - intros [= <- <-]. exists [], []. splits; try done; by rewrite (right_id_L [] (++)).
  - destruct (clone_egress_jump_index l) as [k|] eqn:E.
    + destruct (bool_decide (k ∈ js) || negb (bool_decide (k ∈ bs))) eqn:Hk; [done|].
      apply orb_false_iff in Hk as [Hk Hkb]. rewrite negb_false_iff in Hkb.
      apply bool_decide_eq_false in Hk. apply bool_decide_eq_true in Hkb.
      intros H. apply IH in H as (mid & new & -> & Hmid & -> & Hnd' & Hb & Hr).
      * exists (l :: mid), (k :: new). rewrite !fmap_cons, E, Hmid, <- (assoc_L (++)). simpl.
        splits; try done; [by rewrite <- (assoc_L (++)) in Hnd'|by constructor].
      * apply NoDup_app. split; [done|]. split; [|by apply NoDup_singleton].
        intros x Hx ->%list_elem_of_singleton. done.
    + intros [= <- <-]. exists [], []. splits; try done; by rewrite (right_id_L [] (++)).
Qed.

(** The grammar of the shared chain: source bindings, the fixed DROP prefix,
    clone jumps, and the three closing rules. *)
Record veth_chain (rules : list string) (bs js : list N) (pre mid tail : list string) : Prop := {
  vc_rules : rules = pre ++ fixed_prefix ++ mid ++ tail;
  vc_bindings : (per_veth_source_index <$> pre) = Some <$> bs;
  vc_bindings_nodup : NoDup bs;
  vc_jumps : (clone_egress_jump_index <$> mid) = Some <$> js;
  vc_jumps_nodup : NoDup js;
  vc_jumps_bound : Forall (λ k, k ∈ bs) js;
  vc_tail : tail_ok tail = true
}.

Lemma tail_head tail :
  tail_ok tail = true → ∃ e t, tail = e :: t ∧ clone_egress_jump_index e = None ∧
    ∃ i, egress_interface e = Some i.
Proof.
  destruct tail as [|e [|r [|d []]]]; try done. simpl. destruct (egress_interface e) as [i|] eqn:E; [|done].
  intros _. exists e, [r; d]. splits; [done| |by exists i].
  unfold egress_interface in E. unfold clone_egress_jump_index.
  by destruct (split_whitespace e) as [|t1 [|t2 [|t3 [|t4 [|t5 [|t6 [|]]]]]]].
Qed.

Lemma rules_isolate_iff rules :
  rules_isolate rules = true ↔ ∃ bs js pre mid tail, veth_chain rules bs js pre mid tail.
Proof.
  unfold rules_isolate. split.
  - destruct (take_bindings [] rules) as [[bs rest]|] eqn:Hb; [|done].
    apply take_bindings_inv in Hb as (pre & new & -> & Hpre & Hbs & Hnd & _); [|constructor].
    simpl in Hbs. subst new. intros [Hfix H]%andb_true_iff. apply bool_decide_eq_true in Hfix.
    destruct (take_jumps bs [] (drop 5 rest)) as [[js tail]|] eqn:Hj; [|done].
    apply take_jumps_inv in Hj as (mid & new & Hd & Hmid & Hjs & Hnd' & Hin & _); [|constructor].
    simpl in Hjs. subst new. exists bs, js, pre, mid, tail. split; try done.
    by rewrite <- Hfix, <- Hd, take_drop.
  - intros (bs & js & pre & mid & tail & [-> Hpre Hnd Hmid Hnd' Hin Ht]).
    rewrite (take_bindings_complete [] pre _ bs); [|done|done|done]. simpl app at 1.
    change (take 5 _) with fixed_prefix. rewrite bool_decide_eq_true_2 by done. cbn [andb].
    change (drop 5 _) with (mid ++ tail).
    destruct (tail_head tail Ht) as (e & t & -> & He & _).
    by rewrite (take_jumps_complete bs [] mid _ js).
Qed.

Lemma source_not_insertion l : is_Some (per_veth_source_index l) → clone_insertion_point l = false.
Proof.
  unfold clone_insertion_point, per_veth_source_index, clone_egress_jump_index, veth_egress_interface.
  intros [k Hk].
  by destruct (split_whitespace l) as [|t1 [|t2 [|t3 [|t4 [|t5 [|t6 [|t7 [|t8 [|t9 [|]]]]]]]]]].
Qed.

Lemma fixed_not_insertion : Forall (λ l, clone_insertion_point l = false) fixed_prefix.
Proof. by repeat constructor. Qed.

Lemma Forall_is_Some {A B} (f : A → option B) pre bs :
  f <$> pre = Some <$> bs → Forall (λ l, is_Some (f l)) pre.
Proof.
  revert bs; induction pre as [|l pre IH]; intros bs H; [constructor|].
  destruct bs as [|b bs]; [done|]. rewrite !fmap_cons in H. injection H as Hl H.
  constructor; [by exists b|by eapply IH].
Qed.

Lemma insertion_index rules bs js pre mid tail :
  veth_chain rules bs js pre mid tail →
  position clone_insertion_point rules = Some (length (pre ++ fixed_prefix)).
Proof.
  intros [-> Hpre _ Hmid _ _ Ht]. rewrite (assoc_L (++)).
  rewrite position_app_r; [|apply position_None; intros l Hl].
  - destruct (tail_head tail Ht) as (e & t & -> & _ & i & He).
    assert (Hee : clone_insertion_point e = true).
    { unfold clone_insertion_point. apply orb_true_iff. right. apply bool_decide_eq_true. by exists i. }
    assert (E : position clone_insertion_point (mid ++ e :: t) = Some 0).
    { destruct mid as [|m mid]; simpl; [by rewrite Hee|]. destruct js as [|j js]; [done|].
      rewrite !fmap_cons in Hmid. injection Hmid as Hm _.
      assert (clone_insertion_point m = true) as ->; [|done].
      unfold clone_insertion_point. rewrite Hm. done. }
    rewrite E. simpl. f_equal. lia.
  - apply elem_of_app in Hl as [Hl|Hl].
    + apply source_not_insertion. pose proof (Forall_is_Some _ _ _ Hpre) as Hf.
      rewrite Forall_forall in Hf. by apply Hf.
    + pose proof fixed_not_insertion as Hf. rewrite Forall_forall in Hf. by apply Hf.
Qed.

(** The line [iptables -S] prints for a clone's jump. *)
Definition clone_jump_text (k : N) : string :=
  join " " ["-A"; VETH_FWD_CHAIN; "-i"; CLONE_VETH_PREFIX +:+ show_N k; "-j"; clone_egress_chain k].

Lemma prefix_show_word p k : is_word p = true → is_word (p +:+ show_N k) = true.
Proof.
  intros [Hne Hp]%is_word_spec. apply is_word_spec. split; [destruct p; [done|]; by rewrite app_cons|].
  rewrite all_bytes_app, Hp. by destruct (is_word_spec (show_N k)) as [[_ ->] _]; [apply show_N_word|].
Qed.

Lemma clone_jump_text_tokens k :
  split_whitespace (clone_jump_text k) =
    ["-A"; VETH_FWD_CHAIN; "-i"; CLONE_VETH_PREFIX +:+ show_N k; "-j"; clone_egress_chain k].
Proof.
  apply split_whitespace_join. repeat constructor. all: try done; by apply prefix_show_word.
Qed.

Lemma clone_jump_text_index k :
  (1 ≤ k ≤ MAX_CLONE_VETH_INDEX)%N → clone_egress_jump_index (clone_jump_text k) = Some k.
Proof.
  intros Hk. unfold clone_egress_jump_index. rewrite clone_jump_text_tokens.
  rewrite bool_decide_eq_true_2 by done. rewrite clone_veth_index_self by done.
  cbn [mbind option_bind]. by rewrite bool_decide_eq_true_2.
Qed.

(** Adding a bound clone's jump at the insertion point keeps the grammar. *)
Lemma veth_chain_insert rules bs js pre mid tail k :
  veth_chain rules bs js pre mid tail →
  (1 ≤ k ≤ MAX_CLONE_VETH_INDEX)%N → k ∈ bs → k ∉ js →
  veth_chain (take (length (pre ++ fixed_prefix)) rules ++ clone_jump_text k ::
              drop (length (pre ++ fixed_prefix)) rules)
    bs (k :: js) pre (clone_jump_text k :: mid) tail.
Proof.
  intros [-> Hpre Hnd Hmid Hnd' Hin Ht] Hk Hkb Hkj. split; try done.
  - rewrite (assoc_L (++)), take_app_length, drop_app_length. by rewrite <- (assoc_L (++)).
  - by rewrite !fmap_cons, clone_jump_text_index, Hmid.
  - by constructor.
  - by constructor.
Qed.

Lemma source_in_pre rules bs js pre mid tail r k :
  veth_chain rules bs js pre mid tail → r ∈ rules → per_veth_source_index r = Some k → k ∈ bs.
Proof.
  intros [-> Hpre _ Hmid _ _ Ht] Hr Hk.
  assert (Hnot : ¬ clone_insertion_point r = true).
  { rewrite source_not_insertion by eauto. done. }
  rewrite !elem_of_app in Hr. destruct Hr as [Hr|[Hr|[Hr|Hr]]].
  - apply list_elem_of_lookup in Hr as [i Hi]. apply (f_equal (.!! i)) in Hpre.
    rewrite !list_lookup_fmap, Hi in Hpre. simpl in Hpre. rewrite Hk in Hpre.
    destruct (bs !! i) as [b|] eqn:Hb; [|done]. simplify_eq/=. by eapply list_elem_of_lookup_2.
  - unfold fixed_prefix, PRIVATE_DROPS in Hr.
    repeat (apply elem_of_cons in Hr as [->|Hr]; [vm_compute in Hk; done|]). by apply not_elem_of_nil in Hr.
  - destruct Hnot. unfold clone_insertion_point. apply orb_true_iff. left. apply bool_decide_eq_true.
    pose proof (Forall_is_Some _ _ _ Hmid) as Hf. rewrite Forall_forall in Hf. by apply Hf.
  - destruct tail as [|e [|t [|d []]]]; try done. simpl in Ht.
    destruct (egress_interface e) as [x|] eqn:He; [|done]. destruct (return_interface t) as [y|] eqn:Hy; [|done].
    apply andb_true_iff in Ht as [_ Hd]. apply String.eqb_eq in Hd as ->.
    apply elem_of_cons in Hr as [->|Hr]; [|apply elem_of_cons in Hr as [->|Hr]].
    + destruct Hnot. unfold clone_insertion_point. apply orb_true_iff. right. apply bool_decide_eq_true. by exists x.
    + unfold return_interface in Hy. unfold per_veth_source_index in Hk.
      by destruct (split_whitespace t) as [|t1 [|t2 [|t3 [|t4 [|t5 [|t6 [|t7 [|t8 [|t9 [|]]]]]]]]]].
    + apply list_elem_of_singleton in Hr as ->. vm_compute in Hk. done.
Qed.

Lemma find_map_skip {A B} (f : A → option B) l x l' :
  f x = None → find_map f (l ++ x :: l') = find_map f (l ++ l').
Proof. intros Hx. induction l as [|y l IH]; simpl; [by rewrite Hx|]. by rewrite IH. Qed.

Lemma length_filter_zero {A} (P : A → Prop) `{∀ x, Decision (P x)} l :
  length (filter P l) = 0 → Forall (λ x, ¬ P x) l.
Proof.
  induction l as [|x l IH]; [constructor|]. rewrite filter_cons. case_decide; [done|]. intros Hl.
  constructor; [done|]. by apply IH.
Qed.

Lemma jump_text_rule k : starts_with (clone_jump_text k) "-A ROOMS_VETH_FWD " = true.
Proof.
  apply starts_with_true. exists (join " " ["-i"; CLONE_VETH_PREFIX +:+ show_N k; "-j"; clone_egress_chain k]).
  done.
Qed.

(** C26.  Installing a clone's policy establishes it: when the shared chain passes
    its grammar check, binds the clone's source and has no jump of the clone, the
    listing after inserting the jump at the computed rank, together with a
    sub-chain that is the plan's and, for [none], the INPUT drop, passes the
    complete enforcement check the restore path relies on. *)
Theorem clone_insert_enforces veth k out veth_dump veth_dump' before after eg_dump input_dump plan pos r :
  clone_veth_index veth = Some k →
  clone_insert_position veth_dump = Some pos →
  clone_out_iface veth_dump = Some out →
  r ∈ veth_rules veth_dump → per_veth_source_index r = Some k →
  clone_jump_count veth_dump k = 0 →
  trim <$> lines veth_dump = before ++ after →
  S (length (filter (λ l, starts_with l "-A ROOMS_VETH_FWD " = true) before)) = pos →
  trim <$> lines veth_dump' = before ++ clone_jump_text k :: after →
  enforces plan = true →
  clone_subchain_matches_plan (clone_egress_chain k) out eg_dump plan = true →
  (plan = PlanNone → veth_input_drop_present input_dump veth = true) →
  clone_egress_enforced veth out veth_dump' eg_dump input_dump plan = true.
Proof.
  intros Hv Hpos Hout Hr Hrk Hcnt Hl Hrank Hl' Hen Hsub Hin.
  pose proof (proj1 (clone_veth_index_spec _ _) Hv) as [Hk _].
  unfold clone_insert_position in Hpos. destruct (rooms_veth_fwd_isolates veth_dump) eqn:Hiso; [|done].
  cbn [negb] in Hpos. pose proof Hiso as (bs & js & pre & mid & tail & Hc)%rules_isolate_iff.
  rewrite (insertion_index _ _ _ _ _ _ Hc) in Hpos. injection Hpos as <-. injection Hrank as Hrank.
  set (isr := λ l, starts_with l "-A ROOMS_VETH_FWD " = true) in *.
  assert (Hrules : veth_rules veth_dump = filter isr before ++ filter isr after).
  { unfold veth_rules. by rewrite Hl, filter_app. }
  assert (Hrules' : veth_rules veth_dump' = filter isr before ++ clone_jump_text k :: filter isr after).
  { unfold veth_rules. rewrite Hl', filter_app, filter_cons_True by apply jump_text_rule. done. }
  assert (Hnone : Forall (λ l, clone_egress_jump_index l ≠ Some k) (before ++ after)).
  { unfold clone_jump_count in Hcnt. rewrite Hl in Hcnt. apply length_filter_zero in Hcnt.
    rewrite Forall_forall in Hcnt. apply Forall_forall. intros l Hin' E. apply (Hcnt k); [|done].
    apply list_elem_of_omap. eauto. }
  assert (Hkj : k ∉ js).
  { intros Hj. destruct Hc as [Hc _ _ Hmid _ _ _]. apply list_elem_of_lookup in Hj as [i Hi].
    apply (f_equal (.!! i)) in Hmid. rewrite !list_lookup_fmap, Hi in Hmid. simpl in Hmid.
    destruct (mid !! i) as [m|] eqn:Hm; [|done]. simpl in Hmid. injection Hmid as Hmid.
    rewrite Forall_forall in Hnone. apply (Hnone m); [|done].
    assert (Hmr : m ∈ veth_rules veth_dump).
    { rewrite Hc, !elem_of_app. right; right; left. by eapply list_elem_of_lookup_2. }
    unfold veth_rules in Hmr. apply list_elem_of_filter in Hmr as [_ Hmr]. by rewrite Hl in Hmr. }
  assert (Hkb : k ∈ bs) by (by eapply source_in_pre).
  pose proof (veth_chain_insert _ _ _ _ _ _ _ Hc Hk Hkb Hkj) as Hc'.
  rewrite <- Hrank, Hrules, take_app_length, drop_app_length, <- Hrules' in Hc'.
  assert (Hiso' : rooms_veth_fwd_isolates veth_dump' = true) by (apply rules_isolate_iff; eauto 10).
  unfold clone_egress_enforced. rewrite Hen, Hiso', Hv. cbn [negb orb].
  assert (Hout' : clone_out_iface veth_dump' = Some out).
  { unfold clone_out_iface in *. rewrite Hiso' in *. rewrite Hiso in Hout. cbn [negb] in *.
    rewrite Hl', find_map_skip, <- Hl; [done|]. unfold veth_egress_interface.
    by rewrite clone_jump_text_tokens. }
  rewrite bool_decide_eq_true_2 by done. cbn [negb].
  assert (Hcnt' : clone_jump_count veth_dump' k = 1).
  { unfold clone_jump_count in *. rewrite Hl in Hcnt. rewrite Hl', omap_app, omap_cons_eq, clone_jump_text_index by done.
    rewrite omap_app, filter_app, length_app in Hcnt.
    rewrite filter_app, filter_cons_True, length_app by done. simpl. lia. }
  rewrite Hcnt', Hsub. cbn [Nat.eqb negb orb]. destruct plan; [done|by apply Hin|done].
Qed.

Lemma clone_insert_enforces_witness :
  let before := ["-N ROOMS_VETH_FWD"; "-A ROOMS_VETH_FWD ! -s 172.17.0.14/32 -i veth-h3 -j DROP"] ++ fixed_prefix in
  let after := ["-A ROOMS_VETH_FWD -s 172.17.0.0/24 -o eth0 -j ACCEPT";
    "-A ROOMS_VETH_FWD -d 172.17.0.0/24 -i eth0 -m state --state RELATED,ESTABLISHED -j ACCEPT"; VETH_TAIL_DROP] in
  clone_egress_enforced "veth-h3" "eth0" (dump_of (before ++ clone_jump_text 3 :: after))
    (dump_of ["-N ROOMS_CEG_3"; "-A ROOMS_CEG_3 -d 1.1.1.1/32 -o eth0 -j ACCEPT";
              "-A ROOMS_CEG_3 -o eth0 -j LOG --log-prefix rooms-egress-drop:3";
              "-A ROOMS_CEG_3 -o eth0 -j DROP"]) "" (PlanAllowlist ["1.1.1.1"]) = true.
Proof.
  intros before after.
  apply (clone_insert_enforces "veth-h3" 3 "eth0" (dump_of (before ++ after)) _ before after _ _ _ 7
    "-A ROOMS_VETH_FWD ! -s 172.17.0.14/32 -i veth-h3 -j DROP"); try (vm_compute; reflexivity); [|done].
  left.
Defined.

(** ** A successful install has been proved live *)

(** What a successful proof has read and checked. *)
Definition proved_live `{Host} (veth : string) (plan : Plan) (w w' : world) : Prop :=
  ∃ k host flat veth_dump out eg_dump input_dump w1 w2,
    clone_veth_index veth = Some k ∧
    dump_clone_substrate w = (Done (Ok (host, flat, veth_dump)), w1) ∧
    clone_forwarding_substrate host flat veth_dump = true ∧
    clone_source_binding_present veth_dump veth = true ∧
    dump_named_chain (clone_egress_chain k) w1 = (Done (Ok eg_dump), w2) ∧
    dump_input w2 = (Done (Ok input_dump), w') ∧
    clone_egress_enforced veth out veth_dump eg_dump input_dump plan = true.

Lemma verify_clone_proves `{Host} veth plan w w' :
  enforces plan = true → verify_clone_locked veth plan w = (Done (Ok ()), w') →
  proved_live veth plan w w'.
Proof.
  intros Hen Hv. unfold verify_clone_locked, clone_chain_for_veth in Hv.
  apply bind_done in Hv as (chain & w0 & [Hc ->]%of_result_done & Hv).
  destruct (clone_veth_index veth) as [k|] eqn:Hk; [|done]. injection Hc as <-.
  apply bind_done in Hv as ([[host flat] vd] & w1 & Hd & Hv).
  apply bind_done in Hd as ([[host' flat'] vd'] & w1' & Hd & Hs).
  destruct (clone_forwarding_substrate host' flat' vd') eqn:Hsub; [|done]. injection Hs as -> -> -> ->.
  destruct (clone_source_binding_present vd veth) eqn:Hb; [|done]. rewrite Hen in Hv. cbn [negb] in Hv.
  apply bind_done in Hv as (out & w2 & [_ ->]%of_result_done & Hv).
  apply bind_done in Hv as (eg & w3 & Heg & Hv). apply bind_done in Hv as (inp & w4 & Hinp & Hv).
  destruct (clone_egress_enforced veth out vd eg inp plan) eqn:He; [|done]. injection Hv as <-.
  exists k, host, flat, vd, out, eg, inp, w1, w3. done.
Qed.

(** C27.  Installing fails closed: for an enforcing plan [install_clone] answers
    success only after reading the live chains back, with no mutation between
    that reading and its return, and finding the whole forwarding path, the
    clone's source binding and its policy in force, whatever the host's programs
    did. *)
Theorem install_clone_fails_closed `{Host} fuel veth plan w w' :
  enforces plan = true →
  install_clone fuel veth plan w = (Done (Ok ()), w') →
  ∃ w1, proved_live veth plan w1 w'.
Proof.
  intros Hen Hi. unfold install_clone in Hi. apply bind_done in Hi as (_ & w0 & _ & Hi).
  unfold install_clone_locked in Hi. apply bind_done in Hi as (chain & w2 & [_ ->]%of_result_done & Hi).
  apply bind_done in Hi as (_ & w3 & _ & Hi). rewrite Hen in Hi. cbn [negb] in Hi.
  apply bind_done in Hi as (r & w4 & Hr & Hi). apply attempt_done in Hr.
  destruct r as [[]|e]; [injection Hi as <-|].
  - unfold install_clone_fresh in Hr. apply bind_done in Hr as ([[host flat] vd] & w5 & _ & Hr).
    destruct (negb (clone_source_binding_present vd veth)); [done|].
    do 2 apply bind_done in Hr as (? & ? & _ & Hr). do 2 apply bind_done in Hr as (? & ? & _ & Hr).
    do 3 apply bind_done in Hr as (? & ? & _ & Hr).
    eexists. by eapply verify_clone_proves.
  - apply bind_done in Hi as (r & w5 & _ & Hi). by destruct r.
Qed.

(** A host, for witnesses: every rule probe misses, every change succeeds, and
    [iptables -S] lists the given chains. *)
Definition listing_host (chains : string → string) : Host := {|
  run_program := λ _ args, ret
    match args with
    | _ :: _ :: "-C" :: _ => {| success := false; stdout := ""; stderr := "iptables: Bad rule" |}
    | [_; _; "-S"; chain] => {| success := true; stdout := chains chain; stderr := "" |}
    | _ => {| success := true; stdout := ""; stderr := "" |}
    end;
  lock_transaction := ret ()
|}.

Definition sample_chains (chain : string) : string :=
  if (chain =? "FORWARD")%string then dump_of ["-P FORWARD ACCEPT"; FLAT_FORWARD_JUMP; VETH_INGRESS_JUMP; VETH_EGRESS_JUMP]
  else if (chain =? "ROOMS_FWD")%string then dump_of ["-N ROOMS_FWD"; ISOLATION_DROP]
  else if (chain =? "ROOMS_VETH_FWD")%string then
    dump_of (["-N ROOMS_VETH_FWD"; "-A ROOMS_VETH_FWD ! -s 172.17.0.14/32 -i veth-h3 -j DROP"] ++ fixed_prefix ++
      [clone_jump_text 3; "-A ROOMS_VETH_FWD -s 172.17.0.0/24 -o eth0 -j ACCEPT";
       "-A ROOMS_VETH_FWD -d 172.17.0.0/24 -i eth0 -m state --state RELATED,ESTABLISHED -j ACCEPT"; VETH_TAIL_DROP])
  else if (chain =? "ROOMS_CEG_3")%string then
    dump_of ["-N ROOMS_CEG_3"; "-A ROOMS_CEG_3 -d 1.1.1.1/32 -o eth0 -j ACCEPT";
             "-A ROOMS_CEG_3 -o eth0 -j LOG --log-prefix rooms-egress-drop:3"; "-A ROOMS_CEG_3 -o eth0 -j DROP"]
  else "".

Lemma install_clone_fails_closed_witness :
  let w := World ∅ [] in
  ∃ w1, @proved_live (listing_host sample_chains) "veth-h3" (PlanAllowlist ["1.1.1.1"]) w1 w.
Proof.
  intros w. apply (@install_clone_fails_closed (listing_host sample_chains) 1 "veth-h3"
    (PlanAllowlist ["1.1.1.1"]) w w).
  - reflexivity.
  - vm_compute. reflexivity.
Defined.
