(* ===== verification/CloneRoutes.v ===== *)
(** * CloneRoutes: the host checks before a clone network is made ([clonenet.rs])

    The identity derived from an index, the errors, and the preflight predicates
    over the text of [ip -4 rule show] and [ip -4 route show table all]. *)

From S2P Require Import Prelude RStr Fs Firewall Cidr.
From stdpp Require Import options.

Inductive CloneNetError :=
| CnePoolFull (cap : N)
| CneInvalidIndex (index max : N)
| CneTargetTaken (index : N)
| CneNotOwned (index : N) (owner_id : string)
| CneRouteOverlap (route : string)
| CnePolicyRouting (rule : string)
| CneUnsupportedPlatform
| CneCommand (command detail : string)
| CneRollback (setup rollback : string)
| CneIo (e : io_error).

(** The [Display] of [thiserror]. *)
Definition show_CloneNetError (e : CloneNetError) : string :=
  match e with
  | CnePoolFull cap => "clone network pool full: all " +:+ show_N cap +:+ " allocations claimed"
  | CneInvalidIndex index max =>
      "invalid clone network index " +:+ show_N index +:+ ": valid allocations are 1..=" +:+ show_N max
  | CneTargetTaken index => "target clone network " +:+ show_N index +:+ " already claimed"
  | CneNotOwned index owner_id =>
      "clone network " +:+ show_N index +:+ " is not claimed by room " +:+ owner_id
  | CneRouteOverlap route => "clone network 172.17.0.0/24 overlaps host route `" +:+ route +:+ "`"
  | CnePolicyRouting rule =>
      "clone networking refuses non-default IPv4 policy rule `" +:+ rule +:+ "`"
  | CneUnsupportedPlatform => "clone networking is supported only on Linux hosts"
  | CneCommand command detail => "clone network command `" +:+ command +:+ "` failed: " +:+ detail
  | CneRollback setup rollback =>
      "clone network setup failed: " +:+ setup +:+ "; rollback failed: " +:+ rollback
  | CneIo e => "io error: " +:+ message e
  end.

(** ** Identity *)

Definition MAX_CLONENET : N := 63.

Record CloneNet := {
  net_index : N;
  netns : string;
  veth_host : string;
  veth_guest : string;
  host_ip : N;
  netns_ip : N;
  net_prefix : N
}.

#[export] Instance CloneNet_eq_dec : EqDecision CloneNet.
Proof. solve_decision. Defined.

(** The [u8] arithmetic wraps. *)
Definition CloneNet_derive (index : N) : result CloneNetError CloneNet :=
  if negb ((1 <=? index) && (index <=? MAX_CLONENET))%N then Err (CneInvalidIndex index MAX_CLONENET)
  else
    let base := ((4 * index) mod 256)%N in
    Ok {| net_index := index;
          netns := "rooms-c" +:+ show_N index;
          veth_host := "veth-h" +:+ show_N index;
          veth_guest := "veth-g" +:+ show_N index;
          host_ip := ipv4 172 17 0 ((base + 1) mod 256);
          netns_ip := ipv4 172 17 0 ((base + 2) mod 256);
          net_prefix := 30 |}.

(** ** Policy rules *)

Definition DEFAULT_POLICY_RULES : list string :=
  ["0: from all lookup local"; "32766: from all lookup main"; "32767: from all lookup default"].

Definition default_policy_rule_index (rule : string) : option nat :=
  let tokens := split_whitespace rule in
  position (λ expected, bool_decide (split_whitespace expected = tokens)) DEFAULT_POLICY_RULES.

(** The counting loop. *)
Fixpoint count_rules (seen : list nat) (rules : list string) : result CloneNetError (list nat) :=
  match rules with
  | [] => Ok seen
  | rule :: rules =>
      match index ← default_policy_rule_index rule; count ← seen !! index; Some (index, count) with
      | None => Err (CnePolicyRouting rule)
      | Some (index, count) => count_rules (<[index := S count]> seen) rules
      end
  end.

Definition policy_lines (rules : string) : list string :=
  filter (λ line, is_empty line = false) (trim <$> lines rules).

Definition validate_policy_rules (rules : string) : result CloneNetError unit :=
  let? seen := count_rules (replicate (length DEFAULT_POLICY_RULES) 0) (policy_lines rules) in
  match find_first (λ '(count, _), negb (count =? 1)%nat) (zip seen DEFAULT_POLICY_RULES) with
  | None => Ok ()
  | Some (count, expected) =>
      Err (CnePolicyRouting ("expected exactly one `" +:+ expected +:+ "`, found " +:+ show_N (N.of_nat count)))
  end.

(** ** Routes *)

Inductive RouteClass := Disjoint | Rooms (index : N) | Foreign.
Inductive RouteKind := Unicast | Local | Broadcast | Throw | ForeignSpecial.
Record RouteCidr := { route_kind : RouteKind; route_network : N; route_prefix : N }.

#[export] Instance RouteClass_eq_dec : EqDecision RouteClass.
Proof. solve_decision. Defined.
#[export] Instance RouteKind_eq_dec : EqDecision RouteKind.
Proof. solve_decision. Defined.

Definition top_level_routes (routes : string) : list string :=
  omap (λ line,
    let route := trim line in
    if is_empty route || match line with String a _ => is_ascii_whitespace a | _ => false end
    then None else Some route) (lines routes).

Definition route_pair (route key : string) : option string :=
  token_after (λ token, (token =? key)%string) (split_whitespace route).

Definition in_local_table (route : string) : bool :=
  match route_pair route "table" with
  | Some table => (table =? "local")%string || (table =? "255")%string
  | None => false
  end.

Definition default_for (kind : RouteKind) : RouteCidr :=
  {| route_kind := kind; route_network := 0; route_prefix := 0 |}.

(** The route's type and its destination token. *)
Definition kind_and_destination (tokens : list string) : option (RouteKind * string) :=
  match tokens with
  | [] => None
  | first :: rest =>
      let next kind := (λ destination, (kind, destination)) <$> head rest in
      if (first =? "default")%string then Some (Unicast, first) else
      if (first =? "local")%string then next Local else
      if (first =? "broadcast")%string then next Broadcast else
      if (first =? "throw")%string then next Throw else
      if bool_decide (first ∈ ["anycast"; "multicast"; "blackhole"; "unreachable"; "prohibit"; "nat"])
      then next ForeignSpecial else
      if match first with String a _ => is_ascii_alphabetic a | _ => false end then next ForeignSpecial
      else Some (Unicast, first)
  end.

Definition route_cidr (route : string) : option RouteCidr :=
  '(kind, destination) ← kind_and_destination (split_whitespace route);
  if (destination =? "default")%string then Some (default_for kind) else
  '(address, prefix) ← match split_once "/" destination with
                       | Some (address, prefix) => p ← parse_uint u8_max prefix; Some (address, p)
                       | None => Some (destination, 32%N)
                       end;
  if (32 <? prefix)%N then None else
  address ← parse_ipv4 address;
  Some {| route_kind := kind; route_network := N.land address (cidr_mask prefix); route_prefix := prefix |}.

Definition overlaps_clone_supernet (network prefix : N) : bool :=
  let mask := cidr_mask prefix in
  let route_end := N.lor network (not_u32 mask) in
  ((network <=? ipv4 172 17 0 255) && (ipv4 172 17 0 0 <=? route_end))%N.

Definition expected_shape (cidr : RouteCidr) (net : CloneNet) : bool :=
  let base := (host_ip net - 1)%N in
  match route_kind cidr with
  | Unicast => ((route_prefix cidr =? 30) && (route_network cidr =? base))%N
  | Local => ((route_prefix cidr =? 32) && (route_network cidr =? host_ip net))%N
  | Broadcast =>
      ((route_prefix cidr =? 32) && ((route_network cidr =? base) || (route_network cidr =? base + 3)))%N
  | Throw | ForeignSpecial => false
  end.

Definition rooms_route_index (route : string) (cidr : RouteCidr) : option N :=
  if bool_decide (route_kind cidr ∈ [Throw; ForeignSpecial]) ||
     existsb (λ token, (token =? "via")%string) (split_whitespace route) then None else
  interface ← route_pair route "dev";
  suffix ← strip_prefix "veth-h" interface;
  index ← parse_uint u8_max suffix;
  if negb ((1 <=? index) && (index <=? MAX_CLONENET))%N then None else
  match CloneNet_derive index with
  | Err _ => None
  | Ok net =>
      if expected_shape cidr net && bool_decide (route_pair route "src" = Some (show_ipv4 (host_ip net)))
      then Some index else None
  end.

Definition classify_route (route : string) : RouteClass :=
  match route_cidr route with
  | None => Foreign
  | Some cidr =>
      if negb (overlaps_clone_supernet (route_network cidr) (route_prefix cidr)) then Disjoint else
      if bool_decide (route_kind cidr = Throw) && in_local_table route then Disjoint else
      if (route_prefix cidr <=? 1)%N && negb (in_local_table route) then Disjoint else
      match rooms_route_index route cidr with Some index => Rooms index | None => Foreign end
  end.

(** ** The policy rules are the kernel's three *)

Definition cnt (i : nat) (l : list nat) : nat := length (filter (λ j, j = i) l).

Lemma cnt_cons i j l : cnt i (j :: l) = if decide (j = i) then S (cnt i l) else cnt i l.
Proof. unfold cnt. rewrite filter_cons. by case_decide. Qed.

Lemma policy_index_tokens rule i :
  default_policy_rule_index rule = Some i ↔
  (split_whitespace <$> DEFAULT_POLICY_RULES) !! i = Some (split_whitespace rule).
Proof.
  unfold default_policy_rule_index. rewrite list_lookup_fmap, fmap_Some. split.
  - intros (e & He & Hb & _)%position_Some. exists e. boolify. done.
  - intros (e & He & Hs). apply position_Some. exists e. rewrite bool_decide_eq_true_2 by done.
    splits; [done..|]. intros j y Hj Hy. apply bool_decide_eq_false_2. intros E. rewrite Hs in E.
    apply lookup_lt_Some in He as Hi. simpl in Hi.
    destruct i as [|[|[|i]]], j as [|[|[|j]]]; try lia; simplify_eq/=; vm_compute in E; done.
Qed.

Lemma policy_index_lt rule i : default_policy_rule_index rule = Some i → i < 3.
Proof. intros H%policy_index_tokens%lookup_lt_Some. by rewrite length_fmap in H. Qed.

(** Conversion must not unfold the token tables. *)
#[local] Opaque default_policy_rule_index.

Lemma count_rules_ok rules l a b c :
  default_policy_rule_index <$> rules = Some <$> l →
  count_rules [a; b; c] rules = Ok [a + cnt 0 l; b + cnt 1 l; c + cnt 2 l].
Proof.
  revert l a b c; induction rules as [|rule rules IH]; intros [|i l] a b c Hl; try done.
  - simpl. by rewrite !Nat.add_0_r.
  - rewrite !fmap_cons in Hl. apply cons_eq_inv in Hl as [Hi Hl]. cbn [count_rules]. rewrite Hi. cbn [mbind option_bind].
    apply policy_index_lt in Hi. rewrite !cnt_cons.
    destruct i as [|[|[|i]]]; [..|lia]; cbn -[count_rules Nat.add]; rewrite (IH l) by done;
      by repeat first [rewrite decide_True by done|rewrite decide_False by done|rewrite Nat.add_succ_r].
Qed.

Lemma count_rules_inv rules seen seen' :
  count_rules seen rules = Ok seen' → ∃ l, default_policy_rule_index <$> rules = Some <$> l.
Proof.
  revert seen; induction rules as [|rule rules IH]; intros seen H; [by exists []|]. cbn [count_rules] in H.
  destruct (default_policy_rule_index rule) as [i|] eqn:Hi; [|done]. cbn [mbind option_bind] in H.
  destruct (seen !! i) as [n|]; [|done]. apply IH in H as [l Hl]. exists (i :: l). by rewrite !fmap_cons, Hi, Hl.
Qed.

Lemma cnt_ones l : Forall (λ i, i < 3) l → cnt 0 l = 1 → cnt 1 l = 1 → cnt 2 l = 1 → l ≡ₚ [0; 1; 2].
Proof.
  intros Hlt H0 H1 H2. assert (Hlen : length l = cnt 0 l + cnt 1 l + cnt 2 l).
  { clear H0 H1 H2. induction Hlt as [|i l Hi Hlt IH]; [done|]. rewrite !cnt_cons. simpl. rewrite IH.
    destruct i as [|[|[|i]]]; [..|lia]; simpl; lia. }
  assert (Hin : ∀ i, cnt i l = 1 → i ∈ l).
  { intros i Hi. destruct (filter (λ j, j = i) l) as [|j f] eqn:E; [by unfold cnt in Hi; rewrite E in Hi|].
    assert (Hj : j ∈ filter (λ j, j = i) l) by (rewrite E; left).
    by apply list_elem_of_filter in Hj as [-> Hj]. }
  symmetry. apply submseteq_length_Permutation; [|rewrite Hlen, H0, H1, H2; done].
  apply NoDup_submseteq; [repeat constructor; set_solver|].
  intros i Hi. apply Hin. set_unfold. naive_solver.
Qed.

Lemma tokens_index (rules : list string) (l : list nat) :
  default_policy_rule_index <$> rules = Some <$> l ↔
  Some <$> (split_whitespace <$> rules) = (λ i, (split_whitespace <$> DEFAULT_POLICY_RULES) !! i) <$> l.
Proof.
  revert l; induction rules as [|rule rules IH]; intros [|i l]; [done..|].
  rewrite !fmap_cons. split; intros [Hi Hl]%cons_eq_inv.
  - f_equal; [by symmetry; apply policy_index_tokens|]. by apply IH.
  - f_equal; [by apply policy_index_tokens|]. by apply IH.
Qed.

Lemma policy_rules_ok rules :
  validate_policy_rules rules = Ok () ↔
  split_whitespace <$> policy_lines rules ≡ₚ split_whitespace <$> DEFAULT_POLICY_RULES.
Proof.
  assert (Htok : Some <$> (split_whitespace <$> DEFAULT_POLICY_RULES) =
                 (λ i, (split_whitespace <$> DEFAULT_POLICY_RULES) !! i) <$> [0; 1; 2]) by done.
  unfold validate_policy_rules. change (replicate _ _) with [0; 0; 0]. split.
  - destruct (count_rules _ _) as [seen|] eqn:Hc; [|done]. cbn [rbind].
    pose proof (count_rules_inv _ _ _ Hc) as [l Hl]. rewrite (count_rules_ok _ l) in Hc by done.
    injection Hc as <-. destruct (find_first _ _) as [[]|] eqn:Hf; [done|]. intros _.
    rewrite find_first_None in Hf.
    assert (Hlt : Forall (λ i, i < 3) l).
    { apply Forall_forall. intros i Hi. apply (list_elem_of_fmap_2 Some) in Hi. rewrite <- Hl in Hi.
      apply list_elem_of_fmap in Hi as (r & Hr & _). by eapply policy_index_lt. }
    assert (Hp : l ≡ₚ [0; 1; 2]).
    { apply cnt_ones; [done|..];
        [pose proof (Hf _ ltac:(left)) as H|pose proof (Hf _ ltac:(right; left)) as H
        |pose proof (Hf _ ltac:(right; right; left)) as H]; simpl in H; boolify; lia. }
    apply tokens_index in Hl.
    apply (fmap_Permutation (λ i, (split_whitespace <$> DEFAULT_POLICY_RULES) !! i)) in Hp.
    rewrite <- Hl, <- Htok in Hp. apply Permutation_map_inv in Hp as (k & Hk & Hp).
    apply (inj (fmap Some)) in Hk as ->. by symmetry.
  - intros Hp. apply (fmap_Permutation Some) in Hp. rewrite Htok in Hp.
    apply Permutation_map_inv in Hp as (l & Hl & Hp). apply tokens_index in Hl.
    rewrite (count_rules_ok _ l) by done. cbn [rbind].
    assert (Hc : ∀ i, i < 3 → cnt i l = 1).
    { intros i Hi. unfold cnt. rewrite <- Hp. by destruct i as [|[|[|]]]; [..|lia]. }
    by rewrite !Hc by lia.
Qed.

(** The policy-rule check accepts exactly the kernel's untouched rule set:
    the lines of [ip rule], token by token and in any order, are the three
    default rules, each once.  A missing, repeated or extra rule refuses. *)
Theorem validate_policy_rules_spec rules :
  validate_policy_rules rules = Ok () ↔
  split_whitespace <$> policy_lines rules ≡ₚ split_whitespace <$> DEFAULT_POLICY_RULES.
Proof. apply policy_rules_ok. Qed.

(** ** Networks and addresses *)

Definition clone_address (ip : N) : Prop := (ipv4 172 17 0 0 ≤ ip ≤ ipv4 172 17 0 255)%N.

(** The overlap test is interval intersection. *)
Lemma overlaps_spec network prefix :
  is_network network prefix →
  overlaps_clone_supernet network prefix = true ↔ ∃ ip, in_cidr network prefix ip ∧ clone_address ip.
Proof.
  intros Hnet. pose proof Hnet as (Hp & a & Ha & Hn). unfold overlaps_clone_supernet.
  assert (Hend : N.lor network (not_u32 (cidr_mask prefix)) = (network + (2 ^ (32 - prefix) - 1))%N).
  { rewrite not_mask, Hn, land_mask, route_end_eq by done. done. }
  rewrite Hend. unfold clone_address. setoid_rewrite (in_cidr_interval _ _ _ Hnet).
  change (ipv4 172 17 0 0) with 2886795264%N. change (ipv4 172 17 0 255) with 2886795519%N.
  generalize (2 ^ (32 - prefix) - 1)%N. intros m. split.
  - intros H. boolify. exists (N.max network 2886795264). lia.
  - intros (ip & H1 & H2). apply andb_true_iff. rewrite !N.leb_le. lia.
Qed.

(** ** What the route check decides *)

Lemma route_cidr_network route c :
  route_cidr route = Some c → is_network (route_network c) (route_prefix c).
Proof.
  unfold route_cidr, is_network.
  destruct (kind_and_destination _) as [[kind dest]|]; [|done]. cbn [mbind option_bind].
  destruct (dest =? "default")%string.
  { intros [= <-]. simpl. split; [lia|]. exists 0%N. split; [|done]. unfold u32_max. lia. }
  destruct (match split_once "/" dest with Some _ => _ | None => _ end) as [[address p]|]; [|done].
  cbn [mbind option_bind]. destruct (32 <? p)%N eqn:Hp; [done|].
  destruct (parse_ipv4 address) as [a|] eqn:Ha; [|done]. intros [= <-]. simpl. boolify.
  split; [done|]. exists a. split; [by eapply parse_ipv4_bound|done].
Qed.

Lemma CloneNet_derive_Ok k net :
  CloneNet_derive k = Ok net →
  (1 ≤ k ≤ MAX_CLONENET)%N ∧ net_index net = k ∧ host_ip net = (ipv4 172 17 0 0 + 4 * k + 1)%N.
Proof.
  unfold CloneNet_derive. destruct (negb _) eqn:E; [done|]. intros [= <-]. boolify.
  unfold MAX_CLONENET in *. simpl. splits; [lia..|]. unfold ipv4.
  rewrite (N.mod_small (4 * k)), N.mod_small by lia. lia.
Qed.

Lemma expected_shape_inside c net ip k :
  CloneNet_derive k = Ok net → is_network (route_network c) (route_prefix c) →
  expected_shape c net = true → in_cidr (route_network c) (route_prefix c) ip →
  (host_ip net - 1 ≤ ip ≤ host_ip net + 2)%N.
Proof.
  intros (Hk & _ & Hip)%CloneNet_derive_Ok Hnet Hs Hin. apply in_cidr_interval in Hin; [|done].
  unfold expected_shape in Hs. change (ipv4 172 17 0 0) with 2886795264%N in *.
  destruct (route_kind c); try done; apply andb_true_iff in Hs as [Hp Hn]; apply N.eqb_eq in Hp;
    rewrite Hp in Hin.
  - change (2 ^ (32 - 30) - 1)%N with 3%N in Hin. boolify. lia.
  - change (2 ^ (32 - 32) - 1)%N with 0%N in Hin. boolify. lia.
  - change (2 ^ (32 - 32) - 1)%N with 0%N in Hin. apply orb_true_iff in Hn. rewrite !N.eqb_eq in Hn. lia.
Qed.

Lemma rooms_route_index_inv route c k :
  rooms_route_index route c = Some k →
  ∃ net, CloneNet_derive k = Ok net ∧ expected_shape c net = true ∧
         route_pair route "src" = Some (show_ipv4 (host_ip net)).
Proof.
  unfold rooms_route_index. destruct (_ || _); [done|].
  destruct (route_pair route "dev") as [i|]; [|done]. cbn [mbind option_bind].
  destruct (strip_prefix _ i) as [s|]; [|done]. cbn [mbind option_bind].
  destruct (parse_uint _ s) as [j|]; [|done]. cbn [mbind option_bind].
  destruct (negb _); [done|]. destruct (CloneNet_derive j) as [net|] eqn:Hd; [|done].
  destruct (expected_shape c net && _) eqn:Hs; [|done]. intros [= <-]. boolify. eauto.
Qed.

(** The route check is sound.  A route it calls disjoint has a destination
    that parses and either contains no clone address, or cannot take one's
    traffic: a [throw] in the local table, or a catch-all outside it.  A route it
    calls ours stays inside the /30 of the named clone and carries its source
    address.  A route it calls foreign does not parse or contains a clone
    address. *)
Theorem classify_route_spec route :
  match classify_route route with
  | Disjoint => ∃ c, route_cidr route = Some c ∧
      ((∀ ip, in_cidr (route_network c) (route_prefix c) ip → ¬ clone_address ip) ∨
       (route_kind c = Throw ∧ in_local_table route = true) ∨
       ((route_prefix c ≤ 1)%N ∧ in_local_table route = false))
  | Rooms k => ∃ c net, route_cidr route = Some c ∧ CloneNet_derive k = Ok net ∧
      route_pair route "src" = Some (show_ipv4 (host_ip net)) ∧
      ∀ ip, in_cidr (route_network c) (route_prefix c) ip → (host_ip net - 1 ≤ ip ≤ host_ip net + 2)%N
  | Foreign => route_cidr route = None ∨ ∃ c ip, route_cidr route = Some c ∧
      in_cidr (route_network c) (route_prefix c) ip ∧ clone_address ip
  end.
Proof.
  unfold classify_route. destruct (route_cidr route) as [c|] eqn:Hc; [|by left].
  pose proof (route_cidr_network _ _ Hc) as Hnet. pose proof (overlaps_spec _ _ Hnet) as Hov.
  destruct (overlaps_clone_supernet _ _); cbn [negb].
  2: { exists c. split; [done|]. left. intros ip Hin Hcl. assert (false = true) by (apply Hov; eauto). done. }
  pose proof (proj1 Hov eq_refl) as (ip & Hin & Hcl).
  case_bool_decide as Hk; [destruct (in_local_table route) eqn:Hl; cbn [andb]|cbn [andb]].
  { exists c. split; [done|]. right; left. done. }
  all: destruct ((route_prefix c <=? 1)%N && _) eqn:E; [boolify; exists c; split; [done|]; right; right; done|].
  all: destruct (rooms_route_index route c) as [k|] eqn:Hr; [|right; eauto].
  all: apply rooms_route_index_inv in Hr as (net & Hd & Hs & Hsrc);
    exists c, net; splits; try done; intros x; by eapply expected_shape_inside.
Qed.

(** The kernel's routes for a clone veth, as [ip route show table all] prints
    them. *)
Definition own_routes (k : N) : list string :=
  let net i := "172.17.0." +:+ show_N (4 * k + i) in
  let dev := " dev veth-h" +:+ show_N k in
  [net 0%N +:+ "/30" +:+ dev +:+ " scope link src " +:+ net 1%N;
   net 0%N +:+ "/30" +:+ dev +:+ " proto kernel scope link src " +:+ net 1%N;
   "local " +:+ net 1%N +:+ dev +:+ " table local proto kernel scope host src " +:+ net 1%N;
   "broadcast " +:+ net 0%N +:+ dev +:+ " table local proto kernel scope link src " +:+ net 1%N;
   "broadcast " +:+ net 3%N +:+ dev +:+ " table local proto kernel scope link src " +:+ net 1%N].

(** The routes of every clone network already made are recognised as that
    clone's, so a second allocation is not refused because of the first. *)
Theorem own_routes_recognised k :
  (1 ≤ k ≤ MAX_CLONENET)%N → Forall (λ route, classify_route route = Rooms k) (own_routes k).
Proof.
  intros Hk.
  assert (H : forallb (λ k, forallb (λ route, bool_decide (classify_route route = Rooms k)) (own_routes k))
                (N.of_nat <$> seq 1 63) = true) by (vm_compute; reflexivity).
  rewrite forallb_forall in H. specialize (H k). rewrite forallb_forall in H.
  apply Forall_forall. intros route Hr.
  apply (proj1 (bool_decide_eq_true (classify_route route = Rooms k))), H; [|by apply list_elem_of_In].
  apply list_elem_of_In, list_elem_of_fmap. exists (N.to_nat k). unfold MAX_CLONENET in Hk.
  split; [lia|]. apply elem_of_seq. lia.
Qed.

Lemma own_routes_recognised_witness :
  classify_route "172.17.0.12/30 dev veth-h3 scope link src 172.17.0.13" = Rooms 3.
Proof.
  assert (Hk : (1 ≤ 3 ≤ MAX_CLONENET)%N) by (unfold MAX_CLONENET; lia).
  apply (proj1 (Forall_forall _ _) (own_routes_recognised 3 Hk)). left.
Defined.
