(* ===== verification/CloneNet.v ===== *)
(** * CloneNet: per-clone host networks ([clonenet.rs])

    Allocation, teardown and batch allocation of clone networks over the indexed
    claims, the [ip]/[iptables]/[sysctl] plans, and the host-global owner
    markers.  [NetworkOps] is the code's trait; [SystemNetworkOps] its Linux
    implementation over the [Host]. *)

From S2P Require Import Prelude RStr Fs IndexedClaim Firewall Host Egress CloneRoutes.
From stdpp Require Import options.

Definition CLONENETS_DIR : string := "clonenets".
Definition FREE_LOCK : string := "clonenets.lock".
Definition DEFAULT_MAX_POOL : N := 8.

Definition CLONENET_POOL : Pool :=
  {| dir_name := CLONENETS_DIR; lock_name := FREE_LOCK; max_index := MAX_CLONENET;
     pool_label := "clone network" |}.

Inductive Freed := CfRemoved | CfAlreadyFree | CfAlreadyReassigned.

Record ClaimRequest := {
  req_state : path;
  req_owner : string;
  req_me : Claimer;
  req_cap : N;
  req_target : option N
}.

Inductive CreationStage := StNone | StOwnerMarker | StNamespace | StVeth | StSourceRule.

#[export] Instance CreationStage_eq_dec : EqDecision CreationStage.
Proof. solve_decision. Defined.

(** The derived order. *)
Definition stage_rank (s : CreationStage) : nat :=
  match s with StNone => 0 | StOwnerMarker => 1 | StNamespace => 2 | StVeth => 3 | StSourceRule => 4 end.

Definition stage_ge (a b : CreationStage) : bool := (stage_rank b <=? stage_rank a)%nat.

Record CreateFailure := { failure_error : CloneNetError; failure_stage : CreationStage }.

(** The trait. *)
Class NetworkOps := {
  preflight : io CloneNetError unit;
  claim_global : N → string → io CloneNetError ClaimDecision;
  create : CloneNet → string → io CreateFailure unit;
  rollback : CloneNet → string → CreationStage → io CloneNetError unit;
  teardown : CloneNet → string → io CloneNetError ReconcileAction
}.

(** ** Allocation over the trait *)

Definition map_claim (outcome : ClaimOutcome) : result CloneNetError CloneNet :=
  match outcome with
  | Claimed index => CloneNet_derive index
  | PoolFull cap => Err (CnePoolFull cap)
  | InvalidIndex index max => Err (CneInvalidIndex index max)
  | TargetTaken index => Err (CneTargetTaken index)
  end.

Definition map_freed (o : FreeOutcome) : Freed :=
  match o with Removed => CfRemoved | AlreadyFree => CfAlreadyFree | AlreadyReassigned => CfAlreadyReassigned end.

Definition release_claim (state : path) (index : N) (expected_owner : string) : io CloneNetError Freed :=
  if negb (valid_index CLONENET_POOL index) then throw (CneInvalidIndex index MAX_CLONENET) else
  let! o := lift_err CneIo (free state CLONENET_POOL index expected_owner) in ret (map_freed o).

Definition map_release (r : result ReleaseError FreeOutcome) : result CloneNetError Freed :=
  match r with
  | Ok o => Ok (map_freed o)
  | Err (ReleaseIo e) => Err (CneIo e)
  | Err (ReleaseCleanup detail) => Err (CneCommand "clone network teardown" detail)
  end.

Definition cleanup_detail (error : CloneNetError) : string :=
  match error with
  | CneCommand command detail => command +:+ ": " +:+ detail
  | other => show_CloneNetError other
  end.

Section allocation.
  Context {O : NetworkOps}.

Definition claim_host_identity (request : ClaimRequest) : io CloneNetError CloneNet :=
  let! outcome := claim_with CneIo (λ index, claim_global index (req_owner request))
    {| spec_state := req_state request; spec_pool := CLONENET_POOL; spec_owner := req_owner request;
       spec_me := req_me request; spec_cap := req_cap request; spec_target := req_target request |} in
  of_result (map_claim outcome).

Definition rollback_failed_create (state : path) (owner_id : string) (net : CloneNet)
    (failure : CreateFailure) : io CloneNetError CloneNet :=
  let! rolled := attempt (rollback net owner_id (failure_stage failure)) in
  match rolled with
  | Err rollback =>
      throw (CneRollback (show_CloneNetError (failure_error failure)) (show_CloneNetError rollback))
  | Ok _ => do! release_claim state (net_index net) owner_id in throw (failure_error failure)
  end.

Definition allocate_with (request : ClaimRequest) : io CloneNetError CloneNet :=
  do! preflight in
  let! net := claim_host_identity request in
  let! created := attempt (create net (req_owner request)) in
  match created with
  | Ok _ => ret net
  | Err failure => rollback_failed_create (req_state request) (req_owner request) net failure
  end.

Definition free_with_cleanup (state : path) (index : N) (expected_owner : string)
    (cleanup : CloneNet → io string unit) : io CloneNetError Freed :=
  let! net := of_result (CloneNet_derive index) in
  let! result := attempt (free_with state CLONENET_POOL index expected_owner (
    do! cleanup net in
    let! action := lift_err cleanup_detail (teardown net expected_owner) in
    match action with
    | Remove => ret ()
    | Keep => throw "host resources are owned by another claim"
    end)) in
  of_result (map_release result).

Definition free_network (state : path) (index : N) (expected_owner : string) : io CloneNetError Freed :=
  free_with_cleanup state index expected_owner (λ _, ret ()).

Definition reconcile_cleanup (state : path) (index : N) (owner : string) : io string ReconcileAction :=
  let! kept := is_dir (pjoin state owner) in
  if kept : bool then ret Keep else
  let! net := of_result (map_err show_CloneNetError (CloneNet_derive index)) in
  lift_err show_CloneNetError (teardown net owner).

Definition reconcile_with (proc_stat : N → Room.ProcStat) (state : path)
    : io infallible (list IndexedClaim.Reclaimed) :=
  IndexedClaim.reconcile proc_stat (reconcile_cleanup state) state CLONENET_POOL.

End allocation.

Definition verify_owned (state : path) (net : CloneNet) (expected_owner : string)
    : io CloneNetError unit :=
  let! owned := lift_err CneIo (owned_by state CLONENET_POOL (net_index net) expected_owner) in
  if owned : bool then ret () else throw (CneNotOwned (net_index net) expected_owner).

(** ** The plans *)

Definition command (program : string) (args : list string) : CommandSpec :=
  {| Host.program := program; Host.args := args |}.

Definition source_binding_command (operation : string) (net : CloneNet) : CommandSpec :=
  command "iptables"
    (["-w"; XTABLES_WAIT_SECONDS; operation] ++
     (if (operation =? "-I")%string then ["ROOMS_VETH_FWD"; "1"] else ["ROOMS_VETH_FWD"]) ++
     ["-i"; veth_host net; "!"; "-s"; show_ipv4 (netns_ip net) +:+ "/32"; "-j"; "DROP"]).

Definition host_create_plan (net : CloneNet) : list CommandSpec :=
  let host_cidr := show_ipv4 (host_ip net) +:+ "/" +:+ show_N (net_prefix net) in
  let route_cidr := "172.17.0." +:+ show_N ((4 * net_index net) mod 256) +:+ "/" +:+ show_N (net_prefix net) in
  [command "ip" ["netns"; "add"; netns net];
   command "ip" ["link"; "add"; veth_host net; "type"; "veth"; "peer"; "name"; veth_guest net];
   command "ip" ["link"; "set"; veth_guest net; "netns"; netns net];
   command "ip" ["addr"; "add"; host_cidr; "dev"; veth_host net];
   command "ip" ["link"; "set"; veth_host net; "up"];
   command "ip" ["route"; "replace"; route_cidr; "dev"; veth_host net; "src"; show_ipv4 (host_ip net)];
   command "sysctl" ["-w"; "net.ipv4.conf." +:+ veth_host net +:+ ".forwarding=1"];
   source_binding_command "-I" net].

Definition ip_in_namespace (prefix args : list string) : CommandSpec := command "ip" (prefix ++ args).

Definition exec_in_namespace (net : CloneNet) (program : string) (args : list string) : CommandSpec :=
  command "ip" (["netns"; "exec"; netns net] ++ [program] ++ args).

Definition namespace_create_plan (net : CloneNet) : list CommandSpec :=
  let address := show_ipv4 (netns_ip net) +:+ "/" +:+ show_N (net_prefix net) in
  let gateway := show_ipv4 (host_ip net) in
  let prefix := ["-n"; netns net] in
  [ip_in_namespace prefix ["addr"; "add"; address; "dev"; veth_guest net];
   ip_in_namespace prefix ["link"; "set"; veth_guest net; "up"];
   ip_in_namespace prefix ["link"; "set"; "lo"; "up"];
   ip_in_namespace prefix ["route"; "replace"; "default"; "via"; gateway];
   exec_in_namespace net "sysctl" ["-w"; "net.ipv4.ip_forward=1"];
   exec_in_namespace net "sysctl" ["-w"; "net.ipv4.conf." +:+ veth_guest net +:+ ".forwarding=1"];
   exec_in_namespace net "iptables" ["-w"; XTABLES_WAIT_SECONDS; "-t"; "nat"; "-A"; "POSTROUTING"; "-s";
     "172.16.0.0/24"; "-o"; veth_guest net; "-j"; "MASQUERADE"]].

Definition create_plan (net : CloneNet) : list CommandSpec :=
  host_create_plan net ++ namespace_create_plan net.

Definition teardown_plan (net : CloneNet) : list CommandSpec :=
  [command "ip" ["netns"; "del"; netns net];
   command "ip" ["link"; "del"; veth_host net];
   command "ip" ["link"; "del"; veth_guest net];
   source_binding_command "-D" net].

Definition rollback_plan (net : CloneNet) (stage : CreationStage) : list CommandSpec :=
  (if stage_ge stage StNamespace then [command "ip" ["netns"; "del"; netns net]] else []) ++
  (if stage_ge stage StVeth then
     [command "ip" ["link"; "del"; veth_host net]; command "ip" ["link"; "del"; veth_guest net]] else []) ++
  (if stage_ge stage StSourceRule then [source_binding_command "-D" net] else []).

(** ** Linux *)

Definition absent_resource (stderr : string) : bool :=
  existsb (contains stderr)
    ["Cannot find device"; "RTNETLINK answers: No such device"; "No such file or directory";
     "Bad rule (does a matching rule exist in that chain?)"; "No chain/target/match by that name."] ||
  (contains stderr ("Device " +:+ String dquote "") && contains stderr (String dquote " does not exist")).

Definition command_error (c : CommandSpec) (stderr : string) : CloneNetError :=
  CneCommand (show_command c) (trim stderr).

Definition HOST_OWNER_DIR : path := ["run"; "rooms"; "clonenet-owners"].

Definition owner_marker (index : N) : path := pjoin HOST_OWNER_DIR (show_N index).

Definition claim_owner_marker (index : N) (owner : string) : io CloneNetError ClaimDecision :=
  do! lift_err CneIo (create_dir_all HOST_OWNER_DIR) in
  let! made := attempt (symlink owner (owner_marker index)) in
  match made with
  | Ok _ => ret Accept
  | Err error =>
      if decide (kind error = AlreadyExists) then ret Skip
      else throw (CneCommand ("claim host-global clone network " +:+ show_N index) (message error))
  end.

Definition marker_owner (index : N) : io CloneNetError (option string) :=
  let! read := attempt (read_link (owner_marker index)) in
  match read with
  | Ok target => ret (Some target)
  | Err error => if decide (kind error = NotFound) then ret None else throw (CneIo error)
  end.

Definition release_owner_marker (index : N) (owner : string) : io CloneNetError unit :=
  let! marker := marker_owner index in
  if negb match marker with Some target => path_eq target owner | None => false end then ret () else
  let! removed := attempt (remove_file (owner_marker index)) in
  match removed with
  | Ok _ => ret ()
  | Err error => if decide (kind error = NotFound) then ret () else throw (CneIo error)
  end.

Inductive TeardownOwnership := Existing | Reserved | ForeignOwner.

Definition teardown_ownership (index : N) (owner : string) : io CloneNetError TeardownOwnership :=
  let! marker := marker_owner index in
  match marker with
  | Some actual => ret (if path_eq actual owner then Existing else ForeignOwner)
  | None =>
      let! decision := claim_owner_marker index owner in
      ret (match decision with Accept => Reserved | Skip => ForeignOwner end)
  end.

Section linux.
  Context `{H : Host}.

Definition run_spec (c : CommandSpec) : io CloneNetError CmdOutput :=
  lift_err CneIo (run_program (Host.program c) (Host.args c)).

Definition run_command (c : CommandSpec) : io CloneNetError unit :=
  let! output := run_spec c in
  if success output then ret () else throw (command_error c (stderr output)).

Definition run_allow_absent (c : CommandSpec) : io CloneNetError unit :=
  let! output := run_spec c in
  if success output || absent_resource (stderr output) then ret ()
  else throw (command_error c (stderr output)).

Definition verify_host_veth (net : CloneNet) : io CloneNetError unit :=
  run_command (command "ip" ["link"; "show"; veth_host net]).

Definition resource_probes (net : CloneNet) : list CommandSpec :=
  [command "ip" ["netns"; "exec"; netns net; "true"];
   command "ip" ["link"; "show"; veth_host net];
   command "ip" ["link"; "show"; veth_guest net]].

Fixpoint probe_resources (probes : list CommandSpec) : io CloneNetError bool :=
  match probes with
  | [] => ret false
  | probe :: probes =>
      let! output := run_spec probe in
      if success output then ret true else
      if negb (absent_resource (stderr output)) then throw (command_error probe (stderr output))
      else probe_resources probes
  end.

Definition resources_exist (net : CloneNet) : io CloneNetError bool := probe_resources (resource_probes net).

Definition reserved_resources_exist (net : CloneNet) (owner : string) : io CloneNetError bool :=
  let! found := attempt (resources_exist net) in
  match found with
  | Ok exists_ => ret exists_
  | Err error => do! release_owner_marker (net_index net) owner in throw error
  end.

Definition check_default_policy_rules : io CloneNetError unit :=
  let c := command "ip" ["-4"; "rule"; "show"] in
  let! output := run_spec c in
  if negb (success output) then throw (command_error c (stderr output))
  else of_result (validate_policy_rules (stdout output)).

Fixpoint check_routes (routes : list string) : io CloneNetError unit :=
  match routes with
  | [] => ret ()
  | route :: routes =>
      match classify_route route with
      | Disjoint => check_routes routes
      | Rooms index =>
          let! marker := marker_owner index in
          if bool_decide (is_Some marker) then check_routes routes else throw (CneRouteOverlap route)
      | Foreign => throw (CneRouteOverlap route)
      end
  end.

Definition check_clone_subnet_available : io CloneNetError unit :=
  do! check_default_policy_rules in
  let c := command "ip" ["-4"; "route"; "show"; "table"; "all"] in
  let! output := run_spec c in
  if negb (success output) then throw (command_error c (stderr output))
  else check_routes (top_level_routes (stdout output)).

Definition stage_after (step : nat) (stage : CreationStage) : CreationStage :=
  match step with 0 => StNamespace | 1 => StVeth | 7 => StSourceRule | _ => stage end.

(** The creation loop; a failure carries the stage reached. *)
Fixpoint run_create (step : nat) (stage : CreationStage) (plan : list CommandSpec) : io CreateFailure unit :=
  match plan with
  | [] => ret ()
  | c :: plan =>
      do! lift_err (λ error, {| failure_error := error; failure_stage := stage |}) (run_command c) in
      run_create (S step) (stage_after step stage) plan
  end.

Definition system_create (net : CloneNet) (_ : string) : io CreateFailure unit :=
  run_create 0 StOwnerMarker (create_plan net).

Definition system_rollback (net : CloneNet) (owner : string) (stage : CreationStage) : io CloneNetError unit :=
  do! for_each run_allow_absent (rollback_plan net stage) in
  if stage_ge stage StOwnerMarker then release_owner_marker (net_index net) owner else ret ().

(** [fuel] bounds the delete loops of the egress cleanup. *)
Definition system_teardown (fuel : nat) (net : CloneNet) (owner : string) : io CloneNetError ReconcileAction :=
  let! ownership := teardown_ownership (net_index net) owner in
  let proceed :=
    do! lift_err (λ detail, CneCommand ("remove clone egress for " +:+ veth_host net) detail)
          (remove_clone_checked fuel (veth_host net)) in
    do! for_each run_allow_absent (teardown_plan net) in
    do! release_owner_marker (net_index net) owner in
    ret Remove in
  match ownership with
  | ForeignOwner => ret Keep
  | Existing => proceed
  | Reserved =>
      let! found := reserved_resources_exist net owner in
      if found : bool then do! release_owner_marker (net_index net) owner in ret Keep else proceed
  end.

Definition SystemNetworkOps (fuel : nat) : NetworkOps := {|
  preflight := check_clone_subnet_available;
  claim_global := claim_owner_marker;
  create := system_create;
  rollback := system_rollback;
  teardown := system_teardown fuel
|}.

Definition allocate (fuel : nat) (request : ClaimRequest) : io CloneNetError CloneNet :=
  allocate_with (O := SystemNetworkOps fuel) request.

End linux.

(** ** Batches *)

Record BatchAllocation := { alloc_ordinal : nat; alloc_owner : string; alloc_network : CloneNet }.

Record BatchFailure := {
  fail_ordinal : nat;
  fail_owner : string;
  fail_detail : string;
  fail_pool_full_cap : option N
}.

Record BatchAllocationError := { failures : list BatchFailure; rollback_failures : list BatchFailure }.

Record BatchWorkerError := { worker_detail : string; worker_pool_full_cap : option N }.

Definition worker_error (e : CloneNetError) : BatchWorkerError :=
  {| worker_detail := show_CloneNetError e;
     worker_pool_full_cap := match e with CnePoolFull cap => Some cap | _ => None end |}.

Definition batch_failure_evidence (l : list BatchFailure) : string :=
  join "; " ((λ f, "#" +:+ show_N (N.of_nat (fail_ordinal f)) +:+ " room " +:+ fail_owner f +:+ ": " +:+
                   fail_detail f) <$> l).

Definition show_BatchAllocationError (e : BatchAllocationError) : string :=
  let allocations := batch_failure_evidence (failures e) in
  if bool_decide (rollback_failures e = []) then "clone network batch failed: " +:+ allocations
  else "clone network batch failed: " +:+ allocations +:+ "; exact rollback incomplete: " +:+
       batch_failure_evidence (rollback_failures e).

Definition pool_full_cap (e : BatchAllocationError) : option N :=
  if bool_decide (failures e = []) || negb (bool_decide (rollback_failures e = [])) then None else
  first ← head (failures e);
  cap ← fail_pool_full_cap first;
  if forallb (λ f, bool_decide (fail_pool_full_cap f = Some cap)) (failures e) then Some cap else None.

(** [JoinHandle::join]: the worker's answer, or its panic. *)
Inductive joined (A : Type) := Joined (a : A) | Panicked.
Arguments Joined {A} a.
Arguments Panicked {A}.

(** Rust's stable [sort_by_key]. *)
Fixpoint insert_by_key {A} (key : A → nat) (x : A) (l : list A) : list A :=
  match l with
  | [] => [x]
  | y :: l => if (key x <=? key y)%nat then x :: y :: l else y :: insert_by_key key x l
  end.

Fixpoint sort_by_key {A} (key : A → nat) (l : list A) : list A :=
  match l with [] => [] | x :: l => insert_by_key key x (sort_by_key key l) end.

Definition batch_failure (allocation : BatchAllocation) (detail : string) : BatchFailure :=
  {| fail_ordinal := alloc_ordinal allocation; fail_owner := alloc_owner allocation;
     fail_detail := detail; fail_pool_full_cap := None |}.

(** The joins, in the order the workers were spawned. *)
Fixpoint collect_allocation_workers (workers : list (nat * string * joined (result BatchWorkerError CloneNet)))
    : list BatchAllocation * list BatchFailure :=
  match workers with
  | [] => ([], [])
  | (ordinal, owner, worker) :: workers =>
      let '(allocations, fails) := collect_allocation_workers workers in
      match worker with
      | Joined (Ok network) =>
          ({| alloc_ordinal := ordinal; alloc_owner := owner; alloc_network := network |} :: allocations, fails)
      | Joined (Err error) =>
          (allocations, {| fail_ordinal := ordinal; fail_owner := owner; fail_detail := worker_detail error;
                           fail_pool_full_cap := worker_pool_full_cap error |} :: fails)
      | Panicked =>
          (allocations, {| fail_ordinal := ordinal; fail_owner := owner;
                           fail_detail := "allocator worker panicked"; fail_pool_full_cap := None |} :: fails)
      end
  end.

Section batch.
  (** What each worker ended with, in whatever order they ran. *)
  Variable allocate_one : nat → string → joined (result BatchWorkerError CloneNet).
  Variable rollback_one : BatchAllocation → joined (result string unit).

Definition run_allocation_workers (owner_ids : list string) : list BatchAllocation * list BatchFailure :=
  collect_allocation_workers
    (imap (λ ordinal owner_id, (ordinal, owner_id, allocate_one ordinal owner_id)) owner_ids).

Definition run_rollback_workers (allocations : list BatchAllocation) : list BatchFailure :=
  omap (λ allocation,
    match rollback_one allocation with
    | Joined (Ok _) => None
    | Joined (Err detail) => Some (batch_failure allocation detail)
    | Panicked => Some (batch_failure allocation "rollback worker panicked")
    end) allocations.

Definition allocate_batch_with (owner_ids : list string) : result BatchAllocationError (list BatchAllocation) :=
  let '(allocations, fails) := run_allocation_workers owner_ids in
  let allocations := sort_by_key alloc_ordinal allocations in
  let fails := sort_by_key fail_ordinal fails in
  if bool_decide (fails = []) then Ok allocations
  else
    Err {| failures := fails;
           rollback_failures := sort_by_key fail_ordinal (run_rollback_workers allocations) |}.

End batch.

(** The verdict [allocate_batch] gives a rollback. *)
Definition rollback_verdict (index : N) (r : result CloneNetError Freed) : result string unit :=
  match r with
  | Ok (CfRemoved | CfAlreadyFree) => Ok ()
  | Ok CfAlreadyReassigned => Err ("clone network " +:+ show_N index +:+ " was reassigned before rollback")
  | Err error => Err (show_CloneNetError error)
  end.

(** ** What the operations may touch *)

(** The regular files stay, and no operation speaks of a failed rollback. *)
Definition quiet {A : Type} (t : tree) (o : outcome CloneNetError A) (t' : tree) : Prop :=
  same_files t t' ∧ match o with Done (Err (CneRollback _ _)) => False | _ => True end.

Definition quietly {A : Type} (m : io CloneNetError A) : Prop := ∀ t : tree, wp m (quiet t) t.

(** What allocation asks of an implementation of the trait. *)
Class NetworkOpsLaws (O : NetworkOps) : Prop := {
  preflight_quiet : quietly preflight;
  claim_global_quiet : ∀ k owner, quietly (claim_global k owner);
  create_quiet : ∀ net owner, quietly (lift_err failure_error (create net owner));
  rollback_quiet : ∀ net owner stage, quietly (rollback net owner stage);
  teardown_quiet : ∀ net owner, quietly (teardown net owner)
}.

Lemma quietly_ret {A : Type} (a : A) : quietly (ret a).
Proof. intros t. by apply wp_ret. Qed.

Lemma quietly_throw {A : Type} (e : CloneNetError) :
  match e with CneRollback _ _ => False | _ => True end → quietly (A:=A) (throw e).
Proof. intros He t. apply wp_throw. by split. Qed.

Lemma quietly_bind {A B : Type} (m : io CloneNetError A) (k : A → io CloneNetError B) :
  quietly m → (∀ a, quietly (k a)) → quietly (bind m k).
Proof.
  intros Hm Hk t. wp_struct. eapply wp_mono; [apply Hm|]. intros o t1 [H1 Ho].
  destruct o as [[a|e]|]; wp_post; [|by split..].
  eapply wp_mono; [apply Hk|]. intros o t2 [H2 Ho2]. split; [by etrans|done].
Qed.

Lemma quietly_lift {E A : Type} (f : E → CloneNetError) (m : io E A) :
  frames m → (∀ e, match f e with CneRollback _ _ => False | _ => True end) → quietly (lift_err f m).
Proof.
  intros Hm Hf t. wp_struct. eapply wp_mono; [apply Hm|]. intros o t1 H1.
  destruct o as [[a|e]|]; wp_post; split; try done. apply Hf.
Qed.

Lemma quietly_of_result {A : Type} (r : result CloneNetError A) :
  match r with Err (CneRollback _ _) => False | _ => True end → quietly (of_result r).
Proof. intros Hr t. apply wp_of_result. by split. Qed.

Lemma quietly_for_each {A B : Type} (f : A → io CloneNetError B) l :
  (∀ x, quietly (f x)) → quietly (for_each f l).
Proof.
  intros Hf. induction l as [|x l IH]; [apply quietly_ret|]. simpl.
  apply quietly_bind; [apply Hf|]. intros y. apply quietly_bind; [done|]. intros ys. apply quietly_ret.
Qed.

Lemma quietly_frames {A : Type} (m : io CloneNetError A) : quietly m → frames m.
Proof. intros Hm t. eapply wp_mono; [apply Hm|]. by intros o t' [H _]. Qed.

#[export] Hint Resolve quietly_ret quietly_bind quietly_lift quietly_of_result quietly_for_each : rooms.
#[export] Hint Extern 2 (quietly (throw _)) => (by apply quietly_throw) : rooms.

(** Peel a computation with the rules above. *)
Ltac quiet_step :=
  lazymatch goal with
  | |- quietly (bind _ _) => apply quietly_bind; [|intros ?]
  | |- quietly (ret _) => apply quietly_ret
  | |- quietly (throw _) => by apply quietly_throw
  | |- quietly (for_each _ _) => apply quietly_for_each; intros ?
  | |- frames (bind _ _) => apply frames_bind; [|intros ?]
  | |- frames (ret _) => apply frames_ret
  | |- frames (throw _) => apply frames_throw
  | |- frames (of_result _) => apply frames_of_result
  | |- frames (lift_err _ _) => apply frames_lift_err
  | |- frames (while_io _ _ _) => apply frames_while
  | |- frames (run_program _ _) => apply frames_run
  | |- frames lock_transaction => apply frames_lock
  | |- context [if ?b then _ else _] => destruct b
  | |- context [match ?x with _ => _ end] => destruct x
  end.

Section system_laws.
  Context `{H : Host} `{!HostFrame H}.

Lemma run_spec_quiet c : quietly (run_spec c).
Proof using HostFrame0. apply quietly_lift; [apply frames_run|done]. Qed.

Lemma run_allow_absent_quiet c : quietly (run_allow_absent c).
Proof using HostFrame0. unfold run_allow_absent. apply quietly_bind; [apply run_spec_quiet|]. intros o. repeat quiet_step. Qed.

Lemma run_command_quiet c : quietly (run_command c).
Proof using HostFrame0. unfold run_command. apply quietly_bind; [apply run_spec_quiet|]. intros o. repeat quiet_step. Qed.

(** Reading a marker changes nothing at all. *)
Lemma wp_marker_owner k (t : tree) :
  wp (marker_owner k) (λ o t', t' = t ∧
    match o with
    | Done (Ok (Some target)) => t !! owner_marker k = Some (Link target)
    | Done (Ok None) => t !! owner_marker k = None
    | Done (Err e) => ∃ e', e = CneIo e'
    | Crashed => True
    end) t.
Proof using.
  unfold marker_owner, read_link. wp_struct. apply wp_atomic; [|intros e [He _]|done].
  - destruct (t !! owner_marker k) as [[| |]|] eqn:E; simpl; wp_struct; eauto.
  - wp_struct. case_decide; [done|]. wp_struct. eauto.
Qed.

Lemma release_owner_marker_quiet k owner : quietly (release_owner_marker k owner).
Proof using.
  intros t. unfold release_owner_marker. wp_struct. eapply wp_mono; [apply wp_marker_owner|].
  intros o t1 [-> Ho]. destruct o as [[m|e]|]; wp_struct; [|destruct Ho as [? ->]; by split|by split].
  destruct m as [target|]; cbn [negb]; [|by wp_struct].
  destruct (path_eq target owner); cbn [negb]; wp_struct; [|by split].
  assert (Hd : same_files t (delete (owner_marker k) t)) by (intros q; by eapply file_delete_link).
  apply wp_remove_file; [intros s Hs%file_Some; congruence|intros s _|intros e _|]; wp_struct; try by split.
  case_decide; by wp_struct.
Qed.

Lemma claim_owner_marker_quiet k owner : quietly (claim_owner_marker k owner).
Proof using.
  intros t. unfold claim_owner_marker. wp_struct. apply wp_create_dir_all. intros o t1 H1.
  destruct o as [[[]|e]|]; wp_struct; [|by split..]. unfold symlink.
  apply wp_atomic; [|intros e [_ He]|by split].
  - destruct (t1 !! owner_marker k) eqn:E; simpl; wp_struct; [by split|].
    destruct (negb _ && _); simpl; wp_struct; split; try done. intros q. rewrite <- H1.
    unfold file. destruct (decide (q = owner_marker k)) as [->|];
      [by rewrite lookup_insert_eq, E|by rewrite lookup_insert_ne].
  - wp_struct. case_decide; by wp_struct.
Qed.

Lemma remove_clone_frames fuel veth : frames (remove_clone_checked fuel veth).
Proof using HostFrame0.
  unfold remove_clone_checked, remove_clone_checked_locked, iptables_exists, run_iptables, iptables_output.
  repeat quiet_step.
Qed.

Lemma teardown_ownership_quiet k owner : quietly (teardown_ownership k owner).
Proof using.
  unfold teardown_ownership. apply quietly_bind.
  { intros t. eapply wp_mono; [apply wp_marker_owner|]. intros o t' [-> Ho]. split; [done|].
    destruct o as [[|e]|]; try done. by destruct Ho as [? ->]. }
  intros [a|]; [apply quietly_ret|]. apply quietly_bind; [apply claim_owner_marker_quiet|].
  intros []; apply quietly_ret.
Qed.

Lemma probe_resources_quiet l : quietly (probe_resources l).
Proof using HostFrame0.
  induction l as [|c l IH]; [apply quietly_ret|]. simpl. apply quietly_bind; [apply run_spec_quiet|].
  intros o. by repeat quiet_step.
Qed.

Lemma reserved_resources_quiet net owner : quietly (reserved_resources_exist net owner).
Proof using HostFrame0.
  intros t. unfold reserved_resources_exist. wp_struct.
  eapply wp_mono; [apply probe_resources_quiet|]. intros o t1 [H1 Ho].
  destruct o as [[b|e]|]; wp_struct; [by split| |by split].
  eapply wp_mono; [apply release_owner_marker_quiet|]. intros o t2 [H2 Ho2].
  destruct o as [[[]|e']|]; wp_struct; split; try done; by etrans.
Qed.

Lemma check_routes_quiet routes : quietly (check_routes routes).
Proof using.
  induction routes as [|r routes IH]; [apply quietly_ret|]. simpl.
  destruct (classify_route r); [done| |by apply quietly_throw].
  apply quietly_bind; [|intros m; case_bool_decide; [done|by apply quietly_throw]].
  intros t. eapply wp_mono; [apply wp_marker_owner|]. intros o t' [-> Ho]. split; [done|].
  destruct o as [[|e]|]; try done. by destruct Ho as [? ->].
Qed.

Lemma validate_policy_quiet rules : quietly (of_result (validate_policy_rules rules)).
Proof using.
  apply quietly_of_result. unfold validate_policy_rules.
  destruct (count_rules _ _) as [seen|e] eqn:E; cbn [rbind].
  - by destruct (find_first _ _) as [[]|].
  - revert E. generalize (replicate (length DEFAULT_POLICY_RULES) 0).
    induction (policy_lines rules) as [|r l IH]; intros seen; cbn [count_rules]; [done|].
    destruct (default_policy_rule_index r ≫= _) as [[]|]; [apply IH|by intros [= <-]].
Qed.

Lemma run_create_quiet step stage plan : quietly (lift_err failure_error (run_create step stage plan)).
Proof using HostFrame0.
  revert step stage; induction plan as [|c plan IH]; intros step stage t; simpl.
  { wp_struct. by split. }
  wp_struct. eapply wp_mono; [apply run_command_quiet|]. intros o t1 [H1 Ho].
  destruct o as [[[]|e]|]; wp_struct; [|by split..].
  eapply wp_mono; [|intros o t2 H2; exact H2]. specialize (IH (S step) (stage_after step stage) t1).
  intros l. specialize (IH l). unfold lift_err, quiet, lift_post in *.
  destruct (run_create (S step) (stage_after step stage) plan (World t1 l)) as [[[[]|e]|] w']; simpl in *;
    destruct IH as [IH Hf]; split; try done; by etrans.
Qed.

#[export] Instance SystemNetworkOps_laws fuel : NetworkOpsLaws (SystemNetworkOps fuel).
Proof using HostFrame0.
  split; simpl.
  - unfold check_clone_subnet_available, check_default_policy_rules.
    repeat (apply quietly_bind; [|intros ?]); try apply run_spec_quiet.
    + case_match; [by apply quietly_throw|apply validate_policy_quiet].
    + case_match; [by apply quietly_throw|apply check_routes_quiet].
  - intros k owner. apply claim_owner_marker_quiet.
  - intros net owner. apply run_create_quiet.
  - intros net owner stage. unfold system_rollback. apply quietly_bind.
    + apply quietly_for_each. intros c. apply run_allow_absent_quiet.
    + intros _. case_match; [apply release_owner_marker_quiet|apply quietly_ret].
  - intros net owner. unfold system_teardown. apply quietly_bind; [apply teardown_ownership_quiet|].
    assert (Hp : quietly (do! lift_err (λ detail, CneCommand ("remove clone egress for " +:+ veth_host net) detail)
                            (remove_clone_checked fuel (veth_host net)) in
                          do! for_each run_allow_absent (teardown_plan net) in
                          do! release_owner_marker (net_index net) owner in ret Remove)).
    { apply quietly_bind; [apply quietly_lift; [apply remove_clone_frames|done]|]. intros _.
      apply quietly_bind; [apply quietly_for_each; intros c; apply run_allow_absent_quiet|]. intros _.
      apply quietly_bind; [apply release_owner_marker_quiet|]. intros _. apply quietly_ret. }
    intros []; [done| |apply quietly_ret].
    apply quietly_bind; [apply reserved_resources_quiet|]. intros []; [|done].
    apply quietly_bind; [apply release_owner_marker_quiet|]. intros _. apply quietly_ret.
Qed.

End system_laws.

(** ** Allocation keeps custody *)

Lemma quietly_errs {A : Type} (m : io CloneNetError A) :
  quietly m → errs (λ e, match e with CneRollback _ _ => False | _ => True end) m.
Proof. intros Hm [t l]. apply (Hm t l). Qed.

Section custody.
  Context {O : NetworkOps} `{!NetworkOpsLaws O}.
  Variable request : ClaimRequest.

Abbreviation P k := (claim_path (req_state request) CLONENET_POOL k).
Abbreviation lock := (pjoin (req_state request) FREE_LOCK).
Abbreviation text := (claim_text (req_owner request) (req_me request)).

(** What an allocation may do to the state directory. *)
Definition custody (t : tree) (o : outcome CloneNetError CloneNet) (t' : tree) : Prop :=
  keeps_files t t' ∧ ∃ k, frame [P k; lock] t t' ∧
  match o with
  | Done (Ok net) => CloneNet_derive k = Ok net ∧ file t (P k) = None ∧ file t' (P k) = Some text
  | Done (Err (CneRollback _ _)) => file t (P k) = None ∧ file t' (P k) = Some text
  | _ => True
  end.

Lemma custody_frame (t : tree) o t' k :
  match o with Done (Ok _) | Done (Err (CneRollback _ _)) => False | _ => True end →
  keeps_files t t' → frame [P k; lock] t t' → custody t o t'.
Proof using. intros Ho Hk Hf. split; [done|]. exists k. split; [done|]. by destruct o as [[|[]]|]. Qed.

Lemma wp_claim_host_identity (t : tree) :
  wp (claim_host_identity request) (custody t) t.
Proof using NetworkOpsLaws0.
  unfold claim_host_identity. wp_struct. eapply wp_mono.
  { eapply wp_errs; [|apply wp_claim_with].
    - apply (errs_claim_with (λ e, match e with CneRollback _ _ => False | _ => True end)); [done|].
      intros k. apply quietly_errs, claim_global_quiet.
    - intros k t1. eapply wp_mono; [apply claim_global_quiet|]. by intros o t2 [H _]. }
  intros o t1 [[Hk H] He]. cbn [spec_state spec_pool spec_owner spec_me] in *.
  change (lock_name CLONENET_POOL) with FREE_LOCK in *.
  destruct o as [[c|e]|]; wp_struct;
    [|destruct H as [k Hf]; apply (custody_frame _ _ _ k); [by destruct e|done..]
     |by destruct H as [k Hf]; apply (custody_frame _ _ _ k)].
  destruct c as [k|cap|i m|i]; simpl.
  2-4: by apply (custody_frame _ _ _ 0); [done|done|eapply frame_weaken; [exact H|set_solver]].
  destruct H as (Hn & Hs & Hf). destruct (CloneNet_derive k) as [net|e] eqn:Hd.
  - split; [done|]. by exists k.
  - apply (custody_frame _ _ _ k); [|done..]. unfold CloneNet_derive in Hd.
    destruct (negb _); [by injection Hd as <-|done].
Qed.

Lemma custody_same (t : tree) o t1 t2 : custody t o t1 → same_files t1 t2 → custody t o t2.
Proof using.
  intros [Hk (k & Hf & Ho)] Hs. split; [intros q s Hq; rewrite Hs; by apply Hk|]. exists k.
  split; [intros q Hq; rewrite Hs; by apply Hf|]. by rewrite Hs.
Qed.

(** Releasing the claim just made takes the state directory back. *)
Lemma wp_release_claim k (t t1 : tree) :
  keeps_files t t1 → frame [P k; lock] t t1 → file t (P k) = None →
  wp (release_claim (req_state request) k (req_owner request))
     (λ o t', keeps_files t t' ∧ frame [P k; lock] t t' ∧
              match o with Done (Err (CneRollback _ _)) => False | _ => True end) t1.
Proof using.
  intros Hk Hf Hn. unfold release_claim. destruct (negb _); [by wp_struct|].
  unfold free. wp_struct. eapply wp_mono; [apply wp_free_with; intros u; by wp_struct|].
  intros o t2 (Hf2 & Hk2 & _ & _). change (lock_name CLONENET_POOL) with FREE_LOCK in *.
  assert (Hf' : frame [P k; lock] t t2) by (by eapply frame_trans).
  assert (Hk' : keeps_files t t2).
  { intros q s Hq. destruct (decide (q = P k)) as [->|Hp]; [congruence|]. by apply Hk2, Hk. }
  destruct o as [[|[]]|]; wp_struct; splits; done.
Qed.

Lemma wp_allocate_with (t : tree) : wp (allocate_with request) (custody t) t.
Proof using NetworkOpsLaws0.
  unfold allocate_with. wp_struct. eapply wp_mono; [apply preflight_quiet|].
  intros o t0 [H0 Ho]. destruct o as [[[]|e]|]; wp_struct.
  2-3: apply (custody_frame _ _ _ 0); [done|intros q s; by rewrite H0|intros q _; by rewrite H0].
  assert (Hc0 : ∀ o t', custody t0 o t' → custody t o t').
  { intros o t' [Hk (k & Hf & Hm)]. split; [intros q s Hq; apply Hk; by rewrite H0|]. exists k.
    split; [intros q Hq; by rewrite Hf, H0|]. rewrite <- H0. done. }
  eapply wp_mono; [apply wp_claim_host_identity|]. intros o t1 Hc%Hc0.
  destruct o as [[net|e]|]; wp_struct; [|done..].
  pose proof (create_quiet net (req_owner request) t1) as Hcr.
  assert (Hcr' : wp (create net (req_owner request)) (λ o t', same_files t1 t' ∧
            match o with Done (Err f) => match failure_error f with CneRollback _ _ => False | _ => True end
            | _ => True end) t1).
  { intros l. specialize (Hcr l). unfold lift_err, quiet in Hcr.
    by destruct (create _ _ _) as [[[]|] w']. }
  eapply wp_mono; [exact Hcr'|]. intros o t2 [H2 Hf2].
  destruct Hc as [Hk (k & Hf & Hd & Hn & Hs)].
  assert (Hf' : frame [P k; lock] t t2) by (intros q Hq; rewrite H2; by apply Hf).
  assert (Hk' : keeps_files t t2) by (intros q s Hq; rewrite H2; by apply Hk).
  destruct o as [[[]|f]|]; wp_struct; [|unfold rollback_failed_create; wp_struct|by apply (custody_frame _ _ _ k)].
  { split; [done|]. exists k. split; [done|]. by rewrite H2. }
  eapply wp_mono; [apply rollback_quiet|]. intros o t3 [H3 Ho3].
  assert (Hf3 : frame [P k; lock] t t3) by (intros q Hq; rewrite H3; by apply Hf').
  assert (Hk3 : keeps_files t t3) by (intros q s Hq; rewrite H3; by apply Hk').
  destruct o as [[[]|e]|]; wp_struct; [| |by apply (custody_frame _ _ _ k)].
  - pose proof (CloneNet_derive_Ok _ _ Hd) as (_ & -> & _).
    eapply wp_mono; [by apply wp_release_claim|]. intros o t4 (Hk4 & Hf4 & Ho4).
    destruct o as [[|]|]; wp_struct; by apply (custody_frame _ _ _ k).
  - split; [done|]. exists k. split; [done|]. by rewrite H3, H2.
Qed.

End custody.

(** C31.  Allocation never loses custody.  Whatever system calls and host
    commands fail and wherever the process dies, no existing file of the state
    directory changes and at most one claim file is new; success means the claim
    names the owner and the network is the claimed index's; and when undoing a
    half-made network failed, the claim is still there for reconciliation. *)
Theorem allocate_custody `{H : Host} `{!HostFrame H} fuel request t l o w' :
  allocate fuel request (World t l) = (o, w') → custody request t o (fs w').
Proof.
  intros E. pose proof (wp_allocate_with (O := SystemNetworkOps fuel) request t l) as Hw.
  unfold allocate in E. by rewrite E in Hw.
Qed.

(** A host, for witnesses: the untouched routing policy, one clone network
    already made, and every other command as [fails] says. *)
Definition routed_host (fails : list string → bool) : Host := {|
  run_program := λ _ args, ret
    match args with
    | ["-4"; "rule"; "show"] =>
        {| success := true; stdout := dump_of DEFAULT_POLICY_RULES; stderr := "" |}
    | ["-4"; "route"; "show"; "table"; "all"] =>
        {| success := true;
           stdout := dump_of ["default via 10.0.0.1 dev eth0"; "172.17.0.4/30 dev veth-h1 scope link src 172.17.0.5"];
           stderr := "" |}
    | _ => {| success := negb (fails args); stdout := ""; stderr := "refused" |}
    end;
  lock_transaction := ret ()
|}.

#[export] Instance routed_host_frame fails : HostFrame (routed_host fails).
Proof. split; simpl; intros; by apply wp_ret. Qed.

Definition sample_owner : string := "01jqzs5j3k8m2n4p6r7s9t0v1w".
Definition sample_request : ClaimRequest :=
  {| req_state := ["state"]; req_owner := sample_owner; req_me := {| claimer_pid := 7; claimer_starttime := 99 |};
     req_cap := 8; req_target := None |}.
Definition sample_tree : tree :=
  <[["state"] := Dir]> (<[["run"; "rooms"; "clonenet-owners"] := Dir]>
    (<[["run"; "rooms"; "clonenet-owners"; "1"] := Link "other"]> ∅)).

(** Bringing the link up fails, and so does deleting the namespace. *)
Lemma allocate_custody_witness :
  let h := routed_host (λ args, bool_decide (args ∈ [["link"; "set"; "veth-h2"; "up"]; ["netns"; "del"; "rooms-c2"]])) in
  let r := @allocate h 1 sample_request (World sample_tree []) in
  match fst r with Done (Err (CneRollback _ _)) => True | _ => False end ∧
  custody sample_request sample_tree (fst r) (fs (snd r)).
Proof.
  intros h r. split; [vm_compute; exact I|].
  apply (@allocate_custody h (routed_host_frame _) 1 sample_request sample_tree []), surjective_pairing.
Defined.

(** ** Undoing a half-made network *)

(** The commands that take back what a creation command made.  Addresses,
    routes and sysctls live on a link or in a namespace and go with it. *)
Definition undo (c : CommandSpec) : list CommandSpec :=
  match Host.program c, Host.args c with
  | "ip", ["netns"; "add"; ns] => [command "ip" ["netns"; "del"; ns]]
  | "ip", ["link"; "add"; host; "type"; "veth"; "peer"; "name"; guest] =>
      [command "ip" ["link"; "del"; host]; command "ip" ["link"; "del"; guest]]
  | "iptables", "-w" :: wait :: "-I" :: chain :: _ :: rule =>
      [command "iptables" ("-w" :: wait :: "-D" :: chain :: rule)]
  | _, _ => []
  end.

(** Run commands until one fails. *)
Fixpoint run_all `{Host} (plan : list CommandSpec) : io CloneNetError unit :=
  match plan with
  | [] => ret ()
  | c :: plan => do! run_command c in run_all plan
  end.

(** The stage after [k] commands of the plan have run. *)
Fixpoint stage_of (k : nat) : CreationStage :=
  match k with 0 => StOwnerMarker | S k => stage_after k (stage_of k) end.

Lemma run_create_fails `{Host} plan k w f w' :
  run_create k (stage_of k) plan w = (Done (Err f), w') →
  ∃ j c w1, plan !! j = Some c ∧ run_all (take j plan) w = (Done (Ok ()), w1) ∧
    run_command c w1 = (Done (Err (failure_error f)), w') ∧ failure_stage f = stage_of (k + j).
Proof.
  revert k w; induction plan as [|c plan IH]; intros k w; [done|]. cbn [run_create].
  unfold bind at 1, lift_err. destruct (run_command c w) as [[[[]|e]|] w1] eqn:E; simpl map_err; cbv iota; [|..|done].
  - intros Hr. apply (IH (S k)) in Hr as (j & d & w2 & Hj & Hall & Hd & Hs).
    exists (S j), d, w2. splits; [done| |done|by rewrite Nat.add_succ_r].
    simpl. unfold bind. by rewrite E.
  - intros [= <- <-]. exists 0, c, w. splits; [done..|]. by rewrite Nat.add_0_r.
Qed.

Lemma rollback_undoes net k :
  k < length (create_plan net) → rollback_plan net (stage_of k) = take k (create_plan net) ≫= undo.
Proof. intros Hk. do 15 (destruct k as [|k]; [reflexivity|]). simpl in Hk. lia. Qed.

(** A network whose creation fails is undone exactly: every command before
    the failing one succeeded, and the rollback of the reported stage consists
    of the commands that take those back, in order, and of nothing else. *)
Theorem create_failure_undone `{H : Host} net owner w f w' :
  system_create net owner w = (Done (Err f), w') →
  ∃ k c w1, create_plan net !! k = Some c ∧
    run_all (take k (create_plan net)) w = (Done (Ok ()), w1) ∧
    run_command c w1 = (Done (Err (failure_error f)), w') ∧
    rollback_plan net (failure_stage f) = take k (create_plan net) ≫= undo.
Proof.
  unfold system_create. intros Hf. apply (run_create_fails _ 0) in Hf as (k & c & w1 & Hk & Hall & Hc & ->).
  exists k, c, w1. splits; try done. apply rollback_undoes. by eapply lookup_lt_Some.
Qed.

Definition sample_net : CloneNet :=
  {| net_index := 3; netns := "rooms-c3"; veth_host := "veth-h3"; veth_guest := "veth-g3";
     host_ip := ipv4 172 17 0 13; netns_ip := ipv4 172 17 0 14; net_prefix := 30 |}.

Lemma create_failure_undone_witness :
  let h := routed_host (λ args, bool_decide (args = ["link"; "set"; "veth-h3"; "up"])) in
  ∃ k c w1, create_plan sample_net !! k = Some c ∧
    @run_all h (take k (create_plan sample_net)) (World ∅ []) = (Done (Ok ()), w1) ∧
    @run_command h c w1 = (Done (Err (CneCommand "ip link set veth-h3 up" "refused")), World ∅ []) ∧
    rollback_plan sample_net StVeth = take k (create_plan sample_net) ≫= undo.
Proof.
  intros h.
  apply (@create_failure_undone h sample_net sample_owner (World ∅ [])
    {| failure_error := CneCommand "ip link set veth-h3 up" "refused"; failure_stage := StVeth |}).
  vm_compute. reflexivity.
Defined.

(** ** Another owner's network is not touched *)

(** Teardown respects the host-global owner marker: when the marker of the
    index names another owner, it runs no host command and changes nothing,
    whatever calls fail, and answers that the claim must be kept. *)
Theorem teardown_foreign `{H : Host} fuel net owner other t l :
  t !! owner_marker (net_index net) = Some (Link other) → path_eq other owner = false →
  let '(o, w') := system_teardown fuel net owner (World t l) in
  fs w' = t ∧ (o = Done (Ok Keep) ∨ (∃ e, o = Done (Err (CneIo e))) ∨ o = Crashed).
Proof.
  intros Hm Hne.
  assert (Hw : wp (system_teardown fuel net owner) (λ o t', t' = t ∧
    (o = Done (Ok Keep) ∨ (∃ e, o = Done (Err (CneIo e))) ∨ o = Crashed)) t).
  { unfold system_teardown, teardown_ownership. wp_struct. eapply wp_mono; [apply wp_marker_owner|].
    intros o t' [-> Ho]. destruct o as [[m|e]|]; wp_struct; [|destruct Ho as [e' ->]; eauto|eauto].
    destruct m as [a|]; [|congruence]. simplify_eq. rewrite Hne. wp_struct. eauto. }
  specialize (Hw l). by destruct (system_teardown _ _ _ _).
Qed.

Lemma teardown_foreign_witness :
  let h := routed_host (λ _, false) in
  let t := <[owner_marker 3 := Link "01jqzs5j3k8m2n4p6r7s9t0v1x"]> (∅ : tree) in
  fs (snd (@system_teardown h 1 sample_net sample_owner (World t []))) = t.
Proof.
  intros h t.
  pose proof (@teardown_foreign h 1 sample_net sample_owner "01jqzs5j3k8m2n4p6r7s9t0v1x" t []
    ltac:(vm_compute; reflexivity) ltac:(vm_compute; reflexivity)) as Hf.
  destruct (system_teardown _ _ _ _) as [o w']. exact (proj1 Hf).
Defined.

(** ** Batches are all or nothing *)

Definition worker := (nat * string * joined (result BatchWorkerError CloneNet))%type.

Definition allocation_of (w : worker) : option BatchAllocation :=
  match w with
  | (ordinal, owner, Joined (Ok network)) =>
      Some {| alloc_ordinal := ordinal; alloc_owner := owner; alloc_network := network |}
  | _ => None
  end.

Definition failure_of (w : worker) : option BatchFailure :=
  match w with
  | (_, _, Joined (Ok _)) => None
  | (ordinal, owner, Joined (Err error)) =>
      Some {| fail_ordinal := ordinal; fail_owner := owner; fail_detail := worker_detail error;
              fail_pool_full_cap := worker_pool_full_cap error |}
  | (ordinal, owner, Panicked) =>
      Some {| fail_ordinal := ordinal; fail_owner := owner; fail_detail := "allocator worker panicked";
              fail_pool_full_cap := None |}
  end.

Lemma collect_spec workers :
  collect_allocation_workers workers = (omap allocation_of workers, omap failure_of workers).
Proof.
  induction workers as [|[[i owner] w] workers IH]; [done|]. cbn [collect_allocation_workers].
  rewrite IH, !omap_cons_eq. by destruct w as [[]|].
Qed.

Lemma omap_sorted {A B} (g : A → option B) (ka : A → nat) (kb : B → nat) l :
  (∀ a b, g a = Some b → kb b = ka a) → StronglySorted lt (ka <$> l) → StronglySorted lt (kb <$> omap g l).
Proof.
  intros Hg. induction l as [|a l IH]; [done|]. rewrite fmap_cons. intros [Hs Hlt]%StronglySorted_inv.
  rewrite omap_cons_eq. destruct (g a) as [b|] eqn:E; [|by apply IH]. rewrite fmap_cons.
  constructor; [by apply IH|]. rewrite (Hg _ _ E). apply Forall_forall. intros k Hk.
  apply list_elem_of_fmap in Hk as (b' & -> & Hb). apply list_elem_of_omap in Hb as (a' & Ha & Hab).
  rewrite (Hg _ _ Hab). rewrite Forall_forall in Hlt. by apply Hlt, list_elem_of_fmap_2.
Qed.

Lemma sort_by_key_sorted {A} (key : A → nat) l : StronglySorted lt (key <$> l) → sort_by_key key l = l.
Proof.
  induction l as [|a l IH]; [done|]. rewrite fmap_cons. intros [Hs Hlt]%StronglySorted_inv. simpl.
  rewrite IH by done. destruct l as [|b l]; [done|]. rewrite fmap_cons in Hlt. apply Forall_cons in Hlt as [Hlt _].
  simpl. by destruct (Nat.leb_spec (key a) (key b)); [|lia].
Qed.

Lemma imap_sorted {A B} (f : nat → A → B) (key : B → nat) l k :
  (∀ i a, key (f i a) = k + i) → StronglySorted lt (key <$> imap f l) ∧ Forall (λ b, k ≤ key b) (imap f l).
Proof.
  revert f k; induction l as [|a l IH]; intros f k Hf; [split; constructor|]. rewrite imap_cons.
  destruct (IH (f ∘ S) (S k)) as [Hs Hle]; [intros i b; unfold compose; rewrite Hf; lia|].
  split; [rewrite fmap_cons; constructor; [done|]|constructor; [rewrite Hf; lia|]].
  - rewrite Hf, Nat.add_0_r. apply Forall_fmap. eapply Forall_impl; [exact Hle|]. simpl. lia.
  - eapply Forall_impl; [exact Hle|]. simpl. lia.
Qed.

Section batch_spec.
  Variable allocate_one : nat → string → joined (result BatchWorkerError CloneNet).
  Variable rollback_one : BatchAllocation → joined (result string unit).
  Variable owner_ids : list string.

Definition workers : list worker :=
  imap (λ ordinal owner_id, (ordinal, owner_id, allocate_one ordinal owner_id)) owner_ids.

Lemma workers_sorted : StronglySorted lt ((λ w : worker, fst (fst w)) <$> workers).
Proof. by apply (imap_sorted _ _ _ 0). Qed.

Lemma elem_of_workers w :
  w ∈ workers ↔ ∃ i owner, owner_ids !! i = Some owner ∧ w = (i, owner, allocate_one i owner).
Proof.
  unfold workers. rewrite list_elem_of_lookup. setoid_rewrite list_lookup_imap_Some. split.
  - intros (i & owner & Ho & ->). eauto.
  - intros (i & owner & Ho & ->). eauto.
Qed.

(** The rollback's verdict on one allocation, when it failed. *)
Definition rollback_failure (a : BatchAllocation) : option BatchFailure :=
  match rollback_one a with
  | Joined (Ok _) => None
  | Joined (Err detail) => Some (batch_failure a detail)
  | Panicked => Some (batch_failure a "rollback worker panicked")
  end.

Lemma allocate_batch_eq :
  allocate_batch_with allocate_one rollback_one owner_ids =
    let allocs := omap allocation_of workers in
    let fails := omap failure_of workers in
    if bool_decide (fails = []) then Ok allocs
    else Err {| failures := fails; rollback_failures := omap rollback_failure allocs |}.
Proof.
  unfold allocate_batch_with, run_allocation_workers. fold workers. rewrite collect_spec.
  assert (Ha : StronglySorted lt (alloc_ordinal <$> omap allocation_of workers)).
  { eapply omap_sorted; [|apply workers_sorted]. by intros [[i o] [[]|]] b [= <-]. }
  rewrite (sort_by_key_sorted alloc_ordinal) by done.
  rewrite (sort_by_key_sorted fail_ordinal).
  2: { eapply omap_sorted; [|apply workers_sorted]. by intros [[i o] [[]|]] b [= <-]. }
  cbv zeta. case_bool_decide; [done|]. do 2 f_equal. unfold run_rollback_workers. fold rollback_failure.
  apply sort_by_key_sorted. eapply omap_sorted; [|exact Ha]. unfold rollback_failure.
  intros a b. by destruct (rollback_one a) as [[]|]; intros [= <-].
Qed.

(** C32.  A batch is all or nothing.  It succeeds exactly when every worker did,
    with the networks in caller order; otherwise it reports precisely the
    workers that failed or panicked and, every other member having been rolled
    back, precisely the members whose rollback failed; and it is called a full
    pool only when that was each worker's reason and every rollback was clean. *)
Theorem allocate_batch_all_or_nothing :
  let ok i owner net := owner_ids !! i = Some owner ∧ allocate_one i owner = Joined (Ok net) in
  match allocate_batch_with allocate_one rollback_one owner_ids with
  | Ok allocs =>
      (∀ i owner, owner_ids !! i = Some owner → ∃ net, ok i owner net) ∧
      (∀ a, a ∈ allocs ↔ ok (alloc_ordinal a) (alloc_owner a) (alloc_network a)) ∧
      StronglySorted lt (alloc_ordinal <$> allocs)
  | Err e =>
      (∃ i owner, owner_ids !! i = Some owner ∧ ∀ net, ¬ ok i owner net) ∧
      (∀ f, f ∈ failures e ↔ ∃ i owner, owner_ids !! i = Some owner ∧
         failure_of (i, owner, allocate_one i owner) = Some f) ∧
      (∀ f, f ∈ rollback_failures e ↔ ∃ a, ok (alloc_ordinal a) (alloc_owner a) (alloc_network a) ∧
         rollback_failure a = Some f) ∧
      (∀ cap, pool_full_cap e = Some cap ↔
         rollback_failures e = [] ∧ Forall (λ f, fail_pool_full_cap f = Some cap) (failures e))
  end.
Proof.
  intros ok.
  assert (Hall : ∀ a, a ∈ omap allocation_of workers ↔ ok (alloc_ordinal a) (alloc_owner a) (alloc_network a)).
  { intros a. rewrite list_elem_of_omap. setoid_rewrite elem_of_workers. unfold ok. split.
    - intros (w & (i & o & Ho & ->) & Hw). simpl in Hw. by destruct (allocate_one i o) as [[]|] eqn:E; simplify_eq.
    - intros [Ho Ha]. eexists. split; [eauto|]. simpl. rewrite Ha. by destruct a. }
  assert (Hfail : ∀ f, f ∈ omap failure_of workers ↔ ∃ i owner, owner_ids !! i = Some owner ∧
            failure_of (i, owner, allocate_one i owner) = Some f).
  { intros f. rewrite list_elem_of_omap. setoid_rewrite elem_of_workers. naive_solver. }
  rewrite allocate_batch_eq. cbv zeta. case_bool_decide as Hn.
  - splits; [|done|].
    + intros i o Ho. destruct (allocate_one i o) as [[net|e]|] eqn:E; [by exists net|exfalso..];
        eapply (not_elem_of_nil (A:=BatchFailure)); rewrite <- Hn; apply Hfail; exists i, o; by rewrite E.
    + eapply omap_sorted; [|apply workers_sorted]. by intros [[i o] [[]|]] b [= <-].
  - simpl. splits; [|done| |].
    + destruct (omap failure_of workers) as [|f fs] eqn:E; [done|].
      destruct (proj1 (Hfail f) ltac:(left)) as (i & o & Ho & Hf). exists i, o. split; [done|].
      intros net [_ Hnet]. by rewrite Hnet in Hf.
    + intros f. rewrite list_elem_of_omap. setoid_rewrite Hall. done.
    + intros cap. unfold pool_full_cap. simpl. rewrite bool_decide_eq_false_2 by done. cbn [orb].
      case_bool_decide as Hr; cbn [negb]; [|split; [done|by intros []]].
      destruct (omap failure_of workers) as [|f fs]; [done|]. cbn [head mbind option_bind].
      rewrite Forall_forall. split.
      * destruct (fail_pool_full_cap f) as [c|]; [|done]. cbn [mbind option_bind].
        destruct (forallb _ _) eqn:Hfb; [|done]. intros [= ->]. split; [done|].
        rewrite forallb_forall in Hfb. intros g Hg. apply list_elem_of_In in Hg. by specialize (Hfb g Hg); boolify.
      * intros [_ H]. rewrite (H f ltac:(left)). cbn [mbind option_bind].
        assert (Hfb : forallb (λ g, bool_decide (fail_pool_full_cap g = Some cap)) (f :: fs) = true).
        { apply forallb_forall. intros g Hg. apply bool_decide_eq_true, H. by apply list_elem_of_In. }
        by rewrite Hfb.
Qed.

End batch_spec.

(** ** What the preflight has seen *)

Lemma check_routes_ok routes w w' :
  check_routes routes w = (Done (Ok ()), w') →
  fs w' = fs w ∧ Forall (λ route, classify_route route = Disjoint ∨
    ∃ k target, classify_route route = Rooms k ∧ fs w !! owner_marker k = Some (Link target)) routes.
Proof.
  revert w; induction routes as [|route routes IH]; intros w Hr; simpl in Hr; [by injection Hr as ->|].
  destruct (classify_route route) as [|k|] eqn:E; [|..|done].
  - apply IH in Hr as [Hw Hr]. split; [done|]. constructor; eauto.
  - apply bind_done in Hr as (m & w1 & Hm & Hr). destruct w as [t l].
    pose proof (wp_marker_owner k t l) as Hw. rewrite Hm in Hw. destruct Hw as [Ht Hmk]. simpl in Ht, Hmk.
    case_bool_decide as Hs; [|done]. destruct Hs as [target ->]. apply IH in Hr as [Hw Hr].
    rewrite Ht in Hw, Hr. split; [done|]. constructor; [|done]. right. eauto.
Qed.

(** The preflight is sound: it passes only after reading the routing policy
    and the routes, finding the policy to be the kernel's default one, and
    finding every top-level route either disjoint from the clone supernet in the
    sense of the route check or a clone network's own whose owner marker
    exists. *)
Theorem preflight_sound `{H : Host} w w' :
  check_clone_subnet_available w = (Done (Ok ()), w') →
  ∃ rules routes w1 w2,
    run_program "ip" ["-4"; "rule"; "show"] w = (Done (Ok rules), w1) ∧ success rules = true ∧
    run_program "ip" ["-4"; "route"; "show"; "table"; "all"] w1 = (Done (Ok routes), w2) ∧
    success routes = true ∧ fs w' = fs w2 ∧
    split_whitespace <$> policy_lines (stdout rules) ≡ₚ split_whitespace <$> DEFAULT_POLICY_RULES ∧
    ∀ route, route ∈ top_level_routes (stdout routes) →
      classify_route route = Disjoint ∨
      ∃ k target, classify_route route = Rooms k ∧ fs w' !! owner_marker k = Some (Link target).
Proof.
  unfold check_clone_subnet_available, check_default_policy_rules, run_spec. intros Hc.
  apply bind_done in Hc as ([] & w1 & Hp & Hc). apply bind_done in Hp as (rules & w1' & Hr%lift_err_done & Hp).
  destruct (success rules) eqn:Hs1; [|done]. cbn [negb] in Hp. apply of_result_done in Hp as [Hp ->].
  apply bind_done in Hc as (routes & w2 & Hr2%lift_err_done & Hc).
  destruct (success routes) eqn:Hs2; [|done]. cbn [negb] in Hc. apply check_routes_ok in Hc as [Hw Hc].
  eexists rules, routes, _, w2. splits; try done; [by apply policy_rules_ok|].
  rewrite Hw. by rewrite Forall_forall in Hc.
Qed.

Lemma preflight_sound_witness :
  let h := routed_host (λ _, false) in
  ∃ rules : CmdOutput,
    split_whitespace <$> policy_lines (stdout rules) ≡ₚ split_whitespace <$> DEFAULT_POLICY_RULES.
Proof.
  intros h.
  destruct (@preflight_sound h (World sample_tree []) (World sample_tree [])) as (rules & _ & _ & _ & _ & _ & _ & _ & _ & Hp & _).
  - vm_compute. reflexivity.
  - by exists rules.
Defined.
