(* ===== verification/Pcap.v ===== *)
(** * Pcap: the egress witness read from a raw capture ([artifacts.rs])

    From the bytes of a libpcap file to the destinations the guest contacted
    and the names it asked for.  The bytes are chosen by an adversary; every
    definition is total. *)

From S2P Require Import Prelude RStr Fs Cidr.
From stdpp Require Import options.

Abbreviation bytes := (list byte) (only parsing).

(** ** Byte strings *)

(** [slice::get(a..b)]. *)
Definition slice (a b : nat) (l : bytes) : option bytes :=
  if ((a <=? b) && (b <=? length l))%nat then Some (take (b - a) (drop a l)) else None.

(** [slice::get(a..)]. *)
Definition slice_from (a : nat) (l : bytes) : option bytes :=
  if (a <=? length l)%nat then Some (drop a l) else None.

Fixpoint from_be (l : bytes) (acc : N) : N :=
  match l with [] => acc | b :: l => from_be l (acc * 256 + code b)%N end.

Definition be (l : bytes) : N := from_be l 0.

Inductive ByteOrder := Little | Big.

#[export] Instance ByteOrder_eq_dec : EqDecision ByteOrder.
Proof. solve_decision. Defined.

(** [u32::from_le_bytes] and [u32::from_be_bytes]. *)
Definition order_u32 (order : ByteOrder) (b : bytes) : N :=
  match order with Little => be (rev b) | Big => be b end.

(** ** [String::from_utf8_lossy] *)

Definition continuation : byte → bool := in_range 128 191.

(** U+FFFD. *)
Definition replacement (rest : string) : string := String "239" (String "191" (String "189" rest)).

(** What may follow a lead byte: the range of the second byte and how many plain
    continuation bytes come after it. *)
Definition utf8_tail (b : byte) : option ((byte → bool) * nat) :=
  let c := code b in
  if in_range 194 223 b then Some (continuation, 0) else
  if (c =? 224)%N then Some (in_range 160 191, 1) else
  if in_range 225 236 b || in_range 238 239 b then Some (continuation, 1) else
  if (c =? 237)%N then Some (in_range 128 159, 1) else
  if (c =? 240)%N then Some (in_range 144 191, 2) else
  if in_range 241 243 b then Some (continuation, 2) else
  if (c =? 244)%N then Some (in_range 128 143, 2) else None.

(** [pending] is the valid start of a sequence, [p] and [n] what it still needs.
    A sequence that breaks off is one replacement character. *)
Fixpoint utf8_lossy (pending : string) (need : option ((byte → bool) * nat)) (l : bytes) : string :=
  let start b l :=
    if (code b <? 128)%N then String b (utf8_lossy "" None l)
    else match utf8_tail b with
         | Some need => utf8_lossy (String b "") (Some need) l
         | None => replacement (utf8_lossy "" None l)
         end in
  match need, l with
  | None, [] => ""
  | None, b :: l => start b l
  | Some _, [] => replacement ""
  | Some (p, n), b :: l =>
      if p b then
        let done_ := pending +:+ String b "" in
        match n with
        | 0 => done_ +:+ utf8_lossy "" None l
        | S n => utf8_lossy done_ (Some (continuation, n)) l
        end
      else replacement (start b l)
  end.

Definition from_utf8_lossy (l : bytes) : string := utf8_lossy "" None l.

(** ** The capture file *)

Definition PCAP_GLOBAL_HEADER_LEN : nat := 24.
Definition PCAP_RECORD_HEADER_LEN : nat := 16.
Definition DLT_ETHERNET : N := 1.
Definition ETHERNET_HEADER_LEN : nat := 14.
Definition ETHERTYPE_IPV4 : N := 2048.
Definition IP_PROTO_TCP : N := 6.
Definition IP_PROTO_UDP : N := 17.
Definition PORT_DNS : N := 53.
Definition PORT_DHCP_SERVER : N := 67.
Definition PORT_DHCP_CLIENT : N := 68.

Definition magic_order (magic : bytes) : option ByteOrder :=
  let m := code <$> magic in
  if bool_decide (m ∈ [[161; 178; 195; 212]; [161; 178; 60; 77]])%N then Some Big
  else if bool_decide (m ∈ [[212; 195; 178; 161]; [77; 60; 178; 161]])%N then Some Little
  else None.

Definition parse_pcap_global_header (raw : bytes) : option (ByteOrder * bytes) :=
  header ← slice 0 PCAP_GLOBAL_HEADER_LEN raw;
  magic ← slice 0 4 header;
  byte_order ← magic_order magic;
  link ← slice 20 24 header;
  if negb (order_u32 byte_order link =? DLT_ETHERNET)%N then None else
  rest ← slice_from PCAP_GLOBAL_HEADER_LEN raw;
  Some (byte_order, rest).

Definition next_packet (order : ByteOrder) (rest : bytes) : option (bytes * bytes) :=
  header ← slice 0 PCAP_RECORD_HEADER_LEN rest;
  incl ← slice 8 12 header;
  let start := PCAP_RECORD_HEADER_LEN in
  let finish := start + N.to_nat (order_u32 order incl) in
  packet ← slice start finish rest;
  tail ← slice_from finish rest;
  Some (packet, tail).

(** The [while let] over the records; every record takes bytes. *)
Fixpoint walk (fuel : nat) (order : ByteOrder) (rest : bytes) : list bytes :=
  match fuel with
  | 0 => []
  | S fuel =>
      match next_packet order rest with
      | Some (packet, tail) => packet :: walk fuel order tail
      | None => []
      end
  end.

Definition packets (order : ByteOrder) (rest : bytes) : list bytes := walk (S (length rest)) order rest.

(** ** Frames *)

Record GatewayLocal := { gateway : N; guest : N }.

Record Flow := { flow_dst_ip : N; flow_dst_port : N; flow_proto : string; flow_dns_name : option string }.

(** [octets]. *)
Definition octets (b : bytes) : option N := if (length b =? 4)%nat then Some (be b) else None.

Definition parse_ipv4_packet (ip : bytes) : option (N * N * N * bytes) :=
  version_ihl ← head ip;
  if negb (N.shiftr (code version_ihl) 4 =? 4)%N then None else
  let ihl := N.to_nat (N.land (code version_ihl) 15 * 4) in
  if (ihl <? 20)%nat then None else
  frag ← slice 6 8 ip;
  if negb (N.land (be frag) 8191 =? 0)%N then None else
  proto ← ip !! 9;
  src ← slice 12 16 ip ≫= octets;
  dst ← slice 16 20 ip ≫= octets;
  l4 ← slice_from ihl ip;
  Some (src, dst, code proto, l4).

Definition parse_l4 (proto : N) (l4 : bytes) : option (N * bytes * string) :=
  if (proto =? IP_PROTO_TCP)%N then
    dst_port ← slice 2 4 l4;
    let payload := default [] (
      b ← l4 !! 12; slice_from (N.to_nat (N.shiftr (code b) 4 * 4)) l4) in
    Some (be dst_port, payload, "tcp")
  else if (proto =? IP_PROTO_UDP)%N then
    dst_port ← slice 2 4 l4;
    Some (be dst_port, default [] (slice_from 8 l4), "udp")
  else None.

(** The label loop from [pos]. *)
Fixpoint dns_labels (fuel pos : nat) (payload : bytes) (labels : list string) : option (list string) :=
  match fuel with
  | 0 => None
  | S fuel =>
      len ← payload !! pos;
      if (code len =? 0)%N then Some labels else
      if negb (N.land (code len) 192 =? 0)%N then None else
      let pos := pos + 1 in
      let len := N.to_nat (code len) in
      label ← slice pos (pos + len) payload;
      dns_labels fuel (pos + len) payload (labels ++ [from_utf8_lossy label])
  end.

Definition parse_dns_qname (payload : bytes) : option string :=
  qdcount ← slice 4 6 payload;
  if (be qdcount =? 0)%N then None else
  labels ← dns_labels (S (length payload)) 12 payload [];
  if bool_decide (labels = []) then None else Some (join "." labels).

Definition parse_guest_flow (frame : bytes) (local : GatewayLocal) : option Flow :=
  ethertype ← slice 12 14 frame;
  if negb (be ethertype =? ETHERTYPE_IPV4)%N then None else
  ip ← slice_from ETHERNET_HEADER_LEN frame;
  '(_, dst_ip, proto, l4) ← parse_ipv4_packet ip;
  if (dst_ip =? gateway local)%N || (dst_ip =? guest local)%N then None else
  '(dst_port, payload, proto_str) ← parse_l4 proto l4;
  if (dst_port =? PORT_DHCP_SERVER)%N || (dst_port =? PORT_DHCP_CLIENT)%N then None else
  let dns_name := if (dst_port =? PORT_DNS)%N then parse_dns_qname payload else None in
  Some {| flow_dst_ip := dst_ip; flow_dst_port := dst_port; flow_proto := proto_str; flow_dns_name := dns_name |}.

(** ** Accumulation *)

Definition flow_key : Type := N * N * string.
Definition key_of (f : Flow) : flow_key := (flow_dst_ip f, flow_dst_port f, flow_proto f).

(** The order of [(Ipv4Addr, u16, &str)]. *)
Definition key_cmp (a b : flow_key) : comparison :=
  let '(ip, port, proto) := a in
  let '(ip', port', proto') := b in
  match (ip ?= ip')%N with
  | Eq => match (port ?= port')%N with Eq => str_cmp proto proto' | c => c end
  | c => c
  end.

(** [*counts.entry(key).or_insert(0) += 1] on a [BTreeMap], kept as the sorted
    list of its entries.  A count stays below the number of frames. *)
Fixpoint bump (k : flow_key) (m : list (flow_key * N)) : list (flow_key * N) :=
  match m with
  | [] => [(k, 1%N)]
  | (k', n) :: m' =>
      match key_cmp k k' with
      | Lt => (k, 1%N) :: m
      | Eq => (k', n + 1)%N :: m'
      | Gt => (k', n) :: bump k m'
      end
  end.

(** [BTreeSet::insert]. *)
Fixpoint set_insert (x : string) (l : list string) : list string :=
  match l with
  | [] => [x]
  | y :: l' =>
      match str_cmp x y with Lt => x :: l | Eq => l | Gt => y :: set_insert x l' end
  end.

Record FlowAccumulator := { counts : list (flow_key * N); dns : list string }.

Definition FlowAccumulator_new : FlowAccumulator := {| counts := []; dns := [] |}.

Definition observe (local : GatewayLocal) (acc : FlowAccumulator) (frame : bytes) : FlowAccumulator :=
  match parse_guest_flow frame local with
  | None => acc
  | Some flow =>
      {| counts := bump (key_of flow) (counts acc);
         dns := match flow_dns_name flow with Some name => set_insert name (dns acc) | None => dns acc end |}
  end.

(** ** The witness *)

Definition WITNESS_SCHEMA_VERSION : N := 2.

Inductive EgressPolicy := EpObserve | EpNone | EpAllowlist.

Record Destination := { dest_ip : string; dest_port : N; dest_proto : string; dest_packets : N }.

Record Witness := {
  w_schema_version : N;
  w_tap : string;
  w_capture_complete : bool;
  w_egress_policy : EgressPolicy;
  w_permitted : list string;
  w_destinations : list Destination;
  w_blocked : list Destination;
  w_dns_queries : list string
}.

Definition Witness_empty (tap : string) (capture_complete : bool) : Witness :=
  {| w_schema_version := WITNESS_SCHEMA_VERSION; w_tap := tap; w_capture_complete := capture_complete;
     w_egress_policy := EpObserve; w_permitted := []; w_destinations := []; w_blocked := [];
     w_dns_queries := [] |}.

Definition destination_of (entry : flow_key * N) : Destination :=
  let '((ip, port, proto), packets) := entry in
  {| dest_ip := show_ipv4 ip; dest_port := port; dest_proto := proto; dest_packets := packets |}.

Definition into_witness (acc : FlowAccumulator) (tap : string) (capture_complete : bool) : Witness :=
  {| w_schema_version := WITNESS_SCHEMA_VERSION; w_tap := tap; w_capture_complete := capture_complete;
     w_egress_policy := EpObserve; w_permitted := []; w_destinations := destination_of <$> counts acc;
     w_blocked := []; w_dns_queries := dns acc |}.

Definition summarize_pcap (raw : bytes) (tap : string) (local : GatewayLocal) (complete : bool) : Witness :=
  match parse_pcap_global_header raw with
  | None => Witness_empty tap complete
  | Some (byte_order, rest) =>
      into_witness (fold_left (observe local) (packets byte_order rest) FlowAccumulator_new) tap complete
  end.

(** ** The policy on top *)

Definition cidr_contains (net prefix : string) (addr : N) : bool :=
  match parse_ipv4 net, parse_uint u8_max prefix with
  | Some base, Some bits =>
      if (32 <? bits)%N then false else
      let mask := cidr_mask bits in
      (N.land base mask =? N.land addr mask)%N
  | _, _ => false
  end.

Definition entry_matches (addr : N) (entry : string) : bool :=
  match split_once "/" entry with
  | Some (net, prefix) => cidr_contains net prefix addr
  | None => bool_decide (parse_ipv4 entry = Some addr)
  end.

Definition ip_permitted (ip : string) (permitted : list string) : bool :=
  match parse_ipv4 ip with
  | None => false
  | Some addr => existsb (entry_matches addr) permitted
  end.

Definition record_egress (witness : Witness) (policy : EgressPolicy) (permitted : list string) : Witness :=
  {| w_schema_version := w_schema_version witness; w_tap := w_tap witness;
     w_capture_complete := w_capture_complete witness; w_egress_policy := policy; w_permitted := permitted;
     w_destinations := w_destinations witness;
     w_blocked := match policy with
                  | EpObserve => []
                  | EpNone | EpAllowlist =>
                      filter (λ dest, ip_permitted (dest_ip dest) permitted = false) (w_destinations witness)
                  end;
     w_dns_queries := w_dns_queries witness |}.

(** ** Slices *)

Lemma slice_Some a b l s : slice a b l = Some s ↔ (a ≤ b ≤ length l)%nat ∧ s = take (b - a) (drop a l).
Proof.
  unfold slice. destruct (Nat.leb_spec a b), (Nat.leb_spec b (length l)); cbn [andb];
    (split; [intros [=]|intros [? ->]]); try lia; try done; by subst.
Qed.

Lemma slice_app a b l k : (b ≤ length l)%nat → slice a b (l ++ k) = slice a b l.
Proof.
  intros Hb. unfold slice. rewrite length_app.
  destruct (Nat.leb_spec a b), (Nat.leb_spec b (length l)), (Nat.leb_spec b (length l + length k)); try lia;
    cbn [andb]; try done.
  by rewrite (drop_app_le l k a), (take_app_le (drop a l) k) by (rewrite ?length_drop; lia).
Qed.

Lemma slice_mid l s k : slice (length l) (length l + length s) (l ++ s ++ k) = Some s.
Proof.
  apply slice_Some. rewrite !length_app. split; [lia|].
  replace (length l + length s - length l) with (length s) by lia.
  by rewrite drop_app_length, take_app_length.
Qed.

Lemma slice_at a b l s k : length l = a → b = a + length s → slice a b (l ++ s ++ k) = Some s.
Proof. intros <- ->. apply slice_mid. Qed.

(** A slice reads only what it covers. *)
Lemma slice_ext a b l l' :
  length l = length l' → (∀ i, (a ≤ i < b)%nat → l !! i = l' !! i) → slice a b l = slice a b l'.
Proof.
  intros Hlen H. unfold slice. rewrite Hlen. destruct (_ && _); [|done]. f_equal.
  apply list_eq. intros i. destruct (decide (i < b - a)%nat) as [Hi|Hi].
  - rewrite !lookup_take_lt, !lookup_drop by done. apply H. lia.
  - by rewrite !lookup_take_ge by lia.
Qed.

Lemma slice_from_ext a l l' :
  length l = length l' → (∀ i, (a ≤ i)%nat → l !! i = l' !! i) → slice_from a l = slice_from a l'.
Proof.
  intros Hlen H. unfold slice_from. rewrite Hlen. destruct (_ <=? _)%nat; [|done]. f_equal.
  apply list_eq. intros i. rewrite !lookup_drop. apply H. lia.
Qed.

(** ** The walk over the records *)

Lemma next_packet_shrinks order rest p t :
  next_packet order rest = Some (p, t) → (length t < length rest)%nat.
Proof.
  unfold next_packet. destruct (slice 0 _ rest) as [h|] eqn:Hh; [|done]. cbn [mbind option_bind].
  destruct (slice 8 12 h) as [i|]; [|done]. cbn [mbind option_bind].
  set (finish := PCAP_RECORD_HEADER_LEN + _).
  destruct (slice _ finish rest) as [q|] eqn:Hq; [|done]. cbn [mbind option_bind]. unfold slice_from.
  destruct (finish <=? length rest)%nat eqn:E; [|done]. intros [= _ <-]. apply Nat.leb_le in E.
  rewrite length_drop. unfold finish, PCAP_RECORD_HEADER_LEN in *. lia.
Qed.

Lemma walk_fuel order f1 f2 rest :
  (length rest < f1)%nat → (length rest < f2)%nat → walk f1 order rest = walk f2 order rest.
Proof.
  revert f2 rest; induction f1 as [|f1 IH]; intros [|f2] rest H1 H2; try lia. simpl.
  destruct (next_packet order rest) as [[p t]|] eqn:E; [|done]. apply next_packet_shrinks in E.
  f_equal. apply IH; lia.
Qed.

(** The loop's equation: the fuel is always enough. *)
Lemma packets_unfold order rest :
  packets order rest =
    match next_packet order rest with Some (p, t) => p :: packets order t | None => [] end.
Proof.
  unfold packets at 1. cbn [walk]. destruct (next_packet order rest) as [[p t]|] eqn:E; [|done].
  apply next_packet_shrinks in E. f_equal. apply walk_fuel; lia.
Qed.

(** The record [tcpdump] writes for a frame: timestamps, captured length,
    original length, the bytes. *)
Record captured := { stamp : bytes; orig_len : bytes; frame_bytes : bytes; length_field : bytes }.

Definition captured_ok (order : ByteOrder) (c : captured) : Prop :=
  length (stamp c) = 8 ∧ length (orig_len c) = 4 ∧ length (length_field c) = 4 ∧
  order_u32 order (length_field c) = N.of_nat (length (frame_bytes c)).

Definition record_bytes (c : captured) : bytes :=
  stamp c ++ length_field c ++ orig_len c ++ frame_bytes c.

Lemma next_packet_record order c rest :
  captured_ok order c → next_packet order (record_bytes c ++ rest) = Some (frame_bytes c, rest).
Proof.
  intros (Hs & Ho & Hl & Hn). unfold next_packet, record_bytes.
  set (hdr := stamp c ++ length_field c ++ orig_len c).
  assert (Hh : length hdr = 16) by (unfold hdr; rewrite !length_app; lia).
  assert (E : (stamp c ++ length_field c ++ orig_len c ++ frame_bytes c) ++ rest = hdr ++ frame_bytes c ++ rest).
  { unfold hdr. by rewrite <- !(assoc_L (++)). }
  rewrite E.
  pose proof (slice_at 0 PCAP_RECORD_HEADER_LEN [] hdr (frame_bytes c ++ rest) eq_refl ltac:(by rewrite Hh)) as H0.
  simpl app in H0. rewrite H0. cbn [mbind option_bind].
  assert (H8 : slice 8 12 hdr = Some (length_field c)) by (apply slice_at; lia). rewrite H8. cbn [mbind option_bind].
  rewrite Hn, Nat2N.id, (slice_at _ _ hdr) by done. cbn [mbind option_bind]. unfold slice_from.
  rewrite (assoc_L (++)). assert (Hlen : length (hdr ++ frame_bytes c) = PCAP_RECORD_HEADER_LEN + length (frame_bytes c)).
  { by rewrite length_app, Hh. }
  rewrite length_app, Hlen. destruct (Nat.leb_spec (PCAP_RECORD_HEADER_LEN + length (frame_bytes c))
    (PCAP_RECORD_HEADER_LEN + length (frame_bytes c) + length rest)); [|lia].
  by rewrite <- Hlen, drop_app_length.
Qed.

(** Reading a capture gives back the frames that were written: whatever the
    byte order and the timestamps, the records' frames come out in order, and a
    file cut off inside a later record loses none of them. *)
Theorem capture_frames order cs rest :
  Forall (captured_ok order) cs → next_packet order rest = None →
  packets order (foldr (λ c r, record_bytes c ++ r) rest cs) = frame_bytes <$> cs.
Proof.
  intros Hcs Hrest. induction Hcs as [|c cs Hc Hcs IH]; simpl; rewrite packets_unfold.
  - by rewrite Hrest.
  - by rewrite next_packet_record, IH.
Qed.

Definition zeros (n : nat) : bytes := replicate n "000"%char.

Lemma capture_frames_witness :
  let c f n := {| stamp := zeros 8; orig_len := zeros 4; frame_bytes := zeros f; length_field := [n; "000"; "000"; "000"]%char |} in
  packets Little (record_bytes (c 2 "002"%char) ++ record_bytes (c 3 "003"%char) ++ zeros 7) = [zeros 2; zeros 3].
Proof.
  intros c.
  apply (capture_frames Little [c 2 "002"%char; c 3 "003"%char] (zeros 7)); [repeat constructor|reflexivity].
Defined.

(** ** The source address does not matter *)

Lemma parse_ipv4_dst ip ip' :
  length ip = length ip' → (∀ i, ¬ (12 ≤ i < 16)%nat → ip !! i = ip' !! i) →
  (λ '(_, dst, proto, l4), (dst, proto, l4)) <$> parse_ipv4_packet ip =
  (λ '(_, dst, proto, l4), (dst, proto, l4)) <$> parse_ipv4_packet ip'.
Proof.
  intros Hlen H. unfold parse_ipv4_packet. rewrite !head_lookup, <- (H 0) by lia.
  destruct (ip !! 0) as [v|]; [|done]. cbn [mbind option_bind].
  destruct (negb _); [done|]. destruct (N.to_nat _ <? 20)%nat eqn:Hihl; [done|]. apply Nat.ltb_ge in Hihl.
  rewrite <- (slice_ext 6 8 ip ip'), <- (H 9), <- (slice_ext 16 20 ip ip'), <- (slice_from_ext _ ip ip')
    by (try done; try lia; intros; apply H; lia).
  destruct (slice 6 8 ip); [|done]. cbn [mbind option_bind]. destruct (negb _); [done|].
  destruct (ip !! 9); [|done]. cbn [mbind option_bind].
  assert (Hs : ∀ x : bytes, length x = length ip →
    is_Some (slice 16 20 ip ≫= octets) → is_Some (slice 12 16 x ≫= octets)).
  { intros x Hx [d Hd]. destruct (slice 16 20 ip) as [s|] eqn:E; [|done]. apply slice_Some in E as [E _].
    assert (Hs : slice 12 16 x = Some (take (16 - 12) (drop 12 x))) by (apply slice_Some; split; [lia|done]).
    rewrite Hs. cbn [mbind option_bind]. unfold octets. rewrite length_take, length_drop.
    replace (_ `min` _)%nat with 4 by lia. simpl. eauto. }
  destruct (slice 16 20 ip ≫= octets) as [d|] eqn:E.
  - destruct (Hs ip eq_refl ltac:(eauto)) as [s ->], (Hs ip' ltac:(lia) ltac:(eauto)) as [s' ->].
    cbn [mbind option_bind]. by destruct (slice_from _ ip).
  - by destruct (slice 12 16 ip ≫= octets), (slice 12 16 ip' ≫= octets).
Qed.

(** A guest cannot hide egress by forging its source address: two frames
    that differ only in the IPv4 source give the same flow, so the same entry in
    the witness. *)
Theorem source_spoofing_harmless frame frame' local :
  length frame = length frame' → (∀ i, ¬ (26 ≤ i < 30)%nat → frame !! i = frame' !! i) →
  parse_guest_flow frame local = parse_guest_flow frame' local.
Proof.
  intros Hlen H. unfold parse_guest_flow.
  rewrite <- (slice_ext 12 14 frame frame') by (try done; intros; apply H; lia).
  destruct (slice 12 14 frame); [|done]. cbn [mbind option_bind]. destruct (negb _); [done|].
  unfold slice_from. rewrite <- Hlen. destruct (_ <=? _)%nat; [|done]. cbn [mbind option_bind].
  assert (Hd : ∀ i, ¬ (12 ≤ i < 16)%nat →
    drop ETHERNET_HEADER_LEN frame !! i = drop ETHERNET_HEADER_LEN frame' !! i).
  { intros i Hi. rewrite !lookup_drop. apply H. unfold ETHERNET_HEADER_LEN. lia. }
  assert (Hl : length (drop ETHERNET_HEADER_LEN frame) = length (drop ETHERNET_HEADER_LEN frame'))
    by (rewrite !length_drop; lia).
  pose proof (parse_ipv4_dst _ _ Hl Hd) as Hp.
  destruct (parse_ipv4_packet (drop _ frame)) as [[[[s d] p] l4]|], (parse_ipv4_packet (drop _ frame'))
    as [[[[s' d'] p'] l4']|]; by simplify_eq/=.
Qed.

(** An Ethernet frame with a UDP datagram to 8.8.8.8, port 9. *)
Definition sample_frame (src : bytes) : bytes :=
  zeros 12 ++ ["008"; "000"; "069"; "000"]%char ++ zeros 6 ++ ["064"; "017"]%char ++ zeros 2 ++ src ++
  ["008"; "008"; "008"; "008"]%char ++ ["001"; "001"; "000"; "009"]%char ++ zeros 4.

Lemma source_spoofing_harmless_witness :
  let local := {| gateway := ipv4 172 16 0 5; guest := ipv4 172 16 0 6 |} in
  parse_guest_flow (sample_frame ["172"; "016"; "000"; "006"]%char) local =
    parse_guest_flow (sample_frame ["010"; "009"; "008"; "007"]%char) local ∧
  flow_dst_ip <$> parse_guest_flow (sample_frame ["010"; "009"; "008"; "007"]%char) local = Some (ipv4 8 8 8 8).
Proof.
  intros local. split; [|vm_compute; reflexivity].
  apply source_spoofing_harmless; [reflexivity|]. intros i Hi.
  do 26 (destruct i as [|i]; [reflexivity|]). do 4 (destruct i as [|i]; [lia|]). reflexivity.
Defined.

(** ** The accumulator is an exact count *)

Definition key_lt (a b : flow_key) : Prop :=
  let '(ip, port, proto) := a in
  let '(ip', port', proto') := b in
  (ip < ip' ∨ (ip = ip' ∧ (port < port' ∨ (port = port' ∧ slt proto proto'))))%N.

Lemma key_cmp_spec a b : CompareSpec (a = b) (key_lt a b) (key_lt b a) (key_cmp a b).
Proof.
  destruct a as [[ip port] proto], b as [[ip' port'] proto']. simpl.
  destruct (N.compare_spec ip ip') as [->| |]; [|constructor; auto..].
  destruct (N.compare_spec port port') as [->| |]; [|constructor; auto 7..].
  destruct (str_cmp_spec proto proto') as [->| |]; constructor; auto 7.
Qed.

Lemma key_lt_irrefl k : ¬ key_lt k k.
Proof. destruct k as [[ip port] proto]. intros [?|[_ [?|[_ H]]]]; [lia..|]. by apply slt_irrefl in H. Qed.

Lemma key_lt_trans a b c : key_lt a b → key_lt b c → key_lt a c.
Proof.
  destruct a as [[i1 p1] s1], b as [[i2 p2] s2], c as [[i3 p3] s3]. simpl.
  intros [?|[-> [?|[-> H1]]]] [?|[-> [?|[-> H2]]]]; try (left; lia); try (right; split; [done|]; left; lia); eauto 7.
  right; split; [done|]. right; split; [done|]. by eapply slt_trans.
Qed.

Abbreviation keys_sorted m := (StronglySorted key_lt (fst <$> m : list flow_key)).

Lemma bump_elem k k' n' m :
  keys_sorted m →
  (k', n') ∈ bump k m ↔
    (k' ≠ k ∧ (k', n') ∈ m) ∨
    (k' = k ∧ ((∃ n, (k, n) ∈ m ∧ n' = (n + 1)%N) ∨ ((∀ n, (k, n) ∉ m) ∧ n' = 1%N))).
Proof.
  induction m as [|[k0 n0] m IH]; intros Hs; simpl.
  { rewrite list_elem_of_singleton. set_unfold. naive_solver. }
  rewrite fmap_cons in Hs. apply StronglySorted_inv in Hs as [Hs Hlt]. simpl in Hlt.
  assert (Hk : ∀ n x, key_lt x k0 ∨ x = k0 → (x, n) ∉ m).
  { intros n x Hx Hin. rewrite Forall_forall in Hlt. apply (list_elem_of_fmap_2 fst) in Hin. apply Hlt in Hin.
    simpl in Hin. destruct Hx as [Hx| ->]; [apply (key_lt_irrefl x); by eapply key_lt_trans|by apply key_lt_irrefl in Hin]. }
  destruct (key_cmp_spec k k0) as [->|Hlk|Hlk].
  - rewrite !elem_of_cons. setoid_rewrite elem_of_cons. split.
    + intros [[= -> ->]|H]; [right; split; [done|]; left; exists n0; auto|].
      left. split; [|auto]. intros ->. by apply (Hk n' k0); [right|].
    + intros [[Hne [E|H]]|[-> [(n & [E|H] & ->)|[Hn _]]]].
      * by injection E as ->.
      * by right.
      * injection E as ->. by left.
      * by destruct (Hk n k0); [right|].
      * exfalso. by apply (Hn n0); left.
  - rewrite elem_of_cons, !elem_of_cons. setoid_rewrite elem_of_cons.
    assert (Hn : ∀ n, ¬ ((k, n) = (k0, n0) ∨ (k, n) ∈ m)).
    { intros n [[= -> ->]|H]; [by apply key_lt_irrefl in Hlk|]. by apply (Hk n k); [left|]. }
    split.
    + intros [[= -> ->]|H]; [right; split; [done|]; right; split; [exact Hn|done]|].
      left. split; [|done]. intros ->. by apply Hn in H.
    + intros [[_ H]|[-> [(n & H & _)|[_ ->]]]]; auto. by apply Hn in H.
  - rewrite elem_of_cons, IH by done. setoid_rewrite elem_of_cons.
    assert (Hne : k ≠ k0) by (intros ->; by apply key_lt_irrefl in Hlk). split.
    + intros [E|[[? ?]|[-> [(n & H & ->)|[Hn ->]]]]].
      * injection E as -> ->. left. split; [done|auto].
      * auto.
      * right. split; [done|]. left. eauto.
      * right. split; [done|]. right. split; [|done]. intros n [E|H]; [by injection E as ->|]. by apply (Hn n).
    + intros [[? [E|?]]|[-> [(n & [E|H] & ->)|[Hn ->]]]]; [by left|right; auto|by injection E as ->|..];
        right; right; (split; [done|]).
      * left; eauto.
      * right. split; [|done]. intros n H. apply (Hn n). auto.
Qed.

Lemma bump_keys k x m : x ∈ fst <$> bump k m → x = k ∨ x ∈ fst <$> m.
Proof.
  induction m as [|[k0 n0] m IH]; simpl; [set_solver|].
  destruct (key_cmp k k0); rewrite ?fmap_cons, ?elem_of_cons; simpl; naive_solver.
Qed.

Lemma bump_sorted k m : keys_sorted m → keys_sorted (bump k m).
Proof.
  induction m as [|[k0 n0] m IH]; [intros _; repeat constructor|]. rewrite fmap_cons.
  intros Hs. pose proof Hs as [Hs' Hlt]%StronglySorted_inv. simpl in *.
  destruct (key_cmp_spec k k0) as [->|Hlk|Hlk]; rewrite ?fmap_cons; simpl.
  - done.
  - constructor; [done|]. constructor; [done|]. eapply Forall_impl; [exact Hlt|].
    intros x Hx. by eapply key_lt_trans.
  - constructor; [by apply IH|]. apply Forall_forall. intros x [->|Hx]%bump_keys; [done|].
    rewrite Forall_forall in Hlt. by apply Hlt.
Qed.

Lemma elem_of_set_insert x y l : y ∈ set_insert x l ↔ y = x ∨ y ∈ l.
Proof.
  induction l as [|z l IH]; simpl; [by rewrite list_elem_of_singleton; set_unfold; naive_solver|].
  destruct (str_cmp_spec x z) as [->| |]; rewrite ?elem_of_cons, ?IH, ?elem_of_cons; naive_solver.
Qed.

Lemma set_insert_sorted x l : StronglySorted slt l → StronglySorted slt (set_insert x l).
Proof.
  induction l as [|z l IH]; [intros _; repeat constructor|]. intros Hs.
  pose proof Hs as [Hs' Hlt]%StronglySorted_inv. simpl. destruct (str_cmp_spec x z) as [->| |]; [done|..].
  - constructor; [done|]. constructor; [done|]. eapply Forall_impl; [exact Hlt|]. intros y Hy. by eapply slt_trans.
  - constructor; [by apply IH|]. apply Forall_forall. intros y [->|Hy]%elem_of_set_insert; [done|].
    rewrite Forall_forall in Hlt. by apply Hlt.
Qed.

(** How many of the flows have the key. *)
Definition count_key (k : flow_key) (flows : list Flow) : N :=
  N.of_nat (length (filter (λ f, key_of f = k) flows)).

(** The accumulator says exactly what the flows seen so far are. *)
Record exact (acc : FlowAccumulator) (flows : list Flow) : Prop := {
  ex_sorted : keys_sorted (counts acc);
  ex_counts : ∀ k n, (k, n) ∈ counts acc ↔ n = count_key k flows ∧ (0 < n)%N;
  ex_dns_sorted : StronglySorted slt (dns acc);
  ex_dns : ∀ x, x ∈ dns acc ↔ ∃ f, f ∈ flows ∧ flow_dns_name f = Some x
}.

Lemma count_key_snoc k flows f :
  count_key k (flows ++ [f]) = if decide (key_of f = k) then (count_key k flows + 1)%N else count_key k flows.
Proof.
  unfold count_key. rewrite filter_app, length_app, filter_cons. case_decide; simpl; lia.
Qed.

Lemma observe_exact local acc flows frame :
  exact acc flows →
  exact (observe local acc frame) (flows ++ option_list (parse_guest_flow frame local)).
Proof.
  intros [Hs Hc Hds Hd]. unfold observe.
  destruct (parse_guest_flow frame local) as [f|]; simpl; [|by rewrite (right_id_L [] (++))].
  split; simpl.
  - by apply bump_sorted.
  - intros k n. rewrite bump_elem by done. rewrite count_key_snoc. case_decide as Hk.
    + subst k. split.
      * intros [[? _]|[_ [(n0 & [-> _]%Hc & ->)|[Hn ->]]]]; [done|split; lia|].
        assert (count_key (key_of f) flows = 0)%N; [|lia].
        destruct (decide (count_key (key_of f) flows = 0)%N) as [|Hz]; [done|].
        exfalso. apply (Hn (count_key (key_of f) flows)), Hc. split; [done|lia].
      * intros [-> _]. right. split; [done|]. destruct (decide (count_key (key_of f) flows = 0)%N) as [Hz|Hz].
        -- right. rewrite Hz. split; [|done]. intros n [-> ?]%Hc. lia.
        -- left. eexists. split; [|done]. apply Hc. split; [done|lia].
    + rewrite Hc. split; [|intros H; left; split; [congruence|done]].
      intros [[_ H]|[-> _]]; [done|by destruct Hk].
  - destruct (flow_dns_name f); [by apply set_insert_sorted|done].
  - intros x. setoid_rewrite elem_of_app. setoid_rewrite list_elem_of_singleton.
    destruct (flow_dns_name f) as [name|] eqn:Hf; [rewrite elem_of_set_insert|]; rewrite Hd; naive_solver.
Qed.

Lemma fold_exact local frames acc flows :
  exact acc flows →
  exact (fold_left (observe local) frames acc) (flows ++ omap (λ f, parse_guest_flow f local) frames).
Proof.
  revert acc flows; induction frames as [|f frames IH]; intros acc flows He;
    [simpl; by rewrite (right_id_L [] (++))|]. simpl fold_left. rewrite omap_cons_eq.
  assert (E : flows ++ match parse_guest_flow f local with
              | Some y => y :: omap (λ f, parse_guest_flow f local) frames
              | None => omap (λ f, parse_guest_flow f local) frames end =
            (flows ++ option_list (parse_guest_flow f local)) ++ omap (λ f, parse_guest_flow f local) frames).
  { rewrite <- (assoc_L (++)). by destruct (parse_guest_flow f local). }
  rewrite E. by apply IH, observe_exact.
Qed.

(** ** Blocked attempts *)

(** What an allowlist entry permits: an address, or the addresses that share a
    network's prefix. *)
Definition covers (entry : string) (addr : N) : Prop :=
  match split_once "/" entry with
  | None => parse_ipv4 entry = Some addr
  | Some (net, prefix) => ∃ base bits, parse_ipv4 net = Some base ∧ parse_uint u8_max prefix = Some bits ∧
      (bits ≤ 32)%N ∧ (base / 2 ^ (32 - bits) = addr / 2 ^ (32 - bits))%N
  end.

Lemma entry_matches_covers addr entry :
  (addr ≤ u32_max)%N → entry_matches addr entry = true ↔ covers entry addr.
Proof.
  intros Ha. unfold entry_matches, covers, cidr_contains.
  destruct (split_once "/" entry) as [[net prefix]|]; [|apply bool_decide_eq_true].
  destruct (parse_ipv4 net) as [base|] eqn:Hb; [|by split; [|intros (? & ? & ? & _)]].
  apply parse_ipv4_bound in Hb.
  destruct (parse_uint u8_max prefix) as [bits|]; [|by split; [|intros (? & ? & _ & ? & _)]].
  destruct (N.ltb_spec 32 bits) as [Hbits|Hbits].
  { split; [done|]. intros (? & ? & [= <-] & [= <-] & ? & _). lia. }
  rewrite N.eqb_eq, !land_mask by done. rewrite N.mul_cancel_r by (apply N.pow_nonzero; lia).
  split; [eauto 7|]. by intros (? & ? & [= <-] & [= <-] & _ & ?).
Qed.

(** The blocked attempts are exactly the contacted destinations the policy
    does not cover: for an enforcing policy, those whose address no permitted
    entry equals or contains; under observe, none. *)
Theorem record_egress_blocked w policy permitted d :
  d ∈ w_blocked (record_egress w policy permitted) ↔
    policy ≠ EpObserve ∧ d ∈ w_destinations w ∧
    ∀ addr entry, parse_ipv4 (dest_ip d) = Some addr → entry ∈ permitted → ¬ covers entry addr.
Proof.
  assert (Hip : ip_permitted (dest_ip d) permitted = false ↔
    ∀ addr entry, parse_ipv4 (dest_ip d) = Some addr → entry ∈ permitted → ¬ covers entry addr).
  { unfold ip_permitted. destruct (parse_ipv4 (dest_ip d)) as [addr|] eqn:Ha; [|naive_solver].
    apply parse_ipv4_bound in Ha. rewrite <- not_true_iff_false, existsb_exists. split.
    - intros H a entry [= <-] Hin Hc. apply H. exists entry. split; [by apply list_elem_of_In|].
      by apply entry_matches_covers.
    - intros H (entry & Hin%list_elem_of_In & Hm). eapply H; [done|done|]. by apply entry_matches_covers. }
  unfold record_egress. simpl. destruct policy; [set_unfold; naive_solver|..];
    rewrite list_elem_of_filter, Hip; naive_solver.
Qed.

(** ** Names *)

(** A query name on the wire. *)
Fixpoint encode_qname (labels : list bytes) : bytes :=
  match labels with
  | [] => ["000"%char]
  | l :: labels => ascii_of_N (N.of_nat (length l)) :: l ++ encode_qname labels
  end.

Definition label_ok (l : bytes) : Prop :=
  (1 ≤ length l ≤ 63)%nat ∧ Forall (λ b, code b < 128)%N l.

Lemma lossy_ascii l : Forall (λ b, code b < 128)%N l → from_utf8_lossy l = String.string_of_list_ascii l.
Proof.
  unfold from_utf8_lossy. induction 1 as [|b l Hb _ IH]; [done|]. simpl.
  destruct (N.ltb_spec (code b) 128); [|lia]. by rewrite IH.
Qed.

Lemma label_length n : (n < 64)%nat → code (ascii_of_N (N.of_nat n)) = N.of_nat n ∧ N.land (N.of_nat n) 192 = 0%N.
Proof.
  intros Hn. split; [apply N_ascii_embedding; lia|].
  assert (H : forallb (λ n, (N.land (N.of_nat n) 192 =? 0)%N) (seq 0 64) = true) by (vm_compute; reflexivity).
  rewrite forallb_forall in H. apply N.eqb_eq, H. apply in_seq. lia.
Qed.

Lemma dns_labels_encode ls pre rest fuel acc :
  Forall label_ok ls → (length ls < fuel)%nat →
  dns_labels fuel (length pre) (pre ++ encode_qname ls ++ rest) acc =
    Some (acc ++ (String.string_of_list_ascii <$> ls)).
Proof.
  intros Hls. revert pre fuel acc; induction Hls as [|l ls [Hlen Hl] Hls IH]; intros pre [|fuel] acc Hf;
    simpl in Hf; try lia; cbn [dns_labels encode_qname].
  - rewrite lookup_app_r, Nat.sub_diag by lia. simpl. by rewrite (right_id_L [] (++)).
  - rewrite lookup_app_r, Nat.sub_diag by lia. cbn [app lookup list_lookup mbind option_bind].
    destruct (label_length (length l) ltac:(lia)) as [-> ->].
    destruct (N.eqb_spec (N.of_nat (length l)) 0); [lia|]. cbn [N.eqb negb]. rewrite Nat2N.id.
    assert (E : pre ++ ascii_of_N (N.of_nat (length l)) :: (l ++ encode_qname ls) ++ rest =
                (pre ++ [ascii_of_N (N.of_nat (length l))]) ++ l ++ encode_qname ls ++ rest).
    { by rewrite <- !(assoc_L (++)). }
    cbn [app] in *. rewrite E.
    rewrite (slice_at _ _ (pre ++ [ascii_of_N (N.of_nat (length l))]) l) by (rewrite ?length_app; done).
    cbn [mbind option_bind]. rewrite lossy_ascii by done. rewrite (assoc_L (++) _ l).
    replace (length pre + 1 + length l)%nat with (length ((pre ++ [ascii_of_N (N.of_nat (length l))]) ++ l))
      by (rewrite !length_app; done).
    rewrite IH by lia. by rewrite <- (assoc_L (++)).
Qed.

(** A query's name is read back: the message a resolver sends for a name,
    whatever its header and whatever follows the question, gives the dotted
    name. *)
Theorem dns_qname_roundtrip id qd counts ls rest :
  length id = 4 → length qd = 2 → length counts = 6 → be qd ≠ 0%N →
  ls ≠ [] → Forall label_ok ls →
  parse_dns_qname (id ++ qd ++ counts ++ encode_qname ls ++ rest) = Some (join "." (String.string_of_list_ascii <$> ls)).
Proof.
  intros Hid Hqd Hc Hn Hne Hls. unfold parse_dns_qname. rewrite (slice_at 4 6 id qd) by lia.
  cbn [mbind option_bind]. apply N.eqb_neq in Hn. rewrite Hn.
  assert (E : id ++ qd ++ counts ++ encode_qname ls ++ rest = (id ++ qd ++ counts) ++ encode_qname ls ++ rest).
  { by rewrite <- !(assoc_L (++)). }
  assert (H12 : length (id ++ qd ++ counts) = 12) by (rewrite !length_app; lia).
  assert (Hl : (length ls <= length (encode_qname ls))%nat).
  { clear. induction ls as [|l ls IH]; simpl; [lia|]. rewrite length_app. lia. }
  rewrite E, <- H12, dns_labels_encode; [|done|rewrite !length_app; lia]. cbn [mbind option_bind app].
  rewrite bool_decide_eq_false_2; [done|]. by destruct ls.
Qed.

Lemma dns_qname_roundtrip_witness :
  parse_dns_qname (zeros 4 ++ ["000"; "001"]%char ++ zeros 6 ++
    encode_qname [String.list_ascii_of_string "example"; String.list_ascii_of_string "com"] ++ zeros 4) = Some "example.com".
Proof.
  apply (dns_qname_roundtrip (zeros 4) ["000"; "001"]%char (zeros 6)
    [String.list_ascii_of_string "example"; String.list_ascii_of_string "com"]); try done.
  repeat constructor.
Defined.
