(* ===== verification/PcapSpec.v ===== *)
(** * PcapSpec: what the egress witness says of the bytes captured

    A capture file, a frame that leaves the room and a DNS question, each
    described by the bytes they are made of and not by the parser; and the
    witness exact against that description. *)

From S2P Require Import Prelude RStr Fs Cidr Pcap.
From stdpp Require Import options.

(** ** Bytes by their position *)

Definition octet (l : bytes) (i : nat) : option N := code <$> l !! i.

Definition be16_at (l : bytes) (i : nat) : option N :=
  a ← octet l i; b ← octet l (i + 1); Some (256 * a + b)%N.

Definition be32_at (l : bytes) (i : nat) : option N :=
  a ← octet l i; b ← octet l (i + 1); c ← octet l (i + 2); d ← octet l (i + 3);
  Some (256 * (256 * (256 * a + b) + c) + d)%N.

(** ** A capture file *)

Definition u32_field (order : ByteOrder) (b : bytes) : option N :=
  match order with Big => be32_at b 0 | Little => be32_at (rev b) 0 end.

(** A record: eight bytes of time, the number of bytes captured, four bytes more,
    and the frame. *)
Definition whole_record (order : ByteOrder) (c : captured) : Prop :=
  length (stamp c) = 8 ∧ length (length_field c) = 4 ∧ length (orig_len c) = 4 ∧
  u32_field order (length_field c) = Some (N.of_nat (length (frame_bytes c))).

(** The whole records of a file's rest; what follows begins no whole record. *)
Definition records (order : ByteOrder) (rest : bytes) (frames : list bytes) : Prop :=
  ∃ cs tail, Forall (whole_record order) cs ∧
    rest = (cs ≫= λ c, stamp c ++ length_field c ++ orig_len c ++ frame_bytes c) ++ tail ∧ frames = frame_bytes <$> cs ∧
    ¬ ∃ c more, whole_record order c ∧ tail = (stamp c ++ length_field c ++ orig_len c ++ frame_bytes c) ++ more.

(** The four magic numbers, and the byte order each means. *)
Definition magic_of (order : ByteOrder) : list (list N) :=
  match order with
  | Big => [[161; 178; 195; 212]; [161; 178; 60; 77]]
  | Little => [[212; 195; 178; 161]; [77; 60; 178; 161]]
  end%N.

(** A file that can be read: its magic, sixteen bytes of header, Ethernet as its
    link type, and the rest. *)
Definition readable (raw : bytes) (order : ByteOrder) (rest : bytes) : Prop :=
  ∃ magic middle link, raw = magic ++ middle ++ link ++ rest ∧
    code <$> magic ∈ magic_of order ∧ length middle = 16 ∧ length link = 4 ∧
    u32_field order link = Some 1%N.

(** The frames of a file; one that cannot be read has none. *)
Definition frames_of (raw : bytes) (frames : list bytes) : Prop :=
  (∃ order rest, readable raw order rest ∧ records order rest frames) ∨
  (frames = [] ∧ ¬ ∃ order rest, readable raw order rest).

(** ** A frame that leaves the room *)

(** A DNS question: twelve bytes of header that count a question, and its name as
    labels of at most 63 bytes up to the empty one. *)
Definition asks (payload : bytes) (name : string) : Prop :=
  ∃ header labels rest, payload = header ++ (labels ≫= λ l, ascii_of_N (N.of_nat (length l)) :: l) ++ "000"%char :: rest ∧
    length header = 12 ∧ be16_at header 4 ≠ Some 0%N ∧ labels ≠ [] ∧ Forall (λ l, 1 ≤ length l ≤ 63) labels ∧
    name = join "." (from_utf8_lossy <$> labels).

(** The frame is an unfragmented IPv4 packet that carries TCP or UDP to an address
    other than the gateway's and the guest's and to a port other than DHCP's: its
    destination, port, protocol, and the name it asks for on the DNS port. *)
Definition egress_frame (local : GatewayLocal) (frame : bytes) (f : Flow) : Prop :=
  ∃ words fragment proto data,
    be16_at frame 12 = Some 2048%N ∧
    octet frame 14 = Some (16 * 4 + N.of_nat words)%N ∧ 5 ≤ words < 16 ∧
    be16_at frame 20 = Some fragment ∧ (fragment mod 8192 = 0)%N ∧
    octet frame 23 = Some proto ∧
    be32_at frame 30 = Some (flow_dst_ip f) ∧ flow_dst_ip f ≠ gateway local ∧ flow_dst_ip f ≠ guest local ∧
    (let l4 := 14 + 4 * words in
     be16_at frame (l4 + 2) = Some (flow_dst_port f) ∧ flow_dst_port f ≠ 67%N ∧ flow_dst_port f ≠ 68%N ∧
     ((proto = 6%N ∧ flow_proto f = "tcp" ∧
         data = match octet frame (l4 + 12) with Some b => drop (l4 + 4 * N.to_nat (b / 16)) frame | None => [] end) ∨
      (proto = 17%N ∧ flow_proto f = "udp" ∧ data = drop (l4 + 8) frame))) ∧
    ∀ name, flow_dns_name f = Some name ↔ flow_dst_port f = 53%N ∧ asks data name.

(** The flows of the frames that leave, in order. *)
Inductive egress_flows (local : GatewayLocal) : list bytes → list Flow → Prop :=
| flows_nil : egress_flows local [] []
| flows_leaves frame f frames flows :
    egress_frame local frame f → egress_flows local frames flows → egress_flows local (frame :: frames) (f :: flows)
| flows_stays frame frames flows :
    (∀ f, ¬ egress_frame local frame f) → egress_flows local frames flows → egress_flows local (frame :: frames) flows.

(** ** The parser reads these bytes *)

Lemma octet_drop n l i : octet (drop n l) i = octet l (n + i).
Proof. unfold octet. by rewrite lookup_drop. Qed.

Lemma be16_drop n l i : be16_at (drop n l) i = be16_at l (n + i).
Proof. unfold be16_at. by rewrite !octet_drop, Nat.add_assoc. Qed.

Lemma be32_drop n l i : be32_at (drop n l) i = be32_at l (n + i).
Proof. unfold be32_at. by rewrite !octet_drop, !Nat.add_assoc. Qed.

Lemma slice_drop i n l : (i ≤ length l)%nat → slice i (i + n) l = slice 0 n (drop i l).
Proof.
  intros Hi. unfold slice. rewrite length_drop, drop_0.
  replace (i + n - i) with n by lia. replace (n - 0) with n by lia.
  destruct (Nat.leb_spec i (i + n)), (Nat.leb_spec (i + n) (length l)), (Nat.leb_spec 0 n), (Nat.leb_spec n (length l - i));
    by try lia.
Qed.

Lemma slice_short i n l : (length l < i + n)%nat → slice i (i + n) l = None.
Proof. intros Hi. unfold slice. destruct (Nat.leb_spec (i + n) (length l)); [lia|]. by rewrite andb_false_r. Qed.

Lemma slice_be16 l i : be <$> slice i (i + 2) l = be16_at l i.
Proof.
  destruct (decide (i ≤ length l)%nat) as [Hi|Hi].
  - rewrite slice_drop by done. rewrite <- (Nat.add_0_r i) at 2. rewrite <- be16_drop.
    destruct (drop i l) as [|a [|b k]]; [done..|]. unfold be16_at, octet. cbn -[N.mul N.add]. rewrite ?take_0. cbn -[N.mul N.add]. f_equal. lia.
  - rewrite slice_short by lia. unfold be16_at, octet. by rewrite (lookup_ge_None_2 l i) by lia.
Qed.

Lemma slice_be32 l i : slice i (i + 4) l ≫= octets = be32_at l i.
Proof.
  destruct (decide (i ≤ length l)%nat) as [Hi|Hi].
  - rewrite slice_drop by done. rewrite <- (Nat.add_0_r i) at 2. rewrite <- be32_drop.
    destruct (drop i l) as [|a [|b [|c [|d k]]]]; [done..|]. unfold be32_at, octet, octets. cbn -[N.mul N.add]. rewrite ?take_0. cbn -[N.mul N.add]. f_equal. lia.
  - rewrite slice_short by lia. unfold be32_at, octet. by rewrite (lookup_ge_None_2 l i) by lia.
Qed.

Lemma u32_field_order order b : length b = 4 → u32_field order b = Some (order_u32 order b).
Proof.
  intros Hb. destruct b as [|a [|b [|c [|d [|]]]]]; try done.
  destruct order; unfold u32_field, be32_at, octet; cbn -[N.mul N.add]; rewrite ?take_0; cbn -[N.mul N.add]; f_equal; lia.
Qed.

Lemma whole_record_ok order c : whole_record order c ↔ captured_ok order c.
Proof.
  unfold whole_record, captured_ok. split.
  - intros (? & Hl & ? & Hn). rewrite u32_field_order in Hn by done. by injection Hn.
  - intros (? & ? & Hl & Hn). rewrite u32_field_order, Hn by done. done.
Qed.

(** *** Records *)

Lemma next_packet_Some order rest p t :
  next_packet order rest = Some (p, t) → ∃ c, captured_ok order c ∧ frame_bytes c = p ∧ rest = record_bytes c ++ t.
Proof.
  unfold next_packet. destruct (slice 0 _ rest) as [hdr|] eqn:Hh; [|done]. cbn [mbind option_bind].
  apply slice_Some in Hh as [Hlen ->]. rewrite drop_0, Nat.sub_0_r in *.
  destruct (slice 8 12 _) as [field|] eqn:Hf; [|done]. cbn [mbind option_bind].
  apply slice_Some in Hf as [_ Hf].
  set (n := N.to_nat _). destruct (slice _ _ rest) as [q|] eqn:Hq; [|done]. cbn [mbind option_bind].
  apply slice_Some in Hq as [Hfin Hq]. unfold slice_from. destruct (_ <=? _)%nat; [|done]. intros [= <- <-].
  unfold PCAP_RECORD_HEADER_LEN in *. replace (16 + n - 16) with n in Hq by lia.
  exists {| stamp := take 8 rest; length_field := field; orig_len := take 4 (drop 12 rest); frame_bytes := q |}.
  assert (Hf' : field = take 4 (drop 8 rest)) by (by rewrite Hf, skipn_firstn_comm, firstn_firstn).
  split; [split_and!; cbn [stamp orig_len length_field frame_bytes]|split; [done|]].
  - rewrite length_take. lia.
  - rewrite length_take, length_drop. lia.
  - rewrite Hf', length_take, length_drop. lia.
  - rewrite Hq, length_take, length_drop. unfold n in *. lia.
  - unfold record_bytes. cbn [stamp orig_len length_field frame_bytes]. rewrite Hf', Hq.
    rewrite <- (take_drop 8 rest) at 1. rewrite <- !(assoc_L (++)). f_equal.
    rewrite <- (take_drop 4 (drop 8 rest)) at 1. f_equal. rewrite drop_drop.
    rewrite <- (take_drop 4 (drop (8 + 4) rest)) at 1. f_equal. rewrite drop_drop.
    rewrite <- (take_drop n (drop (8 + 4 + 4) rest)) at 1. by rewrite drop_drop.
Qed.

Lemma packets_records order rest : records order rest (packets order rest).
Proof.
  remember (length rest) as n eqn:Hn. revert rest Hn. induction n as [n IH] using lt_wf_ind. intros rest ->.
  rewrite packets_unfold. destruct (next_packet order rest) as [[p t]|] eqn:E.
  - pose proof (next_packet_shrinks _ _ _ _ E). destruct (next_packet_Some _ _ _ _ E) as (c & Hc & <- & ->).
    destruct (IH (length t) ltac:(lia) t eq_refl) as (cs & tail & Hcs & -> & -> & Hno).
    exists (c :: cs), tail. split_and!; [by constructor; [apply whole_record_ok|]| |done|done].
    rewrite bind_cons. unfold record_bytes. by rewrite <- !(assoc_L (++)).
  - exists [], rest. split_and!; [constructor|done..|]. intros (c & more & Hc%whole_record_ok & ->).
    fold (record_bytes c) in E. by rewrite (next_packet_record order c more Hc) in E.
Qed.

(** *** The header *)


Lemma magic_order_iff magic order : magic_order magic = Some order ↔ code <$> magic ∈ magic_of order.
Proof.
  unfold magic_order. change ([[161; 178; 195; 212]; [161; 178; 60; 77]])%N with (magic_of Big).
  change ([[212; 195; 178; 161]; [77; 60; 178; 161]])%N with (magic_of Little).
  assert (Hex : ∀ m, m ∈ magic_of Big → m ∈ magic_of Little → False) by (cbn; set_solver).
  case_bool_decide as Hb; [|case_bool_decide as Hl].
  - split; [by intros [= <-]|]. destruct order; [|done]. intros Hl. by destruct (Hex _ Hb Hl).
  - split; [by intros [= <-]|]. by destruct order.
  - split; [done|]. by destruct order.
Qed.

Lemma header_readable raw order rest : parse_pcap_global_header raw = Some (order, rest) ↔ readable raw order rest.
Proof.
  unfold parse_pcap_global_header, readable, PCAP_GLOBAL_HEADER_LEN, DLT_ETHERNET. split.
  - destruct (slice 0 24 raw) as [hdr|] eqn:Hh; [|done]. cbn [mbind option_bind].
    apply slice_Some in Hh as [Hlen Hh]. rewrite drop_0, Nat.sub_0_r in *.
    assert (Hl : length hdr = 24) by (rewrite Hh, length_take; lia).
    do 24 (destruct hdr as [|? hdr]; [done|]). destruct hdr; [|done]. cbn [slice].
    match goal with |- context [slice 0 4 ?l] => set (h := l) in * end.
    destruct (slice 0 4 h) as [magic|] eqn:Hm; [|done]. cbn [mbind option_bind]. apply slice_Some in Hm as [_ ->].
    destruct (magic_order _) as [o|] eqn:Ho; [|done]. cbn [mbind option_bind].
    destruct (slice 20 24 h) as [link|] eqn:Hk; [|done]. cbn [mbind option_bind]. apply slice_Some in Hk as [_ ->].
    destruct (N.eqb_spec (order_u32 o (take (24 - 20) (drop 20 h))) 1) as [Hd|]; [|done]. cbn [negb].
    unfold slice_from. destruct (_ <=? _)%nat; [|done]. cbn [mbind option_bind]. intros [= <- <-].
    exists (take 4 h), (take 16 (drop 4 h)), (take 4 (drop 20 h)). split_and!.
    + rewrite <- (take_drop 24 raw) at 1. rewrite <- Hh. unfold h. done.
    + by apply magic_order_iff.
    + done.
    + done.
    + rewrite u32_field_order by done. f_equal. exact Hd.
  - intros (magic & middle & link & -> & Hm & Hmid & Hlink & Hd).
    assert (Hlm : length magic = 4).
    { destruct order; cbn in Hm; rewrite !elem_of_cons, elem_of_nil in Hm; destruct Hm as [Hm|[Hm|[]]];
        apply (f_equal length) in Hm; by rewrite length_fmap in Hm. }
    rewrite u32_field_order in Hd by done. injection Hd as Hd.
    assert (H0 : slice 0 24 (magic ++ middle ++ link ++ rest) = Some (magic ++ middle ++ link)).
    { pose proof (slice_at 0 24 [] (magic ++ middle ++ link) rest eq_refl ltac:(rewrite !length_app; lia)) as H.
      by rewrite <- !(assoc_L (++)) in H. }
    rewrite H0. cbn [mbind option_bind].
    pose proof (slice_at 0 4 [] magic (middle ++ link) eq_refl (eq_sym Hlm)) as H4. cbn [app] in H4. rewrite H4. clear H4. cbn [mbind option_bind].
    rewrite (proj2 (magic_order_iff _ _) Hm). cbn [mbind option_bind].
    pose proof (slice_at 20 24 (magic ++ middle) link [] ltac:(rewrite length_app; lia) ltac:(lia)) as Hk.
    rewrite (right_id_L [] (++)), <- (assoc_L (++)) in Hk. rewrite Hk. clear Hk.
    cbn [mbind option_bind]. rewrite Hd. cbn [N.eqb negb]. unfold slice_from. rewrite !(assoc_L (++)).
    destruct (Nat.leb_spec 24 (length (((magic ++ middle) ++ link) ++ rest))) as [|Hle]; [|rewrite !length_app in Hle; lia].
    cbn [mbind option_bind]. rewrite drop_app_length' by (rewrite !length_app; lia). done.
Qed.

Lemma frames_parsed raw :
  frames_of raw (match parse_pcap_global_header raw with Some (order, rest) => packets order rest | None => [] end).
Proof.
  destruct (parse_pcap_global_header raw) as [[order rest]|] eqn:E.
  - left. exists order, rest. split; [by apply header_readable|apply packets_records].
  - right. split; [done|]. intros (order & rest & H%header_readable). congruence.
Qed.

(** *** Packets and segments *)

Lemma code_bound (b : byte) : (code b < 256)%N.
Proof. unfold code. apply N_ascii_bounded. Qed.

Lemma slice_from_drop n l : default [] (slice_from n l) = drop n l.
Proof. unfold slice_from. destruct (Nat.leb_spec n (length l)); [done|]. cbn. by rewrite drop_ge by lia. Qed.

Lemma slice_from_Some n l k : slice_from n l = Some k ↔ (n ≤ length l)%nat ∧ k = drop n l.
Proof. unfold slice_from. destruct (Nat.leb_spec n (length l)); naive_solver lia. Qed.

Lemma parse_ipv4_packet_iff ip src dst proto l4 :
  parse_ipv4_packet ip = Some (src, dst, proto, l4) ↔
  ∃ words fragment, octet ip 0 = Some (16 * 4 + N.of_nat words)%N ∧ 5 ≤ words < 16 ∧
    be16_at ip 6 = Some fragment ∧ (fragment mod 8192 = 0)%N ∧ octet ip 9 = Some proto ∧
    be32_at ip 12 = Some src ∧ be32_at ip 16 = Some dst ∧ 4 * words ≤ length ip ∧ l4 = drop (4 * words) ip.
Proof.
  unfold parse_ipv4_packet. rewrite head_lookup. change (slice 12 16 ip) with (slice 12 (12 + 4) ip).
  change (slice 16 20 ip) with (slice 16 (16 + 4) ip). rewrite !slice_be32. pose proof (slice_be16 ip 6) as H6.
  change (6 + 2) with 8 in H6. rewrite <- H6. clear H6. unfold octet.
  destruct (ip !! 0) as [v|]; [|naive_solver]. cbn [mbind option_bind fmap option_fmap option_map].
  change 15%N with (N.ones 4). change 8191%N with (N.ones 13). rewrite N.land_ones, N.shiftr_div_pow2.
  change (2 ^ 4)%N with 16%N. pose proof (N.div_mod' (code v) 16) as Hdiv. pose proof (N.mod_lt (code v) 16 ltac:(done)) as Hmod.
  set (w := (code v mod 16)%N) in *. set (ver := (code v / 16)%N) in *.
  assert (Hw : ∀ words, words < 16 → Some (code v) = Some (16 * 4 + N.of_nat words)%N → ver = 4%N ∧ words = N.to_nat w)
    by (intros words Hlt [= E]; lia).
  destruct (N.eqb_spec ver 4) as [Hver|Hver]; cbn [negb]; [|split; [done|]; intros (words & ? & E & Hlt & _); by destruct (Hw words (proj2 Hlt) E)].
  destruct (Nat.ltb_spec (N.to_nat (w * 4)) 20) as [Hs|Hs];
    [split; [done|]; intros (words & ? & E & Hlt & _); destruct (Hw words (proj2 Hlt) E); lia|].
  destruct (slice 6 8 ip) as [fr|]; [|naive_solver]. cbn [mbind option_bind fmap option_fmap option_map].
  rewrite N.land_ones. change (2 ^ 13)%N with 8192%N.
  destruct (N.eqb_spec (be fr mod 8192) 0) as [Hfr|Hfr]; cbn [negb]; [|naive_solver].
  destruct (ip !! 9) as [p|]; [|naive_solver]. cbn [mbind option_bind fmap option_fmap option_map].
  destruct (be32_at ip 12) as [s|]; [|naive_solver]. destruct (be32_at ip 16) as [d|]; [|naive_solver].
  cbn [mbind option_bind]. replace (N.to_nat (w * 4)) with (4 * N.to_nat w) by lia. split.
  - destruct (slice_from _ ip) as [k|] eqn:Hk; [|done]. apply slice_from_Some in Hk as [Hle ->]. intros [= -> -> <- <-].
    exists (N.to_nat w), (be fr). split_and!; try done; try lia. f_equal. lia.
  - intros (words & fr' & E & Hb & [= <-] & _ & [= <-] & [= ->] & [= ->] & Hle & ->).
    destruct (Hw words (proj2 Hb) E) as [_ ->]. by rewrite (proj2 (slice_from_Some _ ip _) (conj Hle eq_refl)).
Qed.

Lemma parse_l4_iff proto l4 port data name :
  parse_l4 proto l4 = Some (port, data, name) ↔
  be16_at l4 2 = Some port ∧
  ((proto = 6%N ∧ name = "tcp" ∧ data = match octet l4 12 with Some b => drop (4 * N.to_nat (b / 16)) l4 | None => [] end) ∨
   (proto = 17%N ∧ name = "udp" ∧ data = drop 8 l4)).
Proof.
  unfold parse_l4, IP_PROTO_TCP, IP_PROTO_UDP. pose proof (slice_be16 l4 2) as H2. change (2 + 2) with 4 in H2. rewrite <- H2.
  rewrite slice_from_drop. unfold octet.
  assert (Htcp : default [] (b ← l4 !! 12; slice_from (N.to_nat (N.shiftr (code b) 4 * 4)) l4) =
    match code <$> l4 !! 12 with Some b => drop (4 * N.to_nat (b / 16)) l4 | None => [] end).
  { destruct (l4 !! 12) as [b|]; [|done]. cbn [mbind option_bind fmap option_fmap option_map]. rewrite slice_from_drop.
    f_equal. rewrite N.shiftr_div_pow2. change (2 ^ 4)%N with 16%N. lia. }
  rewrite Htcp. destruct (slice 2 4 l4) as [s|]; cbn [mbind option_bind fmap option_fmap option_map];
    destruct (N.eqb_spec proto 6); [| |naive_solver..|]; try destruct (N.eqb_spec proto 17); naive_solver.
Qed.

(** *** Questions *)

Lemma question_label_length b : (N.land (code b) 192 = 0)%N ↔ (code b < 64)%N.
Proof. destruct b as [[] [] [] [] [] [] [] []]; vm_compute; by split. Qed.

Lemma dns_labels_Some fuel pos payload acc r :
  dns_labels fuel pos payload acc = Some r →
  ∃ labels rest, drop pos payload = (labels ≫= λ l, ascii_of_N (N.of_nat (length l)) :: l) ++ "000"%char :: rest ∧
    Forall (λ l, 1 ≤ length l ≤ 63) labels ∧ r = acc ++ (from_utf8_lossy <$> labels).
Proof.
  revert pos acc. induction fuel as [|fuel IH]; intros pos acc; [done|]. cbn [dns_labels].
  destruct (payload !! pos) as [len|] eqn:Hlen; [|done]. cbn [mbind option_bind].
  pose proof (drop_S _ _ _ Hlen) as Hd. destruct (N.eqb_spec (code len) 0) as [Hz|Hz].
  { intros [= <-]. exists [], (drop (S pos) payload). split_and!; [|constructor|by rewrite fmap_nil, (right_id_L [] (++))].
    rewrite Hd. cbn [mbind list_bind app]. f_equal. unfold code in Hz. by rewrite <- (ascii_N_embedding len), Hz. }
  destruct (N.eqb_spec (N.land (code len) 192) 0) as [H64%question_label_length|]; cbn [negb]; [|done].
  destruct (slice _ _ payload) as [label|] eqn:Hl; [|done]. cbn [mbind option_bind]. apply slice_Some in Hl as [Hle ->].
  replace (pos + 1 + N.to_nat (code len) - (pos + 1)) with (N.to_nat (code len)) by lia.
  set (label := take _ (drop (pos + 1) payload)).
  assert (Hll : length label = N.to_nat (code len)) by (unfold label; rewrite length_take, length_drop; lia).
  intros (labels & rest & Hrest & Hf & ->)%IH. exists (label :: labels), rest. split_and!.
  - rewrite Hd, bind_cons. cbn [app]. f_equal; [rewrite Hll, N2Nat.id; unfold code; by rewrite ascii_N_embedding|].
    rewrite <- (assoc_L (++)), <- Hrest. replace (S pos) with (pos + 1) by lia. unfold label.
    rewrite <- (drop_drop payload (N.to_nat (code len)) (pos + 1)). by rewrite take_drop.
  - constructor; [|done]. rewrite Hll. lia.
  - by rewrite fmap_cons, <- (assoc_L (++)).
Qed.

Lemma dns_labels_of labels rest fuel pos payload acc :
  drop pos payload = (labels ≫= λ l, ascii_of_N (N.of_nat (length l)) :: l) ++ "000"%char :: rest →
  Forall (λ l, 1 ≤ length l ≤ 63) labels → length labels < fuel →
  dns_labels fuel pos payload acc = Some (acc ++ (from_utf8_lossy <$> labels)).
Proof.
  revert fuel pos acc. induction labels as [|l labels IH]; intros fuel pos acc Hd Hf Hn; (destruct fuel as [|fuel]; [cbn in Hn; lia|]);
    cbn [dns_labels].
  - assert (Hp : payload !! pos = Some "000"%char) by (by rewrite <- (Nat.add_0_r pos), <- lookup_drop, Hd).
    rewrite Hp. cbn [mbind option_bind]. change (code "000") with 0%N. cbn. by rewrite (right_id_L [] (++)).
  - apply Forall_cons in Hf as [Hl Hf]. rewrite bind_cons in Hd. cbn [app] in Hd. rewrite <- (assoc_L (++)) in Hd.
    assert (Hp : payload !! pos = Some (ascii_of_N (N.of_nat (length l)))) by (by rewrite <- (Nat.add_0_r pos), <- lookup_drop, Hd).
    assert (Hc : code (ascii_of_N (N.of_nat (length l))) = N.of_nat (length l)) by (apply N_ascii_embedding; lia).
    rewrite Hp. cbn [mbind option_bind]. rewrite (proj2 (question_label_length _)) by lia. rewrite Hc.
    destruct (N.eqb_spec (N.of_nat (length l)) 0); [lia|]. cbn [N.eqb negb]. rewrite Nat2N.id.
    assert (Hd1 : drop (pos + 1) payload = l ++ (labels ≫= λ l, ascii_of_N (N.of_nat (length l)) :: l) ++ "000"%char :: rest)
      by (rewrite <- drop_drop, Hd; done).
    rewrite slice_drop by (apply lookup_lt_Some in Hp; lia). rewrite Hd1.
    pose proof (slice_mid [] l ((labels ≫= λ l, ascii_of_N (N.of_nat (length l)) :: l) ++ "000"%char :: rest)) as Hs.
    cbn [app length Nat.add] in Hs. rewrite Hs. cbn [mbind option_bind]. rewrite IH.
    + by rewrite fmap_cons, <- (assoc_L (++)).
    + by rewrite <- drop_drop, Hd1, drop_app_length.
    + done.
    + cbn in Hn. lia.
Qed.

Lemma length_labels labels : length labels ≤ length (labels ≫= λ l : bytes, ascii_of_N (N.of_nat (length l)) :: l).
Proof. induction labels as [|l labels IH]; [done|]. rewrite bind_cons. cbn [app length]. rewrite length_app. lia. Qed.

Lemma parse_dns_qname_iff payload name : parse_dns_qname payload = Some name ↔ asks payload name.
Proof.
  unfold parse_dns_qname, asks. pose proof (slice_be16 payload 4) as H4. change (4 + 2) with 6 in H4. split.
  - destruct (slice 4 6 payload) as [qd|]; [|done]. cbn [mbind option_bind fmap option_fmap option_map] in *.
    destruct (N.eqb_spec (be qd) 0) as [|Hqd]; [done|]. destruct (dns_labels _ 12 payload []) as [r|] eqn:Hr; [|done].
    cbn [mbind option_bind]. apply dns_labels_Some in Hr as (labels & rest & Hd & Hf & ->). cbn [app].
    case_bool_decide as Hnil; [done|]. intros [= <-]. exists (take 12 payload), labels, rest.
    assert (Hlen : 12 ≤ length payload).
    { destruct (decide (12 ≤ length payload)); [done|]. rewrite drop_ge in Hd by lia. by destruct (labels ≫= _). }
    split_and!; [by rewrite <- Hd, take_drop|rewrite length_take; lia| |by intros ->|done|done].
    unfold be16_at, octet. rewrite !lookup_take_lt by lia. fold (octet payload 4) (octet payload (4 + 1)).
    change (be16_at payload 4 ≠ Some 0%N). rewrite <- H4. congruence.
  - intros (header & labels & rest & -> & Hh & Hqd & Hne & Hf & ->).
    set (body := (labels ≫= _) ++ _) in *.
    assert (Hbe : be16_at (header ++ body) 4 = be16_at header 4).
    { unfold be16_at, octet. by rewrite !lookup_app_l by lia. }
    rewrite Hbe in H4. destruct (slice 4 6 (header ++ body)) as [qd|].
    2:{ exfalso. revert H4. unfold be16_at, octet. destruct (lookup_lt_is_Some_2 header 4 ltac:(lia)) as [? ->].
        by destruct (lookup_lt_is_Some_2 header (4 + 1) ltac:(lia)) as [? ->]. }
    cbn [mbind option_bind fmap option_fmap option_map] in *. destruct (N.eqb_spec (be qd) 0) as [Hz|]; [congruence|].
    erewrite (dns_labels_of labels rest); [|by rewrite <- Hh, drop_app_length|done|].
    + cbn [mbind option_bind app]. case_bool_decide as Hnil; [by apply fmap_nil_inv in Hnil|done].
    + pose proof (length_labels labels). unfold body. rewrite !length_app. cbn [length]. lia.
Qed.

(** *** Frames *)

Lemma be16_lt l i n : be16_at l i = Some n → i + 1 < length l.
Proof.
  unfold be16_at, octet. destruct (l !! (i + 1)) as [b|] eqn:E; [intros _; by apply lookup_lt_Some in E|].
  by destruct (l !! i).
Qed.

Lemma be32_lt l i n : be32_at l i = Some n → i + 3 < length l.
Proof.
  unfold be32_at, octet. destruct (l !! (i + 3)) as [b|] eqn:E; [intros _; by apply lookup_lt_Some in E|].
  by destruct (l !! i), (l !! (i + 1)), (l !! (i + 2)).
Qed.

Lemma be32_Some l i : i + 3 < length l → is_Some (be32_at l i).
Proof.
  intros H. unfold be32_at, octet. destruct (lookup_lt_is_Some_2 l i ltac:(lia)) as [? ->].
  destruct (lookup_lt_is_Some_2 l (i + 1) ltac:(lia)) as [? ->], (lookup_lt_is_Some_2 l (i + 2) ltac:(lia)) as [? ->],
    (lookup_lt_is_Some_2 l (i + 3) H) as [? ->]. cbn. eauto.
Qed.

Lemma parse_guest_flow_iff frame local f : parse_guest_flow frame local = Some f ↔ egress_frame local frame f.
Proof.
  unfold parse_guest_flow, egress_frame, ETHERTYPE_IPV4, ETHERNET_HEADER_LEN, PORT_DHCP_SERVER, PORT_DHCP_CLIENT, PORT_DNS.
  pose proof (slice_be16 frame 12) as H12. change (12 + 2) with 14 in H12. split.
  - destruct (slice 12 14 frame) as [e|]; [|done]. cbn [mbind option_bind fmap option_fmap option_map] in *.
    destruct (N.eqb_spec (be e) 2048) as [He|]; cbn [negb]; [|done].
    destruct (slice_from 14 frame) as [ip|] eqn:Hip; [|done]. apply slice_from_Some in Hip as [_ ->]. cbn [mbind option_bind].
    destruct (parse_ipv4_packet _) as [[[[src dst] proto] l4]|] eqn:Hp; [|done]. cbn [mbind option_bind].
    apply parse_ipv4_packet_iff in Hp as (words & fragment & Hv & Hw & Hf & Hf0 & Hpr & _ & Hdst & Hlen & ->).
    destruct (_ || _) eqn:Hloc; [done|]. apply orb_false_iff in Hloc as [Hg%N.eqb_neq Hgu%N.eqb_neq].
    destruct (parse_l4 _ _) as [[[port data] name]|] eqn:Hl; [|done]. cbn [mbind option_bind].
    apply parse_l4_iff in Hl as [Hport Hl].
    destruct (_ || _) eqn:Hdhcp; [done|]. apply orb_false_iff in Hdhcp as [H67%N.eqb_neq H68%N.eqb_neq]. intros [= <-].
    rewrite drop_drop in Hport, Hl. rewrite be16_drop in Hport, Hf. rewrite octet_drop in Hv, Hpr. rewrite be32_drop in Hdst.
    exists words, fragment, proto, data. cbn [flow_dst_ip flow_dst_port flow_proto flow_dns_name].
    split_and!; try done; try lia; [congruence|..].
    + rewrite octet_drop, !drop_drop in Hl. destruct Hl as [(? & ? & ->)|(? & ? & ->)]; [left|right]; split_and!; try done.
      by destruct (octet frame (14 + 4 * words + 12)); rewrite ?drop_drop.
    + intros n. destruct (N.eqb_spec port 53); [rewrite parse_dns_qname_iff|]; naive_solver.
  - intros (words & fragment & proto & data & He & Hv & Hw & Hf & Hf0 & Hpr & Hdst & Hg & Hgu & (Hport & H67 & H68 & Hl) & Hname).
    rewrite He in H12. destruct (slice 12 14 frame) as [e|]; [|done]. cbn [mbind option_bind fmap option_fmap option_map] in *.
    injection H12 as ->. cbn [N.eqb negb]. pose proof (be16_lt _ _ _ Hport) as Hlt. pose proof (be32_lt _ _ _ Hdst) as Hlt2.
    rewrite (proj2 (slice_from_Some 14 frame (drop 14 frame))) by (split; [lia|done]). cbn [mbind option_bind].
    destruct (be32_Some (drop 14 frame) 12) as [src Hsrc]; [rewrite length_drop; lia|].
    rewrite (proj2 (parse_ipv4_packet_iff (drop 14 frame) src (flow_dst_ip f) proto (drop (4 * words) (drop 14 frame)))).
    2:{ exists words, fragment. rewrite !octet_drop, be16_drop, !be32_drop, length_drop. split_and!; try done; try lia.
        by rewrite be32_drop in Hsrc. }
    cbn [mbind option_bind]. apply N.eqb_neq in Hg, Hgu, H67, H68. rewrite Hg, Hgu. cbn [orb].
    rewrite drop_drop. rewrite (proj2 (parse_l4_iff proto (drop (14 + 4 * words) frame) (flow_dst_port f) data (flow_proto f))).
    2:{ rewrite be16_drop, octet_drop, !drop_drop. split; [done|]. destruct Hl as [(? & ? & ->)|(? & ? & ->)]; [left|right]; split_and!; try done.
        by destruct (octet frame (14 + 4 * words + 12)); rewrite ?drop_drop. }
    cbn [mbind option_bind]. rewrite H67, H68. cbn [orb].
    assert (Hq : (if (flow_dst_port f =? 53)%N then parse_dns_qname data else None) = flow_dns_name f).
    { apply option_eq. intros n. rewrite Hname, <- parse_dns_qname_iff. destruct (N.eqb_spec (flow_dst_port f) 53); naive_solver. }
    rewrite Hq. by destruct f.
Qed.

Lemma flows_parsed local frames : egress_flows local frames (omap (λ f, parse_guest_flow f local) frames).
Proof.
  induction frames as [|frame frames IH]; [constructor|]. rewrite omap_cons_eq.
  destruct (parse_guest_flow frame local) as [f|] eqn:E; constructor; [by apply parse_guest_flow_iff|done| |done].
  intros f H%parse_guest_flow_iff. congruence.
Qed.

(** C34.  The witness is exact, of the bytes captured.  The frames are those of the
    whole records of a file with a known magic and Ethernet as its link type, and
    none of any other file.  The flows are, in order, those of the frames that are
    unfragmented IPv4 with TCP or UDP to an address other than the gateway's and
    the guest's and a port other than DHCP's, by the bytes at their positions.  The
    listed destinations are precisely the (address, port, protocol) of the flows,
    each with the number of frames that went there, in strictly increasing order;
    and the listed names are precisely the names those frames' DNS questions ask. *)
Theorem summary_exact raw tap local complete :
  let w := summarize_pcap raw tap local complete in
  w_tap w = tap ∧ w_capture_complete w = complete ∧
  ∃ frames flows, frames_of raw frames ∧ egress_flows local frames flows ∧
    (∃ entries, w_destinations w = destination_of <$> entries ∧ keys_sorted entries ∧
       ∀ k n, (k, n) ∈ entries ↔ n = count_key k flows ∧ (0 < n)%N) ∧
    StronglySorted slt (w_dns_queries w) ∧
    (∀ x, x ∈ w_dns_queries w ↔ ∃ f, f ∈ flows ∧ flow_dns_name f = Some x).
Proof.
  intros w. pose proof (frames_parsed raw) as Hframes.
  assert (H0 : exact FlowAccumulator_new []).
  { split; simpl; [constructor| |constructor|]; intros; set_unfold; [unfold count_key; simpl; lia|naive_solver]. }
  unfold w, summarize_pcap. destruct (parse_pcap_global_header raw) as [[order rest]|]; simpl; (split; [done|]); (split; [done|]);
    eexists _, _; (split; [exact Hframes|]); (split; [apply flows_parsed|]).
  - destruct (fold_exact local (packets order rest) _ _ H0) as [Hs Hc Hds Hd]. eauto 7.
  - destruct H0 as [Hs Hc Hds Hd]. split_and!; [by exists []|done|done].
Qed.

(** A capture of one datagram, and what is said of it. *)
Example summary_of_datagram :
  let frame := sample_frame ["010"; "009"; "008"; "007"]%char in
  let raw := (["212"; "195"; "178"; "161"] ++ zeros 16 ++ ["001"; "000"; "000"; "000"])%char ++
             zeros 8 ++ [ascii_of_N (N.of_nat (length frame)); "000"; "000"; "000"]%char ++ zeros 4 ++ frame ++ zeros 3 in
  w_destinations (summarize_pcap raw "tap" {| gateway := ipv4 172 16 0 5; guest := ipv4 172 16 0 6 |} true) =
  [{| dest_ip := "8.8.8.8"; dest_port := 9; dest_proto := "udp"; dest_packets := 1 |}].
Proof. vm_compute. reflexivity. Qed.
