(* ===== verification/Artifacts.v ===== *)
(** * Artifacts: what a run leaves on the host ([artifacts.rs])

    The overlay change set read from the guest, and the [out/] directory whose
    [result.json] is written by the guest's runner: which of its references are
    followed.  [serde_json] is a parameter. *)

From S2P Require Import Prelude RStr Cidr Fs Pcap.
From stdpp Require Import options.

Definition SCHEMA_VERSION : N := 1.
Definition RESULT_JSON : string := "result.json".
Definition STDOUT_LOG : string := "logs/stdout.log".
Definition STDERR_LOG : string := "logs/stderr.log".

Inductive RunStatus := Succeeded | Failed | TimedOut | Cancelled.

(** Times are kept as texts. *)
Record ResultJson := {
  schema_version : N;
  status : RunStatus;
  exit_code : Z;
  started_at : string;
  ended_at : string;
  summary_path : option string;
  patch_path : option string;
  events_path : option string;
  pushed_branch : option string;
  run_command_line : list string
}.

Definition status_from_exit_code (exit_code : Z) : RunStatus :=
  if (exit_code =? 0)%Z then Succeeded else Failed.

Definition from_exec (exit_code : Z) (status : RunStatus) (started_at ended_at : string)
    (command : list string) : ResultJson :=
  {| schema_version := SCHEMA_VERSION; status := status; exit_code := exit_code; started_at := started_at;
     ended_at := ended_at; summary_path := None; patch_path := None; events_path := None;
     pushed_branch := None; run_command_line := command |}.

(** ** Change sets *)

Definition CHANGESET_SCHEMA_VERSION : N := 1.
Definition WORKSPACE_PREFIX : string := "workspace/".
Definition EPHEMERAL_PREFIXES : list string :=
  ["run/"; "var/run/"; "var/log/"; "var/cache/"; "var/tmp/"; "tmp/"; "dev/"; "proc/"; "sys/"].

Definition is_lane_escape (path : string) : bool :=
  if starts_with path WORKSPACE_PREFIX then false
  else negb (existsb (starts_with path) EPHEMERAL_PREFIXES).

Record Changeset := {
  cs_schema_version : N;
  overlay_active : bool;
  added : list string;
  modified : list string;
  deleted : list string
}.

Definition Changeset_inactive : Changeset :=
  {| cs_schema_version := CHANGESET_SCHEMA_VERSION; overlay_active := false;
     added := []; modified := []; deleted := [] |}.

Definition Changeset_is_empty (c : Changeset) : bool :=
  bool_decide (added c = []) && bool_decide (modified c = []) && bool_decide (deleted c = []).

Definition changed (c : Changeset) : list string := added c ++ modified c ++ deleted c.

Definition lane_escapes (c : Changeset) : list string :=
  filter (λ path, is_lane_escape path = true) (changed c).

Definition ephemeral_count (c : Changeset) : nat :=
  length (filter (λ path, negb (starts_with path WORKSPACE_PREFIX) && negb (is_lane_escape path) = true) (changed c)).

Definition workspace_counts (c : Changeset) : nat * nat * nat :=
  let under paths := length (filter (λ path, starts_with path WORKSPACE_PREFIX = true) paths) in
  (under (added c), under (modified c), under (deleted c)).

(** [slice::split] on NUL. *)
Fixpoint split_nul (l : bytes) : list bytes :=
  match l with
  | [] => [[]]
  | b :: l =>
      if (code b =? 0)%N then [] :: split_nul l
      else match split_nul l with [] => [[b]] | r :: rs => (b :: r) :: rs end
  end.

Definition tab : byte := "009".

Inductive change_op := OpAdded | OpModified | OpDeleted | OpUnknown.

#[export] Instance change_op_eq_dec : EqDecision change_op.
Proof. solve_decision. Defined.

Definition op_of (b : byte) : change_op :=
  if (b =? "A")%char then OpAdded else if (b =? "M")%char then OpModified
  else if (b =? "D")%char then OpDeleted else OpUnknown.

(** One record: its operation and its path, when it has both. *)
Definition parse_record (record : bytes) : option (change_op * string) :=
  match record with
  | op :: t :: path_bytes =>
      if negb (t =? tab)%char then None else
      let path := from_utf8_lossy path_bytes in
      if is_empty path then None else Some (op_of op, path)
  | _ => None
  end.

Definition push_change (c : Changeset) (change : change_op * string) : Changeset :=
  let '(op, path) := change in
  {| cs_schema_version := cs_schema_version c; overlay_active := overlay_active c;
     added := if decide (op = OpAdded) then added c ++ [path] else added c;
     modified := if decide (op = OpModified) then modified c ++ [path] else modified c;
     deleted := if decide (op = OpDeleted) then deleted c ++ [path] else deleted c |}.

Definition parse_changeset_stream (raw : bytes) : Changeset :=
  if bool_decide (take 9 raw = String.list_ascii_of_string "NOOVERLAY") then Changeset_inactive else
  let c := fold_left push_change (omap parse_record (split_nul raw))
    {| cs_schema_version := CHANGESET_SCHEMA_VERSION; overlay_active := true;
       added := []; modified := []; deleted := [] |} in
  {| cs_schema_version := cs_schema_version c; overlay_active := overlay_active c;
     added := str_sort (added c); modified := str_sort (modified c); deleted := str_sort (deleted c) |}.

(** ** The artifact directory *)

Inductive ArtifactsError :=
| MissingRequired (path : string)
| UnsupportedSchemaVersion (version : N)
| DanglingReference (path : string)
| UnsafeReference (path : string)
| InvalidJson (detail : string)
| ArtifactsIo (p : path) (message : string).

Record RunnerArtifacts := {
  ra_result : ResultJson;
  ra_summary : option string;
  ra_patch : option string;
  ra_events : option path;
  ra_stdout : path;
  ra_stderr : path
}.

Definition artifacts_io (p : path) (e : io_error) : ArtifactsError := ArtifactsIo p (message e).

Definition ensure_exists (p : path) (label : string) : io ArtifactsError unit :=
  let! found := is_file p in
  if found : bool then ret () else throw (MissingRequired label).

(** The components of a reference, when none leaves the directory. *)
Fixpoint normal_components (cs : list component) : option path :=
  match cs with
  | [] => Some []
  | Normal name :: cs => cons name <$> normal_components cs
  | CurDir :: cs => normal_components cs
  | (ParentDir | RootDir) :: _ => None
  end.

Definition safe_join (out_dir : path) (rel : string) : result ArtifactsError path :=
  match normal_components (components rel) with
  | Some names => Ok (out_dir ++ names)
  | None => Err (UnsafeReference rel)
  end.

Definition ensure_inside_out_dir (out_dir p : path) (rel : string) : io ArtifactsError unit :=
  let! canonical_out := lift_err (artifacts_io out_dir) (canonicalize out_dir) in
  let! canonical_target := lift_err (artifacts_io p) (canonicalize p) in
  if bool_decide (canonical_out `prefix_of` canonical_target) then ret () else throw (UnsafeReference rel).

Definition validate_reference (out_dir : path) (rel : option string) : io ArtifactsError unit :=
  match rel with
  | None => ret ()
  | Some rel =>
      let! p := of_result (safe_join out_dir rel) in
      let! found := is_file p in
      if negb found then throw (DanglingReference rel) else ensure_inside_out_dir out_dir p rel
  end.

Definition read_optional_text (out_dir : path) (rel : option string) : io ArtifactsError (option string) :=
  match rel with
  | None => ret None
  | Some rel =>
      let! p := of_result (safe_join out_dir rel) in
      do! ensure_inside_out_dir out_dir p rel in
      let! contents := lift_err (artifacts_io p) (read_following p) in
      ret (Some contents)
  end.

Section load.
  (** [serde_json::from_str] at [ResultJson]. *)
  Variable from_json : string → result string ResultJson.

Definition parse_result_json (raw : string) : result ArtifactsError ResultJson :=
  let? result := map_err InvalidJson (from_json raw) in
  if negb (schema_version result =? SCHEMA_VERSION)%N
  then Err (UnsupportedSchemaVersion (schema_version result)) else Ok result.

Definition load (out_dir : path) : io ArtifactsError RunnerArtifacts :=
  let result_path := pjoin out_dir RESULT_JSON in
  let stdout_path := out_dir ++ ["logs"; "stdout.log"] in
  let stderr_path := out_dir ++ ["logs"; "stderr.log"] in
  do! ensure_exists result_path RESULT_JSON in
  do! ensure_exists stdout_path STDOUT_LOG in
  do! ensure_exists stderr_path STDERR_LOG in
  let! raw := lift_err (artifacts_io result_path) (read_following result_path) in
  let! result := of_result (parse_result_json raw) in
  do! validate_reference out_dir (summary_path result) in
  do! validate_reference out_dir (patch_path result) in
  do! validate_reference out_dir (events_path result) in
  let! summary := read_optional_text out_dir (summary_path result) in
  let! patch := read_optional_text out_dir (patch_path result) in
  let! events := match events_path result with
                 | Some rel => let! p := of_result (safe_join out_dir rel) in ret (Some p)
                 | None => ret None
                 end in
  ret {| ra_result := result; ra_summary := summary; ra_patch := patch; ra_events := events;
         ra_stdout := stdout_path; ra_stderr := stderr_path |}.

End load.

(** ** Change sets are read exactly *)

(** What the guest's enumeration writes for a change. *)
Definition op_byte (op : change_op) : byte :=
  match op with OpAdded => "A" | OpModified => "M" | OpDeleted => "D" | OpUnknown => "?" end%char.

Definition change_record (change : change_op * string) : bytes :=
  op_byte (fst change) :: tab :: String.list_ascii_of_string (snd change).

Definition encode_change (change : change_op * string) : bytes := change_record change ++ ["000"%char].

Definition change_ok (change : change_op * string) : Prop :=
  fst change ≠ OpUnknown ∧ snd change ≠ "" ∧
  Forall (λ b, 0 < code b < 128)%N (String.list_ascii_of_string (snd change)).

Lemma split_nul_app l r :
  Forall (λ b, code b ≠ 0%N) l → split_nul (l ++ "000"%char :: r) = l :: split_nul r.
Proof.
  induction 1 as [|b l Hb _ IH]; [done|]. simpl. apply N.eqb_neq in Hb. by rewrite Hb, IH.
Qed.

Lemma parse_encoded change : change_ok change → parse_record (change_record change) = Some change.
Proof.
  destruct change as [op p]. intros (Hop & Hp & Hb). simpl in *.
  rewrite lossy_ascii by (eapply Forall_impl; [exact Hb|]; simpl; lia).
  rewrite String.string_of_list_ascii_of_string. destruct p; [done|]. cbn [is_empty]. by destruct op.
Qed.

Lemma split_encoded changes :
  Forall change_ok changes → omap parse_record (split_nul (changes ≫= encode_change)) = changes.
Proof.
  induction 1 as [|c changes Hc _ IH]; [done|]. rewrite bind_cons. unfold encode_change at 1.
  rewrite <- (assoc_L (++)). simpl app at 2. rewrite split_nul_app.
  - rewrite omap_cons_eq, parse_encoded by done. by rewrite IH.
  - destruct c as [op p]. destruct Hc as (Hop & _ & Hb). unfold change_record. simpl fst in *; simpl snd in *.
    repeat constructor; [by destruct op|done|]. eapply Forall_impl; [exact Hb|]. simpl. lia.
Qed.

Definition paths_of (op : change_op) (changes : list (change_op * string)) : list string :=
  snd <$> filter (λ c, fst c = op) changes.

Lemma push_changes changes c :
  let c' := fold_left push_change changes c in
  cs_schema_version c' = cs_schema_version c ∧ overlay_active c' = overlay_active c ∧
  added c' = added c ++ paths_of OpAdded changes ∧
  modified c' = modified c ++ paths_of OpModified changes ∧
  deleted c' = deleted c ++ paths_of OpDeleted changes.
Proof.
  revert c; induction changes as [|[op p] changes IH]; intros c.
  { unfold paths_of. simpl. by rewrite !(right_id_L [] (++)). }
  cbv zeta in *. cbn [fold_left]. destruct (IH (push_change c (op, p))) as (-> & -> & -> & -> & ->).
  unfold paths_of. rewrite !filter_cons. simpl.
  splits; repeat case_decide; simplify_eq/=; rewrite <- ?(assoc_L (++)); done.
Qed.

(** The change set is read exactly.  For the stream the guest writes for a
    list of changes, whatever their order, each of the three lists holds
    precisely the paths changed that way, sorted. *)
Theorem changeset_roundtrip changes :
  Forall change_ok changes →
  let c := parse_changeset_stream (changes ≫= encode_change) in
  overlay_active c = true ∧
  added c ≡ₚ paths_of OpAdded changes ∧ modified c ≡ₚ paths_of OpModified changes ∧
  deleted c ≡ₚ paths_of OpDeleted changes ∧
  Forall (Sorted str_le) [added c; modified c; deleted c].
Proof.
  intros Hc. unfold parse_changeset_stream. rewrite bool_decide_eq_false_2.
  - rewrite split_encoded by done.
    pose proof (push_changes changes {| cs_schema_version := CHANGESET_SCHEMA_VERSION; overlay_active := true;
       added := []; modified := []; deleted := [] |}) as H. simpl in H. destruct H as (_ & H0 & H1 & H2 & H3).
    simpl. rewrite H0, H1, H2, H3. splits; try apply str_sort_perm; [done|].
    repeat constructor; apply str_sort_sorted.
  - destruct Hc as [|[op p] changes (Hop & _) _]; [done|]. simpl. by destruct op.
Qed.

Lemma changeset_roundtrip_witness :
  added (parse_changeset_stream ([(OpModified, "b"); (OpAdded, "z"); (OpAdded, "a")] ≫= encode_change)) ≡ₚ ["z"; "a"].
Proof.
  assert (H : Forall change_ok [(OpModified, "b"); (OpAdded, "z"); (OpAdded, "a")]).
  { repeat constructor; done. }
  destruct (changeset_roundtrip _ H) as (_ & Ha & _). exact Ha.
Defined.

Lemma lane_escape_outside p : is_lane_escape p = true → starts_with p WORKSPACE_PREFIX = false.
Proof. unfold is_lane_escape. by destruct (starts_with p WORKSPACE_PREFIX). Qed.

(** Every changed path is counted in exactly one lane: the agent's
    workspace, the escapes the tripwire reports, or the noted churn. *)
Theorem lanes_partition c :
  let '(a, m, d) := workspace_counts c in
  length (changed c) = a + m + d + length (lane_escapes c) + ephemeral_count c ∧
  Forall (λ p, p ∈ changed c ∧ starts_with p WORKSPACE_PREFIX = false) (lane_escapes c).
Proof.
  unfold workspace_counts, lane_escapes, ephemeral_count, changed. split.
  - rewrite !filter_app, !length_app.
    assert (H : ∀ l, length l = length (filter (λ p, starts_with p WORKSPACE_PREFIX = true) l) +
      length (filter (λ p, is_lane_escape p = true) l) +
      length (filter (λ p, negb (starts_with p WORKSPACE_PREFIX) && negb (is_lane_escape p) = true) l)).
    { induction l as [|p l IH]; [done|]. rewrite !filter_cons. pose proof (lane_escape_outside p) as Hp.
      repeat case_decide; simpl; rewrite ?IH; try lia; exfalso;
        destruct (starts_with p WORKSPACE_PREFIX), (is_lane_escape p); simpl in *; try done; by specialize (Hp eq_refl). }
    rewrite (H (added c)), (H (modified c)), (H (deleted c)). lia.
  - apply Forall_forall. intros p [He Hp]%list_elem_of_filter. split; [done|].
    by apply lane_escape_outside.
Qed.

(** ** References stay inside the artifact directory *)

(** A file by a name: its text, every link on the way followed. *)
Definition found (t : tree) (p q : path) (s : string) : Prop := resolve_path t p = Ok q ∧ file t q = Some s.

(** A reference that may be followed: it names, below the directory and by plain
    components, a file that lies, every link on the way followed, under it. *)
Definition inside (t : tree) (out_dir : path) (rel : string) (p : path) (s : string) : Prop :=
  ∃ names root q, p = out_dir ++ names ∧ normal_components (components rel) = Some names ∧
    resolve_path t out_dir = Ok root ∧ found t p q s ∧ root `prefix_of` q.

(** A reference accepted by validation. *)
Definition reference_ok (t : tree) (out_dir : path) (rel : option string) : Prop :=
  ∀ r, rel = Some r → ∃ p s, safe_join out_dir r = Ok p ∧ inside t out_dir r p s.

(** What was read for a reference. *)
Definition followed (t : tree) (out_dir : path) (rel : option string) (read : option string) : Prop :=
  match rel, read with
  | Some r, Some s => ∃ p, inside t out_dir r p s
  | None, None => True
  | _, _ => False
  end.

Lemma safe_join_Ok out_dir rel p :
  safe_join out_dir rel = Ok p → ∃ names, p = out_dir ++ names ∧ normal_components (components rel) = Some names.
Proof. unfold safe_join. destruct (normal_components _) as [names|]; [|done]. intros [= <-]. by exists names. Qed.

(** A computation that changes nothing and whose success means [P]. *)
Definition reads {A : Type} (P : tree → A → Prop) (m : io ArtifactsError A) : Prop :=
  ∀ t : tree, wp m (λ o t', t' = t ∧ ∀ a, o = Done (Ok a) → P t a) t.

Lemma reads_bind {A B : Type} (P : tree → A → Prop) (Q : tree → B → Prop) m (k : A → io ArtifactsError B) :
  reads P m → (∀ t a, P t a → wp (k a) (λ o t', t' = t ∧ ∀ b, o = Done (Ok b) → Q t b) t) → reads Q (bind m k).
Proof.
  intros Hm Hk t. wp_struct. eapply wp_mono; [apply Hm|]. intros o t1 [-> Ho].
  destruct o as [[a|e]|]; wp_post; [by apply Hk, Ho|done..].
Qed.

Lemma wp_ensure_inside out_dir p rel :
  reads (λ t _, ∃ root q, resolve_path t out_dir = Ok root ∧ resolve_path t p = Ok q ∧ root `prefix_of` q)
    (ensure_inside_out_dir out_dir p rel).
Proof.
  intros t. unfold ensure_inside_out_dir. wp_struct. apply wp_canonicalize; [intros root Hr|intros; by wp_struct|by wp_struct].
  wp_struct. apply wp_canonicalize; [intros q Hq|intros; by wp_struct|by wp_struct]. wp_struct.
  case_bool_decide; wp_struct; [|done]. split; [done|]. eauto.
Qed.

Lemma wp_validate_reference out_dir rel : reads (λ t _, reference_ok t out_dir rel) (validate_reference out_dir rel).
Proof.
  intros t. unfold validate_reference. destruct rel as [r|]; [|by wp_struct].
  destruct (safe_join out_dir r) as [p|e] eqn:Hj; [|wp_struct; by wp_struct]. wp_struct.
  apply wp_is_file; [intros q s Hq Hs|wp_struct; by wp_struct|by wp_struct]. wp_struct. simpl.
  eapply wp_mono; [apply wp_ensure_inside|]. intros o t' [-> Ho]. split; [done|]. intros a Ha r' [= <-].
  destruct (Ho a Ha) as (root & q' & Hr & Hq' & Hpre). rewrite Hq in Hq'. injection Hq' as <-.
  exists p, s. split; [done|]. destruct (safe_join_Ok _ _ _ Hj) as (names & Hp & Hn). by exists names, root, q.
Qed.

Lemma wp_read_optional out_dir rel : reads (λ t o, followed t out_dir rel o) (read_optional_text out_dir rel).
Proof.
  intros t. unfold read_optional_text. destruct rel as [r|]; [|wp_struct; split; [done|]; by intros a [= <-]].
  destruct (safe_join out_dir r) as [p|e] eqn:Hj; [|wp_struct; by wp_struct]. wp_struct.
  eapply wp_mono; [apply wp_ensure_inside|]. intros o t' [-> Ho].
  destruct o as [[[]|e]|]; wp_struct; [|done..]. destruct (Ho () eq_refl) as (root & q & Hr & Hq & Hpre).
  apply wp_read_following; [intros q' s Hq' Hs|intros; by wp_struct|by wp_struct]. wp_struct.
  split; [done|]. intros a [= <-]. rewrite Hq in Hq'. injection Hq' as <-.
  destruct (safe_join_Ok _ _ _ Hj) as (names & Hp & Hn). by exists p, names, root, q.
Qed.

Lemma ensure_exists_reads p label : reads (λ t _, ∃ q s, found t p q s) (ensure_exists p label).
Proof.
  intros t. unfold ensure_exists. wp_struct. apply wp_is_file; [intros q s Hq Hs|by wp_struct..]. wp_struct.
  split; [done|]. intros a _. by exists q, s.
Qed.

(** One step of a computation that only reads. *)
Ltac reads_step L :=
  eapply wp_mono; [apply L|]; intros o t' [-> Ho];
  destruct o as [[?a|?e]|]; wp_struct; [specialize (Ho _ eq_refl)|done..].

Section load_spec.
  Variable from_json : string → result string ResultJson.
  Variable out_dir : path.

(** What a loaded bundle is known to be. *)
Definition bundle_ok (t : tree) (a : RunnerArtifacts) : Prop :=
  let r := ra_result a in
  schema_version r = 1%N ∧
  (∃ q raw, found t (out_dir ++ ["result.json"]) q raw ∧ from_json raw = Ok r) ∧
  followed t out_dir (summary_path r) (ra_summary a) ∧
  followed t out_dir (patch_path r) (ra_patch a) ∧
  match events_path r, ra_events a with
  | Some rel, Some p => ∃ s, inside t out_dir rel p s
  | None, None => True
  | _, _ => False
  end ∧
  (ra_stdout a = out_dir ++ ["logs"; "stdout.log"] ∧ ∃ q s, found t (ra_stdout a) q s) ∧
  (ra_stderr a = out_dir ++ ["logs"; "stderr.log"] ∧ ∃ q s, found t (ra_stderr a) q s).

Lemma wp_load : reads bundle_ok (load from_json out_dir).
Proof.
  intros t. unfold load. wp_struct. reads_step ensure_exists_reads. clear Ho. reads_step ensure_exists_reads. rename Ho into Hout.
  reads_step ensure_exists_reads. rename Ho into Herr.
  apply wp_read_following; [intros q raw Hq Hraw|intros; by wp_struct|by wp_struct]. wp_struct.
  unfold parse_result_json. destruct (from_json raw) as [r|e] eqn:Hjson; simpl; wp_struct; [|done].
  destruct (N.eqb_spec (schema_version r) SCHEMA_VERSION) as [Hv|]; cbn [negb]; [|wp_struct; done]. wp_struct.
  reads_step wp_validate_reference. clear Ho. reads_step wp_validate_reference. clear Ho.
  reads_step wp_validate_reference. rename Ho into Hevents.
  reads_step wp_read_optional. rename Ho into Hsummary. reads_step wp_read_optional. rename Ho into Hpatch.
  assert (Hresult : ∃ q raw, found t (out_dir ++ ["result.json"]) q raw ∧ from_json raw = Ok r) by (by exists q, raw).
  destruct (events_path r) as [rel|] eqn:Hrel; wp_struct.
  - destruct (Hevents rel eq_refl) as (p & s & -> & Hin). wp_struct. split; [done|]. intros b [= <-].
    unfold bundle_ok. cbn. rewrite Hrel. split_and!; try done. by exists s.
  - split; [done|]. intros b [= <-]. unfold bundle_ok. cbn. rewrite Hrel. by split_and!.
Qed.

(** C33.  Collecting a run's artifacts changes nothing, and no reference the guest
    wrote leads out of the artifact directory.  A loaded bundle is what
    [result.json] says, with the supported schema; its summary and its patch are
    the texts, and its events the path, of exactly the references that are there,
    each of plain components below the directory and each a file whose location,
    every link followed, is under the resolved directory, whatever links were
    left.  The files with fixed names, [result.json] itself and the two logs, are
    only found by their name, links followed. *)
Theorem load_contained t l :
  let '(o, w') := load from_json out_dir (World t l) in
  fs w' = t ∧ ∀ a, o = Done (Ok a) → bundle_ok t a.
Proof. pose proof (wp_load t l) as H. by destruct (load _ _ _). Qed.

End load_spec.

(** ** The record itself is not held to the directory *)

(** An output directory whose [result.json] is a link out of it, and whose record
    is of a run that succeeded. *)
Definition linked_tree : tree :=
  <[[] := Dir]> (<[["o"] := Dir]> (<[["o"; "logs"] := Dir]> (<[["o"; "logs"; "stdout.log"] := File ""]>
  (<[["o"; "logs"; "stderr.log"] := File ""]> (<[["o"; "result.json"] := Link "/secret"]> (<[["secret"] := File "out"]> ∅)))))).

(** It is read all the same: only references are checked. *)
Lemma record_followed_outside :
  let from_json raw := Ok (from_exec (Z.of_nat (len raw)) Succeeded "" "" []) in
  ∃ a, fst (load from_json ["o"] (World linked_tree [])) = Done (Ok a) ∧ exit_code (ra_result a) = 3%Z.
Proof. eexists. split; vm_compute; reflexivity. Qed.
