(* ===== verification/Prog.v ===== *)
(** * Prog: programs that drive a host, and their traces

    The orchestrating parts of rooms are sequences of calls into the host:
    system calls, programs, and operations of the other components.  Here such
    a part is a tree of calls, each followed by a function of its answer.  A
    trace lists the calls made with the answers given.  Nothing is assumed of
    the answers, so a statement about every trace covers every failure, every
    interleaving with other processes and, since a trace may stop anywhere,
    every crash. *)

From S2P Require Import Prelude Fs.
From stdpp Require Import options.

Section prog.
  Context {Op : Type} {Ans : Op → Type}.

(** [Spin] is a loop that ran out of fuel: it never returns. *)
Inductive prog (A : Type) : Type :=
| Ret (a : A)
| Vis (op : Op) (k : Ans op → prog A)
| Spin.
#[global] Arguments Ret {A} a.
#[global] Arguments Vis {A} op k.
#[global] Arguments Spin {A}.

Record event := Event { ev_op : Op; ev_ans : Ans ev_op }.

Abbreviation trace := (list event) (only parsing).

Definition call (op : Op) : prog (Ans op) := Vis op Ret.

Fixpoint pbind {A B : Type} (p : prog A) (k : A → prog B) : prog B :=
  match p with
  | Ret a => k a
  | Vis op j => Vis op (λ x, pbind (j x) k)
  | Spin => Spin
  end.

(** Rust's [?]. *)
Definition ptry {E A B : Type} (p : prog (result E A)) (k : A → prog (result E B)) : prog (result E B) :=
  pbind p (λ r, match r with Ok a => k a | Err e => Ret (Err e) end).

Definition pmap_err {E E' A : Type} (f : E → E') (p : prog (result E A)) : prog (result E' A) :=
  pbind p (λ r, Ret (map_err f r)).

(** [for x in l { f(x) }], keeping the results. *)
Fixpoint pfor_each {A B : Type} (f : A → prog B) (l : list A) : prog (list B) :=
  match l with
  | [] => Ret []
  | x :: l => pbind (f x) (λ y, pbind (pfor_each f l) (λ ys, Ret (y :: ys)))
  end.

(** The same with [?] on each result. *)
Fixpoint ptry_each {E A B : Type} (f : A → prog (result E B)) (l : list A) : prog (result E (list B)) :=
  match l with
  | [] => Ret (Ok [])
  | x :: l => ptry (f x) (λ y, ptry (ptry_each f l) (λ ys, Ret (Ok (y :: ys))))
  end.

(** ** Traces *)

(** [run p tr o]: the calls of [tr] are the first ones [p] makes; [o] is the
    value it returned, or [None] when it stopped there or has not returned. *)
Fixpoint run {A : Type} (p : prog A) (tr : list event) (o : option A) : Prop :=
  match p with
  | Ret a => tr = [] ∧ (o = None ∨ o = Some a)
  | Vis op k => (tr = [] ∧ o = None) ∨ ∃ x tr', tr = Event op x :: tr' ∧ run (k x) tr' o
  | Spin => tr = [] ∧ o = None
  end.

(** [spins p tr]: after the calls of [tr] the program loops for ever. *)
Fixpoint spins {A : Type} (p : prog A) (tr : list event) : Prop :=
  match p with
  | Ret _ => False
  | Vis op k => ∃ x tr', tr = Event op x :: tr' ∧ spins (k x) tr'
  | Spin => tr = []
  end.

(** Every call of the trace was allowed by [R] after the calls before it. *)
Definition guarded (R : list event → Op → Prop) (tr : list event) : Prop :=
  ∀ h e h', tr = h ++ e :: h' → R h (ev_op e).

(** Run against a host given as a function of the history. *)
Fixpoint exec {A : Type} (host : list event → ∀ op, Ans op) (p : prog A) (h : list event) : option A * list event :=
  match p with
  | Ret a => (Some a, h)
  | Vis op k => let x := host h op in exec host (k x) (h ++ [Event op x])
  | Spin => (None, h)
  end.

(** ** Reasoning about every run

    [spec R p h Q]: continuing after [h], the program only makes calls [R]
    allows, and what it returns satisfies [Q] with the whole history. *)
Fixpoint spec {A : Type} (R : list event → Op → Prop) (p : prog A) (h : list event)
    (Q : A → list event → Prop) : Prop :=
  match p with
  | Ret a => Q a h
  | Vis op k => R h op ∧ ∀ x, spec R (k x) (h ++ [Event op x]) Q
  | Spin => True
  end.

Lemma spec_mono {A : Type} R (p : prog A) h (Q Q' : A → list event → Prop) :
  spec R p h Q → (∀ a h', Q a h' → Q' a h') → spec R p h Q'.
Proof.
  intros Hp HQ. revert h Hp. induction p as [a|op k IH|]; intros h; simpl; [auto| |done].
  intros [HR Hk]. split; [done|]. intros x. by apply IH.
Qed.

Lemma spec_bind {A B : Type} R (p : prog A) (k : A → prog B) h (Q : B → list event → Prop) :
  spec R p h (λ a h', spec R (k a) h' Q) → spec R (pbind p k) h Q.
Proof.
  revert h. induction p as [a|op j IH|]; intros h; simpl; [done| |done].
  intros [HR Hj]. split; [done|]. intros x. by apply IH.
Qed.

Lemma spec_try {E A B : Type} R (p : prog (result E A)) (k : A → prog (result E B)) h Q :
  spec R p h (λ r h', match r with Ok a => spec R (k a) h' Q | Err e => Q (Err e) h' end) →
  spec R (ptry p k) h Q.
Proof. intros Hp. apply spec_bind. eapply spec_mono; [exact Hp|]. by intros [a|e] h'. Qed.

Lemma spec_map_err {E E' A : Type} R (f : E → E') (p : prog (result E A)) h Q :
  spec R p h (λ r h', Q (map_err f r) h') → spec R (pmap_err f p) h Q.
Proof. intros Hp. by apply spec_bind. Qed.

Lemma spec_ret {A : Type} R (a : A) h (Q : A → list event → Prop) : Q a h → spec R (Ret a) h Q.
Proof. done. Qed.

Lemma spec_call R op h Q :
  R h op → (∀ x, Q x (h ++ [Event op x])) → spec R (call op) h Q.
Proof. by split. Qed.

(** A loop keeps an invariant of the results so far and the history. *)
Lemma spec_for_each {A B : Type} R (f : A → prog B) (I : list B → list event → Prop) l h ys0 :
  I ys0 h →
  (∀ x ys h', x ∈ l → I ys h' → spec R (f x) h' (λ y h'', I (ys ++ [y]) h'')) →
  spec R (pfor_each f l) h (λ ys h', I (ys0 ++ ys) h').
Proof.
  revert h ys0. induction l as [|x l IH]; intros h ys0 HI Hf; simpl; [by rewrite (right_id_L [] (++))|].
  apply spec_bind. eapply spec_mono; [apply (Hf x ys0 h); [by left|done]|]. intros y h1 H1.
  apply spec_bind. eapply spec_mono; [apply (IH h1 (ys0 ++ [y])); [done|]|].
  { intros z ys h' Hz. apply Hf. by right. }
  intros ys h2 Hys. cbv beta in Hys. rewrite <- (assoc_L (++)) in Hys. exact Hys.
Qed.

(** The history only grows. *)
Lemma spec_extends {A : Type} R (p : prog A) h (Q : A → list event → Prop) :
  spec R p h Q → spec R p h (λ a h', Q a h' ∧ ∃ k, h' = h ++ k).
Proof.
  revert h. induction p as [a|op k IH|]; intros h; simpl; [|intros [HR Hk]; split; [done|]|done].
  - intros HQ. split; [done|]. exists []. by rewrite (right_id_L [] (++)).
  - intros x. eapply spec_mono; [by apply IH, Hk|]. intros a h' (HQ & j & ->). split; [done|].
    exists ([Event op x] ++ j). by rewrite (assoc_L (++)).
Qed.

(** The loop with [?] keeps an invariant of the elements done. *)
Lemma spec_try_each {E A B : Type} R (f : A → prog (result E B)) (I : list A → list event → Prop) l h Q :
  I [] h →
  (∀ l1 x l2 h', l = l1 ++ x :: l2 → I l1 h' →
     spec R (f x) h' (λ r h'', match r with Ok _ => I (l1 ++ [x]) h'' | Err e => Q (Err e) h'' end)) →
  (∀ ys h', I l h' → Q (Ok ys) h') → spec R (ptry_each f l) h Q.
Proof.
  assert (Hgen : ∀ l2 l1 h Q, l = l1 ++ l2 → I l1 h →
    (∀ l1 x l2 h', l = l1 ++ x :: l2 → I l1 h' →
       spec R (f x) h' (λ r h'', match r with Ok _ => I (l1 ++ [x]) h'' | Err e => Q (Err e) h'' end)) →
    (∀ ys h', I l h' → Q (Ok ys) h') → spec R (ptry_each f l2) h Q).
  { clear. intros l2. induction l2 as [|x l2 IH]; intros l1 h Q Hl HI Hf HQ; simpl.
    - apply HQ. by rewrite Hl, (right_id_L [] (++)).
    - apply spec_try. eapply spec_mono; [by eapply Hf|]. intros [y|e] h1 H1; [|done].
      apply spec_try, (IH (l1 ++ [x])); [by rewrite <- (assoc_L (++))|done| |].
      + intros l1' x' l2' h' El HI'. eapply spec_mono; [by eapply Hf|]. by intros [z|e] h''.
      + intros ys h2 H2. apply spec_ret, HQ, H2. }
  intros H0 Hf HQ. by eapply (Hgen l []).
Qed.

(** A specification from one history serves from any other that allows as much. *)
Lemma spec_shift {A : Type} (R0 R : list event → Op → Prop) (p : prog A) h0 h (Q0 Q : A → list event → Prop) :
  spec R0 p h0 Q0 → (∀ h' op, R0 (h0 ++ h') op → R (h ++ h') op) → (∀ a h', Q0 a (h0 ++ h') → Q a (h ++ h')) →
  spec R p h Q.
Proof.
  revert h0 h. induction p as [a|op k IH|]; intros h0 h Hp HR HQ; simpl in *; [|split|done].
  - rewrite <- (right_id_L [] (++) h). apply HQ. by rewrite (right_id_L [] (++)).
  - rewrite <- (right_id_L [] (++) h). apply HR. rewrite (right_id_L [] (++)). apply Hp.
  - intros x. eapply (IH x (h0 ++ [Event op x])); [apply Hp|..]; intros ? h'; rewrite <- !(assoc_L (++)); eauto.
Qed.

(** ** Programs that only make certain calls *)

Fixpoint only {A : Type} (ok : Op → Prop) (p : prog A) : Prop :=
  match p with
  | Ret _ => True
  | Vis op k => ok op ∧ ∀ x, only ok (k x)
  | Spin => True
  end.

Lemma only_bind {A B : Type} ok (p : prog A) (k : A → prog B) :
  only ok p → (∀ a, only ok (k a)) → only ok (pbind p k).
Proof. intros Hp Hk. induction p as [a|op j IH|]; simpl in *; [done| |done]. split; [apply Hp|]. intros x. by apply IH, Hp. Qed.

Lemma only_try {E A B : Type} ok (p : prog (result E A)) (k : A → prog (result E B)) :
  only ok p → (∀ a, only ok (k a)) → only ok (ptry p k).
Proof. intros Hp Hk. apply only_bind; [done|]. by intros [a|e]. Qed.

Lemma only_map_err {E E' A : Type} ok (f : E → E') (p : prog (result E A)) : only ok p → only ok (pmap_err f p).
Proof. intros Hp. by apply only_bind. Qed.

Lemma only_for_each {A B : Type} ok (f : A → prog B) l : (∀ x, x ∈ l → only ok (f x)) → only ok (pfor_each f l).
Proof.
  induction l as [|x l IH]; intros Hf; simpl; [done|]. apply only_bind; [apply Hf; by left|]. intros y.
  apply only_bind; [|done]. apply IH. intros z Hz. apply Hf. by right.
Qed.

Lemma only_try_each {E A B : Type} ok (f : A → prog (result E B)) l : (∀ x, x ∈ l → only ok (f x)) → only ok (ptry_each f l).
Proof.
  induction l as [|x l IH]; intros Hf; simpl; [done|]. apply only_try; [apply Hf; by left|]. intros y.
  apply only_try; [|done]. apply IH. intros z Hz. apply Hf. by right.
Qed.

Lemma only_weaken {A : Type} (ok ok' : Op → Prop) (p : prog A) : only ok p → (∀ op, ok op → ok' op) → only ok' p.
Proof. intros Hp H. induction p as [a|op k IH|]; simpl in *; [done| |done]. split; [by apply H, Hp|]. intros x. by apply IH, Hp. Qed.

(** The calls of [h] are all of that kind. *)
Definition all_calls (ok : Op → Prop) (h : list event) : Prop := ∀ e, e ∈ h → ok (ev_op e).

Lemma all_calls_cons ok op x h : ok op → all_calls ok h → all_calls ok (Event op x :: h).
Proof. intros Hop Hh e [->|He]%elem_of_cons; [done|by apply Hh]. Qed.

(** Such a program is followed to its result, which it returned after those calls. *)
Lemma only_traced {A : Type} ok R (p : prog A) h (Q : A → list event → Prop) :
  only ok p → (∀ h' op, all_calls ok h' → ok op → R (h ++ h') op) →
  (∀ a h', all_calls ok h' → run p h' (Some a) → Q a (h ++ h')) → spec R p h Q.
Proof.
  intros Hp HR HQ. revert h HR HQ. induction p as [a|op k IH|]; intros h HR HQ; simpl in *; [|split|done].
  - rewrite <- (right_id_L [] (++) h). apply HQ; [by intros e ?%elem_of_nil|auto].
  - rewrite <- (right_id_L [] (++) h). apply HR; [by intros e ?%elem_of_nil|apply Hp].
  - intros x. apply IH; [apply Hp| |].
    + intros h' op' Hh'. rewrite <- (assoc_L (++)). apply HR. by apply all_calls_cons; [apply Hp|].
    + intros a h' Hh' Hrun. rewrite <- (assoc_L (++)). apply HQ; [by apply all_calls_cons; [apply Hp|]|].
      right. eauto.
Qed.

Lemma only_spec {A : Type} ok R (p : prog A) h (Q : A → list event → Prop) :
  only ok p → (∀ h' op, all_calls ok h' → ok op → R (h ++ h') op) →
  (∀ a h', all_calls ok h' → Q a (h ++ h')) → spec R p h Q.
Proof. intros Hp HR HQ. eapply only_traced; eauto. Qed.

(** A specification, and the kind of the calls made meanwhile. *)
Lemma spec_only {A : Type} ok R (p : prog A) h (Q : A → list event → Prop) :
  only ok p → spec R p h Q → spec R p h (λ a h', Q a h' ∧ ∃ k, h' = h ++ k ∧ all_calls ok k).
Proof.
  revert h. induction p as [a|op k IH|]; intros h Ho Hp; simpl in *; [|split; [apply Hp|]|done].
  - split; [done|]. exists []. split; [by rewrite (right_id_L [] (++))|by intros e ?%elem_of_nil].
  - intros x. eapply spec_mono; [apply IH; [apply Ho|apply Hp]|]. intros a h' (HQ & j & -> & Hj). split; [done|].
    exists ([Event op x] ++ j). split; [by rewrite (assoc_L (++))|].
    intros e [->%list_elem_of_singleton|He]%elem_of_app; [apply Ho|by apply Hj].
Qed.

(** A specification used where more is allowed: the kind of its calls helps. *)
Lemma spec_refine {A : Type} ok (R0 R : list event → Op → Prop) (p : prog A) h (Q : A → list event → Prop) :
  only ok p → spec R0 p h Q → (∀ k op, all_calls ok k → ok op → R0 (h ++ k) op → R (h ++ k) op) →
  spec R p h (λ a h', Q a h' ∧ ∃ k, h' = h ++ k ∧ all_calls ok k).
Proof.
  revert h. induction p as [a|op k IH|]; intros h Ho Hp HR; simpl in *; [|split|done].
  - split; [done|]. exists []. split; [by rewrite (right_id_L [] (++))|by intros e ?%elem_of_nil].
  - rewrite <- (right_id_L [] (++) h). apply HR; [by intros e ?%elem_of_nil|apply Ho|].
    rewrite (right_id_L [] (++)). apply Hp.
  - intros x. eapply spec_mono; [apply IH; [apply Ho|apply Hp|]|].
    + intros j op' Hj Hop'. rewrite <- (assoc_L (++)). apply HR; [|done]. by apply all_calls_cons; [apply Ho|].
    + intros a h' (HQ & j & -> & Hj). split; [done|]. exists ([Event op x] ++ j). rewrite (assoc_L (++)).
      split; [done|]. by apply all_calls_cons; [apply Ho|].
Qed.

(** In the history the call was answered with [P]. *)
Definition answered (h : list event) (op : Op) (P : Ans op → Prop) : Prop := ∃ x, Event op x ∈ h ∧ P x.

Lemma answered_snoc h op x (P : Ans op → Prop) : P x → answered (h ++ [Event op x]) op P.
Proof. intros HP. exists x. split; [|done]. apply elem_of_app. right. by apply list_elem_of_singleton. Qed.

Lemma answered_l h h' op (P : Ans op → Prop) : answered h op P → answered (h ++ h') op P.
Proof. intros (x & Hx & HP). exists x. split; [|done]. apply elem_of_app. by left. Qed.

Lemma answered_r h h' op (P : Ans op → Prop) : answered h' op P → answered (h ++ h') op P.
Proof. intros (x & Hx & HP). exists x. split; [|done]. apply elem_of_app. by right. Qed.

(** Facts that stay true as the history grows. *)
Class Monotone (P : list event → Prop) := monotone : ∀ h k, P h → P (h ++ k).

#[global] Instance monotone_answered op P : Monotone (λ h, answered h op P).
Proof. intros h k. apply answered_l. Qed.
#[global] Instance monotone_const (P : Prop) : Monotone (λ _, P).
Proof. by intros h k. Qed.
#[global] Instance monotone_and P Q : Monotone P → Monotone Q → Monotone (λ h, P h ∧ Q h).
Proof. intros HP HQ h k [? ?]. split; by apply monotone. Qed.
#[global] Instance monotone_or P Q : Monotone P → Monotone Q → Monotone (λ h, P h ∨ Q h).
Proof. intros HP HQ h k [?|?]; [left|right]; by apply monotone. Qed.
#[global] Instance monotone_impl (P : Prop) Q : (P → Monotone Q) → Monotone (λ h, P → Q h).
Proof. intros HQ h k H HP. by apply HQ, H. Qed.
#[global] Instance monotone_forall {A : Type} (P : A → list event → Prop) :
  (∀ x, Monotone (P x)) → Monotone (λ h, ∀ x, P x h).
Proof. intros HP h k H x. by apply HP. Qed.
#[global] Instance monotone_exists {A : Type} (P : A → list event → Prop) :
  (∀ x, Monotone (P x)) → Monotone (λ h, ∃ x, P x h).
Proof. intros HP h k [x Hx]. exists x. by apply HP. Qed.

(** Two facts of one run: what is specified, and what was true before. *)
Lemma spec_keep {A : Type} R (p : prog A) h (P : list event → Prop) `{!Monotone P} (Q : A → list event → Prop) :
  P h → spec R p h Q → spec R p h (λ a h', P h' ∧ Q a h').
Proof.
  intros HP Hp. eapply spec_mono; [by apply spec_extends, Hp|]. intros a h' (HQ & k & ->). split; [by apply monotone|done].
Qed.

(** More may be allowed. *)
Lemma spec_weaken {A : Type} (R R' : list event → Op → Prop) (p : prog A) h Q :
  spec R p h Q → (∀ h op, R h op → R' h op) → spec R' p h Q.
Proof. intros Hp HR. by eapply (spec_shift R R' p h h); [exact Hp|auto|]. Qed.

(** What is true at the start and stays true with every allowed call is true at
    every call. *)
Lemma spec_invariant {A : Type} (R : list event → Op → Prop) (I : list event → Prop) (p : prog A) h Q :
  spec R p h Q → I h → (∀ h op x, R h op → I h → I (h ++ [Event op x])) →
  spec (λ h op, R h op ∧ I h) p h (λ a h', Q a h' ∧ I h').
Proof.
  intros Hp HI HR. revert h Hp HI. induction p as [a|op k IH|]; intros h Hp HI; simpl in *; [done| |done].
  destruct Hp as [HRop Hp]. split; [done|]. intros x. apply IH; [done|]. by apply HR.
Qed.

(** A step with [?]: what it leaves when it went well, and when it did not. *)
Lemma spec_step {E A B : Type} R (p : prog (result E A)) (k : A → prog (result E B)) h P Q :
  spec R p h (λ r h', match r with Ok a => P a h' | Err e => Q (Err e) h' end) →
  (∀ a h', P a h' → spec R (k a) h' Q) → spec R (ptry p k) h Q.
Proof.
  intros Hp Hk. apply spec_try. eapply spec_mono; [exact Hp|]. intros [a|e] h' H; [by apply Hk|done].
Qed.

Lemma spec_ok {E A B : Type} R (a : A) (k : A → prog (result E B)) h Q :
  spec R (k a) h Q → spec R (ptry (Ret (Ok a)) k) h Q.
Proof. done. Qed.

(** What holds where a step went well. *)
Definition went_well {E A : Type} (P : A → list event → Prop) (r : result E A) (h : list event) : Prop :=
  ∀ a, r = Ok a → P a h.

Lemma spec_then {E A B : Type} R (p : prog (result E A)) (k : A → prog (result E B)) h P Q :
  spec R p h (went_well P) → (∀ a h', P a h' → spec R (k a) h' (went_well Q)) → spec R (ptry p k) h (went_well Q).
Proof.
  intros Hp Hk. apply spec_try. eapply spec_mono; [exact Hp|]. intros [a|e] h' H; [by apply Hk, H|by intros a ?].
Qed.

Lemma spec_well_err {E E' A : Type} R (f : E → E') (p : prog (result E A)) h P :
  spec R p h (went_well P) → spec R (pmap_err f p) h (went_well P).
Proof.
  intros Hp. apply spec_map_err. eapply spec_mono; [exact Hp|]. intros [a|e] h' H a' [= <-]. by apply H.
Qed.

(** A part of a kind that is always allowed keeps a fact. *)
Lemma spec_kind {A : Type} (ok : Op → Prop) R (p : prog A) h (P : list event → Prop) `{!Monotone P} :
  (∀ h op, ok op → R h op) → only ok p → P h → spec R p h (λ _ h', P h').
Proof. intros HR Hp HP. eapply only_spec; [exact Hp|auto|]. intros a k _. by apply monotone. Qed.

(** What every result of a loop satisfies. *)
Lemma spec_try_each_all {E A B : Type} R (f : A → prog (result E B)) (I : list event → Prop) (P : B → list event → Prop)
    `{!∀ b, Monotone (P b)} l h :
  I h →
  (∀ x h', x ∈ l → I h' → spec R (f x) h' (λ r h'', I h'' ∧ ∀ b, r = Ok b → P b h'')) →
  spec R (ptry_each f l) h (λ r h', I h' ∧ ∀ bs b, r = Ok bs → b ∈ bs → P b h').
Proof.
  revert h. induction l as [|x l IH]; intros h HI Hf; simpl.
  - split; [done|]. by intros bs b [= <-] ?%elem_of_nil.
  - apply spec_try. eapply spec_mono; [apply Hf; [by left|done]|]. intros [y|e] h1 [HI1 Hy]; [|done].
    apply spec_try. eapply spec_mono; [apply (spec_extends _ _ _ _ (IH h1 HI1 (λ z h' Hz, Hf z h' (list_elem_of_further z x l Hz))))|].
    intros [ys|e] h2 [[HI2 Hys] (k & ->)]; [|done]. simpl. split; [done|]. intros bs b [= <-] [->|Hb]%elem_of_cons; [|by eapply Hys].
    apply monotone. by apply Hy.
Qed.

Lemma spec_for_each_all {A B : Type} R (f : A → prog B) (I : list event → Prop) (P : B → list event → Prop)
    `{!∀ b, Monotone (P b)} l h :
  I h →
  (∀ x h', x ∈ l → I h' → spec R (f x) h' (λ b h'', I h'' ∧ P b h'')) →
  spec R (pfor_each f l) h (λ bs h', I h' ∧ ∀ b, b ∈ bs → P b h').
Proof.
  revert h. induction l as [|x l IH]; intros h HI Hf; simpl.
  - split; [done|]. by intros b ?%elem_of_nil.
  - apply spec_bind. eapply spec_mono; [apply Hf; [by left|done]|]. intros y h1 [HI1 Hy].
    apply spec_bind. eapply spec_mono; [apply (spec_extends _ _ _ _ (IH h1 HI1 (λ z h' Hz, Hf z h' (list_elem_of_further z x l Hz))))|].
    intros ys h2 [[HI2 Hys] (k & ->)]. simpl. split; [done|]. intros b [->|Hb]%elem_of_cons; [|by apply Hys].
    by apply monotone.
Qed.

Lemma answered_snoc_inv h op op' x (P : Ans op → Prop) :
  answered (h ++ [Event op' x]) op P → answered h op P ∨ ∃ y, Event op y = Event op' x ∧ P y.
Proof.
  intros (y & [Hy|Hy%list_elem_of_singleton]%elem_of_app & HP); [left; by exists y|right; eauto].
Qed.

Lemma guarded_nil R : guarded R [].
Proof. intros h e h' H. by destruct h. Qed.

Lemma guarded_snoc R tr e : guarded R (tr ++ [e]) ↔ guarded R tr ∧ R tr (ev_op e).
Proof.
  split.
  - intros H. split.
    + intros h e' h' ->. apply (H h e' (h' ++ [e])). by rewrite <- (assoc_L (++)).
    + by apply (H tr e []).
  - intros [H HR] h e' h'. destruct h' as [|e'' h' _] using rev_ind.
    + intros [-> [= ->]]%app_inj_tail. done.
    + rewrite app_comm_cons, (assoc_L (++)). intros [-> _]%app_inj_tail. by apply (H h e' h').
Qed.

Lemma spec_guarded {A : Type} R (p : prog A) h Q tr o :
  spec R p h Q → guarded R h → run p tr o →
  guarded R (h ++ tr) ∧ ∀ a, o = Some a → Q a (h ++ tr).
Proof.
  revert h tr. induction p as [a|op k IH|]; intros h tr; simpl.
  - intros HQ Hh [-> Ho]. rewrite (right_id_L [] (++)). split; [done|]. intros a' ->.
    destruct Ho as [|[= ->]]; done.
  - intros [HR Hk] Hh [[-> ->]|(x & tr' & -> & Hrun)]; [by rewrite (right_id_L [] (++))|].
    destruct (IH x (h ++ [Event op x]) tr') as [H1 H2]; [done|by apply guarded_snoc|done|].
    by rewrite <- !(assoc_L (++)) in H1, H2.
  - intros _ Hh [-> ->]. by rewrite (right_id_L [] (++)).
Qed.

(** The way a trace property of a whole program is proved. *)
Lemma spec_run {A : Type} R (p : prog A) Q tr o :
  spec R p [] Q → run p tr o → guarded R tr ∧ ∀ a, o = Some a → Q a tr.
Proof. intros Hp. apply (spec_guarded R p [] Q tr o Hp), guarded_nil. Qed.

(** [exec] is one of the runs. *)
Lemma exec_run {A : Type} host (p : prog A) h :
  let '(o, h') := exec host p h in ∃ tr, h' = h ++ tr ∧ run p tr o.
Proof.
  revert h. induction p as [a|op k IH|]; intros h; simpl.
  - exists []. rewrite (right_id_L [] (++)). auto.
  - specialize (IH (host h op) (h ++ [Event op (host h op)])).
    destruct (exec host _ _) as [o h']. destruct IH as (tr & -> & Hrun).
    exists (Event op (host h op) :: tr). rewrite <- (assoc_L (++)). split; [done|]. right. eauto.
  - exists []. by rewrite (right_id_L [] (++)).
Qed.

Lemma exec_run_nil {A : Type} host (p : prog A) :
  run p (snd (exec host p [])) (fst (exec host p [])).
Proof. pose proof (exec_run host p []) as H. destruct (exec host p []) as [o h]. by destruct H as (tr & -> & ?). Qed.

Lemma exec_bind {A B : Type} host (p : prog A) (k : A → prog B) h :
  exec host (pbind p k) h =
  match exec host p h with (Some a, h') => exec host (k a) h' | (None, h') => (None, h') end.
Proof. revert h. induction p as [a|op j IH|]; intros h; simpl; [done|apply IH|done]. Qed.

(** ** Programs in the world of files *)

Fixpoint interp {A : Type} (host : ∀ op, io infallible (Ans op)) (p : prog A) : io infallible A :=
  match p with
  | Ret a => ret a
  | Vis op k => bind (host op) (λ x, interp host (k x))
  | Spin => λ w, (Crashed, w)
  end.

End prog.

Arguments prog {Op} Ans A.
Arguments event {Op} Ans.

Notation "'let*' x ':=' p 'in' k" := (pbind p (λ x, k))
  (at level 10, x pattern, p at level 100, k at level 200) : rooms_scope.
Notation "'do*' p 'in' k" := (pbind p (λ _, k))
  (at level 10, p at level 100, k at level 200) : rooms_scope.
Notation "'try*' x ':=' p 'in' k" := (ptry p (λ x, k))
  (at level 10, x pattern, p at level 100, k at level 200) : rooms_scope.

#[export] Hint Resolve answered_snoc answered_l answered_r : rooms.

(** ** One set of calls among another *)

Section translate.
  Context {Op1 : Type} {Ans1 : Op1 → Type} {Op2 : Type} {Ans2 : Op2 → Type}.

(** Each call carried out by a program over the other calls. *)
Fixpoint translate {A : Type} (f : ∀ op : Op1, prog Ans2 (Ans1 op)) (p : prog Ans1 A) : prog Ans2 A :=
  match p with
  | Ret a => Ret a
  | Vis op k => pbind (f op) (λ x, translate f (k x))
  | Spin => Spin
  end.

Lemma only_translate {A : Type} (ok1 : Op1 → Prop) (ok2 : Op2 → Prop) f (p : prog Ans1 A) :
  only ok1 p → (∀ op, ok1 op → only ok2 (f op)) → only ok2 (translate f p).
Proof.
  intros Hp Hf. induction p as [a|op k IH|]; simpl in *; [done| |done].
  apply only_bind; [apply Hf, Hp|]. intros x. by apply IH, Hp.
Qed.

End translate.

Lemma only_any {Op : Type} {Ans : Op → Type} {A : Type} (p : prog Ans A) : only (λ _, True) p.
Proof. induction p; simpl; auto. Qed.

Create HintDb only discriminated.
#[export] Hint Resolve only_for_each only_try_each : only.

(** Walk a program that makes no loop of its own: every call is of the kind. *)
Ltac only_walk :=
  repeat (cbv beta; match goal with
  | |- only _ (pbind _ _) => apply only_bind; [|intros ?]
  | |- only _ (ptry _ _) => apply only_try; [|intros ?]
  | |- only _ (pmap_err _ _) => apply only_map_err
  | |- only _ (Ret _) => exact I
  | |- only _ Spin => exact I
  | |- only _ (call _) => split; [done|intros ?; exact I]
  | |- only _ (match ?x with _ => _ end) => destruct x
  | |- only _ (if ?x then _ else _) => destruct x
  | |- only _ (let _ := _ in _) => cbv zeta
  | |- _ => solve [auto with only nocore]
  end).

(** Walk a specification down the structure of the program, to a call or to a
    subprogram. *)
Ltac spec_down :=
  repeat (cbv beta; match goal with
  | |- spec _ (pbind _ _) _ _ => apply spec_bind
  | |- spec _ (ptry _ _) _ _ => apply spec_try
  | |- spec _ (pmap_err _ _) _ _ => apply spec_map_err
  | |- spec _ (Ret _) _ _ => apply spec_ret
  end); cbv beta.

(** One call: it is allowed, and then its answer [x]. *)
Tactic Notation "spec_call" "as" simple_intropattern(x) :=
  spec_down; match goal with |- spec ?R (call ?op) ?h ?Q => refine (spec_call R op h Q _ _) end;
  [|intros x; cbv beta; spec_down].

(** One call, going no further down than its answer. *)
Tactic Notation "ask" "as" simple_intropattern(x) :=
  apply spec_bind; match goal with |- spec ?R (call ?op) ?h ?Q => refine (spec_call R op h Q _ _) end;
  [|intros x; cbv beta].
