(* ===== verification/Returns.v ===== *)
(** * Returns: what a program can return

    A fact of every value a program may return, whatever its calls answer, and
    the calls every run of it is made of. *)

From S2P Require Import Prelude Prog.
From stdpp Require Import options.

Fixpoint returns {Op : Type} {Ans : Op → Type} {A : Type} (P : A → Prop) (p : prog Ans A) : Prop :=
  match p with
  | Ret a => P a
  | Vis op k => ∀ x, returns P (k x)
  | Spin => True
  end.

Section returns.
  Context {Op : Type} {Ans : Op → Type} {A : Type}.

Lemma returns_mono (P Q : A → Prop) (p : prog Ans A) : returns P p → (∀ a, P a → Q a) → returns Q p.
Proof. intros Hp H. induction p as [a|op k IH|]; simpl in *; auto. Qed.

Lemma returns_bind {B : Type} (P : A → Prop) (Q : B → Prop) (p : prog Ans A) (k : A → prog Ans B) :
  returns P p → (∀ a, P a → returns Q (k a)) → returns Q (pbind p k).
Proof. intros Hp Hk. induction p as [a|op j IH|]; simpl in *; auto. Qed.

Lemma returns_any (p : prog Ans A) : returns (λ _, True) p.
Proof. induction p; simpl; auto. Qed.

Lemma returns_all (P : A → Prop) (p : prog Ans A) : (∀ a, P a) → returns P p.
Proof. intros H. eapply returns_mono; [apply returns_any|auto]. Qed.

Lemma returns_run (P : A → Prop) (p : prog Ans A) tr a : returns P p → run p tr (Some a) → P a.
Proof.
  revert tr. induction p as [b|op k IH|]; intros tr Hp; simpl in *.
  - by intros [_ [|[= <-]]].
  - intros [[_ ?]|(x & tr' & _ & Hr)]; [done|]. by eapply IH.
  - by intros [_ ?].
Qed.

(** A specification, and what every run returns. *)
Lemma spec_returns (P : A → Prop) R (p : prog Ans A) h Q :
  returns P p → spec R p h Q → spec R p h (λ a h', P a ∧ Q a h').
Proof.
  revert h. induction p as [a|op k IH|]; intros h Hp Hs; simpl in *; [done| |done].
  split; [apply Hs|]. intros x. apply IH; [apply Hp|apply Hs].
Qed.

End returns.

Lemma returns_translate {Op1 Op2 : Type} {Ans1 : Op1 → Type} {Ans2 : Op2 → Type} {A : Type} (P : A → Prop)
    (f : ∀ op, prog Ans2 (Ans1 op)) (p : prog Ans1 A) : returns P p → returns P (translate f p).
Proof.
  intros Hp. induction p as [a|op k IH|]; simpl in *; [done| |done].
  eapply returns_bind; [apply returns_any|]. intros x _. by apply IH.
Qed.

Section returns_try.
  Context {Op : Type} {Ans : Op → Type} {E A B : Type}.

Lemma returns_try (Q : result E B → Prop) (p : prog Ans (result E A)) (k : A → prog Ans (result E B)) :
  (∀ e, Q (Err e)) → (∀ a, returns Q (k a)) → returns Q (ptry p k).
Proof. intros He Hk. eapply returns_bind; [apply returns_any|]. intros [a|e] _; [apply Hk|apply He]. Qed.

(** With what the first program is known to return. *)
Lemma returns_then (P : A → Prop) (Q : result E B → Prop) (p : prog Ans (result E A)) (k : A → prog Ans (result E B)) :
  returns (λ r, ∀ a, r = Ok a → P a) p → (∀ e, Q (Err e)) → (∀ a, P a → returns Q (k a)) → returns Q (ptry p k).
Proof. intros Hp He Hk. eapply returns_bind; [exact Hp|]. intros [a|e] Ha; [by apply Hk, Ha|apply He]. Qed.
End returns_try.

(** The calls of a program are the calls it is specified to make. *)
Lemma spec_only_ops {Op : Type} {Ans : Op → Type} {A : Type} (R : list (event Ans) → Op → Prop) (ok : Op → Prop)
    (p : prog Ans A) h Q : spec R p h Q → (∀ h op, R h op → ok op) → only ok p.
Proof.
  intros Hp HR. revert h Hp. induction p as [a|op k IH|]; intros h Hp; cbn [spec only] in *; [done| |done].
  destruct Hp as [Hop Hk]. split; [by eapply HR|]. intros x. by eapply IH, Hk.
Qed.

Lemma only_all_calls {Op : Type} {Ans : Op → Type} {A : Type} (ok : Op → Prop) (p : prog Ans A) tr o :
  only ok p → run p tr o → all_calls ok tr.
Proof.
  revert tr. induction p as [a|op k IH|]; intros tr Hp Hr; simpl in *.
  - destruct Hr as [-> _]. by intros e ?%elem_of_nil.
  - destruct Hr as [[-> _]|(x & tr' & -> & Hr)]; [by intros e ?%elem_of_nil|].
    destruct Hp as [Hop Hk]. apply all_calls_cons; [done|]. by apply (IH x).
  - destruct Hr as [-> _]. by intros e ?%elem_of_nil.
Qed.
