(* ===== verification/Config.v ===== *)
(** * Config: timeouts and paths ([config.rs])

    The state base and the paths under it, and the pool ceiling of one
    invocation.  Durations are milliseconds; [home] is the [HOME] variable. *)

From S2P Require Import Prelude RStr Cidr Fs Room IndexedClaim Slot CloneRoutes.
From stdpp Require Import options.

(** ** Joining paths *)

Definition component_name (c : component) : option string :=
  match c with
  | Normal name => Some name
  | ParentDir => Some ".."
  | RootDir | CurDir => None
  end.

(** [Path::join]: an absolute argument replaces the path. *)
Definition path_join (p : path) (s : string) : path :=
  match components s with
  | RootDir :: cs => omap component_name cs
  | cs => p ++ omap component_name cs
  end.

(** [Path::parent] of an absolute path. *)
Definition parent (p : path) : option path :=
  match p with [] => None | _ => Some (removelast p) end.

(** [Path::starts_with]. *)
Definition path_starts_with (p q : path) : bool := bool_decide (q `prefix_of` p).

(** [registry::is_valid_room_id]. *)
Definition is_valid_room_id (id : string) : bool :=
  (len id =? 26)%nat && all_bytes (λ b, is_ascii_digit b || is_ascii_lowercase b) id.

(** A text that is one plain component. *)
Definition plain_name (s : string) : Prop := lacks "/" s = true ∧ s ∉ [""; "."; ".."].

Lemma plain_name_components s : plain_name s → components s = [Normal s].
Proof.
  intros [Hsl Hs]. unfold components. destruct s as [|a s]; [set_solver|]. cbn [is_empty].
  rewrite split_byte_lacks by done.
  assert (E : piece (String a s) = Some (Normal (String a s))).
  { unfold piece. assert (H : ∀ x, x ∈ [""; "."; ".."] → (String a s =? x)%string = false).
    { intros x Hx. apply String.eqb_neq. intros <-. done. }
    by rewrite !H by set_solver. }
  assert (Eo : omap piece [String a s] = [Normal (String a s)]) by (rewrite omap_cons_eq, E; done).
  destruct a as [[] [] [] [] [] [] [] []]; try exact Eo. destruct s; [set_solver|exact Eo].
Qed.

Lemma path_join_plain p s : plain_name s → path_join p s = pjoin p s.
Proof. intros H. unfold path_join. by rewrite plain_name_components. Qed.

Lemma valid_id_lacks id c :
  is_valid_room_id id = true → is_ascii_digit c || is_ascii_lowercase c = false → lacks c id = true.
Proof.
  intros [_ Hb]%andb_true_iff Hc. eapply all_bytes_impl; [|exact Hb]. intros a Ha.
  destruct (Ascii.eqb_spec a c) as [->|]; [congruence|done].
Qed.

Lemma valid_id_plain id : is_valid_room_id id = true → plain_name id.
Proof.
  intros H. split; [by apply valid_id_lacks|]. pose proof H as [Hlen _]%andb_true_iff.
  intros Hin. set_unfold. naive_solver.
Qed.

Lemma path_join_id p id : is_valid_room_id id = true → path_join p id = pjoin p id.
Proof. intros H. by apply path_join_plain, valid_id_plain. Qed.

(** ** The configuration *)

Record RoomsConfig := {
  api_timeout : N;
  instance_start_timeout : N;
  api_socket_timeout : N;
  guest_reach_timeout : N;
  guest_reach_poll_interval : N;
  base_provisioning_timeout : N;
  cleanup_grace : N;
  firecracker_binary : string;
  jailer_binary : string;
  jailer_chroot_base : option path;
  state_base : option path;
  min_firecracker_version : N * N;
  min_rootfs_bytes : N;
  max_pool : N
}.

Definition RoomsConfig_default : RoomsConfig :=
  {| api_timeout := 30 * 1000;
     instance_start_timeout := 60 * 1000;
     api_socket_timeout := 30 * 1000;
     guest_reach_timeout := 120 * 1000;
     guest_reach_poll_interval := 2 * 1000;
     base_provisioning_timeout := 30 * 60 * 1000;
     cleanup_grace := 5 * 1000;
     firecracker_binary := "firecracker";
     jailer_binary := "jailer";
     jailer_chroot_base := None;
     state_base := None;
     min_firecracker_version := (1, 7)%N;
     min_rootfs_bytes := 64 * 1024 * 1024;
     max_pool := DEFAULT_MAX_POOL |}.

Definition SNAPSHOT_INTENTS_DIR : string := "snapshot-intents".
Definition RESTORE_INTENTS_DIR : string := "restore-intents".
Definition SNAPSHOTS_DIR : string := "snapshots".
Definition SNAPSHOT_ATTESTATIONS_DIR : string := "snapshot-attestations".

Section config.
  Variable home : option path.
  Variable config : RoomsConfig.

Definition resolved_state_base : option path :=
  match state_base config with
  | Some base => Some base
  | None => (λ home, path_join home ".local/state/rooms") <$> home
  end.

Definition room_dir (id : string) : option path := (λ base, path_join base id) <$> resolved_state_base.

Definition slots_dir : option path := (λ base, path_join base SLOTS_DIR) <$> resolved_state_base.

Definition snapshot_intents_dir : option path :=
  (λ base, path_join base SNAPSHOT_INTENTS_DIR) <$> resolved_state_base.

Definition restore_intents_dir : option path :=
  (λ base, path_join base RESTORE_INTENTS_DIR) <$> resolved_state_base.

Definition snapshot_attestations_dir : option path :=
  (λ base, path_join base SNAPSHOT_ATTESTATIONS_DIR) <$> resolved_state_base.

Definition snapshots_dir : option path := (λ base, path_join base SNAPSHOTS_DIR) <$> resolved_state_base.

Definition effective_max_pool (flag : option N) : N :=
  N.min (N.min (default (max_pool config) flag) (max_pool config)) MAX_SLOT.

Definition chroot_base : option path :=
  match jailer_chroot_base config with
  | Some base => Some base
  | None => (λ base, path_join base "jailer") <$> resolved_state_base
  end.

Definition jail_instance_dir (id : string) : option path :=
  (λ base, path_join (path_join base "firecracker") id) <$> chroot_base.

Definition jail_root_dir (id : string) : option path :=
  (λ dir, path_join dir "root") <$> jail_instance_dir id.

Definition jail_socket (id : string) : option path :=
  (λ root, path_join root "api.sock") <$> jail_root_dir id.

Definition timeout_for_endpoint (endpoint : string) : N :=
  if (endpoint =? "/actions")%string then instance_start_timeout config else api_timeout config.

End config.

(** ** Which slots a claim hands out *)

Section claimed_index.
  Context {E : Type} (from_io : io_error → E) (select : N → io E ClaimDecision).

Lemma claim_walk_index dir owner me cap l w k w' :
  claim_walk from_io select dir owner me cap l w = (Done (Ok (Claimed k)), w') → k ∈ l.
Proof.
  revert w. induction l as [|i l IH]; intros w; simpl; [done|].
  intros (won & w1 & _ & H)%bind_done. destruct won; [by injection H as -> _; left|right; eauto].
Qed.

Lemma claim_with_index spec w k w' :
  claim_with from_io select spec w = (Done (Ok (Claimed k)), w') →
  valid_index (spec_pool spec) k = true ∧ (spec_target spec = None → k ≤ spec_cap spec)%N.
Proof.
  unfold claim_with. destruct (negb (is_id_shaped _)); [done|]. destruct (spec_target spec) as [i|].
  - destruct (valid_index (spec_pool spec) i) eqn:Hi; simpl; [|done].
    intros (? & w1 & _ & H)%bind_done. apply bind_done in H as (? & w2 & _ & H).
    unfold claim_target in H. apply bind_done in H as (won & w3 & _ & H). destruct won; [|done].
    injection H as <- _. done.
  - intros (? & w1 & _ & H)%bind_done. apply bind_done in H as (? & w2 & _ & H).
    apply claim_walk_index, index_range_elem in H. unfold valid_index. split; [|lia].
    apply andb_true_iff. split; [apply N.ltb_lt|apply N.leb_le]; lia.
Qed.

End claimed_index.

Lemma slot_claim_index state room me cap target w slot w' :
  slot_claim state room me cap target w = (Done (Ok slot), w') →
  ∃ i, slot = derive i ∧ (1 ≤ i ≤ MAX_SLOT)%N ∧ (target = None → i ≤ cap)%N.
Proof.
  intros (o & w1 & H & H2)%bind_done. apply lift_err_done in H. destruct o; try done.
  injection H2 as <- _. apply claim_with_index in H as [Hv Hc]. exists index. split; [done|]. split; [|done].
  unfold valid_index in Hv. boolify. simpl in *. lia.
Qed.

(** The network of slot [i]. *)
Definition slot_network (i : N) : N := (ipv4 172 16 0 0 + 4 * i)%N.

(** Whatever the flag and the host's ceiling, a granted slot stays within
    the addressing plan: its index is between 1 and 63, and without a target at
    most the flag and the host's ceiling; its [u8] arithmetic does not wrap, so its
    gateway and guest are the two host addresses of its own /30 of
    172.16.0.0/24; and that /30 shares no address with another slot's. *)
Theorem pool_addresses config flag state room me target w slot w' :
  slot_claim state room me (effective_max_pool config flag) target w = (Done (Ok slot), w') →
  ∃ i, slot_index slot = i ∧ (1 ≤ i ≤ MAX_SLOT)%N ∧
    (target = None → i ≤ max_pool config ∧ ∀ f, flag = Some f → i ≤ f)%N ∧
    slot_gateway slot = (slot_network i + 1)%N ∧ slot_guest slot = (slot_network i + 2)%N ∧
    (slot_guest slot ≤ ipv4 172 16 0 254)%N ∧ slot_prefix slot = 30%N ∧
    (∀ ip, in_cidr (slot_network i) 30 ip ↔ (slot_network i ≤ ip ≤ slot_network i + 3)%N) ∧
    ∀ j ip, (1 ≤ j ≤ MAX_SLOT)%N → j ≠ i → in_cidr (slot_network i) 30 ip → ¬ in_cidr (slot_network j) 30 ip.
Proof.
  intros (i & -> & Hi & Hcap)%slot_claim_index. unfold MAX_SLOT in *. exists i.
  assert (Hnet : ∀ j, (1 ≤ j ≤ 63)%N → ∀ ip, in_cidr (slot_network j) 30 ip ↔ (slot_network j ≤ ip ≤ slot_network j + 3)%N).
  { intros j Hj ip. rewrite in_cidr_interval; [done|]. split; [done|]. exists (slot_network j).
    unfold slot_network, ipv4, u32_max. split; [lia|]. rewrite land_mask by (unfold u32_max; lia).
    change (2 ^ (32 - 30))%N with 4%N. replace (172 * 16777216 + 16 * 65536 + 0 * 256 + 0 + 4 * j)%N
      with ((721682432 + j) * 4)%N by lia. by rewrite N.div_mul. }
  assert (Hw : ((4 * i) mod 256 = 4 * i)%N) by (apply N.mod_small; lia).
  unfold derive. rewrite Hw. simpl. rewrite !N.mod_small by lia. unfold slot_network in *. unfold ipv4 in *.
  splits; try lia; try done.
  - intros Ht. specialize (Hcap Ht). unfold effective_max_pool in Hcap. split; [lia|]. intros f ->. simpl in Hcap. lia.
  - intros ip. by apply Hnet.
  - intros j ip Hj Hne. rewrite !Hnet by lia. lia.
Qed.

Lemma pool_addresses_witness :
  let me := {| claimer_pid := 7; claimer_starttime := 9 |} in
  let room := "01hzzzzzzzzzzzzzzzzzzzzzzz" in
  let r := slot_claim ["s"] room me (effective_max_pool RoomsConfig_default (Some 3%N)) None
             (World {[ ["s"] := Dir ]} []) in
  fst r = Done (Ok (derive 1)) ∧ ∃ i, slot_index (derive 1) = i ∧ (i ≤ 3)%N.
Proof.
  intros me room r. assert (E : r = (Done (Ok (derive 1)), snd r)) by (vm_compute; reflexivity).
  split; [by rewrite E|].
  destruct (pool_addresses RoomsConfig_default (Some 3%N) ["s"] room me None _ _ _ E)
    as (i & Hi & _ & Hb & _).
  exists i. split; [done|]. by apply (Hb eq_refl).
Defined.
