(* ===== verification/Snapshot.v ===== *)
(** * Snapshot: what a snapshot is and when one may be taken or restored
    ([snapshot.rs], [restore.rs])

    The policies: the plan of a snapshot of a base, its metadata, and the plan
    of a restore on a host.  The drivers are [SnapshotExec] and [RestoreExec]. *)

From S2P Require Import Prelude RStr Fs Room Config.
From stdpp Require Import options.

Definition SNAPSHOT_SCHEMA_VERSION : N := 1.
Definition TOOLSTORE_SNAPSHOT_SCHEMA_VERSION : N := 2.
Definition SNAPSHOT_META_FILE : string := "snapshot.json".
Definition SNAPSHOT_VMSTATE_FILE : string := "snapshot.vmstate".
Definition SNAPSHOT_MEM_FILE : string := "snapshot.mem".

Record ImmutableFileIdentity := {
  fi_device : N;
  fi_inode : N;
  fi_len : N;
  fi_mode : N;
  fi_mtime : Z;
  fi_mtime_nsec : Z;
  fi_ctime : Z;
  fi_ctime_nsec : Z
}.

#[export] Instance ImmutableFileIdentity_eq_dec : EqDecision ImmutableFileIdentity.
Proof. solve_decision. Defined.

Inductive SnapshotError :=
| NotNeutral (found : option Provenance)
| ActiveVsock
| MissingSlot.

Inductive FcOp :=
| PauseVm
| CreateFullSnapshot (snapshot_path mem_file_path : path).

Record SnapshotMeta := {
  sm_schema_version : N;
  sm_snapshot_id : string;
  sm_created_at : Z;
  sm_fc_version : string;
  sm_rootfs_hash : string;
  sm_base_room_id : string;
  sm_slot_index : option N;
  sm_guest_ip : option N;
  sm_base_repo_sha : option string;
  sm_toolstore_sha256 : option string;
  sm_provenance : Provenance
}.

#[export] Instance SnapshotMeta_eq_dec : EqDecision SnapshotMeta.
Proof. solve_decision. Defined.

Record SnapshotRequest := {
  sr_out_dir : path;
  sr_snapshot_id : string;
  sr_fc_version : string;
  sr_rootfs_hash : string;
  sr_base_repo_sha : option string;
  sr_toolstore_sha256 : option string;
  sr_active_vsock : bool
}.

Record SnapshotPlan := {
  sp_ops : list FcOp;
  sp_meta : SnapshotMeta;
  sp_host_vmstate : path;
  sp_host_mem : path;
  sp_meta_path : path
}.

Definition plan (base : RoomMeta) (req : SnapshotRequest) (now : Z) : result SnapshotError SnapshotPlan :=
  if negb (RoomMeta_is_snapshottable base) then Err (NotNeutral (provenance base)) else
  if sr_active_vsock req then Err ActiveVsock else
  let? slot := ok_or (slot base) MissingSlot in
  let ops := [PauseVm; CreateFullSnapshot [SNAPSHOT_VMSTATE_FILE] [SNAPSHOT_MEM_FILE]] in
  let schema_version := match sr_toolstore_sha256 req with
                        | Some _ => TOOLSTORE_SNAPSHOT_SCHEMA_VERSION
                        | None => SNAPSHOT_SCHEMA_VERSION
                        end in
  Ok {| sp_ops := ops;
        sp_meta := {| sm_schema_version := schema_version; sm_snapshot_id := sr_snapshot_id req;
                      sm_created_at := now; sm_fc_version := sr_fc_version req;
                      sm_rootfs_hash := sr_rootfs_hash req; sm_base_room_id := meta_id base;
                      sm_slot_index := Some (slot_index slot); sm_guest_ip := Some (slot_guest slot);
                      sm_base_repo_sha := sr_base_repo_sha req;
                      sm_toolstore_sha256 := sr_toolstore_sha256 req; sm_provenance := Neutral |};
        sp_host_vmstate := path_join (sr_out_dir req) SNAPSHOT_VMSTATE_FILE;
        sp_host_mem := path_join (sr_out_dir req) SNAPSHOT_MEM_FILE;
        sp_meta_path := path_join (sr_out_dir req) SNAPSHOT_META_FILE |}.

(** [write_meta_atomic]; the mode bits of the file are not modelled, setting
    them can fail. *)
Definition write_meta_atomic (to_vec_pretty : SnapshotMeta → result io_error string)
    (p : path) (meta : SnapshotMeta) : io io_error unit :=
  let! json := of_result (to_vec_pretty meta) in
  let! dir := of_result (ok_or (parent p) (IoError InvalidInput "snapshot meta path has no parent dir")) in
  let tmp := path_join dir ".snapshot.json.tmp" in
  do! open_create true tmp in
  do! sync_all tmp in
  do! write_all tmp json in
  do! sync_all tmp in
  do! rename tmp p in
  sync_all dir.

(** ** Restore *)

Inductive CompatField := FcVersion | RootfsHash.

Inductive RestoreError :=
| UnsupportedSchema (found : N)
| ToolstoreSchemaMismatch (found : N)
| ToolstoreRequired
| ToolstoreUnexpected
| ToolstoreMismatch
| SnapshotIncompatible (field : CompatField)
| NotNeutralSnapshot (found : Provenance).

Inductive RestoreOp :=
| InstallCustody
| LoadSnapshot (snapshot_path mem_backend_path : path)
| ResumeVm
| ApplyHygieneNudgeAndAwaitAck.

#[export] Instance RestoreOp_eq_dec : EqDecision RestoreOp.
Proof. solve_decision. Defined.

(** [RestorePlan] is its [ops]. *)
Definition load_index (ops : list RestoreOp) : option nat :=
  position (λ op, match op with LoadSnapshot _ _ => true | _ => false end) ops.

Definition resume_index (ops : list RestoreOp) : option nat :=
  position (λ op, bool_decide (op = ResumeVm)) ops.

Definition custody_index (ops : list RestoreOp) : option nat :=
  position (λ op, bool_decide (op = InstallCustody)) ops.

Definition check_schema (snap : SnapshotMeta) : result RestoreError unit :=
  let has_toolstore := bool_decide (is_Some (sm_toolstore_sha256 snap)) in
  let v := sm_schema_version snap in
  if (v =? SNAPSHOT_SCHEMA_VERSION)%N && negb has_toolstore then Ok () else
  if (v =? TOOLSTORE_SNAPSHOT_SCHEMA_VERSION)%N && has_toolstore then Ok () else
  if (v =? SNAPSHOT_SCHEMA_VERSION)%N || (v =? TOOLSTORE_SNAPSHOT_SCHEMA_VERSION)%N
  then Err (ToolstoreSchemaMismatch v) else Err (UnsupportedSchema v).

Definition check_toolstore (frozen supplied : option string) : result RestoreError unit :=
  match frozen, supplied with
  | None, None => Ok ()
  | Some _, None => Err ToolstoreRequired
  | None, Some _ => Err ToolstoreUnexpected
  | Some frozen, Some supplied => if (frozen =? supplied)%string then Ok () else Err ToolstoreMismatch
  end.

Definition check_compat (snap : SnapshotMeta) (host_fc_version host_rootfs_hash : string)
    (host_toolstore_sha256 : option string) : result RestoreError unit :=
  let? _ := check_schema snap in
  if negb (sm_fc_version snap =? host_fc_version)%string then Err (SnapshotIncompatible FcVersion) else
  if negb (sm_rootfs_hash snap =? host_rootfs_hash)%string then Err (SnapshotIncompatible RootfsHash) else
  check_toolstore (sm_toolstore_sha256 snap) host_toolstore_sha256.

Definition plan_restore (snap : SnapshotMeta) (host_fc_version host_rootfs_hash : string)
    (host_toolstore_sha256 : option string) : result RestoreError (list RestoreOp) :=
  let? _ := check_compat snap host_fc_version host_rootfs_hash host_toolstore_sha256 in
  if negb (bool_decide (sm_provenance snap = Neutral)) then Err (NotNeutralSnapshot (sm_provenance snap)) else
  Ok [InstallCustody; LoadSnapshot [SNAPSHOT_VMSTATE_FILE] [SNAPSHOT_MEM_FILE]; ResumeVm;
      ApplyHygieneNudgeAndAwaitAck].

(** ** Properties *)

(** When a restore is planned. *)
Lemma plan_restore_Ok snap fc rootfs ts ops :
  plan_restore snap fc rootfs ts = Ok ops ↔
  check_schema snap = Ok () ∧ sm_fc_version snap = fc ∧ sm_rootfs_hash snap = rootfs ∧
  sm_toolstore_sha256 snap = ts ∧ sm_provenance snap = Neutral ∧
  ops = [InstallCustody; LoadSnapshot [SNAPSHOT_VMSTATE_FILE] [SNAPSHOT_MEM_FILE]; ResumeVm;
         ApplyHygieneNudgeAndAwaitAck].
Proof.
  unfold plan_restore, check_compat. destruct (check_schema snap) as [[]|e]; simpl; [|naive_solver].
  destruct (String.eqb_spec (sm_fc_version snap) fc) as [<-|]; simpl; [|naive_solver].
  destruct (String.eqb_spec (sm_rootfs_hash snap) rootfs) as [<-|]; simpl; [|naive_solver].
  unfold check_toolstore. destruct (sm_toolstore_sha256 snap) as [a|], ts as [b|]; simpl; try naive_solver.
  - destruct (String.eqb_spec a b) as [<-|]; simpl; [|naive_solver].
    case_bool_decide; simpl; naive_solver.
  - case_bool_decide; simpl; naive_solver.
Qed.

(** A base can be frozen exactly when it is a sealed neutral base with a
    slot and no open vsock connection, and the snapshot taken can be restored
    exactly on a host with the same Firecracker version, the same rootfs and the
    same toolstore or none.  A planned restore installs custody before it loads,
    and loads before it resumes. *)
Theorem frozen_restores_iff base req now :
  (is_ok (plan base req now) = true ↔
     provenance base = Some Neutral ∧ sr_active_vsock req = false ∧ is_Some (slot base)) ∧
  ∀ p fc rootfs ts, plan base req now = Ok p →
    (is_ok (plan_restore (sp_meta p) fc rootfs ts) = true ↔
       fc = sr_fc_version req ∧ rootfs = sr_rootfs_hash req ∧ ts = sr_toolstore_sha256 req) ∧
    ∀ ops, plan_restore (sp_meta p) fc rootfs ts = Ok ops →
      ∃ c l r, custody_index ops = Some c ∧ load_index ops = Some l ∧ resume_index ops = Some r ∧ c < l < r.
Proof.
  split.
  - unfold plan, RoomMeta_is_snapshottable. destruct (provenance base) as [[]|]; simpl; [naive_solver| |naive_solver..].
    destruct (sr_active_vsock req); simpl; [naive_solver|]. destruct (slot base); simpl; [|by split; [|intros (_ & _ & [])]].
    split; [eauto|done].
  - intros p fc rootfs ts. unfold plan. destruct (negb _); [done|]. destruct (sr_active_vsock req); [done|].
    destruct (slot base) as [s|]; simpl; [|done]. intros [= <-]. simpl.
    assert (Hschema : ∀ m, check_schema {| sm_schema_version := match sr_toolstore_sha256 req with
        | Some _ => TOOLSTORE_SNAPSHOT_SCHEMA_VERSION | None => SNAPSHOT_SCHEMA_VERSION end;
        sm_snapshot_id := sr_snapshot_id req; sm_created_at := now; sm_fc_version := sr_fc_version req;
        sm_rootfs_hash := sr_rootfs_hash req; sm_base_room_id := meta_id base; sm_slot_index := Some (slot_index s);
        sm_guest_ip := Some (slot_guest s); sm_base_repo_sha := sr_base_repo_sha req;
        sm_toolstore_sha256 := sr_toolstore_sha256 req; sm_provenance := m |} = Ok ()).
    { intros m. unfold check_schema. simpl. by destruct (sr_toolstore_sha256 req). }
    split.
    + destruct (plan_restore _ fc rootfs ts) as [ops|e] eqn:E; simpl.
      * apply plan_restore_Ok in E as (_ & <- & <- & <- & _). done.
      * split; [done|]. intros (-> & -> & ->). exfalso.
        assert (H : ∀ ops, plan_restore _ _ _ _ ≠ Ok ops) by (intros ops; rewrite E; done).
        eapply H. apply plan_restore_Ok. simpl. splits; try done.
    + intros ops (_ & _ & _ & _ & _ & ->)%plan_restore_Ok. exists 0, 1, 2.
      splits; (done || lia).
Qed.

Lemma frozen_restores_iff_witness :
  let base := {| schema_version := 4; meta_id := "01hzzzzzzzzzzzzzzzzzzzzzzz"; label := None; started_at := 0;
     pid := Some 7%N; pid_starttime := Some 9%N; keep := true; slot := Some (Slot.derive 3);
     clone_net_index := None; provenance := Some Neutral; snapshot_lineage := None;
     toolstore_sha256 := None; base_repo_sha := None |} in
  let req := {| sr_out_dir := ["out"]; sr_snapshot_id := "01hzzzzzzzzzzzzzzzzzzzzzzy"; sr_fc_version := "v1.7.0";
     sr_rootfs_hash := "sha256:00"; sr_base_repo_sha := None; sr_toolstore_sha256 := None;
     sr_active_vsock := false |} in
  ∃ p, plan base req 5 = Ok p ∧ ¬ is_ok (plan_restore (sp_meta p) "v1.8.0" "sha256:00" None) = true.
Proof.
  intros base req. eexists. split; [reflexivity|].
  destruct (frozen_restores_iff base req 5) as [_ H]. intros Hok.
  apply (H _ "v1.8.0" "sha256:00" None eq_refl) in Hok as [[=] _].
Defined.
