(* ===== verification/Intents.v ===== *)
(** * Intents: the durable indexes of snapshot and restore transactions
    ([snapshot_exec.rs], [restore_exec.rs])

    Every transaction has a JSON file in an index directory, created once,
    replaced as the transaction advances and removed at its end; a lock file per
    base keeps transactions apart.  Here are the index operations over the file
    tree, with what a crash in any of them leaves.  The codec of [serde_json],
    the fresh suffix of a temporary name, and SHA-256 are parameters.  The texts of
    errors are abbreviated. *)

From S2P Require Import Prelude RStr Fs Room IndexedClaim CloneRoutes Config Snapshot.
From stdpp Require Import options.

Definition sync_dir_io (p : path) : io string unit := lift_err message (sync_all p).
Definition io_call {A : Type} (m : io io_error A) : io string A := lift_err message m.

(** ** Snapshot intents *)

Definition INTENT_SCHEMA_VERSION : N := 1.

Inductive Boundary := Pending | TargetsStaged | Paused | Collected | Reserved | Reaped | Published.

#[export] Instance Boundary_eq_dec : EqDecision Boundary.
Proof. solve_decision. Defined.

(** The derived order. *)
Definition boundary_rank (b : Boundary) : nat :=
  match b with
  | Pending => 0 | TargetsStaged => 1 | Paused => 2 | Collected => 3 | Reserved => 4 | Reaped => 5 | Published => 6
  end.

Definition Boundary_label (b : Boundary) : string :=
  match b with
  | Pending => "pending"
  | TargetsStaged => "targets_staged"
  | Paused => "paused"
  | Collected => "collected"
  | Reserved => "reserved"
  | Reaped => "reaped"
  | Published => "published"
  end.

Record SnapshotIntent := {
  si_schema_version : N;
  si_snapshot_id : string;
  si_base_room_id : string;
  si_meta : SnapshotMeta;
  si_rootfs_source : option ImmutableFileIdentity;
  si_out_dir : path;
  si_host_vmstate : path;
  si_host_mem : path;
  si_jail_vmstate : path;
  si_jail_mem : path;
  si_boundary : Boundary;
  si_aborted : bool
}.

#[export] Instance SnapshotIntent_eq_dec : EqDecision SnapshotIntent.
Proof. solve_decision. Defined.

Definition set_boundary (b : Boundary) (i : SnapshotIntent) : SnapshotIntent :=
  {| si_schema_version := si_schema_version i; si_snapshot_id := si_snapshot_id i;
     si_base_room_id := si_base_room_id i; si_meta := si_meta i; si_rootfs_source := si_rootfs_source i;
     si_out_dir := si_out_dir i; si_host_vmstate := si_host_vmstate i; si_host_mem := si_host_mem i;
     si_jail_vmstate := si_jail_vmstate i; si_jail_mem := si_jail_mem i; si_boundary := b;
     si_aborted := si_aborted i |}.

Definition set_aborted (i : SnapshotIntent) : SnapshotIntent :=
  {| si_schema_version := si_schema_version i; si_snapshot_id := si_snapshot_id i;
     si_base_room_id := si_base_room_id i; si_meta := si_meta i; si_rootfs_source := si_rootfs_source i;
     si_out_dir := si_out_dir i; si_host_vmstate := si_host_vmstate i; si_host_mem := si_host_mem i;
     si_jail_vmstate := si_jail_vmstate i; si_jail_mem := si_jail_mem i; si_boundary := si_boundary i;
     si_aborted := true |}.

Record PendingSnapshot := {
  ps_snapshot_id : string;
  ps_base_room : string;
  ps_boundary : string;
  ps_next_action : string
}.

Definition pending_summary (i : SnapshotIntent) : PendingSnapshot :=
  {| ps_snapshot_id := si_snapshot_id i; ps_base_room := si_base_room_id i;
     ps_boundary := Boundary_label (si_boundary i);
     ps_next_action := "run `rooms snapshot-recover " +:+ si_snapshot_id i +:+ "` to resume safely" |}.

Definition overlaps (left right : path) : bool := path_starts_with left right || path_starts_with right left.

Definition managed_id_root (candidate parent : path) : option path :=
  if negb (path_starts_with candidate parent) then None else
  id ← head (drop (length parent) candidate);
  if is_valid_room_id id then Some (path_join parent id) else None.

(** The loop of [canonical_candidate], on the reversed path: go up to the first
    ancestor that exists. *)
Fixpoint canonical_walk (rpath missing : list string) : io string path :=
  let! here := exists_ (rev rpath) in
  if here : bool then
    let! resolved := io_call (canonicalize (rev rpath)) in
    ret (resolved ++ missing)
  else
    match rpath with
    | [] => throw "path has no existing ancestor"
    | name :: rest =>
        if (name =? "..")%string then throw "path has no existing ancestor"
        else canonical_walk rest (name :: missing)
    end.

Definition canonical_candidate (p : path) : io string path := canonical_walk (rev p) [].

Section snapshot_index.
  Variable home : option path.
  Variable config : RoomsConfig.
  Variable to_json : SnapshotIntent → result string string.
  Variable from_json : string → result string SnapshotIntent.
  (** The hexadecimal SHA-256 of a path's bytes. *)
  Variable out_key : path → string.

Definition exec_state_base : result string path :=
  ok_or (resolved_state_base home config) "HOME unset; cannot locate rooms state".

Definition intent_dir : result string path :=
  ok_or (snapshot_intents_dir home config) "cannot resolve snapshot intent directory".

Definition intent_path (base_id : string) : result string path :=
  rmap (λ dir, path_join dir (base_id +:+ ".json")) intent_dir.

(** [set_dir_private]. *)
Definition set_dir_private (p : path) : io string unit := io_call (set_permissions p).

Definition try_lock_named (name : string) : io string bool :=
  let! dir := of_result intent_dir in
  do! io_call (create_dir_all dir) in
  do! set_dir_private dir in
  let p := path_join dir (name +:+ ".lock") in
  do! io_call (open_create false p) in
  let! held := io_call (try_lock p) in
  if held : bool then
    do! io_call (sync_all p) in
    do! sync_dir_io dir in
    ret true
  else ret false.

Definition try_acquire_lock (base_id : string) : io string bool := try_lock_named base_id.

Definition acquire_lock (base_id : string) : io string unit :=
  let! held := try_acquire_lock base_id in
  if held : bool then ret () else throw ("snapshot transaction for base " +:+ base_id +:+ " is busy").

Definition acquire_output_lock (out_dir : path) : io string unit :=
  let! held := try_lock_named ("out-" +:+ out_key out_dir) in
  if held : bool then ret () else throw "snapshot output is busy in another transaction".

Definition create_intent_exclusive (fresh : string) (intent : SnapshotIntent) : io string unit :=
  let! dir := of_result intent_dir in
  do! io_call (create_dir_all dir) in
  do! set_dir_private dir in
  let! p := of_result (intent_path (si_base_room_id intent)) in
  let! bytes := of_result (to_json intent) in
  let tmp := path_join dir ("." +:+ si_base_room_id intent +:+ "." +:+ fresh +:+ ".tmp") in
  do! io_call (open_create_new tmp) in
  do! io_call (write_all tmp bytes) in
  do! io_call (sync_all tmp) in
  let! linked := attempt (hard_link tmp p) in
  match linked with
  | Err error =>
      do! attempt (remove_file tmp) in
      if decide (kind error = AlreadyExists)
      then throw ("snapshot transaction already pending for base " +:+ si_base_room_id intent)
      else throw (message error)
  | Ok _ =>
      do! sync_dir_io dir in
      do! io_call (remove_file tmp) in
      sync_dir_io dir
  end.

Definition write_intent_atomic (intent : SnapshotIntent) : io string unit :=
  let! p := of_result (intent_path (si_base_room_id intent)) in
  let! dir := of_result intent_dir in
  let tmp := path_join dir ("." +:+ si_base_room_id intent +:+ ".tmp") in
  let! bytes := of_result (to_json intent) in
  do! io_call (open_create true tmp) in
  do! io_call (write_all tmp bytes) in
  do! io_call (sync_all tmp) in
  do! io_call (rename tmp p) in
  sync_dir_io dir.

(** [advance] returns the intent it wrote. *)
Definition advance (intent : SnapshotIntent) (boundary : Boundary) : io string SnapshotIntent :=
  let intent := set_boundary boundary intent in
  do! write_intent_atomic intent in
  ret intent.

Definition finish_index (intent : SnapshotIntent) : io string unit :=
  let! p := of_result (intent_path (si_base_room_id intent)) in
  let! removed := attempt (remove_file p) in
  match removed with
  | Ok _ => let! dir := of_result intent_dir in sync_dir_io dir
  | Err e => if decide (kind e = NotFound) then ret () else throw (message e)
  end.

Definition managed_cleanup_root (state : path) (base_id : string) (candidate : path) : io string (option path) :=
  let! state := canonical_candidate state in
  match managed_id_root candidate state with
  | Some root => ret (Some root)
  | None =>
      let! instances := of_result (rmap (λ base, path_join base "firecracker")
        (ok_or (chroot_base home config) "cannot resolve jailer chroot base")) in
      let! instances := canonical_candidate instances in
      match managed_id_root candidate instances with
      | Some root => ret (Some root)
      | None =>
          let! room := of_result (ok_or (room_dir home config base_id) "cannot resolve managed cleanup root") in
          let! room := canonical_candidate room in
          if path_starts_with candidate room then ret (Some room) else
          let! jail := of_result (ok_or (jail_instance_dir home config base_id)
            "cannot resolve managed cleanup root") in
          let! jail := canonical_candidate jail in
          if path_starts_with candidate jail then ret (Some jail) else ret None
      end
  end.

Definition resolve_output (state : path) (base_id snapshot_id : string) (explicit : option path) : io string path :=
  let candidate := match explicit with
                   | Some p => p
                   | None => path_join (path_join state SNAPSHOTS_DIR) snapshot_id
                   end in
  let! resolved := canonical_candidate candidate in
  let! snapshot_index := canonical_candidate (path_join state SNAPSHOT_INTENTS_DIR) in
  let! restore_index := canonical_candidate (path_join state RESTORE_INTENTS_DIR) in
  let! attestation_index := canonical_candidate (path_join state SNAPSHOT_ATTESTATIONS_DIR) in
  if existsb (overlaps resolved) [snapshot_index; restore_index; attestation_index]
  then throw "snapshot output overlaps transaction index" else
  let! managed := managed_cleanup_root state base_id resolved in
  match managed with
  | Some _ => throw "snapshot output is under managed cleanup tree"
  | None => ret resolved
  end.

Definition validate_resume_output (intent : SnapshotIntent) (explicit_out : option path) : io string unit :=
  match explicit_out with
  | None => ret ()
  | Some explicit =>
      let! out := canonical_candidate explicit in
      if bool_decide (out = si_out_dir intent) then ret ()
      else throw "base already has snapshot transaction; requested output differs"
  end.

Definition validate_intent (intent : SnapshotIntent) (name : string) : io string unit :=
  if negb (si_schema_version intent =? INTENT_SCHEMA_VERSION)%N then throw "unsupported snapshot intent schema" else
  if negb (is_valid_room_id (si_base_room_id intent)) || negb (is_valid_room_id (si_snapshot_id intent))
  then throw "snapshot intent contains an invalid id" else
  if negb (bool_decide (file_stem name = si_base_room_id intent)) ||
     negb (bool_decide (sm_base_room_id (si_meta intent) = si_base_room_id intent)) ||
     negb (bool_decide (sm_snapshot_id (si_meta intent) = si_snapshot_id intent))
  then throw "snapshot intent identity fields disagree" else
  let! state := of_result exec_state_base in
  let! safe_out := resolve_output state (si_base_room_id intent) (si_snapshot_id intent) (Some (si_out_dir intent)) in
  if negb (bool_decide (safe_out = si_out_dir intent)) then throw "snapshot intent output is no longer canonical" else
  let! jail_root := of_result (ok_or (jail_root_dir home config (si_base_room_id intent))
    "cannot resolve intent jail root") in
  if negb (bool_decide (si_host_vmstate intent = path_join (si_out_dir intent) SNAPSHOT_VMSTATE_FILE)) ||
     negb (bool_decide (si_host_mem intent = path_join (si_out_dir intent) SNAPSHOT_MEM_FILE)) ||
     negb (bool_decide (si_jail_vmstate intent = path_join jail_root SNAPSHOT_VMSTATE_FILE)) ||
     negb (bool_decide (si_jail_mem intent = path_join jail_root SNAPSHOT_MEM_FILE))
  then throw "snapshot intent artifact paths disagree with their roots" else ret ().

(** One entry of the index; only [.json] files are intents. *)
Definition read_intent_entry (dir : path) (name : string) : io string (option SnapshotIntent) :=
  let! name := io_call (dir_entry name) in
  if negb (bool_decide (extension name = Some "json")) then ret None else
  let p := pjoin dir name in
  let! node := io_call (symlink_metadata p) in
  match node with
  | File _ =>
      let! bytes := io_call (read_to_string p) in
      let! intent := of_result (from_json bytes) in
      do! validate_intent intent name in
      ret (Some intent)
  | _ => throw "snapshot intent is not a regular file"
  end.

(** A stable sort on a key. *)
Fixpoint insert_by {A : Type} (key : A → string) (x : A) (l : list A) : list A :=
  match l with
  | [] => [x]
  | y :: l' => if str_lt (key x) (key y) then x :: l else y :: insert_by key x l'
  end.

Definition sort_on {A : Type} (key : A → string) (l : list A) : list A := fold_left (λ l x, insert_by key x l) l [].

Definition read_intents : io string (list SnapshotIntent) :=
  let! dir := of_result intent_dir in
  let! entries := attempt (read_dir dir) in
  match entries with
  | Err e => if decide (kind e = NotFound) then ret [] else throw (message e)
  | Ok names =>
      let! intents := for_each (read_intent_entry dir) names in
      ret (sort_on si_snapshot_id (omap (λ i, i) intents))
  end.

Definition for_base (base_id : string) (i : SnapshotIntent) : bool := bool_decide (si_base_room_id i = base_id).

Definition pending_for_base (base_id : string) : io string (option PendingSnapshot) :=
  let! intents := read_intents in
  ret (pending_summary <$> find_first (for_base base_id) intents).

Definition has_pending : io string bool :=
  let! intents := read_intents in ret (negb (bool_decide (intents = []))).

Definition pending_all : io string (list PendingSnapshot) :=
  let! intents := read_intents in ret (pending_summary <$> intents).

Definition pending_output_dirs : io string (list path) :=
  let! intents := read_intents in ret (si_out_dir <$> intents).

Definition ensure_output_unclaimed (out_dir : path) (base_id : string) : io string unit :=
  let! intents := read_intents in
  match find_first (λ i, bool_decide (si_out_dir i = out_dir) && negb (for_base base_id i)) intents with
  | None => ret ()
  | Some intent => throw ("snapshot output is already claimed by transaction " +:+ si_snapshot_id intent)
  end.

End snapshot_index.

(** ** Restore intents *)

Inductive RestoreBoundary := PreSpawn | Spawned | Leased.

#[export] Instance RestoreBoundary_eq_dec : EqDecision RestoreBoundary.
Proof. solve_decision. Defined.

Record RestoreIntent := {
  ri_schema_version : N;
  ri_room_id : string;
  ri_snapshot_id : string;
  ri_slot_index : N;
  ri_tap : string;
  ri_snapshot_dir : path;
  ri_image : path;
  ri_clone_net_index : option N;
  ri_pid : option N;
  ri_pid_starttime : option N;
  ri_boundary : RestoreBoundary
}.

#[export] Instance RestoreIntent_eq_dec : EqDecision RestoreIntent.
Proof. solve_decision. Defined.

Record PendingRestore := {
  pr_room_id : string;
  pr_snapshot_id : string;
  pr_boundary : string;
  pr_slot : N;
  pr_clone_net_index : option N
}.

Definition pending_restore (i : RestoreIntent) : PendingRestore :=
  {| pr_room_id := ri_room_id i; pr_snapshot_id := ri_snapshot_id i;
     pr_boundary := match ri_boundary i with
                    | PreSpawn => "pre_spawn" | Spawned => "spawned" | Leased => "leased" end;
     pr_slot := ri_slot_index i; pr_clone_net_index := ri_clone_net_index i |}.

Section restore_index.
  Variable home : option path.
  Variable config : RoomsConfig.
  Variable to_json : RestoreIntent → result string string.
  Variable from_json : string → result string RestoreIntent.

Definition restore_intent_dir : result string path :=
  ok_or (restore_intents_dir home config) "cannot resolve restore intent directory".

Definition restore_intent_path (room_id : string) : result string path :=
  rmap (λ dir, path_join dir (room_id +:+ ".json")) restore_intent_dir.

Definition create_restore_intent_exclusive (intent : RestoreIntent) : io string unit :=
  let! dir := of_result restore_intent_dir in
  do! io_call (create_dir_all dir) in
  let! p := of_result (restore_intent_path (ri_room_id intent)) in
  let! bytes := of_result (to_json intent) in
  do! io_call (open_create_new p) in
  do! io_call (write_all p bytes) in
  do! io_call (sync_all p) in
  sync_dir_io dir.

Definition write_restore_intent_atomic (intent : RestoreIntent) : io string unit :=
  let! dir := of_result restore_intent_dir in
  let tmp := path_join dir ("." +:+ ri_room_id intent +:+ ".tmp") in
  let! bytes := of_result (to_json intent) in
  do! io_call (open_create true tmp) in
  do! io_call (write_all tmp bytes) in
  do! io_call (sync_all tmp) in
  let! p := of_result (restore_intent_path (ri_room_id intent)) in
  do! io_call (rename tmp p) in
  sync_dir_io dir.

Definition finish_restore_index (room_id : string) : io string unit :=
  let! p := of_result (restore_intent_path room_id) in
  let! removed := attempt (remove_file p) in
  match removed with
  | Ok _ => let! dir := of_result restore_intent_dir in sync_dir_io dir
  | Err e => if decide (kind e = NotFound) then ret () else throw (message e)
  end.

Definition read_restore_entry (dir : path) (name : string) : io string (option RestoreIntent) :=
  let! name := io_call (dir_entry name) in
  if negb (bool_decide (extension name = Some "json")) then ret None else
  let! bytes := io_call (read_to_string (pjoin dir name)) in
  let! intent := of_result (from_json bytes) in
  if negb (ri_schema_version intent =? INTENT_SCHEMA_VERSION)%N then throw "unsupported restore intent schema" else
  if negb (is_valid_room_id (ri_room_id intent)) || negb (is_valid_room_id (ri_snapshot_id intent))
  then throw "restore intent contains an invalid id" else
  match ri_clone_net_index intent with
  | Some index =>
      do! of_result (map_err (λ _, "restore intent carries invalid clone network") (CloneNet_derive index)) in
      ret (Some intent)
  | None => ret (Some intent)
  end.

Definition read_restore_intents : io string (list RestoreIntent) :=
  let! dir := of_result restore_intent_dir in
  let! entries := attempt (read_dir dir) in
  match entries with
  | Err e => if decide (kind e = NotFound) then ret [] else throw (message e)
  | Ok names =>
      let! intents := for_each (read_restore_entry dir) names in
      ret (sort_on ri_room_id (omap (λ i, i) intents))
  end.

Definition restore_pending_all : io string (list PendingRestore) :=
  let! intents := read_restore_intents in ret (pending_restore <$> intents).

End restore_index.

(** ** What a crash leaves in an index *)

(** The name of an index entry, and of the temporary it is written to. *)
Definition entry_name (id : string) : string := id +:+ ".json".

Lemma long_plain s : lacks "/" s = true → 2 < len s → plain_name s.
Proof.
  intros Hs Hlen. split; [done|]. intros Hin. set_unfold in Hin.
  destruct Hin as [->|[->|[->|[]]]]; simpl in Hlen; lia.
Qed.

Lemma long_ne s : 2 < len s → (s =? "..")%string = false.
Proof. intros H. apply String.eqb_neq. intros ->. simpl in H. lia. Qed.

Lemma entry_plain id : is_valid_room_id id = true → plain_name (entry_name id).
Proof.
  intros H. apply long_plain; unfold entry_name; [by rewrite lacks_app, valid_id_lacks|].
  rewrite len_app. simpl. lia.
Qed.

Lemma entry_extension id : extension (entry_name id) = Some "json" ∨ id = "".
Proof.
  destruct id as [|a id]; [by right|left]. unfold extension, entry_name.
  change ".json" with (String "." "json"). rewrite rsplit_once_app by done.
  rewrite long_ne by (rewrite len_app; simpl; lia). done.
Qed.

(** A temporary's name is no entry. *)
Lemma tmp_extension s : extension ("." +:+ s +:+ ".tmp") = Some "tmp".
Proof.
  unfold extension. rewrite <- app_assoc. change ".tmp" with (String "." "tmp").
  rewrite rsplit_once_app by done. rewrite long_ne by (rewrite len_app; simpl; lia). done.
Qed.

(** Calls that leave every file as it is, in a computation with text errors. *)
Lemma wp_io_call {A : Type} (m : io io_error A) (Q : outcome string A → tree → Prop) (t : tree) :
  wp m (lift_post message Q) t → wp (io_call m) Q t.
Proof. apply wp_lift_err. Qed.

Lemma wp_set_permissions (p : path) (Q : outcome io_error unit → tree → Prop) (t : tree) :
  (∀ o, Q o t) → wp (set_permissions p) Q t.
Proof. intros HQ. apply wp_atomic; intros; [destruct (t !! p); apply HQ|apply HQ..]. Qed.

Lemma wp_hard_link (a b : path) (Q : outcome io_error unit → tree → Prop) (t : tree) :
  (∀ n, t !! a = Some n → t !! b = None → Q (Done (Ok ())) (<[b := n]> t)) →
  (∀ e, Q (Done (Err e)) t) → Q Crashed t → wp (hard_link a b) Q t.
Proof.
  intros HQ HE HC. apply wp_atomic; [|auto|done]. destruct (t !! a) as [n|] eqn:Ha; simpl; [|done].
  destruct (t !! b) eqn:Hb; simpl; [done|]. destruct (parent_is_dir t b); simpl; auto.
Qed.

Lemma append_new (t : tree) p s s' : append_file p s (<[p := File s']> t) = <[p := File (s' +:+ s)]> t.
Proof. unfold append_file. by rewrite lookup_insert_eq, insert_insert_eq. Qed.

(** What an update of the entry [p] through the temporary [tmp] may do to the
    files, [new] being the contents it writes, or [None] when it removes. *)
Definition entry_update (p tmp : path) (new : option string) (t : tree) (o : outcome string unit) (t' : tree) : Prop :=
  frame [p; tmp] t t' ∧ (file t' p = file t p ∨ file t' p = new) ∧ (o = Done (Ok ()) → file t' p = new).

Lemma entry_update_tmp p tmp new (t : tree) o s :
  p ≠ tmp → o ≠ Done (Ok ()) → entry_update p tmp new t o (<[tmp := File s]> t).
Proof.
  intros Hne Ho. unfold entry_update. splits; [|left; by apply file_insert_ne|done].
  eapply frame_weaken; [apply frame_insert|set_solver].
Qed.

Lemma entry_update_same p tmp new (t : tree) o : o ≠ Done (Ok ()) → entry_update p tmp new t o t.
Proof. intros Ho. unfold entry_update. splits; [apply frame_refl|by left|done]. Qed.

Lemma entry_update_files p tmp new (t t1 : tree) o t' :
  (∀ q, file t1 q = file t q) → entry_update p tmp new t1 o t' → entry_update p tmp new t o t'.
Proof. intros H (Hf & Hp & Ho). unfold entry_update. splits; [intros q Hq; rewrite Hf, H; done|by rewrite <- H|done]. Qed.

(** Write a temporary and rename it over the entry. *)
Lemma wp_replace_entry p tmp dir text (t : tree) :
  p ≠ tmp →
  wp (do! io_call (open_create true tmp) in do! io_call (write_all tmp text) in
      do! io_call (sync_all tmp) in do! io_call (rename tmp p) in sync_dir_io dir)
     (entry_update p tmp (Some text) t) t.
Proof.
  intros Hne. unfold sync_dir_io, io_call, sync_all. wp_struct.
  apply wp_open_truncate; intros; wp_struct; [|by apply entry_update_same..].
  apply wp_write_all; intros; rewrite ?append_new; wp_struct; try by apply entry_update_tmp.
  apply wp_pure_call; intros; wp_struct; [|by apply entry_update_tmp..].
  apply wp_rename; [intros n Hn|intros; wp_struct; by apply entry_update_tmp..].
  rewrite lookup_insert_eq in Hn. injection Hn as <-. rewrite app_nil_l.
  assert (Hdone : ∀ o, entry_update p tmp (Some text) t o (<[p := File text]> (delete tmp (<[tmp := File text]> t)))).
  { intros o. unfold entry_update. splits; [|right; apply file_insert|intros _; apply file_insert].
    intros q Hq. rewrite file_insert_ne, file_delete_ne, file_insert_ne by set_solver. done. }
  wp_struct. apply wp_pure_call; intros; wp_struct; apply Hdone.
Qed.

(** Write a temporary and link it to an entry that must not exist. *)
Lemma wp_publish_entry p tmp dir text (fail : io_error → io string unit) (t : tree) :
  p ≠ tmp → (∀ e, ∃ s, fail e = throw s) →
  wp (do! io_call (open_create_new tmp) in do! io_call (write_all tmp text) in
      do! io_call (sync_all tmp) in
      let! linked := attempt (hard_link tmp p) in
      match linked with
      | Err error => do! attempt (remove_file tmp) in fail error
      | Ok _ => do! sync_dir_io dir in do! io_call (remove_file tmp) in sync_dir_io dir
      end)
     (λ o t', entry_update p tmp (Some text) t o t' ∧
              (t !! p ≠ None → file t' p = file t p ∧ o ≠ Done (Ok ()))) t.
Proof.
  intros Hne Herr. match goal with |- wp _ ?Q0 _ => set (Q := Q0) end. unfold sync_dir_io, io_call, sync_all. wp_struct.
  assert (Hfail : ∀ o t', o ≠ Done (Ok ()) → (∀ q, q ≠ tmp → file t' q = file t q) → Q o t').
  { intros o t' Ho Ht. unfold Q. split; [|by split; [apply Ht|]].
    unfold entry_update. splits; [intros q Hq; apply Ht; set_solver|left; by apply Ht|done]. }
  assert (Htmp : ∀ n q, q ≠ tmp → file (<[tmp := n]> t) q = file t q) by (intros; by apply file_insert_ne).
  apply wp_open_create_new; intros; wp_struct; [|by apply Hfail..].
  apply wp_write_all; intros; rewrite ?append_new; wp_struct; try (by apply Hfail; auto).
  apply wp_pure_call; intros; wp_struct; [|by apply Hfail; auto..]. rewrite app_nil_l.
  apply wp_hard_link; [intros n Hn Hp| |]; intros; wp_struct; [| |by apply Hfail; auto].
  2:{ destruct (Herr e) as [text' ->]. apply wp_remove_file; intros; wp_struct; apply Hfail; auto;
        intros q Hq; rewrite file_delete_ne by done; auto. }
  rewrite lookup_insert_eq in Hn. injection Hn as <-. rewrite lookup_insert_ne in Hp by done.
  assert (Hdone : ∀ o t', (∀ q, q ≠ tmp → file t' q = file (<[p := File text]> t) q) → Q o t').
  { intros o t' Ht. unfold Q. split; [|by intros []].
    assert (E : file t' p = Some text) by (rewrite Ht by done; apply file_insert).
    unfold entry_update. splits; [|by right|done]. intros q Hq. rewrite Ht by set_solver. apply file_insert_ne. set_solver. }
  assert (Hput : ∀ q, q ≠ tmp → file (<[p:=File text]> (<[tmp:=File text]> t)) q = file (<[p := File text]> t) q).
  { intros q Hq. unfold file. rewrite insert_insert_ne by done. by rewrite lookup_insert_ne. }
  apply wp_pure_call; intros; wp_struct; [|by apply Hdone..].
  apply wp_remove_file; intros; wp_struct; [| |by apply Hdone..];
    (apply wp_pure_call; intros; wp_struct; apply Hdone; intros q Hq; rewrite file_delete_ne by done; auto).
Qed.

Section index_safety.
  Variable home : option path.
  Variable config : RoomsConfig.
  Variable to_json : SnapshotIntent → result string string.
  Variable dir : path.

(** The writes the drivers make to the index. *)
Inductive index_op :=
| IxCreate (fresh : string) (i : SnapshotIntent)
| IxWrite (i : SnapshotIntent)
| IxFinish (i : SnapshotIntent).

Definition index_exec (op : index_op) : io string unit :=
  match op with
  | IxCreate fresh i => create_intent_exclusive home config to_json fresh i
  | IxWrite i => write_intent_atomic home config to_json i
  | IxFinish i => finish_index home config i
  end.

Definition op_intent (op : index_op) : SnapshotIntent :=
  match op with IxCreate _ i | IxWrite i | IxFinish i => i end.

Definition op_entry (op : index_op) : path := pjoin dir (entry_name (si_base_room_id (op_intent op))).

Definition index_op_ok (op : index_op) : Prop :=
  is_valid_room_id (si_base_room_id (op_intent op)) = true ∧
  match op with IxCreate fresh _ => lacks "/" fresh = true | _ => True end.

(** What the entry holds when the operation is through. *)
Definition op_new (op : index_op) (c : option string) : Prop :=
  match op with
  | IxCreate _ i | IxWrite i => ∃ text, to_json i = Ok text ∧ c = Some text
  | IxFinish _ => c = None
  end.

(** Every entry of the index is the whole text of an intent of its base. *)
Definition index_whole (t : tree) : Prop :=
  ∀ name s, extension name = Some "json" → file t (pjoin dir name) = Some s →
    ∃ i, to_json i = Ok s ∧ name = entry_name (si_base_room_id i).

(** The effect of one write, finished or not. *)
Definition op_effect (op : index_op) (t : tree) (o : outcome string unit) (t' : tree) : Prop :=
  (∀ name, extension name = Some "json" → pjoin dir name ≠ op_entry op →
     file t' (pjoin dir name) = file t (pjoin dir name)) ∧
  (file t' (op_entry op) = file t (op_entry op) ∨ op_new op (file t' (op_entry op))) ∧
  (o = Done (Ok ()) → op_new op (file t' (op_entry op))).

Hypothesis index_dir : intent_dir home config = Ok dir.

Lemma intent_path_eq id : is_valid_room_id id = true → intent_path home config id = Ok (pjoin dir (entry_name id)).
Proof using index_dir.
  intros H. unfold intent_path. rewrite index_dir. simpl. by rewrite path_join_plain by (by apply entry_plain).
Qed.

Lemma tmp_join s : lacks "/" s = true → path_join dir ("." +:+ s +:+ ".tmp") = pjoin dir ("." +:+ s +:+ ".tmp").
Proof.
  intros H. apply path_join_plain, long_plain; [by rewrite !lacks_app, H|]. rewrite !len_app. simpl. lia.
Qed.

Lemma entry_ne_tmp id s : is_valid_room_id id = true → pjoin dir (entry_name id) ≠ pjoin dir ("." +:+ s +:+ ".tmp").
Proof.
  intros H E%pjoin_inj. destruct (entry_extension id) as [He| ->]; [|done].
  rewrite E, tmp_extension in He. done.
Qed.

Lemma update_effect op tmp new (t : tree) o t' :
  (∀ c, c = new → op_new op c) →
  entry_update (op_entry op) (pjoin dir ("." +:+ tmp +:+ ".tmp")) new t o t' → op_effect op t o t'.
Proof.
  intros Hnew (Hf & Hp & Ho). unfold op_effect. splits; [|naive_solver..].
  intros name Hext Hne. apply Hf. intros Hin. set_unfold in Hin. destruct Hin as [|[Hin|[]]]; [done|].
  apply pjoin_inj in Hin as ->. by rewrite tmp_extension in Hext.
Qed.

Lemma wp_index_exec op (t : tree) :
  index_op_ok op → wp (index_exec op) (λ o t', op_effect op t o t' ∧
    match op with
    | IxCreate _ _ => file t (op_entry op) ≠ None → file t' (op_entry op) = file t (op_entry op) ∧ o ≠ Done (Ok ())
    | _ => True
    end) t.
Proof using index_dir.
  intros [Hid Hfresh].
  assert (Hsame : ∀ o, o ≠ Done (Ok ()) → op_effect op t o t) by (intros o Ho; split; [done|split; [by left|done]]).
  destruct op as [fresh i|i|i]; simpl in Hid, Hfresh; unfold index_exec.
  - unfold create_intent_exclusive. rewrite index_dir, (intent_path_eq _ Hid). unfold set_dir_private, io_call at 1 2.
    wp_struct. apply wp_create_dir_all. intros o t1 H1.
    assert (Hsame1 : ∀ o, o ≠ Done (Ok ()) → op_effect (IxCreate fresh i) t o t1 ∧
      (file t (op_entry (IxCreate fresh i)) ≠ None → file t1 (op_entry (IxCreate fresh i)) = file t (op_entry (IxCreate fresh i)) ∧ o ≠ Done (Ok ()))).
    { intros o' Ho'. split; [split; [auto|split; [left; auto|done]]|auto]. }
    destruct o as [[[]|e]|]; wp_struct; [|by apply Hsame1..]. apply wp_set_permissions. intros o.
    destruct o as [[[]|e]|]; wp_struct; [|by apply Hsame1..]. destruct (to_json i) as [text|e] eqn:Hj; [|by apply Hsame1].
    unfold bind_post. set (tmp := si_base_room_id i +:+ "." +:+ fresh).
    replace ("." +:+ si_base_room_id i +:+ "." +:+ fresh +:+ ".tmp") with ("." +:+ tmp +:+ ".tmp")
      by (unfold tmp; by rewrite !app_assoc).
    rewrite tmp_join by (unfold tmp; by rewrite !lacks_app, valid_id_lacks, Hfresh).
    eapply wp_mono; [apply wp_publish_entry; [by apply entry_ne_tmp|intros e; case_decide; eauto]|].
    intros o t' [Hu Hx]. unfold op_entry in *. simpl in *. split.
    + eapply update_effect; [|eapply entry_update_files; [exact H1|exact Hu]]. intros c ->. by exists text.
    + intros Hp. rewrite <- H1. apply Hx. intros E. apply Hp. rewrite <- H1. unfold file. by rewrite E.
  - unfold write_intent_atomic. rewrite index_dir, (intent_path_eq _ Hid). wp_struct.
    destruct (to_json i) as [text|e] eqn:Hj; [|by split; [apply Hsame|]].
    unfold bind_post. rewrite tmp_join by (by apply valid_id_lacks).
    eapply wp_mono; [apply wp_replace_entry; by apply entry_ne_tmp|]. intros o t' Hu. split; [|done].
    eapply update_effect; [|exact Hu]. intros c ->. by exists text.
  - unfold finish_index. rewrite index_dir, (intent_path_eq _ Hid). wp_struct.
    assert (Hgone : ∀ o, op_effect (IxFinish i) t o (delete (op_entry (IxFinish i)) t)).
    { intros o. split; [|split; [right|intros _]; apply file_delete]. intros name _ Hne. by apply file_delete_ne. }
    apply wp_remove_file; intros; wp_struct; [..|by split; [apply Hsame|]].
    1,2: unfold sync_dir_io, sync_all; wp_struct; apply wp_pure_call; intros; wp_struct; split; first [apply Hgone|done].
    case_decide as He; wp_struct; [|by split; [apply Hsame|]]. split; [|done].
    assert (E : file t (op_entry (IxFinish i)) = None) by (unfold file, op_entry; simpl; by rewrite H).
    split; [done|]. split; [by left|]. intros _. exact E.
Qed.

(** One process's write, finished, failed or interrupted. *)
Inductive index_step : tree → tree → Prop :=
| index_step_intro op t l : index_op_ok op → index_step t (fs (snd (index_exec op (World t l)))).

(** C29.  The index of snapshot transactions is never torn.  Whatever writes
    processes make to it and wherever each fails or dies, every entry stays the
    whole text of an intent of its base; and one write touches no other entry,
    leaves its own as it was or as it should be, the latter when it succeeds,
    and never creates over an existing transaction. *)
Theorem snapshot_index_never_torn t t' op l o w' :
  index_whole t → rtc index_step t t' → index_op_ok op → index_exec op (World t' l) = (o, w') →
  index_whole t' ∧ op_effect op t' o (fs w') ∧
  (∀ fresh i, op = IxCreate fresh i → file t' (op_entry op) ≠ None →
     file (fs w') (op_entry op) = file t' (op_entry op) ∧ o ≠ Done (Ok ())).
Proof using index_dir.
  intros Ht Hsteps Hop Hrun. split; [|].
  - clear Hrun. induction Hsteps as [t|t t1 t2 Hstep _ IH]; [done|]. apply IH. clear IH.
    destruct Hstep as [op' t l' Hok]. destruct (wp_index_exec op' t Hok l') as [(Hother & Hown & _) _].
    intros name s Hext Hs. destruct (decide (pjoin dir name = op_entry op')) as [E|Hne].
    + rewrite E in Hs. destruct Hown as [Hown|Hnew].
      * rewrite Hown, <- E in Hs. by apply Ht.
      * rewrite Hs in Hnew. apply pjoin_inj in E. destruct op' as [fresh i|i|i]; simpl in *; [..|done];
          destruct Hnew as (text & Hj & [= <-]); exists i; done.
    + rewrite Hother in Hs by done. by apply Ht.
  - destruct (wp_index_exec op t' Hop l) as [He Hx]. rewrite Hrun in He, Hx. split; [done|].
    intros fresh i ->. done.
Qed.

End index_safety.

(** A configuration and an intent to instantiate the theorems with. *)
Definition sample_config : RoomsConfig :=
  {| api_timeout := 1; instance_start_timeout := 1; api_socket_timeout := 1; guest_reach_timeout := 1;
     guest_reach_poll_interval := 1; base_provisioning_timeout := 1; cleanup_grace := 100;
     firecracker_binary := "firecracker"; jailer_binary := "jailer"; jailer_chroot_base := None;
     state_base := Some ["s"]; min_firecracker_version := (1, 7)%N; min_rootfs_bytes := 1; max_pool := 8 |}.

Definition sample_base : string := "01hzzzzzzzzzzzzzzzzzzzzzzz".
Definition sample_snapshot : string := "01hzzzzzzzzzzzzzzzzzzzzzzy".

Definition sample_meta : SnapshotMeta :=
  {| sm_schema_version := 1; sm_snapshot_id := sample_snapshot; sm_created_at := 0; sm_fc_version := "v1.7.0";
     sm_rootfs_hash := "sha256:00"; sm_base_room_id := sample_base; sm_slot_index := Some 3%N;
     sm_guest_ip := Some (ipv4 172 16 0 14); sm_base_repo_sha := None; sm_toolstore_sha256 := None;
     sm_provenance := Neutral |}.

Definition sample_intent (b : Boundary) (aborted : bool) : SnapshotIntent :=
  let jail := ["s"; "jailer"; "firecracker"; sample_base; "root"] in
  {| si_schema_version := 1; si_snapshot_id := sample_snapshot; si_base_room_id := sample_base;
     si_meta := sample_meta; si_rootfs_source := None; si_out_dir := ["out"];
     si_host_vmstate := ["out"; SNAPSHOT_VMSTATE_FILE]; si_host_mem := ["out"; SNAPSHOT_MEM_FILE];
     si_jail_vmstate := jail ++ [SNAPSHOT_VMSTATE_FILE]; si_jail_mem := jail ++ [SNAPSHOT_MEM_FILE];
     si_boundary := b; si_aborted := aborted |}.

Lemma snapshot_index_never_torn_witness :
  let to_json i := Ok (Boundary_label (si_boundary i)) in
  let t : tree := {[ ["s"] := Dir ]} in
  let r := index_exec None sample_config to_json (IxCreate "f" (sample_intent Pending false))
             (World t [Pass; Pass; Pass; Pass; Pass; Pass; Halt]) in
  fst r = Crashed ∧ op_effect to_json ["s"; SNAPSHOT_INTENTS_DIR] (IxCreate "f" (sample_intent Pending false)) t
    (fst r) (fs (snd r)).
Proof.
  intros to_json t r. split; [vm_compute; reflexivity|].
  apply (snapshot_index_never_torn None sample_config to_json ["s"; SNAPSHOT_INTENTS_DIR]) with (t := t)
    (l := [Pass; Pass; Pass; Pass; Pass; Pass; Halt]); [reflexivity| |reflexivity|by split|apply surjective_pairing].
  intros name s _. unfold t, file. rewrite lookup_singleton_ne; [done|]. by destruct name.
Defined.

(** The restore index has no such protection: its create opens the entry under its
    final name, so a crash before the text is written leaves an empty entry, and
    from then on no reader of the index gets an answer. *)
Theorem restore_index_torn (from_json : string → result string RestoreIntent) e :
  from_json "" = Err e →
  let i := {| ri_schema_version := 1; ri_room_id := sample_base; ri_snapshot_id := sample_snapshot;
              ri_slot_index := 3; ri_tap := "tap-fc3"; ri_snapshot_dir := ["snap"]; ri_image := ["img"];
              ri_clone_net_index := None; ri_pid := None; ri_pid_starttime := None; ri_boundary := PreSpawn |} in
  let '(o, w') := create_restore_intent_exclusive None sample_config (λ _, Ok "{}") i
                    (World {[ ["s"] := Dir ]} [Pass; Pass; Halt]) in
  o = Crashed ∧ fst (read_restore_intents None sample_config from_json (World (fs w') [])) = Done (Err e).
Proof.
  intros He i. set (r := create_restore_intent_exclusive _ _ _ _ _).
  assert (E : r = (Crashed, snd r)) by (vm_compute; reflexivity). rewrite E. split; [done|].
  set (t := fs (snd r)). assert (H : runs (read_restore_intents None sample_config from_json) t (Err e) t);
    [|by unfold runs in H; rewrite H].
  assert (Hd : runs (read_dir ["s"; RESTORE_INTENTS_DIR]) t (Ok [entry_name sample_base]) t) by (vm_compute; reflexivity).
  assert (Hf : runs (read_to_string ["s"; RESTORE_INTENTS_DIR; entry_name sample_base]) t (Ok "") t)
    by (vm_compute; reflexivity).
  assert (Hn : runs (dir_entry (entry_name sample_base)) t (Ok (entry_name sample_base)) t) by (vm_compute; reflexivity).
  eapply runs_bind; [reflexivity|]. eapply runs_bind; [apply runs_attempt, Hd|]. cbv beta iota.
  apply runs_bind_err. cbn [for_each]. apply runs_bind_err.
  eapply runs_bind; [apply (runs_lift_err message _ _ (Ok _)), Hn|]. cbv beta iota.
  eapply runs_bind; [apply (runs_lift_err message _ _ (Ok _)), Hf|]. apply runs_bind_err. unfold runs, of_result. by rewrite He.
Qed.
