(* ===== verification/Sys.v ===== *)
(** * Sys: the calls the orchestrating parts make

    One type of calls for the parts written as [prog]: system calls, programs,
    and the operations of the components modelled elsewhere, with the type of
    their answers.  A callback that runs between two halves of an operation (the
    network cleanup under a slot's lock) is written out: the halves are two
    calls. *)

From S2P Require Import Prelude RStr Fs Room IndexedClaim Slot Host Egress CloneRoutes CloneNet Config Snapshot Intents Prog.
From stdpp Require Import options.

(** What [stat] and its variants tell. *)
Inductive file_kind := KindDir | KindFile | KindOther.

#[export] Instance file_kind_eq_dec : EqDecision file_kind.
Proof. solve_decision. Defined.

Record stat := { st_kind : file_kind; st_uid : N; st_id : ImmutableFileIdentity }.

Definition st_is_dir (s : stat) : bool := bool_decide (st_kind s = KindDir).
Definition st_is_file (s : stat) : bool := bool_decide (st_kind s = KindFile).
Definition st_len (s : stat) : N := fi_len (st_id s).

(** A directory entry: its name, and its [file_type] read as [is_dir]. *)
Record dirent := { dirent_name : string; dirent_is_dir : result io_error bool }.

(** How a file is opened. *)
Inductive open_how :=
| OpenRead            (* [File::open] *)
| OpenReadWrite       (* [read(true).write(true)] *)
| OpenCreate          (* [File::create] *)
| OpenCreateNew       (* [create_new(true).write(true)], [File::create_new] *)
| OpenPrivate         (* [open_private]: created with mode 0600 or truncated *)
| OpenPrivateNew      (* [open_private_create_new] *)
| OpenNoFollow.       (* [O_RDONLY | O_CLOEXEC | O_NOFOLLOW | O_NONBLOCK] *)

(** An open file, or a running task; a child process and its pid while it has
    not been waited for. *)
Abbreviation handle := N (only parsing).

(** A [serde_json::Value]. *)
Inductive json :=
| JString (s : string)
| JNumber (n : N)
| JBool (b : bool)
| JObject (fields : list (string * json)).

Inductive sysop :=
(* processes and programs *)
| OProcStat (pid : N)
| ORun (program : string) (args : list string)
| ORunStatus (program : string) (args : list string)
| ONow
| OSleep (ms : N)
| OSpawn (program : string) (args : list string)
| OChildId (child : handle)
| OTryWait (child : handle)
| OKillChild (child : handle)
| OWriteStdin (child : handle) (text : string)
| OCloseStdin (child : handle)
| OConnect (socket : path)
| OEnv (name : string)
| OSelfPid
| OUlid                          (* a fresh lower-case ULID *)
| OUtcNow
| OCancelled
| ODropTask (task : handle)     (* of a child that is killed on drop, or of a task *)
(* files *)
| OExists (p : path)
| OIsFile (p : path)
| OStat (p : path)
| OLstat (p : path)
| OOpen (p : path) (how : open_how)
| OFstat (file : handle)
| OSeek (file : handle) (offset : N)
| OReadExact (file : handle) (bytes : N)   (* [None] when the file ends before *)
| OReadAll (file : handle) (limit : option N)
| OTryClone (file : handle)
| OWriteAll (file : handle) (text : string)
| OCopyFile (input output : handle)        (* [std::io::copy] *)
| OSetLen (file : handle) (bytes : N)
| OSyncAll (file : handle)
| OGetFlags (file : handle)
| OSetFlags (file : handle) (flags : N)
| OReadText (p : path)
| OReadDir (p : path)
| OCanonicalize (p : path)
| OCreateDir (p : path)
| OCreateDirAll (p : path)
| OMkdirPrivate (p : path)
| OCopy (source target : path)
| ORename (source target : path)
| ORenameNoReplace (source target : path)
| OSetMode (p : path) (mode : N)
| OChown (p : path) (uid gid : N)
| ORemoveFile (p : path)
| ORemoveDir (p : path)
| ORemoveDirAll (p : path)
| OSyncDir (p : path)
| OReadMeta (room_dir : path)
| OWriteMeta (room_dir : path) (meta : RoomMeta)
| OReadSnapshotMeta (p : path)
| OWriteSnapshotMeta (p : path) (meta : SnapshotMeta)
(* slots *)
| OSlotMatch (base : path) (index : N) (room_id : string)
| OSlotUnlink (base : path) (index : N)
| OSlotUnclaimed (base : path) (index : N)
| OSlotClaimedBy (base : path) (index : N) (room_id : string)
| OSlotFree (base : path) (index : N) (room_id : string)
| OSlotReserve (base : path) (index : N) (snapshot_id room_id : string)
| OSlotLease (base : path) (index : N) (snapshot_id room_id : string)
| OSlotLeaseClone (base : path) (index : N) (snapshot_id room_id : string)
| OSlotHold (base : path) (index : N) (snapshot_id room_id : string)
| OSlotReturn (hold : LeaseHold)
| OSlotDrop (hold : LeaseHold)
| OSlotReconcile (base : path)
(* networks *)
| OEgressInstall (tap : string) (policy : Egress.Plan)
| OEgressRemove (tap : string)
| OEgressInstallClone (veth : string) (policy : Egress.Plan)
| OEgressVerifyClone (veth : string) (policy : Egress.Plan)
| OWitnessStart (netns : option string) (tap : string) (room_dir : path)
| OOrphanedTaps
| OCloneOwned (base : path) (net : CloneNet) (room_id : string)
| OCloneVerifyVeth (net : CloneNet)
| OCloneFree (base : path) (index : N) (room_id : string)
| OCloneReconcile (base : path)
(* the guest's sockets *)
| OServeOneShot (listener : path) (secrets : string) (owner : N * N)
| OServeProvisioning (jail_root : path) (bundle warm : string) (owner : N * N)
| OServeResume (jail_root : path) (room_id entropy secrets : string) (owner : N * N)
| OAwaitAcked (delivery : handle) (timeout : N)
(* transaction indexes *)
| OCanonical (p : path)
| OTryLock (base_id : string)
| OUnlock (base_id : string)
| OTryOutputLock (out_dir : path)
| OUnlockOutput (out_dir : path)
| OResolveOutput (state : path) (base_id snapshot_id : string) (explicit : option path)
| OSnapshotIntents
| OCreateIntent (i : SnapshotIntent)
| OWriteIntent (i : SnapshotIntent)
| OFinishIntent (i : SnapshotIntent)
| ORestoreIntents
| OCreateRestoreIntent (i : RestoreIntent)
| OWriteRestoreIntent (i : RestoreIntent)
| OFinishRestoreIntent (room_id : string).

Definition ans (op : sysop) : Type :=
  match op with
  | OProcStat _ => ProcStat
  | ORun _ _ => result io_error CmdOutput
  | ORunStatus _ _ => result io_error (option Z * CmdOutput)
  | ONow => N
  | OSleep _ => unit
  | OSpawn _ _ => result io_error handle
  | OChildId _ => option N
  | OTryWait _ => result io_error (option (option Z))
  | OKillChild _ => result io_error unit
  | OWriteStdin _ _ => result io_error unit
  | OCloseStdin _ => unit
  | OConnect _ => bool
  | OEnv _ => option string
  | OSelfPid => N
  | OUlid => string
  | OUtcNow => Z
  | OCancelled => bool
  | ODropTask _ => unit
  | OExists _ | OIsFile _ => bool
  | OStat _ | OLstat _ | OFstat _ => result io_error stat
  | OOpen _ _ => result io_error handle
  | OSeek _ _ => result io_error unit
  | OReadExact _ _ => result io_error (option string)
  | OReadAll _ _ => result io_error string
  | OTryClone _ => result io_error handle
  | OWriteAll _ _ | OCopyFile _ _ => result io_error unit
  | OSetLen _ _ | OSyncAll _ | OSetFlags _ _ => result io_error unit
  | OGetFlags _ => result io_error N
  | OReadText _ => result io_error string
  | OReadDir _ => result io_error (list (result io_error dirent))
  | OCanonicalize _ => result io_error path
  | OCreateDir _ | OCreateDirAll _ | OMkdirPrivate _ | OCopy _ _ | ORename _ _ | ORenameNoReplace _ _ => result io_error unit
  | OSetMode _ _ | OChown _ _ _ => result io_error unit
  | ORemoveFile _ | ORemoveDir _ | ORemoveDirAll _ | OSyncDir _ => result io_error unit
  | OReadMeta _ => result io_error (option RoomMeta)
  | OWriteMeta _ _ => result io_error unit
  | OReadSnapshotMeta _ => result string SnapshotMeta
  | OWriteSnapshotMeta _ _ => result io_error unit
  | OSlotMatch _ _ _ => result SlotError (option Slot.Freed)
  | OSlotUnlink _ _ => result SlotError Slot.Freed
  | OSlotUnclaimed _ _ => result SlotError bool
  | OSlotClaimedBy _ _ _ => result SlotError bool
  | OSlotFree _ _ _ => result SlotError Slot.Freed
  | OSlotReserve _ _ _ _ => result SlotError Slot.Reserved
  | OSlotLease _ _ _ _ | OSlotLeaseClone _ _ _ _ => result SlotError Room.Slot
  | OSlotHold _ _ _ _ => result SlotError (option LeaseHold)
  | OSlotReturn _ => result SlotError Released
  | OSlotDrop _ => unit
  | OSlotReconcile _ => list Reclaimed
  | OEgressInstall _ _ | OEgressRemove _ | OEgressInstallClone _ _ | OEgressVerifyClone _ _ => result string unit
  | OWitnessStart _ _ _ => result string handle
  | OOrphanedTaps => list N
  | OCloneOwned _ _ _ | OCloneVerifyVeth _ => result CloneNetError unit
  | OCloneFree _ _ _ => result CloneNetError CloneNet.Freed
  | OCloneReconcile _ => list Reclaimed
  | OServeOneShot _ _ _ | OServeProvisioning _ _ _ _ | OServeResume _ _ _ _ _ => result io_error handle
  | OAwaitAcked _ _ => result string unit
  | OCanonical _ | OResolveOutput _ _ _ _ => result string path
  | OTryLock _ | OTryOutputLock _ => result string bool
  | OUnlock _ | OUnlockOutput _ => unit
  | OSnapshotIntents => result string (list SnapshotIntent)
  | OCreateIntent _ | OWriteIntent _ | OFinishIntent _ => result string unit
  | ORestoreIntents => result string (list RestoreIntent)
  | OCreateRestoreIntent _ | OWriteRestoreIntent _ | OFinishRestoreIntent _ => result string unit
  end.

Abbreviation sys := (prog ans) (only parsing).
Abbreviation sys_event := (event ans) (only parsing).

Inductive FirecrackerError :=
| FcKvmUnavailable
| FcBinaryNotFound (p : string)
| FcJailerNotFound (p : string)
| FcUserMissing (user : string)
| FcRootRequired
| FcJailPrepareFailed (reason : string)
| FcApiSocketNeverAppeared (timeout_ms : N)
| FcApiCallFailed (method endpoint : string) (curl_exit_code : Z) (body : string)
| FcApiCallTimedOut (endpoint : string) (timeout_ms : N)
| FcGuestUnreachable (reason : string)
| FcProcessExitedEarly (exit_code : Z) (stderr_tail : string)
| FcHomeUnset
| FcInternal (detail : string)
| FcIo (e : io_error).

Definition fc_message (e : FirecrackerError) : string :=
  match e with
  | FcKvmUnavailable => "/dev/kvm missing or permission denied"
  | FcBinaryNotFound p => "firecracker binary not found at " +:+ p
  | FcJailerNotFound p => "jailer binary not found at " +:+ p
  | FcUserMissing user => "system user " +:+ user +:+ " missing; run scripts/setup-rooms-host.sh"
  | FcRootRequired => "jailer requires root; run rooms via sudo (e.g. `sudo -E rooms run ...`)"
  | FcJailPrepareFailed reason => "jail staging failed: " +:+ reason
  | FcApiSocketNeverAppeared ms => "firecracker api socket did not appear within " +:+ show_N ms +:+ " ms"
  | FcApiCallFailed method endpoint code body =>
      "firecracker api " +:+ method +:+ " " +:+ endpoint +:+ " failed (curl exit " +:+ pretty code +:+ "): " +:+ body
  | FcApiCallTimedOut endpoint ms =>
      "firecracker api PUT " +:+ endpoint +:+ " timed out after " +:+ show_N ms +:+ " ms"
  | FcGuestUnreachable reason => "guest unreachable: " +:+ reason
  | FcProcessExitedEarly code tail => "firecracker exited early with code " +:+ pretty code +:+ ": " +:+ tail
  | FcHomeUnset => "home env var unset"
  | FcInternal detail => detail
  | FcIo e => "io error: " +:+ message e
  end.

Definition room_probe (pid : option N) (starttime : option N) : sys Liveness :=
  match pid with
  | None => Ret Unknown
  | Some pid => let* stat := call (OProcStat pid) in Ret (probe_pid (λ _, stat) pid starttime)
  end.

Lemma room_probe_spec R pid st h Q :
  R h (OProcStat pid) →
  (∀ stat, Q (probe_pid (λ _, stat) pid st) (h ++ [Event (OProcStat pid) stat])) →
  spec R (room_probe (Some pid) st) h Q.
Proof. intros HR HQ. simpl. split; [done|]. intros stat. apply HQ. Qed.

(** A host on which nothing is running and nothing is stored, to build examples
    from. *)
Definition idle_stat : stat :=
  {| st_kind := KindFile; st_uid := 0;
     st_id := {| fi_device := 1; fi_inode := 1; fi_len := 1; fi_mode := 33152; fi_mtime := 0; fi_mtime_nsec := 0;
                 fi_ctime := 0; fi_ctime_nsec := 0 |} |}.

Definition idle_host (h : list sys_event) (op : sysop) : ans op :=
  match op return ans op with
  | OProcStat _ => StatNotFound
  | ORun _ _ => Ok {| success := true; stdout := ""; stderr := "" |}
  | ORunStatus _ _ => Ok (Some 0%Z, {| success := true; stdout := ""; stderr := "" |})
  | ONow => 0%N
  | OSleep _ => ()
  | OSpawn _ _ => Ok 5%N
  | OChildId _ => Some 7%N
  | OTryWait _ => Ok None
  | OKillChild _ | OWriteStdin _ _ => Ok ()
  | OCloseStdin _ => ()
  | OConnect _ => true
  | OEnv _ => None
  | OSelfPid => 2%N
  | OUlid => "01hzzzzzzzzzzzzzzzzzzzzzzx"
  | OUtcNow => 0%Z
  | OCancelled => false
  | ODropTask _ => ()
  | OExists _ | OIsFile _ => false
  | OStat _ | OLstat _ => Err (io_err NotFound)
  | OFstat _ => Ok idle_stat
  | OOpen _ _ => Ok 4%N
  | OSeek _ _ => Ok ()
  | OReadExact _ _ => Ok None
  | OReadAll _ _ | OReadText _ => Ok ""
  | OTryClone file => Ok file
  | OWriteAll _ _ | OCopyFile _ _ => Ok ()
  | OSetLen _ _ | OSyncAll _ | OSetFlags _ _ => Ok ()
  | OGetFlags _ => Ok 0%N
  | OReadDir _ => Ok []
  | OCanonicalize p => Ok p
  | OCreateDir _ | OCreateDirAll _ | OMkdirPrivate _ | OCopy _ _ | ORename _ _ | ORenameNoReplace _ _ => Ok ()
  | OSetMode _ _ | OChown _ _ _ => Ok ()
  | ORemoveFile _ | ORemoveDir _ | ORemoveDirAll _ | OSyncDir _ => Ok ()
  | OReadMeta _ => Ok None
  | OWriteMeta _ _ => Ok ()
  | OReadSnapshotMeta _ => Err "no snapshot"
  | OWriteSnapshotMeta _ _ => Ok ()
  | OSlotMatch _ _ _ => Ok (Some FrAlreadyFree)
  | OSlotUnlink _ _ => Ok FrRemoved
  | OSlotUnclaimed _ _ => Ok true
  | OSlotClaimedBy _ _ _ => Ok false
  | OSlotFree _ _ _ => Ok FrAlreadyFree
  | OSlotReserve _ _ _ _ => Ok Transferred
  | OSlotLease _ index _ _ | OSlotLeaseClone _ index _ _ => Ok (derive index)
  | OSlotHold _ _ _ _ => Ok None
  | OSlotReturn _ => Ok Returned
  | OSlotDrop _ => ()
  | OSlotReconcile _ => []
  | OEgressInstall _ _ | OEgressRemove _ | OEgressInstallClone _ _ | OEgressVerifyClone _ _ => Ok ()
  | OWitnessStart _ _ _ => Ok 6%N
  | OOrphanedTaps => []
  | OCloneOwned _ _ _ | OCloneVerifyVeth _ => Ok ()
  | OCloneFree _ _ _ => Ok CfAlreadyFree
  | OCloneReconcile _ => []
  | OServeOneShot _ _ _ | OServeProvisioning _ _ _ _ | OServeResume _ _ _ _ _ => Ok 8%N
  | OAwaitAcked _ _ => Ok ()
  | OCanonical p => Ok p
  | OResolveOutput _ _ _ explicit => Ok (default ["out"] explicit)
  | OTryLock _ | OTryOutputLock _ => Ok true
  | OUnlock _ | OUnlockOutput _ => ()
  | OSnapshotIntents => Ok []
  | OCreateIntent _ | OWriteIntent _ | OFinishIntent _ => Ok ()
  | ORestoreIntents => Ok []
  | OCreateRestoreIntent _ | OWriteRestoreIntent _ | OFinishRestoreIntent _ => Ok ()
  end.

(** The kernel's line for a running Firecracker with pid 7 started at 9. *)
Definition sample_stat : ProcStat :=
  Stat (stat_line 7 "firecracker" "S" (replicate 18 "0") 9 []).
