(* ===== verification/Process.v ===== *)
(** * Process: ending a room's Firecracker ([firecracker.rs])

    The two ways a process is signalled: by the guard that owns the child, and
    by [rooms kill] and the snapshot driver, which know only a pid that may have
    been recycled and so check the process's identity before every signal. *)

From S2P Require Import Prelude RStr Fs Room Host Prog Sys.
From stdpp Require Import options.

(** [send_signal]; the outcome of [kill] is ignored. *)
Definition send_signal (pid : N) (signal : string) : sys unit :=
  let* _ := call (ORun "kill" ["-" +:+ signal; show_N pid]) in Ret ().

(** [kill -0]: whether the process exists. *)
Definition kill_0 (pid : N) : sys bool :=
  let* out := call (ORun "kill" ["-0"; show_N pid]) in
  Ret (match out with Ok o => success o | Err _ => false end).

(** The poll of [kill_child_gracefully]: [true] when the child was seen gone. *)
Fixpoint poll_child (fuel : nat) (pid deadline : N) : sys bool :=
  match fuel with
  | 0 => Spin
  | S fuel =>
      let* now := call ONow in
      if (now <? deadline)%N then
        let* alive := kill_0 pid in
        if alive : bool then do* call (OSleep 100) in poll_child fuel pid deadline else Ret true
      else Ret false
  end.

Definition kill_child_gracefully (fuel : nat) (pid : option N) (grace : N) : sys unit :=
  match pid with
  | None => Ret ()
  | Some pid =>
      do* call (ORun "kill" ["-TERM"; show_N pid]) in
      let* now := call ONow in
      let deadline := (now + N.min grace 5000)%N in
      let* gone := poll_child fuel pid deadline in
      if gone : bool then Ret () else
      let* alive := kill_0 pid in
      if alive : bool then do* call (ORun "kill" ["-KILL"; show_N pid]) in Ret () else Ret ()
  end.

Inductive KillSignalOutcome := Signaled | AlreadyExited | Survived | Indeterminate.

#[export] Instance KillSignalOutcome_eq_dec : EqDecision KillSignalOutcome.
Proof. solve_decision. Defined.

Fixpoint poll_until_dead (fuel : nat) (pid : N) (starttime : option N) (deadline : N) : sys Liveness :=
  match fuel with
  | 0 => Spin
  | S fuel =>
      let* live := room_probe (Some pid) starttime in
      if decide (live = Dead) then Ret live else
      let* now := call ONow in
      if (deadline <=? now)%N then Ret live else
      do* call (OSleep 50) in poll_until_dead fuel pid starttime deadline
  end.

Definition sigkill_and_confirm (fuel : nat) (pid : N) (starttime : option N) : sys KillSignalOutcome :=
  let* live := room_probe (Some pid) starttime in
  match live with
  | Dead => Ret Signaled
  | Unknown => Ret Indeterminate
  | Alive =>
      do* send_signal pid "KILL" in
      let* now := call ONow in
      let* live := poll_until_dead fuel pid starttime (now + 1000) in
      Ret (match live with Dead => Signaled | Alive => Survived | Unknown => Indeterminate end)
  end.

Definition terminate_by_identity (fuel : nat) (pid : N) (starttime : option N) (grace : N) : sys KillSignalOutcome :=
  let* live := room_probe (Some pid) starttime in
  match live with
  | Dead => Ret AlreadyExited
  | Unknown => Ret Indeterminate
  | Alive =>
      do* send_signal pid "TERM" in
      let grace := N.min grace 5000 in
      let* now := call ONow in
      let* live := poll_until_dead fuel pid starttime (now + grace) in
      match live with
      | Dead => Ret Signaled
      | Unknown => Ret Indeterminate
      | Alive => sigkill_and_confirm fuel pid starttime
      end
  end.

(** ** Signals are sent only to the verified process *)

(** The signals of a history, oldest first. *)
Definition kill_args (e : sys_event) : option (list string) :=
  match ev_op e with ORun program args => if (program =? "kill")%string then Some args else None | _ => None end.

Definition kills (h : list sys_event) : list (list string) := omap kill_args h.

Lemma kills_app h h' : kills (h ++ h') = kills h ++ kills h'.
Proof. apply omap_app. Qed.

(** The last call observed the process with this verdict. *)
Definition observed (pid : N) (starttime : option N) (live : Liveness) (h : list sys_event) : Prop :=
  ∃ h0 stat, h = h0 ++ [Event (OProcStat pid) stat] ∧ probe_pid (λ _, stat) pid starttime = live.

Lemma observed_snoc pid st stat h :
  observed pid st (probe_pid (λ _, stat) pid st) (h ++ [Event (OProcStat pid) stat]).
Proof. by exists h, stat. Qed.

Lemma observed_app pid st live h h' : observed pid st live h' → observed pid st live (h ++ h').
Proof. intros (h0 & stat & -> & Hp). exists (h ++ h0), stat. by rewrite (assoc_L (++)). Qed.

Definition signal_args (pid : N) (signal : string) : list string := ["-" +:+ signal; show_N pid].

(** What an outcome says of the calls made. *)
Definition outcome_ok (pid : N) (starttime : option N) (o : KillSignalOutcome) (h : list sys_event) : Prop :=
  match o with
  | Signaled => observed pid starttime Dead h ∧ kills h ≠ []
  | AlreadyExited => observed pid starttime Dead h ∧ kills h = []
  | Survived => kills h = [signal_args pid "TERM"; signal_args pid "KILL"]
  | Indeterminate => True
  end.

Section signals.
  Context (R : list sys_event → sysop → Prop) (pid : N) (st : option N).
  Hypothesis R_probe : ∀ h, R h (OProcStat pid).
  Hypothesis R_now : ∀ h, R h ONow.
  Hypothesis R_sleep : ∀ h d, R h (OSleep d).

(** Polling sends nothing; [Dead] is what its last call observed. *)
Lemma spec_poll_until_dead fuel deadline h Q :
  (∀ live h', kills h' = [] → (live = Dead → observed pid st Dead h') → Q live (h ++ h')) →
  spec R (poll_until_dead fuel pid st deadline) h Q.
Proof using R_probe R_now R_sleep.
  revert h. induction fuel as [|fuel IH]; intros h HQ; [done|]. cbn [poll_until_dead].
  apply spec_bind, room_probe_spec; [done|]. intros stat. case_decide as Hd.
  { apply spec_ret, HQ; [done|]. intros _. rewrite <- Hd. by exists [], stat. }
  apply spec_bind, spec_call; [done|]. intros now. destruct (deadline <=? now)%N.
  { apply spec_ret. rewrite <- (assoc_L (++)). by apply HQ. }
  apply spec_bind, spec_call; [done|]. intros []. apply IH. intros live h' Hk Ho.
  rewrite <- !(assoc_L (++)). apply HQ; [done|]. intros Hl. do 3 apply observed_app. by apply Ho.
Qed.

(** One signal, sent to a process just observed alive, and the wait after it. *)
Lemma spec_signal_and_poll {A : Type} signal fuel grace (k : Liveness → sys A) h Q :
  R h (ORun "kill" (signal_args pid signal)) →
  (∀ live h', kills h' = [signal_args pid signal] → (live = Dead → observed pid st Dead h') →
     spec R (k live) (h ++ h') Q) →
  spec R (do* send_signal pid signal in let* now := call ONow in
          let* live := poll_until_dead fuel pid st (now + grace) in k live) h Q.
Proof using R_probe R_now R_sleep.
  intros Hkill Hk. apply spec_bind, spec_bind, spec_call; [done|]. intros out. apply spec_ret.
  apply spec_bind, spec_call; [done|]. intros now. apply spec_bind, spec_poll_until_dead.
  intros live h' Hk' Ho. rewrite <- !(assoc_L (++)). apply Hk.
  - rewrite !kills_app, Hk'. done.
  - intros Hl. do 2 apply observed_app. by apply Ho.
Qed.

Lemma spec_terminate fuel grace h Q :
  (∀ h' stat signal, probe_pid (λ _, stat) pid st = Alive →
     (signal = "TERM" ∧ kills h' = [] ∨ signal = "KILL" ∧ kills h' = [signal_args pid "TERM"]) →
     R (h ++ h' ++ [Event (OProcStat pid) stat]) (ORun "kill" (signal_args pid signal))) →
  (∀ o h', outcome_ok pid st o h' → Q o (h ++ h')) →
  spec R (terminate_by_identity fuel pid st grace) h Q.
Proof using R_probe R_now R_sleep.
  intros Hkill HQ. unfold terminate_by_identity.
  apply spec_bind, room_probe_spec; [done|]. intros stat.
  destruct (probe_pid _ pid st) eqn:Hlive.
  2:{ apply spec_ret, HQ. split; [|done]. by exists [], stat. }
  2:{ by apply spec_ret, HQ. }
  apply spec_signal_and_poll; [by apply (Hkill []); auto|]. intros live h1 Hk1 Ho1.
  rewrite <- !(assoc_L (++)). destruct live.
  2:{ apply spec_ret, HQ. split; [by apply observed_app, Ho1|]. by rewrite kills_app, Hk1. }
  2:{ by apply spec_ret, HQ. }
  unfold sigkill_and_confirm. apply spec_bind, room_probe_spec; [done|]. intros stat'.
  rewrite <- !(assoc_L (++)). destruct (probe_pid (λ _, stat') pid st) eqn:Hlive'.
  2:{ apply spec_ret, HQ. split; [do 2 apply observed_app; by exists [], stat'|]. by rewrite !kills_app, Hk1. }
  2:{ by apply spec_ret, HQ. }
  apply spec_signal_and_poll.
  { rewrite (assoc_L (++) _ h1). apply Hkill; [done|]. right. by rewrite kills_app, Hk1. }
  intros live h2 Hk2 Ho2. apply spec_ret. rewrite <- !(assoc_L (++)). apply HQ. destruct live; [|split|done].
  - unfold outcome_ok. by rewrite !kills_app, Hk1, Hk2.
  - do 3 apply observed_app. by apply Ho2.
  - by rewrite !kills_app, Hk1, Hk2.
Qed.

End signals.

(** What the termination of a process may call: look at it, wait, and signal it
    directly after it was seen alive with the recorded start time; first the
    polite signal, then, once, the other. *)
Definition may_call (pid : N) (st : option N) (h : list sys_event) (op : sysop) : Prop :=
  match op with
  | OProcStat p => p = pid
  | ONow | OSleep _ => True
  | ORun program args =>
      program = "kill" ∧ observed pid st Alive h ∧
      (args = signal_args pid "TERM" ∧ kills h = [] ∨
       args = signal_args pid "KILL" ∧ kills h = [signal_args pid "TERM"])
  | _ => False
  end.

(** Whatever the host answers and wherever the caller dies, a process is
    signalled only directly after it was seen alive under its recorded start
    time, with SIGTERM first and SIGKILL at most once after it.  Success means
    that the last look found the process dead; "already exited" that nothing was
    signalled; "survived" that both signals were sent. *)
Theorem terminate_verified fuel pid st grace tr o :
  run (terminate_by_identity fuel pid st grace) tr o →
  guarded (may_call pid st) tr ∧ ∀ out, o = Some out → outcome_ok pid st out tr.
Proof.
  apply spec_run. apply spec_terminate; try done.
  intros h' stat signal Hlive Hsig. split; [done|]. split; [by exists h', stat|].
  simpl. rewrite kills_app. simpl. rewrite (right_id_L [] (++)). by destruct Hsig as [[-> ?]|[-> ?]]; auto.
Qed.

(** A host whose process 7 dies of SIGTERM. *)
Definition obedient_host (h : list sys_event) (op : sysop) : ans op :=
  match op return ans op with
  | OProcStat _ => if bool_decide (kills h = []) then sample_stat else StatNotFound
  | op => idle_host h op
  end.

Lemma terminate_verified_witness :
  let p := terminate_by_identity 101 7 (Some 9%N) 5000 in
  fst (exec obedient_host p []) = Some Signaled ∧
  observed 7 (Some 9%N) Dead (snd (exec obedient_host p [])).
Proof.
  intros p. assert (E : fst (exec obedient_host p []) = Some Signaled) by (vm_compute; reflexivity).
  split; [done|]. pose proof (exec_run_nil obedient_host p) as Hrun. rewrite E in Hrun.
  destruct (terminate_verified 101 7 (Some 9%N) 5000 _ _ Hrun) as [_ H].
  destruct (H Signaled eq_refl) as [Ho _]. exact Ho.
Defined.

(** ** The waits end *)

(** The time known after a call: the clock does not go back, and sleeping takes
    at least as long as asked. *)
Definition time_after (lo : N) (e : sys_event) : option N :=
  match e with
  | Event op x =>
      match op return ans op → option N with
      | ONow => λ now, if (lo <=? now)%N then Some now else None
      | OSleep ms => λ _, Some (lo + ms)%N
      | _ => λ _, Some lo
      end x
  end.

Fixpoint clock_ok (lo : N) (tr : list sys_event) : Prop :=
  match tr with
  | [] => True
  | e :: tr => match time_after lo e with Some lo => clock_ok lo tr | None => False end
  end.

(** A look at the process: its [stat], or the signal that only asks. *)
Definition looks_at (op : sysop) : bool :=
  match op with
  | OProcStat _ => true
  | ORun program args => (program =? "kill")%string && bool_decide (head args = Some "-0")
  | _ => false
  end.

Fixpoint look_count (tr : list sys_event) : nat :=
  match tr with [] => 0 | e :: tr => (if looks_at (ev_op e) then 1 else 0) + look_count tr end.

(** Started at time [lo], the program returns after at most [n] looks, and then [Q]
    holds of the time known and the looks left. *)
Fixpoint halts {A : Type} (p : sys A) (lo : N) (n : nat) (Q : A → N → nat → Prop) : Prop :=
  match p with
  | Ret a => Q a lo n
  | Vis op k => ∀ x, match time_after lo (Event op x) with
                     | Some lo => if looks_at op then 1 ≤ n ∧ halts (k x) lo (n - 1) Q else halts (k x) lo n Q
                     | None => True
                     end
  | Spin => False
  end.

Lemma halts_bind {A B : Type} (p : sys A) (k : A → sys B) lo n Q :
  halts p lo n (λ a lo n, halts (k a) lo n Q) → halts (pbind p k) lo n Q.
Proof.
  revert lo n. induction p as [a|op j IH|]; intros lo n; cbn [halts pbind]; [done| |done].
  intros Hj x. specialize (Hj x). destruct (time_after lo (Event op x)); [|done].
  destruct (looks_at op); [split; [apply Hj|]|]; by apply IH, Hj.
Qed.

Lemma halts_mono {A : Type} (p : sys A) lo n (Q Q' : A → N → nat → Prop) :
  halts p lo n Q → (∀ a lo n, Q a lo n → Q' a lo n) → halts p lo n Q'.
Proof.
  intros Hp HQ. revert lo n Hp. induction p as [a|op j IH|]; intros lo n; cbn [halts]; [auto| |done].
  intros Hj x. specialize (Hj x). destruct (time_after lo (Event op x)); [|done].
  destruct (looks_at op); [split; [apply Hj|]|]; by apply IH, Hj.
Qed.

(** On a clock that does not go back and whose sleeps last, the program does not
    loop for ever, and looks at most [n] times. *)
Definition ends_within {A : Type} (p : sys A) (lo : N) (n : nat) : Prop :=
  ∀ tr, clock_ok lo tr → ¬ spins p tr ∧ ∀ o, run p tr o → look_count tr ≤ n.

Lemma halts_ends {A : Type} (p : sys A) lo n Q : halts p lo n Q → ends_within p lo n.
Proof.
  revert lo n. induction p as [a|op j IH|]; intros lo n Hp tr Hc; cbn [halts spins run] in *; [| |done].
  - split; [intros []|]. intros o [-> _]. cbn. lia.
  - assert (Hstep : ∀ x tr', tr = Event op x :: tr' → ¬ spins (j x) tr' ∧ ∀ o, run (j x) tr' o → look_count tr ≤ n).
    { intros x tr' ->. cbn [clock_ok look_count ev_op] in *. specialize (Hp x). destruct (time_after lo (Event op x)) as [lo'|]; [|done].
      destruct (looks_at op); [destruct Hp as [Hn Hp]|]; destruct (IH x _ _ Hp tr' Hc) as [Hs Hl]; (split; [done|]);
        intros o Hr%Hl; lia. }
    split; [intros (x & tr' & -> & Hs); by apply (Hstep x tr')|].
    intros o [[-> _]|(x & tr' & -> & Hr)]; [cbn; lia|by eapply Hstep].
Qed.

(** A poll with deadline at most [50 n] after now takes at most [n + 1] looks. *)
Lemma halts_poll n pid st deadline lo m :
  (deadline ≤ lo + 50 * N.of_nat n)%N →
  ∀ fuel, n < fuel → halts (poll_until_dead fuel pid st deadline) lo (S n + m) (λ _ _ k, m ≤ k).
Proof.
  revert lo. induction n as [|n IH]; intros lo Hd fuel Hf; (destruct fuel as [|fuel]; [lia|]);
    cbn [poll_until_dead]; apply halts_bind; simpl; intros stat; (split; [lia|]); (case_decide; [simpl; lia|]); intros now; simpl;
    (destruct (N.leb_spec lo now); [|done]); (destruct (N.leb_spec deadline now); [simpl; lia|]).
  - lia.
  - simpl. intros []. replace (S (n + m) - 0) with (S n + m) by lia. apply IH; lia.
Qed.

(** A poll of the guard, at most [n] looks. *)
Lemma halts_poll_child n pid deadline lo m :
  (deadline ≤ lo + 100 * N.of_nat n)%N →
  ∀ fuel, n < fuel → halts (poll_child fuel pid deadline) lo (n + m) (λ _ _ k, m ≤ k).
Proof.
  revert lo. induction n as [|n IH]; intros lo Hd fuel Hf; (destruct fuel as [|fuel]; [lia|]);
    cbn [poll_child]; simpl; intros now; simpl; (destruct (N.leb_spec lo now); [|done]);
    (destruct (N.ltb_spec now deadline); [|simpl; lia]).
  - lia.
  - simpl. intros out. split; [lia|]. replace (n + m - 0) with (n + m) by lia.
    destruct out as [o|e]; [destruct (success o)|]; simpl; try lia. intros []. apply IH; lia.
Qed.

(** Rounds of [step] milliseconds in the grace, which is at most five seconds. *)
Definition rounds_of (step grace : N) : nat := N.to_nat ((N.min grace 5000 + (step - 1)) / step).

Lemma rounds_enough step grace : (0 < step)%N → (N.min grace 5000 ≤ step * N.of_nat (rounds_of step grace))%N.
Proof.
  intros Hs. unfold rounds_of. rewrite N2Nat.id.
  pose proof (N.div_mod' (N.min grace 5000 + (step - 1)) step). pose proof (N.mod_lt (N.min grace 5000 + (step - 1)) step). lia.
Qed.

Lemma rounds_bound step grace : (0 < step)%N → rounds_of step grace ≤ N.to_nat ((5000 + (step - 1)) / step).
Proof.
  intros Hs. unfold rounds_of. enough ((N.min grace 5000 + (step - 1)) / step ≤ (5000 + (step - 1)) / step)%N by lia.
  apply N.Div0.div_le_mono. lia.
Qed.

(** C28.  Ending a process takes bounded time, whatever the process does.  On a clock
    that does not go back and whose sleeps last, neither termination loops on, and
    each looks at the process a bounded number of times: the identity-checked one
    once for every 50 ms of the grace it was given, of which at most five seconds
    count, and 24 times more for its first look and the second round after SIGKILL,
    so at most 124 times; the guard's once for every 100 ms and once more, so at
    most 51 times. *)
Theorem termination_returns fuel pid st child grace lo :
  101 ≤ fuel →
  ends_within (terminate_by_identity fuel pid st grace) lo (rounds_of 50 grace + 24) ∧
  ends_within (kill_child_gracefully fuel child grace) lo (rounds_of 100 grace + 1) ∧
  rounds_of 50 grace + 24 ≤ 124 ∧ rounds_of 100 grace + 1 ≤ 51.
Proof.
  intros Hf. assert (H50 : rounds_of 50 grace ≤ 100) by exact (rounds_bound 50 grace eq_refl).
  assert (H100 : rounds_of 100 grace ≤ 50) by exact (rounds_bound 100 grace eq_refl).
  pose proof (rounds_enough 50 grace eq_refl). pose proof (rounds_enough 100 grace eq_refl).
  set (n := rounds_of 50 grace) in *. set (c := rounds_of 100 grace) in *.
  split; [|split; [|lia]]; apply (halts_ends _ _ _ (λ _ _ _, True)).
  - unfold terminate_by_identity. apply halts_bind. simpl. intros stat. split; [lia|].
    destruct (probe_pid (λ _, stat) pid st); simpl; [|done..]. intros _ now. simpl.
    destruct (N.leb_spec lo now); [|done]. replace (n + 24 - 1) with (S n + 22) by lia.
    apply halts_bind. eapply halts_mono; [apply halts_poll; lia|].
    intros live lo1 k Hk. destruct live; [|done..]. unfold sigkill_and_confirm. apply halts_bind. simpl. intros stat'.
    split; [lia|]. destruct (probe_pid (λ _, stat') pid st); simpl; [|done..]. intros _ now'. simpl.
    destruct (N.leb_spec lo1 now'); [|done]. replace (k - 1) with (S 20 + (k - 22)) by lia.
    apply halts_bind. eapply halts_mono; [apply halts_poll; lia|]. done.
  - destruct child as [child|]; [|done]. simpl. intros _ now. simpl.
    destruct (N.leb_spec lo now); [|done]. apply halts_bind. eapply halts_mono; [apply halts_poll_child; lia|].
    intros gone lo1 k Hk. destruct gone; [done|]. simpl. intros out. split; [lia|].
    by destruct out as [o|e]; [destruct (success o)|].
Qed.

(** The time a host keeps: it stands still but for the sleeps. *)
Definition slept (h : list sys_event) : N :=
  foldr N.add 0%N (omap (λ e, match ev_op e with OSleep ms => Some ms | _ => None end) h).

(** A host whose process 7 does not die. *)
Definition stubborn_host (h : list sys_event) (op : sysop) : ans op :=
  match op return ans op with
  | OProcStat _ => sample_stat
  | ONow => slept h
  | op => idle_host h op
  end.

(** Every look is taken, and no more. *)
Lemma termination_returns_witness :
  let p := terminate_by_identity 101 7 (Some 9%N) 60000 in
  let q := kill_child_gracefully 101 (Some 7%N) 60000 in
  fst (exec stubborn_host p []) = Some Survived ∧ look_count (snd (exec stubborn_host p [])) = 124 ∧
  fst (exec stubborn_host q []) = Some () ∧ look_count (snd (exec stubborn_host q [])) = 51 ∧
  ends_within p 0 124 ∧ ends_within q 0 51.
Proof.
  intros p q. do 4 (split; [vm_compute; reflexivity|]).
  destruct (termination_returns 101 7 (Some 9%N) (Some 7%N) 60000 0 (le_n 101)) as (Hp & Hq & _). by split.
Defined.
