(* ===== verification/Teardown.v ===== *)
(** * Teardown: reaping a room ([firecracker.rs])

    The room guard and its cleanup, the orphan reap of [rooms gc], the two reaps
    that leave the slot alone, and the network cleanup under a slot's lock.
    Logging is left out.  A guard is a value; the [Drop] of a guard is the
    program [guard_drop]. *)

From S2P Require Import Prelude RStr Fs Room IndexedClaim Slot Host CloneRoutes Config Snapshot Intents Prog Sys Process.
From stdpp Require Import options.

(** ** Taps *)

Definition pool_tap_index (tap : string) : option N :=
  suffix ← strip_prefix "tap-fc" tap;
  index ← parse_uint u8_max suffix;
  if (index =? 0)%N || (MAX_SLOT <? index)%N || negb (suffix =? show_N index)%string then None else Some index.

Definition already_gone (stderr : string) : bool :=
  contains stderr "does not exist" || contains stderr "Cannot find device".

Definition delete_tap_checked (tap : string) : sys (result FirecrackerError unit) :=
  try* probe := pmap_err FcIo (call (ORun "ip" ["link"; "show"; "dev"; tap])) in
  if negb (success probe) then
    if already_gone (stderr probe) then Ret (Ok ())
    else Ret (Err (FcInternal ("inspect TAP " +:+ tap +:+ ": " +:+ trim (stderr probe))))
  else
    try* delete := pmap_err FcIo (call (ORun "ip" ["tuntap"; "del"; "dev"; tap; "mode"; "tap"])) in
    if success delete then Ret (Ok ()) else
    if already_gone (stderr delete) then Ret (Ok ())
    else Ret (Err (FcInternal ("delete TAP " +:+ tap +:+ ": " +:+ trim (stderr delete)))).

Definition remove_egress_and_tap (tap : string) : sys (result FirecrackerError unit) :=
  try* _ := pmap_err FcInternal (call (OEgressRemove tap)) in
  delete_tap_checked tap.

(** ** Releasing a slot with its network *)

(** [slot::free_with_cleanup]: the exact claim is read under the pool's lock, the
    cleanup runs under the same lock, and only then is the claim removed. *)
Definition slot_free_with_cleanup (base : path) (index : N) (room_id : string)
    (cleanup : sys (result string unit)) : sys (result SlotError Slot.Freed) :=
  try* matched := call (OSlotMatch base index room_id) in
  match matched with
  | Some freed => Ret (Ok freed)
  | None =>
      try* _ := pmap_err SeCleanup cleanup in
      call (OSlotUnlink base index)
  end.

(** [slot::cleanup_if_unclaimed]. *)
Definition slot_cleanup_if_unclaimed (base : path) (index : N) (cleanup : sys (result string unit))
    : sys (result SlotError bool) :=
  try* unclaimed := call (OSlotUnclaimed base index) in
  if unclaimed : bool then try* _ := pmap_err SeCleanup cleanup in Ret (Ok true)
  else Ret (Ok false).

Record SlotRelease := { sl_state_base : path; sl_index : N; sl_tap : string; sl_room_id : string }.

(** [ReleasePlan] has one variant, [SlotBound]. *)
Definition ReleasePlan : Type := SlotRelease.

Definition plan_release (tap : option string) (tap_owned : bool) (slot : option SlotRelease) : option ReleasePlan :=
  match slot with
  | None => None
  | Some slot =>
      if negb tap_owned || negb (bool_decide ((tap ≫= pool_tap_index) = Some (sl_index slot))) then None else
      tap ← tap;
      Some {| sl_state_base := sl_state_base slot; sl_index := sl_index slot; sl_tap := tap;
              sl_room_id := sl_room_id slot |}
  end.

(** ** The guard *)

Record RoomGuard := {
  g_room_dir : path;
  g_socket : path;
  g_child_pid : option N;
  g_tap_name : option string;
  g_tap_owned : bool;
  g_slot_release : option SlotRelease;
  g_suppress_cleanup : bool;
  g_dismiss : bool;
  g_cleanup_grace : N;
  g_jail_instance_dir : option path
}.

Definition guard_new (room_dir socket : path) (config : RoomsConfig) : RoomGuard :=
  {| g_room_dir := room_dir; g_socket := socket; g_child_pid := None; g_tap_name := None; g_tap_owned := false;
     g_slot_release := None; g_suppress_cleanup := false; g_dismiss := false;
     g_cleanup_grace := cleanup_grace config; g_jail_instance_dir := None |}.

Definition set_jail_instance_dir (p : path) (g : RoomGuard) : RoomGuard :=
  {| g_room_dir := g_room_dir g; g_socket := g_socket g; g_child_pid := g_child_pid g;
     g_tap_name := g_tap_name g; g_tap_owned := g_tap_owned g; g_slot_release := g_slot_release g;
     g_suppress_cleanup := g_suppress_cleanup g; g_dismiss := g_dismiss g;
     g_cleanup_grace := g_cleanup_grace g; g_jail_instance_dir := Some p |}.

Definition for_orphan (room_dir socket jail_instance_dir : path) (config : RoomsConfig) : RoomGuard :=
  set_jail_instance_dir jail_instance_dir (guard_new room_dir socket config).

Definition set_slot (release : SlotRelease) (g : RoomGuard) : RoomGuard :=
  {| g_room_dir := g_room_dir g; g_socket := g_socket g; g_child_pid := g_child_pid g;
     g_tap_name := Some (sl_tap release); g_tap_owned := true; g_slot_release := Some release;
     g_suppress_cleanup := g_suppress_cleanup g; g_dismiss := g_dismiss g;
     g_cleanup_grace := g_cleanup_grace g; g_jail_instance_dir := g_jail_instance_dir g |}.

Definition guard_dismiss (g : RoomGuard) : RoomGuard :=
  {| g_room_dir := g_room_dir g; g_socket := g_socket g; g_child_pid := g_child_pid g;
     g_tap_name := g_tap_name g; g_tap_owned := g_tap_owned g; g_slot_release := g_slot_release g;
     g_suppress_cleanup := g_suppress_cleanup g; g_dismiss := true;
     g_cleanup_grace := g_cleanup_grace g; g_jail_instance_dir := g_jail_instance_dir g |}.

(** The outcome of the release is only logged. *)
Definition release_network_with (g : RoomGuard) (cleanup : string → sys (result FirecrackerError unit)) : sys unit :=
  match plan_release (g_tap_name g) (g_tap_owned g) (g_slot_release g) with
  | None => Ret ()
  | Some plan =>
      let* _ := slot_free_with_cleanup (sl_state_base plan) (sl_index plan) (sl_room_id plan)
                  (pmap_err fc_message (cleanup (sl_tap plan))) in
      Ret ()
  end.

Definition release_network (g : RoomGuard) : sys unit := release_network_with g remove_egress_and_tap.

(** ** The jail *)

Definition JAIL_KERNEL : string := "kernel".
Definition JAIL_ROOTFS : string := "rootfs".
Definition JAIL_TOOLSTORE : string := "toolstore.sqfs".
Definition UNMOUNT_RETRIES : nat := 5.
Definition UNMOUNT_RETRY_DELAY : N := 100.

Section teardown.
  (** The text of a path on a command line. *)
  Variable show_path : path → string.
  (** Rounds a poll of the child may take. *)
  Variable fuel : nat.

Definition unmount (target : path) : sys (result string unit) :=
  try* output := pmap_err message (call (ORun "umount" [show_path target])) in
  if success output then Ret (Ok ()) else Ret (Err (trim (stderr output))).

(** [tries] retries are left. *)
Fixpoint unmount_retry (tries : nat) (target : path) : sys (result string unit) :=
  let* result := unmount target in
  match result with
  | Ok _ => Ret result
  | Err reason =>
      match tries with
      | 0 => Ret result
      | S tries =>
          if negb (contains reason "busy") then Ret result
          else do* call (OSleep UNMOUNT_RETRY_DELAY) in unmount_retry tries target
      end
  end.

Definition unmount_settled (target : path) : sys (result string unit) := unmount_retry UNMOUNT_RETRIES target.

(** One turn of the loop over the jail's binds. *)
Definition unmount_bind (jail_root : path) (name : string) : sys unit :=
  let target := path_join jail_root name in
  let* here := call (OExists target) in
  if here : bool then do* unmount_settled target in Ret () else Ret ().

Definition teardown_jail_sync (instance_dir : path) : sys bool :=
  let jail_root := path_join instance_dir "root" in
  do* pfor_each (unmount_bind jail_root) [JAIL_KERNEL; JAIL_ROOTFS; SNAPSHOT_MEM_FILE; JAIL_TOOLSTORE] in
  do* call (ORemoveDirAll instance_dir) in
  let* here := call (OExists instance_dir) in
  Ret (negb here).

(** [cleanup_sync]; what it leaves in the guard is not read again. *)
Definition cleanup_sync (g : RoomGuard) : sys unit :=
  if g_suppress_cleanup g then Ret () else
  do* kill_child_gracefully fuel (g_child_pid g) (g_cleanup_grace g) in
  let* socket := call (OExists (g_socket g)) in
  do* (if socket : bool then do* call (ORemoveFile (g_socket g)) in Ret () else Ret ()) in
  let* jail_torn_down := match g_jail_instance_dir g with
                         | Some jail_dir => teardown_jail_sync jail_dir
                         | None => Ret true
                         end in
  if negb jail_torn_down then Ret () else
  let* removed := call (ORemoveDirAll (g_room_dir g)) in
  match removed with
  | Ok _ => release_network g
  | Err e => if decide (kind e = NotFound) then release_network g else Ret ()
  end.

Definition guard_cleanup (g : RoomGuard) : sys unit :=
  if g_suppress_cleanup g || g_dismiss g then Ret () else cleanup_sync g.

Definition guard_drop (g : RoomGuard) : sys unit :=
  if g_dismiss g || g_suppress_cleanup g then Ret () else cleanup_sync g.

(** ** Reaps *)

Definition reap_orphan (config : RoomsConfig) (room_dir jail_instance_dir socket : path) (slot : option SlotRelease)
    : sys (result FirecrackerError unit) :=
  let guard := for_orphan room_dir socket jail_instance_dir config in
  let guard := match slot with Some release => set_slot release guard | None => guard end in
  do* guard_cleanup guard in
  let guard := guard_dismiss guard in
  let* checked := (
    let* jail := call (OExists jail_instance_dir) in
    if jail : bool then Ret (Err (FcInternal ("jail instance dir survived reap (stranded mount?): " +:+ show_path jail_instance_dir))) else
    let* room := call (OExists room_dir) in
    if room : bool then Ret (Err (FcInternal ("room dir survived reap: " +:+ show_path room_dir))) else
    match slot with
    | None => Ret (Ok ())
    | Some s =>
        let index := show_N (sl_index s) in
        try* retained := pmap_err (λ e, FcInternal ("inspect slot " +:+ index +:+ " after orphan reap for " +:+
                                                    sl_room_id s +:+ ": " +:+ show_SlotError e))
          (call (OSlotClaimedBy (sl_state_base s) (sl_index s) (sl_room_id s))) in
        if retained : bool then
          Ret (Err (FcInternal ("slot " +:+ index +:+ " survived orphan reap for " +:+ sl_room_id s +:+
                                "; checked network cleanup will retry")))
        else Ret (Ok ())
    end) in
  do* guard_drop guard in
  Ret checked.

Definition reap_room_only (config : RoomsConfig) (room_dir jail_instance_dir socket : path)
    : sys (result FirecrackerError unit) :=
  let guard := for_orphan room_dir socket jail_instance_dir config in
  do* guard_cleanup guard in
  let guard := guard_dismiss guard in
  let* checked := (
    let* jail := call (OExists jail_instance_dir) in
    if jail : bool then Ret (Err (FcInternal "room directories survived reap")) else
    let* room := call (OExists room_dir) in
    if room : bool then Ret (Err (FcInternal "room directories survived reap")) else Ret (Ok ())) in
  do* guard_drop guard in
  Ret checked.

Definition reap_reserved_base (config : RoomsConfig) (room_dir jail_instance_dir socket : path) (tap : string)
    : sys (result FirecrackerError unit) :=
  try* _ := reap_room_only config room_dir jail_instance_dir socket in
  remove_egress_and_tap tap.

End teardown.

(** ** The calls of a teardown *)

(** A command that makes a tap. *)
Definition adds_tap (program : string) (args : list string) : bool :=
  (program =? "ip")%string &&
  match args with
  | verb :: action :: rest =>
      (verb =? "tuntap")%string && (action =? "add")%string ||
      (verb =? "netns")%string && (action =? "exec")%string &&
      match rest with
      | _ :: program :: verb :: action :: _ =>
          (program =? "ip")%string && (verb =? "tuntap")%string && (action =? "add")%string
      | _ => false
      end
  | _ => false
  end.

Definition teardown_op (op : sysop) : Prop :=
  match op with
  | ORun program args => adds_tap program args = false
  | ONow | OSleep _ | OExists _ | ORemoveFile _ | ORemoveDirAll _ => True
  | OSlotMatch _ _ _ | OSlotUnlink _ _ | OSlotClaimedBy _ _ _ | OEgressRemove _ => True
  | _ => False
  end.

Section teardown_calls.
  Context (show_path : path → string) (fuel : nat).

Lemma only_kill_child pid grace : only teardown_op (kill_child_gracefully fuel pid grace).
Proof.
  unfold kill_child_gracefully, kill_0. destruct pid as [pid|]; only_walk.
  revert a0. generalize fuel as n. induction n as [|n IH]; intros a0; cbn [poll_child]; unfold kill_0; only_walk.
Qed.

Lemma only_unmount target : only teardown_op (unmount_settled show_path target).
Proof.
  unfold unmount_settled. generalize UNMOUNT_RETRIES as tries. intros tries.
  induction tries as [|tries IH]; cbn [unmount_retry]; unfold unmount; only_walk.
Qed.

Lemma only_teardown_jail dir : only teardown_op (teardown_jail_sync show_path dir).
Proof.
  unfold teardown_jail_sync. apply only_bind; [|intros _; only_walk]. apply only_for_each. intros name _.
  unfold unmount_bind. pose proof only_unmount. only_walk.
Qed.

Lemma only_remove_egress_and_tap tap : only teardown_op (remove_egress_and_tap tap).
Proof. unfold remove_egress_and_tap, delete_tap_checked. only_walk. Qed.

Lemma only_cleanup_sync g : only teardown_op (cleanup_sync show_path fuel g).
Proof.
  assert (Hrel : only teardown_op (release_network g)).
  { pose proof only_remove_egress_and_tap. unfold release_network, release_network_with, slot_free_with_cleanup. only_walk. }
  unfold cleanup_sync. destruct (g_suppress_cleanup g); [exact I|].
  apply only_bind; [apply only_kill_child|]. intros _. apply only_bind; [only_walk|]. intros socket.
  apply only_bind; [only_walk|]. intros _. apply only_bind; [destruct (g_jail_instance_dir g); [apply only_teardown_jail|exact I]|].
  intros torn. destruct torn; only_walk; apply Hrel.
Qed.

Lemma only_guard_cleanup g : only teardown_op (guard_cleanup show_path fuel g).
Proof. unfold guard_cleanup. destruct (_ || _); [exact I|apply only_cleanup_sync]. Qed.

Lemma only_guard_drop g : only teardown_op (guard_drop show_path fuel g).
Proof. unfold guard_drop. destruct (_ || _); [exact I|apply only_cleanup_sync]. Qed.

Lemma only_reap_room_only config room_dir jail socket :
  only teardown_op (reap_room_only show_path fuel config room_dir jail socket).
Proof.
  unfold reap_room_only. apply only_bind; [apply only_guard_cleanup|]. intros _.
  apply only_bind; [only_walk|]. intros r. apply only_bind; [apply only_guard_drop|]. intros _. exact I.
Qed.

Lemma only_reap_orphan config room_dir jail socket slot :
  only teardown_op (reap_orphan show_path fuel config room_dir jail socket slot).
Proof.
  unfold reap_orphan. apply only_bind; [apply only_guard_cleanup|]. intros _.
  apply only_bind; [only_walk|]. intros r. apply only_bind; [apply only_guard_drop|]. intros _. exact I.
Qed.

End teardown_calls.

(** ** What a reap may touch, and in which order *)

Section reap_order.
  Variable show_path : path → string.
  Variables (room_dir jail socket : path) (slot : option SlotRelease).

(** The calls that show a tap is gone. *)
Definition link_show (tap : string) : list string := ["link"; "show"; "dev"; tap].
Definition tuntap_del (tap : string) : list string := ["tuntap"; "del"; "dev"; tap; "mode"; "tap"].

Definition tap_gone (h : list sys_event) (tap : string) : Prop :=
  answered h (ORun "ip" (link_show tap)) (λ r, ∃ o, r = Ok o ∧ success o = false ∧ already_gone (stderr o) = true) ∨
  answered h (ORun "ip" (tuntap_del tap)) (λ r, ∃ o, r = Ok o ∧ (success o = true ∨ already_gone (stderr o) = true)).

(** The room's own directories are gone. *)
Definition dirs_gone (h : list sys_event) : Prop :=
  answered h (OExists jail) (λ here, here = false) ∧
  answered h (ORemoveDirAll room_dir) (λ r, r = Ok () ∨ ∃ e, r = Err e ∧ kind e = NotFound).

(** The slot's exact claim was read under the pool's lock, which is held. *)
Definition claim_held (h : list sys_event) (s : SlotRelease) : Prop :=
  answered h (OSlotMatch (sl_state_base s) (sl_index s) (sl_room_id s)) (λ r, r = Ok None) ∧
  pool_tap_index (sl_tap s) = Some (sl_index s) ∧ dirs_gone h.

Definition may_reap (h : list sys_event) (op : sysop) : Prop :=
  match op with
  | OExists _ | OSleep _ => True
  | ORun program args =>
      (program = "umount" ∧ ∃ name, name ∈ [JAIL_KERNEL; JAIL_ROOTFS; SNAPSHOT_MEM_FILE; JAIL_TOOLSTORE] ∧
         args = [show_path (path_join (path_join jail "root") name)]) ∨
      (program = "ip" ∧ ∃ s, slot = Some s ∧ claim_held h s ∧
         answered h (OEgressRemove (sl_tap s)) (λ r, r = Ok ()) ∧
         (args = link_show (sl_tap s) ∨ args = tuntap_del (sl_tap s)))
  | ORemoveFile p => p = socket
  | ORemoveDirAll p => p = jail ∨ p = room_dir ∧ answered h (OExists jail) (λ here, here = false)
  | OSlotMatch base index room_id =>
      ∃ s, slot = Some s ∧ base = sl_state_base s ∧ index = sl_index s ∧ room_id = sl_room_id s ∧ dirs_gone h
  | OEgressRemove tap => ∃ s, slot = Some s ∧ tap = sl_tap s ∧ claim_held h s
  | OSlotUnlink base index =>
      ∃ s, slot = Some s ∧ base = sl_state_base s ∧ index = sl_index s ∧ claim_held h s ∧
        answered h (OEgressRemove (sl_tap s)) (λ r, r = Ok ()) ∧ tap_gone h (sl_tap s)
  | OSlotClaimedBy base index room_id =>
      ∃ s, slot = Some s ∧ base = sl_state_base s ∧ index = sl_index s ∧ room_id = sl_room_id s
  | _ => False
  end.

Abbreviation R := may_reap.

Lemma claim_held_l h h' s : claim_held h s → claim_held (h ++ h') s.
Proof. intros (Hm & Ht & Hj & Hr). split; [|split; [done|split]]; auto with rooms. Qed.

Lemma spec_unmount tries name h Q :
  name ∈ [JAIL_KERNEL; JAIL_ROOTFS; SNAPSHOT_MEM_FILE; JAIL_TOOLSTORE] → (∀ r h', Q r h') →
  spec R (unmount_retry show_path tries (path_join (path_join jail "root") name)) h Q.
Proof.
  intros Hname HQ. revert h. induction tries as [|tries IH]; intros h; cbn [unmount_retry]; unfold unmount;
    (spec_call as r; [by left; split; [|by exists name]|]); (destruct r as [o|e]; simpl map_err; cbv iota).
  - destruct (success o); spec_down; apply HQ.
  - spec_down. apply HQ.
  - destruct (success o); spec_down; [apply HQ|]. destruct (negb _); spec_down; [apply HQ|].
    spec_call as []; [done|apply IH].
  - spec_down. destruct (negb _); spec_down; [apply HQ|]. spec_call as []; [done|apply IH].
Qed.

(** A torn-down jail was seen absent. *)
Lemma spec_teardown_jail h Q :
  (∀ b h', (b = true → answered h' (OExists jail) (λ here, here = false)) → Q b h') →
  spec R (teardown_jail_sync show_path jail) h Q.
Proof.
  intros HQ. unfold teardown_jail_sync. spec_down.
  eapply spec_mono; [apply (spec_for_each _ _ (λ _ _, True) _ _ []); [done|]|].
  { intros name ys h' Hname _. unfold unmount_bind. spec_call as here; [done|].
    destruct here; spec_down; [|done]. by apply spec_unmount. }
  intros _ h1 _. spec_call as r; [by left|]. spec_call as here; [done|]. apply HQ.
  intros Hb. apply answered_snoc. by destruct here.
Qed.

Lemma spec_delete_tap s h Q :
  slot = Some s → claim_held h s → answered h (OEgressRemove (sl_tap s)) (λ r, r = Ok ()) →
  (∀ r h', (r = Ok () → tap_gone (h ++ h') (sl_tap s)) → Q r (h ++ h')) →
  spec R (delete_tap_checked (sl_tap s)) h Q.
Proof.
  intros Hs Hc He HQ. unfold delete_tap_checked.
  spec_call as r. { right. split; [done|]. exists s. auto. }
  destruct r as [o|e]; simpl map_err; cbv iota; [|by apply HQ]. destruct (success o) eqn:Ho; cbn [negb].
  2:{ destruct (already_gone (stderr o)) eqn:Hg; spec_down; apply HQ; [|done]. intros _. left.
      apply answered_snoc. eauto. }
  spec_call as r. { right. split; [done|]. exists s. split; [done|]. split; [by apply claim_held_l|]. auto with rooms. }
  destruct r as [o'|e]; simpl map_err; cbv iota; rewrite <- (assoc_L (++)); [|by apply HQ].
  assert (Hgone : success o' = true ∨ already_gone (stderr o') = true →
     tap_gone (h ++ [Event (ORun "ip" (link_show (sl_tap s))) (Ok o)] ++
                    [Event (ORun "ip" (tuntap_del (sl_tap s))) (Ok o')]) (sl_tap s)).
  { intros H. right. rewrite (assoc_L (++)). apply answered_snoc. eauto. }
  destruct (success o') eqn:Ho'; spec_down; [apply HQ; auto|].
  destruct (already_gone (stderr o')) eqn:Hg; spec_down; apply HQ; auto. done.
Qed.

Lemma spec_release_network g s h Q :
  slot = Some s → g_slot_release g = Some s → g_tap_name g = Some (sl_tap s) → dirs_gone h →
  (∀ h', Q () (h ++ h')) → spec R (release_network g) h Q.
Proof.
  intros Hs Hg Hn Hd HQ. unfold release_network, release_network_with, plan_release. rewrite Hg, Hn. cbn [mbind option_bind].
  destruct (negb (g_tap_owned g) || _) eqn:Hown.
  { apply spec_ret. rewrite <- (right_id_L [] (++) h). apply HQ. }
  assert (Htap : pool_tap_index (sl_tap s) = Some (sl_index s)) by (apply orb_false_iff in Hown as [_ H]; by boolify).
  unfold slot_free_with_cleanup, remove_egress_and_tap. simpl sl_state_base. simpl sl_index. simpl sl_room_id. simpl sl_tap.
  spec_call as m. { exists s. auto. }
  destruct m as [[freed|]|e]; spec_down; [apply HQ| |apply HQ].
  assert (Hc : claim_held (h ++ [Event (OSlotMatch (sl_state_base s) (sl_index s) (sl_room_id s)) (Ok None)]) s).
  { split; [by apply answered_snoc|]. split; [done|]. split; apply answered_l; apply Hd. }
  spec_call as r. { exists s. auto. }
  destruct r as [[]|e]; simpl map_err; cbv iota; [|rewrite <- !(assoc_L (++)); apply HQ].
  apply (spec_delete_tap s); [done|by apply claim_held_l|by apply answered_snoc|].
  intros r h' Hr. destruct r as [[]|e]; simpl map_err; cbv iota; [|rewrite <- !(assoc_L (++)); apply HQ].
  spec_call as u.
  { exists s. do 3 (split; [done|]). split; [by do 2 apply claim_held_l|]. split; [|by apply Hr].
    apply answered_l, answered_snoc. done. }
  rewrite <- !(assoc_L (++)). apply HQ.
Qed.

(** The guard of an orphan: no child of ours, the room's paths, and the slot if its
    claim names the room. *)
Definition orphan_guard (config : RoomsConfig) : RoomGuard :=
  let guard := for_orphan room_dir socket jail config in
  match slot with Some release => set_slot release guard | None => guard end.

Lemma orphan_guard_cleanup_eq fuel config :
  guard_cleanup show_path fuel (orphan_guard config) = cleanup_sync show_path fuel (orphan_guard config).
Proof. unfold orphan_guard. by destruct slot. Qed.

(** A guard of this room: what it does after its child is gone keeps the order. *)
Definition guards_room (g : RoomGuard) : Prop :=
  g_suppress_cleanup g = false ∧ g_dismiss g = false ∧ g_socket g = socket ∧ g_room_dir g = room_dir ∧
  g_jail_instance_dir g = Some jail ∧ g_slot_release g = slot ∧ ∀ s, slot = Some s → g_tap_name g = Some (sl_tap s).

Lemma cleanup_after_child fuel g :
  guards_room g →
  ∃ rest, cleanup_sync show_path fuel g = (do* kill_child_gracefully fuel (g_child_pid g) (g_cleanup_grace g) in rest) ∧
    ∀ h Q, (∀ h', Q () h') → spec R rest h Q.
Proof.
  intros (Hsup & _ & Hsock & Hdir & Hjail & Hslot & Htap). unfold cleanup_sync. rewrite Hsup, Hsock, Hdir, Hjail.
  eexists. split; [reflexivity|]. intros h Q HQ.
  spec_call as here; [done|].
  apply (spec_mono _ _ _ (λ _ _, True)); [destruct here; [spec_call as r|]; done|]. intros _ h1 _. spec_down.
  apply spec_teardown_jail. intros gone h2 Hgone. destruct gone; cbn [negb]; [|apply HQ].
  spec_call as removed; [right; split; [done|by apply Hgone]|].
  assert (Hrel : (removed = Ok () ∨ ∃ e, removed = Err e ∧ kind e = NotFound) →
     spec R (release_network g) (h2 ++ [Event (ORemoveDirAll room_dir) removed]) Q).
  { intros Hr. destruct slot as [s|] eqn:Hs.
    - apply (spec_release_network _ s); [done|done|by apply Htap| |intros; apply HQ].
      split; [by apply answered_l, Hgone|by apply answered_snoc].
    - unfold release_network, release_network_with, plan_release. rewrite Hslot. apply HQ. }
  destruct removed as [[]|e]; [apply Hrel; auto|]. case_decide; [apply Hrel; eauto|apply HQ].
Qed.

Lemma spec_orphan_cleanup fuel config h Q :
  (∀ h', Q () h') → spec R (guard_cleanup show_path fuel (orphan_guard config)) h Q.
Proof.
  intros HQ. rewrite orphan_guard_cleanup_eq.
  destruct (cleanup_after_child fuel (orphan_guard config)) as (rest & -> & Hrest).
  { unfold guards_room, orphan_guard. destruct slot; cbn; split_and!; try done. by intros ? [= <-]. }
  assert (g_child_pid (orphan_guard config) = None) as -> by (unfold orphan_guard; by destruct slot).
  by apply Hrest.
Qed.

(** The last calls of a reap saw nothing left. *)
Definition reap_confirmed (h : list sys_event) : Prop :=
  ∃ h0, h = h0 ++ [Event (OExists jail) false; Event (OExists room_dir) false] ++
    match slot with
    | Some s => [Event (OSlotClaimedBy (sl_state_base s) (sl_index s) (sl_room_id s)) (Ok false)]
    | None => []
    end.

Lemma spec_reap_orphan fuel config h (Q : result FirecrackerError unit → list sys_event → Prop) :
  (∀ r h', (r = Ok () → reap_confirmed h') → Q r h') →
  spec R (reap_orphan show_path fuel config room_dir jail socket slot) h Q.
Proof.
  intros HQ. unfold reap_orphan. fold (orphan_guard config). spec_down.
  apply spec_orphan_cleanup. intros h1. spec_down.
  assert (Hdrop : ∀ r h', (r = Ok () → reap_confirmed h') →
    spec R (do* guard_drop show_path fuel (guard_dismiss (orphan_guard config)) in Ret r) h' Q).
  { intros r h' Hr. unfold guard_drop. simpl. by apply HQ. }
  spec_call as here; [done|]. destruct here; [by apply Hdrop|].
  spec_call as here; [done|]. destruct here; [by apply Hdrop|]. unfold reap_confirmed in *.
  destruct slot as [s|] eqn:Hs.
  - spec_down. spec_call as retained; [exists s; auto|].
    destruct retained as [[]|e]; simpl map_err; cbv iota; [by apply Hdrop..| |by apply Hdrop].
    apply Hdrop. intros _. exists h1. by rewrite <- !(assoc_L (++)).
  - spec_down. apply Hdrop. intros _. exists h1. by rewrite <- !(assoc_L (++)).
Qed.

End reap_order.

(** The room's own directories were looked for and are gone. *)
Definition room_gone (room_dir jail : path) (h : list sys_event) : Prop :=
  answered h (OExists jail) (λ here, here = false) ∧ answered h (OExists room_dir) (λ here, here = false).

#[export] Instance room_gone_mono room_dir jail : Monotone (room_gone room_dir jail).
Proof. unfold room_gone. apply _. Qed.
#[export] Instance tap_gone_mono tap : Monotone (λ h, tap_gone h tap).
Proof. unfold tap_gone. apply _. Qed.

(** The reap that leaves the slot alone. *)
Lemma spec_reap_room_only show_path room_dir jail socket fuel config h Q :
  (∀ r h', (r = Ok () → room_gone room_dir jail h') → Q r h') →
  spec (may_reap show_path room_dir jail socket None) (reap_room_only show_path fuel config room_dir jail socket) h Q.
Proof.
  intros HQ. unfold reap_room_only. spec_down.
  eapply spec_mono; [apply (spec_orphan_cleanup show_path room_dir jail socket None fuel config h (λ _ _, True)); done|].
  intros [] h1 _. cbv beta. spec_down.
  assert (Hdrop : ∀ (r : result FirecrackerError unit) h', (r = Ok () → room_gone room_dir jail h') →
     spec (may_reap show_path room_dir jail socket None)
       (do* guard_drop show_path fuel (guard_dismiss (for_orphan room_dir socket jail config)) in Ret r) h' Q).
  { intros r h' Hr. unfold guard_drop. simpl. by apply HQ. }
  spec_call as here; [done|]. destruct here; [by apply Hdrop|].
  spec_call as here; [done|]. destruct here; [by apply Hdrop|].
  apply Hdrop. intros _. split; auto with rooms.
Qed.

(** The calls that remove a tap and its rules. *)
Definition tap_call (tap : string) (op : sysop) : Prop :=
  op = OEgressRemove tap ∨ op = ORun "ip" (link_show tap) ∨ op = ORun "ip" (tuntap_del tap).

(** They are made rules first; when they succeed, both were seen gone. *)
Lemma spec_remove_egress_and_tap R tap h (Q : result FirecrackerError unit → list sys_event → Prop) :
  R h (OEgressRemove tap) →
  (∀ k args, all_calls (tap_call tap) k → answered (h ++ k) (OEgressRemove tap) (λ r, r = Ok ()) →
     args = link_show tap ∨ args = tuntap_del tap → R (h ++ k) (ORun "ip" args)) →
  (∀ r k, all_calls (tap_call tap) k →
     (r = Ok () → answered (h ++ k) (OEgressRemove tap) (λ r, r = Ok ()) ∧ tap_gone (h ++ k) tap) → Q r (h ++ k)) →
  spec R (remove_egress_and_tap tap) h Q.
Proof.
  intros HE HR HQ. unfold remove_egress_and_tap, delete_tap_checked.
  assert (H1 : ∀ x : result string unit, all_calls (tap_call tap) [Event (Ans := ans) (OEgressRemove tap) x]) by (by intros x e ->%list_elem_of_singleton; left).
  assert (H2 : ∀ (x : result string unit) (y : result io_error CmdOutput), all_calls (tap_call tap)
    [Event (Ans := ans) (OEgressRemove tap) x; Event (Ans := ans) (ORun "ip" (link_show tap)) y]).
  { intros x y. apply all_calls_cons; [by left|]. intros e ->%list_elem_of_singleton. right. by left. }
  spec_call as r; [done|]. destruct r as [[]|e]; simpl map_err; cbv iota; [|by apply HQ].
  set (rules := Event (Ans := ans) (OEgressRemove tap) (Ok ())).
  assert (He : ∀ k, answered (h ++ rules :: k) (OEgressRemove tap) (λ r, r = Ok ())).
  { intros k. apply answered_r. exists (Ok ()). split; [by left|done]. }
  spec_call as r; [apply HR; [apply H1|apply He|by left]|]. rewrite <- (assoc_L (++)). cbn [app].
  destruct r as [p|e]; simpl map_err; cbv iota; [|apply HQ; [apply H2|done]].
  destruct (success p) eqn:Hp; cbn [negb].
  2:{ destruct (already_gone (stderr p)) eqn:Hg; spec_down; (apply HQ; [apply H2|]); [|done]. intros _. split; [apply He|]. left.
      apply answered_r. exists (Ok p). split; [right; by left|eauto]. }
  spec_call as r; [apply HR; [apply H2|apply He|by right]|]. rewrite <- (assoc_L (++)). cbn [app].
  assert (H3 : ∀ z : result io_error CmdOutput, all_calls (tap_call tap) [rules; Event (ORun "ip" (link_show tap)) (Ok p); Event (ORun "ip" (tuntap_del tap)) z]).
  { intros z. do 2 (apply all_calls_cons; [unfold tap_call; auto|]). intros e ->%list_elem_of_singleton. right. by right. }
  destruct r as [d|e]; simpl map_err; cbv iota; [|apply HQ; [apply H3|done]].
  assert (Hgone : success d = true ∨ already_gone (stderr d) = true → tap_gone (h ++ [rules; Event (ORun "ip" (link_show tap)) (Ok p);
     Event (ORun "ip" (tuntap_del tap)) (Ok d)]) tap).
  { intros H. right. apply answered_r. exists (Ok d). split; [do 2 right; by left|eauto]. }
  destruct (success d) eqn:Hd; spec_down; [apply HQ; [apply H3|auto]|].
  destruct (already_gone (stderr d)) eqn:Hg; spec_down; (apply HQ; [apply H3|]); [auto|done].
Qed.

Lemma may_reap_app show_path room_dir jail socket slot h k op :
  may_reap show_path room_dir jail socket slot k op → may_reap show_path room_dir jail socket slot (h ++ k) op.
Proof.
  assert (Hd : dirs_gone room_dir jail k → dirs_gone room_dir jail (h ++ k)) by (intros [? ?]; split; auto with rooms).
  assert (Hc : ∀ s, claim_held room_dir jail k s → claim_held room_dir jail (h ++ k) s).
  { intros s (? & ? & ?). split; [|split]; auto with rooms. }
  assert (Ht : ∀ t, tap_gone k t → tap_gone (h ++ k) t) by (intros t [?|?]; [left|right]; auto with rooms).
  destruct op; simpl; try done.
  - intros [?|(? & s & ? & ? & ? & ?)]; [by left|right; split; [done|]]. exists s. split_and!; auto with rooms.
  - intros [?|[? ?]]; auto with rooms.
  - intros (s & ? & ? & ? & ? & ?). exists s. split_and!; auto.
  - intros (s & ? & ? & ? & ? & ? & ?). exists s. split_and!; auto with rooms.
  - intros (s & ? & ? & ?). exists s. split_and!; auto.
Qed.

Lemma may_reap_teardown show_path room_dir jail socket slot h op :
  may_reap show_path room_dir jail socket slot h op → teardown_op op.
Proof.
  destruct op; simpl; try done. intros [(-> & name & _ & ->)|(-> & s & _ & _ & _ & [->| ->])]; done.
Qed.

(** The orphan reap, whatever the host answers and wherever the collector
    dies: only the room's own binds are unmounted, only its socket and its two
    directories removed; the room directory goes only after the jail was seen
    gone; the network of a slot is torn down only while that room's exact claim is
    held under the pool's lock and both directories are gone; the claim itself is
    removed only after the egress rules and the tap are.  Success is reported only
    when the last looks found jail, room directory and claim gone. *)
Theorem reap_orphan_order show_path fuel config room_dir jail socket slot tr o :
  run (reap_orphan show_path fuel config room_dir jail socket slot) tr o →
  guarded (may_reap show_path room_dir jail socket slot) tr ∧
  (o = Some (Ok ()) → reap_confirmed room_dir jail slot tr).
Proof.
  intros Hrun.
  apply (spec_run (may_reap show_path room_dir jail socket slot) _ (λ r h, r = Ok () → reap_confirmed room_dir jail slot h))
    in Hrun as [Hg Ho].
  - split; [exact Hg|]. intros ->. exact (Ho _ eq_refl eq_refl).
  - apply spec_reap_orphan. by intros r h' Hr.
Qed.

Definition sample_release : SlotRelease :=
  {| sl_state_base := ["var"; "lib"; "rooms"]; sl_index := 3; sl_tap := "tap-fc3"; sl_room_id := "r-1" |}.

(** A host that holds the room's claim until it is removed. *)
Definition claimed_host (h : list sys_event) (op : sysop) : ans op :=
  match op return ans op with
  | OSlotMatch _ _ _ => Ok None
  | op => idle_host h op
  end.

Lemma reap_orphan_order_witness :
  let r := exec claimed_host (reap_orphan (join "/") 10 sample_config ["rooms"; "r-1"] ["jail"; "r-1"]
             ["rooms"; "r-1"; "s"] (Some sample_release)) [] in
  fst r = Some (Ok ()) ∧ reap_confirmed ["rooms"; "r-1"] ["jail"; "r-1"] (Some sample_release) (snd r).
Proof.
  intros r. assert (E : fst r = Some (Ok ())) by (vm_compute; reflexivity). split; [exact E|].
  apply (reap_orphan_order (join "/") 10 sample_config ["rooms"; "r-1"] ["jail"; "r-1"]
           ["rooms"; "r-1"; "s"] (Some sample_release) (snd r) (fst r)); [apply exec_run_nil|exact E].
Defined.
