(* ===== verification/InodeSeal.v ===== *)
(** * InodeSeal: kernel-enforced immutability ([inode_seal.rs])

    Sealing, checking a seal, and the probe that a snapshot's output directory
    can be sealed and unsealed.  The trait [InodeFlagOps] is the three calls on
    an open file; the immutable bit is the kernel's. *)

From S2P Require Import Prelude RStr Fs Snapshot Prog Sys.
From stdpp Require Import options.

(** [{:#x}]. *)
Definition hex_digit (d : N) : string := String.substring (N.to_nat d) 1 "0123456789abcdef".

Fixpoint hex_digits (fuel : nat) (n : N) (acc : string) : string :=
  match fuel with
  | 0 => acc
  | S fuel =>
      let acc := hex_digit (n mod 16) +:+ acc in
      if (n <? 16)%N then acc else hex_digits fuel (n / 16) acc
  end.

Definition show_hex (n : N) : string := "0x" +:+ hex_digits 8 n "".

(** [anyhow::bail!] after a call. *)
Definition io_context {A : Type} (what : string) (p : sys (result io_error A)) : sys (result string A) :=
  pmap_err (λ e, what +:+ ": " +:+ message e) p.

Section inode_seal.
  Variable show_path : path → string.
  Variable immutable_flag : N.

(** [flags & immutable_flag() != 0] and [observed & !immutable], on [u32]. *)
Definition sealed (flags : N) : bool := negb (N.land flags immutable_flag =? 0)%N.
Definition unsealed (flags : N) : N := N.ldiff flags immutable_flag.

Definition inspect_flags (file : handle) (p : path) (label : string) : sys (result string N) :=
  io_context ("inspect immutable flag for " +:+ label +:+ " " +:+ show_path p) (call (OGetFlags file)).

Definition require_with_ops (file : handle) (p : path) (label : string) : sys (result string unit) :=
  try* flags := inspect_flags file p label in
  if sealed flags then Ret (Ok ())
  else Ret (Err (label +:+ " " +:+ show_path p +:+
                 " is not kernel-immutable; snapshot inputs must be sealed against writes")).

Definition require_file (file : handle) (p : path) (label : string) : sys (result string unit) :=
  require_with_ops file p label.

Definition require (p : path) (label : string) : sys (result string unit) :=
  try* file := io_context ("open " +:+ label +:+ " " +:+ show_path p) (call (OOpen p OpenNoFollow)) in
  try* metadata := io_context ("inspect " +:+ label +:+ " " +:+ show_path p) (call (OFstat file)) in
  if negb (st_is_file metadata) && negb (st_is_dir metadata) then
    Ret (Err (label +:+ " " +:+ show_path p +:+ " is not a regular file or directory"))
  else require_with_ops file p label.

Definition open_regular (p : path) (label : string) : sys (result string handle) :=
  try* file := io_context ("open " +:+ label +:+ " " +:+ show_path p) (call (OOpen p OpenNoFollow)) in
  try* metadata := io_context ("inspect " +:+ label +:+ " " +:+ show_path p) (call (OFstat file)) in
  if negb (st_is_file metadata) || (st_len metadata =? 0)%N then
    Ret (Err (label +:+ " " +:+ show_path p +:+ " is empty or not a regular file"))
  else try* _ := require_file file p label in Ret (Ok file).

Definition seal_with_ops (file : handle) (p : path) (label : string) : sys (result string unit) :=
  try* flags := inspect_flags file p label in
  try* _ := (if sealed flags then Ret (Ok ())
             else io_context ("seal " +:+ label +:+ " " +:+ show_path p +:+ " immutable")
                    (call (OSetFlags file (N.lor flags immutable_flag)))) in
  try* _ := io_context ("sync sealed " +:+ label +:+ " " +:+ show_path p) (call (OSyncAll file)) in
  require_with_ops file p label.

Definition seal (p : path) (label : string) : sys (result string unit) :=
  try* file := io_context ("open " +:+ label +:+ " " +:+ show_path p) (call (OOpen p OpenRead)) in
  seal_with_ops file p label.

(** Every step runs, whatever the earlier ones gave. *)
Definition restore_baseline (file : handle) (baseline : N) (dir : path) : sys (result string unit) :=
  let* set := call (OSetFlags file baseline) in
  let failures := match set with Ok _ => [] | Err e => ["set baseline flags: " +:+ message e] end in
  let* got := call (OGetFlags file) in
  let failures := failures ++
    match got with
    | Ok restored =>
        if (restored =? baseline)%N then []
        else ["inode flags are " +:+ show_hex restored +:+ ", expected baseline " +:+ show_hex baseline]
    | Err e => ["verify baseline flags: " +:+ message e]
    end in
  let* synced := call (OSyncAll file) in
  let failures := failures ++ match synced with Ok _ => [] | Err e => ["sync restored inode: " +:+ message e] end in
  if bool_decide (failures = []) then Ret (Ok ())
  else Ret (Err ("restore snapshot output mutability at " +:+ show_path dir +:+ ": " +:+ join "; " failures)).

Definition with_preflight_cleanup (primary : string) (file : handle) (baseline : N) (dir : path) : sys string :=
  let* cleaned := restore_baseline file baseline dir in
  Ret (match cleaned with
       | Ok _ => primary
       | Err cleanup => primary +:+ "; cleanup also failed: " +:+ cleanup
       end).

(** The part of [preflight_output_with_ops] from the sealing on. *)
Definition preflight_cycle (file : handle) (baseline : N) (dir : path) : sys (result string unit) :=
  let* set := call (OSetFlags file (N.lor baseline immutable_flag)) in
  match set with
  | Err e =>
      let* e := with_preflight_cleanup ("snapshot output filesystem cannot seal immutable inodes at " +:+ show_path dir +:+
                                        ": " +:+ message e) file baseline dir in
      Ret (Err e)
  | Ok _ =>
      let* got := call (OGetFlags file) in
      match got with
      | Err e =>
          let* e := with_preflight_cleanup ("verify immutable preflight on " +:+ show_path dir +:+ ": " +:+ message e)
                      file baseline dir in
          Ret (Err e)
      | Ok flags =>
          if sealed flags then restore_baseline file baseline dir
          else
            let* e := with_preflight_cleanup ("snapshot output filesystem ignored immutable sealing at " +:+ show_path dir)
                        file baseline dir in
            Ret (Err e)
      end
  end.

Definition preflight_output_with_ops (file : handle) (dir : path) : sys (result string unit) :=
  try* observed := io_context ("snapshot output filesystem cannot report immutable flags for " +:+ show_path dir)
                     (call (OGetFlags file)) in
  let baseline := unsealed observed in
  try* _ := (if (observed =? baseline)%N then Ret (Ok ())
             else pmap_err (λ e, "clear interrupted immutable preflight on " +:+ show_path dir +:+ ": " +:+ e)
                    (restore_baseline file baseline dir)) in
  preflight_cycle file baseline dir.

Definition preflight_output (dir : path) : sys (result string unit) :=
  try* file := io_context ("open snapshot output " +:+ show_path dir +:+ " for immutable preflight")
                 (call (OOpen dir OpenRead)) in
  preflight_output_with_ops file dir.

End inode_seal.

(** ** The probe leaves the directory as it found it *)

(** The flags of the inode behind [file] along a history.  A [set] may leave any
    flags, whatever it answers: the call can fail after the change, and a file
    system can ignore the bit. *)
Definition inode_step (file : handle) (flags : N) (e : sys_event) (flags' : N) : Prop :=
  match e with
  | Event op x =>
      match op return ans op → Prop with
      | OSetFlags f _ => λ _, f ≠ file → flags' = flags
      | OGetFlags f => λ x, flags' = flags ∧ (f = file → ∀ y, x = Ok y → y = flags)
      | _ => λ _, flags' = flags
      end x
  end.

Fixpoint inode_flags (file : handle) (flags : N) (h : list sys_event) (flags' : N) : Prop :=
  match h with
  | [] => flags' = flags
  | e :: h => ∃ flags1, inode_step file flags e flags1 ∧ inode_flags file flags1 h flags'
  end.

Section preflight.
  Variable show_path : path → string.
  Variable imm : N.
  Hypothesis imm_bit : imm ≠ 0%N.

(** The calls of a restored baseline. *)
Definition restored (file : handle) (baseline : N) : list sys_event :=
  [Event (OSetFlags file baseline) (Ok ()); Event (OGetFlags file) (Ok baseline); Event (OSyncAll file) (Ok ())].

(** Only the two values the probe toggles are ever set, on the opened file. *)
Definition may_flag (h : list sys_event) (op : sysop) : Prop :=
  match op with
  | OOpen _ _ => h = []
  | OGetFlags file | OSyncAll file => ∃ p how, answered h (OOpen p how) (λ r, r = Ok file)
  | OSetFlags file flags =>
      ∃ observed, answered h (OGetFlags file) (λ r, r = Ok observed) ∧
        (flags = unsealed imm observed ∨ flags = N.lor (unsealed imm observed) imm)
  | _ => False
  end.

(** Each attempt to seal is followed by an attempt to take the seal back. *)
Fixpoint put_back (h : list sys_event) : Prop :=
  match h with
  | [] => True
  | e :: h =>
      match ev_op e with
      | OSetFlags file flags => sealed imm flags = true → ∃ y, Event (OSetFlags file (unsealed imm flags)) y ∈ h
      | _ => True
      end ∧ put_back h
  end.

Lemma unsealed_clear flags : sealed imm (unsealed imm flags) = false.
Proof using Type.
  unfold sealed, unsealed. by rewrite N.land_ldiff.
Qed.

Lemma sealed_lor b : sealed imm (N.lor b imm) = true.
Proof using imm_bit.
  unfold sealed. apply negb_true_iff, N.eqb_neq. replace (N.land (N.lor b imm) imm) with imm; [done|].
  apply N.bits_inj. intros n. rewrite N.land_spec, N.lor_spec. by destruct (N.testbit b n), (N.testbit imm n).
Qed.

Lemma unsealed_lor flags : unsealed imm (N.lor (unsealed imm flags) imm) = unsealed imm flags.
Proof using Type.
  unfold unsealed. apply N.bits_inj. intros n. rewrite !N.ldiff_spec, N.lor_spec, N.ldiff_spec.
  by destruct (N.testbit flags n), (N.testbit imm n).
Qed.

Definition opened (h : list sys_event) (file : handle) : Prop := ∃ p how, answered h (OOpen p how) (λ r, r = Ok file).

Lemma opened_l h h' file : opened h file → opened (h ++ h') file.
Proof using Type. intros (p & how & H). exists p, how. by apply answered_l. Qed.

Hint Resolve opened_l : rooms.

Lemma spec_restore file observed dir h Q :
  opened h file → answered h (OGetFlags file) (λ r, r = Ok observed) →
  (∀ r x y z, (r = Ok () → x = Ok () ∧ y = Ok (unsealed imm observed) ∧ z = Ok ()) →
     Q r (h ++ [Event (OSetFlags file (unsealed imm observed)) x; Event (OGetFlags file) y; Event (OSyncAll file) z])) →
  spec may_flag (restore_baseline show_path file (unsealed imm observed) dir) h Q.
Proof using Type.
  intros Hf Ho HQ. unfold restore_baseline.
  spec_call as x. { exists observed. auto. }
  spec_call as y. { by apply opened_l. }
  spec_call as z. { by do 2 apply opened_l. }
  rewrite <- !(assoc_L (++)).
  case_bool_decide as Hfail; spec_down; apply HQ; [|done]. intros _.
  destruct x as [[]|]; [|by destruct y]. destruct y as [restored|]; [|done].
  destruct (N.eqb_spec restored (unsealed imm observed)) as [->|]; [|done]. by destruct z as [[]|].
Qed.
(** What a completed probe leaves. *)
Definition preflight_left (r : result string unit) (h : list sys_event) : Prop :=
  put_back h ∧
  (r = Ok () → ∃ file, opened h file ∧ answered h (OGetFlags file) (λ r, ∃ flags, r = Ok flags ∧ sealed imm flags = true) ∧
     ∀ flags flags', inode_flags file flags h flags' → flags' = unsealed imm flags).

(** The baseline read back last is what the inode holds. *)
Lemma restored_flags file b h flags flags' :
  inode_flags file flags (h ++ restored file b) flags' → flags' = b.
Proof using Type.
  revert flags. induction h as [|e h IH]; intros flags; simpl.
  - intros (f1 & _ & f2 & [-> Hget] & f3 & -> & ->). symmetry. by apply Hget.
  - intros (f1 & _ & H). by apply (IH f1).
Qed.

Lemma first_get file p how x h flags flags' :
  inode_flags file flags (Event (OOpen p how) (Ok file) :: Event (OGetFlags file) (Ok x) :: h) flags' → x = flags.
Proof using Type. simpl. intros (f1 & -> & f2 & [_ Hget] & _). by apply Hget. Qed.

Lemma put_back_app h h' : put_back h → put_back h' → put_back (h ++ h').
Proof using Type.
  intros Hh Hh'. induction h as [|e h IH]; [done|]. destruct Hh as [He Hh]. split; [|by apply IH].
  destruct (ev_op e); try done. intros Hs. destruct (He Hs) as [y Hy]. exists y. apply elem_of_app. by left.
Qed.

(** A sealing attempt, what follows it, and the attempt to take it back. *)
Lemma put_back_probe file observed h x mid y1 y2 y3 :
  put_back h → put_back mid →
  put_back (h ++ Event (OSetFlags file (N.lor (unsealed imm observed) imm)) x :: mid ++
            [Event (OSetFlags file (unsealed imm observed)) y1; Event (OGetFlags file) y2; Event (OSyncAll file) y3]).
Proof using Type.
  intros Hh Hmid. apply put_back_app; [done|]. split.
  - intros _. rewrite unsealed_lor. exists y1. apply elem_of_app. right. by left.
  - apply put_back_app; [done|]. split; [|done]. simpl. rewrite unsealed_clear. done.
Qed.

Lemma spec_preflight_cycle dir p how file observed mid :
  put_back mid →
  spec may_flag (preflight_cycle show_path imm file (unsealed imm observed) dir)
    ([Event (OOpen p how) (Ok file); Event (OGetFlags file) (Ok observed)] ++ mid) preflight_left.
Proof using imm_bit.
  intros Hmid. set (h0 := [Event (OOpen p how) _; _]). set (b := unsealed imm observed).
  assert (Hopen : ∀ h, opened (h0 ++ h) file).
  { intros h. apply opened_l. exists p, how, (Ok file). split; [by left|done]. }
  assert (Hobs : ∀ h, answered (h0 ++ h) (OGetFlags file) (λ r, r = Ok observed)).
  { intros h. apply answered_l. exists (Ok observed). split; [right; by left|done]. }
  assert (Hback : ∀ x rest y1 y2 y3, put_back rest → put_back ((h0 ++ mid) ++
      Event (OSetFlags file (N.lor b imm)) x :: rest ++
      [Event (OSetFlags file b) y1; Event (OGetFlags file) y2; Event (OSyncAll file) y3]))
    by (intros; apply put_back_probe; [by apply put_back_app|done]).
  assert (Hclean : ∀ primary x rest, put_back rest →
    spec may_flag (let* e := with_preflight_cleanup show_path primary file b dir in Ret (Err e))
      ((h0 ++ mid) ++ Event (OSetFlags file (N.lor b imm)) x :: rest) preflight_left).
  { intros primary x rest Hr. unfold with_preflight_cleanup. spec_down.
    apply spec_restore; [by rewrite <- (assoc_L (++))|by rewrite <- (assoc_L (++))|].
    intros r y1 y2 y3 _. apply spec_ret. split; [|by intros].
    rewrite <- (assoc_L (++) _ (_ :: _)), <- app_comm_cons. by apply Hback. }
  unfold preflight_cycle. spec_call as x. { exists observed. auto. }
  destruct x as [[]|e]; [|by apply (Hclean _ _ [])].
  spec_call as got. { rewrite <- (assoc_L (++)). apply Hopen. }
  rewrite <- (assoc_L (++) (h0 ++ mid)). simpl ([_] ++ [_]).
  destruct got as [flags|e]; [|by apply Hclean].
  destruct (sealed imm flags) eqn:Hsealed; [|by apply Hclean].
  apply spec_restore; [by rewrite <- (assoc_L (++))|by rewrite <- (assoc_L (++))|].
  intros r y1 y2 y3 Hr. rewrite <- (assoc_L (++) _ [_; _]). split; [by apply (Hback _ [_])|].
  intros Hok. destruct (Hr Hok) as (-> & -> & ->). exists file. split; [|split].
  - rewrite <- (assoc_L (++)). apply Hopen.
  - exists (Ok flags). split; [|eauto]. apply elem_of_app. right. right. by left.
  - intros f f' Hf. assert (f = observed) as <-.
    { rewrite <- (assoc_L (++)) in Hf. by apply first_get in Hf. }
    eapply (restored_flags file _ ((h0 ++ mid) ++ [_; _])). rewrite <- (assoc_L (++)). exact Hf.
Qed.

Lemma spec_preflight dir : spec may_flag (preflight_output show_path imm dir) [] preflight_left.
Proof using imm_bit.
  unfold preflight_output, io_context. spec_call as r; [done|].
  destruct r as [file|e]; simpl map_err; cbv iota; [|by split].
  unfold preflight_output_with_ops, io_context. spec_call as r; [exists dir, OpenRead; by apply answered_snoc|].
  destruct r as [observed|e]; simpl map_err; cbv iota; [|by split].
  simpl app. set (h0 := [_; _]). destruct (observed =? unsealed imm observed)%N.
  { spec_down. rewrite <- (right_id_L [] (++) h0). by apply spec_preflight_cycle. }
  spec_down. apply spec_restore.
  { exists dir, OpenRead, (Ok file). split; [by left|done]. }
  { exists (Ok observed). split; [right; by left|done]. }
  intros r x y z _.
  assert (Hmid : put_back [Event (OSetFlags file (unsealed imm observed)) x; Event (OGetFlags file) y; Event (OSyncAll file) z]).
  { split; [|done]. simpl. by rewrite unsealed_clear. }
  destruct r as [[]|e]; simpl map_err; cbv iota; [by apply spec_preflight_cycle|].
  split; [|done]. by apply put_back_app.
Qed.

(** The probe of an output directory, whatever the calls answer and even if
    the process dies: it only ever toggles the immutable bit of the directory it
    opened.  When it returns, every seal it attempted was followed by an attempt
    to take it back; and when it succeeds, the bit was seen set and the inode holds
    what it held before without the bit, even if calls that failed took effect or
    calls that passed did not. *)
Theorem preflight_restores dir tr o :
  run (preflight_output show_path imm dir) tr o →
  guarded may_flag tr ∧ (∀ r, o = Some r → preflight_left r tr).
Proof using imm_bit. apply spec_run, spec_preflight. Qed.

End preflight.

(** ** A sealed file *)

Section sealing.
  Context (show_path : path → string) (imm : N).

Definition seal_op (op : sysop) : Prop :=
  match op with OOpen _ OpenRead | OSetFlags _ _ | OGetFlags _ | OSyncAll _ => True | _ => False end.

(** The path was opened, and a look at that inode found the bit. *)
Definition sealed_at (p : path) (h : list sys_event) : Prop :=
  ∃ file flags, answered h (OOpen p OpenRead) (λ r, r = Ok file) ∧
    answered h (OGetFlags file) (λ r, r = Ok flags) ∧ sealed imm flags = true.

#[export] Instance sealed_at_mono p : Monotone (sealed_at p).
Proof. unfold sealed_at. apply _. Qed.

Lemma only_seal p label : only seal_op (seal show_path imm p label).
Proof using Type. unfold seal, seal_with_ops, require_with_ops, inspect_flags, io_context. only_walk. Qed.

(** [seal] succeeds only when a look after the data was synced found the bit,
    whatever the calls before answered. *)
Lemma spec_seal R p label h :
  (∀ h op, seal_op op → R h op) →
  spec R (seal show_path imm p label) h (λ r h', r = Ok () → sealed_at p h').
Proof using Type.
  intros HR. unfold seal, io_context. spec_call as r; [by apply HR|].
  destruct r as [file|e]; simpl map_err; cbv iota; [|done].
  assert (Hf : answered (h ++ [Event (OOpen p OpenRead) (Ok file)]) (OOpen p OpenRead) (λ r, r = Ok file)) by by apply answered_snoc.
  revert Hf. generalize (h ++ [Event (OOpen p OpenRead) (Ok file)]) as h0. intros h0 Hf. unfold seal_with_ops, inspect_flags, io_context.
  spec_call as r; [by apply HR|]. destruct r as [flags|e]; simpl map_err; cbv iota; [|done].
  assert (Hrest : ∀ k, spec R
    (try* _ := io_context ("sync sealed " +:+ label +:+ " " +:+ show_path p) (call (OSyncAll file)) in
     require_with_ops show_path imm file p label) (h0 ++ k) (λ r h', r = Ok () → sealed_at p h')).
  { intros k. unfold io_context. spec_call as r; [by apply HR|]. destruct r as [[]|e]; simpl map_err; cbv iota; [|done].
    unfold require_with_ops, inspect_flags, io_context. spec_call as r; [by apply HR|].
    destruct r as [flags'|e]; simpl map_err; cbv iota; [|done]. destruct (sealed imm flags') eqn:Hs; spec_down; [|done].
    intros _. exists file, flags'. split; [by do 3 apply answered_l|]. split; [by apply answered_snoc|done]. }
  destruct (sealed imm flags); apply spec_try; [apply spec_ret; by apply Hrest|].
  spec_call as r; [by apply HR|]. destruct r as [[]|e]; simpl map_err; cbv iota; [|done]. rewrite <- (assoc_L (++)). apply Hrest.
Qed.

End sealing.

(** A directory on a file system that seals, left sealed by a probe that died. *)
Definition sealing_host (h : list sys_event) (op : sysop) : ans op :=
  match op return ans op with
  | OGetFlags _ =>
      Ok (fold_left (λ flags e, match ev_op e with OSetFlags _ new => new | _ => flags end) h 24%N)
  | op => idle_host h op
  end.

Lemma preflight_restores_witness :
  let r := exec sealing_host (preflight_output (join "/") 16 ["out"]) [] in
  fst r = Some (Ok ()) ∧ inode_flags 4 24 (snd r) 8 ∧ preflight_left 16 (Ok ()) (snd r).
Proof.
  intros r. assert (E : fst r = Some (Ok ())) by (vm_compute; reflexivity). split; [exact E|]. split.
  - vm_compute. repeat (eexists; split; [first [intros; congruence|split; [reflexivity|intros ? ? [= <-]; reflexivity]|reflexivity]|]).
    reflexivity.
  - apply (preflight_restores (join "/") 16 ltac:(done) ["out"] (snd r) (fst r)); [apply exec_run_nil|exact E].
Defined.
