(* ===== verification/Images.v ===== *)
(** * Images: admission of disks ([rootfs.rs], [toolstore.rs])

    The checks of a root file system, a kernel and a toolstore.  The kernel's
    architecture is the build's; SHA-256 and the JSON of the toolstore's manifest
    are parameters. *)

From S2P Require Import Prelude RStr Fs Host Snapshot Prog Sys InodeSeal.
From stdpp Require Import options.

(** ** Root file systems and kernels *)

Definition SUPERBLOCK_OFFSET : N := 1024.
Definition EXT4_MAGIC : N := 61267.

Inductive RootfsError :=
| RfNotFound (p : path)
| RfNotExt4 (p : path) (magic : N)
| RfTooSmall (p : path) (size min_bytes : N)
| RfKernelNotFound (p : path)
| RfKernelBadFormat (p : path)
| RfIo (e : io_error).

Definition unexpected_eof : io_error := IoError OtherKind "failed to fill whole buffer".

(** [read_exact] with [?]. *)
Definition read_exact (file : handle) (bytes : N) : sys (result io_error string) :=
  try* read := call (OReadExact file bytes) in Ret (ok_or read unexpected_eof).

(** [u16::from_le_bytes]. *)
Definition u16_le (s : string) : N :=
  match s with String a (String b _) => (code a + 256 * code b)%N | _ => 0%N end.

Definition read_ext4_magic (p : path) : sys (result io_error N) :=
  try* file := call (OOpen p OpenRead) in
  try* _ := call (OSeek file (SUPERBLOCK_OFFSET + 56)) in
  try* bytes := read_exact file 2 in
  Ret (Ok (u16_le bytes)).

Definition validate_rootfs (p : path) (min_bytes : N) : sys (result RootfsError unit) :=
  let* here := call (OExists p) in
  if negb here then Ret (Err (RfNotFound p)) else
  try* meta := pmap_err RfIo (call (OStat p)) in
  let size := st_len meta in
  if (size <? min_bytes)%N then Ret (Err (RfTooSmall p size min_bytes)) else
  try* magic := pmap_err RfIo (read_ext4_magic p) in
  if negb (magic =? EXT4_MAGIC)%N then Ret (Err (RfNotExt4 p magic)) else Ret (Ok ()).

Inductive target_arch := X86_64 | Aarch64 | OtherArch.

Definition ARM64_MAGIC : string := "ARM" +:+ String "100" "".
Definition ELF_MAGIC : string := String "127" "ELF".

Definition kernel_matches_host_arch (arch : target_arch) (header : string) : bool :=
  let elf := (String.substring 0 4 header =? ELF_MAGIC)%string in
  let arm64_image := (String.substring 56 4 header =? ARM64_MAGIC)%string in
  match arch with X86_64 => elf | Aarch64 => arm64_image | OtherArch => elf || arm64_image end.

Definition validate_kernel (arch : target_arch) (p : path) : sys (result RootfsError unit) :=
  let* here := call (OExists p) in
  if negb here then Ret (Err (RfKernelNotFound p)) else
  try* file := pmap_err RfIo (call (OOpen p OpenRead)) in
  try* header := pmap_err RfIo (call (OReadExact file 60)) in
  match header with
  | None => Ret (Err (RfKernelBadFormat p))
  | Some header => if kernel_matches_host_arch arch header then Ret (Ok ()) else Ret (Err (RfKernelBadFormat p))
  end.

(** [str::split_once] with a text, the part after it. *)
Fixpoint after_first (needle s : string) : option string :=
  match strip_prefix needle s with
  | Some rest => Some rest
  | None => match s with String _ s => after_first needle s | EmptyString => None end
  end.

(** [u32::from_str_radix(_, 8)]. *)
Fixpoint octal_digits (acc : N) (s : string) : option N :=
  match s with
  | EmptyString => Some acc
  | String a s =>
      d ← digit_value a;
      let acc := (8 * acc + d)%N in
      if (7 <? d)%N || (u32_max <? acc)%N then None else octal_digits acc s
  end.

Definition parse_octal (s : string) : option N :=
  match s with
  | EmptyString => None
  | String "+" (String _ _ as s) => octal_digits 0 s
  | s => octal_digits 0 s
  end.

Definition executable_regular_inode (stat : string) : bool :=
  contains stat "Inode:" && contains stat "Type: regular" &&
  match rest ← after_first "Mode:" stat; mode ← head (split_whitespace rest); parse_octal mode with
  | Some mode => negb (N.land mode 73 =? 0)%N
  | None => false
  end.

Definition has_toolstore_hook (init : string) : bool :=
  existsb (λ line, (line =? "# rooms-toolstore-v1")%string) (lines init).

Definition to_ascii_lowercase_byte (a : byte) : byte :=
  if is_ascii_uppercase a then ascii_of_N (code a + 32) else a.

Fixpoint to_ascii_lowercase (s : string) : string :=
  match s with EmptyString => "" | String a s => String (to_ascii_lowercase_byte a) (to_ascii_lowercase s) end.

Definition is_public_key_name (entry : string) : bool :=
  match extension entry with Some ext => (to_ascii_lowercase ext =? "pub")%string | None => false end.

Definition baked_host_private_key (listing : string) : option string :=
  find (λ entry, starts_with entry "ssh_host_" && negb (is_public_key_name entry))
       (trim <$> (split_byte "/" listing ≫= split_byte nl)).

Definition kernel_sibling (rootfs : path) : option path :=
  match rootfs with [] => None | _ => Some (pjoin (removelast rootfs) "vmlinux.bin") end.

Section images.
  Variable show_path : path → string.
  Variable immutable_flag : N.

Definition debugfs_spawn_error (e : io_error) : string :=
  if decide (kind e = NotFound) then
    "image admission requires debugfs; install e2fsprogs (for example: apt install e2fsprogs)"
  else "inspect image with debugfs: " +:+ message e.

Definition debugfs (p : path) (request : string) : sys (result string string) :=
  try* output := pmap_err debugfs_spawn_error (call (ORun "debugfs" ["-R"; request; show_path p])) in
  if negb (success output) then
    Ret (Err ("inspect image " +:+ show_path p +:+ " (" +:+ request +:+ "): " +:+ trim (stderr output)))
  else Ret (Ok (stdout output)).

Definition validate_overlay_image (p : path) : sys (result string unit) :=
  try* overlay := debugfs p "stat /sbin/overlay-init" in
  if negb (executable_regular_inode overlay) then
    Ret (Err ("image " +:+ show_path p +:+ " lacks executable regular /sbin/overlay-init"))
  else Ret (Ok ()).

Definition validate_scratch_image (p : path) : sys (result string unit) :=
  try* _ := validate_overlay_image p in
  try* init := debugfs p "cat /sbin/overlay-init" in
  if negb (contains init "rooms.scratch=1") then
    Ret (Err "--disk requires an image rebuilt with the current scripts/build-rootfs-alpine.sh")
  else Ret (Ok ()).

Definition validate_toolstore_image (p : path) : sys (result string unit) :=
  try* _ := validate_overlay_image p in
  try* init := debugfs p "cat /sbin/overlay-init" in
  if negb (has_toolstore_hook init) then
    Ret (Err "--toolstore requires an image rebuilt with the current scripts/build-rootfs-alpine.sh")
  else Ret (Ok ()).

Definition validate_snapshot_base_image (p : path) : sys (result string unit) :=
  try* _ := require show_path immutable_flag p "snapshot base image" in
  try* _ := validate_overlay_image p in
  try* ssh_dir := debugfs p "ls -p /etc/ssh" in
  match baked_host_private_key ssh_dir with
  | Some key => Ret (Err ("snapshot base image " +:+ show_path p +:+ " contains baked SSH host private key /etc/ssh/" +:+ key))
  | None => Ret (Ok ())
  end.

Definition unmount_overlay (mount_point : path) : sys unit :=
  let* here := call (OExists mount_point) in
  if here : bool then
    do* call (ORun "umount" [show_path mount_point]) in
    do* call (ORemoveDirAll mount_point) in Ret ()
  else Ret ().

(** ** Toolstores *)

Record Manifest := { mf_schema_version : N; mf_system : string; mf_sha256 : string }.

Definition is_lower_hex (a : byte) : bool := is_ascii_digit a || in_range 97 102 a.

Definition Manifest_validate (m : Manifest) (system : string) : result string unit :=
  if negb (mf_schema_version m =? 1)%N then Err "unsupported toolstore manifest version" else
  if negb (mf_system m =? system)%string then
    Err ("toolstore architecture mismatch: expected " +:+ system +:+ ", found " +:+ mf_system m)
  else if negb ((len (mf_sha256 m) =? 64)%nat && all_bytes is_lower_hex (mf_sha256 m)) then Err "invalid toolstore SHA-256"
  else Ok ().

Record Toolstore := { ts_file : handle; ts_digest : string }.

  Variable sha256 : string → string.
  Variable parse_manifest : string → option Manifest.
  Variable arch : string.

Definition manifest_file (p : path) : sys (result io_error handle) :=
  try* file := call (OOpen p OpenNoFollow) in
  try* metadata := call (OFstat file) in
  if st_is_file metadata then Ret (Ok file)
  else Ret (Err (IoError OtherKind "toolstore manifest is not a regular file")).

Definition MANIFEST_LIMIT : N := 1048576.

Definition Toolstore_open (directory : path) : sys (result string Toolstore) :=
  let manifest_path := pjoin directory "meta.json" in
  try* manifest := pmap_err (λ _, "open toolstore manifest " +:+ show_path manifest_path) (manifest_file manifest_path) in
  try* bytes := pmap_err message (call (OReadAll manifest (Some (MANIFEST_LIMIT + 1)%N))) in
  if (MANIFEST_LIMIT <? N.of_nat (len bytes))%N then Ret (Err "toolstore manifest exceeds 1 MiB") else
  try* m := Ret (ok_or (parse_manifest bytes) "parse toolstore manifest") in
  try* _ := Ret (Manifest_validate m (arch +:+ "-linux")) in
  let p := pjoin directory "toolstore.sqfs" in
  try* file := open_regular show_path immutable_flag p "toolstore" in
  try* magic := pmap_err message (read_exact file 4) in
  if negb (magic =? "hsqs")%string then Ret (Err "toolstore is not a little-endian squashfs image") else
  try* rest := pmap_err message (call (OReadAll file None)) in
  if negb (sha256 (magic +:+ rest) =? mf_sha256 m)%string then Ret (Err "toolstore hash mismatch") else
  try* _ := require_file show_path immutable_flag file p "toolstore" in
  Ret (Ok {| ts_file := file; ts_digest := mf_sha256 m |}).

Definition Toolstore_try_clone (t : Toolstore) : sys (result io_error Toolstore) :=
  try* file := call (OTryClone (ts_file t)) in
  Ret (Ok {| ts_file := file; ts_digest := ts_digest t |}).

Definition mount_source (t : Toolstore) : sys (result string path) :=
  let* pid := call OSelfPid in
  let p := ["proc"; show_N pid; "fd"; show_N (ts_file t)] in
  try* _ := require_file show_path immutable_flag (ts_file t) p "toolstore" in Ret (Ok p).

Definition require_sealed (t : Toolstore) : sys (result string unit) :=
  try* _ := mount_source t in Ret (Ok ()).

Definition verify_attachment (t : Toolstore) (target : path) : sys (result string unit) :=
  try* mounted := pmap_err message (call (OStat target)) in
  try* admitted := pmap_err message (call (OFstat (ts_file t))) in
  if (fi_device (st_id mounted) =? fi_device (st_id admitted))%N &&
     (fi_inode (st_id mounted) =? fi_inode (st_id admitted))%N then
    require show_path immutable_flag target "attached toolstore"
  else Ret (Err "mounted toolstore differs from verified inode").

Definition bind_into (t : Toolstore) (target : path) : sys (result string unit) :=
  try* source := mount_source t in
  try* output := pmap_err (λ _, "bind verified toolstore descriptor")
                   (call (ORun "mount" ["--no-canonicalize"; "--bind"; show_path source; show_path target])) in
  if negb (success output) then Ret (Err ("bind toolstore failed: " +:+ stderr output))
  else verify_attachment t target.

End images.

(** ** A toolstore is read and sealed through one descriptor *)

Section admission.
  Variables (show_path : path → string) (imm : N) (sha256 : string → string).
  Variables (parse_manifest : string → option Manifest) (arch : string) (dir : path).

(** What the manifest of the directory says: the text read from a regular
    [meta.json], of at most a mebibyte, parses to it. *)
Definition manifest_read (m : Manifest) (h : list sys_event) : Prop :=
  ∃ file text,
    answered h (OOpen (pjoin dir "meta.json") OpenNoFollow) (λ r, r = Ok file) ∧
    answered h (OFstat file) (λ r, ∃ st, r = Ok st ∧ st_is_file st = true) ∧
    answered h (OReadAll file (Some 1048577%N)) (λ r, r = Ok text) ∧
    (N.of_nat (len text) ≤ 1048576)%N ∧ parse_manifest text = Some m.

#[local] Instance manifest_read_mono m : Monotone (manifest_read m).
Proof using Type. unfold manifest_read. apply _. Qed.

(** The last calls of an admission: the opened disk was sealed, was read whole
    through that descriptor, hashed to what the manifest says, and was sealed
    still. *)
Definition admitted (t : Toolstore) (h : list sys_event) : Prop :=
  ∃ m h1 rest f1 f2,
    manifest_read m h ∧ mf_schema_version m = 1%N ∧ mf_system m = arch +:+ "-linux" ∧
    len (mf_sha256 m) = 64 ∧ all_bytes is_lower_hex (mf_sha256 m) = true ∧
    h = h1 ++ [Event (OGetFlags (ts_file t)) (Ok f1); Event (OReadExact (ts_file t) 4) (Ok (Some "hsqs"));
               Event (OReadAll (ts_file t) None) (Ok rest); Event (OGetFlags (ts_file t)) (Ok f2)] ∧
    answered h1 (OOpen (pjoin dir "toolstore.sqfs") OpenNoFollow) (λ r, r = Ok (ts_file t)) ∧
    sealed imm f1 = true ∧ sealed imm f2 = true ∧
    sha256 ("hsqs" +:+ rest) = mf_sha256 m ∧ ts_digest t = mf_sha256 m.

(** The disk was opened, and its flags looked at last. *)
Definition opened (r : result string handle) (h : list sys_event) : Prop :=
  ∀ f, r = Ok f → ∃ h1 flags, h = h1 ++ [Event (OGetFlags f) (Ok flags)] ∧
    answered h1 (OOpen (pjoin dir "toolstore.sqfs") OpenNoFollow) (λ r, r = Ok f) ∧ sealed imm flags = true.

Lemma spec_open_regular R p label h (Q : result string handle → list sys_event → Prop) :
  R h (OOpen p OpenNoFollow) → (∀ h' f, R h' (OFstat f) ∧ R h' (OGetFlags f)) →
  (∀ e h', Q (Err e) h') →
  (∀ f h' flags, answered h' (OOpen p OpenNoFollow) (λ r, r = Ok f) → sealed imm flags = true →
     Q (Ok f) (h' ++ [Event (OGetFlags f) (Ok flags)])) →
  spec R (open_regular show_path imm p label) h Q.
Proof using Type.
  intros Ho Hf He HQ. unfold open_regular, io_context. spec_call as r; [done|].
  destruct r as [f|e]; simpl map_err; cbv iota; [|by apply He].
  spec_call as r; [apply Hf|]. destruct r as [md|e]; simpl map_err; cbv iota; [|by apply He].
  destruct (negb (st_is_file md) || _); [by apply He|].
  unfold require_file, require_with_ops, inspect_flags, io_context. spec_call as r; [apply Hf|].
  destruct r as [flags|e]; simpl map_err; cbv iota; [|by apply He].
  destruct (sealed imm flags) eqn:Hs; spec_down; [|by apply He]. apply HQ; [|done].
  by apply answered_l, answered_snoc.
Qed.

(** C30.  A toolstore is admitted only when [meta.json], a regular file of at most a
    mebibyte, parses to a manifest of the right version and system with a
    well-formed digest, and the disk beside it was found sealed, read to the end
    through the one descriptor that is kept, found to hash to that very digest, and
    found sealed again after the last read: whoever renames or replaces files
    meanwhile, the bytes attached later through that descriptor are the bytes
    hashed.  The digest kept is the manifest's. *)
Theorem toolstore_admitted tr o t :
  run (Toolstore_open show_path imm sha256 parse_manifest arch dir) tr o → o = Some (Ok t) → admitted t tr.
Proof using Type.
  intros Hrun Ho.
  apply (spec_run (λ _ _, True) _ (λ r h, ∀ t, r = Ok t → admitted t h)) in Hrun as [_ H]; [by apply (H (Ok t))|].
  clear. unfold Toolstore_open, manifest_file. spec_call as r; [done|].
  destruct r as [mf|e]; simpl map_err; cbv iota; [|done]. spec_call as r; [done|].
  destruct r as [md|e]; simpl map_err; cbv iota; [|done]. destruct (st_is_file md) eqn:Hmd; spec_down; simpl map_err; cbv iota; [|done].
  spec_call as r; [done|]. destruct r as [bytes|e]; simpl map_err; cbv iota; [|done].
  destruct (N.ltb_spec MANIFEST_LIMIT (N.of_nat (len bytes))) as [|Hlim]; [done|]. spec_down.
  destruct (parse_manifest bytes) as [m|] eqn:Hm; simpl ok_or; cbv iota; [|done].
  match goal with |- spec _ _ ?h _ => assert (Hman : manifest_read m h) end.
  { exists mf, bytes. split_and!; [by do 2 apply answered_l; apply answered_snoc|
      apply answered_l, answered_snoc; by exists md|by apply answered_snoc|exact Hlim|exact Hm]. }
  spec_down. unfold Manifest_validate. destruct (N.eqb_spec (mf_schema_version m) 1) as [Hv|]; cbn [negb]; [|done].
  destruct (String.eqb_spec (mf_system m) (arch +:+ "-linux")) as [Hsys|]; cbn [negb]; [|done].
  destruct (negb (_ && _)) eqn:Hhex; [done|]. apply negb_false_iff, andb_true_iff in Hhex as [Hlen%Nat.eqb_eq Hhex].
  spec_down. eapply spec_mono; [apply (spec_keep _ _ _ (manifest_read m) opened Hman), spec_open_regular; try done|].
  { intros f h' flags Hopen Hs f' [= <-]. by exists h', flags. }
  intros [f|e] h [Hman' Hop]; cbv beta iota; [|done]. destruct (Hop f eq_refl) as (h1 & f1 & -> & Hopen & Hs1).
  unfold read_exact. spec_call as r; [done|].
  destruct r as [magic|e]; cbv iota; spec_down; [|done]. destruct magic as [magic|]; simpl ok_or; simpl map_err; cbv iota; [|done].
  destruct (String.eqb_spec magic "hsqs") as [->|]; cbn [negb]; [|done].
  spec_call as r; [done|]. destruct r as [rest|e]; simpl map_err; cbv iota; [|done].
  destruct (String.eqb_spec (sha256 ("hsqs" +:+ rest)) (mf_sha256 m)) as [Hsha|]; cbn [negb]; [|done].
  unfold require_file, require_with_ops, inspect_flags, io_context. spec_call as r; [done|].
  destruct r as [f2|e]; simpl map_err; cbv iota; [|done]. destruct (sealed imm f2) eqn:Hs2; spec_down; [|done].
  intros t [= <-]. exists m, h1, rest, f1, f2. split; [by do 3 apply monotone|]. split_and!; try done. by rewrite <- !(assoc_L (++)).
Qed.
End admission.

Definition sample_digest : string := String.concat "" (replicate 64 "0").
Definition sample_manifest : Manifest := {| mf_schema_version := 1; mf_system := "x86_64-linux"; mf_sha256 := sample_digest |}.

(** A host with a sealed toolstore. *)
Definition toolstore_host (h : list sys_event) (op : sysop) : ans op :=
  match op return ans op with
  | OGetFlags _ => Ok 16%N
  | OReadExact _ _ => Ok (Some "hsqs")
  | op => idle_host h op
  end.

Lemma toolstore_admitted_witness :
  let p := Toolstore_open (join "/") 16 (λ _, sample_digest) (λ _, Some sample_manifest) "x86_64" ["store"] in
  let r := exec toolstore_host p [] in
  let t := {| ts_file := 4; ts_digest := sample_digest |} in
  fst r = Some (Ok t) ∧ admitted 16 (λ _, sample_digest) (λ _, Some sample_manifest) "x86_64" ["store"] t (snd r).
Proof.
  intros p r t. assert (E : fst r = Some (Ok t)) by (vm_compute; reflexivity). split; [exact E|].
  apply (toolstore_admitted (join "/") 16 (λ _, sample_digest) (λ _, Some sample_manifest) "x86_64" ["store"] (snd r) (fst r) t);
    [apply exec_run_nil|exact E].
Defined.
