(* ===== verification/Launch.v ===== *)
(** * Launch: staging and starting a microVM ([firecracker.rs], [transport.rs])

    The parts of a boot and of a restore before the guest runs: the host
    dependencies, the jail, the tap, the jailer's command line, the API calls, and
    the process that waits behind the launch barrier.  What is awaited goes
    through [awaited], so that a caller can give up there. *)

From S2P Require Import Prelude RStr Fs Room Slot Host Config Snapshot Intents Prog Sys Teardown InodeSeal Images.
From stdpp Require Import options.

(** A step whose failure is followed by the drops of what the frame holds. *)
Definition unwinding {E A : Type} (drops : sys unit) (p : sys (result E A)) : sys (result E A) :=
  let* r := p in
  match r with
  | Ok a => Ret (Ok a)
  | Err e => do* drops in Ret (Err e)
  end.

Lemma spec_unwinding {E A : Type} R (drops : sys unit) (p : sys (result E A)) h Q :
  spec R p h (λ r h', match r with Ok a => Q (Ok a) h' | Err e => spec R drops h' (λ _ h'', Q (Err e) h'') end) →
  spec R (unwinding drops p) h Q.
Proof.
  intros Hp. apply spec_bind. eapply spec_mono; [exact Hp|]. intros [a|e] h' Hr; [exact Hr|]. by apply spec_bind.
Qed.

Lemma only_unwinding {E A : Type} ok (drops : sys unit) (p : sys (result E A)) :
  only ok p → only ok drops → only ok (unwinding drops p).
Proof. intros Hp Hd. apply only_bind; [done|]. intros [a|e]; [exact I|]. by apply only_bind. Qed.

#[export] Hint Resolve only_unwinding : only.

Definition drop_task (task : option handle) : sys unit :=
  match task with Some task => call (ODropTask task) | None => Ret () end.

(** ** Names and numbers *)

Definition FIRECRACKER_USER : string := "firecracker".
Definition JAIL_API_SOCK : string := "api.sock".
Definition NETWORK_NAMESPACE_DIR : string := "/run/netns".

Definition network_namespace_path (namespace : string) : string := NETWORK_NAMESPACE_DIR +:+ "/" +:+ namespace.
Definition process_network_namespace_path (pid : N) : string := "/proc/" +:+ show_N pid +:+ "/ns/net".

Definition same_namespace_identity (left right : N * N) : bool :=
  (fst left =? fst right)%N && (snd left =? snd right)%N.

Record NetworkConfig := { nc_tap_name : string; nc_guest_ip : string; nc_gateway_ip : string; nc_prefix : N }.

(** [u32::MAX << (32 - p)] on 32 bits. *)
Definition prefix_to_netmask (prefix : N) : string :=
  let p := N.min prefix 32 in
  show_ipv4 (if (p =? 0)%N then 0%N else N.land (N.shiftl u32_max (32 - p)) u32_max).

Record Resources := { rs_cpus : N; rs_memory_mib : N; rs_disk_gib : option N }.

Definition Resources_default : Resources := {| rs_cpus := 1; rs_memory_mib := 256; rs_disk_gib := None |}.

Definition between (lo hi n : N) : bool := ((lo <=? n) && (n <=? hi))%N.

Definition Resources_validate (r : Resources) (readonly base : bool) : result FirecrackerError unit :=
  if negb (between 1 32 (rs_cpus r)) ||
     ((1 <? rs_cpus r) && negb (rs_cpus r mod 2 =? 0))%N ||
     negb (between 128 65536 (rs_memory_mib r)) ||
     match rs_disk_gib r with Some gib => negb (between 1 1024 gib) | None => false end
  then Err (FcInternal "invalid room resources") else
  if match rs_disk_gib r with Some _ => true | None => false end && (negb readonly || base)
  then Err (FcInternal "scratch requires a read-only cold room") else Ok ().

Definition parse_getent_passwd (line : string) : option (N * N) :=
  line ← head (lines line);
  let line := trim line in
  if is_empty line then None else
  match split_byte ":" line with
  | _ :: _ :: uid :: gid :: _ => uid ← parse_uint u32_max uid; gid ← parse_uint u32_max gid; Some (uid, gid)
  | _ => None
  end.

Definition OVERLAY_INIT : string := "/sbin/overlay-init".

Definition build_boot_args (network : option NetworkConfig) (readonly_rootfs base_mode : bool) : string :=
  let base := "console=ttyS0 reboot=k panic=1 pci=off random.trust_cpu=on" in
  let base := if readonly_rootfs then base +:+ " rootflags=noload" +:+ " init=" +:+ OVERLAY_INIT else base in
  let base := if base_mode then base +:+ " ipv6.disable=1 rooms.base=1" else base in
  match network with
  | None => base
  | Some net => base +:+ " ip=" +:+ nc_guest_ip net +:+ "::" +:+ nc_gateway_ip net +:+ ":" +:+
                prefix_to_netmask (nc_prefix net) +:+ "::eth0:off"
  end.

Definition rootfs_drive_payload (rootfs : string) (readonly_rootfs : bool) : json :=
  JObject [("drive_id", JString "rootfs"); ("path_on_host", JString rootfs);
           ("is_root_device", JBool true); ("is_read_only", JBool readonly_rootfs)].

(** ** The tap of a slot *)

Record TapCommand := { tc_program : string; tc_args : list string }.

Definition TapCommand_display (c : TapCommand) : string := tc_program c +:+ " " +:+ join " " (tc_args c).

Definition flat_tap_plan (slot : Slot) : list TapCommand :=
  let cidr := show_ipv4 (slot_gateway slot) +:+ "/" +:+ show_N (slot_prefix slot) in
  [{| tc_program := "ip"; tc_args := ["tuntap"; "add"; slot_tap slot; "mode"; "tap"; "user"; FIRECRACKER_USER] |};
   {| tc_program := "ip"; tc_args := ["addr"; "add"; cidr; "dev"; slot_tap slot] |};
   {| tc_program := "ip"; tc_args := ["link"; "set"; slot_tap slot; "up"] |};
   {| tc_program := "sysctl"; tc_args := ["-w"; "net.ipv4.conf." +:+ slot_tap slot +:+ ".forwarding=1"] |}].

Definition slot_tap_plan (slot : Slot) (network_namespace : option string) : list TapCommand :=
  match network_namespace with
  | None => flat_tap_plan slot
  | Some namespace =>
      (λ c, {| tc_program := "ip"; tc_args := ["netns"; "exec"; namespace; tc_program c] ++ tc_args c |}) <$> flat_tap_plan slot
  end.

Definition run_tap_command (c : TapCommand) : sys (result FirecrackerError unit) :=
  try* out := pmap_err FcIo (call (ORun (tc_program c) (tc_args c))) in
  if success out then Ret (Ok ())
  else Ret (Err (FcInternal (TapCommand_display c +:+ " failed: " +:+ trim (stderr out)))).

Definition create_slot_tap (slot : Slot) (network_namespace : option string) : sys (result FirecrackerError unit) :=
  try* _ := ptry_each run_tap_command (slot_tap_plan slot network_namespace) in Ret (Ok ()).

Definition tap_namespace_probe (namespace tap : string) : TapCommand :=
  {| tc_program := "ip"; tc_args := ["-n"; namespace; "link"; "show"; "dev"; tap] |}.

Definition verify_tap_in_namespace (namespace tap : string) : sys (result FirecrackerError unit) :=
  run_tap_command (tap_namespace_probe namespace tap).

Definition namespace_identity (p : string) : sys (result FirecrackerError (N * N)) :=
  try* meta := pmap_err (λ e, FcInternal ("inspect network namespace " +:+ p +:+ ": " +:+ message e))
                 (call (OStat (path_join [] p))) in
  Ret (Ok (fi_device (st_id meta), fi_inode (st_id meta))).

Definition show_identity (id : N * N) : string := "(" +:+ show_N (fst id) +:+ ", " +:+ show_N (snd id) +:+ ")".

Definition verify_process_network_namespace (pid : N) (namespace : string) : sys (result FirecrackerError unit) :=
  try* expected := namespace_identity (network_namespace_path namespace) in
  try* actual := namespace_identity (process_network_namespace_path pid) in
  if same_namespace_identity expected actual then Ret (Ok ())
  else Ret (Err (FcInternal ("process " +:+ show_N pid +:+ " network namespace " +:+ show_identity actual +:+
                             " does not match " +:+ network_namespace_path namespace +:+ " " +:+ show_identity expected))).

Section launch.
  Variable show_path : path → string.
  (** A path given as text, from the working directory. *)
  Variable resolve : string → path.
  (** [Duration::as_secs_f64] of milliseconds, as text. *)
  Variable show_secs : N → string.
  (** [serde_json::to_string]. *)
  Variable show_json : json → result string string.
  Variable immutable_flag : N.
  Variable home : option path.
  Variable config : RoomsConfig.
  Variable fuel : nat.
  (** An [.await]: the caller may be dropped there. *)
  Variable awaited : ∀ A : Type, sys (result FirecrackerError A) → sys (result FirecrackerError A).
  Arguments awaited {A} _.

(** ** What the host must have *)

(** The exit status is not looked at. *)
Definition ensure_root : sys (result FirecrackerError unit) :=
  try* output := pmap_err FcIo (call (ORun "id" ["-u"])) in
  if (trim (stdout output) =? "0")%string then Ret (Ok ()) else Ret (Err FcRootRequired).

Definition check_kvm : sys (result FirecrackerError unit) :=
  let p := ["dev"; "kvm"] in
  let* here := call (OExists p) in
  if negb here then Ret (Err FcKvmUnavailable) else
  try* _ := pmap_err (λ _, FcKvmUnavailable) (call (OOpen p OpenReadWrite)) in Ret (Ok ()).

Definition is_absolute (s : string) : bool := starts_with s "/".

(** [Path::join] of two texts, the second one relative. *)
Definition join_text (dir name : string) : string :=
  if is_empty dir || ends_with_byte "/" dir then dir +:+ name else dir +:+ "/" +:+ name.

(** [Iterator::find] over calls. *)
Fixpoint find_file (candidates : list string) : sys (option string) :=
  match candidates with
  | [] => Ret None
  | c :: candidates =>
      let* file := call (OIsFile (resolve c)) in
      if file : bool then Ret (Some c) else find_file candidates
  end.

Definition resolve_binary_on_path (binary : string) (not_found : string → FirecrackerError)
    : sys (result FirecrackerError string) :=
  if is_absolute binary || (1 <? length (components binary))%nat then
    let* here := call (OExists (resolve binary)) in
    if here : bool then Ret (Ok binary) else Ret (Err (not_found binary))
  else
    let* path_var := call (OEnv "PATH") in
    match path_var with
    | None => Ret (Err (FcJailPrepareFailed "PATH unset"))
    | Some path_var =>
        let* found := find_file ((λ dir, join_text dir binary) <$> split_byte ":" path_var) in
        Ret (ok_or found (not_found binary))
    end.

Definition resolve_firecracker_binary : sys (result FirecrackerError string) :=
  resolve_binary_on_path (firecracker_binary config) FcBinaryNotFound.

Definition resolve_jailer_binary : sys (result FirecrackerError string) :=
  resolve_binary_on_path (jailer_binary config) FcJailerNotFound.

Definition lookup_firecracker_ids : sys (result FirecrackerError (N * N)) :=
  try* output := pmap_err FcIo (call (ORun "getent" ["passwd"; FIRECRACKER_USER])) in
  if negb (success output) then Ret (Err (FcUserMissing FIRECRACKER_USER))
  else Ret (ok_or (parse_getent_passwd (stdout output)) (FcUserMissing FIRECRACKER_USER)).

Definition lookup_firecracker_ids_async : sys (result FirecrackerError (N * N)) := awaited lookup_firecracker_ids.

Record boot_deps := { bd_firecracker : string; bd_jailer : string; bd_uid : N; bd_gid : N }.

Definition resolve_boot_dependencies : sys (result FirecrackerError boot_deps) :=
  try* _ := ensure_root in
  try* _ := check_kvm in
  try* firecracker := resolve_firecracker_binary in
  try* jailer := resolve_jailer_binary in
  try* ids := lookup_firecracker_ids_async in
  Ret (Ok {| bd_firecracker := firecracker; bd_jailer := jailer; bd_uid := fst ids; bd_gid := snd ids |}).

(** ** The jail *)

Definition launch_chroot_base : result FirecrackerError path := ok_or (chroot_base home config) FcHomeUnset.
Definition launch_instance_dir (chroot_base : path) (room_id : string) : path :=
  path_join (path_join chroot_base "firecracker") room_id.
Definition launch_jail_root (chroot_base : path) (room_id : string) : path :=
  path_join (launch_instance_dir chroot_base room_id) "root".

Record JailLayout := { jl_instance_dir : path; jl_host_socket : path }.

Definition bind_mount (source target : path) : sys (result FirecrackerError unit) :=
  let what := "mount --bind " +:+ show_path source +:+ " -> " +:+ show_path target in
  try* output := pmap_err (λ e, FcJailPrepareFailed (what +:+ ": " +:+ message e))
                   (call (ORun "mount" ["--bind"; show_path source; show_path target])) in
  if success output then Ret (Ok ())
  else Ret (Err (FcJailPrepareFailed (what +:+ " failed (need root?): " +:+ stderr output))).

Definition unmount_quiet (target : path) : sys unit := do* unmount show_path target in Ret ().

Definition ensure_mount_target (what : string) (target : path) : sys (result FirecrackerError unit) :=
  let* here := call (OExists target) in
  if here : bool then Ret (Ok ()) else
  try* _ := pmap_err (λ e, FcJailPrepareFailed ("create " +:+ what +:+ ": " +:+ message e)) (call (OOpen target OpenCreate)) in
  Ret (Ok ()).

Definition stage_jail_sync (chroot_base : path) (room_id : string) (kernel rootfs : path)
    : sys (result FirecrackerError unit) :=
  let jail_root := launch_jail_root chroot_base room_id in
  try* _ := pmap_err (λ e, FcJailPrepareFailed ("create jail root " +:+ show_path jail_root +:+ ": " +:+ message e))
              (call (OCreateDirAll jail_root)) in
  let jail_kernel := path_join jail_root JAIL_KERNEL in
  let jail_rootfs := path_join jail_root JAIL_ROOTFS in
  try* _ := ptry_each (λ target, ensure_mount_target ("mount target " +:+ show_path target) target) [jail_kernel; jail_rootfs] in
  try* _ := bind_mount kernel jail_kernel in
  unwinding (do* unmount_quiet jail_kernel in
             do* call (ORemoveDirAll (launch_instance_dir chroot_base room_id)) in Ret ())
    (bind_mount rootfs jail_rootfs).

Definition canonical (what : string) (p : path) : sys (result FirecrackerError path) :=
  pmap_err (λ e, FcJailPrepareFailed (what +:+ " path " +:+ show_path p +:+ ": " +:+ message e)) (call (OCanonicalize p)).

Definition prepare_jail_layout (chroot_base : path) (room_id : string) (kernel rootfs : path)
    : sys (result FirecrackerError JailLayout) :=
  try* kernel := canonical "kernel" kernel in
  try* rootfs := canonical "rootfs" rootfs in
  try* _ := stage_jail_sync chroot_base room_id kernel rootfs in
  Ret (Ok {| jl_instance_dir := launch_instance_dir chroot_base room_id;
             jl_host_socket := path_join (launch_jail_root chroot_base room_id) JAIL_API_SOCK |}).

Definition stage_toolstore (toolstore : Toolstore) (jail : path) (require_scratch : bool)
    : sys (result FirecrackerError unit) :=
  try* _ := pmap_err FcInternal (validate_toolstore_image show_path (path_join jail JAIL_ROOTFS)) in
  try* _ := (if require_scratch then pmap_err FcInternal (validate_scratch_image show_path (path_join jail JAIL_ROOTFS))
             else Ret (Ok ())) in
  let target := path_join jail JAIL_TOOLSTORE in
  try* _ := pmap_err (λ e, FcInternal (message e)) (call (OOpen target OpenCreateNew)) in
  pmap_err FcInternal (bind_into show_path immutable_flag toolstore target).

Definition prepare_toolstore (toolstore : Toolstore) (jail : path) (require_scratch : bool)
    : sys (result FirecrackerError unit) :=
  try* toolstore := pmap_err (λ e, FcInternal (message e)) (Toolstore_try_clone toolstore) in
  stage_toolstore toolstore jail require_scratch.

Definition prepare_scratch (jail : path) (gib uid gid : N) : sys (result FirecrackerError unit) :=
  let p := path_join jail "scratch.ext4" in
  try* file := awaited (pmap_err FcIo (call (OOpen p OpenCreateNew))) in
  try* _ := awaited (pmap_err FcIo (call (OSetLen file (gib * 1024 * 1024 * 1024)))) in
  try* output := awaited (pmap_err FcIo (call (ORun "mkfs.ext4" ["-q"; "-F"; "-m"; "0"; show_path p]))) in
  if negb (success output) then Ret (Err (FcInternal ("format scratch disk: " +:+ stderr output))) else
  try* _ := pmap_err FcIo (call (OSetMode p 384)) in
  pmap_err FcIo (call (OChown p uid gid)).

Definition prepare_room_dir (per_room_dir : path) : sys (result FirecrackerError unit) :=
  try* _ := match parent per_room_dir with
            | Some parent => pmap_err FcIo (call (OCreateDirAll parent))
            | None => Ret (Ok ())
            end in
  pmap_err FcIo (call (OMkdirPrivate per_room_dir)).

(** ** The jailer *)

Record JailerLaunchPlan := {
  jp_jailer_binary : string;
  jp_jailer_args : list string;
  jp_firecracker_args : list string;
  jp_host_socket : path;
  jp_kernel_path_in_jail : string;
  jp_rootfs_path_in_jail : string
}.

Record JailerLaunchInput := {
  ji_jailer_binary : string;
  ji_firecracker_binary : string;
  ji_chroot_base : path;
  ji_room_id : string;
  ji_fc_uid : N;
  ji_fc_gid : N;
  ji_layout : JailLayout;
  ji_network_namespace : option string
}.

Definition build_jailer_launch_plan (input : JailerLaunchInput) : JailerLaunchPlan :=
  {| jp_jailer_binary := ji_jailer_binary input;
     jp_jailer_args :=
       ["--id"; ji_room_id input; "--uid"; show_N (ji_fc_uid input); "--gid"; show_N (ji_fc_gid input);
        "--exec-file"; ji_firecracker_binary input; "--chroot-base-dir"; show_path (ji_chroot_base input)] ++
       match ji_network_namespace input with
       | Some namespace => ["--netns"; network_namespace_path namespace]
       | None => []
       end;
     jp_firecracker_args := ["--api-sock"; JAIL_API_SOCK];
     jp_host_socket := jl_host_socket (ji_layout input);
     jp_kernel_path_in_jail := "/" +:+ JAIL_KERNEL;
     jp_rootfs_path_in_jail := "/" +:+ JAIL_ROOTFS |}.

(** The log is opened twice: for the output and for the errors. *)
Definition open_log_file (log_path : path) : sys (result FirecrackerError unit) :=
  awaited (try* f := pmap_err FcIo (call (OOpen log_path OpenCreate)) in
           try* _ := pmap_err FcIo (call (OTryClone f)) in Ret (Ok ())).

Definition spawn_jailer (plan : JailerLaunchPlan) : sys (result FirecrackerError handle) :=
  pmap_err (λ e, if decide (kind e = NotFound) then FcJailerNotFound (jp_jailer_binary plan) else FcIo e)
    (call (OSpawn (jp_jailer_binary plan) (jp_jailer_args plan ++ ["--"] ++ jp_firecracker_args plan))).

Definition barrier_script : string :=
  "IFS= read -r _go || exit 1; exec " +:+ String "034" "$0" +:+ String "034" " " +:+ String "034" "$@" +:+ String "034" "".

Definition spawn_barriered_jailer (plan : JailerLaunchPlan) : sys (result FirecrackerError handle) :=
  pmap_err FcIo
    (call (OSpawn "/bin/sh" (["-c"; barrier_script; jp_jailer_binary plan] ++ jp_jailer_args plan ++ ["--"] ++
                             jp_firecracker_args plan))).

(** ** The API *)

Definition api_request (socket : path) (method endpoint : string) (body : json) : sys (result FirecrackerError unit) :=
  let timeout := timeout_for_endpoint config endpoint in
  match show_json body with
  | Err e => Ret (Err (FcInternal ("transport: failed to serialize request body: " +:+ e)))
  | Ok body_str =>
      try* reply := awaited (pmap_err (λ e, FcInternal ("transport: curl invocation failed: " +:+ message e))
        (call (ORunStatus "curl" ["--unix-socket"; show_path socket; "-X"; method; "http://localhost" +:+ endpoint;
                                  "-H"; "Content-Type: application/json"; "-d"; body_str; "--fail-with-body";
                                  "--silent"; "--show-error"; "--max-time"; show_secs timeout]))) in
      let '(code, output) := reply in
      if decide (code = Some 28%Z) then Ret (Err (FcApiCallTimedOut endpoint timeout)) else
      if negb (success output) then
        Ret (Err (FcApiCallFailed method endpoint (default (-1)%Z code)
                    ("stderr=" +:+ stderr output +:+ ", stdout=" +:+ stdout output)))
      else Ret (Ok ())
  end.

Definition api_put (socket : path) (endpoint : string) (body : json) := api_request socket "PUT" endpoint body.
Definition api_patch (socket : path) (endpoint : string) (body : json) := api_request socket "PATCH" endpoint body.

(** The last [n] characters of a text in UTF-8, from its bytes in reverse: a
    continuation byte comes before the byte that starts its character. *)
Definition is_continuation (a : byte) : bool := in_range 128 191 a.

Fixpoint take_chars (n : nat) (l : list byte) : list byte :=
  match n, l with
  | S m, a :: l => a :: take_chars (if is_continuation a then n else m) l
  | _, _ => []
  end.

Definition last_chars (n : nat) (s : string) : string :=
  String.string_of_list_ascii (rev (take_chars n (rev (String.list_ascii_of_string s)))).

Definition read_log_tail (log_path : option path) (socket : path) : sys (result FirecrackerError string) :=
  let p := match log_path with
           | Some p => p
           | None => match parent socket with Some d => path_join d "firecracker.log" | None => socket end
           end in
  awaited (let* content := call (OReadText p) in
           Ret (Ok (last_chars 512 (match content with Ok s => s | Err _ => "" end)))).

(** The loop, the time since [start] being less than [timeout] on entry. *)
Fixpoint wait_for_socket_from (fuel : nat) (start : N) (socket : path) (timeout : N) (child : handle)
    (log_path : option path) : sys (result FirecrackerError unit) :=
  match fuel with
  | 0 => Spin
  | S fuel =>
      let* now := call ONow in
      if (now - start <? timeout)%N then
        try* exited := pmap_err FcIo (call (OTryWait child)) in
        match exited with
        | Some code =>
            try* tail := read_log_tail log_path socket in
            Ret (Err (FcProcessExitedEarly (default (-1)%Z code) tail))
        | None =>
            try* connected := awaited (let* c := call (OConnect socket) in Ret (Ok c)) in
            if connected : bool then Ret (Ok ()) else
            try* _ := awaited (do* call (OSleep 50) in Ret (Ok ())) in
            wait_for_socket_from fuel start socket timeout child log_path
        end
      else Ret (Err (FcApiSocketNeverAppeared (N.min timeout u64_max)))
  end.

Definition wait_for_socket (socket : path) (timeout : N) (child : handle) (log_path : option path)
    : sys (result FirecrackerError unit) :=
  let* start := call ONow in
  wait_for_socket_from fuel start socket timeout child log_path.

Record VmSpec := {
  vs_toolstore : bool;
  vs_resources : Resources;
  vs_kernel : string;
  vs_rootfs_drive : json;
  vs_network : option NetworkConfig;
  vs_boot_args : string;
  vs_vsock : bool
}.

Definition GUEST_CID : N := 3.
Definition UDS_NAME : string := "v.sock".

(** One request, and the ones made only if [b]. *)
Definition put_if (b : bool) (socket : path) (endpoint : string) (body : json) : sys (result FirecrackerError unit) :=
  if b then api_put socket endpoint body else Ret (Ok ()).

Definition drive (id path_on_host : string) (read_only : bool) : json :=
  JObject [("drive_id", JString id); ("path_on_host", JString path_on_host);
           ("is_root_device", JBool false); ("is_read_only", JBool read_only)].

Definition configure_vm (socket : path) (spec : VmSpec) : sys (result FirecrackerError unit) :=
  try* _ := api_put socket "/boot-source"
              (JObject [("kernel_image_path", JString (vs_kernel spec)); ("boot_args", JString (vs_boot_args spec))]) in
  try* _ := api_put socket "/drives/rootfs" (vs_rootfs_drive spec) in
  try* _ := put_if (match rs_disk_gib (vs_resources spec) with Some _ => true | None => false end)
              socket "/drives/scratch" (drive "scratch" "/scratch.ext4" false) in
  try* _ := put_if (vs_toolstore spec) socket "/drives/toolstore" (drive "toolstore" ("/" +:+ JAIL_TOOLSTORE) true) in
  try* _ := api_put socket "/machine-config"
              (JObject [("vcpu_count", JNumber (rs_cpus (vs_resources spec)));
                        ("mem_size_mib", JNumber (rs_memory_mib (vs_resources spec)))]) in
  try* _ := match vs_network spec with
            | Some net => api_put socket "/network-interfaces/eth0"
                            (JObject [("iface_id", JString "eth0"); ("host_dev_name", JString (nc_tap_name net))])
            | None => Ret (Ok ())
            end in
  try* _ := put_if (vs_vsock spec) socket "/vsock"
              (JObject [("guest_cid", JNumber GUEST_CID); ("uds_path", JString ("/" +:+ UDS_NAME))]) in
  try* _ := api_put socket "/entropy" (JObject []) in
  api_put socket "/actions" (JObject [("action_type", JString "InstanceStart")]).

End launch.
