(* ===== verification/Boot.v ===== *)
(** * Boot: a cold boot ([firecracker.rs])

    The boot of a room from its claimed slot to a running guest, the handle it
    returns, and the metadata it records.  The locals of the source are dropped
    in its order when a step fails: a task or child that runs is ended, then the
    room's guard cleans up. *)

From S2P Require Import Prelude RStr Fs Room Slot Host Egress Config Snapshot Prog Returns Sys Process Teardown InodeSeal Images Launch.
From stdpp Require Import options.

(** ** The claim before the guard *)

Definition PendingSlotClaim : Type := option SlotRelease.

Definition PendingSlotClaim_new (base : path) (slot : Slot) (room_id : string) : PendingSlotClaim :=
  Some {| sl_state_base := base; sl_index := slot_index slot; sl_tap := slot_tap slot; sl_room_id := room_id |}.

Definition PendingSlotClaim_handoff (claim : PendingSlotClaim) (guard : RoomGuard) : RoomGuard :=
  match claim with Some release => set_slot release guard | None => guard end.

Definition PendingSlotClaim_drop (claim : PendingSlotClaim) : sys unit :=
  match claim with
  | Some release => do* call (OSlotFree (sl_state_base release) (sl_index release) (sl_room_id release)) in Ret ()
  | None => Ret ()
  end.

(** ** The guard's other setters *)

Definition set_child (child_pid : option N) (g : RoomGuard) : RoomGuard :=
  {| g_room_dir := g_room_dir g; g_socket := g_socket g; g_child_pid := child_pid;
     g_tap_name := g_tap_name g; g_tap_owned := g_tap_owned g; g_slot_release := g_slot_release g;
     g_suppress_cleanup := g_suppress_cleanup g; g_dismiss := g_dismiss g;
     g_cleanup_grace := g_cleanup_grace g; g_jail_instance_dir := g_jail_instance_dir g |}.

Definition set_tap (tap : string) (g : RoomGuard) : RoomGuard :=
  {| g_room_dir := g_room_dir g; g_socket := g_socket g; g_child_pid := g_child_pid g;
     g_tap_name := Some tap; g_tap_owned := g_tap_owned g; g_slot_release := g_slot_release g;
     g_suppress_cleanup := g_suppress_cleanup g; g_dismiss := g_dismiss g;
     g_cleanup_grace := g_cleanup_grace g; g_jail_instance_dir := g_jail_instance_dir g |}.

Definition set_suppress_cleanup (suppress : bool) (g : RoomGuard) : RoomGuard :=
  {| g_room_dir := g_room_dir g; g_socket := g_socket g; g_child_pid := g_child_pid g;
     g_tap_name := g_tap_name g; g_tap_owned := g_tap_owned g; g_slot_release := g_slot_release g;
     g_suppress_cleanup := suppress; g_dismiss := g_dismiss g;
     g_cleanup_grace := g_cleanup_grace g; g_jail_instance_dir := g_jail_instance_dir g |}.

(** ** Requests *)

Record RoomDescriptor := { rd_command : option string; rd_keep : bool }.

Record ProvisioningPayload := { pp_bundle : string; pp_warm : string; pp_base_repo_sha : option string }.

Definition ProvisioningPayload_new (bundle : string) (warm : option string) : ProvisioningPayload :=
  {| pp_bundle := bundle; pp_warm := default "" warm; pp_base_repo_sha := None |}.

Definition pinned_to (commit : string) (p : ProvisioningPayload) : ProvisioningPayload :=
  {| pp_bundle := pp_bundle p; pp_warm := pp_warm p; pp_base_repo_sha := Some commit |}.

Record BootRequest := {
  br_toolstore : option Toolstore;
  br_resources : Resources;
  br_kernel : path;
  br_rootfs : path;
  br_network : option NetworkConfig;
  br_slot : option Slot;
  br_room_id : string;
  br_readonly_rootfs : bool;
  br_descriptor : RoomDescriptor;
  br_witness : bool;
  br_secrets : option string;
  br_provisioning : option ProvisioningPayload;
  br_egress : Egress.Plan;
  br_base : bool
}.

Definition is_some {A : Type} (o : option A) : bool := match o with Some _ => true | None => false end.

(** The running machine, its tasks and its guard. *)
Record BootedVm := {
  vm_witness : option handle;
  vm_secrets_delivery : option handle;
  vm_provisioning_delivery : option handle;
  vm_guard : RoomGuard;
  vm_child : handle
}.

Definition boot_cancelled : FirecrackerError := FcInternal "boot cancelled before handoff".

(** Cancellation is looked at whenever an awaited step has answered. *)
Definition cancellable {A : Type} (p : sys (result FirecrackerError A)) : sys (result FirecrackerError A) :=
  let* r := p in
  let* cancelled := call OCancelled in
  if cancelled : bool then Ret (Err boot_cancelled) else Ret r.

Definition SECRETS_PORT : N := 5000.

Definition listener_path_for (jail_root : path) (port : N) : path := path_join jail_root (UDS_NAME +:+ "_" +:+ show_N port).
Definition listener_path (jail_root : path) : path := listener_path_for jail_root SECRETS_PORT.

(** ** Metadata *)

(** [meta.slot], [meta.toolstore_sha256] and [meta.base_repo_sha] assigned. *)
Definition set_admission (s : option Slot) (toolstore base_sha : option string) (m : RoomMeta) : RoomMeta :=
  {| schema_version := schema_version m; meta_id := meta_id m; label := label m; started_at := started_at m;
     pid := pid m; pid_starttime := pid_starttime m; keep := keep m; slot := s;
     clone_net_index := clone_net_index m; provenance := provenance m; snapshot_lineage := snapshot_lineage m;
     toolstore_sha256 := toolstore; base_repo_sha := base_sha |}.

(** [pid.and_then(room::starttime_of)]. *)
Definition starttime_of_child (pid : option N) : sys (option N) :=
  match pid with
  | Some pid => let* stat := call (OProcStat pid) in Ret (starttime_of (λ _, stat) pid)
  | None => Ret None
  end.

Definition write_room_meta (room_dir : path) (req : BootRequest) (pid : option N) : sys (result FirecrackerError unit) :=
  let* starttime := starttime_of_child pid in
  let build := if br_base req then RoomMeta_new_base else RoomMeta_new in
  let* now := call ONow in
  let meta := build (br_room_id req) (rd_command (br_descriptor req)) pid starttime (rd_keep (br_descriptor req)) (Z.of_N now) in
  let meta := set_admission (br_slot req) (ts_digest <$> br_toolstore req)
                (br_provisioning req ≫= pp_base_repo_sha) meta in
  let* written := call (OWriteMeta room_dir meta) in
  match written with
  | Ok _ => Ret (Ok ())
  | Err e => if br_base req then Ret (Err (FcIo e)) else Ret (Ok ())
  end.

Section boot.
  Variable show_path : path → string.
  Variable resolve : string → path.
  Variable show_secs : N → string.
  Variable show_json : json → result string string.
  Variable immutable_flag : N.
  Variable home : option path.
  Variable config : RoomsConfig.
  Variable fuel : nat.
  Variable req : BootRequest.

Definition install_egress : sys (result FirecrackerError unit) :=
  match enforces (br_egress req), br_slot req with
  | false, _ => Ret (Ok ())
  | true, Some slot =>
      pmap_err (λ e, FcInternal ("egress: " +:+ e)) (call (OEgressInstall (slot_tap slot) (br_egress req)))
  | true, None =>
      Ret (Err (FcInternal "egress: enforcement requires a pool slot (the per-room tap); refusing on the shared tap"))
  end.

Definition start_witness (tap : string) (room_dir : path) : sys (result FirecrackerError handle) :=
  pmap_err (λ e, FcInternal ("witness: " +:+ e)) (call (OWitnessStart None tap room_dir)).

Definition boot_witness (per_room_dir : path) : sys (result FirecrackerError (option handle)) :=
  match br_witness req, br_slot req with
  | false, _ => Ret (Ok None)
  | true, Some slot =>
      (* a capture that was starting goes with the boot *)
      let* started := start_witness (slot_tap slot) per_room_dir in
      let* cancelled := call OCancelled in
      if cancelled : bool then
        do* drop_task (match started with Ok w => Some w | Err _ => None end) in Ret (Err boot_cancelled)
      else Ret (rmap Some started)
  | true, None =>
      Ret (Err (FcInternal "witness: requires a pool slot (the per-room tap); refusing to witness the shared tap"))
  end.

Definition bind_secrets_listener (jail_root : path) (uid gid : N) : sys (result FirecrackerError (option handle)) :=
  match br_secrets req with
  | None => Ret (Ok None)
  | Some payload =>
      let listen := listener_path jail_root in
      try* delivery := pmap_err (λ e, FcInternal ("secrets: bind vsock listener " +:+ show_path listen +:+ ": " +:+ message e))
                         (call (OServeOneShot listen payload (uid, gid))) in
      Ret (Ok (Some delivery))
  end.

Definition bind_provisioning_listener (jail_root : path) (uid gid : N) : sys (result FirecrackerError (option handle)) :=
  match br_provisioning req with
  | None => Ret (Ok None)
  | Some payload =>
      try* delivery := pmap_err (λ e, FcInternal ("base provisioning: bind listeners in " +:+ show_path jail_root +:+ ": " +:+ message e))
                         (call (OServeProvisioning jail_root (pp_bundle payload) (pp_warm payload) (uid, gid))) in
      Ret (Ok (Some delivery))
  end.

Definition boot_args_of : string :=
  let args := build_boot_args (br_network req) (br_readonly_rootfs req) (br_base req) in
  let args := if is_some (rs_disk_gib (br_resources req)) then args +:+ " rooms.scratch=1" else args in
  if is_some (br_toolstore req) then
    args +:+ " rooms.toolstore=" +:+ (if is_some (rs_disk_gib (br_resources req)) then "vdc" else "vdb")
  else args.

Definition configure_boot (socket : path) (launch : JailerLaunchPlan) : sys (result FirecrackerError unit) :=
  configure_vm show_path show_secs show_json config (@cancellable) socket
    {| vs_toolstore := is_some (br_toolstore req); vs_resources := br_resources req;
       vs_kernel := jp_kernel_path_in_jail launch;
       vs_rootfs_drive := rootfs_drive_payload (jp_rootfs_path_in_jail launch) (br_readonly_rootfs req);
       vs_network := br_network req; vs_boot_args := boot_args_of;
       vs_vsock := is_some (br_secrets req) || br_base req |}.

(** The jailer is running. *)
Definition after_spawn (per_room_dir socket log_path : path) (launch : JailerLaunchPlan) (child : handle)
    (child_pid : option N) : sys (result FirecrackerError unit) :=
  try* _ := write_room_meta per_room_dir req child_pid in
  try* _ := wait_for_socket fuel (@cancellable) socket (api_socket_timeout config) child (Some log_path) in
  configure_boot socket launch.

(** The cancellable block of [boot_with_cancellation], in three parts, from its end.
    A failure returns the guard as it is then, whose drop is the caller's last act. *)
Definition fails {A : Type} (guard : RoomGuard) (p : sys (result FirecrackerError A))
    : sys (result (FirecrackerError * RoomGuard) A) := pmap_err (λ e, (e, guard)) p.

(** The jailer's process. *)
Definition jailer_block (guard : RoomGuard) (deps : boot_deps) (layout : JailLayout) (per_room_dir chroot socket : path)
    (witness secrets provisioning : option handle) : sys (result (FirecrackerError * RoomGuard) BootedVm) :=
  let log_path := path_join per_room_dir "firecracker.log" in
  let launch := build_jailer_launch_plan show_path
    {| ji_jailer_binary := bd_jailer deps; ji_firecracker_binary := bd_firecracker deps; ji_chroot_base := chroot;
       ji_room_id := br_room_id req; ji_fc_uid := bd_uid deps; ji_fc_gid := bd_gid deps; ji_layout := layout;
       ji_network_namespace := None |} in
  try* _ := fails guard (open_log_file (@cancellable) log_path) in
  try* child := fails guard (spawn_jailer launch) in
  let* child_pid := call (OChildId child) in
  let guard := set_child child_pid guard in
  let* child_pid := call (OChildId child) in
  unwinding (drop_task (Some child)) (
    try* _ := fails guard (after_spawn per_room_dir socket log_path launch child child_pid) in
    Ret (Ok {| vm_witness := witness; vm_secrets_delivery := secrets; vm_provisioning_delivery := provisioning;
               vm_guard := guard; vm_child := child |})).

(** The egress rules and the guest's sockets. *)
Definition confine_block (guard : RoomGuard) (deps : boot_deps) (layout : JailLayout) (per_room_dir chroot : path)
    (witness : option handle) : sys (result (FirecrackerError * RoomGuard) BootedVm) :=
  let jail_root := launch_jail_root chroot (br_room_id req) in
  try* _ := fails guard install_egress in
  try* secrets := fails guard (bind_secrets_listener jail_root (bd_uid deps) (bd_gid deps)) in
  unwinding (drop_task secrets) (
    try* provisioning := fails guard (bind_provisioning_listener jail_root (bd_uid deps) (bd_gid deps)) in
    unwinding (drop_task provisioning)
      (jailer_block guard deps layout per_room_dir chroot (path_join jail_root JAIL_API_SOCK) witness secrets provisioning)).

Definition boot_block (guard : RoomGuard) (deps : boot_deps) (layout : JailLayout) (per_room_dir chroot : path)
    : sys (result (FirecrackerError * RoomGuard) BootedVm) :=
  let instance_dir := launch_instance_dir chroot (br_room_id req) in
  let jail_root := launch_jail_root chroot (br_room_id req) in
  let socket := path_join jail_root JAIL_API_SOCK in
  if negb (bool_decide (jl_instance_dir layout = instance_dir) && bool_decide (jl_host_socket layout = socket)) then
    Ret (Err (FcInternal "guard and staged jail layout paths diverged", guard))
  else
  try* _ := fails guard match rs_disk_gib (br_resources req) with
                        | Some gib => prepare_scratch show_path (@cancellable) jail_root gib (bd_uid deps) (bd_gid deps)
                        | None => Ret (Ok ())
                        end in
  try* _ := fails guard match br_slot req with Some slot => create_slot_tap slot None | None => Ret (Ok ()) end in
  try* witness := fails guard (boot_witness per_room_dir) in
  unwinding (drop_task witness) (confine_block guard deps layout per_room_dir chroot witness).

(** The dependencies are also raced against cancellation, which is looked at
    before anything else. *)
Definition raced {A : Type} (p : sys (result FirecrackerError A)) : sys (result FirecrackerError A) :=
  let* cancelled := call OCancelled in
  if cancelled : bool then Ret (Err boot_cancelled) else p.

(** What happens before there is a guard. *)
Definition boot_prefix (base : path) : sys (result FirecrackerError (boot_deps * path)) :=
  try* _ := Ret (Resources_validate (br_resources req) (br_readonly_rootfs req) (br_base req)) in
  if is_some (br_toolstore req) && negb (br_readonly_rootfs req) then
    Ret (Err (FcInternal "toolstore requires a read-only room"))
  else
  try* deps := raced (resolve_boot_dependencies resolve config (@cancellable)) in
  try* _ := prepare_room_dir (path_join base (br_room_id req)) in
  try* chroot := Ret (launch_chroot_base home config) in
  Ret (Ok (deps, chroot)).

Definition boot_guard (base chroot : path) (pending : PendingSlotClaim) : RoomGuard :=
  let room_id := br_room_id req in
  let socket := path_join (launch_jail_root chroot room_id) JAIL_API_SOCK in
  let guard := set_jail_instance_dir (launch_instance_dir chroot room_id)
                 (guard_new (path_join base room_id) socket config) in
  match pending with
  | Some _ => PendingSlotClaim_handoff pending guard
  | None => match br_network req with Some net => set_tap (nc_tap_name net) guard | None => guard end
  end.

Definition boot_with_cancellation : sys (result FirecrackerError BootedVm) :=
  match resolved_state_base home config with
  | None => Ret (Err FcHomeUnset)
  | Some base =>
      let room_id := br_room_id req in
      let pending := match br_slot req with Some slot => PendingSlotClaim_new base slot room_id | None => None end in
      try* deps_chroot := unwinding (PendingSlotClaim_drop pending) (boot_prefix base) in
      let '(deps, chroot) := deps_chroot in
      let per_room_dir := path_join base room_id in
      let guard := boot_guard base chroot pending in
      try* layout := unwinding (guard_drop show_path fuel guard)
        (try* layout := prepare_jail_layout show_path chroot room_id (br_kernel req) (br_rootfs req) in
         try* _ := match br_toolstore req with
                   | Some toolstore => prepare_toolstore show_path immutable_flag toolstore (launch_jail_root chroot room_id)
                                         (is_some (rs_disk_gib (br_resources req)))
                   | None => Ret (Ok ())
                   end in
         Ret (Ok layout)) in
      let* cancelled := call OCancelled in
      if cancelled : bool then do* guard_drop show_path fuel guard in Ret (Err boot_cancelled) else
      let* r := boot_block guard deps layout per_room_dir chroot in
      match r with
      | Ok vm => Ret (Ok vm)
      | Err (e, guard) => do* guard_drop show_path fuel guard in Ret (Err e)
      end
  end.

(** ** The running machine *)

(** The metadata with its provenance sealed; its [Provenance] is read back. *)
Definition seal_base (vm : BootedVm) : sys (result FirecrackerError Provenance) :=
  let room_dir := g_room_dir (vm_guard vm) in
  try* meta := pmap_err FcIo (call (OReadMeta room_dir)) in
  match meta with
  | None => Ret (Err (FcInternal "base room.json disappeared before seal"))
  | Some meta =>
      match RoomMeta_seal meta with
      | (Err (IllegalSealFrom was), _) =>
          Ret (Err (FcInternal ("illegal seal: only a provisioning base seals to neutral (was " +:+
                                match was with
                                | None => "None"
                                | Some Provisioning => "Some(Provisioning)"
                                | Some Neutral => "Some(Neutral)"
                                | Some Tainted => "Some(Tainted)"
                                end +:+ ")")))
      | (Ok _, meta) =>
          try* _ := pmap_err FcIo (call (OWriteMeta room_dir meta)) in
          Ret (ok_or (provenance meta) (FcInternal "sealed base lost its persisted provenance"))
      end
  end.

(** The error of the kill is only logged. *)
Definition shutdown (vm : BootedVm) : sys (result FirecrackerError unit) :=
  do* (if g_suppress_cleanup (vm_guard vm) then Ret () else
       do* call (OKillChild (vm_child vm)) in guard_cleanup show_path fuel (vm_guard vm)) in
  do* drop_task (vm_witness vm) in
  do* drop_task (vm_secrets_delivery vm) in
  do* drop_task (vm_provisioning_delivery vm) in
  do* guard_drop show_path fuel (guard_dismiss (vm_guard vm)) in
  do* call (ODropTask (vm_child vm)) in
  Ret (Ok ()).

Definition is_alive (vm : BootedVm) : sys (result FirecrackerError bool) :=
  try* status := pmap_err FcIo (call (OTryWait (vm_child vm))) in Ret (Ok (negb (is_some status))).

End boot.

(** ** The order of a boot *)

(** A task or child that was started. *)
Definition task_of (e : sys_event) : option handle :=
  match e with
  | Event op x =>
      match op return ans op → option handle with
      | OSpawn _ _ | OServeOneShot _ _ _ | OServeProvisioning _ _ _ _ => λ x, match x with Ok t => Some t | Err _ => None end
      | OWitnessStart _ _ _ => λ x, match x with Ok t => Some t | Err _ => None end
      | _ => λ _, None
      end x
  end.

(** Calls that neither start a task nor speak to the guest's API, nor make or give
    up what the boot owns. *)
Definition quiet (op : sysop) : Prop :=
  match op with
  | OSpawn _ _ | OServeOneShot _ _ _ | OServeProvisioning _ _ _ _ | OWitnessStart _ _ _ => False
  | ORunStatus _ _ | OSlotFree _ _ _ | OMkdirPrivate _ => False
  | _ => True
  end.

Lemma quiet_task op x : quiet op → task_of (Event op x) = None.
Proof. by destruct op. Qed.

(** Whether a command deletes a tap. *)
Definition deletes_tap (program : string) (args : list string) : bool :=
  match args with
  | object :: verb :: _ => (program =? "ip")%string && (object =? "tuntap")%string && (verb =? "del")%string
  | _ => false
  end.

(** Nor remove what a room holds. *)
Definition calm (op : sysop) : Prop :=
  match op with
  | OSlotMatch _ _ _ | OSlotUnlink _ _ | OEgressRemove _ | ORemoveDirAll _ => False
  | ORun program args => deletes_tap program args = false
  | op => quiet op
  end.

Lemma calm_quiet op : calm op → quiet op.
Proof. by destruct op. Qed.

Lemma teardown_quiet op : teardown_op op → quiet op.
Proof. by destruct op. Qed.

Section quietly.
  Context (show_path : path → string) (resolve : string → path) (immutable_flag : N) (home : option path)
    (config : RoomsConfig) (fuel : nat).

Lemma calm_cancellable {A : Type} (p : sys (result FirecrackerError A)) : only calm p → only calm (cancellable p).
Proof. intros Hp. unfold cancellable. only_walk. Qed.

Hint Resolve calm_cancellable : only.

Lemma calm_found_file candidates : only calm (find_file resolve candidates).
Proof. induction candidates as [|c l IH]; cbn [find_file]; only_walk. Qed.

Hint Resolve calm_found_file : only.

Lemma calm_deps : only calm (resolve_boot_dependencies resolve config (@cancellable)).
Proof.
  unfold resolve_boot_dependencies, ensure_root, check_kvm, resolve_firecracker_binary, resolve_jailer_binary,
    resolve_binary_on_path, lookup_firecracker_ids_async. only_walk; apply calm_cancellable;
    unfold lookup_firecracker_ids; only_walk.
Qed.

Lemma calm_bind_mount source target : only calm (bind_mount show_path source target).
Proof. unfold bind_mount. only_walk. Qed.

Lemma calm_ensure_target what target : only calm (ensure_mount_target what target).
Proof. unfold ensure_mount_target. only_walk. Qed.

Hint Resolve calm_bind_mount calm_ensure_target : only.

(** A jail that could not be staged is removed again. *)
Definition stages (jail : path) (op : sysop) : Prop := calm op ∨ op = ORemoveDirAll jail.

Lemma stages_layout chroot room_id kernel rootfs :
  only (stages (launch_instance_dir chroot room_id)) (prepare_jail_layout show_path chroot room_id kernel rootfs).
Proof.
  assert (Hcalm : ∀ {A : Type} (p : sys A), only calm p → only (stages (launch_instance_dir chroot room_id)) p)
    by (intros A p Hp; eapply only_weaken; [exact Hp|]; by left).
  unfold prepare_jail_layout, canonical, stage_jail_sync.
  apply only_try; [apply Hcalm; only_walk|]. intros k. apply only_try; [apply Hcalm; only_walk|]. intros r.
  apply only_try; [|intros _; exact I]. apply only_try; [apply Hcalm; only_walk|]. intros _.
  apply only_try; [apply Hcalm; only_walk|]. intros _. apply only_try; [apply Hcalm; only_walk|]. intros _.
  apply only_unwinding; [apply Hcalm; only_walk|]. apply only_bind; [apply Hcalm; unfold unmount_quiet, unmount; only_walk|].
  intros _. apply only_bind; [split; [by right|intros ?; exact I]|intros _; exact I].
Qed.

Lemma calm_toolstore toolstore jail scratch : only calm (prepare_toolstore show_path immutable_flag toolstore jail scratch).
Proof.
  unfold prepare_toolstore, Toolstore_try_clone, stage_toolstore, validate_toolstore_image, validate_scratch_image,
    validate_overlay_image, debugfs, bind_into, mount_source, verify_attachment, require, require_file, require_with_ops,
    inspect_flags, io_context. only_walk.
Qed.

Lemma calm_scratch jail gib uid gid : only calm (prepare_scratch show_path (@cancellable) jail gib uid gid).
Proof.
  unfold prepare_scratch. only_walk; try (apply calm_cancellable; only_walk).
Qed.

Lemma calm_log p : only calm (open_log_file (@cancellable) p).
Proof. unfold open_log_file. apply calm_cancellable. only_walk. Qed.

Lemma calm_socket_wait socket timeout child log : only calm (wait_for_socket fuel (@cancellable) socket timeout child log).
Proof.
  unfold wait_for_socket. only_walk. generalize fuel as n. induction n as [|n IH]; cbn [wait_for_socket_from];
    unfold read_log_tail; only_walk; try (apply calm_cancellable; only_walk).
Qed.
End quietly.

Section boot_order.
  Context (show_path : path → string) (resolve : string → path) (show_secs : N → string)
    (show_json : json → result string string) (immutable_flag : N) (home : option path)
    (config : RoomsConfig) (fuel : nat) (req : BootRequest).

Definition ok_out (r : result io_error CmdOutput) : Prop := ∃ o, r = Ok o ∧ success o = true.

(** What watches and confines the guest is in place: its tap, the capture and the
    egress rules on that tap, and the sockets it will speak to. *)
Definition tap_up (h : list sys_event) : Prop :=
  ∀ slot c, br_slot req = Some slot → c ∈ slot_tap_plan slot None → answered h (ORun (tc_program c) (tc_args c)) ok_out.

Definition witnessed (h : list sys_event) : Prop :=
  br_witness req = true → ∃ slot dir, br_slot req = Some slot ∧
    answered h (OWitnessStart None (slot_tap slot) dir) (λ r, is_ok r = true).

Definition confined (h : list sys_event) : Prop :=
  enforces (br_egress req) = true → ∃ slot, br_slot req = Some slot ∧
    answered h (OEgressInstall (slot_tap slot) (br_egress req)) (λ r, r = Ok ()).

Definition secrets_served (h : list sys_event) : Prop :=
  ∀ secrets, br_secrets req = Some secrets → ∃ p owner, answered h (OServeOneShot p secrets owner) (λ r, is_ok r = true).

Definition provisioning_served (h : list sys_event) : Prop :=
  ∀ pp, br_provisioning req = Some pp → ∃ p owner,
    answered h (OServeProvisioning p (pp_bundle pp) (pp_warm pp) owner) (λ r, is_ok r = true).

Definition custody (h : list sys_event) : Prop :=
  tap_up h ∧ witnessed h ∧ confined h ∧ secrets_served h ∧ provisioning_served h.

Lemma tap_up_l h h' : tap_up h → tap_up (h ++ h').
Proof using Type. intros Ht slot c Hslot Hc. apply answered_l. eauto. Qed.

Lemma witnessed_l h h' : witnessed h → witnessed (h ++ h').
Proof using Type. intros Hw H. destruct (Hw H) as (slot & dir & ? & ?). exists slot, dir. auto with rooms. Qed.

Lemma confined_l h h' : confined h → confined (h ++ h').
Proof using Type. intros He H. destruct (He H) as (slot & ? & ?). exists slot. auto with rooms. Qed.

Lemma secrets_l h h' : secrets_served h → secrets_served (h ++ h').
Proof using Type. intros Hs s H. destruct (Hs s H) as (p & o & ?). exists p, o. auto with rooms. Qed.

Lemma provisioning_l h h' : provisioning_served h → provisioning_served (h ++ h').
Proof using Type. intros Hs s H. destruct (Hs s H) as (p & o & ?). exists p, o. auto with rooms. Qed.

Hint Resolve tap_up_l witnessed_l confined_l secrets_l provisioning_l : rooms.

Lemma custody_l h h' : custody h → custody (h ++ h').
Proof using Type. intros (Ht & Hw & He & Hs & Hp). unfold custody. splits; auto with rooms. Qed.

(** Every request to the API so far succeeded. *)
Definition request_ok (e : sys_event) : Prop :=
  match e with
  | Event op x =>
      match op return ans op → Prop with
      | ORunStatus _ _ => λ x, ∃ code o, x = Ok (code, o) ∧ success o = true ∧ code ≠ Some 28%Z
      | _ => λ _, True
      end x
  end.

Definition requests_ok (h : list sys_event) : Prop := ∀ e, e ∈ h → request_ok e.

Definition ACTIONS_URL : string := "http://localhost/actions".

(** The tasks started and not ended are among [l]. *)
Definition live (l : list handle) (h : list sys_event) : Prop :=
  ∀ e t, e ∈ h → task_of e = Some t → t ∈ l ∨ Event (ODropTask t) () ∈ h.

(** The claim the boot was handed. *)
Definition pending_of (base : path) : option SlotRelease :=
  match br_slot req with Some slot => PendingSlotClaim_new base slot (br_room_id req) | None => None end.

(** A teardown of the room has begun, no other call was made since, and the order
    of a reap is kept: its claim is looked at only once the jail was seen gone and
    the room's directory was removed, its network is removed only under that claim,
    and the claim only after the network. *)
Definition tearing_down (h : list sys_event) (op : sysop) : Prop :=
  ∃ base chroot h0 k,
    resolved_state_base home config = Some base ∧ launch_chroot_base home config = Ok chroot ∧
    h = h0 ++ k ∧ all_calls teardown_op k ∧
    may_reap show_path (path_join base (br_room_id req)) (launch_instance_dir chroot (br_room_id req))
      (path_join (launch_jail_root chroot (br_room_id req)) JAIL_API_SOCK) (pending_of base) k op.

Definition boot_allows (h : list sys_event) (op : sysop) : Prop :=
  match op with
  | OSpawn _ _ => custody h
  | ORunStatus _ args =>
      requests_ok h ∧
      (args !! 4 = Some ACTIONS_URL → custody h ∧
         (br_base req = true → ∃ dir meta, answered h (OWriteMeta dir meta) (λ r, r = Ok ())))
  | OSlotFree base index room_id =>
      (∃ slot, br_slot req = Some slot ∧ index = slot_index slot ∧ room_id = br_room_id req) ∧
      ∀ p, ¬ answered h (OMkdirPrivate p) (λ r, r = Ok ())
  | OSlotMatch _ _ _ | OSlotUnlink _ _ | OEgressRemove _ => tearing_down h op
  | ORun program args => deletes_tap program args = true → tearing_down h op
  | ORemoveDirAll p =>
      (∃ chroot, launch_chroot_base home config = Ok chroot ∧ p = launch_instance_dir chroot (br_room_id req)) ∨
      tearing_down h op
  | _ => True
  end.

Abbreviation R := boot_allows.

Lemma calm_step_allowed h op : calm op → R h op.
Proof using Type. destruct op; try done. simpl. congruence. Qed.

Lemma live_quiet l h h' : live l h → all_calls quiet h' → live l (h ++ h').
Proof using Type.
  intros Hl Hq e t [He|He]%elem_of_app Ht.
  - destruct (Hl e t He Ht) as [|Hd]; [by left|]. right. apply elem_of_app. by left.
  - destruct e as [op x]. rewrite quiet_task in Ht by exact (Hq _ He). done.
Qed.

Lemma live_weaken l l' h : l ⊆ l' → live l h → live l' h.
Proof using Type. intros Hs Hl e t He Ht. destruct (Hl e t He Ht); auto. Qed.

Lemma live_start l h e t : live l h → task_of e = Some t → live (t :: l) (h ++ [e]).
Proof using Type.
  intros Hl Ht e' t' [He|He%list_elem_of_singleton]%elem_of_app Ht'.
  - destruct (Hl e' t' He Ht') as [|Hd]; [left; by right|]. right. apply elem_of_app. by left.
  - subst. rewrite Ht in Ht'. injection Ht' as <-. left. by left.
Qed.

Lemma live_other l h e : live l h → task_of e = None → live l (h ++ [e]).
Proof using Type.
  intros Hl Ht e' t' [He|He%list_elem_of_singleton]%elem_of_app Ht'; [|congruence].
  destruct (Hl e' t' He Ht') as [|Hd]; [by left|]. right. apply elem_of_app. by left.
Qed.

Lemma live_drop l h t : live (t :: l) h → live l (h ++ [Event (ODropTask t) ()]).
Proof using Type.
  intros Hl e' t' [He|He%list_elem_of_singleton]%elem_of_app Ht'; [|by subst].
  destruct (Hl e' t' He Ht') as [[->|Hin]%elem_of_cons|Hd]; [|by left|]; right; apply elem_of_app;
    [right; by left|by left].
Qed.

Lemma requests_app h h' : requests_ok h → requests_ok h' → requests_ok (h ++ h').
Proof using Type. intros H H' e [He|He]%elem_of_app; auto. Qed.

Lemma requests_quiet h h' : requests_ok h → all_calls quiet h' → requests_ok (h ++ h').
Proof using Type.
  intros H Hq. apply requests_app; [done|]. intros [op x] He. specialize (Hq _ He). by destruct op.
Qed.

(** Where the boot stands: its tasks, and that the API has answered well. *)
Definition standing (l : list handle) (h : list sys_event) : Prop := live l h ∧ requests_ok h.

Lemma standing_quiet l h h' : standing l h → all_calls quiet h' → standing l (h ++ h').
Proof using Type. intros [Hl Hr] Hq. split; [by apply live_quiet|by apply requests_quiet]. Qed.

Lemma spec_quiet {A : Type} (p : sys A) h Q :
  only calm p → (∀ a h', all_calls quiet h' → Q a (h ++ h')) → spec R p h Q.
Proof using Type.
  intros Hp HQ. eapply only_spec; [exact Hp| |].
  - intros h' op _. apply calm_step_allowed.
  - intros a h' Hc. apply HQ. intros e He. by apply calm_quiet, Hc.
Qed.

(** After a step: it went well, or the tasks are still accounted for. *)
Definition stood {E A : Type} (l : list handle) (r : result E A) (h : list sys_event) : Prop :=
  match r with Ok _ => standing l h | Err _ => live l h end.

Lemma stood_quiet {E A : Type} l (r : result E A) h h' : standing l h → all_calls quiet h' → stood l r (h ++ h').
Proof using Type. intros Hs Hq. destruct (standing_quiet l h h' Hs Hq). by destruct r. Qed.

(** The drop of what the frame holds. *)
Lemma spec_drop l h t Q :
  live (option_list t ++ l) h → (∀ h', live l h' → Q () h') → spec R (drop_task t) h Q.
Proof using Type.
  intros Hl HQ. destruct t as [t|]; [|by apply HQ]. apply spec_call; [done|]. intros []. by apply HQ, live_drop.
Qed.

Lemma spec_unwinding_drop {E A : Type} l t (p : sys (result E A)) h Q :
  spec R p h (λ r h', match r with Ok a => Q (Ok a) h' | Err e => live (option_list t ++ l) h' ∧
                        ∀ h'', live l h'' → Q (Err e) h'' end) →
  spec R (unwinding (drop_task t) p) h Q.
Proof using Type.
  intros Hp. apply spec_unwinding. eapply spec_mono; [exact Hp|]. intros [a|e] h' Hr; [done|].
  destruct Hr as [Hl HQ]. by apply (spec_drop l).
Qed.

(** Bringing a tap up deletes none. *)
Lemma tap_plan_deletes slot c : c ∈ slot_tap_plan slot None → deletes_tap (tc_program c) (tc_args c) = false.
Proof using Type. unfold slot_tap_plan, flat_tap_plan. rewrite !elem_of_cons. by intros [->|[->|[->|[->|[]%elem_of_nil]]]]. Qed.

Lemma spec_tap l h :
  standing l h →
  spec R match br_slot req with Some slot => create_slot_tap slot None | None => Ret (Ok ()) end h
    (λ r h', stood l r h' ∧ (r = Ok () → tap_up h')).
Proof using Type.
  intros Hs. destruct (br_slot req) as [slot|] eqn:Hslot.
  2:{ apply spec_ret. split; [done|]. intros _ slot. by rewrite Hslot. }
  unfold create_slot_tap. spec_down.
  apply (spec_try_each _ _ (λ done h', standing l h' ∧ ∀ c, c ∈ done → answered h' (ORun (tc_program c) (tc_args c)) ok_out)).
  - split; [done|]. by intros c ?%elem_of_nil.
  - intros l1 c l2 h' Hl [Hst Hdone]. unfold run_tap_command. spec_call as r.
    { assert (Hc : c ∈ slot_tap_plan slot None) by (rewrite Hl; apply elem_of_app; right; by left). simpl.
      rewrite (tap_plan_deletes slot c Hc). done. }
    assert (Hst' : standing l (h' ++ [Event (ORun (tc_program c) (tc_args c)) r])).
    { apply standing_quiet; [done|]. by intros e ->%list_elem_of_singleton. }
    destruct r as [o|e]; simpl map_err; cbv iota; [|split; [apply Hst'|done]].
    destruct (success o) eqn:Ho; spec_down; [|split; [apply Hst'|done]]. split; [done|].
    intros c' [Hc| ->%list_elem_of_singleton]%elem_of_app; [by apply answered_l, Hdone|].
    apply answered_snoc. by exists o.
  - intros ys h' [Hst Hdone]. cbv iota. spec_down. split; [done|]. intros _ slot' c [= <-]%(transitivity (eq_sym Hslot)) Hc.
    by apply Hdone.
Qed.

Lemma spec_boot_witness l dir h :
  standing l h →
  spec R (boot_witness req dir) h
    (λ r h', match r with Ok w => standing (option_list w ++ l) h' ∧ witnessed h' | Err _ => live l h' end).
Proof using Type.
  intros Hs. unfold boot_witness, witnessed. destruct (br_witness req) eqn:Hw; [|by split].
  destruct (br_slot req) as [slot|] eqn:Hslot; [|apply Hs]. unfold start_witness. spec_call as started; [done|].
  spec_call as cancelled; [done|].
  assert (Hst : standing (option_list (match started with Ok w => Some w | Err _ => None end) ++ l)
    ((h ++ [Event (OWitnessStart None (slot_tap slot) dir) started]) ++ [Event OCancelled cancelled])).
  { destruct Hs as [Hl Hr]. split; [|apply requests_app; [apply requests_app; [done|]|]; by intros e ->%list_elem_of_singleton].
    apply live_other; [|done]. destruct started as [w|e]; [by apply live_start|by apply live_other]. }
  destruct cancelled.
  - spec_down. destruct started as [w|e]; simpl map_err; cbv iota; apply (spec_drop l); try apply Hst; by intros.
  - destruct started as [w|e]; simpl; [|apply Hst]. split; [exact Hst|]. intros _. exists slot, dir. split; [done|].
    by apply answered_l, answered_snoc.
Qed.

Lemma spec_install_egress l h :
  standing l h → spec R (install_egress req) h (λ r h', stood l r h' ∧ (r = Ok () → confined h')).
Proof using Type.
  intros Hs. unfold install_egress, confined. destruct (enforces (br_egress req)) eqn:He; [|by split].
  destruct (br_slot req) as [slot|] eqn:Hslot; [|split; [apply Hs|done]]. spec_call as r; [done|].
  assert (Hst : standing l (h ++ [Event (OEgressInstall (slot_tap slot) (br_egress req)) r])).
  { apply standing_quiet; [done|]. by intros e ->%list_elem_of_singleton. }
  destruct r as [[]|e]; simpl; (split; [apply Hst|]); [|done]. intros _ _. exists slot. split; [done|].
  by apply answered_snoc.
Qed.

Lemma standing_snoc l h e :
  standing l h → request_ok e → standing (option_list (task_of e) ++ l) (h ++ [e]).
Proof using Type.
  intros [Hl Hr] He. split; [|apply requests_app; [done|]; by intros e' ->%list_elem_of_singleton].
  destruct (task_of e) as [t|] eqn:Ht; [by apply live_start|by apply live_other].
Qed.

Lemma spec_bind_secrets l root uid gid h :
  standing l h →
  spec R (bind_secrets_listener show_path req root uid gid) h
    (λ r h', match r with Ok t => standing (option_list t ++ l) h' ∧ secrets_served h' | Err _ => live l h' end).
Proof using Type.
  intros Hs. unfold bind_secrets_listener, secrets_served. destruct (br_secrets req) as [secrets|] eqn:Hsec; [|by split].
  spec_call as r; [done|]. pose proof (standing_snoc l h (Event (OServeOneShot (listener_path root) secrets (uid, gid)) r) Hs I) as Hst.
  destruct r as [t|e]; simpl; [|apply Hst]. split; [exact Hst|]. intros ? [= <-].
  eexists _, _. by apply answered_snoc.
Qed.

Lemma spec_bind_provisioning l root uid gid h :
  standing l h →
  spec R (bind_provisioning_listener show_path req root uid gid) h
    (λ r h', match r with Ok t => standing (option_list t ++ l) h' ∧ provisioning_served h' | Err _ => live l h' end).
Proof using Type.
  intros Hs. unfold bind_provisioning_listener, provisioning_served.
  destruct (br_provisioning req) as [pp|] eqn:Hsec; [|by split].
  spec_call as r; [done|].
  pose proof (standing_snoc l h (Event (OServeProvisioning root (pp_bundle pp) (pp_warm pp) (uid, gid)) r) Hs I) as Hst.
  destruct r as [t|e]; simpl; [|apply Hst]. split; [exact Hst|]. intros ? [= <-].
  eexists _, _. by apply answered_snoc.
Qed.

(** ** The API *)

Definition meta_written (h : list sys_event) : Prop :=
  br_base req = true → ∃ dir meta, answered h (OWriteMeta dir meta) (λ r, r = Ok ()).

Definition requested (url : string) (h : list sys_event) : Prop :=
  ∃ args r, Event (ORunStatus "curl" args) r ∈ h ∧ args !! 4 = Some url.

Lemma spec_put l socket endpoint body h :
  standing l h → ("http://localhost" +:+ endpoint = ACTIONS_URL → custody h ∧ meta_written h) →
  spec R (api_put show_path show_secs show_json config (@cancellable) socket endpoint body) h
    (λ r h', stood l r h' ∧ (r = Ok () → requested ("http://localhost" +:+ endpoint) h')).
Proof using Type.
  intros Hs Hact. unfold api_put, api_request. destruct (show_json body) as [text|e]; [|split; [apply Hs|done]].
  unfold cancellable. spec_call as r.
  { split; [apply Hs|]. intros E. apply Hact, (inj Some), E. }
  set (args := ["--unix-socket"; _; _; _; _; _; _; _; _; _; _; _; _; _] : list string).
  assert (Hl : live l (h ++ [Event (ORunStatus "curl" args) r])) by (by apply live_other; [apply Hs|]).
  spec_call as cancelled; [done|].
  assert (Hl' : live l ((h ++ [Event (ORunStatus "curl" args) r]) ++ [Event OCancelled cancelled])) by (by apply live_other).
  destruct cancelled; spec_down; [split; [exact Hl'|done]|]. destruct r as [[code o]|e]; simpl map_err; cbv iota; [|by split].
  case_decide as Hcode; spec_down; [by split|]. destruct (success o) eqn:Ho; cbn [negb]; spec_down; [|by split].
  split; [|intros _; exists args, (Ok (code, o)); split; [|done]].
  - split; [exact Hl'|]. apply requests_app; [apply requests_app; [apply Hs|]|]; intros e ->%list_elem_of_singleton; simpl; eauto.
  - apply elem_of_app. left. apply elem_of_app. right. by left.
Qed.

(** Everything the guest's start needs. *)
Definition ready (l : list handle) (h : list sys_event) : Prop := standing l h ∧ custody h ∧ meta_written h.

Lemma meta_written_l h h' : meta_written h → meta_written (h ++ h').
Proof using Type. intros Hm Hb. destruct (Hm Hb) as (dir & meta & H). exists dir, meta. by apply answered_l. Qed.

Lemma spec_ready_step {A B : Type} l (p : sys (result FirecrackerError A)) (k : A → sys (result FirecrackerError B)) h Q :
  ready l h → spec R p h (stood l) →
  (∀ a h', ready l h' → spec R (k a) h' Q) → (∀ e h', live l h' → Q (Err e) h') →
  spec R (try* a := p in k a) h Q.
Proof using Type.
  intros (Hs & Hc & Hm) Hp Hk He. apply spec_try. eapply spec_mono; [by apply spec_extends, Hp|].
  intros [a|e] h' (Hst & j & ->); [|by apply He]. apply Hk. split; [done|]. split; [by apply custody_l|by apply meta_written_l].
Qed.

Lemma spec_put_quietly l socket endpoint body h :
  ("http://localhost" +:+ endpoint =? ACTIONS_URL)%string = false → ready l h →
  spec R (api_put show_path show_secs show_json config (@cancellable) socket endpoint body) h (stood l).
Proof using Type.
  intros Hne (Hs & _). eapply spec_mono; [apply (spec_put l); [done|]|by intros r h' [? _]].
  intros E. apply String.eqb_neq in Hne. done.
Qed.

Lemma spec_put_if l b socket endpoint body h :
  ("http://localhost" +:+ endpoint =? ACTIONS_URL)%string = false → ready l h →
  spec R (put_if show_path show_secs show_json config (@cancellable) b socket endpoint body) h (stood l).
Proof using Type. intros Hne Hr. destruct b; [by apply spec_put_quietly|apply spec_ret, Hr]. Qed.

Lemma spec_configure l socket launch h :
  ready l h →
  spec R (configure_boot show_path show_secs show_json config req socket launch) h
    (λ r h', stood l r h' ∧ (r = Ok () → requested ACTIONS_URL h')).
Proof using Type.
  intros Hr. unfold configure_boot, configure_vm.
  apply (spec_ready_step l); [done|by apply spec_put_quietly| |by split]. clear h Hr. intros _ h Hr.
  apply (spec_ready_step l); [done|by apply spec_put_quietly| |by split]. clear h Hr. intros _ h Hr.
  apply (spec_ready_step l); [done|by apply spec_put_if| |by split]. clear h Hr. intros _ h Hr.
  apply (spec_ready_step l); [done|by apply spec_put_if| |by split]. clear h Hr. intros _ h Hr.
  apply (spec_ready_step l); [done|by apply spec_put_quietly| |by split]. clear h Hr. intros _ h Hr.
  apply (spec_ready_step l); [done| | |by split].
  { destruct (vs_network _); [by apply spec_put_quietly|apply spec_ret, Hr]. }
  clear h Hr. intros _ h Hr.
  apply (spec_ready_step l); [done|by apply spec_put_if| |by split]. clear h Hr. intros _ h Hr.
  apply (spec_ready_step l); [done|by apply spec_put_quietly| |by split]. clear h Hr. intros _ h Hr.
  apply spec_put; [apply Hr|]. intros _. apply Hr.
Qed.

Lemma spec_write_meta l dir pid h :
  standing l h →
  spec R (write_room_meta dir req pid) h (λ r h', stood l r h' ∧ (r = Ok () → meta_written h')).
Proof using Type.
  intros Hs. unfold write_room_meta, meta_written, starttime_of_child. spec_down.
  eapply spec_mono; [apply (spec_quiet _ _ (λ _ h', standing l h')); [destruct pid; only_walk|]|].
  { intros _ h' Hq. by apply standing_quiet. }
  intros st h1 H1. spec_call as now; [done|]. spec_call as written; [done|].
  set (m := set_admission _ _ _ _).
  assert (Hst : standing l ((h1 ++ [Event ONow now]) ++ [Event (OWriteMeta dir m) written])).
  { apply standing_quiet; [apply standing_quiet; [done|]|]; by intros e ->%list_elem_of_singleton. }
  destruct written as [[]|e]; spec_down.
  - split; [exact Hst|]. intros _ _. exists dir, m. by apply answered_snoc.
  - destruct (br_base req) eqn:Hb; spec_down; (split; [apply Hst|done]).
Qed.

Lemma spec_after_spawn l dir socket log launch child pid h :
  standing l h → custody h →
  spec R (after_spawn show_path show_secs show_json config fuel req dir socket log launch child pid) h
    (λ r h', stood l r h' ∧ (r = Ok () → requested ACTIONS_URL h' ∧ meta_written h')).
Proof using Type.
  intros Hs Hc. unfold after_spawn. apply spec_try. eapply spec_mono; [by apply spec_extends, (spec_write_meta l)|].
  intros [[]|e] h1 ((Hst & Hm) & j & ->); [|by split].
  apply (spec_ready_step l); [split; [done|split; [by apply custody_l|by apply Hm]]| | |by split].
  - apply spec_quiet; [apply calm_socket_wait|]. intros r h' Hq. by apply stood_quiet.
  - intros _ h' Hr. eapply spec_mono; [by apply spec_extends, (spec_configure l)|].
    intros r h2 ((Hst2 & Hreq) & k & ->). split; [done|]. intros Hok. split; [by apply Hreq|].
    by apply meta_written_l, Hr.
Qed.

(** The tasks of a machine. *)
Definition vm_tasks (vm : BootedVm) : list handle :=
  vm_child vm :: option_list (vm_provisioning_delivery vm) ++ option_list (vm_secrets_delivery vm) ++
  option_list (vm_witness vm).

Definition booted (vm : BootedVm) (h : list sys_event) : Prop :=
  live (vm_tasks vm) h ∧ custody h ∧ meta_written h ∧ requested ACTIONS_URL h ∧ requests_ok h.

Lemma spec_spawn l launch h :
  standing l h → custody h →
  spec R (spawn_jailer launch) h (λ r h', match r with Ok t => standing (t :: l) h' | Err _ => live l h' end).
Proof using Type.
  intros Hs Hc. unfold spawn_jailer. spec_call as r; [done|].
  pose proof (standing_snoc l h (Event (OSpawn (jp_jailer_binary launch)
    (jp_jailer_args launch ++ ["--"] ++ jp_firecracker_args launch)) r) Hs I) as Hst.
  destruct r as [t|e]; apply Hst.
Qed.

(** A quiet step of the block. *)
Lemma spec_fails_step {A B : Type} l guard (p : sys (result FirecrackerError A)) k h
    (Q : result (FirecrackerError * RoomGuard) B → list sys_event → Prop) (P : A → list sys_event → Prop) :
  spec R p h (λ r h', match r with Ok a => P a h' | Err _ => live l h' end) →
  (∀ a j, P a (h ++ j) → spec R (k a) (h ++ j) Q) → (∀ e h', live l h' → Q (Err e) h') →
  spec R (try* a := fails guard p in k a) h Q.
Proof using Type.
  intros Hp Hk He. apply spec_try, spec_map_err. eapply spec_mono; [by apply spec_extends, Hp|].
  intros [a|e] h' (H & j & ->); simpl map_err; cbv iota; [by apply Hk|by apply He].
Qed.

Lemma spec_jailer_block guard deps layout dir chroot socket witness secrets prov h :
  let l := option_list prov ++ option_list secrets ++ option_list witness in
  standing l h → custody h →
  spec R (jailer_block show_path show_secs show_json config fuel req guard deps layout dir chroot socket witness secrets prov) h
    (λ r h', match r with Ok vm => booted vm h' | Err _ => live l h' end).
Proof using Type.
  intros l Hs Hc. unfold jailer_block.
  apply (spec_fails_step l _ _ _ _ _ (λ _ h', standing l h')); [| |done].
  { eapply spec_mono; [apply (spec_quiet _ _ (λ r h', stood l r h')); [apply calm_log|]|by intros []].
    intros r h' Hq. by apply stood_quiet. }
  intros _ j Hs1. apply (custody_l _ j) in Hc.
  apply (spec_fails_step l _ _ _ _ _ (λ t h', standing (t :: l) h')); [by apply spec_spawn| |done].
  intros child j2 Hs2. apply (custody_l _ j2) in Hc.
  spec_call as pid; [done|]. spec_call as pid'; [done|]. apply (spec_unwinding_drop l).
  apply (spec_fails_step (child :: l) _ _ _ _ _ (λ _ h', standing (child :: l) h' ∧ requested ACTIONS_URL h' ∧ meta_written h')).
  - eapply spec_mono; [apply (spec_after_spawn (child :: l))|].
    + do 2 (apply standing_quiet; [|by intros e ->%list_elem_of_singleton]). exact Hs2.
    + by do 2 apply custody_l.
    + intros [[]|e] h' [Hst Hr]; [split; [exact Hst|by apply Hr]|exact Hst].
  - intros _ j3 ([Hl Hr] & Hreq & Hm). spec_down. unfold booted, vm_tasks. simpl. splits; try done. by do 3 apply custody_l.
  - intros e h' Hl. split; [exact Hl|]. by intros.
Qed.

Lemma spec_confine_block guard deps layout dir chroot witness h :
  standing (option_list witness) h → tap_up h → witnessed h →
  spec R (confine_block show_path show_secs show_json config fuel req guard deps layout dir chroot witness) h
    (λ r h', match r with Ok vm => booted vm h' | Err _ => live (option_list witness) h' end).
Proof using Type.
  intros Hs Ht Hw. unfold confine_block. set (l := option_list witness) in *.
  apply (spec_fails_step l _ _ _ _ _ (λ _ h', standing l h' ∧ confined h')); [| |done].
  { eapply spec_mono; [by apply (spec_install_egress l)|]. intros [[]|e] h' [Hst He]; [split; [exact Hst|by apply He]|exact Hst]. }
  intros _ j [Hs1 He]. apply (tap_up_l _ j) in Ht. apply (witnessed_l _ j) in Hw.
  apply (spec_fails_step l _ _ _ _ _ (λ t h', standing (option_list t ++ l) h' ∧ secrets_served h')); [by apply spec_bind_secrets| |done].
  intros secrets j2 [Hs2 Hsec]. apply (spec_unwinding_drop l).
  apply (spec_fails_step (option_list secrets ++ l) _ _ _ _ _
    (λ t h', standing (option_list t ++ option_list secrets ++ l) h' ∧ provisioning_served h')); [by apply spec_bind_provisioning| |].
  2:{ intros e h' Hl. split; [exact Hl|by intros]. }
  intros prov j3 [Hs3 Hp]. apply (spec_unwinding_drop (option_list secrets ++ l)).
  eapply spec_mono; [apply spec_jailer_block; [exact Hs3|unfold custody; auto 10 with rooms]|].
  intros [vm|e] h' Hr; [exact Hr|]. split; [exact Hr|]. intros h'' Hl. split; [exact Hl|]. by intros.
Qed.

Lemma spec_boot_block guard deps layout dir chroot h :
  standing [] h →
  spec R (boot_block show_path show_secs show_json config fuel req guard deps layout dir chroot) h
    (λ r h', match r with Ok vm => booted vm h' | Err _ => live [] h' end).
Proof using Type.
  intros Hs. unfold boot_block. destruct (negb _); [apply Hs|].
  apply (spec_fails_step [] _ _ _ _ _ (λ _ h', standing [] h')); [| |done].
  { eapply spec_mono; [apply (spec_quiet _ _ (λ r h', stood [] r h'))|by intros []].
    - destruct (rs_disk_gib _); [apply calm_scratch|exact I].
    - intros r h' Hq. by apply stood_quiet. }
  intros _ j Hs1.
  apply (spec_fails_step [] _ _ _ _ _ (λ _ h', standing [] h' ∧ tap_up h')); [| |done].
  { eapply spec_mono; [by apply (spec_tap [])|]. intros [[]|e] h' [Hst Ht]; [split; [exact Hst|by apply Ht]|exact Hst]. }
  intros _ j2 [Hs2 Ht].
  apply (spec_fails_step [] _ _ _ _ _ (λ w h', standing (option_list w ++ []) h' ∧ witnessed h')); [by apply spec_boot_witness| |done].
  intros witness j3 [Hs3 Hw]. apply (spec_unwinding_drop []). rewrite (right_id_L [] (++)) in Hs3 |- *.
  eapply spec_mono; [apply spec_confine_block; [exact Hs3|by apply tap_up_l|done]|].
  intros [vm|e] h' Hr; [exact Hr|]. split; [exact Hr|]. by intros.
Qed.

Lemma stages_allowed h chroot op :
  launch_chroot_base home config = Ok chroot → stages (launch_instance_dir chroot (br_room_id req)) op → R h op.
Proof using Type. intros Hc [Hop| ->]; [by apply calm_step_allowed|]. left. by exists chroot. Qed.

Lemma stages_quiet jail op : stages jail op → quiet op.
Proof using Type. intros [Hop%calm_quiet| ->]; done. Qed.

(** *** The guard *)

(** A guard of the room the boot is for. *)
Definition own_guard (g : RoomGuard) : Prop :=
  ∃ base chroot, resolved_state_base home config = Some base ∧ launch_chroot_base home config = Ok chroot ∧
    guards_room (path_join base (br_room_id req)) (launch_instance_dir chroot (br_room_id req))
      (path_join (launch_jail_root chroot (br_room_id req)) JAIL_API_SOCK) (pending_of base) g.

Lemma own_boot_guard base chroot :
  resolved_state_base home config = Some base → launch_chroot_base home config = Ok chroot →
  own_guard (boot_guard config req base chroot (pending_of base)).
Proof using Type.
  intros Hb Hc. exists base, chroot. split; [done|]. split; [done|]. unfold guards_room, boot_guard, pending_of, PendingSlotClaim_new.
  destruct (br_slot req) as [slot|]; [|destruct (br_network req)]; cbn; split_and!; try done. by intros ? [= <-].
Qed.

Lemma own_set_child pid g : own_guard g → own_guard (set_child pid g).
Proof using Type. by intros (base & chroot & ? & ? & ?); exists base, chroot. Qed.

(** A failure returns such a guard. *)
Definition own_err {A : Type} (r : result (FirecrackerError * RoomGuard) A) : Prop :=
  match r with Err (_, g) => own_guard g | Ok _ => True end.

Lemma own_fails {A B : Type} g (p : sys (result FirecrackerError A)) (k : A → sys (result (FirecrackerError * RoomGuard) B)) :
  own_guard g → (∀ a, returns own_err (k a)) → returns own_err (try* a := fails g p in k a).
Proof using Type.
  intros Hg Hk. unfold fails. eapply (returns_bind own_err).
  - eapply returns_bind; [apply returns_any|]. by intros [a|e] _.
  - intros [a|[e g']] H; [apply Hk|exact H].
Qed.

Lemma own_unwinding {A : Type} cleanup (p : sys (result (FirecrackerError * RoomGuard) A)) :
  returns own_err p → returns own_err (unwinding cleanup p).
Proof using Type.
  intros Hp. unfold unwinding. eapply returns_bind; [exact Hp|]. intros [a|e] H; [done|].
  eapply returns_bind; [apply returns_any|]. by intros u _.
Qed.

Lemma own_boot_block guard deps layout dir chroot :
  own_guard guard → returns own_err (boot_block show_path show_secs show_json config fuel req guard deps layout dir chroot).
Proof using Type.
  intros Hg. unfold boot_block. destruct (negb _); [exact Hg|].
  do 3 (apply own_fails; [done|intros ?]). apply own_unwinding. unfold confine_block.
  do 2 (apply own_fails; [done|intros ?]). apply own_unwinding. apply own_fails; [done|intros ?]. apply own_unwinding.
  unfold jailer_block. do 2 (apply own_fails; [done|intros ?]).
  eapply returns_bind; [apply returns_any|]. intros pid _. eapply returns_bind; [apply returns_any|]. intros pid' _.
  apply own_unwinding. by apply own_fails; [apply own_set_child|].
Qed.

Lemma calm_kill_child pid grace : only calm (kill_child_gracefully fuel pid grace).
Proof using Type.
  unfold kill_child_gracefully, kill_0. destruct pid as [pid|]; only_walk.
  revert a0. generalize fuel as n. induction n as [|n IH]; intros a0; cbn [poll_child]; unfold kill_0; only_walk.
Qed.

(** The guard's drop keeps the order of a reap, and starts nothing. *)
Lemma spec_guard_drop l g h :
  own_guard g → live l h → spec R (guard_drop show_path fuel g) h (λ _ h', live l h').
Proof using Type.
  intros (base & chroot & Hb & Hc & Hg) Hl. pose proof Hg as (Hsup & Hdis & _). unfold guard_drop. rewrite Hsup, Hdis. cbn [orb].
  destruct (cleanup_after_child show_path _ _ _ _ fuel g Hg) as (rest & -> & Hrest). clear Hg.
  apply spec_bind, spec_quiet; [apply calm_kill_child|]. intros _ h1 H1. apply (live_quiet _ _ h1) in Hl; [|done].
  specialize (Hrest [] (λ _ _, True) (λ _, I)).
  assert (Honly : only teardown_op rest) by (eapply spec_only_ops; [exact Hrest|intros ? ?; apply may_reap_teardown]).
  eapply spec_shift; [eapply (spec_refine _ _ (λ k op, all_calls teardown_op k ∧ may_reap show_path _ _ _ _ k op) _ _ _ Honly Hrest)|..].
  - intros k op Hk _ Hop. by split.
  - intros k op [Hk Hop]. cbn [app] in *.
    assert (Ht : tearing_down ((h ++ h1) ++ k) op) by (by exists base, chroot, (h ++ h1), k).
    pose proof (may_reap_teardown _ _ _ _ _ _ _ Hop) as Htd. destruct op; try done; [intros _; exact Ht|by right].
  - intros _ k [_ (k' & E & Hk)]. cbn [app] in E. subst k'. apply live_quiet; [done|]. intros e He. by apply teardown_quiet, Hk.
Qed.

(** The boot has made no directory for the room. *)
Definition no_room (h : list sys_event) : Prop := ∀ p, ¬ answered h (OMkdirPrivate p) (λ r, r = Ok ()).

Definition made_room (e : sys_event) : Prop :=
  match e with
  | Event op x => match op return ans op → Prop with OMkdirPrivate _ => λ x, x = Ok () | _ => λ _, False end x
  end.

Lemma no_room_snoc h e : no_room h → ¬ made_room e → no_room (h ++ [e]).
Proof using Type.
  intros Hn He p (x & [Hx|Hx%list_elem_of_singleton]%elem_of_app & ->); [by apply (Hn p); exists (Ok ())|].
  subst. by apply He.
Qed.

Lemma no_room_quiet h h' : no_room h → all_calls quiet h' → no_room (h ++ h').
Proof using Type.
  intros Hn Hq p (x & [Hx|Hx]%elem_of_app & ->); [by apply (Hn p); exists (Ok ())|by apply (Hq _ Hx)].
Qed.

Lemma chroot_base_found base : resolved_state_base home config = Some base → ∃ p, launch_chroot_base home config = Ok p.
Proof using Type.
  intros H. unfold launch_chroot_base, chroot_base. rewrite H. destruct (jailer_chroot_base config); simpl; eauto.
Qed.

Lemma spec_boot_prefix base h :
  resolved_state_base home config = Some base → standing [] h → no_room h →
  spec R (boot_prefix resolve home config req base) h
    (λ r h', standing [] h' ∧ match r with Ok (_, chroot) => launch_chroot_base home config = Ok chroot | Err _ => no_room h' end).
Proof using Type.
  intros Hbase Hs Hn. unfold boot_prefix. spec_down. destruct (Resources_validate _ _ _); cbv iota; [|by split].
  destruct (_ && _); [by split|]. apply spec_try. unfold raced.
  eapply spec_mono.
  { apply (spec_quiet _ _ (λ _ h', standing [] h' ∧ no_room h')).
    - pose proof (calm_deps resolve config). only_walk.
    - intros r h' Hq. split; [by apply standing_quiet|by apply no_room_quiet]. }
  intros [deps|e] h1 [Hs1 Hn1]; [|by split]. unfold prepare_room_dir. spec_down.
  apply (spec_mono _ _ _ (λ _ h', standing [] h' ∧ no_room h')).
  { destruct (parent _); [|by split]. apply spec_quiet; [only_walk|]. intros r h' Hq.
    split; [by apply standing_quiet|by apply no_room_quiet]. }
  intros [[]|e] h2 [Hs2 Hn2]; [|by split]. spec_call as r; [done|].
  pose proof (standing_snoc [] h2 (Event (OMkdirPrivate (path_join base (br_room_id req))) r) Hs2 I) as Hs3.
  destruct (chroot_base_found base Hbase) as [chroot ->].
  destruct r as [[]|e]; simpl map_err; cbv iota; spec_down; (split; [exact Hs3|]); [done|].
  by apply no_room_snoc.
Qed.

Lemma spec_boot :
  spec R (boot_with_cancellation show_path resolve show_secs show_json immutable_flag home config fuel req) []
    (λ r h', match r with Ok vm => booted vm h' | Err _ => live [] h' end).
Proof using Type.
  assert (Hs0 : standing [] []) by (split; [intros e t []%elem_of_nil|intros e []%elem_of_nil]).
  unfold boot_with_cancellation. destruct (resolved_state_base home config) as [base|] eqn:Hbase; [|apply Hs0].
  apply spec_try, spec_unwinding. eapply spec_mono.
  { apply (spec_boot_prefix base); [done..|]. by intros p (x & []%elem_of_nil & _). }
  intros [[deps chroot]|e] h [Hs Hn].
  2:{ unfold PendingSlotClaim_drop, PendingSlotClaim_new.
      destruct (br_slot req) as [slot|] eqn:Hslot; [|apply Hs]. spec_call as r.
      - split; [by exists slot|]. exact Hn.
      - apply live_other; [apply Hs|done]. }
  assert (Hdrop : ∀ guard h (k : sys (result FirecrackerError BootedVm)) Q, own_guard guard → live [] h →
    (∀ h', live [] h' → spec R k h' Q) → spec R (do* guard_drop show_path fuel guard in k) h Q).
  { intros guard h0 k Q Hg Hl Hk. apply spec_bind. eapply spec_mono; [by apply spec_guard_drop|]. intros [] h' Hl'. by apply Hk. }
  assert (Hown : own_guard (boot_guard config req base chroot (pending_of base))) by (by apply own_boot_guard).
  fold (pending_of base).
  apply spec_try, spec_unwinding. apply (spec_mono _ _ _ (λ _ h', standing [] h')).
  { eapply (only_spec (stages (launch_instance_dir chroot (br_room_id req)))).
    - apply only_try; [apply stages_layout|]. intros layout. eapply only_weaken; [|by left].
      pose proof (calm_toolstore show_path immutable_flag). only_walk.
    - intros h' op _. by apply (stages_allowed _ chroot).
    - intros r h' Hq. exact (standing_quiet [] h h' Hs (λ e He, stages_quiet _ _ (Hq e He))). }
  intros [layout|e] h1 Hs1.
  2:{ apply spec_guard_drop; [exact Hown|apply Hs1]. }
  spec_call as cancelled; [done|]. pose proof (standing_snoc [] h1 (Event OCancelled cancelled) Hs1 I) as Hs2.
  destruct cancelled; [by apply Hdrop; [|apply Hs2|]|].
  apply spec_bind. eapply spec_mono; [apply (spec_returns own_err); [by apply own_boot_block|by apply spec_boot_block]|].
  intros [vm|[e guard]] h2 [Hg H2]; [exact H2|]. by apply Hdrop.
Qed.

(** C7.  A boot, whatever the host answers, whenever it is cancelled and wherever it
    dies: the jailer is only started once the room's own tap is up, the capture
    asked for is running on it, the egress rules of an enforcing policy are
    installed on it, and the sockets for secrets and provisioning are bound; the
    guest is only started after every earlier request to the API succeeded and, for
    a base, its metadata was written.  The claimed slot is given back in two ways
    only: directly, before this boot made the room's directory; or by the room's
    guard, which looks at the claim only once it saw the jail gone and removed the
    room's directory, with no call since that could make one, removes the egress
    rules and the tap only under that claim, and the claim only once both are gone.
    The room's directory itself is removed only once the jail was seen gone.  A boot
    that fails has ended every task and child it started. *)
Theorem boot_ordered tr o :
  run (boot_with_cancellation show_path resolve show_secs show_json immutable_flag home config fuel req) tr o →
  guarded boot_allows tr ∧
  (∀ vm, o = Some (Ok vm) → booted vm tr) ∧
  (∀ e, o = Some (Err e) → ∀ started task, started ∈ tr → task_of started = Some task → Event (ODropTask task) () ∈ tr).
Proof using Type.
  intros Hrun.
  destruct (spec_run _ _ _ _ _ spec_boot Hrun) as [Hg Ho]. split; [exact Hg|]. split.
  - intros vm ->. exact (Ho _ eq_refl).
  - intros e ->. intros ev t Hev Ht. destruct (Ho _ eq_refl ev t Hev Ht) as [Hin|]; [|done]. by apply elem_of_nil in Hin.
Qed.
End boot_order.

Definition sample_request : BootRequest :=
  {| br_toolstore := None; br_resources := Resources_default; br_kernel := ["vmlinux"]; br_rootfs := ["rootfs"];
     br_network := None; br_slot := Some (derive 3); br_room_id := "r-1"; br_readonly_rootfs := true;
     br_descriptor := {| rd_command := None; rd_keep := false |}; br_witness := true; br_secrets := Some "K=v";
     br_provisioning := None; br_egress := PlanNone; br_base := false |}.

Definition boot_config : RoomsConfig :=
  {| api_timeout := 1; instance_start_timeout := 1; api_socket_timeout := 1; guest_reach_timeout := 1;
     guest_reach_poll_interval := 1; base_provisioning_timeout := 1; cleanup_grace := 1;
     firecracker_binary := "/bin/fc"; jailer_binary := "/bin/jailer"; jailer_chroot_base := None;
     state_base := Some ["s"]; min_firecracker_version := (1, 7)%N; min_rootfs_bytes := 1; max_pool := 8 |}.

(** A host that can run rooms. *)
Definition room_host (h : list sys_event) (op : sysop) : ans op :=
  match op return ans op with
  | OExists _ => true
  | ORun program _ =>
      Ok {| success := negb (program =? "kill")%string; stderr := "";
            stdout := if (program =? "id")%string then "0"
                      else if (program =? "getent")%string then "firecracker:x:7:8::/:/bin/sh" else "" |}
  | op => idle_host h op
  end.

(** It boots; and when the API fails, what was started is ended. *)
Definition deaf_host (h : list sys_event) (op : sysop) : ans op :=
  match op return ans op with
  | ORunStatus _ _ => Ok (Some 22%Z, {| success := false; stdout := ""; stderr := "" |})
  | op => room_host h op
  end.

Definition sample_boot : sys (result FirecrackerError BootedVm) :=
  boot_with_cancellation (join "/") (λ s, [s]) show_N (λ _, Ok "{}") 16 None boot_config 5 sample_request.

Lemma boot_ordered_witness :
  (∃ vm, fst (exec room_host sample_boot []) = Some (Ok vm) ∧ booted sample_request vm (snd (exec room_host sample_boot []))) ∧
  let tr := snd (exec deaf_host sample_boot []) in
  (∃ e, fst (exec deaf_host sample_boot []) = Some (Err e)) ∧
  ∀ started task, started ∈ tr → task_of started = Some task → Event (ODropTask task) () ∈ tr.
Proof.
  split.
  - destruct (fst (exec room_host sample_boot [])) as [[vm|e]|] eqn:E; [|vm_compute in E; discriminate E..].
    exists vm. split; [done|].
    by apply (boot_ordered (join "/") (λ s, [s]) show_N (λ _, Ok "{}") 16 None boot_config 5 sample_request
      (snd (exec room_host sample_boot [])) _ (exec_run_nil room_host sample_boot)).
  - intros tr. destruct (fst (exec deaf_host sample_boot [])) as [[vm|e]|] eqn:E; [vm_compute in E; discriminate E| |vm_compute in E; discriminate E].
    split; [by exists e|].
    apply (boot_ordered (join "/") (λ s, [s]) show_N (λ _, Ok "{}") 16 None boot_config 5 sample_request
      tr (Some (Err e))) with (e := e); [|done]. rewrite <- E. apply (exec_run_nil deaf_host sample_boot).
Defined.
