(* ===== verification/RestoreLaunch.v ===== *)
(** * RestoreLaunch: the process of a restore ([firecracker.rs])

    Staging a restore's jail, starting its jailer behind the launch barrier, and
    the handle the restore drives. *)

From S2P Require Import Prelude RStr Fs Room Slot Host Config Snapshot Prog Sys Process Teardown InodeSeal Images Launch Boot.
From stdpp Require Import options.

Record RestoreSpawnRequest := {
  rq_room_id : string;
  rq_rootfs : path;
  rq_host_vmstate : path;
  rq_host_mem : path;
  rq_toolstore : option Toolstore;
  rq_descriptor : RoomDescriptor;
  rq_snapshot_id : string;
  rq_network_namespace : option string
}.

(** [rl_barrier] while the launcher waits for its line. *)
Record RestoreLaunch := {
  rl_child : handle;
  rl_barrier : bool;
  rl_guard : RoomGuard;
  rl_socket : path;
  rl_log_path : path;
  rl_network_namespace : option string
}.

(** [meta.snapshot_lineage] and [meta.toolstore_sha256] assigned. *)
Definition set_lineage (lineage toolstore : option string) (m : RoomMeta) : RoomMeta :=
  {| schema_version := schema_version m; meta_id := meta_id m; label := label m; started_at := started_at m;
     pid := pid m; pid_starttime := pid_starttime m; keep := keep m; slot := slot m;
     clone_net_index := clone_net_index m; provenance := provenance m; snapshot_lineage := lineage;
     toolstore_sha256 := toolstore; base_repo_sha := base_repo_sha m |}.

Section restore_launch.
  Variable show_path : path → string.
  Variable resolve : string → path.
  Variable immutable_flag : N.
  Variable home : option path.
  Variable config : RoomsConfig.
  Variable fuel : nat.

Definition prep {A : Type} (what : string) (p : sys (result io_error A)) : sys (result FirecrackerError A) :=
  pmap_err (λ e, FcJailPrepareFailed (what +:+ ": " +:+ message e)) p.

Definition remount_readonly (target : path) : sys (result FirecrackerError unit) :=
  try* output := pmap_err FcIo (call (ORun "mount" ["-o"; "remount,ro,bind"; show_path target])) in
  if success output then Ret (Ok ())
  else Ret (Err (FcJailPrepareFailed ("remount " +:+ show_path target +:+ " read-only: " +:+ trim (stderr output)))).

Definition copy_owned_private (source target : path) (uid gid : N) : sys (result io_error unit) :=
  try* _ := call (OCopy source target) in
  try* _ := call (OSetMode target 384) in
  call (OChown target uid gid).

(** Access of the group and of others, in octal in the message. *)
Fixpoint octal_text (fuel : nat) (n : N) (acc : string) : string :=
  match fuel with
  | 0 => acc
  | S fuel =>
      let acc := hex_digit (n mod 8) +:+ acc in
      if (n <? 8)%N then acc else octal_text fuel (n / 8) acc
  end.

Definition ensure_owned_private (p : path) (fc_uid : N) : sys (result string unit) :=
  try* meta := pmap_err (λ e, "stat " +:+ show_path p +:+ ": " +:+ message e) (call (OLstat p)) in
  if negb (st_is_file meta) then Ret (Err (show_path p +:+ " is not a regular file")) else
  if negb (st_uid meta =? fc_uid)%N then
    Ret (Err (show_path p +:+ " is not owned by the firecracker uid " +:+ show_N fc_uid +:+ " (uid " +:+
              show_N (st_uid meta) +:+ "); re-collect the snapshot"))
  else if negb (N.land (fi_mode (st_id meta)) 63 =? 0)%N then
    Ret (Err (show_path p +:+ " grants group/other access (mode " +:+
              octal_text 4 (N.land (fi_mode (st_id meta)) 4095) "" +:+ "); the memory file must stay private"))
  else Ret (Ok ()).

Definition stage_restore_jail_inner (jail_root : path) (req : RestoreSpawnRequest) (uid gid : N)
    : sys (result FirecrackerError unit) :=
  try* _ := prep ("create jail root " +:+ show_path jail_root) (call (OCreateDirAll jail_root)) in
  let jail_rootfs := path_join jail_root JAIL_ROOTFS in
  try* _ := ensure_mount_target "rootfs mount target" jail_rootfs in
  try* rootfs := prep ("rootfs path " +:+ show_path (rq_rootfs req)) (call (OCanonicalize (rq_rootfs req))) in
  try* _ := bind_mount show_path rootfs jail_rootfs in
  try* _ := remount_readonly jail_rootfs in
  let jail_vmstate := path_join jail_root SNAPSHOT_VMSTATE_FILE in
  try* _ := prep "stage vmstate" (copy_owned_private (rq_host_vmstate req) jail_vmstate uid gid) in
  try* _ := pmap_err FcJailPrepareFailed (ensure_owned_private (rq_host_mem req) uid) in
  let jail_mem := path_join jail_root SNAPSHOT_MEM_FILE in
  try* _ := ensure_mount_target "mem mount target" jail_mem in
  try* _ := bind_mount show_path (rq_host_mem req) jail_mem in
  match rq_toolstore req with
  | None => Ret (Ok ())
  | Some toolstore =>
      let jail_toolstore := path_join jail_root JAIL_TOOLSTORE in
      try* _ := prep "create toolstore mount target" (call (OOpen jail_toolstore OpenCreateNew)) in
      pmap_err (λ e, FcJailPrepareFailed ("stage toolstore: " +:+ e)) (bind_into show_path immutable_flag toolstore jail_toolstore)
  end.

Definition stage_restore_jail (jail_root : path) (req : RestoreSpawnRequest) (uid gid : N)
    : sys (result FirecrackerError unit) :=
  unwinding
    (do* pfor_each (λ name, unmount_quiet show_path (path_join jail_root name)) [JAIL_ROOTFS; SNAPSHOT_MEM_FILE; JAIL_TOOLSTORE] in
     match parent jail_root with
     | Some instance_dir => do* call (ORemoveDirAll instance_dir) in Ret ()
     | None => Ret ()
     end)
    (stage_restore_jail_inner jail_root req uid gid).

(** Nothing gives up at an [.await] here. *)
Definition uncancelled {A : Type} (p : sys (result FirecrackerError A)) : sys (result FirecrackerError A) := p.

(** From the guard on: the child's pid is recorded before anything may run. *)
Definition spawn_restore_guarded (req : RestoreSpawnRequest) (deps : boot_deps) (per_room_dir chroot : path)
    (guard : RoomGuard) : sys (result (FirecrackerError * RoomGuard) RestoreLaunch) :=
  let jail_root := launch_jail_root chroot (rq_room_id req) in
  let socket := path_join jail_root JAIL_API_SOCK in
  let log_path := path_join per_room_dir "firecracker.log" in
  let launch := build_jailer_launch_plan show_path
    {| ji_jailer_binary := bd_jailer deps; ji_firecracker_binary := bd_firecracker deps; ji_chroot_base := chroot;
       ji_room_id := rq_room_id req; ji_fc_uid := bd_uid deps; ji_fc_gid := bd_gid deps;
       ji_layout := {| jl_instance_dir := launch_instance_dir chroot (rq_room_id req); jl_host_socket := socket |};
       ji_network_namespace := rq_network_namespace req |} in
  try* _ := fails guard (open_log_file (@uncancelled) log_path) in
  try* child := fails guard (spawn_barriered_jailer launch) in
  let* child_pid := call (OChildId child) in
  let guard := set_child child_pid guard in
  unwinding (do* call (OCloseStdin child) in drop_task (Some child)) (
    let* child_pid := call (OChildId child) in
    let* starttime := starttime_of_child child_pid in
    let* now := call ONow in
    let meta := set_lineage (Some (rq_snapshot_id req)) (ts_digest <$> rq_toolstore req)
                  (RoomMeta_new (rq_room_id req) (rd_command (rq_descriptor req)) child_pid starttime
                     (rd_keep (rq_descriptor req)) (Z.of_N now)) in
    try* _ := fails guard (pmap_err FcIo (call (OWriteMeta per_room_dir meta))) in
    Ret (Ok {| rl_child := child; rl_barrier := true; rl_guard := guard; rl_socket := socket; rl_log_path := log_path;
               rl_network_namespace := rq_network_namespace req |})).

Definition spawn_restore (req : RestoreSpawnRequest) : sys (result FirecrackerError RestoreLaunch) :=
  try* deps := resolve_boot_dependencies resolve config (@uncancelled) in
  try* per_room_dir := Ret (ok_or (room_dir home config (rq_room_id req)) FcHomeUnset) in
  try* _ := prepare_room_dir per_room_dir in
  try* chroot := Ret (launch_chroot_base home config) in
  let jail_root := launch_jail_root chroot (rq_room_id req) in
  try* _ := stage_restore_jail jail_root req (bd_uid deps) (bd_gid deps) in
  let guard := set_jail_instance_dir (launch_instance_dir chroot (rq_room_id req))
                 (guard_new per_room_dir (path_join jail_root JAIL_API_SOCK) config) in
  let* r := spawn_restore_guarded req deps per_room_dir chroot guard in
  match r with
  | Ok launch => Ret (Ok launch)
  | Err (e, guard) => do* guard_drop show_path fuel guard in Ret (Err e)
  end.

(** ** The handle *)

Definition launch_pid (l : RestoreLaunch) : sys (option N) := call (OChildId (rl_child l)).

Definition barrier_released (l : RestoreLaunch) : RestoreLaunch :=
  {| rl_child := rl_child l; rl_barrier := false; rl_guard := rl_guard l; rl_socket := rl_socket l;
     rl_log_path := rl_log_path l; rl_network_namespace := rl_network_namespace l |}.

(** The pipe is closed whatever happens. *)
Definition release_barrier (l : RestoreLaunch) : sys (result FirecrackerError unit) :=
  if rl_barrier l then
    let* written := call (OWriteStdin (rl_child l) ("go" +:+ String nl "")) in
    do* call (OCloseStdin (rl_child l)) in
    Ret (map_err FcIo written)
  else Ret (Err (FcInternal "restore barrier already released")).

Definition wait_api (l : RestoreLaunch) (timeout : N) : sys (result FirecrackerError unit) :=
  wait_for_socket fuel (@uncancelled) (rl_socket l) timeout (rl_child l) (Some (rl_log_path l)).

Definition attach_leased_slot (l : RestoreLaunch) (slot : Slot) : sys (result FirecrackerError unit) :=
  create_slot_tap slot (rl_network_namespace l).

Definition into_booted (l : RestoreLaunch) (witness : option handle) : BootedVm :=
  {| vm_witness := witness; vm_secrets_delivery := None; vm_provisioning_delivery := None;
     vm_guard := rl_guard l; vm_child := rl_child l |}.

(** The drops of a launch and of a machine. *)
Definition launch_drop (l : RestoreLaunch) : sys unit :=
  do* drop_task (Some (rl_child l)) in
  do* (if rl_barrier l then do* call (OCloseStdin (rl_child l)) in Ret () else Ret ()) in
  guard_drop show_path fuel (rl_guard l).

Definition vm_drop (vm : BootedVm) : sys unit :=
  do* drop_task (vm_witness vm) in
  do* drop_task (vm_secrets_delivery vm) in
  do* drop_task (vm_provisioning_delivery vm) in
  do* guard_drop show_path fuel (vm_guard vm) in
  drop_task (Some (vm_child vm)).

End restore_launch.
