(* ===== verification/RestoreSource.v ===== *)
(** * RestoreSource: what a restore reads ([restore_exec.rs])

    The identity of a restore's inputs, their preparation, and the checks that
    what was staged is what was prepared.  A stamp is the whole of what [stat]
    tells of an inode.  SHA-256 and JSON are parameters; errors are their texts. *)

From S2P Require Import Prelude RStr Fs Room Slot Host CloneRoutes Config Snapshot Intents Prog Sys Teardown InodeSeal Images Launch.
From stdpp Require Import options.

Definition RESUME_ENTROPY_BYTES : N := 64.

Inductive RestoreSourceKind := Directory | RegularNonEmpty.

#[export] Instance RestoreSourceKind_eq_dec : EqDecision RestoreSourceKind.
Proof. solve_decision. Defined.

(** [RestoreSourceStamp] has the fields of [ImmutableFileIdentity]. *)
Definition RestoreSourceStamp : Type := ImmutableFileIdentity.

Record StampedRestorePath := {
  sp_label : string;
  sp_path : path;
  sp_kind : RestoreSourceKind;
  sp_stamp : RestoreSourceStamp
}.

#[export] Instance StampedRestorePath_eq_dec : EqDecision StampedRestorePath.
Proof. solve_decision. Defined.

Definition RestoreSourceIdentity : Type := list StampedRestorePath.

(** [anyhow]'s [?] on an [io::Error]. *)
Definition any {A : Type} (p : sys (result io_error A)) : sys (result string A) := pmap_err message p.

Record PreparedRestoreSource := {
  pr_snapshot_dir : path;
  pr_image : path;
  pr_meta : SnapshotMeta;
  pr_ops : list RestoreOp;
  pr_identity : RestoreSourceIdentity;
  pr_vmstate_hash : string;
  pr_image_guard : handle;
  pr_toolstore_dir : option path;
  pr_toolstore : option Toolstore
}.

(** The receipt of a snapshot this state store published. *)
Record SnapshotAttestation := {
  at_schema_version : N;
  at_snapshot_dir : path;
  at_snapshot_dir_source : ImmutableFileIdentity;
  at_snapshot_meta_source : ImmutableFileIdentity;
  at_rootfs_source : ImmutableFileIdentity;
  at_meta : SnapshotMeta
}.

#[export] Instance SnapshotAttestation_eq_dec : EqDecision SnapshotAttestation.
Proof. solve_decision. Defined.

Definition ATTESTATION_SCHEMA_VERSION : N := 1.
Definition MAX_ATTESTATION_BYTES : N := 1048576.

Section restore_source.
  Variable show_path : path → string.
  Variable immutable_flag : N.
  Variable sha256 : string → string.
  Variable parse_manifest : string → option Manifest.
  Variable parse_meta : string → result string SnapshotMeta.
  Variable parse_attestation : string → option SnapshotAttestation.
  Variable arch : string.
  Variable home : option path.
  Variable config : RoomsConfig.

(** ** Stamps *)

Definition valid_kind (kind : RestoreSourceKind) (s : stat) : bool :=
  match kind with
  | Directory => st_is_dir s
  | RegularNonEmpty => st_is_file s && negb (st_len s =? 0)%N
  end.

Definition StampedRestorePath_capture (label : string) (p : path) (kind : RestoreSourceKind)
    : sys (result string StampedRestorePath) :=
  try* metadata := pmap_err (λ e, "prepared restore source " +:+ label +:+ " " +:+ show_path p +:+ ": " +:+ message e)
                     (call (OLstat p)) in
  if negb (valid_kind kind metadata) then
    Ret (Err ("prepared restore source " +:+ label +:+ " is empty, symlinked, or has the wrong type: " +:+ show_path p))
  else Ret (Ok {| sp_label := label; sp_path := p; sp_kind := kind; sp_stamp := st_id metadata |}).

Definition recapture (s : StampedRestorePath) : sys (result string StampedRestorePath) :=
  StampedRestorePath_capture (sp_label s) (sp_path s) (sp_kind s).

(** The inputs, in the order they are looked at. *)
Definition restore_inputs (snapshot_dir image : path) : list (string * path * RestoreSourceKind) :=
  [("snapshot directory", snapshot_dir, Directory);
   ("backing image", image, RegularNonEmpty);
   ("snapshot metadata", path_join snapshot_dir SNAPSHOT_META_FILE, RegularNonEmpty);
   ("snapshot vmstate", path_join snapshot_dir SNAPSHOT_VMSTATE_FILE, RegularNonEmpty);
   ("snapshot memory", path_join snapshot_dir SNAPSHOT_MEM_FILE, RegularNonEmpty)].

Definition identity_capture (snapshot_dir image : path) : sys (result string RestoreSourceIdentity) :=
  ptry_each (λ '(label, p, kind), StampedRestorePath_capture label p kind) (restore_inputs snapshot_dir image).

Fixpoint assert_pairs (reason : string) (l : list (StampedRestorePath * StampedRestorePath)) : result string unit :=
  match l with
  | [] => Ok ()
  | (expected, found) :: l =>
      if bool_decide (expected = found) then assert_pairs reason l
      else Err ("prepared restore source " +:+ sp_label expected +:+ " " +:+ show_path (sp_path expected) +:+ ": " +:+ reason)
  end.

Definition assert_same (self current : RestoreSourceIdentity) (reason : string) : result string unit :=
  if negb (length self =? length current)%nat then Err ("prepared restore source set " +:+ reason)
  else assert_pairs reason (zip self current).

Definition stamped (self : RestoreSourceIdentity) (label : string) : result string StampedRestorePath :=
  ok_or (find (λ s, (sp_label s =? label)%string) self) ("prepared restore source set lost " +:+ label).

Definition assert_open (self : RestoreSourceIdentity) (label : string) (file : handle) : sys (result string unit) :=
  try* expected := Ret (stamped self label) in
  try* observed := any (call (OFstat file)) in
  if bool_decide (sp_stamp expected = st_id observed) then Ret (Ok ())
  else Ret (Err ("prepared restore source " +:+ label +:+ " " +:+ show_path (sp_path expected) +:+
                 " differs from its open inode")).

Definition assert_staged_bind (self : RestoreSourceIdentity) (label : string) (staged : path) : sys (result string unit) :=
  try* expected := Ret (stamped self label) in
  try* metadata := pmap_err (λ e, "inspect staged " +:+ label +:+ " " +:+ show_path staged +:+ ": " +:+ message e)
                     (call (OLstat staged)) in
  if negb (st_is_file metadata) || (st_len metadata =? 0)%N then
    Ret (Err ("staged " +:+ label +:+ " " +:+ show_path staged +:+ " is empty or not regular"))
  else if bool_decide (sp_stamp expected = st_id metadata) then Ret (Ok ())
  else Ret (Err ("staged " +:+ label +:+ " " +:+ show_path staged +:+ " is not the prepared immutable source inode")).

Definition immutable_identity (self : RestoreSourceIdentity) (label : string) : result string ImmutableFileIdentity :=
  rmap sp_stamp (stamped self label).

Definition revalidate_one (expected : StampedRestorePath) : sys (result string unit) :=
  try* found := recapture expected in
  if bool_decide (found = expected) then Ret (Ok ())
  else Ret (Err ("prepared restore source " +:+ sp_label expected +:+ " " +:+ show_path (sp_path expected) +:+
                 " changed after preparation")).

Definition identity_revalidate (self : RestoreSourceIdentity) : sys (result string unit) :=
  try* _ := ptry_each revalidate_one self in Ret (Ok ()).

(** ** Content *)

Definition sha256_open_file (file : handle) : sys (result string string) :=
  try* _ := any (call (OSeek file 0)) in
  try* content := any (call (OReadAll file None)) in
  Ret (Ok ("sha256:" +:+ sha256 content)).

Definition MAX_META_BYTES : N := 1048576.

Definition read_snapshot_meta (file : handle) (meta_path : path) : sys (result string SnapshotMeta) :=
  let what e := "snapshot metadata " +:+ show_path meta_path +:+ ": " +:+ message e in
  try* metadata := pmap_err what (call (OFstat file)) in
  if (MAX_META_BYTES <? st_len metadata)%N then
    Ret (Err ("snapshot metadata " +:+ show_path meta_path +:+ " exceeds the " +:+ show_N MAX_META_BYTES +:+ " byte limit"))
  else
  try* _ := any (call (OSeek file 0)) in
  try* bytes := pmap_err what (call (OReadAll file None)) in
  try* meta := Ret (parse_meta bytes) in
  if negb (is_valid_room_id (sm_snapshot_id meta)) || negb (is_valid_room_id (sm_base_room_id meta)) then
    Ret (Err "snapshot metadata carries an invalid id")
  else Ret (Ok meta).

(** [snapshot_exec::firecracker_version]: the first line of the output that is not
    blank. *)
Definition firecracker_version : sys (result string string) :=
  try* output := any (call (ORun (firecracker_binary config) ["--version"])) in
  if negb (success output) then Ret (Err ("firecracker --version failed: " +:+ trim (stderr output))) else
  let version := default "" (find (λ l, negb (is_empty l)) (trim <$> lines (stdout output))) in
  if is_empty version then Ret (Err "firecracker --version produced no output") else Ret (Ok version).

Definition open_prepared_regular (p : path) (label : string) (require_immutable : bool) : sys (result string handle) :=
  if require_immutable then open_regular show_path immutable_flag p label else
  try* file := pmap_err (λ e, "open " +:+ label +:+ " " +:+ show_path p +:+ ": " +:+ message e) (call (OOpen p OpenRead)) in
  try* metadata := pmap_err (λ e, "inspect " +:+ label +:+ " " +:+ show_path p +:+ ": " +:+ message e) (call (OFstat file)) in
  if negb (st_is_file metadata) || (st_len metadata =? 0)%N then
    Ret (Err (label +:+ " " +:+ show_path p +:+ " is empty or not a regular file"))
  else Ret (Ok file).

Definition require_immutable_restore_source (snapshot_dir image : path) : sys (result string unit) :=
  try* _ := ptry_each (λ '(p, label), require show_path immutable_flag p label)
    [(image, "backing image"); (snapshot_dir, "snapshot directory");
     (path_join snapshot_dir SNAPSHOT_META_FILE, "snapshot metadata");
     (path_join snapshot_dir SNAPSHOT_VMSTATE_FILE, "snapshot vmstate");
     (path_join snapshot_dir SNAPSHOT_MEM_FILE, "snapshot memory")] in
  Ret (Ok ()).

(** ** Receipts *)

Definition attestation_dir : result string path :=
  ok_or (snapshot_attestations_dir home config) "cannot resolve snapshot attestation directory".

Definition attestation_path (snapshot_id : string) : result string path :=
  if negb (is_valid_room_id snapshot_id) then Err "invalid snapshot id for local attestation"
  else rmap (λ dir, path_join dir (snapshot_id +:+ ".json")) attestation_dir.

Definition attestation_matches (a : SnapshotAttestation) (snapshot_dir : path) (meta : SnapshotMeta)
    (snapshot_dir_source snapshot_meta_source rootfs_source : ImmutableFileIdentity) : bool :=
  if negb (at_schema_version a =? ATTESTATION_SCHEMA_VERSION)%N || negb (bool_decide (at_snapshot_dir a = snapshot_dir)) ||
     negb (bool_decide (at_meta a = meta)) then false
  else bool_decide (at_snapshot_dir_source a = snapshot_dir_source) &&
       bool_decide (at_snapshot_meta_source a = snapshot_meta_source) &&
       bool_decide (at_rootfs_source a = rootfs_source).

Definition attested_rootfs_hash (snapshot_dir : path) (meta : SnapshotMeta)
    (snapshot_dir_source snapshot_meta_source rootfs_source : ImmutableFileIdentity) : sys (result string (option string)) :=
  try* dir := Ret attestation_dir in
  let* listed := call (OLstat dir) in
  match listed with
  | Err e => if decide (kind e = NotFound) then Ret (Ok None) else Ret (Err (message e))
  | Ok metadata =>
      if negb (st_is_dir metadata) then Ret (Ok None) else
      try* p := Ret (attestation_path (sm_snapshot_id meta)) in
      let* opened := open_regular show_path immutable_flag p "snapshot attestation" in
      match opened with
      | Err _ => Ret (Ok None)
      | Ok file =>
          try* metadata := any (call (OFstat file)) in
          if (MAX_ATTESTATION_BYTES <? st_len metadata)%N then Ret (Ok None) else
          try* bytes := any (call (OReadAll file None)) in
          try* _ := require_file show_path immutable_flag file p "snapshot attestation" in
          match parse_attestation bytes with
          | None => Ret (Ok None)
          | Some a =>
              if attestation_matches a snapshot_dir meta snapshot_dir_source snapshot_meta_source rootfs_source
              then Ret (Ok (Some (sm_rootfs_hash (at_meta a)))) else Ret (Ok None)
          end
      end
  end.

Definition rootfs_compat_hash (snapshot_dir : path) (meta : SnapshotMeta) (image : handle)
    (source : RestoreSourceIdentity) (immutable_source : bool) : sys (result string string) :=
  try* attested :=
    (if immutable_source then
       try* dir_source := Ret (immutable_identity source "snapshot directory") in
       try* meta_source := Ret (immutable_identity source "snapshot metadata") in
       try* rootfs_source := Ret (immutable_identity source "backing image") in
       attested_rootfs_hash snapshot_dir meta dir_source meta_source rootfs_source
     else Ret (Ok None)) in
  match attested with
  | Some hash => Ret (Ok hash)
  | None => sha256_open_file image
  end.

(** ** Preparation *)

(** [Option<Result>::transpose] over a call. *)
Definition optionally {A B : Type} (f : A → sys (result string B)) (o : option A) : sys (result string (option B)) :=
  match o with Some a => try* b := f a in Ret (Ok (Some b)) | None => Ret (Ok None) end.

Definition show_Provenance (p : Provenance) : string :=
  match p with Provisioning => "Provisioning" | Neutral => "Neutral" | Tainted => "Tainted" end.

Definition show_CompatField (f : CompatField) : string :=
  match f with FcVersion => "fc_version" | RootfsHash => "rootfs_hash" end.

Definition show_RestoreError (e : RestoreError) : string :=
  match e with
  | UnsupportedSchema found =>
      "unsupported snapshot schema version " +:+ show_N found +:+ "; this build supports v1 and v2"
  | ToolstoreSchemaMismatch found =>
      "snapshot schema v" +:+ show_N found +:+ " disagrees with its toolstore field; refusing malformed metadata"
  | ToolstoreRequired => "snapshot was frozen with a toolstore; pass --toolstore with the same sealed store"
  | ToolstoreUnexpected =>
      "snapshot was frozen without a toolstore; --toolstore would add a device its machine never had"
  | ToolstoreMismatch => "supplied toolstore differs from the one frozen into the snapshot"
  | SnapshotIncompatible field =>
      "snapshot incompatible with host: " +:+ show_CompatField field +:+ " mismatch; re-snapshot on this host"
  | NotNeutralSnapshot found =>
      "refusing to restore a non-neutral snapshot (provenance: " +:+ show_Provenance found +:+
      "); its metadata does not attest a sealed neutral base"
  end.

(** [if require_immutable { ... }]. *)
Definition when_ok (b : bool) (p : sys (result string unit)) : sys (result string unit) :=
  if b then p else Ret (Ok ()).

(** The held files, their names, and where they are. *)
Definition assert_held (id : RestoreSourceIdentity) (image_guard meta_guard vmstate_guard : handle)
    : sys (result string unit) :=
  try* _ := assert_open id "backing image" image_guard in
  try* _ := assert_open id "snapshot metadata" meta_guard in
  assert_open id "snapshot vmstate" vmstate_guard.

Definition prepare_restore_inner (snapshot_dir image : path) (toolstore : option path) (require_immutable : bool)
    : sys (result string PreparedRestoreSource) :=
  try* snapshot_dir := call (OCanonical snapshot_dir) in
  try* image := call (OCanonical image) in
  try* toolstore_dir := optionally (λ p, call (OCanonical p)) toolstore in
  try* toolstore := optionally (Toolstore_open show_path immutable_flag sha256 parse_manifest arch) toolstore_dir in
  try* _ := when_ok require_immutable (require_immutable_restore_source snapshot_dir image) in
  try* before := identity_capture snapshot_dir image in
  try* image_guard := open_prepared_regular image "backing image" require_immutable in
  let meta_path := path_join snapshot_dir SNAPSHOT_META_FILE in
  try* meta_guard := open_prepared_regular meta_path "snapshot metadata" require_immutable in
  let vmstate_path := path_join snapshot_dir SNAPSHOT_VMSTATE_FILE in
  try* vmstate_guard := open_prepared_regular vmstate_path "snapshot vmstate" require_immutable in
  try* _ := assert_held before image_guard meta_guard vmstate_guard in
  try* meta := read_snapshot_meta meta_guard meta_path in
  try* vmstate_hash := sha256_open_file vmstate_guard in
  try* host_fc := firecracker_version in
  try* rootfs_hash := rootfs_compat_hash snapshot_dir meta image_guard before require_immutable in
  try* ops := Ret (map_err show_RestoreError (plan_restore meta host_fc rootfs_hash (ts_digest <$> toolstore))) in
  try* identity := identity_capture snapshot_dir image in
  try* _ := Ret (assert_same before identity "changed while being prepared") in
  try* _ := assert_held identity image_guard meta_guard vmstate_guard in
  try* _ := when_ok require_immutable (
    try* _ := require_file show_path immutable_flag image_guard image "backing image" in
    try* _ := require_file show_path immutable_flag meta_guard meta_path "snapshot metadata" in
    require_file show_path immutable_flag vmstate_guard vmstate_path "snapshot vmstate") in
  Ret (Ok {| pr_snapshot_dir := snapshot_dir; pr_image := image; pr_meta := meta; pr_ops := ops; pr_identity := identity;
             pr_vmstate_hash := vmstate_hash; pr_image_guard := image_guard; pr_toolstore_dir := toolstore_dir;
             pr_toolstore := toolstore |}).

Definition prepare_restore (snapshot_dir image : path) (toolstore : option path)
    : sys (result string PreparedRestoreSource) :=
  prepare_restore_inner snapshot_dir image toolstore true.

(** ** Checking a prepared source again *)

(** [if let Some(toolstore) = &self.toolstore]. *)
Definition for_toolstore (p : PreparedRestoreSource) (f : Toolstore → sys (result string unit)) : sys (result string unit) :=
  match pr_toolstore p with Some t => f t | None => Ret (Ok ()) end.

Definition revalidate (p : PreparedRestoreSource) : sys (result string unit) :=
  try* _ := require_immutable_restore_source (pr_snapshot_dir p) (pr_image p) in
  try* _ := for_toolstore p (require_sealed show_path immutable_flag) in
  try* _ := require_file show_path immutable_flag (pr_image_guard p) (pr_image p) "backing image" in
  try* _ := assert_open (pr_identity p) "backing image" (pr_image_guard p) in
  identity_revalidate (pr_identity p).

Definition verify_staged (p : PreparedRestoreSource) (jail_root : path) : sys (result string unit) :=
  try* _ := assert_staged_bind (pr_identity p) "backing image" (path_join jail_root JAIL_ROOTFS) in
  try* _ := assert_staged_bind (pr_identity p) "snapshot memory" (path_join jail_root SNAPSHOT_MEM_FILE) in
  try* _ := for_toolstore p (λ t, verify_attachment show_path immutable_flag t (path_join jail_root JAIL_TOOLSTORE)) in
  let staged_vmstate_path := path_join jail_root SNAPSHOT_VMSTATE_FILE in
  try* staged_vmstate := pmap_err (λ e, "open staged snapshot vmstate " +:+ show_path staged_vmstate_path +:+ ": " +:+ message e)
                           (call (OOpen staged_vmstate_path OpenRead)) in
  try* staged_hash := sha256_open_file staged_vmstate in
  if negb (staged_hash =? pr_vmstate_hash p)%string then
    Ret (Err ("staged snapshot vmstate " +:+ show_path staged_vmstate_path +:+
              " differs from the prepared immutable source"))
  else Ret (Ok ()).

(** ** The output of a restore *)

(** [Path::ancestors] without the path itself, nearest first. *)
Fixpoint proper_ancestors (rpath : list string) : list path :=
  match rpath with [] => [] | _ :: rest => rev rest :: proper_ancestors rest end.

(** [Path::is_dir]. *)
Definition is_dir (p : path) : sys bool :=
  let* r := call (OStat p) in
  Ret (match r with Ok s => st_is_dir s | Err _ => false end).

(** An output that is there is an empty directory. *)
Definition output_is_fresh (out : path) : sys (result string unit) :=
  let* here := call (OExists out) in
  if negb here then Ret (Ok ()) else
  let* dir := is_dir out in
  if negb dir then Ret (Err ("restore output is not a directory: " +:+ show_path out)) else
  try* entries := any (call (OReadDir out)) in
  if negb (bool_decide (entries = [])) then
    Ret (Err ("refusing non-empty restore output " +:+ show_path out +:+ " (must be empty or absent)"))
  else Ret (Ok ()).

Definition refuse_overlap (out : path) (name : string) (root : path) : sys (result string unit) :=
  if overlaps out root then
    Ret (Err ("restore output " +:+ show_path out +:+ " overlaps the " +:+ name +:+ " " +:+ show_path root))
  else Ret (Ok ()).

Definition refuse_snapshot_ancestor (out ancestor : path) : sys (result string unit) :=
  let* here := call (OExists (path_join ancestor SNAPSHOT_META_FILE)) in
  if here : bool then
    Ret (Err ("restore output " +:+ show_path out +:+ " lies inside snapshot directory " +:+ show_path ancestor))
  else Ret (Ok ()).

Definition refuse_pending_output (out pending : path) : sys (result string unit) :=
  try* root := call (OCanonical pending) in
  if overlaps out root then
    Ret (Err ("restore output " +:+ show_path out +:+ " overlaps a pending snapshot transaction's output " +:+
              show_path pending))
  else Ret (Ok ()).

(** The four roots are all resolved before the first is compared. *)
Definition validate_output_disjoint (out_dir : option path) (image snapshot_dir : path) : sys (result string unit) :=
  match out_dir with
  | None => Ret (Ok ())
  | Some out =>
      try* out := call (OCanonical out) in
      try* _ := output_is_fresh out in
      try* state := Ret (exec_state_base home config) in
      try* base := Ret (ok_or (chroot_base home config) "cannot resolve jailer chroot base") in
      let instances := path_join base "firecracker" in
      try* state_root := call (OCanonical state) in
      try* instances_root := call (OCanonical instances) in
      try* _ := ptry_each (λ '(name, root), refuse_overlap out name root)
        [("backing image", image); ("rooms state base", state_root); ("jail instance root", instances_root);
         ("snapshot directory", snapshot_dir)] in
      try* _ := ptry_each (refuse_snapshot_ancestor out) (proper_ancestors (rev out)) in
      try* intents := call OSnapshotIntents in
      try* _ := ptry_each (refuse_pending_output out) (si_out_dir <$> intents) in
      Ret (Ok ())
  end.

End restore_source.
