(* ===== verification/RestoreTeardown.v ===== *)
(** * RestoreTeardown: how a restore ends ([restore_exec.rs])

    The terminal teardown of a restored room, the two aborts that use it, and the
    sweep of [rooms gc] over the restore index.  Logging is left out. *)

From S2P Require Import Prelude RStr Fs Room IndexedClaim Slot Host CloneRoutes CloneNet Config Snapshot Intents Prog Sys Process Teardown Boot RestoreLaunch.
From stdpp Require Import options.

Section restore_teardown.
  Variable show_path : path → string.
  Variable home : option path.
  Variable config : RoomsConfig.
  Variable fuel : nat.

(** The paths a teardown is about, and the state base. *)
Definition teardown_paths (room_id : string) : result string (path * path * path * path) :=
  let? room_dir := ok_or (room_dir home config room_id) "cannot resolve room dir" in
  let? jail_dir := ok_or (jail_instance_dir home config room_id) "cannot resolve jail dir" in
  let? socket := ok_or (jail_socket home config room_id) "cannot resolve socket" in
  let? state := exec_state_base home config in
  Ok (room_dir, jail_dir, socket, state).

Definition slot_tap_name (index : N) : string := "tap-fc" +:+ show_N index.

(** [p?] while a held lease is in scope. *)
Definition holding {A : Type} (lease : option LeaseHold) (p : sys (result string A)) : sys (result string A) :=
  let* r := p in
  match r, lease with
  | Err e, Some hold => do* call (OSlotDrop hold) in Ret (Err e)
  | r, _ => Ret r
  end.

(** What is done with the lease; returning it consumes it. *)
Definition release_lease (index : N) (clone_net_index : option N) (lease : option LeaseHold) : sys (result string unit) :=
  match lease with
  | None => Ret (Ok ())
  | Some hold =>
      try* _ := holding lease
        match clone_net_index with
        | None => pmap_err fc_message (remove_egress_and_tap (slot_tap_name index))
        | Some _ => Ret (Ok ())
        end in
      try* _ := pmap_err show_SlotError (call (OSlotReturn hold)) in
      Ret (Ok ())
  end.

(** From the reaped room on. *)
Definition finish_shared (state : path) (room_id snapshot_id : string) (slot_index : N) (clone_net_index : option N)
    : sys (result string unit) :=
  try* lease := pmap_err show_SlotError (call (OSlotHold state slot_index snapshot_id room_id)) in
  try* _ := holding lease
    match clone_net_index with
    | Some index =>
        try* _ := pmap_err show_CloneNetError (call (OCloneFree state index room_id)) in Ret (Ok ())
    | None => Ret (Ok ())
    end in
  try* _ := release_lease slot_index clone_net_index lease in
  call (OFinishRestoreIntent room_id).

Definition finish_teardown (room_id snapshot_id : string) (slot_index : N) (clone_net_index : option N)
    : sys (result string unit) :=
  match teardown_paths room_id with
  | Err e => Ret (Err e)
  | Ok (room_dir, jail_dir, socket, state) =>
      try* _ := pmap_err fc_message (reap_room_only show_path fuel config room_dir jail_dir socket) in
      finish_shared state room_id snapshot_id slot_index clone_net_index
  end.

Definition finish_intent (i : RestoreIntent) : sys (result string unit) :=
  finish_teardown (ri_room_id i) (ri_snapshot_id i) (ri_slot_index i) (ri_clone_net_index i).

(** The end of the launcher's pipe that is still held. *)
Definition drop_barrier (l : RestoreLaunch) : sys unit :=
  if rl_barrier l then call (OCloseStdin (rl_child l)) else Ret ().

Definition abort_launch (launch : RestoreLaunch) (intent : RestoreIntent) : sys unit :=
  do* guard_cleanup show_path fuel (rl_guard launch) in
  let booted := into_booted launch None in
  do* drop_barrier launch in
  let booted := {| vm_witness := vm_witness booted; vm_secrets_delivery := vm_secrets_delivery booted;
                   vm_provisioning_delivery := vm_provisioning_delivery booted;
                   vm_guard := guard_dismiss (vm_guard booted); vm_child := vm_child booted |} in
  do* vm_drop show_path fuel booted in
  do* finish_intent intent in
  Ret ().

Definition clean_pre_spawn (intent : RestoreIntent) : sys unit :=
  do* finish_intent intent in Ret ().

(** ** The sweep *)

Record ReconciledRestore := { rr_room_id : string; rr_reaped : bool; rr_reason : string }.

Definition reconcile_one (intent : RestoreIntent) : sys (result string (option string)) :=
  match ri_pid intent with
  | None =>
      try* _ := finish_intent intent in
      Ret (Ok (Some ("restore " +:+ ri_room_id intent +:+ ": cleared pre-spawn intent")))
  | Some pid =>
      let* live := room_probe (Some pid) (ri_pid_starttime intent) in
      match live with
      | Alive | Unknown => Ret (Ok None)
      | Dead =>
          try* _ := finish_intent intent in
          Ret (Ok (Some ("restore " +:+ ri_room_id intent +:+ ": reaped dead restore, lease returned to snapshot " +:+
                         ri_snapshot_id intent)))
      end
  end.

(** One turn of the sweep. *)
Definition gc_reconcile_intent (only : option string) (intent : RestoreIntent) : sys (option ReconciledRestore) :=
  if match only with Some only => negb (only =? ri_room_id intent)%string | None => false end then Ret None else
  let* r := reconcile_one intent in
  Ret match r with
      | Ok (Some line) => Some {| rr_room_id := ri_room_id intent; rr_reaped := true; rr_reason := line |}
      | Ok None => None
      | Err e => Some {| rr_room_id := ri_room_id intent; rr_reaped := false;
                         rr_reason := "restore intent reconcile failed (kept for retry): " +:+ e |}
      end.

Definition gc_reconcile (only : option string) : sys (list ReconciledRestore) :=
  let* read := call ORestoreIntents in
  match read with
  | Err _ => Ret []
  | Ok intents => let* swept := pfor_each (gc_reconcile_intent only) intents in Ret (omap (λ r, r) swept)
  end.

End restore_teardown.

(** ** What is touched under the lease *)

Section teardown_order.
  Variable show_path : path → string.
  Variables (room_dir jail socket state : path) (room_id snapshot_id : string).
  Variables (slot_index : N) (clone_net_index : option N).

Abbreviation tap := (slot_tap_name slot_index).

Abbreviation room_gone := (Teardown.room_gone room_dir jail).

(** The lease was found to be this room's, the pool's lock taken with it, and
    neither given back since. *)
Definition lease_open (hold : LeaseHold) (h : list sys_event) : Prop :=
  ∃ h1 h2, h = h1 ++ Event (OSlotHold state slot_index snapshot_id room_id) (Ok (Some hold)) :: h2 ∧
    ∀ e, e ∈ h2 → ev_op e ≠ OSlotReturn hold ∧ ev_op e ≠ OSlotDrop hold.

Definition network_gone (h : list sys_event) : Prop :=
  match clone_net_index with
  | None => answered h (OEgressRemove tap) (λ r, r = Ok ()) ∧ tap_gone h tap
  | Some index => answered h (OCloneFree state index room_id) (λ r, is_ok r = true)
  end.

(** What the last call of a teardown needs: no lease was this room's, or it went
    back. *)
Definition lease_settled (h : list sys_event) : Prop :=
  answered h (OSlotHold state slot_index snapshot_id room_id) (λ r, r = Ok None) ∨
  ∃ hold, answered h (OSlotHold state slot_index snapshot_id room_id) (λ r, r = Ok (Some hold)) ∧
    answered h (OSlotReturn hold) (λ r, is_ok r = true).

Definition may_finish (h : list sys_event) (op : sysop) : Prop :=
  match op with
  | OExists _ | OSleep _ | ORemoveFile _ | ORemoveDirAll _ => may_reap show_path room_dir jail socket None h op
  | ORun program args =>
      may_reap show_path room_dir jail socket None h op ∨
      program = "ip" ∧ clone_net_index = None ∧ (args = link_show tap ∨ args = tuntap_del tap) ∧
      answered h (OEgressRemove tap) (λ r, r = Ok ()) ∧ ∃ hold, lease_open hold h
  | OSlotHold base index snapshot room =>
      base = state ∧ index = slot_index ∧ snapshot = snapshot_id ∧ room = room_id ∧ room_gone h
  | OCloneFree base index room =>
      base = state ∧ clone_net_index = Some index ∧ room = room_id ∧
      answered h (OSlotHold state slot_index snapshot_id room_id) (λ r, is_ok r = true)
  | OEgressRemove t => t = tap ∧ clone_net_index = None ∧ ∃ hold, lease_open hold h
  | OSlotReturn hold => lease_open hold h ∧ network_gone h
  | OSlotDrop hold => lease_open hold h
  | OFinishRestoreIntent room => room = room_id ∧ room_gone h ∧ lease_settled h
  | _ => False
  end.

Abbreviation R := may_finish.
Abbreviation hold_event hold := (Event (OSlotHold state slot_index snapshot_id room_id) (Ok (Some hold))).

Lemma lease_open_more hold h k :
  lease_open hold h → (∀ e, e ∈ k → ev_op e ≠ OSlotReturn hold ∧ ev_op e ≠ OSlotDrop hold) → lease_open hold (h ++ k).
Proof.
  intros (h1 & h2 & -> & Hh) Hk. exists h1, (h2 ++ k). split; [by rewrite <- (assoc_L (++)), app_comm_cons|].
  intros e [?|?]%elem_of_app; auto.
Qed.

Lemma lease_open_snoc hold h op (x : ans op) :
  lease_open hold h → op ≠ OSlotReturn hold → op ≠ OSlotDrop hold → lease_open hold (h ++ [Event op x]).
Proof. intros Hh H1 H2. apply lease_open_more; [done|]. by intros e ->%list_elem_of_singleton. Qed.

Lemma lease_open_held hold h :
  lease_open hold h → answered h (OSlotHold state slot_index snapshot_id room_id) (λ r, r = Ok (Some hold)).
Proof. intros (h1 & h2 & -> & _). apply answered_r. eexists. split; [by left|done]. Qed.

Lemma room_gone_l h k : room_gone h → room_gone (h ++ k).
Proof. intros H. by apply room_gone_mono. Qed.

(** The reap of the room's own directories. *)
Lemma spec_finish_reap fuel config h Q :
  (∀ r h', (r = Ok () → room_gone h') → Q r h') →
  spec R (reap_room_only show_path fuel config room_dir jail socket) h Q.
Proof.
  intros HQ. eapply (spec_shift (may_reap show_path room_dir jail socket None) _ _ h h).
  - by apply spec_reap_room_only, HQ.
  - intros h' op H. destruct op; simpl in *; auto; naive_solver.
  - done.
Qed.

Lemma lease_open_tap hold h k : lease_open hold h → all_calls (tap_call tap) k → lease_open hold (h ++ k).
Proof. intros Hh Hk. apply lease_open_more; [done|]. intros e He. by destruct (Hk e He) as [-> | [-> | ->]]. Qed.

(** The tap goes while the lease is held. *)
Lemma spec_remove_tap hold h (Q : result FirecrackerError unit → list sys_event → Prop) :
  clone_net_index = None → lease_open hold h →
  (∀ r k, (r = Ok () → network_gone (h ++ k)) → lease_open hold (h ++ k) → Q r (h ++ k)) →
  spec R (remove_egress_and_tap tap) h Q.
Proof.
  intros Hc Hh HQ. apply spec_remove_egress_and_tap.
  - simpl. eauto.
  - intros k args Hk He Ha. right. split_and!; [done..|]. exists hold. by apply lease_open_tap.
  - intros r k Hk Hr. apply HQ; [|by apply lease_open_tap]. intros H. unfold network_gone. rewrite Hc. by apply Hr.
Qed.

(** The answer of a request for the lease. *)
Definition hold_answer (e : sys_event) : option (result SlotError (option LeaseHold)) :=
  match e with Event op x => match op return ans op → option (result SlotError (option LeaseHold)) with OSlotHold _ _ _ _ => Some | _ => λ _, None end x end.

Definition no_hold (op : sysop) : Prop := match op with OSlotHold _ _ _ _ => False | _ => True end.

(** A lease that was held was given back, or its lock dropped. *)
Definition lease_ended (h : list sys_event) : Prop :=
  ∀ hold, answered h (OSlotHold state slot_index snapshot_id room_id) (λ r, r = Ok (Some hold)) →
    answered h (OSlotReturn hold) (λ _, True) ∨ answered h (OSlotDrop hold) (λ _, True).

(** What a teardown that returned leaves. *)
Definition finished (r : result string unit) (h : list sys_event) : Prop :=
  lease_ended h ∧ (r = Ok () → answered h (OFinishRestoreIntent room_id) (λ a, a = Ok ())).

(** The lease of this teardown, and the one it is answered with. *)
Definition lease_is (lease : option LeaseHold) (h : list sys_event) : Prop :=
  (∀ hold, answered h (OSlotHold state slot_index snapshot_id room_id) (λ r, r = Ok (Some hold)) → lease = Some hold) ∧
  match lease with
  | Some hold => lease_open hold h
  | None => answered h (OSlotHold state slot_index snapshot_id room_id) (λ r, r = Ok None)
  end.

Lemma lease_is_snoc lease h op (x : ans op) :
  lease_is lease h → (∀ hold, op ≠ OSlotReturn hold ∧ op ≠ OSlotDrop hold) → no_hold op → lease_is lease (h ++ [Event op x]).
Proof.
  intros [H1 H2] Hop Hno. split.
  - intros hold [H|(y & Heq & _)]%answered_snoc_inv; [by apply H1|]. by inversion Heq; subst.
  - destruct lease; [apply lease_open_snoc; [done|apply Hop..]|by apply answered_l].
Qed.

Lemma lease_is_ended lease h : lease_is lease h → (∀ hold, lease = Some hold →
  answered h (OSlotReturn hold) (λ _, True) ∨ answered h (OSlotDrop hold) (λ _, True)) → lease_ended h.
Proof. intros [H1 _] H hold Hh. by apply H, H1. Qed.

(** An error while the lease is held drops it. *)
Lemma spec_holding {A : Type} lease (p : sys (result string A)) h (Q : result string A → list sys_event → Prop) :
  spec R p h (λ r h', match r with
                      | Ok a => Q (Ok a) h'
                      | Err e => lease_is lease h' ∧ ∀ k, lease_ended (h' ++ k) → Q (Err e) (h' ++ k)
                      end) →
  spec R (holding lease p) h Q.
Proof.
  intros Hp. unfold holding. apply spec_bind. eapply spec_mono; [exact Hp|]. intros [a|e] h' H; [by destruct lease|].
  destruct H as [Hl HQ]. destruct lease as [hold|].
  - spec_call as []; [apply Hl|]. apply HQ. intros hold' [Hh|(y & Heq & _)]%answered_snoc_inv.
    + apply Hl in Hh as [= <-]. right. by apply answered_snoc.
    + by inversion Heq.
  - apply spec_ret. rewrite <- (right_id_L [] (++) h'). apply HQ. rewrite (right_id_L [] (++)).
    intros hold Hh. by apply Hl in Hh.
Qed.

Lemma spec_finish_index lease h :
  room_gone h → lease_is lease h ∧ lease = None ∨ lease_settled h ∧ lease_ended h →
  spec R (call (OFinishRestoreIntent room_id)) h finished.
Proof.
  intros Hg Hl. assert (Hs : lease_settled h ∧ lease_ended h).
  { destruct Hl as [[Hl ->]|Hl]; [|done]. split; [left; apply Hl|by apply (lease_is_ended None)]. }
  destruct Hs as [Hs He]. spec_call as r; [done|]. split.
  - intros hold [H|(y & Heq & _)]%answered_snoc_inv; [|by inversion Heq].
    destruct (He hold H); auto with rooms.
  - intros ->. by apply answered_snoc.
Qed.

(** The end of a teardown, the clone's network being gone. *)
Lemma spec_release_lease lease h :
  room_gone h → lease_is lease h → (clone_net_index ≠ None → network_gone h) →
  spec R (try* _ := release_lease slot_index clone_net_index lease in call (OFinishRestoreIntent room_id)) h finished.
Proof.
  intros Hg Hl Hn. unfold release_lease. destruct lease as [hold|].
  2:{ spec_down. apply (spec_finish_index None); auto. }
  spec_down. apply (spec_holding (Some hold)).
  apply (spec_mono _ _ _ (λ r h', match r with
    | Ok _ => network_gone h' ∧ lease_is (Some hold) h' ∧ room_gone h'
    | Err _ => lease_is (Some hold) h' end)).
  - destruct clone_net_index as [index|] eqn:Hc; [by apply spec_ret; auto|]. spec_down.
    eapply (spec_mono _ _ _ (λ r h', ((r = Ok () → network_gone h') ∧ lease_open hold h') ∧ ∃ k, h' = h ++ k ∧ all_calls no_hold k)).
    { apply spec_only; [unfold remove_egress_and_tap, delete_tap_checked; only_walk|].
      apply (spec_remove_tap hold); [done|apply Hl|done]. }
    intros r h' [[Hr Ho] (k & -> & Hk)].
    assert (Hl' : lease_is (Some hold) (h ++ k)).
    { split; [|done]. intros hold' (y & [Hy|Hy]%elem_of_app & ->); [apply Hl; by eexists|]. by apply Hk in Hy. }
    destruct r as [[]|e]; simpl; [|done]. split; [by apply Hr|]. split; [done|by apply room_gone_l].
  - intros [a|e] h'; [|intros Hl'; split; [done|]; intros k Hk; by split].
    intros (Hn' & Hl' & Hg'). spec_down. spec_call as r; [split; [apply Hl'|done]|].
    assert (He : lease_ended (h' ++ [Event (OSlotReturn hold) r])).
    { intros hold' [H|(y & Heq & _)]%answered_snoc_inv; [|by inversion Heq].
      apply Hl' in H as [= <-]. left. by apply answered_snoc. }
    destruct r as [rel|e]; simpl map_err; cbv iota; spec_down; [|by split].
    apply (spec_finish_index None); [by apply room_gone_l|]. right. split; [|done]. right. exists hold.
    split; [apply answered_l, lease_open_held, Hl'|by apply answered_snoc].
Qed.

Lemma spec_finish_shared h :
  room_gone h → (∀ hold, ¬ answered h (OSlotHold state slot_index snapshot_id room_id) (λ r, r = Ok (Some hold))) →
  spec R (finish_shared state room_id snapshot_id slot_index clone_net_index) h finished.
Proof.
  intros Hg Hno. unfold finish_shared. spec_call as r; [done|].
  assert (Hno' : ∀ x hold, answered (h ++ [Event (OSlotHold state slot_index snapshot_id room_id) x])
     (OSlotHold state slot_index snapshot_id room_id) (λ r, r = Ok (Some hold)) → x = Ok (Some hold)).
  { intros x hold [H|(y & Heq & ->)]%answered_snoc_inv; [by apply Hno in H|].
    apply (f_equal hold_answer) in Heq. by simplify_eq. }
  destruct r as [lease|e]; simpl map_err; cbv iota.
  2:{ split; [|done]. intros hold H. by apply Hno' in H. }
  assert (Hl : lease_is lease (h ++ [Event (OSlotHold state slot_index snapshot_id room_id) (Ok lease)])).
  { split; [intros hold H; by apply Hno' in H; simplify_eq|].
    destruct lease as [hold|]; [exists h, []; split; [done|by intros e ?%elem_of_nil]|by apply answered_snoc]. }
  apply spec_try, spec_holding. destruct clone_net_index as [index|] eqn:Hc.
  - spec_down. spec_call as r; [simpl; split_and!; [done..|by apply answered_snoc]|].
    pose proof (lease_is_snoc lease _ (OCloneFree state index room_id) r Hl ltac:(done) I) as Hl'.
    destruct r as [freed|e]; simpl map_err; cbv iota.
    + apply spec_ret. rewrite <- Hc. apply spec_release_lease; [by do 2 apply room_gone_l|done|].
      intros _. unfold network_gone. rewrite Hc. by apply answered_snoc.
    + split; [done|]. intros k Hk. by split.
  - apply spec_ret. rewrite <- Hc. apply spec_release_lease; [by apply room_gone_l|done|by rewrite Hc].
Qed.

End teardown_order.

Lemma reap_takes_no_lease op : teardown_op op → no_hold op.
Proof. by destruct op. Qed.

Lemma may_finish_app show_path rd jd so st room snap idx clone h k op :
  may_finish show_path rd jd so st room snap idx clone k op → may_finish show_path rd jd so st room snap idx clone (h ++ k) op.
Proof.
  pose proof (may_reap_app show_path rd jd so None h k op) as Hreap.
  assert (Hopen : ∀ hold, lease_open st room snap idx hold k → lease_open st room snap idx hold (h ++ k)).
  { intros hold (h1 & h2 & -> & H). exists (h ++ h1), h2. by rewrite <- (assoc_L (++)). }
  assert (Hgone : room_gone rd jd k → room_gone rd jd (h ++ k)) by (intros [? ?]; split; auto with rooms).
  assert (Htap : ∀ t, tap_gone k t → tap_gone (h ++ k) t) by (intros t [?|?]; [left|right]; auto with rooms).
  destruct op; simpl in *; try exact Hreap; try done.
  - intros [H|(-> & Hc & Ha & He & hold & Hh)]; [left; by apply Hreap|right]. split_and!; eauto with rooms.
  - intros (-> & -> & -> & -> & H). split_and!; auto.
  - intros (H & Hn). split; [by apply Hopen|]. unfold network_gone in *. destruct clone; [by apply answered_r|].
    destruct Hn. split; auto with rooms.
  - intros H. by apply Hopen.
  - intros (-> & Hc & hold & H). eauto.
  - intros (-> & -> & -> & H). split_and!; auto with rooms.
  - intros (-> & H & Hs). split_and!; [done|by apply Hgone|].
    destruct Hs as [?|(hold & ? & ?)]; [left|right; exists hold; split]; auto with rooms.
Qed.

Lemma spec_finish_teardown show_path home config fuel room_id snapshot_id slot_index clone_net_index
    room_dir jail socket state :
  teardown_paths home config room_id = Ok (room_dir, jail, socket, state) →
  spec (may_finish show_path room_dir jail socket state room_id snapshot_id slot_index clone_net_index)
    (finish_teardown show_path home config fuel room_id snapshot_id slot_index clone_net_index) []
    (finished state room_id snapshot_id slot_index).
Proof.
  intros Hp. unfold finish_teardown. rewrite Hp. spec_down.
  eapply spec_mono; [apply spec_only; [apply (only_weaken teardown_op), reap_takes_no_lease; apply only_reap_room_only|apply (spec_finish_reap _ _ _ _ _ _ _ _ _ _ _ _ (λ r h, r = Ok () → room_gone room_dir jail h)); auto]|].
  intros r h' [Hr (k & -> & Hk)]. simpl.
  assert (Hno : ∀ hold, ¬ answered k (OSlotHold state slot_index snapshot_id room_id) (λ r, r = Ok (Some hold))).
  { intros hold (y & Hy & _). by apply Hk in Hy. }
  destruct r as [[]|e]; simpl map_err; cbv iota; [by apply spec_finish_shared; auto|].
  split; [|done]. intros hold H. by apply Hno in H.
Qed.

(** The calls of a restored room's teardown. *)
Definition finish_op (op : sysop) : Prop :=
  match op with
  | OSlotHold _ _ _ _ | OSlotReturn _ | OSlotDrop _ | OCloneFree _ _ _ | OFinishRestoreIntent _ => True
  | op => teardown_op op
  end.

Lemma teardown_finish op : teardown_op op → finish_op op.
Proof. by destruct op. Qed.

Lemma only_finish_teardown show_path home config fuel room_id snapshot_id slot_index clone :
  only finish_op (finish_teardown show_path home config fuel room_id snapshot_id slot_index clone).
Proof.
  unfold finish_teardown. destruct (teardown_paths _ _ _) as [[[[rd jd] so] st]|e]; [|done].
  apply only_try. { apply only_map_err. eapply only_weaken, teardown_finish. apply only_reap_room_only. } intros _.
  assert (Htap : ∀ t, only finish_op (remove_egress_and_tap t)).
  { intros t. eapply only_weaken, teardown_finish. apply only_remove_egress_and_tap. }
  unfold finish_shared, release_lease, holding. only_walk.
Qed.

(** C8.  The terminal teardown of a restored room, whatever the host answers and
    wherever it dies.  It asks for the lease only once the room's jail and
    directory were seen gone.  The tap and the egress rules, which are named by
    the slot alone and may be another room's by now, are touched only between the
    answer that the lease is this room's and its return, under the pool's lock;
    the lease goes back only after they are gone, or after a clone's network was
    released; the tombstone is cleared last, when no lease was this room's or it
    was returned.  A lease held is always returned or its lock dropped, and
    success means the tombstone is gone. *)
Theorem teardown_under_lease show_path home config fuel room_id snapshot_id slot_index clone_net_index
    room_dir jail socket state tr o :
  teardown_paths home config room_id = Ok (room_dir, jail, socket, state) →
  run (finish_teardown show_path home config fuel room_id snapshot_id slot_index clone_net_index) tr o →
  guarded (may_finish show_path room_dir jail socket state room_id snapshot_id slot_index clone_net_index) tr ∧
  ∀ r, o = Some r → finished state room_id snapshot_id slot_index r tr.
Proof.
  intros Hp Hrun. by eapply spec_run; [apply spec_finish_teardown|].
Qed.

(** A host on which the room holds its lease. *)
Definition leased_host (h : list sys_event) (op : sysop) : ans op :=
  match op return ans op with
  | OSlotHold base index snapshot room => Ok (Some {| hold_dir := base; hold_index := index; post_cleanup_token := snapshot |})
  | op => idle_host h op
  end.

Lemma teardown_under_lease_witness :
  let id := "01hzzzzzzzzzzzzzzzzzzzzzzz" in
  let p := finish_teardown (join "/") (Some ["root"]) sample_config 10 id sample_snapshot 3 None in
  let r := exec leased_host p [] in
  fst r = Some (Ok ()) ∧ answered (snd r) (OFinishRestoreIntent id) (λ a, a = Ok ()).
Proof.
  intros id p r. assert (E : fst r = Some (Ok ())) by (vm_compute; reflexivity). split; [exact E|].
  destruct (teardown_paths (Some ["root"]) sample_config id) as [[[[rd jail] socket] state]|e] eqn:Hp; [|by vm_compute in Hp].
  destruct (teardown_under_lease (join "/") (Some ["root"]) sample_config 10 id sample_snapshot 3 None
     rd jail socket state (snd r) (fst r) Hp (exec_run_nil leased_host p)) as [_ H].
  by apply (H _ E).
Defined.
