(* ===== verification/RestoreExec.v ===== *)
(** * RestoreExec: a restore, from its request to the guest's answer
    ([restore_exec.rs])

    The steps after preparation: the durable intent, the launcher behind its
    barrier, the lease, custody, load, resume and the hygiene acknowledgement, with
    the one abort path.  The intent a failed step leaves in memory differs from the
    one before only in fields no teardown reads, so an abort is given the first. *)

From S2P Require Import Prelude RStr Fs Room IndexedClaim Slot Host Egress CloneRoutes CloneNet Config Snapshot Intents Prog Sys Process Teardown InodeSeal Images Launch Boot RestoreLaunch RestoreSource RestoreTeardown.
From stdpp Require Import options.

Record RestoreRequest := {
  rr_request_room : string;
  rr_snapshot_dir : path;
  rr_image : path;
  rr_toolstore : option path;
  rr_target_slot : option N;
  rr_label : option string;
  rr_keep : bool;
  rr_witness : bool;
  rr_egress : Egress.Plan;
  rr_secrets : option string;     (* the encoded payload *)
  rr_out_dir : option path;
  rr_ack_timeout : N;
  rr_clone_net : option CloneNet
}.

Record Restored := {
  rs_vm : BootedVm;
  rs_slot : Slot;
  rs_room_id : string;
  rs_snapshot_id : string;
  rs_clone_net : option CloneNet;
  rs_toolstore_sha256 : option string;
  rs_base_repo_sha : option string
}.

(** [SecretsPayload::encode]. *)
Definition SecretsPayload_encode (pairs : list (string * string)) : string :=
  String.concat "" ((λ '(name, value), name +:+ "=" +:+ value +:+ String nl "") <$> pairs).

(** [intent.pid], [intent.pid_starttime] and [intent.boundary] assigned. *)
Definition set_spawned (pid starttime : option N) (i : RestoreIntent) : RestoreIntent :=
  {| ri_schema_version := ri_schema_version i; ri_room_id := ri_room_id i; ri_snapshot_id := ri_snapshot_id i;
     ri_slot_index := ri_slot_index i; ri_tap := ri_tap i; ri_snapshot_dir := ri_snapshot_dir i;
     ri_image := ri_image i; ri_clone_net_index := ri_clone_net_index i; ri_pid := pid;
     ri_pid_starttime := starttime; ri_boundary := Spawned |}.

Definition set_leased (i : RestoreIntent) : RestoreIntent :=
  {| ri_schema_version := ri_schema_version i; ri_room_id := ri_room_id i; ri_snapshot_id := ri_snapshot_id i;
     ri_slot_index := ri_slot_index i; ri_tap := ri_tap i; ri_snapshot_dir := ri_snapshot_dir i;
     ri_image := ri_image i; ri_clone_net_index := ri_clone_net_index i; ri_pid := ri_pid i;
     ri_pid_starttime := ri_pid_starttime i; ri_boundary := Leased |}.

(** [meta.slot] and [meta.clone_net_index] assigned. *)
Definition set_leased_slot (slot : Slot) (index : option N) (m : RoomMeta) : RoomMeta :=
  {| schema_version := schema_version m; meta_id := meta_id m; label := label m; started_at := started_at m;
     pid := pid m; pid_starttime := pid_starttime m; keep := keep m; Room.slot := Some slot;
     clone_net_index := index; provenance := provenance m; snapshot_lineage := snapshot_lineage m;
     toolstore_sha256 := toolstore_sha256 m; base_repo_sha := base_repo_sha m |}.

(** The capture and the nudge listener of a restore in progress. *)
Record drive_state := { ds_witness : option handle; ds_delivery : option handle }.

Definition canonical_clone_net (state : path) (room_id : string) (requested : option CloneNet)
    : sys (result string (option CloneNet)) :=
  match requested with
  | None => Ret (Ok None)
  | Some requested =>
      try* derived := Ret (map_err show_CloneNetError (CloneNet_derive (net_index requested))) in
      if negb (bool_decide (derived = requested)) then
        Ret (Err ("clone network " +:+ show_N (net_index requested) +:+ " does not match its canonical derived identity"))
      else
        try* _ := pmap_err show_CloneNetError (call (OCloneOwned state derived room_id)) in
        Ret (Ok (Some derived))
  end.

Definition verify_clone_custody (launch : RestoreLaunch) (slot : Slot) (clone_net : option CloneNet)
    : sys (result string unit) :=
  match clone_net with
  | None => Ret (Ok ())
  | Some net =>
      let* pid := launch_pid launch in
      try* pid := Ret (ok_or pid "restore process has no pid at custody boundary") in
      try* _ := pmap_err fc_message (verify_process_network_namespace pid (netns net)) in
      try* _ := pmap_err fc_message (verify_tap_in_namespace (netns net) (slot_tap slot)) in
      try* _ := pmap_err show_CloneNetError (call (OCloneVerifyVeth net)) in
      Ret (Ok ())
  end.

(** The payload's parts; it is put together where it is served. *)
Definition resume_payload (room_id : string) (secrets : option string) : sys (result string (string * string * string)) :=
  try* urandom := any (call (OOpen ["dev"; "urandom"] OpenRead)) in
  try* entropy := any (read_exact urandom RESUME_ENTROPY_BYTES) in
  Ret (Ok (room_id, entropy, default (SecretsPayload_encode []) secrets)).

Section restore.
  Variable show_path : path → string.
  Variable resolve : string → path.
  Variable show_secs : N → string.
  Variable show_json : json → result string string.
  Variable immutable_flag : N.
  Variable sha256 : string → string.
  Variable home : option path.
  Variable config : RoomsConfig.
  Variable fuel : nat.

Definition record_slot_on_room (room_id : string) (slot : Slot) (clone_net : option CloneNet) : sys (result string unit) :=
  try* dir := Ret (ok_or (room_dir home config room_id) "cannot resolve room dir") in
  try* read := any (call (OReadMeta dir)) in
  try* meta := Ret (ok_or read "restore room.json disappeared before lease") in
  try* _ := any (call (OWriteMeta dir (set_leased_slot slot (net_index <$> clone_net) meta))) in
  Ret (Ok ()).

(** A failure of [p], with the launch as it is then. *)
Definition with_launch {A S : Type} (s : S) (p : sys (result string A)) : sys (result (string * S) A) :=
  pmap_err (λ e, (e, s)) p.

(** The steps once the barrier was crossed. *)
Definition take_lease (intent : RestoreIntent) (launch : RestoreLaunch) (clone_net : option CloneNet)
    : sys (result string Slot) :=
  try* _ := pmap_err fc_message (wait_api fuel launch (api_socket_timeout config)) in
  try* _ := match clone_net with
            | Some net =>
                let* pid := launch_pid launch in
                try* pid := Ret (ok_or pid "restore process has no pid after API readiness") in
                pmap_err fc_message (verify_process_network_namespace pid (netns net))
            | None => Ret (Ok ())
            end in
  try* state := Ret (exec_state_base home config) in
  try* slot := pmap_err show_SlotError
    match clone_net with
    | Some _ => call (OSlotLeaseClone state (ri_slot_index intent) (ri_snapshot_id intent) (ri_room_id intent))
    | None => call (OSlotLease state (ri_slot_index intent) (ri_snapshot_id intent) (ri_room_id intent))
    end in
  try* _ := call (OWriteRestoreIntent (set_leased intent)) in
  try* _ := record_slot_on_room (ri_room_id intent) slot clone_net in
  try* _ := pmap_err fc_message (attach_leased_slot launch slot) in
  try* _ := verify_clone_custody launch slot clone_net in
  Ret (Ok slot).

(** Failures carry the launch, whose barrier may still be held. *)
Definition establish_lease (intent : RestoreIntent) (launch : RestoreLaunch) (clone_net : option CloneNet)
    : sys (result (string * RestoreLaunch) (Slot * RestoreLaunch)) :=
  let* pid := launch_pid launch in
  let* starttime := starttime_of_child pid in
  let intent := set_spawned pid starttime intent in
  try* _ := with_launch launch (call (OWriteRestoreIntent intent)) in
  let released := release_barrier launch in
  let launch := barrier_released launch in
  try* _ := with_launch launch (pmap_err fc_message released) in
  try* slot := with_launch launch (take_lease intent launch clone_net) in
  Ret (Ok (slot, launch)).

(** ** The operations of the plan *)

Section drive.
  Variable req : RestoreRequest.
  Variable prepared : PreparedRestoreSource.
  Variable launch : RestoreLaunch.
  Variable clone_net : option CloneNet.
  Variable slot : Slot.
  Variables (jail_root room_path : path) (ids : N * N).

Definition install_custody (st : drive_state) : sys (result (string * drive_state) drive_state) :=
  try* st := (if rr_witness req then
    try* capture := with_launch st (pmap_err (λ e, "witness: " +:+ e)
                      (call (OWitnessStart (netns <$> clone_net) (slot_tap slot) room_path))) in
    do* drop_task (ds_witness st) in
    Ret (Ok {| ds_witness := Some capture; ds_delivery := ds_delivery st |})
  else Ret (Ok st)) in
  try* _ := with_launch st
    match clone_net with
    | Some net => call (OEgressInstallClone (veth_host net) (rr_egress req))
    | None => if enforces (rr_egress req) then call (OEgressInstall (slot_tap slot) (rr_egress req)) else Ret (Ok ())
    end in
  Ret (Ok st).

Definition load_body (snapshot_path mem_backend_path : path) : json :=
  JObject [("snapshot_path", JString (show_path snapshot_path));
           ("mem_backend", JObject [("backend_type", JString "File"); ("backend_path", JString (show_path mem_backend_path))]);
           ("resume_vm", JBool false)].

Definition resumed_body : json := JObject [("state", JString "Resumed")].

Definition put_api (endpoint : string) (body : json) : sys (result string unit) :=
  pmap_err fc_message (api_put show_path show_secs show_json config (@uncancelled) (rl_socket launch) endpoint body).

Definition patch_api (endpoint : string) (body : json) : sys (result string unit) :=
  pmap_err fc_message (api_patch show_path show_secs show_json config (@uncancelled) (rl_socket launch) endpoint body).

Definition load_snapshot (snapshot_path mem_backend_path : path) (st : drive_state)
    : sys (result (string * drive_state) drive_state) :=
  try* payload := with_launch st (resume_payload (rr_request_room req) (rr_secrets req)) in
  let '(room_id, entropy, secrets) := payload in
  try* delivery := with_launch st (any (call (OServeResume jail_root room_id entropy secrets ids))) in
  do* drop_task (ds_delivery st) in
  let st := {| ds_witness := ds_witness st; ds_delivery := Some delivery |} in
  try* _ := with_launch st (put_api "/snapshot/load" (load_body snapshot_path mem_backend_path)) in
  Ret (Ok st).

(** The last looks before the guest may run. *)
Definition reprove : sys (result string unit) :=
  try* _ := verify_clone_custody launch slot clone_net in
  try* _ := match clone_net with
            | Some net => if enforces (rr_egress req) then call (OEgressVerifyClone (veth_host net) (rr_egress req))
                          else Ret (Ok ())
            | None => Ret (Ok ())
            end in
  try* _ := verify_staged show_path immutable_flag sha256 prepared jail_root in
  revalidate show_path immutable_flag prepared.

Definition resume_vm : sys (result string unit) :=
  try* _ := reprove in
  patch_api "/vm" resumed_body.

Definition await_hygiene (st : drive_state) : sys (result (string * drive_state) drive_state) :=
  try* delivery := Ret (ok_or (ds_delivery st) ("resume nudge was never armed", st)) in
  let st := {| ds_witness := ds_witness st; ds_delivery := None |} in
  try* _ := with_launch st (pmap_err (λ e, "resume hygiene ack: " +:+ e) (call (OAwaitAcked delivery (rr_ack_timeout req)))) in
  Ret (Ok st).

Definition drive_op (st : drive_state) (op : RestoreOp) : sys (result (string * drive_state) drive_state) :=
  match op with
  | InstallCustody => install_custody st
  | LoadSnapshot snapshot_path mem_backend_path => load_snapshot snapshot_path mem_backend_path st
  | ResumeVm => try* _ := with_launch st resume_vm in Ret (Ok st)
  | ApplyHygieneNudgeAndAwaitAck => await_hygiene st
  end.

Fixpoint drive_ops (st : drive_state) (ops : list RestoreOp) : sys (result (string * drive_state) drive_state) :=
  match ops with
  | [] => Ret (Ok st)
  | op :: ops => try* st := drive_op st op in drive_ops st ops
  end.

(** The locals go with a failure; on success the capture stays. *)
Definition driven : sys (result string (option handle)) :=
  let* r := drive_ops {| ds_witness := None; ds_delivery := None |} (pr_ops prepared) in
  match r with
  | Ok st => do* drop_task (ds_delivery st) in Ret (Ok (ds_witness st))
  | Err (e, st) => do* drop_task (ds_delivery st) in do* drop_task (ds_witness st) in Ret (Err e)
  end.

End drive.

Definition drive_to_ready (req : RestoreRequest) (intent : RestoreIntent) (launch : RestoreLaunch)
    (clone_net : option CloneNet) (prepared : PreparedRestoreSource)
    : sys (result (string * RestoreLaunch) (Slot * option handle * RestoreLaunch)) :=
  try* leased := establish_lease intent launch clone_net in
  let '(slot, launch) := leased in
  try* jail_root := Ret (ok_or (jail_root_dir home config (ri_room_id intent)) ("cannot resolve jail root", launch)) in
  try* room_path := Ret (ok_or (room_dir home config (ri_room_id intent)) ("cannot resolve room dir", launch)) in
  try* ids := with_launch launch (pmap_err fc_message (lookup_firecracker_ids_async (@uncancelled))) in
  try* witness := with_launch launch (driven req prepared launch clone_net slot jail_root room_path ids) in
  Ret (Ok (slot, witness, launch)).

(** ** The whole restore *)

Definition validate_prepared_request_paths (req : RestoreRequest) (prepared : PreparedRestoreSource)
    : sys (result string unit) :=
  try* requested_image := call (OCanonical (rr_image req)) in
  if negb (bool_decide (requested_image = pr_image prepared)) then
    Ret (Err ("restore request image " +:+ show_path requested_image +:+ " differs from prepared image " +:+
              show_path (pr_image prepared)))
  else
  try* requested_snapshot := call (OCanonical (rr_snapshot_dir req)) in
  if negb (bool_decide (requested_snapshot = pr_snapshot_dir prepared)) then
    Ret (Err ("restore request snapshot " +:+ show_path requested_snapshot +:+ " differs from prepared snapshot " +:+
              show_path (pr_snapshot_dir prepared)))
  else
  try* requested_toolstore := optionally (λ p, call (OCanonical p)) (rr_toolstore req) in
  if negb (bool_decide (requested_toolstore = pr_toolstore_dir prepared)) then
    Ret (Err "restore request toolstore differs from the prepared toolstore")
  else validate_output_disjoint show_path home config (rr_out_dir req) (pr_image prepared) (pr_snapshot_dir prepared).

(** The frozen slot, and the request's if it names one. *)
Definition frozen_slot (req : RestoreRequest) (prepared : PreparedRestoreSource) : result string N :=
  let? slot_index := ok_or (sm_slot_index (pr_meta prepared)) "snapshot metadata carries no frozen slot" in
  match rr_target_slot req with
  | Some requested =>
      if negb (requested =? slot_index)%N then
        Err ("--slot " +:+ show_N requested +:+ " differs from the snapshot's frozen slot " +:+ show_N slot_index +:+
             "; a restore must reclaim the exact frozen slot")
      else Ok slot_index
  | None => Ok slot_index
  end.

Definition new_intent (req : RestoreRequest) (prepared : PreparedRestoreSource) (slot_index : N)
    (clone_net : option CloneNet) : RestoreIntent :=
  {| ri_schema_version := INTENT_SCHEMA_VERSION; ri_room_id := rr_request_room req;
     ri_snapshot_id := sm_snapshot_id (pr_meta prepared); ri_slot_index := slot_index;
     ri_tap := slot_tap_name slot_index; ri_snapshot_dir := pr_snapshot_dir prepared; ri_image := pr_image prepared;
     ri_clone_net_index := net_index <$> clone_net; ri_pid := None; ri_pid_starttime := None; ri_boundary := PreSpawn |}.

Definition spawn_request (req : RestoreRequest) (prepared : PreparedRestoreSource) (clone_net : option CloneNet)
    : RestoreSpawnRequest :=
  {| rq_room_id := rr_request_room req; rq_rootfs := pr_image prepared;
     rq_host_vmstate := path_join (pr_snapshot_dir prepared) SNAPSHOT_VMSTATE_FILE;
     rq_host_mem := path_join (pr_snapshot_dir prepared) SNAPSHOT_MEM_FILE; rq_toolstore := pr_toolstore prepared;
     rq_descriptor := {| rd_command := rr_label req; rd_keep := rr_keep req |};
     rq_snapshot_id := sm_snapshot_id (pr_meta prepared); rq_network_namespace := netns <$> clone_net |}.

(** From the launched, inert child on. *)
Definition restore_launched (req : RestoreRequest) (prepared : PreparedRestoreSource) (clone_net : option CloneNet)
    (intent : RestoreIntent) (launch : RestoreLaunch) : sys (result string Restored) :=
  match jail_root_dir home config (rr_request_room req) with
  | None => do* launch_drop show_path fuel launch in Ret (Err "cannot resolve jail root")
  | Some jail_root =>
      let* verified := (
        try* _ := verify_staged show_path immutable_flag sha256 prepared jail_root in
        revalidate show_path immutable_flag prepared) in
      match verified with
      | Err e => do* abort_launch show_path home config fuel launch intent in Ret (Err e)
      | Ok _ =>
          let* r := drive_to_ready req intent launch clone_net prepared in
          match r with
          | Ok (slot, witness, launch) =>
              Ret (Ok {| rs_vm := into_booted launch witness; rs_slot := slot; rs_room_id := rr_request_room req;
                         rs_snapshot_id := sm_snapshot_id (pr_meta prepared); rs_clone_net := clone_net;
                         rs_toolstore_sha256 := sm_toolstore_sha256 (pr_meta prepared);
                         rs_base_repo_sha := sm_base_repo_sha (pr_meta prepared) |})
          | Err (e, launch) => do* abort_launch show_path home config fuel launch intent in Ret (Err e)
          end
      end
  end.

(** From the durable intent on. *)
Definition restore_indexed (req : RestoreRequest) (prepared : PreparedRestoreSource) (clone_net : option CloneNet)
    (intent : RestoreIntent) : sys (result string Restored) :=
  let* again := revalidate show_path immutable_flag prepared in
  match again with
  | Err e => do* clean_pre_spawn show_path home config fuel intent in Ret (Err e)
  | Ok _ =>
      let* spawned := spawn_restore show_path resolve immutable_flag home config fuel (spawn_request req prepared clone_net) in
      match spawned with
      | Err e => do* clean_pre_spawn show_path home config fuel intent in Ret (Err (fc_message e))
      | Ok launch => restore_launched req prepared clone_net intent launch
      end
  end.

Definition restore_prepared (req : RestoreRequest) (prepared : PreparedRestoreSource) : sys (result string Restored) :=
  if negb (is_valid_room_id (rr_request_room req)) then Ret (Err "restore room id is invalid") else
  try* _ := validate_prepared_request_paths req prepared in
  try* slot_index := Ret (frozen_slot req prepared) in
  try* state := Ret (exec_state_base home config) in
  try* clone_net := canonical_clone_net state (rr_request_room req) (rr_clone_net req) in
  try* _ := revalidate show_path immutable_flag prepared in
  let intent := new_intent req prepared slot_index clone_net in
  try* _ := call (OCreateRestoreIntent intent) in
  restore_indexed req prepared clone_net intent.

End restore.

(** [restore]: a preparation of its own, and the restore from it. *)
Definition restore (show_path : path → string) (resolve : string → path) (show_secs : N → string)
    (show_json : json → result string string) (immutable_flag : N) (sha256 : string → string)
    (parse_manifest : string → option Manifest) (parse_meta : string → result string SnapshotMeta)
    (parse_attestation : string → option SnapshotAttestation) (arch : string) (home : option path)
    (config : RoomsConfig) (fuel : nat) (req : RestoreRequest) : sys (result string Restored) :=
  if negb (is_valid_room_id (rr_request_room req)) then Ret (Err "restore room id is invalid") else
  try* prepared := prepare_restore show_path immutable_flag sha256 parse_manifest parse_meta parse_attestation arch home
                     config (rr_snapshot_dir req) (rr_image req) (rr_toolstore req) in
  restore_prepared show_path resolve show_secs show_json immutable_flag sha256 home config fuel req prepared.
