(* ===== verification/RestoreOrder.v ===== *)
(** * RestoreOrder: the order a restore keeps

    What every run of [restore_prepared] does before what, over all answers of the
    host and every point it may stop at. *)

From S2P Require Import Prelude RStr Fs Room IndexedClaim Slot Host Egress CloneRoutes CloneNet Config Snapshot Intents Prog Sys Process Teardown InodeSeal Images Launch Boot RestoreLaunch RestoreSource RestoreTeardown RestoreExec.
From stdpp Require Import options.

(** Calls the order says nothing about. *)
Definition calm (op : sysop) : Prop :=
  match op with
  | OSpawn _ _ | OWriteStdin _ _ | OSlotLease _ _ _ _ | OSlotLeaseClone _ _ _ _ => False
  | OEgressInstall _ _ | OEgressInstallClone _ _ | OWitnessStart _ _ _ | OServeResume _ _ _ _ _ => False
  | ORunStatus _ _ | OAwaitAcked _ _ | OCreateRestoreIntent _ => False
  | ORun program args => adds_tap program args = false
  | _ => True
  end.

Lemma teardown_calm op : teardown_op op → calm op.
Proof. by destruct op. Qed.

Section calmly.
  Context (show_path : path → string) (resolve : string → path) (immutable_flag : N) (sha256 : string → string)
    (home : option path) (config : RoomsConfig) (fuel : nat).

Lemma calm_require file p label : only calm (require_file show_path immutable_flag file p label).
Proof. unfold require_file, require_with_ops, inspect_flags, io_context. only_walk. Qed.

Lemma calm_require_path p label : only calm (require show_path immutable_flag p label).
Proof. pose proof calm_require. unfold require, io_context. only_walk. Qed.

Hint Resolve calm_require calm_require_path : only.

Lemma calm_require_sealed t : only calm (require_sealed show_path immutable_flag t).
Proof. unfold require_sealed, mount_source. only_walk. Qed.

Lemma calm_verify_attachment t p : only calm (verify_attachment show_path immutable_flag t p).
Proof. unfold verify_attachment. only_walk. Qed.

Lemma calm_bind_into t p : only calm (bind_into show_path immutable_flag t p).
Proof. pose proof calm_verify_attachment. unfold bind_into, mount_source. only_walk. Qed.

Hint Resolve calm_require_sealed calm_verify_attachment calm_bind_into : only.

Lemma calm_for_toolstore p f : (∀ t, only calm (f t)) → only calm (for_toolstore p f).
Proof. unfold for_toolstore. destruct (pr_toolstore p); [auto|done]. Qed.

Lemma calm_assert_open id label file : only calm (assert_open show_path id label file).
Proof. unfold assert_open, any. only_walk. Qed.

Lemma calm_revalidate p : only calm (revalidate show_path immutable_flag p).
Proof.
  unfold revalidate, require_immutable_restore_source, identity_revalidate.
  apply only_try; [apply only_try; [apply only_try_each; intros [q label] _; auto with only|done]|]. intros _.
  apply only_try; [apply calm_for_toolstore; auto with only|]. intros _.
  apply only_try; [auto with only|]. intros _. apply only_try; [apply calm_assert_open|]. intros _.
  apply only_try; [|done]. apply only_try_each. intros s _. unfold revalidate_one, recapture, StampedRestorePath_capture.
  only_walk.
Qed.

Lemma calm_verify_staged p root : only calm (verify_staged show_path immutable_flag sha256 p root).
Proof.
  unfold verify_staged, assert_staged_bind, sha256_open_file, any. only_walk; apply calm_for_toolstore; auto with only.
Qed.

Lemma calm_custody launch slot net : only calm (verify_clone_custody launch slot net).
Proof.
  unfold verify_clone_custody, launch_pid, verify_process_network_namespace, namespace_identity, verify_tap_in_namespace,
    run_tap_command, tap_namespace_probe. cbn [tc_program tc_args]. only_walk.
Qed.

Lemma calm_guard_cleanup g : only calm (guard_cleanup show_path fuel g).
Proof. eapply only_weaken, teardown_calm. apply only_guard_cleanup. Qed.

Lemma calm_guard_drop g : only calm (guard_drop show_path fuel g).
Proof. eapply only_weaken, teardown_calm. apply only_guard_drop. Qed.

Lemma calm_finish i : only calm (finish_intent show_path home config fuel i).
Proof. eapply only_weaken; [apply only_finish_teardown|]. by intros []. Qed.

Hint Resolve calm_revalidate calm_verify_staged calm_custody calm_guard_cleanup calm_guard_drop calm_finish : only.

Lemma calm_abort l i : only calm (abort_launch show_path home config fuel l i).
Proof. unfold abort_launch, drop_barrier, vm_drop, drop_task. only_walk. Qed.

Lemma calm_clean i : only calm (clean_pre_spawn show_path home config fuel i).
Proof. unfold clean_pre_spawn. only_walk. Qed.

Lemma calm_find_file candidates : only calm (find_file resolve candidates).
Proof. induction candidates as [|c l IH]; cbn [find_file]; only_walk. Qed.

Hint Resolve calm_find_file : only.

Lemma calm_dependencies : only calm (resolve_boot_dependencies resolve config (@uncancelled)).
Proof.
  unfold resolve_boot_dependencies, ensure_root, check_kvm, resolve_firecracker_binary, resolve_jailer_binary,
    resolve_binary_on_path, lookup_firecracker_ids_async, lookup_firecracker_ids, uncancelled. only_walk.
Qed.

Lemma calm_unwinding {E A : Type} d (p : sys (result E A)) : only calm d → only calm p → only calm (unwinding d p).
Proof. intros Hd Hp. unfold unwinding. only_walk. Qed.

Lemma calm_unmount p : only calm (unmount_quiet show_path p).
Proof. unfold unmount_quiet, unmount. only_walk. Qed.

Lemma calm_stage root rq uid gid : only calm (stage_restore_jail show_path immutable_flag root rq uid gid).
Proof.
  pose proof calm_unmount. unfold stage_restore_jail. apply calm_unwinding.
  - apply only_bind; [apply only_for_each; auto|]. intros _. only_walk.
  - unfold stage_restore_jail_inner, prep, ensure_mount_target, bind_mount, remount_readonly, copy_owned_private,
      ensure_owned_private. only_walk.
Qed.

Lemma calm_wait child socket timeout log : only calm (wait_for_socket fuel (@uncancelled) child socket timeout log).
Proof.
  unfold wait_for_socket. apply only_bind; [only_walk|]. intros start. generalize fuel as n. intros n. revert start.
  induction n as [|n IH]; intros start; cbn [wait_for_socket_from]; unfold read_log_tail, uncancelled; only_walk.
Qed.

Lemma calm_output out image dir : only calm (validate_output_disjoint show_path home config out image dir).
Proof.
  unfold validate_output_disjoint. destruct out as [out|]; [|done].
  apply only_try; [only_walk|]. intros p. apply only_try; [unfold output_is_fresh, is_dir, any; only_walk|]. intros _.
  do 4 (apply only_try; [only_walk|]; intros ?).
  apply only_try; [apply only_try_each; intros [name root] _; unfold refuse_overlap; only_walk|]. intros _.
  apply only_try; [apply only_try_each; intros q _; unfold refuse_snapshot_ancestor; only_walk|]. intros _.
  apply only_try; [only_walk|]. intros pending.
  apply only_try; [apply only_try_each; intros q _; unfold refuse_pending_output; only_walk|]. done.
Qed.

Lemma calm_paths req p : only calm (validate_prepared_request_paths show_path home config req p).
Proof. pose proof calm_output. unfold validate_prepared_request_paths, optionally. only_walk. Qed.

Lemma calm_record id slot net : only calm (record_slot_on_room home config id slot net).
Proof. unfold record_slot_on_room, any. only_walk. Qed.

Lemma calm_canonical state id net : only calm (canonical_clone_net state id net).
Proof. unfold canonical_clone_net. only_walk. Qed.

End calmly.

#[export] Hint Resolve calm_revalidate calm_verify_staged calm_custody calm_guard_cleanup calm_guard_drop calm_finish
  calm_abort calm_clean calm_dependencies calm_stage calm_wait calm_paths calm_record calm_canonical : only.

Section restore_order.
  Context (show_path : path → string) (resolve : string → path) (show_secs : N → string)
    (show_json : json → result string string) (immutable_flag : N) (sha256 : string → string)
    (home : option path) (config : RoomsConfig) (fuel : nat)
    (req : RestoreRequest) (prepared : PreparedRestoreSource).

Abbreviation room := (rr_request_room req).
Abbreviation net := (rr_clone_net req).
Abbreviation tap_plan slot := (slot_tap_plan slot (netns <$> net)).

(** ** Facts *)

Definition ok {E A : Type} (r : result E A) : Prop := is_ok r = true.

Definition indexed (h : list sys_event) : Prop :=
  ∃ i, ri_room_id i = room ∧ ri_boundary i = PreSpawn ∧ answered h (OCreateRestoreIntent i) (λ r, r = Ok ()).

(** The child's pid is durable in the intent. *)
Definition identified (child : handle) (h : list sys_event) : Prop :=
  ∃ i, ri_room_id i = room ∧ ri_boundary i = Spawned ∧ answered h (OChildId child) (λ pid, pid = ri_pid i) ∧
    answered h (OWriteRestoreIntent i) (λ r, r = Ok ()).

(** What was staged is what was prepared, and the source has not changed. *)
Definition checks (jail_root : path) : sys (result string unit) :=
  try* _ := verify_staged show_path immutable_flag sha256 prepared jail_root in
  revalidate show_path immutable_flag prepared.

Definition staged (h : list sys_event) : Prop :=
  ∃ root h1 tr h2, jail_root_dir home config room = Some root ∧ h = h1 ++ tr ++ h2 ∧ run (checks root) tr (Some (Ok ())).

Definition released (h : list sys_event) : Prop :=
  ∃ child text, answered h (OWriteStdin child text) (λ r, r = Ok ()).

Definition leased (slot : Slot) (h : list sys_event) : Prop :=
  ∃ base index, sm_slot_index (pr_meta prepared) = Some index ∧
    match net with
    | None => answered h (OSlotLease base index (sm_snapshot_id (pr_meta prepared)) room) (λ r, r = Ok slot)
    | Some _ => answered h (OSlotLeaseClone base index (sm_snapshot_id (pr_meta prepared)) room) (λ r, r = Ok slot)
    end.

(** The lease is durable in the intent and in the room's metadata. *)
Definition published (slot : Slot) (h : list sys_event) : Prop :=
  leased slot h ∧
  (∃ i, ri_room_id i = room ∧ ri_boundary i = Leased ∧ answered h (OWriteRestoreIntent i) (λ r, r = Ok ())) ∧
  (∃ dir m, Room.slot m = Some slot ∧ clone_net_index m = net_index <$> net ∧ answered h (OWriteMeta dir m) (λ r, r = Ok ())).

Definition tap_made (slot : Slot) (h : list sys_event) : Prop :=
  ∀ c, c ∈ tap_plan slot → answered h (ORun (tc_program c) (tc_args c)) ok_out.

(** The capture and the egress rules the request asks for are in place. *)
Definition confining (slot : Slot) (h : list sys_event) : Prop :=
  (rr_witness req = true → ∃ dir, answered h (OWitnessStart (netns <$> net) (slot_tap slot) dir) ok) ∧
  match net with
  | Some n => answered h (OEgressInstallClone (veth_host n) (rr_egress req)) (λ r, r = Ok ())
  | None => enforces (rr_egress req) = true → answered h (OEgressInstall (slot_tap slot) (rr_egress req)) (λ r, r = Ok ())
  end.

Definition armed (h : list sys_event) : Prop :=
  ∃ root entropy secrets owner, answered h (OServeResume root room entropy secrets owner) ok.

(** A request to that address succeeded. *)
Definition granted (url : string) (h : list sys_event) : Prop :=
  ∃ args, args !! 4 = Some url ∧ answered h (ORunStatus "curl" args) (λ r, ∃ code o, r = Ok (code, o) ∧ success o = true).

Definition LOAD_URL : string := "http://localhost/snapshot/load".
Definition VM_URL : string := "http://localhost/vm".

(** The last calls were the last looks, and found everything in place. *)
Definition just_reproved (slot : Slot) (h : list sys_event) : Prop :=
  ∃ launch root h1 tr, jail_root_dir home config room = Some root ∧ h = h1 ++ tr ∧
    run (reprove show_path immutable_flag sha256 req prepared launch net slot root) tr (Some (Ok ())).

Definition acknowledged (h : list sys_event) : Prop :=
  ∃ delivery, answered h (OAwaitAcked delivery (rr_ack_timeout req)) (λ r, r = Ok ()).

Definition fenced (slot : Slot) (h : list sys_event) : Prop := published slot h ∧ tap_made slot h.

Definition restore_allows (h : list sys_event) (op : sysop) : Prop :=
  match op with
  | OSpawn _ _ => indexed h
  | OWriteStdin child _ => identified child h ∧ staged h
  | OSlotLease _ index snapshot id =>
      net = None ∧ sm_slot_index (pr_meta prepared) = Some index ∧ snapshot = sm_snapshot_id (pr_meta prepared) ∧
      id = room ∧ released h
  | OSlotLeaseClone _ index snapshot id =>
      is_Some net ∧ sm_slot_index (pr_meta prepared) = Some index ∧ snapshot = sm_snapshot_id (pr_meta prepared) ∧
      id = room ∧ released h
  | ORun program args => adds_tap program args = true → ∃ slot, published slot h
  | OWitnessStart _ _ _ | OEgressInstall _ _ | OEgressInstallClone _ _ => ∃ slot, fenced slot h
  | OServeResume _ _ _ _ _ => ∃ slot, fenced slot h ∧ confining slot h
  | ORunStatus _ args =>
      ∃ slot, fenced slot h ∧ confining slot h ∧ armed h ∧
        (args !! 4 = Some VM_URL → granted LOAD_URL h ∧ just_reproved slot h)
  | OAwaitAcked _ _ => granted VM_URL h
  | _ => True
  end.

Abbreviation R := restore_allows.

(** What a restore that succeeded has done. *)
Definition ready_room (r : Restored) (h : list sys_event) : Prop :=
  indexed h ∧ staged h ∧ fenced (rs_slot r) h ∧ confining (rs_slot r) h ∧ granted LOAD_URL h ∧ granted VM_URL h ∧
  acknowledged h ∧ rs_room_id r = room ∧ rs_snapshot_id r = sm_snapshot_id (pr_meta prepared).

(** What one that failed has done: it left no intent, or the last thing it did was
    the terminal teardown of its intent. *)
Definition given_up (h : list sys_event) : Prop :=
  (∀ i, ¬ answered h (OCreateRestoreIntent i) (λ r, r = Ok ())) ∨
  ∃ i h1 tr r, ri_room_id i = room ∧ answered h1 (OCreateRestoreIntent i) (λ r, r = Ok ()) ∧ h = h1 ++ tr ∧
    run (finish_intent show_path home config fuel i) tr (Some r).

#[local] Instance indexed_mono : Monotone indexed. Proof. unfold indexed. apply _. Qed.
#[local] Instance identified_mono c : Monotone (identified c). Proof. unfold identified. apply _. Qed.
#[local] Instance staged_mono : Monotone staged.
Proof. intros h k (root & h1 & tr & h2 & Hr & -> & Hrun). exists root, h1, tr, (h2 ++ k). by rewrite <- !(assoc_L (++)). Qed.
#[local] Instance released_mono : Monotone released. Proof. unfold released. apply _. Qed.
#[local] Instance leased_mono slot : Monotone (leased slot). Proof. unfold leased. destruct net; apply _. Qed.
#[local] Instance published_mono slot : Monotone (published slot). Proof. unfold published. apply _. Qed.
#[local] Instance tap_made_mono slot : Monotone (tap_made slot). Proof. unfold tap_made. apply _. Qed.
#[local] Instance confining_mono slot : Monotone (confining slot). Proof. unfold confining. destruct net; apply _. Qed.
#[local] Instance armed_mono : Monotone armed. Proof. unfold armed. apply _. Qed.
#[local] Instance granted_mono url : Monotone (granted url). Proof. unfold granted. apply _. Qed.
#[local] Instance fenced_mono slot : Monotone (fenced slot). Proof. unfold fenced. apply _. Qed.
#[local] Instance acknowledged_mono : Monotone acknowledged. Proof. unfold acknowledged. apply _. Qed.

Lemma calm_allowed h op : calm op → R h op.
Proof using Type. destruct op; simpl; try done. intros -> [=]. Qed.

(** A part the order says nothing about keeps a fact. *)
Lemma spec_calm {A : Type} (p : sys A) h (P : list sys_event → Prop) `{!Monotone P} :
  only calm p → P h → spec R p h (λ _ h', P h').
Proof using Type.
  intros Hp HP. eapply only_spec; [exact Hp| |]; [intros; by apply calm_allowed|]. intros a k _. by apply monotone.
Qed.

(** ... and was run to its result. *)
Lemma spec_calm_traced {A : Type} (p : sys A) h (P : list sys_event → Prop) `{!Monotone P} :
  only calm p → P h → spec R p h (λ a h', P h' ∧ ∃ k, h' = h ++ k ∧ run p k (Some a)).
Proof using Type.
  intros Hp HP. eapply only_traced; [exact Hp| |]; [intros; by apply calm_allowed|].
  intros a k _ Hrun. split; [by apply monotone|]. eauto.
Qed.

Lemma spec_calm_step {E A B : Type} (p : sys (result E A)) (k : A → sys (result E B)) h P `{!Monotone P} Q :
  only calm p → P h → (∀ e h', P h' → Q (Err e) h') → (∀ a h', P h' → spec R (k a) h' Q) →
  spec R (try* a := p in k a) h Q.
Proof using Type.
  intros Hp HP He Hk. apply (spec_step _ _ _ _ (λ _ h', P h')); [|done].
  eapply spec_mono; [by apply (spec_calm p h P)|]. intros [a|e] h' H; [done|by apply He].
Qed.

(** ** The lease *)

Lemma spec_tap_plan slot launch h :
  rl_network_namespace launch = netns <$> net → published slot h →
  spec R (attach_leased_slot launch slot) h (λ r h', r = Ok () → fenced slot h').
Proof using Type.
  intros Hns Hp. unfold attach_leased_slot, create_slot_tap. rewrite Hns. spec_down.
  apply (spec_try_each _ _ (λ done h', published slot h' ∧ ∀ c, c ∈ done → answered h' (ORun (tc_program c) (tc_args c)) ok_out)).
  - split; [done|]. by intros c ?%elem_of_nil.
  - intros l1 c l2 h' _ [Hp' Hdone]. unfold run_tap_command. spec_call as r; [intros _; by exists slot|].
    destruct r as [o|e]; simpl map_err; cbv iota; [|done]. destruct (success o) eqn:Ho; spec_down; [|done].
    split; [by apply (monotone (P := published slot))|].
    intros c' [Hc| ->%list_elem_of_singleton]%elem_of_app; [by apply answered_l, Hdone|]. apply answered_snoc. by exists o.
  - intros ys h' [Hp' Hdone]. cbv iota. spec_down. by intros _.
Qed.

Lemma spec_record slot h :
  leased slot h →
  spec R (record_slot_on_room home config room slot net) h (λ r h', leased slot h' ∧ (r = Ok () →
    ∃ dir m, Room.slot m = Some slot ∧ clone_net_index m = net_index <$> net ∧ answered h' (OWriteMeta dir m) (λ r, r = Ok ()))).
Proof using Type.
  intros Hl. apply (spec_keep _ _ _ (leased slot)); [done|]. unfold record_slot_on_room, any. spec_down.
  destruct (room_dir home config room) as [dir|]; [|done]. simpl ok_or. cbv iota. spec_down.
  spec_call as read; [done|]. destruct read as [read|e]; simpl map_err; cbv iota; [|done]. spec_down.
  destruct read as [m|]; [|done]. simpl ok_or. cbv iota. spec_down. spec_call as written; [done|].
  destruct written as [[]|e]; simpl map_err; cbv iota; [|done]. intros _.
  exists dir, (set_leased_slot slot (net_index <$> net) m). split; [done|]. split; [done|]. by apply answered_snoc.
Qed.

Lemma spec_slot_lease intent state h (Q : result SlotError Slot → list sys_event → Prop) :
  sm_slot_index (pr_meta prepared) = Some (ri_slot_index intent) →
  ri_snapshot_id intent = sm_snapshot_id (pr_meta prepared) → ri_room_id intent = room → released h →
  (∀ r k, (∀ slot, r = Ok slot → leased slot (h ++ k)) → Q r (h ++ k)) →
  spec R match net with
    | Some _ => call (OSlotLeaseClone state (ri_slot_index intent) (ri_snapshot_id intent) (ri_room_id intent))
    | None => call (OSlotLease state (ri_slot_index intent) (ri_snapshot_id intent) (ri_room_id intent))
    end h Q.
Proof using Type.
  intros Hi Hs Hr Hrel HQ. rewrite Hs, Hr. unfold leased in HQ. destruct net as [n|] eqn:Hn; spec_down.
  - spec_call as slot; [simpl; rewrite Hn; eauto 10|]. apply HQ. intros slot' Hok. eexists _, _. split; [exact Hi|].
    by apply answered_snoc.
  - spec_call as slot; [simpl; rewrite Hn; eauto 10|]. apply HQ. intros slot' Hok. eexists _, _. split; [exact Hi|].
    by apply answered_snoc.
Qed.

Lemma spec_take_lease intent launch h :
  sm_slot_index (pr_meta prepared) = Some (ri_slot_index intent) →
  ri_snapshot_id intent = sm_snapshot_id (pr_meta prepared) → ri_room_id intent = room →
  rl_network_namespace launch = netns <$> net → released h →
  spec R (take_lease home config fuel intent launch net) h (λ r h', ∀ slot, r = Ok slot → fenced slot h').
Proof using Type.
  intros Hi Hs Hr Hns Hrel. unfold take_lease.
  apply (spec_calm_step _ _ _ released); [unfold wait_api; only_walk|done|by intros|]. clear h Hrel. intros _ h Hrel.
  apply (spec_calm_step _ _ _ released); [|done|by intros|].
  { unfold launch_pid, verify_process_network_namespace, namespace_identity. only_walk. }
  clear h Hrel. intros _ h Hrel. spec_down. destruct (exec_state_base home config) as [state|e]; [|done]. spec_down.
  apply spec_slot_lease; [done..|]. intros [slot|e] k Hl; simpl map_err; cbv iota; [|done]. spec_down.
  spec_call as written; [done|]. destruct written as [[]|e]; [|done]. spec_down. rewrite Hr.
  eapply spec_mono; [apply (spec_keep _ _ _ (λ h, ∃ i, ri_room_id i = room ∧ ri_boundary i = Leased ∧
     answered h (OWriteRestoreIntent i) (λ r, r = Ok ()))); [|apply (spec_record slot)]|].
  { exists (set_leased intent). split; [done|]. split; [done|]. by apply answered_snoc. }
  { by apply (monotone (P := leased slot)), Hl. }
  intros [[]|e] h2 (Hi2 & Hl2 & Hm2); [|done]. spec_down.
  eapply spec_mono; [apply (spec_tap_plan slot)|]; [done|by split; [|split; [|by apply Hm2]]|].
  intros [[]|e] h3 H3; simpl map_err; cbv iota; [|done].
  apply (spec_calm_step _ _ _ (fenced slot)); [auto with only|by apply H3|by intros|].
  intros _ h4 H4. apply spec_ret. by intros ? [= <-].
Qed.

Lemma spec_establish intent launch h :
  sm_slot_index (pr_meta prepared) = Some (ri_slot_index intent) →
  ri_snapshot_id intent = sm_snapshot_id (pr_meta prepared) → ri_room_id intent = room →
  rl_network_namespace launch = netns <$> net → staged h →
  spec R (establish_lease home config fuel intent launch net) h
    (λ r h', ∀ slot launch', r = Ok (slot, launch') → fenced slot h' ∧ rl_network_namespace launch' = netns <$> net).
Proof using Type.
  intros Hi Hs Hr Hns Hst. unfold establish_lease, launch_pid, with_launch. spec_down. spec_call as pid; [done|].
  assert (H1 : staged (h ++ [Event (OChildId (rl_child launch)) pid]) ∧
     answered (h ++ [Event (OChildId (rl_child launch)) pid]) (OChildId (rl_child launch)) (λ p, p = pid)).
  { split; [by apply (monotone (P := staged))|by apply answered_snoc]. }
  eapply spec_mono; [apply (spec_calm (starttime_of_child pid) _ (λ h, staged h ∧ answered h (OChildId (rl_child launch)) (λ p, p = pid)));
    [unfold starttime_of_child; only_walk|exact H1]|].
  intros st h1 [Hst1 Hpid]. spec_call as written; [done|]. destruct written as [[]|e]; simpl map_err; cbv iota; [|done].
  unfold release_barrier. destruct (rl_barrier launch); spec_down; [|done].
  spec_call as w.
  { split; [|by apply (monotone (P := staged))]. exists (set_spawned pid st intent). split; [done|]. split; [done|].
    split; [by apply answered_l|by apply answered_snoc]. }
  spec_call as []; [done|]. destruct w as [[]|e]; simpl map_err; cbv iota; [|done]. spec_down.
  eapply spec_mono; [apply (spec_take_lease (set_spawned pid st intent) (barrier_released launch)); [done..|]|].
  { eexists _, _. by apply answered_l, answered_snoc. }
  intros [slot|e] h2 H2; simpl map_err; cbv iota; [|done]. spec_down. intros ? ? [= <- <-]. split; [by apply H2|done].
Qed.

(** ** The operations of the plan *)

Lemma spec_api socket method endpoint body h :
  (∀ args, args !! 4 = Some ("http://localhost" +:+ endpoint) → R h (ORunStatus "curl" args)) →
  spec R (api_request show_path show_secs show_json config (@uncancelled) socket method endpoint body) h
    (λ r h', r = Ok () → granted ("http://localhost" +:+ endpoint) h').
Proof using Type.
  intros HR. unfold api_request, uncancelled. destruct (show_json body) as [text|e]; [|done].
  spec_call as r; [by apply HR|]. set (args := ["--unix-socket"; _; _; _; _; _; _; _; _; _; _; _; _; _] : list string).
  destruct r as [[code o]|e]; simpl map_err; cbv iota; [|done]. spec_down. case_decide; [done|].
  destruct (success o) eqn:Ho; [|done]. intros _. exists args. split; [done|]. apply answered_snoc. eauto.
Qed.

Section driven.
  Context (launch : RestoreLaunch) (slot : Slot) (root room_path : path) (ids : N * N).

Lemma spec_install_custody st h :
  fenced slot h →
  spec R (install_custody req net slot room_path st) h
    (λ r h', ∀ st', r = Ok st' → fenced slot h' ∧ confining slot h').
Proof using Type.
  intros Hf. unfold install_custody, with_launch.
  apply (spec_step _ _ _ _ (λ _ h', fenced slot h' ∧ (rr_witness req = true → ∃ dir, answered h' (OWitnessStart (netns <$> net) (slot_tap slot) dir) ok))).
  - destruct (rr_witness req); [|by apply spec_ret]. spec_down. spec_call as w; [by exists slot|].
    assert (Hf' : fenced slot (h ++ [Event (OWitnessStart (netns <$> net) (slot_tap slot) room_path) w])) by (by apply (monotone (P := fenced slot))).
    destruct w as [w|e]; simpl map_err; cbv iota; [|done]. spec_down.
    eapply spec_mono; [apply (spec_calm (drop_task (ds_witness st)) _
      (λ h, fenced slot h ∧ answered h (OWitnessStart (netns <$> net) (slot_tap slot) room_path) ok))|].
    { unfold drop_task. only_walk. }
    { split; [done|]. by apply answered_snoc. }
    intros [] h' [? ?]. spec_down. split; [done|]. eauto.
  - clear h Hf. intros st' h [Hf Hw]. unfold confining. destruct net as [n|] eqn:Hn.
    + spec_down. spec_call as r; [by exists slot|]. destruct r as [[]|e]; simpl map_err; cbv iota; [|done].
      spec_down. intros ? [= <-]. split; [by apply (monotone (P := fenced slot))|]. split; [|by apply answered_snoc].
      intros H. destruct (Hw H) as [dir ?]. exists dir. by apply answered_l.
    + destruct (enforces (rr_egress req)); spec_down; [|by simpl; intros ? [= <-]; auto].
      spec_call as r; [by exists slot|]. destruct r as [[]|e]; simpl map_err; cbv iota; [|done].
      spec_down. intros ? [= <-]. split; [by apply (monotone (P := fenced slot))|]. split; [|intros _; by apply answered_snoc].
      intros H. destruct (Hw H) as [dir ?]. exists dir. by apply answered_l.
Qed.

Lemma spec_load_snapshot p q st h :
  fenced slot h → confining slot h →
  spec R (load_snapshot show_path show_secs show_json config req launch root ids p q st) h
    (λ r h', ∀ st', r = Ok st' → armed h' ∧ granted LOAD_URL h').
Proof using Type.
  intros Hf Hc. unfold load_snapshot, with_launch, resume_payload, any. spec_down.
  spec_call as f; [done|]. destruct f as [f|e]; simpl map_err; cbv iota; [|done]. spec_down.
  apply (spec_mono _ _ _ (λ r h', fenced slot h' ∧ confining slot h')).
  { eapply spec_calm; [apply _|unfold read_exact; only_walk|]. split; by apply monotone. }
  clear h Hf Hc. intros [entropy|e] h [Hf Hc]; simpl map_err; cbv iota; [|done]. spec_down. simpl map_err. cbv iota. spec_down.
  spec_call as d; [by exists slot|]. destruct d as [d|e]; simpl map_err; cbv iota; [|done]. spec_down.
  eapply spec_mono; [apply (spec_calm (drop_task (ds_delivery st)) _ (λ h, fenced slot h ∧ confining slot h ∧ armed h)); [unfold drop_task; only_walk|]|].
  { split_and!; [by apply (monotone (P := fenced slot))|by apply (monotone (P := confining slot))|].
    eexists _, _, _, _. by apply answered_snoc. }
  intros [] h' (Hf' & Hc' & Ha'). spec_down. unfold put_api, api_put. spec_down.
  eapply spec_mono; [apply (spec_keep _ _ _ armed); [done|]; apply spec_api|].
  - intros args Hargs. exists slot. split_and!; try done; apply Hf' || (intros E; rewrite Hargs in E; discriminate E).
  - intros [[]|e] h2 [Ha2 H2]; simpl map_err; cbv iota; [|done]. spec_down. intros ? [= <-]. split; [done|]. by apply H2.
Qed.

Lemma calm_reprove : only calm (reprove show_path immutable_flag sha256 req prepared launch net slot root).
Proof using Type. unfold reprove. only_walk. Qed.

Lemma spec_resume_vm h :
  jail_root_dir home config room = Some root →
  fenced slot h → confining slot h → armed h → granted LOAD_URL h →
  spec R (resume_vm show_path show_secs show_json immutable_flag sha256 config req prepared launch net slot root) h
    (λ r h', r = Ok () → granted VM_URL h').
Proof using Type.
  intros Hroot Hf Hc Ha Hl. unfold resume_vm. apply spec_try.
  eapply spec_mono; [apply (spec_calm_traced _ _ (λ h, fenced slot h ∧ confining slot h ∧ armed h ∧ granted LOAD_URL h));
    [apply calm_reprove|done]|].
  intros [[]|e] h' ((Hf' & Hc' & Ha' & Hl') & k & -> & Hrun); [|done]. unfold patch_api, api_patch. spec_down.
  eapply spec_mono; [apply spec_api|].
  - intros args Hargs. exists slot. split_and!; try apply Hf'; try done. intros _. split; [done|].
    exists launch, root, h, k. done.
  - intros [[]|e] h2 H2; simpl map_err; cbv iota; [|done]. intros _. by apply H2.
Qed.

Lemma spec_driven h p q :
  pr_ops prepared = [InstallCustody; LoadSnapshot p q; ResumeVm; ApplyHygieneNudgeAndAwaitAck] →
  jail_root_dir home config room = Some root → fenced slot h →
  spec R (driven show_path show_secs show_json immutable_flag sha256 config req prepared launch net slot root room_path ids) h
    (λ r h', ∀ w, r = Ok w → fenced slot h' ∧ confining slot h' ∧ granted LOAD_URL h' ∧ granted VM_URL h' ∧ acknowledged h').
Proof using Type.
  intros Hops Hroot Hf. unfold driven. rewrite Hops. cbn [drive_ops drive_op]. apply spec_bind.
  apply (spec_mono _ _ _ (λ r h', match r with Ok _ => fenced slot h' ∧ confining slot h' ∧ granted LOAD_URL h' ∧
    granted VM_URL h' ∧ acknowledged h' | Err _ => True end)).
  - eapply (spec_step _ _ _ _ (λ _ h', fenced slot h' ∧ confining slot h')).
    { eapply spec_mono; [by apply spec_install_custody|]. intros [st|e] h' H'; [by eapply H'|done]. }
    clear h Hf. intros st h [Hf Hc].
    eapply (spec_step _ _ _ _ (λ _ h', (fenced slot h' ∧ confining slot h') ∧ armed h' ∧ granted LOAD_URL h')).
    { eapply spec_mono; [apply (spec_keep _ _ _ (λ h, fenced slot h ∧ confining slot h)); [done|]; by apply spec_load_snapshot|].
      intros [st'|e] h' [Hk H']; [|done]. split; [done|by eapply H']. }
    clear h Hf Hc st. intros st h ((Hf & Hc) & Ha & Hl).
    eapply (spec_step _ _ _ _ (λ _ h', (fenced slot h' ∧ confining slot h' ∧ granted LOAD_URL h') ∧ granted VM_URL h')).
    { unfold with_launch. spec_down.
      eapply spec_mono; [apply (spec_keep _ _ _ (λ h, fenced slot h ∧ confining slot h ∧ granted LOAD_URL h)); [done|]; by apply spec_resume_vm|].
      intros [[]|e] h' [Hk H']; simpl map_err; cbv iota; [|done]. spec_down. split; [done|]. by apply H'. }
    clear h Hf Hc Ha Hl. intros st' h ((Hf & Hc & Hl) & Hv). unfold await_hygiene, with_launch. spec_down.
    destruct (ds_delivery st') as [d|]; simpl ok_or; cbv iota; [|done]. spec_down.
    spec_call as a; [done|]. destruct a as [[]|e]; simpl map_err; cbv iota; [|done]. spec_down.
    split_and!; try (by apply monotone). exists d. by apply answered_snoc.
  - intros [st|[e st]] h' H'; spec_down.
    + eapply spec_mono; [apply (spec_calm (drop_task (ds_delivery st)) _ (λ h, fenced slot h ∧ confining slot h ∧ granted LOAD_URL h ∧
        granted VM_URL h ∧ acknowledged h)); [unfold drop_task; only_walk|done]|]. intros [] h2 H2. spec_down. by intros w _.
    + eapply spec_mono; [apply (spec_calm (drop_task (ds_delivery st)) _ (λ _, True)); [unfold drop_task; only_walk|done]|].
      intros [] h2 _. spec_down.
      eapply spec_mono; [apply (spec_calm (drop_task (ds_witness st)) _ (λ _, True)); [unfold drop_task; only_walk|done]|]. done.
Qed.

End driven.

(** ** The whole restore *)

Lemma spec_drive intent launch h p q :
  pr_ops prepared = [InstallCustody; LoadSnapshot p q; ResumeVm; ApplyHygieneNudgeAndAwaitAck] →
  sm_slot_index (pr_meta prepared) = Some (ri_slot_index intent) →
  ri_snapshot_id intent = sm_snapshot_id (pr_meta prepared) → ri_room_id intent = room →
  rl_network_namespace launch = netns <$> net → staged h →
  spec R (drive_to_ready show_path show_secs show_json immutable_flag sha256 home config fuel req intent launch net prepared) h
    (λ r h', ∀ slot w launch', r = Ok (slot, w, launch') →
       fenced slot h' ∧ confining slot h' ∧ granted LOAD_URL h' ∧ granted VM_URL h' ∧ acknowledged h').
Proof using Type.
  intros Hops Hi Hs Hr Hns Hst. unfold drive_to_ready. apply spec_try.
  eapply spec_mono; [by apply spec_establish|]. intros [[slot launch']|e] h1 H1; [|done].
  destruct (H1 _ _ eq_refl) as [Hf Hns']. clear H1. cbv iota beta. rewrite Hr. spec_down.
  destruct (jail_root_dir home config room) as [root|] eqn:Hroot; [|done]. simpl ok_or. cbv iota. spec_down.
  destruct (room_dir home config room) as [dir|]; [|done]. simpl ok_or. cbv iota.
  apply (spec_calm_step _ _ _ (fenced slot)); [|done|by intros|].
  { unfold with_launch, lookup_firecracker_ids_async, lookup_firecracker_ids, uncancelled. only_walk. }
  intros ids h2 Hf2. unfold with_launch. spec_down.
  eapply spec_mono; [by eapply (spec_driven launch' slot root dir ids)|].
  intros [w|e] h3 H3; simpl map_err; cbv iota; [|done]. spec_down. intros ? ? ? [= <- <- <-]. by eapply H3.
Qed.

Lemma spec_spawn_restore h :
  indexed h →
  spec R (spawn_restore show_path resolve immutable_flag home config fuel (spawn_request req prepared net)) h
    (λ r h', ∀ l, r = Ok l → rl_network_namespace l = netns <$> net ∧ is_Some (jail_root_dir home config room)).
Proof using Type.
  intros Hx. unfold spawn_restore.
  apply (spec_calm_step _ _ _ indexed); [auto with only|done|by intros|]. clear h Hx. intros deps h Hx.
  apply (spec_calm_step _ _ _ indexed); [only_walk|done|by intros|]. clear h Hx. intros dir h Hx.
  apply (spec_calm_step _ _ _ indexed); [unfold prepare_room_dir; only_walk|done|by intros|]. clear h Hx. intros _ h Hx.
  unfold launch_chroot_base, jail_root_dir, jail_instance_dir. spec_down.
  destruct (chroot_base home config) as [chroot|]; [|done]. simpl ok_or. cbv iota.
  apply (spec_calm_step _ _ _ indexed); [auto with only|done|by intros|]. clear h Hx. intros _ h Hx.
  apply spec_bind.
  apply (spec_mono _ _ _ (λ r h', ∀ l, r = Ok l → rl_network_namespace l = netns <$> net)).
  - unfold spawn_restore_guarded, fails.
    apply (spec_calm_step _ _ _ indexed); [unfold open_log_file, uncancelled; only_walk|done|by intros|]. clear h Hx. intros _ h Hx.
    unfold spawn_barriered_jailer. spec_down. spec_call as child; [done|]. destruct child as [child|e]; simpl map_err; cbv iota; [|done].
    spec_call as pid; [done|]. apply spec_unwinding. spec_call as pid'; [done|].
    eapply spec_mono; [apply (spec_calm (starttime_of_child pid') _ (λ _, True)); [unfold starttime_of_child; only_walk|done]|].
    intros st h1 _. spec_down. spec_call as now; [done|]. spec_down. spec_call as written; [done|].
    destruct written as [[]|e]; simpl map_err; cbv iota; spec_down; [by intros ? [= <-]|].
    spec_call as []; [done|]. eapply spec_mono; [apply (spec_calm (drop_task (Some child)) _ (λ _, True)); [unfold drop_task; only_walk|done]|]. by intros.
  - intros [l|[e guard]] h' H'; spec_down; [intros ? [= <-]; split; [by apply H'|eauto]|].
    eapply spec_mono; [apply (spec_calm _ _ (λ _, True)); [auto with only|done]|]. done.
Qed.

Lemma spec_finish i h (Q : unit → list sys_event → Prop) :
  ri_room_id i = room → answered h (OCreateRestoreIntent i) (λ r, r = Ok ()) →
  (∀ h', given_up h' → Q () h') →
  spec R (do* finish_intent show_path home config fuel i in Ret ()) h Q.
Proof using Type.
  intros Hr Hi HQ. spec_down. eapply spec_mono; [apply (spec_calm_traced _ _ (λ _, True)); [auto with only|done]|].
  intros r h' (_ & k & -> & Hrun). spec_down. apply HQ. right. exists i, h, k, r. done.
Qed.

Lemma spec_abort launch i h (Q : unit → list sys_event → Prop) :
  ri_room_id i = room → answered h (OCreateRestoreIntent i) (λ r, r = Ok ()) →
  (∀ h', given_up h' → Q () h') →
  spec R (abort_launch show_path home config fuel launch i) h Q.
Proof using Type.
  intros Hr Hi HQ. unfold abort_launch.
  assert (Hstep : ∀ (p : sys unit) h k, only calm p → answered h (OCreateRestoreIntent i) (λ r, r = Ok ()) →
     (∀ h', answered h' (OCreateRestoreIntent i) (λ r, r = Ok ()) → spec R k h' Q) → spec R (do* p in k) h Q).
  { intros p h0 k Hp H0 Hk. apply spec_bind. eapply spec_mono; [by apply (spec_calm p h0 (λ h, answered h (OCreateRestoreIntent i) (λ r, r = Ok ())))|]. intros [] h1. apply Hk. }
  apply Hstep; [auto with only|done|]. clear h Hi. intros h Hi.
  apply Hstep; [unfold drop_barrier; only_walk|done|]. clear h Hi. intros h Hi.
  apply Hstep; [unfold vm_drop, drop_task; only_walk|done|]. clear h Hi. intros h Hi.
  by apply (spec_finish i).
Qed.

(** How a restore with a durable intent ends. *)
Definition ended (r : result string Restored) (h : list sys_event) : Prop :=
  match r with Ok r => ready_room r h | Err _ => given_up h end.

Lemma spec_launched intent launch h p q :
  pr_ops prepared = [InstallCustody; LoadSnapshot p q; ResumeVm; ApplyHygieneNudgeAndAwaitAck] →
  sm_slot_index (pr_meta prepared) = Some (ri_slot_index intent) →
  ri_snapshot_id intent = sm_snapshot_id (pr_meta prepared) → ri_room_id intent = room →
  rl_network_namespace launch = netns <$> net → is_Some (jail_root_dir home config room) →
  indexed h → answered h (OCreateRestoreIntent intent) (λ r, r = Ok ()) →
  spec R (restore_launched show_path show_secs show_json immutable_flag sha256 home config fuel req prepared net intent launch) h ended.
Proof using Type.
  intros Hops Hi Hs Hr Hns [root Hroot] Hx Ha. unfold restore_launched. rewrite Hroot. apply spec_bind.
  eapply spec_mono; [apply (spec_calm_traced (checks root) _ (λ h, indexed h ∧ answered h (OCreateRestoreIntent intent) (λ r, r = Ok ())));
    [unfold checks; only_walk|done]|].
  intros [[]|e] h1 ([Hx1 Ha1] & k & -> & Hrun).
  2:{ apply spec_bind, spec_abort; [done..|]. intros h' H'. by apply spec_ret. }
  assert (Hst : staged (h ++ k)) by (exists root, h, k, []; by rewrite (right_id_L [] (++))).
  apply spec_bind. eapply spec_mono; [apply (spec_keep _ _ _ (λ h, (indexed h ∧ staged h) ∧
     answered h (OCreateRestoreIntent intent) (λ r, r = Ok ()))); [done|]; by eapply spec_drive|].
  intros [[[slot w] launch']|[e launch']] h2 (([Hx2 Hs2] & Ha2) & H2); cbv iota beta.
  - apply spec_ret. destruct (H2 _ _ _ eq_refl) as (? & ? & ? & ? & ?). unfold ended, ready_room. simpl. split_and!; done.
  - apply spec_bind, spec_abort; [done..|]. intros h' H'. by apply spec_ret.
Qed.

Lemma spec_indexed slot_index h p q :
  pr_ops prepared = [InstallCustody; LoadSnapshot p q; ResumeVm; ApplyHygieneNudgeAndAwaitAck] →
  sm_slot_index (pr_meta prepared) = Some slot_index →
  answered h (OCreateRestoreIntent (new_intent req prepared slot_index net)) (λ r, r = Ok ()) →
  spec R (restore_indexed show_path resolve show_secs show_json immutable_flag sha256 home config fuel req prepared net
            (new_intent req prepared slot_index net)) h ended.
Proof using Type.
  intros Hops Hi Ha. unfold restore_indexed. set (i := new_intent req prepared slot_index net) in *.
  assert (Hx : ∀ h', answered h' (OCreateRestoreIntent i) (λ r, r = Ok ()) → indexed h') by (intros h' H; by exists i).
  assert (Hclean : ∀ e h', answered h' (OCreateRestoreIntent i) (λ r, r = Ok ()) →
    spec R (do* clean_pre_spawn show_path home config fuel i in Ret (Err e)) h' ended).
  { intros e h' H. apply spec_bind. unfold clean_pre_spawn. apply (spec_finish i); [done..|]. intros h2 H2. by apply spec_ret. }
  apply spec_bind. eapply spec_mono; [apply (spec_calm (revalidate show_path immutable_flag prepared) _
    (λ h, answered h (OCreateRestoreIntent i) (λ r, r = Ok ()))); [auto with only|exact Ha]|].
  clear h Ha. intros [[]|e] h Ha; [|by apply Hclean].
  apply spec_bind. eapply spec_mono; [apply (spec_keep _ _ _ (λ h, answered h (OCreateRestoreIntent i) (λ r, r = Ok ()))); [exact Ha|by apply spec_spawn_restore, Hx]|].
  clear h Ha. intros [launch|e] h [Ha H]; [|by apply Hclean]. destruct (H _ eq_refl) as [Hns Hroot].
  eapply spec_launched; eauto.
Qed.

Lemma spec_canonical state :
  only calm (canonical_clone_net state room net) ∧
  ∀ tr r, run (canonical_clone_net state room net) tr (Some (Ok r)) → r = net.
Proof using Type.
  split; [auto with only|]. unfold canonical_clone_net. intros tr r. destruct net as [n|]; [|simpl; intros (_ & [|]); congruence].
  destruct (CloneNet_derive (net_index n)) as [d|e]; cbn -[bool_decide]; [|intros (_ & [|]); congruence].
  case_bool_decide as Hd; cbn; [subst|intros (_ & [|]); congruence].
  intros [[_ [=]]|(x & tr' & -> & Hrun)]. destruct x as [[]|e]; simpl in Hrun; destruct Hrun as (_ & [|]); congruence.
Qed.

(** The intent a call made durable. *)
Definition created (e : sys_event) : option RestoreIntent :=
  match e with
  | Event op x =>
      match op return ans op → option RestoreIntent with
      | OCreateRestoreIntent i => λ x, match x with Ok _ => Some i | Err _ => None end
      | _ => λ _, None
      end x
  end.

Definition no_intent (h : list sys_event) : Prop := ∀ i, ¬ answered h (OCreateRestoreIntent i) (λ r, r = Ok ()).

Lemma no_intent_snoc h e : no_intent h → created e = None → no_intent (h ++ [e]).
Proof using Type.
  destruct e as [op x]. intros Hno He i [H|(y & Heq & ->)]%answered_snoc_inv; [by apply Hno in H|].
  apply (f_equal created) in Heq. rewrite He in Heq. done.
Qed.

Lemma no_intent_calm h k : no_intent h → all_calls calm k → no_intent (h ++ k).
Proof using Type. intros Hno Hk i (x & [Hx|Hx]%elem_of_app & HP); [by apply (Hno i); exists x|]. by apply Hk in Hx. Qed.

(** A step before the intent: nothing the order says anything about. *)
Lemma spec_before {E A B : Type} (p : sys (result E A)) (k : A → sys (result E B)) h Q :
  only calm p → no_intent h → (∀ e h', no_intent h' → Q (Err e) h') →
  (∀ a h' tr, run p tr (Some (Ok a)) → no_intent h' → spec R (k a) h' Q) →
  spec R (try* a := p in k a) h Q.
Proof using Type.
  intros Hp Hno He Hk. apply spec_try. eapply only_traced; [exact Hp|intros; by apply calm_allowed|].
  intros [a|e] tr Htr Hrun; [eapply Hk; [exact Hrun|]|apply He]; by apply no_intent_calm.
Qed.

Lemma spec_prepared h p q :
  pr_ops prepared = [InstallCustody; LoadSnapshot p q; ResumeVm; ApplyHygieneNudgeAndAwaitAck] →
  no_intent h →
  spec R (restore_prepared show_path resolve show_secs show_json immutable_flag sha256 home config fuel req prepared) h ended.
Proof using Type.
  intros Hops Hno. unfold restore_prepared. destruct (negb _); [by left|].
  apply spec_before; [auto with only|done|by left|]. clear h Hno. intros _ h tr _ Hno.
  apply spec_try, spec_ret. unfold frozen_slot. destruct (sm_slot_index (pr_meta prepared)) as [index|] eqn:Hi; [|by left].
  simpl ok_or. cbn [rbind].
  assert (Hslot : ∀ r, (r = Ok index ∨ ∃ e, r = Err e) → spec R
    match r with
    | Ok slot_index =>
      try* state := Ret (exec_state_base home config) in
      try* clone_net := canonical_clone_net state room net in
      try* _ := revalidate show_path immutable_flag prepared in
      try* _ := call (OCreateRestoreIntent (new_intent req prepared slot_index clone_net)) in
      restore_indexed show_path resolve show_secs show_json immutable_flag sha256 home config fuel req prepared clone_net
        (new_intent req prepared slot_index clone_net)
    | Err e => Ret (Err e)
    end h ended).
  { intros r [->|[e ->]]; [|by left]. apply spec_try, spec_ret. destruct (exec_state_base home config) as [state|e]; [|by left].
    apply spec_before; [apply (spec_canonical state)|done|by left|]. clear h Hno. intros n h tr' Hn Hno.
    apply (spec_canonical state) in Hn as ->. apply spec_before; [auto with only|done|by left|]. clear h Hno. intros _ h tr2 _ Hno.
    spec_call as r; [done|].
    destruct r as [[]|e]; [|left; by apply no_intent_snoc]. eapply spec_indexed; [done|done|by apply answered_snoc]. }
  destruct (rr_target_slot req) as [requested|]; [|apply (Hslot (Ok index)); auto].
  destruct (negb _); [left; exact Hno|apply (Hslot (Ok index)); auto].
Qed.

End restore_order.

(** C6.  A restore from a prepared source, whatever the host answers and wherever
    it stops.  A process is started only once the restore's intent is durable, and
    crosses its launch barrier only when its pid is in the durable intent and what
    its jail holds was found to be what was prepared.  The lease asked for is the
    frozen slot's, for this room, after the barrier; the tap is made only once the
    lease is in the durable intent and in the room's metadata; the capture, the
    egress rules and the nudge listener come after the tap, the load after all of
    them, and the request that resumes the guest only directly after the last
    looks at the network, the staged files and the source all succeeded.  A restore
    that succeeds has done all of this and was acknowledged by the guest; one that
    fails left no intent or ended with its intent's terminal teardown. *)
Theorem restore_ordered show_path resolve show_secs show_json immutable_flag sha256 home config fuel req prepared
    fc rootfs toolstore tr o :
  plan_restore (pr_meta prepared) fc rootfs toolstore = Ok (pr_ops prepared) →
  run (restore_prepared show_path resolve show_secs show_json immutable_flag sha256 home config fuel req prepared) tr o →
  guarded (restore_allows show_path immutable_flag sha256 home config req prepared) tr ∧
  ∀ r, o = Some r → ended show_path immutable_flag sha256 home config fuel req prepared r tr.
Proof.
  intros (_ & _ & _ & _ & _ & Hops)%plan_restore_Ok Hrun.
  apply (spec_run (restore_allows show_path immutable_flag sha256 home config req prepared) _
    (ended show_path immutable_flag sha256 home config fuel req prepared)) in Hrun; [exact Hrun|].
  eapply spec_prepared; [exact Hops|]. intros i (x & Hx & _). by apply elem_of_nil in Hx.
Qed.

(** A host that can restore: the source is sealed, and the guest answers. *)
Definition restore_host (h : list sys_event) (op : sysop) : ans op :=
  match op return ans op with
  | OLstat p => Ok {| st_kind := if decide (p = ["snap"]) then KindDir else KindFile; st_uid := 7; st_id := st_id idle_stat |}
  | OStat _ => Ok idle_stat
  | OGetFlags _ => Ok 16%N
  | OReadExact _ _ => Ok (Some "entropy")
  | OReadMeta _ => Ok (Some (RoomMeta_new "01hzzzzzzzzzzzzzzzzzzzzzzz" None (Some 7%N) (Some 9%N) false 0))
  | op => room_host h op
  end.

Definition sample_prepared : PreparedRestoreSource :=
  let stamped label p kind := {| sp_label := label; sp_path := p; sp_kind := kind; sp_stamp := st_id idle_stat |} in
  {| pr_snapshot_dir := ["snap"]; pr_image := ["image"]; pr_meta := sample_meta;
     pr_ops := [InstallCustody; LoadSnapshot [SNAPSHOT_VMSTATE_FILE] [SNAPSHOT_MEM_FILE]; ResumeVm;
                ApplyHygieneNudgeAndAwaitAck];
     pr_identity := (λ '(label, p, kind), stamped label p kind) <$> restore_inputs ["snap"] ["image"];
     pr_vmstate_hash := "sha256:"; pr_image_guard := 4; pr_toolstore_dir := None; pr_toolstore := None |}.

Definition sample_restore : RestoreRequest :=
  {| rr_request_room := "01hzzzzzzzzzzzzzzzzzzzzzzz"; rr_snapshot_dir := ["snap"]; rr_image := ["image"]; rr_toolstore := None;
     rr_target_slot := None; rr_label := None; rr_keep := false; rr_witness := true; rr_egress := PlanNone;
     rr_secrets := None; rr_out_dir := None; rr_ack_timeout := 1; rr_clone_net := None |}.

Lemma restore_ordered_witness :
  let p := restore_prepared (join "/") (λ s, [s]) show_N (λ _, Ok "{}") 16 (λ s, s) None boot_config 5 sample_restore
             sample_prepared in
  let tr := snd (exec restore_host p []) in
  ∃ r, fst (exec restore_host p []) = Some (Ok r) ∧ rs_slot r = derive 3 ∧
    ready_room (join "/") 16 (λ s, s) None boot_config sample_restore sample_prepared r tr.
Proof.
  intros p tr. destruct (fst (exec restore_host p [])) as [[r|e]|] eqn:E; [|vm_compute in E; discriminate E..].
  exists r. split; [done|]. split.
  { assert (H : (r ← (r ← fst (exec restore_host p []); match r with Ok r => Some r | Err _ => None end); Some (rs_slot r)) = Some (derive 3))
      by (vm_compute; reflexivity). rewrite E in H. by injection H. }
  eapply (restore_ordered (join "/") (λ s, [s]) show_N (λ _, Ok "{}") 16 (λ s, s) None boot_config 5 sample_restore
    sample_prepared (sm_fc_version sample_meta) (sm_rootfs_hash sample_meta) (sm_toolstore_sha256 sample_meta) tr (Some (Ok r)))
    with (r := Ok r); [vm_compute; reflexivity| |done].
  rewrite <- E. apply (exec_run_nil restore_host p).
Defined.
