(* ===== verification/Registry.v ===== *)
(** * Registry: listing, collecting and killing rooms ([registry.rs])

    The rooms of the state base with their liveness, [rooms gc] and [rooms kill].
    Logging is left out; an error of a snapshot index is carried as its text.  The
    lock of a base is held by the operating system: [OUnlock] is where its guard
    is dropped. *)

From S2P Require Import Prelude RStr Fs Room IndexedClaim Slot Host CloneRoutes CloneNet Config Snapshot Intents Prog Sys Process Teardown Boot RestoreLaunch RestoreTeardown.
From stdpp Require Import options.

Definition REGISTRY_SCHEMA_VERSION : N := 1.

Inductive RegistryError :=
| ReInvalidRoomId (id : string)
| RePathEscape (p : path)
| ReHomeUnset
| ReFirecracker (e : FirecrackerError)
| ReIo (e : io_error).

Inductive RoomState := Running | Kept | OrphanedDead | StateUnknown.

#[export] Instance RoomState_eq_dec : EqDecision RoomState.
Proof. solve_decision. Defined.

Definition RoomState_label (s : RoomState) : string :=
  match s with
  | Running => "running"
  | Kept => "kept"
  | OrphanedDead => "orphaned-dead"
  | StateUnknown => "unknown"
  end.

Definition is_reapable (s : RoomState) : bool := match s with OrphanedDead => true | _ => false end.

Record RoomEntry := {
  en_id : string;
  en_state : RoomState;
  en_label : option string;
  en_pid : option N;
  en_pid_starttime : option N;
  en_started_at : option Z;
  en_keep : bool;
  en_slot : option Slot;
  en_snapshot_lineage : option string;
  en_clone_net_index : option N
}.

Record ListReport := { ls_schema_version : N; ls_rooms : list RoomEntry }.

Definition ListReport_new (rooms : list RoomEntry) : ListReport :=
  {| ls_schema_version := REGISTRY_SCHEMA_VERSION; ls_rooms := rooms |}.

Definition is_clean (r : ListReport) : bool := bool_decide (length (ls_rooms r) = 0).

(** The reader of reports is [serde_json]. *)
Definition parse_ls_report (from_str : string → result string ListReport) (text : string) : result string ListReport :=
  let? report := map_err (λ e, "parse ls --json: " +:+ e) (from_str text) in
  if negb (ls_schema_version report =? REGISTRY_SCHEMA_VERSION)%N then
    Err ("ls --json schema_version " +:+ show_N (ls_schema_version report) +:+ " != supported " +:+
         show_N REGISTRY_SCHEMA_VERSION +:+ "; regenerate with this rooms build")
  else Ok report.

Definition classify (keep : bool) (liveness : Liveness) : RoomState :=
  match liveness with
  | Alive => if keep then Kept else Running
  | Dead => OrphanedDead
  | Unknown => StateUnknown
  end.

(** ** Outcomes *)

Record GcOptions := { gc_dry_run : bool; gc_only : option string }.

Record GcOutcome := { go_id : string; go_state : RoomState; go_reaped : bool; go_reason : string }.

Record GcReport := { gr_schema_version : N; gr_dry_run : bool; gr_outcomes : list GcOutcome }.

Inductive KillDisposition := Killed | AlreadyDead | Refused | Failed.

Definition exit_code (d : KillDisposition) : N :=
  match d with Killed | AlreadyDead => 0 | Failed => 1 | Refused => 2 end.

Record KillOutcome := { ko_id : string; ko_state : RoomState; ko_disposition : KillDisposition; ko_reason : string }.

Record KillReport := { kr_schema_version : N; kr_outcomes : list KillOutcome }.

(** [max().unwrap_or(0)]. *)
Definition KillReport_exit_code (r : KillReport) : N :=
  foldr N.max 0%N ((λ o, exit_code (ko_disposition o)) <$> kr_outcomes r).

Definition should_reconcile_global_allocators (opts : GcOptions) : bool :=
  negb (gc_dry_run opts) && match gc_only opts with None => true | Some _ => false end.

Definition outcome (entry : RoomEntry) (reaped : bool) (reason : string) : GcOutcome :=
  {| go_id := en_id entry; go_state := en_state entry; go_reaped := reaped; go_reason := reason |}.

Definition skip_outcome (entry : RoomEntry) : GcOutcome :=
  outcome entry false ("skipped: " +:+ RoomState_label (en_state entry)).

Definition kill_outcome (entry : RoomEntry) (d : KillDisposition) (reason : string) : KillOutcome :=
  {| ko_id := en_id entry; ko_state := en_state entry; ko_disposition := d; ko_reason := reason |}.

Definition unknown_entry (id : string) : RoomEntry :=
  {| en_id := id; en_state := StateUnknown; en_label := None; en_pid := None; en_pid_starttime := None;
     en_started_at := None; en_keep := false; en_slot := None; en_snapshot_lineage := None; en_clone_net_index := None |}.

Definition snapshot_error (e : string) : RegistryError := ReIo (IoError OtherKind ("snapshot intent index: " +:+ e)).

Definition protected_reason (snapshot_id : string) : string :=
  "protected pending snapshot " +:+ snapshot_id +:+ "; run `rooms snapshot-recover " +:+ snapshot_id +:+ "`".

(** [a.started_at.cmp(&b.started_at).then_with(|| a.id.cmp(&b.id))] is [Less]. *)
Definition started_cmp (a b : option Z) : comparison :=
  match a, b with
  | None, None => Eq
  | None, Some _ => Lt
  | Some _, None => Gt
  | Some a, Some b => (a ?= b)%Z
  end.

Definition entry_lt (a b : RoomEntry) : bool :=
  match started_cmp (en_started_at a) (en_started_at b) with
  | Lt => true
  | Gt => false
  | Eq => str_lt (en_id a) (en_id b)
  end.

Fixpoint insert_entry (e : RoomEntry) (l : list RoomEntry) : list RoomEntry :=
  match l with
  | [] => [e]
  | x :: l' => if entry_lt e x then e :: l else x :: insert_entry e l'
  end.

Definition sort_entries (l : list RoomEntry) : list RoomEntry := fold_left (λ l e, insert_entry e l) l [].

Definition ensure_child (p expected_parent : path) : result RegistryError unit :=
  if bool_decide (parent p = Some expected_parent) then Ok () else Err (RePathEscape p).

(** A base's lock, dropped with the value that holds it. *)
Definition locked {A : Type} (id : string) (p : sys A) : sys A :=
  let* r := p in do* call (OUnlock id) in Ret r.

Section registry.
  Variable show_path : path → string.
  Variable home : option path.
  Variable config : RoomsConfig.
  Variable fuel : nat.

Definition re_message (e : RegistryError) : string :=
  match e with
  | ReInvalidRoomId id => "invalid room id: " +:+ id
  | RePathEscape p => "refusing to remove a path outside the state base: " +:+ show_path p
  | ReHomeUnset => "home env var unset; cannot locate the rooms state base"
  | ReFirecracker e => fc_message e
  | ReIo e => "io error: " +:+ message e
  end.

Definition error_outcome (entry : RoomEntry) (e : RegistryError) : GcOutcome :=
  outcome entry false ("error: " +:+ re_message e).

(** ** Listing *)

Definition load_meta_soft (dir : path) : sys (option RoomMeta) :=
  let* read := call (OReadMeta dir) in
  Ret match read with Ok meta => meta | Err _ => None end.

Definition entry_for (id : string) : sys RoomEntry :=
  let* meta := match room_dir home config id with Some dir => load_meta_soft dir | None => Ret None end in
  let pid := meta ≫= pid in
  let pid_starttime := meta ≫= pid_starttime in
  let keep := match meta with Some m => keep m | None => false end in
  let* live := room_probe pid pid_starttime in
  Ret {| en_id := id; en_state := classify keep live; en_label := meta ≫= label; en_pid := pid;
         en_pid_starttime := pid_starttime; en_started_at := started_at <$> meta; en_keep := keep;
         en_slot := meta ≫= Room.slot; en_snapshot_lineage := meta ≫= snapshot_lineage;
         en_clone_net_index := meta ≫= clone_net_index |}.

Definition list_one (d : result io_error dirent) : sys (result RegistryError (option RoomEntry)) :=
  match d with
  | Err e => Ret (Err (ReIo e))
  | Ok d =>
      if negb (is_valid_room_id (dirent_name d)) || negb (match dirent_is_dir d with Ok dir => dir | Err _ => false end)
      then Ret (Ok None)
      else let* entry := entry_for (dirent_name d) in Ret (Ok (Some entry))
  end.

Definition list_rooms : sys (result RegistryError (list RoomEntry)) :=
  match resolved_state_base home config with
  | None => Ret (Err ReHomeUnset)
  | Some base =>
      let* read := call (OReadDir base) in
      match read with
      | Err e => if decide (kind e = NotFound) then Ret (Ok []) else Ret (Err (ReIo e))
      | Ok dirents =>
          try* entries := ptry_each list_one dirents in
          Ret (Ok (sort_entries (omap (λ e, e) entries)))
      end
  end.

Definition find_entry (id : string) : sys (option RoomEntry) :=
  match room_dir home config id with
  | None => Ret None
  | Some dir =>
      let* metadata := call (OLstat dir) in
      if match metadata with Ok m => st_is_dir m | Err _ => false end
      then let* entry := entry_for id in Ret (Some entry) else Ret None
  end.

(** ** Reaping *)

Definition slot_release_for (entry : RoomEntry) : result RegistryError (option SlotRelease) :=
  match en_slot entry with
  | None => Ok None
  | Some slot =>
      let? base := ok_or (resolved_state_base home config) ReHomeUnset in
      Ok (Some {| sl_state_base := base; sl_index := slot_index slot; sl_tap := slot_tap slot; sl_room_id := en_id entry |})
  end.

Definition reap_paths (id : string) : result RegistryError (path * path * path) :=
  let? base := ok_or (resolved_state_base home config) ReHomeUnset in
  let? chroot_base := ok_or (chroot_base home config) ReHomeUnset in
  let? room_dir := ok_or (room_dir home config id) ReHomeUnset in
  let? jail_instance_dir := ok_or (jail_instance_dir home config id) ReHomeUnset in
  let? socket := ok_or (jail_socket home config id) ReHomeUnset in
  let? _ := ensure_child room_dir base in
  let? _ := ensure_child jail_instance_dir (path_join chroot_base "firecracker") in
  Ok (room_dir, jail_instance_dir, socket).

Definition reap_room (entry : RoomEntry) : sys (result RegistryError unit) :=
  match en_snapshot_lineage entry, en_slot entry with
  | Some snapshot_id, Some slot =>
      pmap_err (λ e, ReFirecracker (FcInternal e))
        (finish_teardown show_path home config fuel (en_id entry) snapshot_id (slot_index slot) (en_clone_net_index entry))
  | _, _ =>
      try* paths := Ret (reap_paths (en_id entry)) in
      let '(room_dir, jail_instance_dir, socket) := paths in
      try* slot := Ret (slot_release_for entry) in
      pmap_err ReFirecracker (reap_orphan show_path fuel config room_dir jail_instance_dir socket slot)
  end.

Definition pending_snapshot (room_id : string) : sys (result RegistryError (option PendingSnapshot)) :=
  try* intents := pmap_err snapshot_error (call OSnapshotIntents) in
  Ret (Ok (pending_summary <$> find_first (for_base room_id) intents)).

(** [reap_entry] under the base's lock. *)
Definition reap_locked (entry : RoomEntry) (dry_run : bool) : sys (result RegistryError GcOutcome) :=
  try* pending := pending_snapshot (en_id entry) in
  match pending with
  | Some pending => Ret (Ok (outcome entry false (protected_reason (ps_snapshot_id pending))))
  | None =>
      if negb (is_reapable (en_state entry)) then Ret (Ok (skip_outcome entry)) else
      try* _ := Ret (reap_paths (en_id entry)) in
      if dry_run : bool then Ret (Ok (outcome entry false "would reap (dry-run)")) else
      try* _ := reap_room entry in
      Ret (Ok (outcome entry true "reaped"))
  end.

Definition reap_entry (entry : RoomEntry) (dry_run : bool) : sys (result RegistryError GcOutcome) :=
  try* held := pmap_err snapshot_error (call (OTryLock (en_id entry))) in
  if negb held then
    Ret (Ok (outcome entry false "snapshot transaction is starting or active; refusing concurrent reap"))
  else locked (en_id entry) (reap_locked entry dry_run).

(** The callback of [slot::reconcile] runs inside that call. *)
Definition reconcile_leaked_slots_with (orphaned_taps : list N) (cleanup : N → sys (result string unit)) : sys unit :=
  match resolved_state_base home config with
  | None => Ret ()
  | Some base =>
      do* call (OSlotReconcile base) in
      do* pfor_each (λ index, slot_cleanup_if_unclaimed base index (cleanup index)) orphaned_taps in
      Ret ()
  end.

Definition reconcile_leaked_slots : sys unit :=
  let* orphaned_taps := call OOrphanedTaps in
  reconcile_leaked_slots_with orphaned_taps
    (λ index, pmap_err fc_message (remove_egress_and_tap (slot_tap_name index))).

Definition reconcile_leaked_clonenets : sys unit :=
  match resolved_state_base home config with
  | None => Ret ()
  | Some base => do* call (OCloneReconcile base) in Ret ()
  end.

(** ** [rooms gc] *)

Definition gc_entry (dry_run : bool) (entry : RoomEntry) : sys GcOutcome :=
  let* r := reap_entry entry dry_run in
  Ret match r with Ok out => out | Err e => error_outcome entry e end.

Definition in_scope (opts : GcOptions) (id : string) : bool :=
  match gc_only opts with Some only => (only =? id)%string | None => true end.

Definition protected_outcome (p : PendingSnapshot) : GcOutcome :=
  {| go_id := ps_base_room p; go_state := StateUnknown; go_reaped := false; go_reason := protected_reason (ps_snapshot_id p) |}.

(** The pending transactions whose base has no directory. *)
Definition protected_rest (opts : GcOptions) (rooms : list RoomEntry) (pending : list PendingSnapshot) : list GcOutcome :=
  protected_outcome <$>
    List.filter (λ p, in_scope opts (ps_base_room p) && negb (existsb (λ e, (en_id e =? ps_base_room p)%string) rooms)) pending.

Definition pending_restore_outcome (p : PendingRestore) : GcOutcome :=
  {| go_id := pr_room_id p; go_state := StateUnknown; go_reaped := false;
     go_reason := "pending restore of snapshot " +:+ pr_snapshot_id p +:+ " at boundary " +:+ pr_boundary p |}.

Definition reconciled_outcome (r : ReconciledRestore) : GcOutcome :=
  {| go_id := rr_room_id r; go_state := StateUnknown; go_reaped := rr_reaped r; go_reason := rr_reason r |}.

Definition gc_restores (opts : GcOptions) : sys (result RegistryError (list GcOutcome)) :=
  if gc_dry_run opts then
    try* intents := pmap_err snapshot_error (call ORestoreIntents) in
    Ret (Ok (pending_restore_outcome <$> List.filter (λ p, in_scope opts (pr_room_id p)) (pending_restore <$> intents)))
  else
    let* reconciled := gc_reconcile show_path home config fuel (gc_only opts) in
    Ret (Ok (reconciled_outcome <$> reconciled)).

Definition gc (opts : GcOptions) : sys (result RegistryError GcReport) :=
  try* _ := Ret match gc_only opts with
                | Some id => if negb (is_valid_room_id id) then Err (ReInvalidRoomId id) else Ok ()
                | None => Ok ()
                end in
  try* intents := pmap_err snapshot_error (call OSnapshotIntents) in
  let pending := pending_summary <$> intents in
  let global_reconcile := should_reconcile_global_allocators opts in
  do* (if global_reconcile && bool_decide (length pending = 0) then reconcile_leaked_slots else Ret ()) in
  try* rooms := list_rooms in
  let rooms := List.filter (λ e, in_scope opts (en_id e)) rooms in
  let* outcomes := pfor_each (gc_entry (gc_dry_run opts)) rooms in
  try* restored := gc_restores opts in
  do* (if global_reconcile then reconcile_leaked_clonenets else Ret ()) in
  Ret (Ok {| gr_schema_version := REGISTRY_SCHEMA_VERSION; gr_dry_run := gc_dry_run opts;
             gr_outcomes := outcomes ++ protected_rest opts rooms pending ++ restored |}).

(** ** [rooms kill] *)

Definition reap_after_kill (entry : RoomEntry) (ok_reason : string) : sys (result RegistryError KillOutcome) :=
  try* _ := Ret (reap_paths (en_id entry)) in
  let* r := reap_room entry in
  Ret (Ok match r with
          | Ok _ => kill_outcome entry Killed ok_reason
          | Err e => kill_outcome entry Failed ("terminated but reap failed: " +:+ re_message e)
          end).

Definition kill_live (entry : RoomEntry) : sys (result RegistryError KillOutcome) :=
  match en_pid entry, en_pid_starttime entry with
  | None, _ => Ret (Ok (kill_outcome entry Refused "alive but no pid recorded; refusing to kill"))
  | Some _, None =>
      Ret (Ok (kill_outcome entry Refused
        "cannot verify process identity (room predates starttime pinning); refusing to signal"))
  | Some pid, Some starttime =>
      let* out := terminate_by_identity fuel pid (Some starttime) (cleanup_grace config) in
      match out with
      | Signaled => reap_after_kill entry "killed"
      | AlreadyExited => reap_after_kill entry "already exited; reaped"
      | Survived => Ret (Ok (kill_outcome entry Failed "firecracker survived SIGKILL; still alive, not reaped"))
      | Indeterminate =>
          Ret (Ok (kill_outcome entry Refused "liveness indeterminate at signal time; could not confirm death (not reaped)"))
      end
  end.

Definition kill_entry (entry : RoomEntry) : sys (result RegistryError KillOutcome) :=
  match en_state entry with
  | OrphanedDead => Ret (Ok (kill_outcome entry AlreadyDead "nothing live to kill; run `rooms gc` to reap it"))
  | StateUnknown =>
      Ret (Ok (kill_outcome entry Refused "liveness unknown (no pid / unreadable /proc); refusing to kill"))
  | Running | Kept => kill_live entry
  end.

Definition kill_report (outcomes : list KillOutcome) : KillReport :=
  {| kr_schema_version := REGISTRY_SCHEMA_VERSION; kr_outcomes := outcomes |}.

(** [kill] under the base's lock. *)
Definition kill_locked (id : string) : sys (result RegistryError KillReport) :=
  let* entry := find_entry id in
  try* pending := pending_snapshot id in
  match pending with
  | Some pending =>
      Ret (Ok (kill_report [kill_outcome (default (unknown_entry id) entry) Refused
        ("snapshot transaction " +:+ ps_snapshot_id pending +:+ " is pending; run `rooms snapshot-recover " +:+
         ps_snapshot_id pending +:+ "`")]))
  | None =>
      match entry with
      | Some entry => try* out := kill_entry entry in Ret (Ok (kill_report [out]))
      | None => Ret (Ok (kill_report []))
      end
  end.

Definition kill (id : string) : sys (result RegistryError KillReport) :=
  if negb (is_valid_room_id id) then Ret (Err (ReInvalidRoomId id)) else
  match resolved_state_base home config with
  | None => Ret (Err ReHomeUnset)
  | Some _ =>
      try* held := pmap_err snapshot_error (call (OTryLock id)) in
      if negb held then
        let* entry := find_entry id in
        Ret (Ok (kill_report [kill_outcome (default (unknown_entry id) entry) Refused
          "snapshot transaction is starting or active; refusing concurrent kill"]))
      else locked id (kill_locked id)
  end.

End registry.
