(* ===== verification/Collect.v ===== *)
(** * Collect: what [rooms gc] and [rooms kill] may destroy

    The order and the limits of the two commands that end rooms, over all answers
    of the host. *)

From S2P Require Import Prelude RStr Fs Room IndexedClaim Slot Host CloneRoutes CloneNet Config Snapshot Intents Prog Sys Process Teardown Boot RestoreLaunch RestoreTeardown Registry.
From stdpp Require Import options.

Section collect.
  Context (show_path : path → string) (home : option path) (config : RoomsConfig) (fuel : nat).

(** ** Facts *)

(** Calls that only look, wait or lock. *)
Definition reads (op : sysop) : Prop :=
  match op with
  | OReadDir _ | OReadMeta _ | OLstat _ | OProcStat _ | OSnapshotIntents | ORestoreIntents | OOrphanedTaps
  | OExists _ | OSleep _ | ONow => True
  | _ => False
  end.

Definition looks (op : sysop) : Prop := match op with OTryLock _ | OUnlock _ => True | op => reads op end.

Lemma reads_looks op : reads op → looks op.
Proof using Type. by destruct op. Qed.

(** The base's lock is held. *)
Definition lock_held (id : string) (h : list sys_event) : Prop :=
  ∃ h1 h2, h = h1 ++ Event (OTryLock id) (Ok true) :: h2 ∧ ∀ e, e ∈ h2 → ev_op e ≠ OUnlock id.

(** The room's metadata names a process. *)
Definition recorded (id : string) (pid : N) (starttime : option N) (h : list sys_event) : Prop :=
  ∃ dir m, room_dir home config id = Some dir ∧ Room.pid m = Some pid ∧ pid_starttime m = starttime ∧
    answered h (OReadMeta dir) (λ r, r = Ok (Some m)).

Definition seen (pid : N) (starttime : option N) (live : Liveness) (h : list sys_event) : Prop :=
  answered h (OProcStat pid) (λ stat, probe_pid (λ _, stat) pid starttime = live).

(** That process was seen dead. *)
Definition dead_room (id : string) (h : list sys_event) : Prop :=
  ∃ pid starttime, recorded id pid starttime h ∧ seen pid starttime Dead h.

Definition no_snapshot (id : string) (h : list sys_event) : Prop :=
  answered h OSnapshotIntents (λ r, ∃ l, r = Ok l ∧ find_first (for_base id) l = None).

(** The intent of a restore that is not running. *)
Definition dead_restore (i : RestoreIntent) (h : list sys_event) : Prop :=
  answered h ORestoreIntents (λ r, ∃ l, r = Ok l ∧ i ∈ l) ∧
  match ri_pid i with None => True | Some pid => seen pid (ri_pid_starttime i) Dead h end.

(** A call a room's own teardown may make at this point, for its own directories,
    claim, lease and network. *)
Definition touches (id : string) (h : list sys_event) (op : sysop) : Prop :=
  (∃ dir jail socket slot, reap_paths home config id = Ok (dir, jail, socket) ∧
     (∀ s, slot = Some s → sl_room_id s = id) ∧ may_reap show_path dir jail socket slot h op) ∨
  ∃ dir jail socket state snapshot index clone, teardown_paths home config id = Ok (dir, jail, socket, state) ∧
    may_finish show_path dir jail socket state id snapshot index clone h op.

#[local] Instance recorded_mono id pid st : Monotone (recorded id pid st). Proof. unfold recorded. apply _. Qed.
#[local] Instance seen_mono pid st live : Monotone (seen pid st live). Proof. unfold seen. apply _. Qed.
#[local] Instance dead_room_mono id : Monotone (dead_room id). Proof. unfold dead_room. apply _. Qed.
#[local] Instance no_snapshot_mono id : Monotone (no_snapshot id). Proof. unfold no_snapshot. apply _. Qed.
#[local] Instance dead_restore_mono i : Monotone (dead_restore i). Proof. unfold dead_restore. destruct (ri_pid i); apply _. Qed.

Lemma lock_held_more id h k : lock_held id h → (∀ e, e ∈ k → ev_op e ≠ OUnlock id) → lock_held id (h ++ k).
Proof using Type.
  intros (h1 & h2 & -> & H) Hk. exists h1, (h2 ++ k). split; [by rewrite <- (assoc_L (++)), app_comm_cons|].
  intros e [?|?]%elem_of_app; auto.
Qed.

Lemma lock_held_calls (ok : sysop → Prop) id h k :
  lock_held id h → all_calls ok k → (∀ op, ok op → op ≠ OUnlock id) → lock_held id (h ++ k).
Proof using Type. intros Hl Hk Hok. apply lock_held_more; [done|]. intros e He. by apply Hok, Hk. Qed.

Lemma lock_taken id h : lock_held id (h ++ [Event (OTryLock id) (Ok true)]).
Proof using Type. exists h, []. split; [done|]. by intros e ?%elem_of_nil. Qed.

(** ** Reading rooms *)

Lemma reads_probe pid st : only reads (room_probe pid st).
Proof using Type. unfold room_probe. destruct pid; only_walk. Qed.

Lemma reads_entry id : only reads (entry_for home config id).
Proof using Type. pose proof reads_probe. unfold entry_for, load_meta_soft. only_walk. Qed.

(** What an entry tells was read. *)
Definition entry_ok (e : RoomEntry) (h : list sys_event) : Prop :=
  (en_state e = OrphanedDead → dead_room (en_id e) h) ∧
  ∀ pid, en_pid e = Some pid → recorded (en_id e) pid (en_pid_starttime e) h.

#[local] Instance entry_ok_mono e : Monotone (entry_ok e). Proof. unfold entry_ok. apply _. Qed.

Context (R : list sys_event → sysop → Prop).
Context (R_looks : ∀ h op, looks op → R h op).

Lemma spec_entry_for id h :
  spec R (entry_for home config id) h (λ e h', en_id e = id ∧ entry_ok e h').
Proof using R_looks.
  unfold entry_for, load_meta_soft. destruct (room_dir home config id) as [dir|] eqn:Hdir; spec_down.
  - spec_call as read; [by apply R_looks|]. destruct read as [[m|]|e]; cbn [mbind option_bind fmap option_fmap option_map];
      [|cbn [room_probe]; spec_down; by repeat split..].
    destruct (Room.pid m) as [pid|] eqn:Hpid; [|cbn [room_probe]; spec_down; by repeat split].
    apply room_probe_spec; [by apply R_looks|]. intros stat. spec_down. split; [done|].
    assert (Hrec : ∀ k, recorded id pid (pid_starttime m) ((h ++ [Event (OReadMeta dir) (Ok (Some m))]) ++ k)).
    { intros k. exists dir, m. split_and!; [done..|]. by apply answered_l, answered_snoc. }
    split; [|by intros ? [= <-]]. cbn [en_state en_id]. intros Hst. exists pid, (pid_starttime m). split; [done|].
    apply answered_snoc. revert Hst. unfold classify. destruct (probe_pid _ _ _); [by destruct (keep m)|done|done].
  - cbn [mbind option_bind room_probe]. spec_down. by repeat split.
Qed.

Lemma insert_entry_elem e l x : x ∈ insert_entry e l → x = e ∨ x ∈ l.
Proof using Type.
  induction l as [|y l IH]; simpl; [by intros ?%list_elem_of_singleton; auto|].
  destruct (entry_lt e y); [intros [->|?]%elem_of_cons; auto|].
  intros [->|[->|?]%IH]%elem_of_cons; [right; by left|by left|right; by right].
Qed.

Lemma sort_entries_elem l x : x ∈ sort_entries l → x ∈ l.
Proof using Type.
  unfold sort_entries. assert (H : ∀ acc, x ∈ fold_left (λ l e, insert_entry e l) l acc → x ∈ l ∨ x ∈ acc).
  { induction l as [|y l IH]; intros acc; simpl; [by right|].
    intros [?|[->|?]%insert_entry_elem]%IH; [left; by right|left; by left|by right]. }
  intros [?|?%elem_of_nil]%H; done.
Qed.

Lemma spec_list_rooms h :
  spec R (list_rooms home config) h (λ r h', ∀ l e, r = Ok l → e ∈ l → is_valid_room_id (en_id e) = true ∧ entry_ok e h').
Proof using R_looks.
  unfold list_rooms. destruct (resolved_state_base home config) as [base|]; [|by intros ? ? [=]].
  spec_call as read; [by apply R_looks|].
  destruct read as [dirents|e]; [|case_decide; intros ? ? [= <-] Hin; by apply elem_of_nil in Hin].
  apply spec_try. eapply spec_mono.
  { apply (spec_try_each_all _ _ (λ _, True) (λ (o : option RoomEntry) h', ∀ e, o = Some e → is_valid_room_id (en_id e) = true ∧ entry_ok e h'));
      [done|].
    intros [d|e] h' _ _; cbn [list_one]; [|done]. destruct (is_valid_room_id (dirent_name d)) eqn:Hid; cbn [negb orb];
      [|by split; [done|intros b [= <-]]]. destruct (negb _); [by split; [done|intros b [= <-]]|]. spec_down. eapply spec_mono; [apply spec_entry_for|]. intros entry h2 [Heq Hok]. spec_down.
    split; [done|]. intros b [= <-] e [= <-]. by rewrite Heq. }
  intros [entries|e] h' [_ H']; [|done]. simpl. intros l e [= <-] He%sort_entries_elem.
  apply list_elem_of_omap in He as (o & Ho & ->). by eapply H'.
Qed.

(** ** Reaping a room *)

Lemma only_reap_room entry : only finish_op (reap_room show_path home config fuel entry).
Proof using Type.
  pose proof only_finish_teardown. unfold reap_room.
  assert (H1 : ∀ dir jail socket slot, only finish_op (reap_orphan show_path fuel config dir jail socket slot)).
  { intros. eapply only_weaken, teardown_finish. apply only_reap_orphan. }
  only_walk.
Qed.

Lemma spec_touches_finish id snapshot index clone h :
  spec (touches id) (finish_teardown show_path home config fuel id snapshot index clone) h (λ _ _, True).
Proof using Type.
  destruct (teardown_paths home config id) as [[[[dir jail] socket] state]|e] eqn:Hp.
  - eapply (spec_shift (may_finish show_path dir jail socket state id snapshot index clone) _ _ [] h);
      [by apply spec_finish_teardown| |done].
    intros k op H. right. eexists dir, jail, socket, state, _, _, _. split; [done|]. by apply may_finish_app.
  - unfold finish_teardown. by rewrite Hp.
Qed.

Lemma spec_touches_reap_room entry h : spec (touches (en_id entry)) (reap_room show_path home config fuel entry) h (λ _ _, True).
Proof using Type.
  assert (Hord : spec (touches (en_id entry))
    (try* paths := Ret (reap_paths home config (en_id entry)) in
     let '(room_dir, jail_instance_dir, socket) := paths in
     try* slot := Ret (slot_release_for home config entry) in
     pmap_err ReFirecracker (reap_orphan show_path fuel config room_dir jail_instance_dir socket slot)) h (λ _ _, True)).
  { spec_down. destruct (reap_paths home config (en_id entry)) as [[[dir jail] socket]|e] eqn:Hp; [|done].
    assert (Hs : ∀ slot, slot_release_for home config entry = Ok slot → ∀ s, slot = Some s → sl_room_id s = en_id entry).
    { unfold slot_release_for. destruct (en_slot entry); [|by intros ? [= <-]].
      destruct (resolved_state_base home config); simpl; [|done]. by intros ? [= <-] ? [= <-]. }
    spec_down. destruct (slot_release_for home config entry) as [slot|e]; [|done]. spec_down.
    eapply (spec_shift (may_reap show_path dir jail socket slot) _ _ h h (λ _ _, True)); [by apply spec_reap_orphan| |done].
    intros k op H. left. exists dir, jail, socket, slot. split_and!; [done|by apply Hs|done]. }
  unfold reap_room. destruct (en_snapshot_lineage entry) as [snapshot|]; [|exact Hord].
  destruct (en_slot entry) as [slot|] eqn:Hslot; [|exact Hord]. spec_down.
  apply spec_touches_finish.
Qed.

Lemma spec_reap_room entry h :
  (∀ k op, all_calls finish_op k → finish_op op → touches (en_id entry) (h ++ k) op → R (h ++ k) op) →
  spec R (reap_room show_path home config fuel entry) h (λ _ h', ∃ k, h' = h ++ k ∧ all_calls finish_op k).
Proof using Type.
  intros HR. eapply spec_mono; [eapply (spec_refine finish_op (touches (en_id entry)));
    [apply only_reap_room|apply spec_touches_reap_room|exact HR]|]. by intros r h' [_ H].
Qed.

(** The intents of the index, none for the base. *)
Lemma spec_pending_snapshot id h :
  spec R (pending_snapshot id) h (λ r h', (∃ x, h' = h ++ [Event OSnapshotIntents x]) ∧ (r = Ok None → no_snapshot id h')).
Proof using R_looks.
  unfold pending_snapshot. spec_down. spec_call as r; [by apply R_looks|].
  destruct r as [l|e]; simpl map_err; cbv iota; spec_down; (split; [by eexists|]); [|done].
  intros Hnone. apply answered_snoc. exists l. split; [done|]. by destruct (find_first (for_base id) l).
Qed.

End collect.

(** ** [rooms kill] *)

Section kill.
  Context (show_path : path → string) (home : option path) (config : RoomsConfig) (fuel : nat) (id : string).

(** The room is this invocation's alone, and is [pid] started at [starttime]. *)
Definition may_end (pid starttime : N) (h : list sys_event) : Prop :=
  is_valid_room_id id = true ∧ lock_held id h ∧ no_snapshot id h ∧ recorded home config id pid (Some starttime) h.

Definition kill_allows (h : list sys_event) (op : sysop) : Prop :=
  looks op ∨
  ∃ pid starttime, may_end pid starttime h ∧
    ((∃ signal, (signal = "TERM" ∨ signal = "KILL") ∧ op = ORun "kill" (signal_args pid signal) ∧
        observed pid (Some starttime) Alive h) ∨
     seen pid (Some starttime) Dead h ∧ touches show_path home config id h op).

Abbreviation R := kill_allows.

Lemma kill_looks h op : looks op → R h op.
Proof using Type. by left. Qed.

Lemma may_end_more pid st h k (ok : sysop → Prop) :
  may_end pid st h → all_calls ok k → (∀ op, ok op → op ≠ OUnlock id) → may_end pid st (h ++ k).
Proof using Type.
  intros (? & Hl & Hn & Hr) Hk Hok. split_and!; [done|by eapply lock_held_calls| |].
  - by apply (monotone (P := no_snapshot id)), Hn.
  - by apply (recorded_mono home config id pid (Some st)).
Qed.

(** Signals go to the process seen. *)
Lemma only_terminate pid st grace : only (λ op, op ≠ OUnlock id) (terminate_by_identity fuel pid st grace).
Proof using Type.
  assert (Hpoll : ∀ n deadline, only (λ op, op ≠ OUnlock id) (poll_until_dead n pid st deadline)).
  { induction n as [|n IH]; intros deadline; cbn [poll_until_dead]; unfold room_probe; only_walk. }
  unfold terminate_by_identity, sigkill_and_confirm, send_signal, room_probe. only_walk.
Qed.

Definition killed_ok (pid starttime : N) (o : KillSignalOutcome) (h : list sys_event) : Prop :=
  may_end pid starttime h ∧ ((o = Signaled ∨ o = AlreadyExited) → seen pid (Some starttime) Dead h).

Lemma observed_seen st live pid h : observed pid st live h → seen pid st live h.
Proof using Type. intros (h0 & stat & -> & H). by apply answered_snoc. Qed.

Lemma spec_kill_terminate pid st grace h :
  may_end pid st h → spec R (terminate_by_identity fuel pid (Some st) grace) h (killed_ok pid st).
Proof using Type.
  intros He. eapply spec_mono.
  { eapply (spec_refine (λ op, op ≠ OUnlock id) (λ h' op, looks op ∨ ∃ signal, (signal = "TERM" ∨ signal = "KILL") ∧
       op = ORun "kill" (signal_args pid signal) ∧ observed pid (Some st) Alive h') R _ _
       (λ o h', (o = Signaled ∨ o = AlreadyExited) → seen pid (Some st) Dead h')); [apply only_terminate| |].
    - apply (spec_terminate _ pid (Some st)); try (by left).
      + intros h' stat signal Hlive Hsig. right. exists signal. split; [naive_solver|]. split; [done|].
        do 2 apply observed_app. by exists [], stat.
      + intros o h' Ho Hdead. apply answered_r, observed_seen. destruct Hdead as [-> | ->]; apply Ho.
    - intros k op Hk Hop [Hl|(signal & Hs & Hop' & Ho)]; [by left|]. right. exists pid, st.
      split; [by eapply may_end_more|]. left. eauto. }
  intros o h' [Ho (k & -> & Hk)]. split; [by eapply may_end_more|done].
Qed.

Lemma spec_reap_after_kill entry reason pid st h :
  en_id entry = id → may_end pid st h → seen pid (Some st) Dead h →
  spec R (reap_after_kill show_path home config fuel entry reason) h (λ _ h', lock_held id h').
Proof using Type.
  intros Hid He Hs. unfold reap_after_kill. rewrite Hid. spec_down. destruct (reap_paths _ _ _); [|apply He]. spec_down.
  eapply spec_mono; [apply spec_reap_room|].
  - intros k op Hk Hop Ht. right. exists pid, st. split; [by eapply (may_end_more _ _ _ _ finish_op); [| |by intros []]|].
    right. split; [by apply (seen_mono pid (Some st) Dead)|by rewrite <- Hid].
  - intros r h' (k & -> & Hk). spec_down. eapply lock_held_calls; [apply He|exact Hk|by intros []].
Qed.

Lemma spec_kill_entry entry h :
  en_id entry = id → is_valid_room_id id = true → lock_held id h → no_snapshot id h → entry_ok home config entry h →
  spec R (kill_entry show_path home config fuel entry) h (λ _ h', lock_held id h').
Proof using Type.
  intros Hid Hv Hl Hn [Hdead Hrec].
  assert (Hlive : spec R (kill_live show_path home config fuel entry) h (λ _ h', lock_held id h')).
  { unfold kill_live. destruct (en_pid entry) as [pid|]; [|done]. destruct (en_pid_starttime entry) as [st|] eqn:Hst; [|done].
    assert (He : may_end pid st h) by (split_and!; [done..|]; rewrite <- Hid; by apply Hrec).
    spec_down. eapply spec_mono; [by apply spec_kill_terminate|]. intros o h' [He' Hs].
    destruct o; [by eapply spec_reap_after_kill; eauto|by eapply spec_reap_after_kill; eauto|apply He'..]. }
  unfold kill_entry. destruct (en_state entry); done.
Qed.

Lemma spec_kill_locked h :
  is_valid_room_id id = true → lock_held id h →
  spec R (kill_locked show_path home config fuel id) h (λ _ h', lock_held id h').
Proof using Type.
  intros Hv Hl. unfold kill_locked. spec_down.
  apply (spec_mono _ _ _ (λ o h', lock_held id h' ∧ ∀ entry, o = Some entry → en_id entry = id ∧ entry_ok home config entry h')).
  - unfold find_entry. destruct (room_dir home config id) as [dir|]; [|done]. spec_down. spec_call as m; [by left|].
    assert (Hl' : lock_held id (h ++ [Event (OLstat dir) m])) by (apply lock_held_more; [done|]; by intros e ->%list_elem_of_singleton).
    destruct (match m with Ok m => st_is_dir m | Err _ => false end); spec_down; [|done].
    eapply spec_mono; [apply (spec_refine reads R R); [apply reads_entry|apply (spec_entry_for home config R kill_looks)|done]|].
    intros entry h' [[Hid Hok] (k & -> & Hk)]. spec_down. split; [|by intros ? [= <-]].
    eapply lock_held_calls; [exact Hl'|exact Hk|by intros []].
  - intros entry h1 [Hl1 Hentry]. apply spec_try. eapply spec_mono; [apply spec_pending_snapshot, kill_looks|].
    intros [pending|e] h2 ((x & ->) & Hno); [|].
    2:{ apply lock_held_more; [done|]. by intros e' ->%list_elem_of_singleton. }
    assert (Hl2 : lock_held id (h1 ++ [Event OSnapshotIntents x])) by (apply lock_held_more; [done|]; by intros e ->%list_elem_of_singleton).
    destruct pending as [pending|]; [done|]. destruct entry as [entry|]; [|done]. destruct (Hentry _ eq_refl) as [Hid Hok].
    spec_down. eapply spec_mono; [apply spec_kill_entry; [done..|by apply Hno|by apply entry_ok_mono]|].
    by intros [out|e] h3 H3.
Qed.

Lemma spec_kill h : spec R (kill show_path home config fuel id) h (λ _ _, True).
Proof using Type.
  unfold kill. destruct (is_valid_room_id id) eqn:Hv; [|done]. cbn [negb].
  destruct (resolved_state_base home config); [|done]. spec_down. spec_call as held; [by left|].
  destruct held as [[]|e]; simpl map_err; cbv iota; cbn [negb]; [| |done].
  - unfold locked. spec_down. eapply spec_mono; [apply spec_kill_locked; [done|apply lock_taken]|].
    intros r h' Hl. spec_down. by spec_call as []; [left|].
  - spec_down. unfold find_entry. destruct (room_dir home config id); [|done]. spec_down. spec_call as m; [by left|].
    destruct (match m with Ok m => st_is_dir m | Err _ => false end); spec_down; [|done].
    by eapply spec_mono; [apply (spec_entry_for home config R kill_looks)|].
Qed.

End kill.

(** C9.  [rooms kill], whatever the host answers and wherever it stops.  Apart from
    looking, waiting and locking it does only two things, both for a valid room id,
    under the base's lock, with no snapshot transaction of the room indexed, and
    for the process the room's metadata names with its start time: it sends SIGTERM
    or SIGKILL to that process directly after seeing it alive, and, once it was seen
    dead, it makes the calls of that room's own teardown. *)
Theorem kill_verified show_path home config fuel id tr o :
  run (kill show_path home config fuel id) tr o → guarded (kill_allows show_path home config id) tr.
Proof. intros Hrun. by eapply spec_run in Hrun as [H _]; [|apply spec_kill]. Qed.

(** A host with one room that runs until it is killed. *)
Definition room_meta_host (h : list sys_event) (op : sysop) : ans op :=
  match op return ans op with
  | OReadDir _ => Ok [Ok {| dirent_name := "01hzzzzzzzzzzzzzzzzzzzzzzz"; dirent_is_dir := Ok true |}]
  | OLstat _ => Ok {| st_kind := KindDir; st_uid := 0; st_id := st_id idle_stat |}
  | OReadMeta _ => Ok (Some (RoomMeta_new "01hzzzzzzzzzzzzzzzzzzzzzzz" None (Some 7%N) (Some 9%N) false 0))
  | op => obedient_host h op
  end.

Lemma kill_verified_witness :
  let p := kill (join "/") (Some ["root"]) sample_config 101 "01hzzzzzzzzzzzzzzzzzzzzzzz" in
  let tr := snd (exec room_meta_host p []) in
  kills tr = [signal_args 7 "TERM"] ∧
  guarded (kill_allows (join "/") (Some ["root"]) sample_config "01hzzzzzzzzzzzzzzzzzzzzzzz") tr.
Proof.
  intros p tr. split; [vm_compute; reflexivity|].
  apply (kill_verified (join "/") (Some ["root"]) sample_config 101 "01hzzzzzzzzzzzzzzzzzzzzzzz" tr (fst (exec room_meta_host p []))).
  apply (exec_run_nil room_meta_host p).
Defined.

(** ** [rooms gc] *)

Section gc.
  Context (show_path : path → string) (home : option path) (config : RoomsConfig) (fuel : nat) (opts : GcOptions).

Abbreviation global := (should_reconcile_global_allocators opts = true).

(** The network of an unclaimed slot. *)
Definition sweeps (tap : string) (op : sysop) : Prop :=
  match op with
  | OEgressRemove t => t = tap
  | ORun program args => program = "ip" ∧ (args = link_show tap ∨ args = tuntap_del tap)
  | _ => False
  end.

(** The slot was found unclaimed, and nothing but its network was touched since. *)
Definition sweeping (index : N) (h : list sys_event) : Prop :=
  ∃ base h0 k, resolved_state_base home config = Some base ∧
    h = h0 ++ Event (OSlotUnclaimed base index) (Ok true) :: k ∧ all_calls (sweeps (slot_tap_name index)) k.

(** No snapshot transaction is indexed. *)
Definition no_snapshots (h : list sys_event) : Prop := answered h OSnapshotIntents (λ r, r = Ok []).

(** The dead claims of this base were reclaimed, and [taps] are the taps left. *)
Definition reclaimed (base : path) (taps : list N) (h : list sys_event) : Prop :=
  resolved_state_base home config = Some base ∧ no_snapshots h ∧
  answered h OOrphanedTaps (λ r, r = taps) ∧ answered h (OSlotReconcile base) (λ _, True).

#[local] Instance no_snapshots_mono : Monotone no_snapshots. Proof. unfold no_snapshots. apply _. Qed.
#[local] Instance reclaimed_mono base taps : Monotone (reclaimed base taps). Proof. unfold reclaimed. apply _. Qed.

Definition gc_allows (h : list sys_event) (op : sysop) : Prop :=
  looks op ∨
  gc_dry_run opts = false ∧
  match op with
  | OSlotReconcile base => global ∧ resolved_state_base home config = Some base ∧ no_snapshots h
  | OSlotUnclaimed base index => global ∧ ∃ taps, index ∈ taps ∧ reclaimed base taps h
  | OCloneReconcile base =>
      global ∧ resolved_state_base home config = Some base ∧ answered h ORestoreIntents (λ _, True)
  | op =>
      (global ∧ no_snapshots h ∧ ∃ index, sweeping index h ∧ sweeps (slot_tap_name index) op) ∨
      (∃ id, is_valid_room_id id = true ∧ in_scope opts id = true ∧ lock_held id h ∧ no_snapshot id h ∧
         dead_room home config id h ∧ touches show_path home config id h op) ∨
      ∃ i, in_scope opts (ri_room_id i) = true ∧ dead_restore i h ∧ touches show_path home config (ri_room_id i) h op
  end.

Abbreviation R := gc_allows.

Lemma gc_looks h op : looks op → R h op.
Proof using Type. by left. Qed.

(** A call of a teardown, for a room that may be reaped. *)
Lemma gc_touches h op :
  gc_dry_run opts = false → finish_op op →
  (∃ id, is_valid_room_id id = true ∧ in_scope opts id = true ∧ lock_held id h ∧ no_snapshot id h ∧
     dead_room home config id h ∧ touches show_path home config id h op) ∨
  (∃ i, in_scope opts (ri_room_id i) = true ∧ dead_restore i h ∧ touches show_path home config (ri_room_id i) h op) →
  R h op.
Proof using Type. intros Hd Hop H. right. split; [done|]. destruct op; try done; by right. Qed.

Lemma spec_reap_entry entry h :
  is_valid_room_id (en_id entry) = true → in_scope opts (en_id entry) = true → entry_ok home config entry h →
  spec R (reap_entry show_path home config fuel entry (gc_dry_run opts)) h
    (λ r _, ∀ out, r = Ok out → gc_dry_run opts = true → go_reaped out = false).
Proof using Type.
  intros Hv Hsc Hok. unfold reap_entry. spec_call as held; [by left|].
  destruct held as [[]|e]; simpl map_err; cbv iota; cbn [negb]; [|by intros ? [= <-]|done].
  unfold locked. spec_down.
  apply (spec_mono _ _ _ (λ r _, ∀ out, r = Ok out → gc_dry_run opts = true → go_reaped out = false)).
  2:{ intros r h' Hr. spec_down. by spec_call as []; [left|]. }
  unfold reap_locked. apply spec_try. eapply spec_mono; [apply spec_pending_snapshot, gc_looks|].
  intros [pending|e] h1 ((x & ->) & Hno); [|done]. destruct pending as [pending|]; [by spec_down; intros ? [= <-]|].
  destruct (is_reapable (en_state entry)) eqn:Hreap; cbn [negb]; [|by spec_down; intros ? [= <-]].
  spec_down. destruct (reap_paths home config (en_id entry)); [|done].
  destruct (gc_dry_run opts) eqn:Hd; [by spec_down; intros ? [= <-]|].
  set (h2 := (h ++ [Event (OTryLock (en_id entry)) (Ok true)]) ++ [Event OSnapshotIntents x]).
  assert (Hl : lock_held (en_id entry) h2) by (apply lock_held_more; [apply lock_taken|]; by intros e ->%list_elem_of_singleton).
  assert (Hdead : dead_room home config (en_id entry) h2).
  { unfold h2. rewrite <- (assoc_L (++)). apply (dead_room_mono home config (en_id entry)), Hok.
    destruct (en_state entry); done. }
  spec_down. eapply spec_mono; [apply spec_reap_room|].
  - intros k op Hk Hop Ht. apply gc_touches; [done..|]. left. exists (en_id entry). split_and!; [done|done| | | |done].
    + eapply lock_held_calls; [exact Hl|exact Hk|by intros []].
    + apply (no_snapshot_mono (en_id entry)). by apply Hno.
    + by apply (dead_room_mono home config (en_id entry)).
  - intros [[]|e] h' _; [|done]. spec_down. by intros ? [= <-].
Qed.

Lemma spec_sweep base index taps h :
  global → gc_dry_run opts = false → index ∈ taps → reclaimed base taps h →
  spec R (slot_cleanup_if_unclaimed base index (pmap_err fc_message (remove_egress_and_tap (slot_tap_name index)))) h
    (λ _, reclaimed base taps).
Proof using Type.
  intros Hg Hd Hin Hr. pose proof Hr as (Hbase & _).
  eapply spec_mono; [apply (spec_keep _ _ _ (reclaimed base taps) (λ _ _, True)); [done|]|by intros ? ? []].
  unfold slot_cleanup_if_unclaimed. spec_call as u; [right; split; [done|]; split; [done|]; by exists taps|].
  destruct u as [[]|e]; cbv iota; spec_down; [|done..].
  eapply (only_spec (sweeps (slot_tap_name index))).
  - unfold remove_egress_and_tap, delete_tap_checked. only_walk; (split; [|done]); simpl; auto.
  - intros k op Hk Hop. right. split; [done|].
    assert (Hn : no_snapshots ((h ++ [Event (OSlotUnclaimed base index) (Ok true)]) ++ k)) by (rewrite <- (assoc_L (++)); apply no_snapshots_mono, Hr).
    assert (Hs : sweeping index ((h ++ [Event (OSlotUnclaimed base index) (Ok true)]) ++ k))
      by (exists base, h, k; by rewrite <- (assoc_L (++))).
    destruct op; try done; left; eauto.
  - intros [[]|e] k _; simpl map_err; cbv iota; by spec_down.
Qed.

Lemma spec_gc_restore i h :
  gc_dry_run opts = false → answered h ORestoreIntents (λ r, ∃ l, r = Ok l ∧ i ∈ l) →
  spec R (gc_reconcile_intent show_path home config fuel (gc_only opts) i) h (λ _ _, True).
Proof using Type.
  intros Hd Ha. unfold gc_reconcile_intent.
  destruct (match gc_only opts with Some only => negb (only =? ri_room_id i)%string | None => false end) eqn:Hsc; [done|].
  assert (Hscope : in_scope opts (ri_room_id i) = true) by (unfold in_scope; destruct (gc_only opts); [by apply negb_false_iff|done]).
  assert (Hfin : ∀ h', dead_restore i h' → spec R (finish_intent show_path home config fuel i) h' (λ _ _, True)).
  { intros h' Hdead. unfold finish_intent. eapply spec_mono; [eapply (spec_refine finish_op (touches show_path home config (ri_room_id i)));
      [apply only_finish_teardown|apply spec_touches_finish|]|done].
    intros k op Hk Hop Ht. apply gc_touches; [done..|]. right. exists i. split_and!; [done| |done]. by apply (dead_restore_mono i). }
  spec_down. unfold reconcile_one, dead_restore in *. destruct (ri_pid i) as [pid|] eqn:Hpid.
  - apply spec_bind, room_probe_spec; [by left|]. intros stat. destruct (probe_pid _ _ _) eqn:Hlive; [done| |done].
    apply spec_try. eapply spec_mono; [apply Hfin|by intros [] ? _].
    split; [by apply answered_l|by apply answered_snoc].
  - apply spec_try. eapply spec_mono; [by apply Hfin|by intros [] ? _].
Qed.

Lemma spec_gc h :
  spec R (gc show_path home config fuel opts) h
    (λ r _, ∀ report, r = Ok report → gc_dry_run opts = true → Forall (λ out, go_reaped out = false) (gr_outcomes report)).
Proof using Type.
  unfold gc. spec_down. destruct (match gc_only opts with Some _ => _ | None => _ end) as [[]|e]; [|done]. spec_down.
  spec_call as intents; [by left|]. destruct intents as [intents|e]; simpl map_err; cbv iota; [|done]. spec_down.
  apply (spec_mono _ _ _ (λ _ _, True)).
  { destruct (should_reconcile_global_allocators opts) eqn:Hg; [|done].
    destruct (bool_decide (length (pending_summary <$> intents) = 0)) eqn:Hz; [|done]. cbn [andb].
    assert (Hd : gc_dry_run opts = false) by (unfold should_reconcile_global_allocators in Hg; by destruct (gc_dry_run opts)).
    assert (intents = []) as -> by (apply bool_decide_eq_true in Hz; by destruct intents).
    unfold reconcile_leaked_slots, reconcile_leaked_slots_with. spec_down. spec_call as taps; [by left|].
    destruct (resolved_state_base home config) as [base|] eqn:Hbase; [|done]. spec_down.
    assert (Ha : no_snapshots ((h ++ [Event OSnapshotIntents (Ok [])]) ++ [Event OOrphanedTaps taps]))
      by (by apply answered_l, answered_snoc).
    spec_call as rec; [by right; split_and!|]. spec_down.
    eapply spec_mono; [apply (spec_for_each_all _ _ (reclaimed base taps) (λ _ _, True))|done].
    - split_and!; [done|by apply no_snapshots_mono|by apply answered_l, answered_snoc|by apply answered_snoc].
    - intros index h' Hin Hr. eapply spec_mono; [by apply (spec_sweep base index taps)|by intros ? ? ?]. }
  intros _ h1 _. apply spec_try. eapply spec_mono; [apply spec_list_rooms, gc_looks|].
  intros [rooms|e] h2 Hrooms; [|done]. apply spec_bind.
  set (mine := List.filter _ rooms). set (P := λ (out : GcOutcome) (_ : list sys_event), gc_dry_run opts = true → go_reaped out = false).
  eapply spec_mono; [apply (spec_for_each_all _ _ (λ h, ∀ e, e ∈ rooms → is_valid_room_id (en_id e) = true ∧ entry_ok home config e h) P)|].
  { by intros e He; apply (Hrooms rooms e). }
  { intros e h' He%list_elem_of_In%List.filter_In HI. destruct He as [He%list_elem_of_In Hsc]. destruct (HI e He) as [Hv Hok].
    unfold gc_entry. spec_down.
    eapply spec_mono; [apply (spec_keep _ _ _ (λ h, ∀ e, e ∈ rooms → is_valid_room_id (en_id e) = true ∧ entry_ok home config e h));
      [exact HI|by apply spec_reap_entry]|].
    intros r h'' [HI' Hr]. spec_down. split; [done|]. intros Hd. destruct r as [out|err]; [by apply Hr|done]. }
  intros outs h3 [_ Houts]. apply spec_try.
  apply (spec_mono _ _ _ (λ r h', ∀ l, r = Ok l →
    (gc_dry_run opts = true → Forall (λ out, go_reaped out = false) l) ∧ (gc_dry_run opts = false → answered h' ORestoreIntents (λ _, True)))).
  { unfold gc_restores. destruct (gc_dry_run opts) eqn:Hd.
    - spec_call as l; [by left|]. destruct l as [l|e]; simpl map_err; cbv iota; [|done]. spec_down. intros ? [= <-]. split; [|done].
      intros _. apply Forall_fmap, Forall_true. done.
    - unfold gc_reconcile. spec_down. spec_call as l; [by left|]. destruct l as [l|e]; spec_down.
      2:{ intros ? [= <-]. split; [done|]. intros _. by apply answered_snoc. }
      eapply spec_mono; [apply (spec_for_each_all _ _ (λ h, answered h ORestoreIntents (λ r, r = Ok l)) (λ _ _, True)); [by apply answered_snoc|]|].
      { intros i h' Hi Ha. eapply spec_mono; [apply (spec_keep _ _ _ (λ h, answered h ORestoreIntents (λ r, r = Ok l)) (λ _ _, True)); [done|]|by intros ? ? []].
        apply spec_gc_restore; [done|]. destruct Ha as (x & Hx & ->). exists (Ok l). eauto. }
      intros rs h' [Ha _]. spec_down. intros ? [= <-]. split; [done|]. intros _. destruct Ha as (x & Hx & _). by exists x. }
  intros [rest|e] h4 Hrest; [|done]. destruct (Hrest _ eq_refl) as [Hreaped Hread]. apply spec_bind.
  apply (spec_mono _ _ _ (λ _ _, True)).
  { destruct (should_reconcile_global_allocators opts) eqn:Hg; [|done].
    assert (Hd : gc_dry_run opts = false) by (unfold should_reconcile_global_allocators in Hg; by destruct (gc_dry_run opts)).
    unfold reconcile_leaked_clonenets. destruct (resolved_state_base home config) eqn:Hbase; [|done].
    spec_call as rec; [|done]. right. split_and!; [done..|by apply Hread]. }
  intros _ h5 _. spec_down. intros report [= <-] Hd. cbn [gr_outcomes]. apply Forall_app. split.
  { apply Forall_forall. intros out Hout. by apply Houts. }
  apply Forall_app. split; [|by apply Hreaped]. unfold protected_rest. apply Forall_fmap, Forall_true. done.
Qed.

End gc.

(** C10.  [rooms gc], whatever the host answers and wherever it stops.  On a dry run
    it only looks and locks, and reports nothing as reaped.  Otherwise it destroys
    five kinds of things and nothing else.  In an unscoped run with no snapshot
    transaction indexed, whatever the slot allocator's own reconciliation of this
    state base reclaims, and after it the network of a slot whose tap was listed as
    left over, directly after that slot was found unclaimed again.  The directories,
    claim, lease and network of a room in scope with a valid id, under the base's
    lock, with no snapshot transaction of its own indexed, and whose recorded process
    was seen dead; and those of a restore in scope whose intent names no process or
    one that was seen dead, for which no base is locked.  Each of these two only
    through calls of that room's own teardown, at the points where its order allows
    them.  Last, in an unscoped run, once the restores' intents were looked at,
    whatever the clone networks' reconciliation of this state base reclaims. *)
Theorem gc_reaps_the_dead show_path home config fuel opts tr o :
  run (gc show_path home config fuel opts) tr o →
  guarded (gc_allows show_path home config opts) tr ∧
  ∀ report, o = Some (Ok report) → gc_dry_run opts = true → Forall (λ out, go_reaped out = false) (gr_outcomes report).
Proof.
  intros Hrun. eapply spec_run in Hrun as [Hg H]; [|apply spec_gc]. split; [exact Hg|].
  intros report ->. by apply (H _ eq_refl).
Qed.

(** A host with one room, dead. *)
Definition dead_room_host (h : list sys_event) (op : sysop) : ans op :=
  match op return ans op with
  | OProcStat _ => StatNotFound
  | op => room_meta_host h op
  end.

Lemma gc_reaps_the_dead_witness :
  let collect dry := gc (join "/") (Some ["root"]) sample_config 10 {| gc_dry_run := dry; gc_only := None |} in
  let reaped dry := match fst (exec dead_room_host (collect dry) []) with
                    | Some (Ok report) => Some (go_reaped <$> gr_outcomes report) | _ => None end in
  reaped false = Some [true] ∧ reaped true = Some [false] ∧
  guarded (gc_allows (join "/") (Some ["root"]) sample_config {| gc_dry_run := false; gc_only := None |})
    (snd (exec dead_room_host (collect false) [])).
Proof.
  intros collect reaped. split; [vm_compute; reflexivity|]. split; [vm_compute; reflexivity|].
  apply (gc_reaps_the_dead (join "/") (Some ["root"]) sample_config 10 {| gc_dry_run := false; gc_only := None |} _
    (fst (exec dead_room_host (collect false) []))).
  apply (exec_run_nil dead_room_host (collect false)).
Defined.
