(* ===== verification/SnapshotExec.v ===== *)
(** * SnapshotExec: the driver of snapshot transactions ([snapshot_exec.rs])

    From the admission of a base, through the durable boundaries of its
    transaction, to the published and sealed snapshot; recovery and abort.  The
    index itself is [Intents], the policy [Snapshot], the receipts a restore
    reads [RestoreSource].  JSON and SHA-256 are parameters. *)

From S2P Require Import Prelude RStr Fs Room Slot Host CloneRoutes Config Snapshot Intents Prog Sys Process Teardown InodeSeal Images Launch RestoreLaunch RestoreSource Registry.
From stdpp Require Import options.

Record SnapshotResult := {
  sn_snapshot_id : string;
  sn_directory : path;
  sn_base_room : string;
  sn_slot : N;
  sn_guest_ip : N;
  sn_provenance : Provenance;
  sn_toolstore_sha256 : option string;
  sn_base_repo_sha : option string
}.

Record RecoveryReport := {
  rc_pending : list PendingSnapshot;
  rc_completed : option SnapshotResult
}.

(** [str::strip_suffix]. *)
Definition strip_suffix (suffix s : string) : option string :=
  let n := len s - len suffix in
  if (len suffix <=? len s)%nat && (String.substring n (len suffix) s =? suffix)%string
  then Some (String.substring 0 n s) else None.

(** [Path::file_name] and [Path::with_file_name]. *)
Definition file_name (p : path) : option string := last p.
Definition with_file_name (p : path) (name : string) : path := path_join (removelast p) name.

Definition show_opt_Provenance (p : option Provenance) : string :=
  match p with Some p => "Some(" +:+ show_Provenance p +:+ ")" | None => "None" end.

Section snapshot_exec.
  Variable show_path : path → string.
  Variable resolve : string → path.
  Variable show_secs : N → string.
  Variable show_json : json → result string string.
  Variable immutable_flag : N.
  Variable sha256 : string → string.
  (** [serde_json] on metadata and on receipts. *)
  Variable parse_meta : string → result string SnapshotMeta.
  Variable parse_receipt : string → result string SnapshotAttestation.
  Variable show_receipt : SnapshotAttestation → result string string.
  Variable home : option path.
  Variable config : RoomsConfig.
  Variable fuel : nat.

(** ** Small steps *)

Definition set_dir_private_call (p : path) : sys (result string unit) := any (call (OSetMode p 448)).
Definition sync_dir (p : path) : sys (result string unit) := any (call (OSyncDir p)).

Definition set_owner_private (p : path) (uid gid : N) : sys (result string unit) :=
  try* _ := any (call (OChown p uid gid)) in
  any (call (OSetMode p 384)).

Definition ensure_regular_nonempty (p : path) : sys (result string unit) :=
  try* meta := any (call (OLstat p)) in
  if negb (st_is_file meta) || (st_len meta =? 0)%N then
    Ret (Err ("snapshot artifact is missing, empty, or not regular: " +:+ show_path p))
  else Ret (Ok ()).

Definition validate_collected (i : SnapshotIntent) : sys (result string unit) :=
  try* _ := ensure_regular_nonempty (si_host_vmstate i) in
  ensure_regular_nonempty (si_host_mem i).

Definition pinned_process_identity (meta : RoomMeta) : result string (N * N) :=
  let? pid := ok_or (pid meta) "base has no recorded process id; refusing to signal" in
  let? starttime := ok_or (pid_starttime meta)
    "base process has no pinned start time; refusing to signal a potentially reused pid" in
  Ok (pid, starttime).

(** [paths.into_iter().any(...)] over [std::fs::metadata]. *)
Fixpoint any_nonempty (paths : list path) : sys bool :=
  match paths with
  | [] => Ret false
  | p :: paths =>
      let* meta := call (OStat p) in
      if (match meta with Ok meta => (0 <? st_len meta)%N | Err _ => false end) then Ret true else any_nonempty paths
  end.

Definition any_artifact_nonempty (i : SnapshotIntent) : sys bool :=
  any_nonempty [si_host_vmstate i; si_host_mem i; si_jail_vmstate i; si_jail_mem i].

(** The entries up to the first that names an open connection. *)
Fixpoint active_vsock_in (entries : list (result io_error dirent)) : result string bool :=
  match entries with
  | [] => Ok false
  | Err e :: _ => Err (message e)
  | Ok d :: entries => if starts_with (dirent_name d) (UDS_NAME +:+ "_") then Ok true else active_vsock_in entries
  end.

Definition active_vsock (jail_root : path) : sys (result string bool) :=
  try* entries := any (call (OReadDir jail_root)) in Ret (active_vsock_in entries).

Definition capture_file (file : handle) : sys (result string ImmutableFileIdentity) :=
  try* meta := any (call (OFstat file)) in Ret (Ok (st_id meta)).

Definition capture (p : path) : sys (result string ImmutableFileIdentity) :=
  try* meta := any (call (OLstat p)) in Ret (Ok (st_id meta)).

Definition advance_to (i : SnapshotIntent) (b : Boundary) : sys (result string SnapshotIntent) :=
  let i := set_boundary b i in
  try* _ := call (OWriteIntent i) in Ret (Ok i).

(** ** The output directory *)

(** The missing ancestors of a path and itself, nearest first. *)
Fixpoint missing_tree (rpath : list string) : sys (result string (list path)) :=
  let* here := call (OExists (rev rpath)) in
  if here : bool then Ret (Ok []) else
  match rpath with
  | [] => Ret (Err "snapshot output has no existing ancestor")
  | _ :: rest => try* missing := missing_tree rest in Ret (Ok (rev rpath :: missing))
  end.

Definition create_output_tree (p : path) : sys (result string unit) :=
  try* missing := missing_tree (rev p) in
  try* _ := ptry_each (λ dir, any (call (OCreateDir dir))) (rev missing) in
  try* _ := set_dir_private_call p in
  try* _ := ptry_each (λ dir, try* parent := Ret (ok_or (parent dir) "snapshot output ancestor has no parent") in
                              sync_dir parent) missing in
  sync_dir p.

Definition prepare_output (p : path) : sys (result string unit) :=
  let* here := call (OExists p) in
  if here : bool then
    try* meta := any (call (OLstat p)) in
    if negb (st_is_dir meta) then Ret (Err ("snapshot output is not a directory: " +:+ show_path p)) else
    try* entries := any (call (OReadDir p)) in
    if negb (bool_decide (entries = [])) then
      Ret (Err ("refusing unrelated non-empty snapshot output " +:+ show_path p))
    else set_dir_private_call p
  else create_output_tree p.

Definition ensure_unclaimed (out_dir : path) (base_id : string) : sys (result string unit) :=
  try* intents := call OSnapshotIntents in
  match find_first (λ i, bool_decide (si_out_dir i = out_dir) && negb (for_base base_id i)) intents with
  | None => Ret (Ok ())
  | Some i => Ret (Err ("snapshot output " +:+ show_path out_dir +:+ " is already claimed by transaction " +:+
                        si_snapshot_id i +:+ " for base " +:+ si_base_room_id i))
  end.

Definition validate_resume (i : SnapshotIntent) (explicit_out : option path) : sys (result string unit) :=
  match explicit_out with
  | None => Ret (Ok ())
  | Some explicit =>
      try* out := call (OCanonical explicit) in
      if bool_decide (out = si_out_dir i) then Ret (Ok ())
      else Ret (Err ("base already has snapshot transaction " +:+ si_snapshot_id i +:+ " at " +:+
                     show_path (si_out_dir i) +:+ "; requested output differs"))
  end.

(** ** The plan of a new transaction *)

Definition hash_sealed_toolstore (p : path) : sys (result string string) :=
  try* file := open_regular show_path immutable_flag p "attached toolstore" in
  try* before := capture_file file in
  try* digest := sha256_open_file sha256 file in
  try* after := capture_file file in
  if negb (bool_decide (before = after)) then
    Ret (Err ("attached toolstore " +:+ show_path p +:+ " changed while being hashed"))
  else
  try* _ := require_file show_path immutable_flag file p "attached toolstore" in
  Ret (ok_or (strip_prefix "sha256:" digest) "unexpected toolstore digest format").

Definition attached_toolstore (jail_root : path) (recorded : option string) : sys (result string (option string)) :=
  let p := path_join jail_root JAIL_TOOLSTORE in
  let* looked := call (OLstat p) in
  try* attached := Ret (match looked with
                        | Ok _ => Ok true
                        | Err e => if decide (kind e = NotFound) then Ok false else Err (message e)
                        end) in
  match attached, recorded with
  | false, None => Ret (Ok None)
  | false, Some _ => Ret (Err "base records an admitted toolstore but its jail has no toolstore attachment")
  | true, None => Ret (Err ("base jail has a toolstore attachment its room record never admitted: " +:+ show_path p))
  | true, Some expected =>
      try* digest := hash_sealed_toolstore p in
      if negb (digest =? expected)%string then
        Ret (Err ("attached toolstore " +:+ show_path p +:+ " differs from the digest base-create admitted"))
      else Ret (Ok (Some digest))
  end.

Definition snapshot_error_message (e : SnapshotError) : string :=
  match e with
  | NotNeutral found =>
      "refusing to snapshot a non-neutral room (provenance: " +:+ show_opt_Provenance found +:+
      "); only a sealed neutral base may be frozen"
  | ActiveVsock => "refusing to snapshot with an active vsock connection; it would be severed on restore"
  | MissingSlot => "refusing to snapshot a base with no claimed slot; restore needs the frozen slot/IP"
  end.

Definition build_intent (base : RoomMeta) (snapshot_id : string) (out_dir : path) : sys (result string SnapshotIntent) :=
  try* jail_root := Ret (ok_or (jail_root_dir home config (meta_id base)) "cannot resolve jail root") in
  let rootfs := path_join jail_root "rootfs" in
  try* file := open_regular show_path immutable_flag rootfs "snapshot backing image" in
  try* active := active_vsock jail_root in
  try* source := capture_file file in
  try* hash := sha256_open_file sha256 file in
  try* after := capture_file file in
  if negb (bool_decide (source = after)) then
    Ret (Err ("snapshot backing inode " +:+ show_path rootfs +:+ " changed while being hashed"))
  else
  try* _ := require_file show_path immutable_flag file rootfs "snapshot backing image" in
  try* toolstore := attached_toolstore jail_root (toolstore_sha256 base) in
  try* version := firecracker_version config in
  let* now := call OUtcNow in
  let request := {| sr_out_dir := out_dir; sr_snapshot_id := snapshot_id; sr_fc_version := version;
                    sr_rootfs_hash := hash; sr_base_repo_sha := base_repo_sha base;
                    sr_toolstore_sha256 := toolstore; sr_active_vsock := active |} in
  try* p := Ret (map_err snapshot_error_message (plan base request now)) in
  Ret (Ok {| si_schema_version := INTENT_SCHEMA_VERSION; si_snapshot_id := snapshot_id;
             si_base_room_id := meta_id base; si_meta := sp_meta p; si_rootfs_source := Some source;
             si_out_dir := out_dir; si_host_vmstate := sp_host_vmstate p; si_host_mem := sp_host_mem p;
             si_jail_vmstate := path_join jail_root SNAPSHOT_VMSTATE_FILE;
             si_jail_mem := path_join jail_root SNAPSHOT_MEM_FILE;
             si_boundary := Pending; si_aborted := false |}).

Definition ensure_targets_absent (i : SnapshotIntent) : sys (result string unit) :=
  try* _ := ptry_each (λ target,
    let* meta := call (OLstat target) in
    match meta with
    | Err e => if decide (kind e = NotFound) then Ret (Ok ()) else Ret (Err (message e))
    | Ok _ => Ret (Err ("refusing pre-existing snapshot jail target " +:+ show_path target))
    end) [si_jail_vmstate i; si_jail_mem i] in
  Ret (Ok ()).

(** ** Metadata, seals and receipts *)

Definition ensure_snapshot_metadata (i : SnapshotIntent) : sys (result string unit) :=
  let p := path_join (si_out_dir i) SNAPSHOT_META_FILE in
  let* bytes := call (OReadText p) in
  match bytes with
  | Ok bytes =>
      try* observed := Ret (parse_meta bytes) in
      if bool_decide (observed = si_meta i) then Ret (Ok ())
      else Ret (Err ("published snapshot metadata " +:+ show_path p +:+ " disagrees with its transaction"))
  | Err e =>
      if decide (kind e = NotFound) then any (call (OWriteSnapshotMeta p (si_meta i))) else Ret (Err (message e))
  end.

Definition seal_snapshot (i : SnapshotIntent) : sys (result string unit) :=
  let meta := path_join (si_out_dir i) SNAPSHOT_META_FILE in
  try* _ := ensure_regular_nonempty meta in
  try* _ := ptry_each (λ '(p, label), seal show_path immutable_flag p label)
    [(si_host_vmstate i, "snapshot vmstate"); (si_host_mem i, "snapshot memory"); (meta, "snapshot metadata")] in
  seal show_path immutable_flag (si_out_dir i) "snapshot directory".

(** The receipt index: made, a real directory, private and durable. *)
Definition receipt_index (dir : path) : sys (result string unit) :=
  try* _ := any (call (OCreateDirAll dir)) in
  try* metadata := any (call (OLstat dir)) in
  if negb (st_is_dir metadata) then
    Ret (Err ("snapshot attestation index is not a real directory: " +:+ show_path dir))
  else
  try* _ := set_dir_private_call dir in
  try* state := Ret (exec_state_base home config) in
  sync_dir state.

Definition preflight_attestation_index (i : SnapshotIntent) : sys (result string unit) :=
  match si_rootfs_source i with
  | None => Ret (Ok ())
  | Some _ =>
      try* dir := Ret (attestation_dir home config) in
      try* _ := receipt_index dir in
      try* receipt := Ret (attestation_path home config (si_snapshot_id i)) in
      let* there := call (OLstat receipt) in
      try* _ := Ret (match there with
                     | Ok _ => Err ("snapshot attestation already exists for " +:+ si_snapshot_id i)
                     | Err e => if decide (kind e = NotFound) then Ok () else Err (message e)
                     end) in
      let probe := path_join dir ("." +:+ si_snapshot_id i +:+ ".preflight") in
      let* there := call (OLstat probe) in
      try* _ := match there with
                | Ok metadata =>
                    if st_is_file metadata then Ret (Ok ())
                    else Ret (Err ("snapshot attestation preflight is not a regular file: " +:+ show_path probe))
                | Err e =>
                    if decide (kind e = NotFound) then
                      try* file := any (call (OOpen probe OpenPrivateNew)) in
                      try* _ := any (call (OWriteAll file ("rooms snapshot attestation preflight" +:+ String nl ""))) in
                      try* _ := any (call (OSyncAll file)) in
                      sync_dir dir
                    else Ret (Err (message e))
                end in
      try* _ := preflight_output show_path immutable_flag probe in
      try* _ := any (call (ORemoveFile probe)) in
      sync_dir dir
  end.

Definition read_attestation (p : path) : sys (result string (option SnapshotAttestation)) :=
  let* metadata := call (OLstat p) in
  match metadata with
  | Err e => if decide (kind e = NotFound) then Ret (Ok None) else Ret (Err (message e))
  | Ok metadata =>
      if negb (st_is_file metadata) || (st_len metadata =? 0)%N then
        Ret (Err ("snapshot attestation is empty, symlinked, or not regular: " +:+ show_path p))
      else
      try* bytes := any (call (OReadText p)) in
      Ret (rmap Some (parse_receipt bytes))
  end.

(** Whether a name is one of this transaction's unpublished temporaries. *)
Definition abandoned_temp (snapshot_id name : string) : bool :=
  match strip_suffix ".tmp" name with
  | Some stem => starts_with stem ("." +:+ snapshot_id +:+ ".")
  | None => false
  end.

Definition remove_abandoned_attestation_temps (dir : path) (snapshot_id : string) : sys (result string unit) :=
  try* entries := any (call (OReadDir dir)) in
  try* removed := ptry_each (λ entry,
    try* d := Ret (map_err message entry) in
    if negb (abandoned_temp snapshot_id (dirent_name d)) then Ret (Ok false) else
    let p := path_join dir (dirent_name d) in
    try* _ := pmap_err (λ e, "remove abandoned snapshot attestation temp " +:+ show_path p +:+ ": " +:+ message e)
                (call (ORemoveFile p)) in
    Ret (Ok true)) entries in
  if existsb id removed then sync_dir dir else Ret (Ok ()).

Definition receipt_disagrees (p : path) : string :=
  "snapshot attestation " +:+ show_path p +:+ " disagrees with its publication transaction".

Definition ensure_attestation_file (dir p : path) (expected : SnapshotAttestation) : sys (result string unit) :=
  try* observed := read_attestation p in
  match observed with
  | Some observed => if bool_decide (observed = expected) then Ret (Ok ()) else Ret (Err (receipt_disagrees p))
  | None =>
      try* _ := remove_abandoned_attestation_temps dir (sm_snapshot_id (at_meta expected)) in
      try* bytes := Ret (show_receipt expected) in
      let* fresh := call OUlid in
      let tmp := path_join dir ("." +:+ sm_snapshot_id (at_meta expected) +:+ "." +:+ fresh +:+ ".tmp") in
      try* file := any (call (OOpen tmp OpenPrivateNew)) in
      try* _ := any (call (OWriteAll file bytes)) in
      try* _ := any (call (OSyncAll file)) in
      let* renamed := call (ORenameNoReplace tmp p) in
      try* _ := match renamed with
                | Ok _ => sync_dir dir
                | Err e =>
                    if decide (kind e = AlreadyExists) then
                      try* observed := read_attestation p in
                      try* observed := Ret (ok_or observed ("snapshot attestation " +:+ show_path p +:+
                                                            " disappeared during publication")) in
                      if bool_decide (observed = expected) then Ret (Ok ()) else
                      do* call (ORemoveFile tmp) in
                      Ret (Err (receipt_disagrees p))
                    else
                      do* call (ORemoveFile tmp) in
                      Ret (Err (message e))
                end in
      let* removed := call (ORemoveFile tmp) in
      match removed with
      | Ok _ => sync_dir dir
      | Err e => if decide (kind e = NotFound) then Ret (Ok ()) else Ret (Err (message e))
      end
  end.

Definition ensure_snapshot_attestation (i : SnapshotIntent) : sys (result string unit) :=
  match si_rootfs_source i with
  | None => Ret (Ok ())
  | Some rootfs_source =>
      let meta_path := path_join (si_out_dir i) SNAPSHOT_META_FILE in
      try* dir_source := capture (si_out_dir i) in
      try* meta_source := capture meta_path in
      let expected := {| at_schema_version := ATTESTATION_SCHEMA_VERSION; at_snapshot_dir := si_out_dir i;
                         at_snapshot_dir_source := dir_source; at_snapshot_meta_source := meta_source;
                         at_rootfs_source := rootfs_source; at_meta := si_meta i |} in
      try* dir := Ret (attestation_dir home config) in
      try* _ := receipt_index dir in
      try* p := Ret (attestation_path home config (si_snapshot_id i)) in
      try* _ := ensure_attestation_file dir p expected in
      try* _ := seal show_path immutable_flag p "snapshot attestation" in
      sync_dir dir
  end.

(** ** The pair of artifacts *)

Definition stage_target (uid gid : N) (target : path) : sys (result string unit) :=
  let* meta := call (OLstat target) in
  try* _ := match meta with
            | Ok meta =>
                if st_is_file meta && (st_len meta =? 0)%N then Ret (Ok ())
                else Ret (Err ("refusing non-empty or non-regular snapshot jail target " +:+ show_path target))
            | Err e =>
                if decide (kind e = NotFound) then
                  try* file := any (call (OOpen target OpenPrivateNew)) in
                  any (call (OSyncAll file))
                else Ret (Err (message e))
            end in
  set_owner_private target uid gid.

Definition stage_targets (i : SnapshotIntent) : sys (result string unit) :=
  try* ids := pmap_err fc_message lookup_firecracker_ids in
  try* _ := ptry_each (stage_target (fst ids) (snd ids)) [si_jail_vmstate i; si_jail_mem i] in
  try* parent := Ret (ok_or (parent (si_jail_vmstate i)) "jail target has no parent") in
  sync_dir parent.

Definition validate_staged_target (b : Boundary) (target : path) : sys (result string unit) :=
  try* meta := any (call (OLstat target)) in
  if negb (st_is_file meta) then Ret (Err "snapshot jail target is no longer a regular file") else
  if bool_decide (b = TargetsStaged) && negb (st_len meta =? 0)%N
  then Ret (Err "snapshot jail target changed before the create request") else Ret (Ok ()).

Definition validate_staged_targets (i : SnapshotIntent) : sys (result string unit) :=
  try* _ := ptry_each (validate_staged_target (si_boundary i)) [si_jail_vmstate i; si_jail_mem i] in
  Ret (Ok ()).

Definition copy_private (source target : path) (uid gid : N) : sys (result string unit) :=
  try* _ := ensure_regular_nonempty source in
  try* name := Ret (ok_or (file_name target) "snapshot target has no file name") in
  let tmp := with_file_name target ("." +:+ name +:+ ".tmp") in
  try* input := any (call (OOpen source OpenRead)) in
  try* output := any (call (OOpen tmp OpenPrivate)) in
  try* _ := any (call (OCopyFile input output)) in
  try* _ := set_owner_private tmp uid gid in
  try* _ := any (call (OSyncAll output)) in
  try* _ := any (call (ORename tmp target)) in
  try* parent := Ret (ok_or (parent target) "snapshot target has no parent") in
  sync_dir parent.

Definition collect_pair (i : SnapshotIntent) : sys (result string unit) :=
  try* ids := pmap_err fc_message lookup_firecracker_ids in
  try* _ := copy_private (si_jail_vmstate i) (si_host_vmstate i) (fst ids) (snd ids) in
  try* _ := copy_private (si_jail_mem i) (si_host_mem i) (fst ids) (snd ids) in
  try* _ := validate_collected i in
  sync_dir (si_out_dir i).

(** ** The freeze *)

Definition snapshot_ops : FcOp * FcOp :=
  (PauseVm, CreateFullSnapshot [SNAPSHOT_VMSTATE_FILE] [SNAPSHOT_MEM_FILE]).

Definition op_request (op : FcOp) : string * string * json :=
  match op with
  | PauseVm => ("PATCH", "/vm", JObject [("state", JString "Paused")])
  | CreateFullSnapshot snapshot_path mem_file_path =>
      ("PUT", "/snapshot/create",
       JObject [("snapshot_type", JString "Full"); ("snapshot_path", JString (show_path snapshot_path));
                ("mem_file_path", JString (show_path mem_file_path))])
  end.

Definition execute_op (socket : path) (op : FcOp) : sys (result string unit) :=
  let '(method, endpoint, body) := op_request op in
  if (method =? "PATCH")%string then
    pmap_err fc_message (api_patch show_path show_secs show_json config (@uncancelled) socket endpoint body)
  else if (method =? "PUT")%string then
    pmap_err fc_message (api_put show_path show_secs show_json config (@uncancelled) socket endpoint body)
  else Ret (Err ("unsupported Firecracker API method " +:+ method)).

Definition resume_vm (socket : path) : sys (result FirecrackerError unit) :=
  api_patch show_path show_secs show_json config (@uncancelled) socket "/vm" (JObject [("state", JString "Resumed")]).

Definition before (i : SnapshotIntent) (b : Boundary) : bool := (boundary_rank (si_boundary i) <? boundary_rank b)%nat.

Definition execute_and_collect (i : SnapshotIntent) : sys (result string SnapshotIntent) :=
  try* _ := validate_staged_targets i in
  try* socket := Ret (ok_or (jail_socket home config (si_base_room_id i)) "cannot resolve Firecracker socket") in
  let '(pause, create) := snapshot_ops in
  try* i := (if before i Paused then
               let* paused := execute_op socket pause in
               match paused with
               | Err error => do* resume_vm socket in Ret (Err error)
               | Ok _ => advance_to i Paused
               end
             else Ret (Ok i)) in
  try* _ := execute_op socket create in
  try* _ := collect_pair i in
  advance_to i Collected.

(** ** Giving the slot and the base up *)

Definition lost_slot : string := "snapshot plan lost its slot".

Definition reserve_slot (i : SnapshotIntent) : sys (result string unit) :=
  try* state := Ret (exec_state_base home config) in
  try* index := Ret (ok_or (sm_slot_index (si_meta i)) lost_slot) in
  try* reserved := pmap_err show_SlotError (call (OSlotReserve state index (si_snapshot_id i) (si_base_room_id i))) in
  match reserved with
  | Transferred | AlreadyReserved => Ret (Ok ())
  | NotOwned => Ret (Err ("base no longer owns slot " +:+ show_N index +:+ "; preserving snapshot intent"))
  end.

Definition terminate_pinned (meta : RoomMeta) (uncertain survived : string) : sys (result string unit) :=
  try* identity := Ret (pinned_process_identity meta) in
  let* out := terminate_by_identity fuel (fst identity) (Some (snd identity)) (cleanup_grace config) in
  match out with
  | Signaled | AlreadyExited => Ret (Ok ())
  | Indeterminate => Ret (Err uncertain)
  | Survived => Ret (Err survived)
  end.

Definition reap_base (i : SnapshotIntent) : sys (result string unit) :=
  try* room := Ret (ok_or (room_dir home config (si_base_room_id i)) "cannot resolve room directory") in
  try* jail := Ret (ok_or (jail_instance_dir home config (si_base_room_id i)) "cannot resolve jail directory") in
  try* socket := Ret (ok_or (jail_socket home config (si_base_room_id i)) "cannot resolve socket") in
  try* read := any (call (OReadMeta room)) in
  try* _ := match read with
            | Some meta =>
                terminate_pinned meta "base process identity became uncertain; preserving reservation"
                  "base process survived termination; preserving reservation"
            | None => Ret (Ok ())
            end in
  try* index := Ret (ok_or (sm_slot_index (si_meta i)) lost_slot) in
  pmap_err fc_message (reap_reserved_base show_path fuel config room jail socket ("tap-fc" +:+ show_N index)).

Definition base_is_conclusively_dead (i : SnapshotIntent) : sys (result string bool) :=
  try* room := Ret (ok_or (room_dir home config (si_base_room_id i)) "cannot resolve room dir") in
  try* read := any (call (OReadMeta room)) in
  match read with
  | None => Ret (Ok true)
  | Some meta =>
      let* live := room_probe (pid meta) (pid_starttime meta) in
      Ret (Ok (bool_decide (live = Dead)))
  end.

Definition terminate_partial_base (i : SnapshotIntent) : sys (result string unit) :=
  try* room := Ret (ok_or (room_dir home config (si_base_room_id i)) "cannot resolve room dir") in
  try* read := any (call (OReadMeta room)) in
  match read with
  | None => Ret (Ok ())
  | Some meta =>
      terminate_pinned meta "partial snapshot base identity is indeterminate"
        "partial snapshot base survived termination"
  end.

(** ** Abort *)

(** Removing a file that may be gone already. *)
Definition remove_if_there (p : path) : sys (result string unit) :=
  let* removed := call (ORemoveFile p) in
  match removed with
  | Ok _ => Ret (Ok ())
  | Err e => if decide (kind e = NotFound) then Ret (Ok ()) else Ret (Err (message e))
  end.

Definition partial_outputs (i : SnapshotIntent) : list path :=
  [si_host_vmstate i; si_host_mem i; si_jail_vmstate i; si_jail_mem i;
   with_file_name (si_host_vmstate i) ("." +:+ SNAPSHOT_VMSTATE_FILE +:+ ".tmp");
   with_file_name (si_host_mem i) ("." +:+ SNAPSHOT_MEM_FILE +:+ ".tmp")].

Definition remove_partial_outputs (i : SnapshotIntent) : sys (result string unit) :=
  try* _ := ptry_each remove_if_there (partial_outputs i) in
  try* _ := sync_dir (si_out_dir i) in
  try* parent := Ret (ok_or (parent (si_jail_vmstate i)) "snapshot jail target has no parent") in
  sync_dir parent.

Definition record_abort (i : SnapshotIntent) : sys (result string unit) :=
  if si_aborted i then Ret (Ok ()) else call (OWriteIntent (set_aborted i)).

Definition abort_reap (i : SnapshotIntent) (index : N) : sys (result string unit) :=
  try* room := Ret (ok_or (room_dir home config (si_base_room_id i)) "cannot resolve room dir") in
  try* jail := Ret (ok_or (jail_instance_dir home config (si_base_room_id i)) "cannot resolve jail dir") in
  try* socket := Ret (ok_or (jail_socket home config (si_base_room_id i)) "cannot resolve socket") in
  try* _ := pmap_err fc_message
              (reap_reserved_base show_path fuel config room jail socket ("tap-fc" +:+ show_N index)) in
  try* _ := record_abort i in
  try* state := Ret (exec_state_base home config) in
  try* freed := pmap_err show_SlotError (call (OSlotFree state index (si_base_room_id i))) in
  match freed with
  | FrRemoved | FrAlreadyFree => Ret (Ok ())
  | FrAlreadyReassigned =>
      if si_aborted i then Ret (Ok ())
      else Ret (Err ("slot " +:+ show_N index +:+ " changed owner during partial-snapshot abort"))
  end.

Definition abort_dead_partial (i : SnapshotIntent) : sys (result string unit) :=
  if negb (before i Reserved) then Ret (Err "a reserved snapshot transaction is not abortable") else
  let* published := call (OExists (path_join (si_out_dir i) SNAPSHOT_META_FILE)) in
  if published : bool then Ret (Err "refusing abort: snapshot metadata is already published") else
  try* state := Ret (exec_state_base home config) in
  try* index := Ret (ok_or (sm_slot_index (si_meta i)) lost_slot) in
  try* mine := (if si_aborted i then Ret (Ok true)
                else pmap_err show_SlotError (call (OSlotClaimedBy state index (si_base_room_id i)))) in
  if negb mine then
    Ret (Err ("refusing abort: slot " +:+ show_N index +:+ " no longer holds the exact base claim"))
  else
  try* _ := remove_partial_outputs i in
  try* _ := abort_reap i index in
  call (OFinishIntent i).

(** ** The transaction *)

Definition result_from (i : SnapshotIntent) : result string SnapshotResult :=
  let? index := ok_or (sm_slot_index (si_meta i)) "snapshot metadata lost slot" in
  let? ip := ok_or (sm_guest_ip (si_meta i)) "snapshot metadata lost guest ip" in
  Ok {| sn_snapshot_id := si_snapshot_id i; sn_directory := si_out_dir i; sn_base_room := si_base_room_id i;
        sn_slot := index; sn_guest_ip := ip; sn_provenance := sm_provenance (si_meta i);
        sn_toolstore_sha256 := sm_toolstore_sha256 (si_meta i); sn_base_repo_sha := sm_base_repo_sha (si_meta i) |}.

(** The steps of [drive] before a boundary, skipped when it is behind. *)
Definition until (b : Boundary) (step : SnapshotIntent → sys (result string SnapshotIntent)) (i : SnapshotIntent)
    : sys (result string SnapshotIntent) :=
  if before i b then step i else Ret (Ok i).

Definition stage (i : SnapshotIntent) : sys (result string SnapshotIntent) :=
  try* _ := preflight_output show_path immutable_flag (si_out_dir i) in
  try* _ := preflight_attestation_index i in
  try* _ := stage_targets i in
  advance_to i TargetsStaged.

Definition give_slot (i : SnapshotIntent) : sys (result string SnapshotIntent) :=
  try* _ := reserve_slot i in advance_to i Reserved.

Definition give_base (i : SnapshotIntent) : sys (result string SnapshotIntent) :=
  try* _ := reap_base i in advance_to i Reaped.

Definition publish (i : SnapshotIntent) : sys (result string SnapshotIntent) :=
  try* _ := validate_collected i in
  try* _ := ensure_snapshot_metadata i in
  try* _ := seal_snapshot i in
  try* _ := ensure_snapshot_attestation i in
  advance_to i Published.

Definition drive (i : SnapshotIntent) : sys (result string SnapshotResult) :=
  if bool_decide (si_boundary i = Published) then
    try* _ := ensure_snapshot_attestation i in
    try* _ := call (OFinishIntent i) in
    Ret (result_from i)
  else
  try* i := until TargetsStaged stage i in
  try* i := until Collected execute_and_collect i in
  try* i := until Reserved give_slot i in
  try* i := until Reaped give_base i in
  try* i := publish i in
  try* _ := call (OFinishIntent i) in
  Ret (result_from i).

Definition base_busy (base_id : string) : string := "snapshot transaction for base " +:+ base_id +:+ " is busy".

(** [acquire_lock], the body, and the drop of the lock. *)
Definition with_base_lock {A : Type} (base_id : string) (p : sys (result string A)) : sys (result string A) :=
  try* held := call (OTryLock base_id) in
  if negb held then Ret (Err (base_busy base_id)) else locked base_id p.

Definition with_output_lock {A : Type} (out_dir : path) (p : sys (result string A)) : sys (result string A) :=
  try* held := call (OTryOutputLock out_dir) in
  if negb held then Ret (Err ("snapshot output " +:+ show_path out_dir +:+ " is busy in another transaction")) else
  let* r := p in do* call (OUnlockOutput out_dir) in Ret r.

(** A transaction of the base is already indexed. *)
Definition resume_indexed (explicit_out : option path) (i : SnapshotIntent) : sys (result string SnapshotResult) :=
  try* _ := validate_resume i explicit_out in
  let* recovery := (if si_aborted i then Ret true else
                    if bool_decide (si_boundary i = Paused) then any_artifact_nonempty i else Ret false) in
  if recovery : bool then
    Ret (Err ("snapshot transaction " +:+ si_snapshot_id i +:+ " for base " +:+ si_base_room_id i +:+
              " needs recovery; run `rooms snapshot-recover " +:+ si_snapshot_id i +:+ "`"))
  else drive i.

Definition begin (base_id : string) (base : RoomMeta) (snapshot_id : string) (out_dir : path) : sys (result string SnapshotResult) :=
  try* _ := ensure_unclaimed out_dir base_id in
  try* _ := prepare_output out_dir in
  try* canonical := any (call (OCanonicalize out_dir)) in
  if negb (bool_decide (canonical = out_dir)) then
    Ret (Err "snapshot output changed while it was being prepared")
  else
  try* i := build_intent base snapshot_id out_dir in
  try* _ := ensure_targets_absent i in
  try* _ := call (OCreateIntent i) in
  drive i.

Definition create (base_id : string) (explicit_out : option path) : sys (result string SnapshotResult) :=
  if negb (is_valid_room_id base_id) then Ret (Err ("invalid room id: " +:+ base_id)) else
  try* state := Ret (exec_state_base home config) in
  with_base_lock base_id (
    try* intents := call OSnapshotIntents in
    match find_first (for_base base_id) intents with
    | Some i => resume_indexed explicit_out i
    | None =>
        try* room := Ret (ok_or (room_dir home config base_id) "cannot resolve room directory") in
        try* read := any (call (OReadMeta room)) in
        try* base := Ret (ok_or read ("no live room with id " +:+ base_id)) in
        if negb (RoomMeta_is_snapshottable base) then
          Ret (Err ("room " +:+ base_id +:+ " is not a sealed neutral base (provenance: " +:+
                    show_opt_Provenance (provenance base) +:+ ")"))
        else
        let* snapshot_id := call OUlid in
        try* out_dir := call (OResolveOutput state base_id snapshot_id explicit_out) in
        with_output_lock out_dir (begin base_id base snapshot_id out_dir)
    end).

(** What recovery does with a transaction, under its base's lock. *)
Definition recover_locked (snapshot_id : string) (i : SnapshotIntent) : sys (result string RecoveryReport) :=
  try* _ := (if bool_decide (si_boundary i = Pending) then preflight_output show_path immutable_flag (si_out_dir i)
             else Ret (Ok ())) in
  try* _ := (if before i Collected then
               let* ambiguous := (if bool_decide (si_boundary i = Paused) then any_artifact_nonempty i else Ret false) in
               try* _ := (if ambiguous : bool then terminate_partial_base i else Ret (Ok ())) in
               try* dead := (if ambiguous : bool then Ret (Ok true) else base_is_conclusively_dead i) in
               if dead : bool then
                 try* _ := abort_dead_partial i in
                 Ret (Err ("aborted unrecoverable partial snapshot " +:+ snapshot_id +:+
                           "; no complete artifact pair was durably recorded"))
               else Ret (Ok ())
             else Ret (Ok ())) in
  try* completed := drive i in
  Ret (Ok {| rc_pending := []; rc_completed := Some completed |}).

Definition recover (snapshot_id : option string) : sys (result string RecoveryReport) :=
  try* intents := call OSnapshotIntents in
  match snapshot_id with
  | None => Ret (Ok {| rc_pending := pending_summary <$> intents; rc_completed := None |})
  | Some snapshot_id =>
      try* i := Ret (ok_or (find_first (λ i, bool_decide (si_snapshot_id i = snapshot_id)) intents)
                       ("no pending snapshot transaction " +:+ snapshot_id)) in
      with_base_lock (si_base_room_id i) (recover_locked snapshot_id i)
  end.

End snapshot_exec.
