(* ===== verification/SnapshotOrder.v ===== *)
(** * SnapshotOrder: the order a snapshot transaction keeps

    What every run of [drive], [create] and [recover] does before what, over all
    answers of the host and every point it may stop at. *)

From S2P Require Import Prelude RStr Fs Room IndexedClaim Slot Host CloneRoutes Config Snapshot Intents Prog Sys Process Teardown InodeSeal Images Launch RestoreLaunch RestoreSource RestoreTeardown Registry Collect SnapshotExec.
From stdpp Require Import options.

Section snapshot_order.
  Context (show_path : path → string) (show_secs : N → string) (show_json : json → result string string)
    (imm : N) (sha256 : string → string) (parse_meta : string → result string SnapshotMeta)
    (parse_receipt : string → result string SnapshotAttestation) (show_receipt : SnapshotAttestation → result string string)
    (home : option path) (config : RoomsConfig) (fuel : nat).

(** ** Facts of a transaction *)

Section transaction.
  Context (i : SnapshotIntent).

Abbreviation base := (si_base_room_id i).
Abbreviation meta_path := (path_join (si_out_dir i) SNAPSHOT_META_FILE).

(** The transaction was at that boundary when it was read, or has been made
    durable there since. *)
Definition durable (b : Boundary) (h : list sys_event) : Prop :=
  si_boundary i = b ∨ answered h (OWriteIntent (set_boundary b i)) (λ r, r = Ok ()).

(** The arguments of a request to the base's API. *)
Definition asks (method endpoint : string) (body : json) (args : list string) : Prop :=
  ∃ socket text, jail_socket home config base = Some socket ∧ show_json body = Ok text ∧
    args !! 1 = Some (show_path socket) ∧ args !! 3 = Some method ∧
    args !! 4 = Some ("http://localhost" +:+ endpoint) ∧ args !! 8 = Some text.

Definition asks_op (op : FcOp) : list string → Prop :=
  let '(method, endpoint, body) := op_request show_path op in asks method endpoint body.

Definition asks_resume : list string → Prop := asks "PATCH" "/vm" (JObject [("state", JString "Resumed")]).

Definition accepted (request : list string → Prop) (h : list sys_event) : Prop :=
  ∃ args, request args ∧ answered h (ORunStatus "curl" args) (λ r, ∃ code o, r = Ok (code, o) ∧ success o = true).

Definition freeze : FcOp := CreateFullSnapshot [SNAPSHOT_VMSTATE_FILE] [SNAPSHOT_MEM_FILE].

(** The file was seen to be regular and not empty; was moved into place; was given
    to the jail's user; its directory entry is durable. *)
Definition whole (p : path) (h : list sys_event) : Prop :=
  answered h (OLstat p) (λ r, ∃ s, r = Ok s ∧ st_is_file s = true ∧ st_len s ≠ 0%N).
Definition placed (p : path) (h : list sys_event) : Prop := ∃ tmp, answered h (ORename tmp p) (λ r, r = Ok ()).
Definition handed (p : path) (h : list sys_event) : Prop := answered h (OSetMode p 384) (λ r, r = Ok ()).
Definition settled (p : path) (h : list sys_event) : Prop := answered h (OSyncDir p) (λ r, r = Ok ()).

(** The output directory was probed and can be sealed. *)
Definition sealable (h : list sys_event) : Prop :=
  ∃ h1 tr h2, h = h1 ++ tr ++ h2 ∧ run (preflight_output show_path imm (si_out_dir i)) tr (Some (Ok ())).

(** The metadata in the output is the transaction's. *)
Definition described (h : list sys_event) : Prop :=
  answered h (OReadText meta_path) (λ r, ∃ bytes, r = Ok bytes ∧ parse_meta bytes = Ok (si_meta i)) ∨
  answered h (OWriteSnapshotMeta meta_path (si_meta i)) (λ r, r = Ok ()).

Definition all_sealed (h : list sys_event) : Prop :=
  sealed_at imm (si_host_vmstate i) h ∧ sealed_at imm (si_host_mem i) h ∧ sealed_at imm meta_path h ∧
  sealed_at imm (si_out_dir i) h.

Definition receipted (h : list sys_event) : Prop :=
  is_Some (si_rootfs_source i) → ∃ p, attestation_path home config (si_snapshot_id i) = Ok p ∧ sealed_at imm p h.

Definition slot_is (index : N) : Prop := sm_slot_index (si_meta i) = Some index.

Definition reserved (h : list sys_event) : Prop :=
  ∃ state index, slot_is index ∧
    answered h (OSlotReserve state index (si_snapshot_id i) base) (λ r, r = Ok Transferred ∨ r = Ok AlreadyReserved).

(** The base's directories, and its tap, were seen gone. *)
Definition directories_gone (h : list sys_event) : Prop :=
  ∃ room jail, room_dir home config base = Some room ∧ jail_instance_dir home config base = Some jail ∧
    room_gone room jail h.

Definition network_removed (h : list sys_event) : Prop :=
  ∃ index, slot_is index ∧ answered h (OEgressRemove (slot_tap_name index)) (λ r, r = Ok ()) ∧
    tap_gone h (slot_tap_name index).

Definition base_gone (h : list sys_event) : Prop := directories_gone h ∧ network_removed h.

(** What has happened before a boundary is recorded. *)
Definition earned (b : Boundary) (h : list sys_event) : Prop :=
  match b with
  | Pending => False
  | TargetsStaged => sealable h ∧ handed (si_jail_vmstate i) h ∧ handed (si_jail_mem i) h
  | Paused => accepted (asks_op PauseVm) h
  | Collected =>
      accepted (asks_op freeze) h ∧ placed (si_host_vmstate i) h ∧ placed (si_host_mem i) h ∧
      whole (si_host_vmstate i) h ∧ whole (si_host_mem i) h ∧ settled (si_out_dir i) h
  | Reserved => reserved h
  | Reaped => base_gone h
  | Published =>
      whole (si_host_vmstate i) h ∧ whole (si_host_mem i) h ∧ described h ∧ all_sealed h ∧ receipted h
  end.

(** ** Permissions *)

Definition in_receipts (p : path) : Prop :=
  ∃ dir name, attestation_dir home config = Ok dir ∧ p = path_join dir name.

(** Calls that look, or write only temporary, staged or index files. *)
Definition quiet (op : sysop) : Prop :=
  match op with
  | OLstat _ | OFstat _ | OStat _ | OExists _ | OReadText _ | OReadDir _ | OReadMeta _ | OProcStat _ | ONow | OSleep _
  | OUlid | OOpen _ _ | OSeek _ _ | OReadAll _ _ | OWriteAll _ _ | OCopyFile _ _ | OSyncAll _ | OSyncDir _
  | OGetFlags _ | OSetFlags _ _ | OSetMode _ _ | OChown _ _ _ | OCreateDirAll _ | ORenameNoReplace _ _ => True
  | ORun program _ => program = "getent"
  | ORemoveFile p => in_receipts p
  | _ => False
  end.

(** A signal to the base's recorded process, just seen alive under its start time. *)
Definition signals_base (h : list sys_event) (op : sysop) : Prop :=
  ∃ pid starttime signal, recorded home config base pid (Some starttime) h ∧ (signal = "TERM" ∨ signal = "KILL") ∧
    op = ORun "kill" (signal_args pid signal) ∧ observed pid (Some starttime) Alive h.

(** A call of the base's teardown: its own directories, and then its slot's tap. *)
Definition reaps_base (h : list sys_event) (op : sysop) : Prop :=
  ∃ room jail socket index, room_dir home config base = Some room ∧ jail_instance_dir home config base = Some jail ∧
    jail_socket home config base = Some socket ∧ slot_is index ∧
    (may_reap show_path room jail socket None h op ∨
     room_gone room jail h ∧ (op = OEgressRemove (slot_tap_name index) ∨
       answered h (OEgressRemove (slot_tap_name index)) (λ r, r = Ok ()) ∧
       (op = ORun "ip" (link_show (slot_tap_name index)) ∨ op = ORun "ip" (tuntap_del (slot_tap_name index))))).

Definition drive_allows (h : list sys_event) (op : sysop) : Prop :=
  quiet op ∨
  durable Reserved h ∧ (signals_base h op ∨ reaps_base h op) ∨
  match op with
  | OWriteIntent j => ∃ b, j = set_boundary b i ∧ earned b h
  | OFinishIntent j => j = set_boundary Published i ∧ durable Published h ∧ receipted h
  | ORunStatus program args =>
      program = "curl" ∧ ((asks_op PauseVm args ∨ asks_resume args) ∧ durable TargetsStaged h ∨
                          asks_op freeze args ∧ durable Paused h)
  | ORename _ target => (target = si_host_vmstate i ∨ target = si_host_mem i) ∧ accepted (asks_op freeze) h
  | OSlotReserve _ index snapshot room =>
      slot_is index ∧ snapshot = si_snapshot_id i ∧ room = base ∧ durable Collected h
  | OWriteSnapshotMeta p m => p = meta_path ∧ m = si_meta i ∧ durable Reaped h
  | _ => False
  end.

Abbreviation R := drive_allows.

#[local] Instance durable_mono b : Monotone (durable b). Proof. unfold durable. apply _. Qed.
#[local] Instance accepted_mono r : Monotone (accepted r). Proof. unfold accepted. apply _. Qed.
#[local] Instance whole_mono p : Monotone (whole p). Proof. unfold whole. apply _. Qed.
#[local] Instance placed_mono p : Monotone (placed p). Proof. unfold placed. apply _. Qed.
#[local] Instance handed_mono p : Monotone (handed p). Proof. unfold handed. apply _. Qed.
#[local] Instance settled_mono p : Monotone (settled p). Proof. unfold settled. apply _. Qed.
#[local] Instance sealable_mono : Monotone sealable.
Proof. intros h k (h1 & tr & h2 & -> & Hrun). exists h1, tr, (h2 ++ k). by rewrite <- !(assoc_L (++)). Qed.
#[local] Instance described_mono : Monotone described. Proof. unfold described. apply _. Qed.
#[local] Instance all_sealed_mono : Monotone all_sealed. Proof. unfold all_sealed. apply _. Qed.
#[local] Instance receipted_mono : Monotone receipted. Proof. unfold receipted. apply _. Qed.
#[local] Instance recorded_mono_base pid st : Monotone (recorded home config base pid st). Proof. unfold recorded. apply _. Qed.

Lemma drive_quiet h op : quiet op → R h op.
Proof using Type. by left. Qed.

#[local] Instance directories_gone_mono : Monotone directories_gone. Proof. unfold directories_gone. apply _. Qed.
#[local] Instance network_removed_mono : Monotone network_removed. Proof. unfold network_removed. apply _. Qed.
#[local] Instance base_gone_mono : Monotone base_gone. Proof. unfold base_gone. apply _. Qed.

(** A quiet part keeps a fact; a quiet step does. *)
Lemma spec_quietly {A : Type} (p : sys A) h (P : list sys_event → Prop) `{!Monotone P} :
  only quiet p → P h → spec R p h (λ _ h', P h').
Proof using Type. apply spec_kind; [done|]. apply drive_quiet. Qed.

Lemma quiet_step {E A B : Type} (p : sys (result E A)) (k : A → sys (result E B)) h P `{!Monotone P} Q :
  only quiet p → P h → (∀ e h', P h' → Q (Err e) h') → (∀ a h', P h' → spec R (k a) h' Q) →
  spec R (try* a := p in k a) h Q.
Proof using Type.
  intros Hp HP He Hk. apply (spec_step _ _ _ _ (λ _ h', P h')); [|done].
  eapply spec_mono; [by apply (spec_quietly p h P)|]. intros [a|e] h' H; [done|by apply He].
Qed.

(** ** The quiet parts *)

Lemma quiet_seal p label : only quiet (seal show_path imm p label).
Proof using Type. eapply only_weaken; [apply only_seal|]. by intros []. Qed.

Lemma quiet_nonempty p : only quiet (ensure_regular_nonempty show_path p).
Proof using Type. unfold ensure_regular_nonempty, any. only_walk. Qed.

Lemma quiet_ids : only quiet lookup_firecracker_ids.
Proof using Type. unfold lookup_firecracker_ids. only_walk. Qed.

Lemma quiet_owner p uid gid : only quiet (set_owner_private p uid gid).
Proof using Type. unfold set_owner_private, any. only_walk. Qed.

Lemma quiet_preflight p : only quiet (preflight_output show_path imm p).
Proof using Type.
  unfold preflight_output, preflight_output_with_ops, preflight_cycle, with_preflight_cleanup, restore_baseline, io_context.
  only_walk.
Qed.

Lemma in_receipts_join dir name : attestation_dir home config = Ok dir → in_receipts (path_join dir name).
Proof using Type. intros H. by exists dir, name. Qed.

Lemma quiet_receipt_index dir : only quiet (receipt_index show_path home config dir).
Proof using Type. unfold receipt_index, set_dir_private_call, sync_dir, any. only_walk. Qed.

Hint Resolve quiet_nonempty quiet_ids quiet_owner quiet_preflight quiet_receipt_index quiet_seal in_receipts_join : only.

(** Removing a name of the receipt index. *)
Ltac receipt_walk := only_walk; try (split; [by apply in_receipts_join|intros ?; exact I]).

Lemma quiet_preflight_index : only quiet (preflight_attestation_index show_path imm home config i).
Proof using Type.
  unfold preflight_attestation_index. destruct (si_rootfs_source i); [|done].
  destruct (attestation_dir home config) as [dir|e] eqn:Hd; [|done]. unfold sync_dir, any. cbn [pbind ptry].
  receipt_walk.
Qed.

Lemma quiet_read_receipt p : only quiet (read_attestation show_path parse_receipt p).
Proof using Type. unfold read_attestation, any. only_walk. Qed.

Hint Resolve quiet_read_receipt : only.

Lemma quiet_ensure_receipt dir name expected :
  attestation_dir home config = Ok dir →
  only quiet (ensure_attestation_file show_path parse_receipt show_receipt dir (path_join dir name) expected).
Proof using Type.
  intros Hd. unfold ensure_attestation_file, remove_abandoned_attestation_temps, sync_dir, any. receipt_walk.
  apply only_try_each. intros entry _. receipt_walk.
Qed.

(** ** Single steps *)

(** A step of the transaction leaves it at the next boundary, durably. *)
Definition advanced (b : Boundary) (r : result string SnapshotIntent) (h : list sys_event) : Prop :=
  ∀ j, r = Ok j → j = set_boundary b i ∧ durable b h.

Lemma spec_advance c b h : earned b h → spec R (advance_to (set_boundary c i) b) h (advanced b).
Proof using Type.
  intros He. unfold advance_to. spec_call as r; [right; right; by exists b|]. destruct r as [[]|e]; cbv iota; [|done].
  spec_down. intros j [= <-]. split; [done|]. right. by apply answered_snoc.
Qed.

Lemma spec_nonempty p h : spec R (ensure_regular_nonempty show_path p) h (λ r h', r = Ok () → whole p h').
Proof using Type.
  unfold ensure_regular_nonempty, any. spec_call as r; [by left|]. destruct r as [s|e]; simpl map_err; cbv iota; [|done].
  destruct (st_is_file s) eqn:Hf; cbn [negb orb]; [|done]. destruct (N.eqb_spec (st_len s) 0); spec_down; [done|].
  intros _. apply answered_snoc. by exists s.
Qed.

Lemma spec_collected h :
  spec R (validate_collected show_path i) h (λ r h', r = Ok () → whole (si_host_vmstate i) h' ∧ whole (si_host_mem i) h').
Proof using Type.
  unfold validate_collected. apply (spec_step _ _ _ _ (λ _, whole (si_host_vmstate i))).
  { eapply spec_mono; [apply spec_nonempty|]. intros [[]|e] h' H; [by apply H|done]. }
  clear h. intros [] h Hv. eapply spec_mono; [apply (spec_keep _ _ _ (whole (si_host_vmstate i))), spec_nonempty; exact Hv|].
  intros r h' [Hv' Hm] Hr. split; [done|by apply Hm].
Qed.

Lemma spec_owner p uid gid h : spec R (set_owner_private p uid gid) h (λ r h', r = Ok () → handed p h').
Proof using Type.
  unfold set_owner_private, any. spec_call as r; [by left|]. destruct r as [[]|e]; simpl map_err; cbv iota; [|done].
  spec_call as r; [by left|]. destruct r as [[]|e]; simpl map_err; [|done]. intros _. by apply answered_snoc.
Qed.

Lemma spec_request method endpoint body (request : list string → Prop) socket h :
  jail_socket home config base = Some socket → request = asks method endpoint body →
  (∀ args, request args → R h (ORunStatus "curl" args)) →
  spec R (api_request show_path show_secs show_json config (@uncancelled) socket method endpoint body) h
    (λ r h', r = Ok () → accepted request h').
Proof using Type.
  intros Hs -> HR. unfold api_request, uncancelled. destruct (show_json body) as [text|e] eqn:Hj; [|done].
  set (args := ["--unix-socket"; _; _; _; _; _; _; _; _; _; _; _; _; _] : list string).
  assert (Ha : asks method endpoint body args) by by exists socket, text.
  spec_call as r; [by apply HR|].
  destruct r as [[code o]|e]; simpl map_err; cbv iota; [|done]. spec_down. case_decide; [done|].
  destruct (success o) eqn:Ho; [|done]. intros _. exists args. split; [done|]. apply answered_snoc. eauto.
Qed.

Lemma spec_execute op socket h :
  jail_socket home config base = Some socket → (∀ args, asks_op op args → R h (ORunStatus "curl" args)) →
  spec R (execute_op show_path show_secs show_json config socket op) h (λ r h', r = Ok () → accepted (asks_op op) h').
Proof using Type.
  intros Hs HR. unfold execute_op. destruct op; cbn [op_request]; cbn [String.eqb Ascii.eqb Bool.eqb];
    (apply spec_map_err; eapply spec_mono; [by eapply spec_request|]); intros [[]|e] h' H; simpl; [|done| |done]; auto.
Qed.

(** Over a quiet step that keeps [P]. *)
Ltac calm P :=
  apply (quiet_step _ _ _ P); [solve [unfold any, sync_dir; only_walk; auto with only]|assumption|by intros|];
  let a := fresh "a" in let h := fresh "h" in let H := fresh "H" in
  match goal with HP : P ?h0 |- _ => clear HP; intros a h H end.

Lemma spec_copy source target uid gid h :
  target = si_host_vmstate i ∨ target = si_host_mem i → accepted (asks_op freeze) h →
  spec R (copy_private show_path source target uid gid) h (λ r h', r = Ok () → placed target h').
Proof using Type.
  intros Ht Ha. pose (P := accepted (asks_op freeze)). change (P h) in Ha. unfold copy_private.
  calm P. calm P. calm P. calm P. calm P. calm P. calm P. unfold any.
  spec_call as r; [right; right; by split|]. destruct r as [[]|e]; simpl map_err; cbv iota; [|done].
  eapply spec_mono; [apply (spec_quietly _ _ (placed target))|].
  - unfold sync_dir, any. only_walk.
  - eexists. by apply answered_snoc.
  - by intros r h' H' _.
Qed.

Lemma spec_collect_pair h :
  accepted (asks_op freeze) h →
  spec R (collect_pair show_path i) h (λ r h', r = Ok () → earned Collected h').
Proof using Type.
  intros Ha. unfold collect_pair.
  apply (quiet_step _ _ _ (accepted (asks_op freeze))); [only_walk; auto with only|done|done|]. clear h Ha. intros ids h Ha.
  apply (spec_step _ _ _ _ (λ _ h, accepted (asks_op freeze) h ∧ placed (si_host_vmstate i) h)).
  { eapply spec_mono; [apply (spec_keep _ _ _ (accepted (asks_op freeze))); [done|apply spec_copy; auto]|]. intros [[]|e] h' [? H]; [by auto|done]. }
  clear h Ha. intros [] h [Ha Hv].
  apply (spec_step _ _ _ _ (λ _ h, (accepted (asks_op freeze) h ∧ placed (si_host_vmstate i) h) ∧ placed (si_host_mem i) h)).
  { eapply spec_mono; [apply (spec_keep _ _ _ (λ h, accepted (asks_op freeze) h ∧ placed (si_host_vmstate i) h)); [done|apply spec_copy; auto]|].
    intros [[]|e] h' [? H]; [by auto|done]. }
  clear h Ha Hv. intros [] h [[Ha Hv] Hm].
  pose (P := λ h, (accepted (asks_op freeze) h ∧ placed (si_host_vmstate i) h ∧ placed (si_host_mem i) h)).
  apply (spec_step _ _ _ _ (λ _ h, P h ∧ whole (si_host_vmstate i) h ∧ whole (si_host_mem i) h)).
  { eapply spec_mono; [apply (spec_keep _ _ _ P); [by split_and!|apply spec_collected]|]. intros [[]|e] h' [? H]; [by auto|done]. }
  clear h Ha Hv Hm. intros [] h [(Ha & Hv & Hm) (Hwv & Hwm)]. unfold sync_dir, any. spec_call as r; [by left|].
  destruct r as [[]|e]; simpl map_err; [|done]. intros _. simpl.
  split_and!; [by apply accepted_mono|by apply placed_mono|by apply placed_mono|by apply whole_mono|by apply whole_mono|].
  by apply answered_snoc.
Qed.

Lemma spec_stage c h :
  spec R (stage show_path imm home config (set_boundary c i)) h (advanced TargetsStaged).
Proof using Type.
  unfold stage. apply (spec_step _ _ _ _ (λ _, sealable)).
  { eapply only_traced; [apply quiet_preflight|intros; by apply drive_quiet|]. intros [[]|e] k _ Hrun; [|done].
    exists h, k, []. rewrite (right_id_L [] (++)). by split. }
  clear h. intros [] h Hs.
  apply (quiet_step _ _ _ sealable); [exact quiet_preflight_index|done|done|]. clear h Hs. intros [] h Hs.
  apply (spec_step _ _ _ _ (λ _, earned TargetsStaged)); [|intros [] h' H; by apply spec_advance].
  unfold stage_targets. apply (quiet_step _ _ _ sealable); [only_walk; auto with only|done|done|]. clear h Hs. intros ids h Hs.
  apply (spec_step _ _ _ _ (λ _, earned TargetsStaged)).
  - apply (spec_try_each _ _ (λ targets h, sealable h ∧ ∀ p, p ∈ targets → handed p h)).
    + split; [done|]. by intros p ?%elem_of_nil.
    + intros l1 target l2 h' _ [Hs' Hd]. unfold stage_target.
      set (P := λ h, sealable h ∧ ∀ p, p ∈ l1 → handed p h). assert (HM : Monotone P) by (unfold P; apply _).
      apply spec_bind. eapply spec_mono; [apply (spec_quietly _ _ P); [only_walk|by split]|]. clear h' Hs' Hd. intros looked h' HP.
      apply (quiet_step _ _ _ P); [unfold any; only_walk|done|done|]. clear h' HP. intros [] h' HP.
      eapply spec_mono; [apply (spec_keep _ _ _ P); [done|apply spec_owner]|]. intros [[]|e] h2 [[Hs2 Hd] Ho]; [|done].
      split; [done|]. intros p [Hp| ->%list_elem_of_singleton]%elem_of_app; [by apply Hd|by apply Ho].
    + intros ys h' [Hs' Hd]. split_and!; [done|apply Hd; by left|apply Hd; right; by left].
  - clear h Hs. intros ys h He. assert (HM : Monotone (earned TargetsStaged)) by (simpl; apply _).
    eapply spec_mono; [apply (spec_quietly _ _ (earned TargetsStaged)); [unfold sync_dir, any; only_walk|done]|].
    by intros [[]|e] h' H.
Qed.

Lemma spec_freeze c h :
  durable c h → c = TargetsStaged ∨ c = Paused →
  spec R (execute_and_collect show_path show_secs show_json home config (set_boundary c i)) h (advanced Collected).
Proof using Type.
  intros Hd Hc. unfold execute_and_collect.
  apply (quiet_step _ _ _ (durable c)); [|done|done|].
  { unfold validate_staged_targets. apply only_try; [apply only_try_each; intros p _|done].
    unfold validate_staged_target, any. only_walk. }
  clear h Hd. intros [] h Hd. change (si_base_room_id (set_boundary c i)) with base.
  destruct (jail_socket home config base) as [socket|] eqn:Hs; [|done]. spec_down. cbn [ok_or snapshot_ops].
  apply (spec_step _ _ _ _ (λ j h, j = set_boundary Paused i ∧ durable Paused h)).
  - unfold before. cbn [si_boundary set_boundary]. destruct Hc as [-> | ->]; cbn [boundary_rank Nat.ltb Nat.leb]; [|by spec_down].
    spec_down. apply (spec_mono _ _ _ (λ r h', durable TargetsStaged h' ∧ (r = Ok () → accepted (asks_op PauseVm) h'))).
    + apply (spec_keep _ _ _ (durable TargetsStaged)); [done|]. apply spec_execute; [done|].
      intros args Ha. right. right. split; [done|]. left. auto.
    + intros [[]|e] h' [Hd' Hp].
      * eapply spec_mono; [by apply spec_advance, Hp|]. intros [j|e] h2 H; [by apply H|done].
      * spec_down. eapply spec_mono; [eapply (spec_request _ _ _ asks_resume); [done..|]|done].
        intros args Ha. right. right. split; [done|]. left. auto.
  - clear c h Hd Hc. intros j h [-> Hd].
    apply (spec_step _ _ _ _ (λ _, accepted (asks_op freeze))).
    { eapply spec_mono; [apply spec_execute; [done|]|].
      - intros args Ha. right. right. split; [done|]. by right.
      - intros [[]|e] h' H; [by apply H|done]. }
    clear h Hd. intros [] h Ha. apply (spec_step _ _ _ _ (λ _, earned Collected)); [|intros [] h' H; by apply spec_advance].
    eapply spec_mono; [by apply spec_collect_pair|]. intros [[]|e] h' H; [by apply H|done].
Qed.

Lemma spec_give_slot h :
  durable Collected h → spec R (give_slot home config (set_boundary Collected i)) h (advanced Reserved).
Proof using Type.
  intros Hd. unfold give_slot. apply (spec_step _ _ _ _ (λ _, earned Reserved)); [|intros [] h' H; by apply spec_advance].
  unfold reserve_slot. destruct (exec_state_base home config) as [state|e]; [|done]. spec_down.
  change (sm_slot_index (si_meta (set_boundary Collected i))) with (sm_slot_index (si_meta i)).
  destruct (sm_slot_index (si_meta i)) as [index|] eqn:Hi; [|done]. cbn [ok_or]. spec_down.
  spec_call as r; [right; right; by split_and!|].
  destruct r as [[]|e]; simpl map_err; cbv iota; spec_down; try done; (exists state, index; split; [done|]; apply answered_snoc; auto).
Qed.

(** ** Ending the base

    Both halves of the transaction, the drive and the abort, end the base; each
    under a permission of its own. *)

Section ending.
  Context (R0 : list sys_event → sysop → Prop) (P : list sys_event → Prop) `{!Monotone P}.
  Hypothesis R0_quiet : ∀ h op, quiet op → R0 h op.

(** The recorded process was seen dead. *)
Definition base_dead (h : list sys_event) : Prop :=
  ∃ pid starttime, recorded home config base pid starttime h ∧ seen pid starttime Dead h.

Lemma spec_terminate_pinned room meta uncertain survived h :
  (∀ h op, P h → signals_base h op → R0 h op) →
  room_dir home config base = Some room → answered h (OReadMeta room) (λ r, r = Ok (Some meta)) → P h →
  spec R0 (terminate_pinned config fuel meta uncertain survived) h (λ r h', P h' ∧ (r = Ok () → base_dead h')).
Proof using All.
  intros HR Hroom Hmeta HP. unfold terminate_pinned, pinned_process_identity.
  destruct (pid meta) as [n|] eqn:Hpid; [|done]. destruct (pid_starttime meta) as [st|] eqn:Hst; [|done].
  cbn [ok_or rbind]. spec_down. cbn [fst snd].
  assert (Hrec : ∀ k, recorded home config base n (Some st) (h ++ k)).
  { intros k. exists room, meta. split_and!; [done..|]. by apply answered_l. }
  apply (spec_terminate R0 n (Some st)).
  - intros k. by apply R0_quiet.
  - intros k. by apply R0_quiet.
  - intros k d. by apply R0_quiet.
  - intros k stat signal Hlive Hsig. apply HR; [by apply monotone|]. exists n, st, signal. split_and!; [done|naive_solver|done|].
    do 2 apply observed_app. by exists [], stat.
  - intros o k Ho. assert (Hdead : observed n (Some st) Dead k → base_dead (h ++ k)).
    { intros (k0 & stat & -> & Hp). exists n, (Some st). split; [done|]. rewrite (assoc_L (++)). by apply answered_snoc. }
    destruct o; spec_down; (split; [by apply monotone|]); try done; intros _; apply Hdead, Ho.
Qed.

Lemma spec_reap_reserved room jail socket index h :
  (∀ h op, P h → reaps_base h op → R0 h op) →
  room_dir home config base = Some room → jail_instance_dir home config base = Some jail →
  jail_socket home config base = Some socket → slot_is index → P h →
  spec R0 (reap_reserved_base show_path fuel config room jail socket (slot_tap_name index)) h
    (λ r h', P h' ∧ (r = Ok () → base_gone h')).
Proof using All.
  intros HR Hr Hj Hs Hi HP. unfold reap_reserved_base.
  apply (spec_step _ _ _ _ (λ _ h, P h ∧ room_gone room jail h)).
  - eapply spec_mono.
    { eapply (spec_refine (λ _, True) (may_reap show_path room jail socket None) R0 _ _ (λ r h', r = Ok () → room_gone room jail h')).
      - eapply only_weaken; [apply only_reap_room_only|done].
      - apply spec_reap_room_only. auto.
      - intros k op _ _ Hop. apply HR; [by apply monotone|]. exists room, jail, socket, index. split_and!; [done..|]. by left. }
    intros [[]|e] h' [Hg (k & -> & _)]; (split; [by apply monotone|]); auto. done.
  - clear h HP. intros [] h [HP Hg]. apply spec_remove_egress_and_tap.
    + apply HR; [done|]. exists room, jail, socket, index. split_and!; [done..|]. right. split; [done|]. by left.
    + intros k args _ He Ha. apply HR; [by apply monotone|]. exists room, jail, socket, index. split_and!; [done..|]. right.
      split; [by apply room_gone_mono|]. right. split; [done|]. destruct Ha as [-> | ->]; auto.
    + intros r k _ Ht. split; [by apply monotone|]. intros Hok. split.
      * exists room, jail. split_and!; [done..|]. by apply room_gone_mono.
      * exists index. split; [done|]. by apply Ht.
Qed.

End ending.

Lemma ends_base h op : durable Reserved h → signals_base h op ∨ reaps_base h op → R h op.
Proof using Type. intros ? ?. right. left. by split. Qed.

Lemma spec_give_base h :
  durable Reserved h → spec R (give_base show_path home config fuel (set_boundary Reserved i)) h (advanced Reaped).
Proof using All.
  intros Hd. unfold give_base. apply (spec_step _ _ _ _ (λ _, earned Reaped)); [|intros [] h' H; by apply spec_advance].
  unfold reap_base. change (si_base_room_id (set_boundary Reserved i)) with base.
  change (si_meta (set_boundary Reserved i)) with (si_meta i).
  destruct (room_dir home config base) as [room|] eqn:Hr; [|done].
  destruct (jail_instance_dir home config base) as [jail|] eqn:Hj; [|done].
  destruct (jail_socket home config base) as [socket|] eqn:Hs; [|done]. cbn [ok_or]. unfold any. spec_down.
  spec_call as read; [by left|]. destruct read as [read|e]; simpl map_err; cbv iota; [|done].
  apply (spec_step _ _ _ _ (λ _, durable Reserved)).
  - assert (Hd' : durable Reserved (h ++ [Event (OReadMeta room) (Ok read)])) by by apply durable_mono.
    destruct read as [meta|]; [|done].
    eapply spec_mono; [eapply (spec_terminate_pinned R (durable Reserved) drive_quiet room); auto using ends_base; by apply answered_snoc|].
    by intros [[]|e] h' [H _].
  - clear h Hd. intros [] h Hd. destruct (sm_slot_index (si_meta i)) as [index|] eqn:Hi; [|done]. cbn [ok_or]. spec_down.
    eapply spec_mono; [apply (spec_reap_reserved R (durable Reserved) drive_quiet room jail socket index); auto using ends_base|].
    intros [[]|e] h' [_ H]; [by apply H|done].
Qed.

Lemma spec_metadata h : durable Reaped h → spec R (ensure_snapshot_metadata show_path parse_meta i) h (λ r h', r = Ok () → described h').
Proof using All.
  intros Hd. unfold ensure_snapshot_metadata, any. spec_call as bytes; [by left|]. destruct bytes as [bytes|e].
  - spec_down. destruct (parse_meta bytes) as [m|e] eqn:Hm; [|done]. case_bool_decide as Heq; spec_down; [|done].
    intros _. left. apply answered_snoc. exists bytes. by rewrite <- Heq.
  - case_decide; [|done]. spec_call as r; [|].
    + right. right. split_and!; [done..|]. by apply durable_mono.
    + destruct r as [[]|e']; simpl map_err; [|done]. intros _. right. by apply answered_snoc.
Qed.

Lemma seal_allowed h op : seal_op op → R h op.
Proof using All. left. by destruct op. Qed.

Lemma spec_seal_snapshot h : spec R (seal_snapshot show_path imm i) h (λ r h', r = Ok () → all_sealed h').
Proof using All.
  unfold seal_snapshot. apply (quiet_step _ _ _ (λ _, True)); [auto with only|done|done|]. clear h. intros [] h _.
  set (files := [(si_host_vmstate i, "snapshot vmstate"); (si_host_mem i, "snapshot memory"); (meta_path, "snapshot metadata")]).
  set (P := λ (l : list (path * string)) h, ∀ p, p ∈ l → sealed_at imm (fst p) h).
  assert (HM : ∀ l, Monotone (P l)) by (intros l; unfold P; apply _).
  apply (spec_step _ _ _ _ (λ _, P files)).
  - apply (spec_try_each _ _ P); [by intros p ?%elem_of_nil| |done].
    intros l1 [p label] l2 h' _ Hd. eapply spec_mono; [apply (spec_keep _ _ _ (P l1)); [done|apply spec_seal, seal_allowed]|].
    intros [[]|e] h2 [Hd2 Hp]; [|done]. intros q [Hq| ->%list_elem_of_singleton]%elem_of_app; [by apply Hd2|by apply Hp].
  - clear h. intros _ h Hd. eapply spec_mono; [apply (spec_keep _ _ _ (P files)); [done|apply spec_seal, seal_allowed]|].
    intros r h' [Hd' Hp] Hok. unfold all_sealed. split_and!; [..|by apply Hp].
    + apply (Hd' (si_host_vmstate i, "snapshot vmstate")). by left.
    + apply (Hd' (si_host_mem i, "snapshot memory")). right. by left.
    + apply (Hd' (meta_path, "snapshot metadata")). do 2 right. by left.
Qed.

Lemma spec_receipt h :
  spec R (ensure_snapshot_attestation show_path imm parse_receipt show_receipt home config i) h
    (λ r h', r = Ok () → receipted h').
Proof using All.
  unfold ensure_snapshot_attestation, receipted. destruct (si_rootfs_source i) as [source|]; [|by intros _ [? [=]]].
  apply (quiet_step _ _ _ (λ _, True)); [unfold capture, any; only_walk|done|done|]. clear h. intros dir_source h _.
  apply (quiet_step _ _ _ (λ _, True)); [unfold capture, any; only_walk|done|done|]. clear h. intros meta_source h _.
  destruct (attestation_dir home config) as [dir|e] eqn:Hdir; [|done]. apply spec_ok.
  apply (quiet_step _ _ _ (λ _, True)); [auto with only|done|done|]. clear h. intros [] h _.
  destruct (attestation_path home config (si_snapshot_id i)) as [p|e] eqn:Hp; [|done]. apply spec_ok.
  assert (Hq : ∃ name, p = path_join dir name).
  { unfold attestation_path in Hp. destruct (negb _); [done|]. rewrite Hdir in Hp. injection Hp as <-. by eexists. }
  apply (quiet_step _ _ _ (λ _, True)); [|done|done|]. { destruct Hq as [name ->]. by apply quiet_ensure_receipt. }
  clear h. intros [] h _. apply (spec_step _ _ _ _ (λ _, sealed_at imm p)).
  - eapply spec_mono; [apply spec_seal, seal_allowed|]. intros [[]|e] h' H; [by apply H|done].
  - clear h. intros [] h Hs. eapply spec_mono; [apply (spec_quietly _ _ (sealed_at imm p)); [unfold sync_dir, any; only_walk|done]|].
    intros r h' H _ _. by exists p.
Qed.

Lemma spec_publish h :
  durable Reaped h →
  spec R (publish show_path imm parse_meta parse_receipt show_receipt home config (set_boundary Reaped i)) h
    (λ r h', advanced Published r h' ∧ ∀ j, r = Ok j → receipted h').
Proof using All.
  intros Hd. unfold publish.
  set (W := λ h, whole (si_host_vmstate i) h ∧ whole (si_host_mem i) h). assert (HW : Monotone W) by (unfold W; apply _).
  apply (spec_step _ _ _ _ (λ _ h, durable Reaped h ∧ W h)).
  { eapply spec_mono; [apply (spec_keep _ _ _ (durable Reaped)); [done|apply spec_collected]|].
    intros [[]|e] h' [H1 H2]; [split; [done|by apply H2]|done]. }
  clear h Hd. intros [] h [Hd Hw]. apply (spec_step _ _ _ _ (λ _ h, W h ∧ described h)).
  { eapply spec_mono; [apply (spec_keep _ _ _ W); [done|by apply spec_metadata]|].
    intros [[]|e] h' [H1 H2]; [split; [done|by apply H2]|done]. }
  clear h Hd Hw. intros [] h Hw. apply (spec_step _ _ _ _ (λ _ h, (W h ∧ described h) ∧ all_sealed h)).
  { eapply spec_mono; [apply (spec_keep _ _ _ (λ h, W h ∧ described h)); [done|by apply spec_seal_snapshot]|].
    intros [[]|e] h' [H1 H2]; [split; [done|by apply H2]|done]. }
  clear h Hw. intros [] h Hw. apply (spec_step _ _ _ _ (λ _ h, ((W h ∧ described h) ∧ all_sealed h) ∧ receipted h)).
  { eapply spec_mono; [apply (spec_keep _ _ _ (λ h, (W h ∧ described h) ∧ all_sealed h)); [done|by apply spec_receipt]|].
    intros [[]|e] h' [H1 H2]; [split; [done|by apply H2]|done]. }
  clear h Hw. intros [] h [[[[Hv Hm] Hd] Hs] Hr].
  eapply spec_mono; [apply (spec_keep _ _ _ receipted); [done|by apply spec_advance]|]. intros r h' [H1 H2]. by split.
Qed.

(** ** The whole transaction *)

(** The transaction stands at a durable boundary not before [b] and not the last. *)
Definition stands (b : Boundary) (j : SnapshotIntent) (h : list sys_event) : Prop :=
  ∃ c, j = set_boundary c i ∧ durable c h ∧ boundary_rank b ≤ boundary_rank c < boundary_rank Published.

Lemma spec_until b b' step j h :
  stands b j h → boundary_rank b' < boundary_rank Published →
  (∀ c, durable c h → boundary_rank b ≤ boundary_rank c < boundary_rank b' → spec R (step (set_boundary c i)) h (advanced b')) →
  spec R (until b' step j) h (λ r h', match r with Ok j => stands b' j h' | Err _ => True end).
Proof using All.
  intros (c & -> & Hd & Hc) Hb Hstep. unfold until, before. cbn [si_boundary set_boundary].
  destruct (Nat.ltb_spec (boundary_rank c) (boundary_rank b')) as [Hlt|Hge].
  - eapply spec_mono; [apply (Hstep c); [done|lia]|]. intros [j|e] h' H; [|done]. destruct (H j eq_refl) as [-> Hd'].
    exists b'. split_and!; [done..|lia].
  - exists c. split_and!; [done..|lia].
Qed.

Lemma intent_at : i = set_boundary (si_boundary i) i.
Proof using Type. by destruct i. Qed.

(** What a transaction that succeeded has done. *)
Definition completed (r : SnapshotResult) (h : list sys_event) : Prop :=
  durable Published h ∧ receipted h ∧ answered h (OFinishIntent (set_boundary Published i)) (λ r, r = Ok ()) ∧
  result_from i = Ok r.

#[local] Instance completed_mono r : Monotone (completed r). Proof. unfold completed. apply _. Qed.

Lemma spec_finish_transaction j h :
  j = set_boundary Published i → durable Published h → receipted h →
  spec R (try* _ := call (OFinishIntent j) in Ret (result_from j)) h (λ r h', ∀ s, r = Ok s → completed s h').
Proof using All.
  intros -> Hd Hr. spec_call as r; [right; right; by split_and!|]. destruct r as [[]|e]; cbv iota; [|done]. spec_down.
  intros s Hs. split_and!; [by apply durable_mono|by apply receipted_mono|by apply answered_snoc|done].
Qed.

Abbreviation drive_it := (drive show_path show_secs show_json imm parse_meta parse_receipt show_receipt home config fuel).

Lemma spec_transaction h : spec R (drive_it i) h (λ r h', ∀ s, r = Ok s → completed s h').
Proof using All.
  unfold drive. case_bool_decide as Hb.
  - apply (spec_step _ _ _ _ (λ _, receipted)).
    { eapply spec_mono; [by apply spec_receipt|]. intros [[]|e] h' H; [by apply H|done]. }
    clear h. intros [] h Hr. apply spec_finish_transaction; [rewrite <- Hb; apply intent_at|by left|done].
  - assert (Hs : stands Pending i h).
    { exists (si_boundary i). split; [apply intent_at|]. split; [by left|]. destruct (si_boundary i); simpl; (done || lia). }
    clear Hb.
    apply (spec_step _ _ _ _ (stands TargetsStaged)).
    { eapply spec_mono; [eapply (spec_until Pending); [done|simpl; lia|]|by intros [?|?]].
      intros c _ _. apply spec_stage. }
    clear h Hs. intros j h Hs. apply (spec_step _ _ _ _ (stands Collected)).
    { eapply spec_mono; [eapply (spec_until TargetsStaged); [done|simpl; lia|]|by intros [?|?]].
      intros c Hd Hc. apply spec_freeze; [done|]. destruct c; simpl in Hc; auto; lia. }
    clear h j Hs. intros j h Hs. apply (spec_step _ _ _ _ (stands Reserved)).
    { eapply spec_mono; [eapply (spec_until Collected); [done|simpl; lia|]|by intros [?|?]].
      intros c Hd Hc. assert (c = Collected) as -> by (destruct c; simpl in Hc; done || lia). by apply spec_give_slot. }
    clear h j Hs. intros j h Hs. apply (spec_step _ _ _ _ (stands Reaped)).
    { eapply spec_mono; [eapply (spec_until Reserved); [done|simpl; lia|]|by intros [?|?]].
      intros c Hd Hc. assert (c = Reserved) as -> by (destruct c; simpl in Hc; done || lia). by apply spec_give_base. }
    clear h j Hs. intros j h (c & -> & Hd & Hc). assert (c = Reaped) as -> by (destruct c; simpl in Hc; done || lia).
    apply (spec_step _ _ _ _ (λ j h, j = set_boundary Published i ∧ durable Published h ∧ receipted h)).
    { eapply spec_mono; [by apply spec_publish|]. intros [j|e] h' [H1 H2]; [|done]. destruct (H1 j eq_refl) as [-> Hp].
      split_and!; [done..|by eapply H2]. }
    clear h Hd Hc. intros j h (-> & Hd & Hr). by apply spec_finish_transaction.
Qed.

(** ** The abort *)

(** The base was seen dead, or its room gone. *)
Definition base_over (h : list sys_event) : Prop :=
  base_dead h ∨ ∃ room, room_dir home config base = Some room ∧ answered h (OReadMeta room) (λ r, r = Ok None).

Definition claimed (h : list sys_event) : Prop :=
  ∃ state index, slot_is index ∧ answered h (OSlotClaimedBy state index base) (λ r, r = Ok true).

(** The transaction may be given up: it recorded no pair, its base is over, its
    metadata is not in the output, and its slot is the base's, unless an earlier
    abort got that far. *)
Definition abortable (h : list sys_event) : Prop :=
  boundary_rank (si_boundary i) < boundary_rank Collected ∧ base_over h ∧
  answered h (OExists meta_path) (λ here, here = false) ∧ (si_aborted i = true ∨ claimed h).

(** The abort is durable before the slot is given back. *)
Definition abort_recorded (h : list sys_event) : Prop :=
  si_aborted i = true ∨ answered h (OWriteIntent (set_aborted i)) (λ r, r = Ok ()).

Definition slot_given_back (h : list sys_event) : Prop :=
  ∃ state index, slot_is index ∧
    answered h (OSlotFree state index base) (λ r, r = Ok FrRemoved ∨ r = Ok FrAlreadyFree ∨
      si_aborted i = true ∧ r = Ok FrAlreadyReassigned).

Definition abort_allows (h : list sys_event) (op : sysop) : Prop :=
  quiet op ∨ si_boundary i = Paused ∧ signals_base h op ∨ abortable h ∧ reaps_base h op ∨
  match op with
  | OSlotClaimedBy _ index room => slot_is index ∧ room = base
  | ORemoveFile p => abortable h ∧ p ∈ partial_outputs i
  | OWriteIntent j => j = set_aborted i ∧ abortable h ∧ base_gone h
  | OSlotFree _ index room => slot_is index ∧ room = base ∧ abortable h ∧ base_gone h ∧ abort_recorded h
  | OFinishIntent j => j = i ∧ abortable h ∧ base_gone h ∧ slot_given_back h
  | _ => False
  end.

Abbreviation RA := abort_allows.

#[local] Instance base_dead_mono : Monotone base_dead. Proof. unfold base_dead, recorded, seen. apply _. Qed.
#[local] Instance base_over_mono : Monotone base_over. Proof. unfold base_over. apply _. Qed.
#[local] Instance claimed_mono : Monotone claimed. Proof. unfold claimed. apply _. Qed.
#[local] Instance abortable_mono : Monotone abortable. Proof. unfold abortable. apply _. Qed.
#[local] Instance abort_recorded_mono : Monotone abort_recorded. Proof. unfold abort_recorded. apply _. Qed.

Lemma abort_quiet h op : quiet op → RA h op.
Proof using Type. by left. Qed.

(** Quiet looks before the abort. *)
Lemma spec_artifacts h : spec RA (any_artifact_nonempty i) h (λ _ _, True).
Proof using All. apply (spec_kind quiet _ _ _ (λ _, True)); [apply abort_quiet| |done]. unfold any_artifact_nonempty. cbn [any_nonempty]. only_walk. Qed.

Lemma spec_terminate_partial h :
  si_boundary i = Paused →
  spec RA (terminate_partial_base home config fuel i) h (λ r h', r = Ok () → base_over h').
Proof using All.
  intros Hb. unfold terminate_partial_base, any. destruct (room_dir home config base) as [room|] eqn:Hroom; [|done].
  cbn [ok_or]. apply spec_ok. spec_call as read; [by left|]. destruct read as [[meta|]|e]; simpl map_err; cbv iota; [| |done].
  - eapply spec_mono; [apply (spec_terminate_pinned RA (λ _, True) abort_quiet room); auto; [|by apply answered_snoc]|].
    + intros h' op _ Hs. right. left. by split.
    + intros r h' [_ H] Hok. left. by apply H.
  - intros _. right. exists room. split; [done|]. by apply answered_snoc.
Qed.

Lemma spec_dead_base h :
  spec RA (base_is_conclusively_dead home config i) h (λ r h', r = Ok true → base_over h').
Proof using All.
  unfold base_is_conclusively_dead, any. destruct (room_dir home config base) as [room|] eqn:Hroom; [|done].
  cbn [ok_or]. apply spec_ok. spec_call as read; [by left|]. destruct read as [[meta|]|e]; simpl map_err; cbv iota; [| |done].
  - destruct (pid meta) as [n|] eqn:Hpid; [|by cbn [room_probe]; spec_down]. spec_down. apply room_probe_spec; [by left|].
    intros stat. case_bool_decide as Hd; spec_down; [|done]. intros _. left. exists n, (pid_starttime meta). split.
    + exists room, meta. split_and!; [done..|]. by apply answered_l, answered_snoc.
    + by apply answered_snoc.
  - intros _. right. exists room. split; [done|]. by apply answered_snoc.
Qed.

Lemma spec_abort_outputs h :
  abortable h → spec RA (remove_partial_outputs i) h (λ _, abortable).
Proof using All.
  intros Ha. unfold remove_partial_outputs. apply (spec_step _ _ _ _ (λ _, abortable)).
  - apply (spec_try_each _ _ (λ _, abortable)); [done| |done]. intros l1 p l2 h' Hl Ha'. unfold remove_if_there.
    assert (Hin : p ∈ partial_outputs i) by (rewrite Hl; apply elem_of_app; right; by left).
    spec_call as r; [right; right; right; by split|].
    assert (Hk : abortable (h' ++ [Event (ORemoveFile p) r])) by by apply abortable_mono.
    destruct r as [[]|e]; [done|]. by case_decide.
  - clear h Ha. intros _ h Ha. apply (spec_kind quiet _ _ _ abortable); [apply abort_quiet|unfold sync_dir, any; only_walk|done].
Qed.

Lemma spec_abort_reap index h :
  slot_is index → abortable h →
  spec RA (abort_reap show_path home config fuel i index) h
    (λ r h', abortable h' ∧ (r = Ok () → base_gone h' ∧ slot_given_back h')).
Proof using All.
  intros Hi Ha. unfold abort_reap.
  destruct (room_dir home config base) as [room|] eqn:Hr; [|done].
  destruct (jail_instance_dir home config base) as [jail|] eqn:Hj; [|done].
  destruct (jail_socket home config base) as [socket|] eqn:Hs; [|done]. cbn [ok_or]. do 3 apply spec_ok.
  apply (spec_step _ _ _ _ (λ _ h, abortable h ∧ base_gone h)).
  { apply spec_map_err. eapply spec_mono; [apply (spec_reap_reserved RA abortable abort_quiet room jail socket index); auto|].
    - intros h' op Ha' Hop. right. right. left. by split.
    - intros [[]|e] h' [H1 H2]; simpl; [split; [done|by apply H2]|done]. }
  clear h Ha. intros [] h [Ha Hg]. apply (spec_step _ _ _ _ (λ _ h, (abortable h ∧ base_gone h) ∧ abort_recorded h)).
  { unfold record_abort. destruct (si_aborted i) eqn:Hab; [by split; [|left]|].
    spec_call as r; [right; right; right; by split_and!|].
    destruct r as [[]|e]; (split; [|]); try done; [split; [by apply abortable_mono|by apply base_gone_mono]| |by apply abortable_mono].
    right. by apply answered_snoc. }
  clear h Ha Hg. intros [] h [[Ha Hg] Hrec]. destruct (exec_state_base home config) as [state|e]; [|done]. apply spec_ok.
  spec_call as r; [right; right; right; by split_and!|].
  assert (Ha' : abortable (h ++ [Event (OSlotFree state index base) r])) by by apply abortable_mono.
  assert (Hg' : base_gone (h ++ [Event (OSlotFree state index base) r])) by by apply base_gone_mono.
  destruct r as [[]|e]; simpl map_err; cbv iota; spec_down; [..|by split].
  - split; [done|]. intros _. split; [done|]. exists state, index. split; [done|]. apply answered_snoc. auto.
  - split; [done|]. intros _. split; [done|]. exists state, index. split; [done|]. apply answered_snoc. auto.
  - destruct (si_aborted i) eqn:Hab; spec_down; [|by split]. split; [done|]. intros _. split; [done|].
    exists state, index. split; [done|]. apply answered_snoc. auto.
Qed.

Lemma spec_give_up h :
  boundary_rank (si_boundary i) < boundary_rank Collected → base_over h →
  spec RA (abort_dead_partial show_path home config fuel i) h (λ _ _, True).
Proof using All.
  intros Hb Ho. unfold abort_dead_partial. destruct (negb (before i Reserved)); [done|].
  spec_call as here; [by left|]. destruct here; [done|]. destruct (exec_state_base home config) as [state|e]; [|done]. apply spec_ok.
  destruct (sm_slot_index (si_meta i)) as [index|] eqn:Hi; [|done]. cbn [ok_or]. apply spec_ok.
  apply (spec_step _ _ _ _ (λ mine h, mine = true → abortable h)).
  { destruct (si_aborted i) eqn:Hab.
    - spec_down. intros _. split_and!; [done|by apply base_over_mono|by apply answered_snoc|by left].
    - spec_call as mine; [right; right; right; by split|]. destruct mine as [mine|e]; simpl map_err; cbv iota; [|done].
      intros ->. split_and!; [done|by do 2 apply base_over_mono|by apply answered_l, answered_snoc|].
      right. exists state, index. split; [done|]. by apply answered_snoc. }
  clear h Ho. intros mine h Ha. destruct mine; cbn [negb]; [|done].
  apply (spec_step _ _ _ _ (λ _, abortable)); [eapply spec_mono; [by apply spec_abort_outputs, Ha|by intros [?|?]]|].
  clear h Ha. intros [] h Ha.
  apply (spec_step _ _ _ _ (λ _ h, abortable h ∧ base_gone h ∧ slot_given_back h)).
  { eapply spec_mono; [by apply spec_abort_reap|]. intros [[]|e] h' [H1 H2]; [split; [done|by apply H2]|done]. }
  clear h Ha. intros [] h (Ha & Hg & Hf). split; [|done]. right. right. right. by split_and!.
Qed.

End transaction.
(** ** Recovery *)

Definition listed (i : SnapshotIntent) (h : list sys_event) : Prop :=
  answered h OSnapshotIntents (λ r, ∃ l, r = Ok l ∧ i ∈ l).

Definition transaction_allows (i : SnapshotIntent) (h : list sys_event) (op : sysop) : Prop :=
  drive_allows i h op ∨ abort_allows i h op.

Lemma transaction_keeps_lock i id h op :
  transaction_allows i h op → op ≠ OUnlock id.
Proof using Type.
  intros [[Hq|[[_ [Hs|Hr]]|Hx]]|[Hq|[[_ Hs]|[[_ Hr]|Hx]]]] ->; try done;
    try (by destruct Hs as (? & ? & ? & _ & _ & [=] & _));
    destruct Hr as (? & ? & ? & ? & _ & _ & _ & _ & [Hr|[_ [[=]|[_ [[=]|[=]]]]]]); done.
Qed.

(** A part of the transaction runs under the base's lock. *)
Lemma spec_under_lock {A : Type} R id (p : sys A) h Q :
  (∀ h op, R h op → op ≠ OUnlock id) → lock_held id h → spec R p h Q →
  spec (λ h op, R h op ∧ lock_held id h) p h (λ a h', Q a h' ∧ lock_held id h').
Proof using Type.
  intros HR Hl Hp. apply spec_invariant; [done|done|]. intros h' op x Hop Hl'.
  apply lock_held_more; [done|]. intros e ->%list_elem_of_singleton. by eapply HR.
Qed.

Abbreviation drive_it := (drive show_path show_secs show_json imm parse_meta parse_receipt show_receipt home config fuel).
Abbreviation completed_at i := (completed i).

Lemma spec_recover_locked i sid h :
  spec (transaction_allows i)
    (recover_locked show_path show_secs show_json imm parse_meta parse_receipt show_receipt home config fuel sid i) h
    (λ r h', ∀ rep, r = Ok rep → rc_pending rep = [] ∧ ∃ s, rc_completed rep = Some s ∧ completed i s h').
Proof using All.
  unfold recover_locked.
  assert (HD : ∀ A (p : sys A) h Q, spec (drive_allows i) p h Q → spec (transaction_allows i) p h Q).
  { intros A p h' Q Hp. eapply spec_weaken; [exact Hp|]. intros h2 op H. by left. }
  assert (HA : ∀ A (p : sys A) h Q, spec (abort_allows i) p h Q → spec (transaction_allows i) p h Q).
  { intros A p h' Q Hp. eapply spec_weaken; [exact Hp|]. intros h2 op H. by right. }
  apply (spec_step _ _ _ _ (λ _ _, True)).
  { case_bool_decide; [|done]. eapply spec_mono; [apply HD, (spec_quietly i _ _ (λ _, True)); [apply quiet_preflight|done]|].
    by intros [?|?]. }
  clear h. intros _ h _. apply (spec_step _ _ _ _ (λ _ _, True)).
  - unfold before. destruct (Nat.ltb_spec (boundary_rank (si_boundary i)) (boundary_rank Collected)) as [Hb|]; [|done].
    apply spec_bind. apply (spec_mono _ _ _ (λ b _, b = true → si_boundary i = Paused)).
    { case_bool_decide as Hp; [|done]. eapply spec_mono; [apply HA, spec_artifacts|]. done. }
    clear h. intros ambiguous h Hamb. apply (spec_step _ _ _ _ (λ _ h, ambiguous = true → base_over i h)).
    { destruct ambiguous; [|done]. eapply spec_mono; [by apply HA, spec_terminate_partial, Hamb|].
      intros [[]|e] h' H; [intros _; by apply H|done]. }
    clear h. intros [] h Ho. apply (spec_step _ _ _ _ (λ dead h, dead = true → base_over i h)).
    { destruct ambiguous; [intros _; by apply Ho|]. eapply spec_mono; [apply HA, spec_dead_base|].
      intros [dead|e] h' H; [intros ->; by apply H|done]. }
    clear h Ho. intros dead h Ho. destruct dead; [|done]. apply spec_try.
    eapply spec_mono; [by apply HA, spec_give_up, Ho|]. by intros [[]|e] h' _.
  - clear h. intros [] h _. apply (spec_step _ _ _ _ (λ s h, completed i s h)).
    { eapply spec_mono; [apply HD, spec_transaction|]. intros [s|e] h' H; [by apply H|done]. }
    intros s h' Hs. intros rep [= <-]. split; [done|]. by exists s.
Qed.

(** What recovery of the transaction [sid] may do. *)
Definition recover_allows (sid : option string) (h : list sys_event) (op : sysop) : Prop :=
  op = OSnapshotIntents ∨
  ∃ i, sid = Some (si_snapshot_id i) ∧ listed i h ∧
    (op = OTryLock (si_base_room_id i) ∨
     lock_held (si_base_room_id i) h ∧ (op = OUnlock (si_base_room_id i) ∨ transaction_allows i h op)).

#[local] Instance listed_mono i : Monotone (listed i). Proof. unfold listed. apply _. Qed.

Lemma find_first_in {A} (f : A → bool) l x : find_first f l = Some x → x ∈ l ∧ f x = true.
Proof using Type.
  rewrite find_first_Some. intros (k & Hk & Hf & _). split; [by eapply list_elem_of_lookup_2|done].
Qed.

Abbreviation recover_it := (recover show_path show_secs show_json imm parse_meta parse_receipt show_receipt home config fuel).

Lemma spec_recover sid :
  spec (recover_allows sid) (recover_it sid) []
    (λ r h, ∀ rep, r = Ok rep → match sid with
     | None => rc_completed rep = None
     | Some sid => ∃ i s, si_snapshot_id i = sid ∧ listed i h ∧ rc_completed rep = Some s ∧ completed i s h
     end).
Proof using All.
  unfold recover. spec_call as r; [by left|]. destruct r as [l|e]; cbv iota; [|done]. destruct sid as [sid|]; spec_down; [|by intros rep [= <-]].
  destruct (find_first _ l) as [i|] eqn:Hf; [|done]. apply find_first_in in Hf as [Hi Hid%bool_decide_eq_true].
  cbn [ok_or]. unfold with_base_lock.
  assert (Hl : ∀ k, listed i ([] ++ [Event OSnapshotIntents (Ok l)] ++ k)).
  { intros k. apply (listed_mono i ([] ++ [Event OSnapshotIntents (Ok l)])). apply answered_snoc. by exists l. }
  spec_call as held; [right; exists i; split; [by rewrite Hid|]; split; [apply (Hl [])|by left]|].
  destruct held as [[]|e]; cbv iota; cbn [negb]; [|done|done]. unfold locked. spec_down.
  set (h0 := ([] ++ [Event OSnapshotIntents (Ok l)]) ++ [Event (OTryLock (si_base_room_id i)) (Ok true)]).
  assert (Hl0 : listed i h0) by (unfold h0; rewrite <- (assoc_L (++)); apply Hl).
  assert (Hlock : lock_held (si_base_room_id i) h0) by apply lock_taken.
  eapply spec_mono; [eapply (spec_weaken (λ h op, (transaction_allows i h op ∧ lock_held (si_base_room_id i) h) ∧ listed i h))|].
  - apply spec_invariant; [|done|intros; by apply listed_mono].
    apply spec_under_lock; [intros h op; apply transaction_keeps_lock|done|apply spec_recover_locked].
  - intros h op [[Ht Hh] Hli]. right. exists i. rewrite Hid. split; [done|]. split; [done|]. right. auto.
  - intros r h [[Hr Hh] Hli]. spec_call as [].
    { right. exists i. rewrite Hid. split; [done|]. split; [done|]. right. auto. }
    intros rep Hrep. destruct (Hr rep Hrep) as (_ & s & Hs & Hc). exists i, s. split_and!; [done|by apply listed_mono|done|].
    by apply completed_mono.
Qed.

(** ** Creation *)

Section creation.
  Context (base_id : string).

(** Calls that look, lock, or make the output directory. *)
Definition setup (op : sysop) : Prop :=
  match op with
  | OSnapshotIntents | OUtcNow | OCanonicalize _ | OCanonical _ | OResolveOutput _ _ _ _ | OCreateDir _
  | OTryOutputLock _ | OUnlockOutput _ => True
  | ORun program args => program = "getent" ∨ program = firecracker_binary config ∧ args = ["--version"]
  | op => quiet op
  end.

Definition created (i : SnapshotIntent) (h : list sys_event) : Prop := answered h (OCreateIntent i) (λ r, r = Ok ()).

Definition target_absent (p : path) (h : list sys_event) : Prop :=
  answered h (OLstat p) (λ r, ∃ e, r = Err e ∧ kind e = NotFound).

(** The output is this transaction's: locked, and in no other's intent. *)
Definition output_taken (out : path) (h : list sys_event) : Prop :=
  answered h (OTryOutputLock out) (λ r, r = Ok true) ∧
  answered h OSnapshotIntents (λ r, ∃ l, r = Ok l ∧
    ∀ j, j ∈ l → si_out_dir j = out → si_base_room_id j = base_id).

(** The intent is the plan of the base as its metadata was read. *)
Definition planned (i : SnapshotIntent) (h : list sys_event) : Prop :=
  ∃ room meta req now p, room_dir home config base_id = Some room ∧ answered h (OReadMeta room) (λ r, r = Ok (Some meta)) ∧
    plan meta req now = Ok p ∧ si_meta i = sp_meta p ∧ si_base_room_id i = meta_id meta ∧
    si_boundary i = Pending ∧ si_aborted i = false.

(** A transaction that may be begun. *)
Definition admitted (i : SnapshotIntent) (h : list sys_event) : Prop :=
  no_snapshot base_id h ∧ planned i h ∧ output_taken (si_out_dir i) h ∧
  target_absent (si_jail_vmstate i) h ∧ target_absent (si_jail_mem i) h.

(** The transaction the invocation drives: a live one of the index, or its own. *)
Definition ours (i : SnapshotIntent) (h : list sys_event) : Prop :=
  listed i h ∧ si_base_room_id i = base_id ∧ si_aborted i = false ∨ created i h.

Definition body_allows (h : list sys_event) (op : sysop) : Prop :=
  setup op ∨ (∃ i, op = OCreateIntent i ∧ admitted i h) ∨ ∃ i, ours i h ∧ drive_allows i h op.

Definition create_allows (h : list sys_event) (op : sysop) : Prop :=
  op = OTryLock base_id ∨ lock_held base_id h ∧ (op = OUnlock base_id ∨ body_allows h op).

#[local] Instance ours_mono i : Monotone (ours i). Proof. unfold ours, listed, created. apply _. Qed.
#[local] Instance output_taken_mono p : Monotone (output_taken p). Proof. unfold output_taken. apply _. Qed.
#[local] Instance target_absent_mono p : Monotone (target_absent p). Proof. unfold target_absent. apply _. Qed.
#[local] Instance planned_mono i : Monotone (planned i). Proof. unfold planned. apply _. Qed.
#[local] Instance no_snapshot_mono_base : Monotone (no_snapshot base_id). Proof. unfold no_snapshot. apply _. Qed.

Lemma quiet_setup op : quiet op → setup op.
Proof using Type. destruct op; simpl; auto. Qed.

Lemma setup_allowed h op : setup op → body_allows h op.
Proof using Type. by left. Qed.

Definition done_by (r : result string SnapshotResult) (h : list sys_event) : Prop :=
  ∀ s, r = Ok s → ∃ i, ours i h ∧ completed i s h.

Lemma spec_drive_ours i h : ours i h → spec body_allows (drive_it i) h done_by.
Proof using All.
  intros Ho. eapply spec_mono; [eapply (spec_weaken (λ h op, drive_allows i h op ∧ ours i h))|].
  - apply spec_invariant; [apply spec_transaction|done|intros; by apply ours_mono].
  - intros h' op [? ?]. right. right. by exists i.
  - intros r h' [Hc Ho'] s Hr. exists i. split; [done|by apply Hc].
Qed.

Lemma spec_setup {A : Type} (p : sys A) h (P : list sys_event → Prop) `{!Monotone P} :
  only setup p → P h → spec body_allows p h (λ _ h', P h').
Proof using Type. apply spec_kind; [done|]. apply setup_allowed. Qed.

Lemma setup_step {E A B : Type} (p : sys (result E A)) (k : A → sys (result E B)) h P `{!Monotone P} Q :
  only setup p → P h → (∀ e h', P h' → Q (Err e) h') → (∀ a h', P h' → spec body_allows (k a) h' Q) →
  spec body_allows (try* a := p in k a) h Q.
Proof using Type.
  intros Hp HP He Hk. apply (spec_step _ _ _ _ (λ _ h', P h')); [|done].
  eapply spec_mono; [by apply (spec_setup p h P)|]. intros [a|e] h' H; [done|by apply He].
Qed.

Lemma spec_resume i out h :
  listed i h → si_base_room_id i = base_id →
  spec body_allows (resume_indexed show_path show_secs show_json imm parse_meta parse_receipt show_receipt home config fuel out i) h done_by.
Proof using All.
  intros Hl Hb. unfold resume_indexed.
  apply (setup_step _ _ _ (listed i)); [unfold validate_resume; only_walk|done|by intros e h' _ s|]. clear h Hl. intros [] h Hl.
  apply spec_bind. apply (spec_mono _ _ _ (λ b h, listed i h ∧ (b = false → si_aborted i = false))).
  { destruct (si_aborted i); [by split|]. case_bool_decide; [|by split].
    eapply spec_mono; [apply (spec_setup _ _ (listed i)); [|done]|by intros b h' Hl'].
    unfold any_artifact_nonempty. cbn [any_nonempty]. only_walk. }
  clear h Hl. intros [] h [Hl Hab]; [by intros s|]. apply spec_drive_ours. left. auto.
Qed.

Lemma setup_toolstore root recorded : only setup (attached_toolstore show_path imm sha256 root recorded).
Proof using Type.
  unfold attached_toolstore, hash_sealed_toolstore, open_regular, require_file, require_with_ops, inspect_flags, io_context,
    capture_file, sha256_open_file, any. only_walk.
Qed.

Lemma setup_version : only setup (firecracker_version config).
Proof using Type. unfold firecracker_version, any. cbn [ptry pbind pmap_err call]. split; [by right|]. intros x. only_walk. Qed.

Lemma setup_missing rpath : only setup (missing_tree rpath).
Proof using Type. induction rpath as [|n l IH]; cbn [missing_tree]; only_walk. Qed.

Lemma setup_prepare p : only setup (prepare_output show_path p).
Proof using Type.
  pose proof setup_missing. unfold prepare_output, create_output_tree, set_dir_private_call, sync_dir, any. only_walk;
    apply only_try_each; intros dir _; only_walk.
Qed.

Hint Resolve setup_toolstore setup_version : only.

(** Over a step that only sets up. *)
Ltac setup_past P :=
  apply (setup_step _ _ _ P); [|assumption|by intros|];
  [unfold open_regular, require_file, require_with_ops, inspect_flags, io_context, capture_file, sha256_open_file, active_vsock, any;
   only_walk; auto with only; fail|];
  let a := fresh "a" in let h := fresh "h" in let H := fresh "H" in
  match goal with HP : P ?h0 |- _ => clear HP; intros a h H end.

Lemma spec_build base snapshot out h (P : list sys_event → Prop) `{!Monotone P} :
  P h → spec body_allows (build_intent show_path imm sha256 home config base snapshot out) h
    (λ r h', P h' ∧ ∀ i, r = Ok i → si_out_dir i = out ∧ si_boundary i = Pending ∧ si_aborted i = false ∧
       si_base_room_id i = meta_id base ∧ ∃ req now p, plan base req now = Ok p ∧ si_meta i = sp_meta p).
Proof using All.
  intros HP. unfold build_intent. do 6 setup_past P. case_bool_decide; cbn [negb]; [|done]. do 3 setup_past P.
  spec_call as now; [by left|]. match goal with |- context [plan base ?req now] => set (rq := req) end.
  destruct (plan base rq now) as [p|e] eqn:Hp; simpl map_err; cbv iota; spec_down; (split; [by apply monotone|]); [|done].
  intros i [= <-]. split_and!; [done..|]. by exists rq, now, p.
Qed.

Lemma spec_absent i h (P : list sys_event → Prop) `{!Monotone P} :
  P h → spec body_allows (ensure_targets_absent show_path i) h
    (λ r h', P h' ∧ (r = Ok () → target_absent (si_jail_vmstate i) h' ∧ target_absent (si_jail_mem i) h')).
Proof using All.
  intros HP. unfold ensure_targets_absent.
  set (I := λ (l : list path) h, P h ∧ ∀ p, p ∈ l → target_absent p h). apply (spec_step _ _ _ _ (λ _, I [si_jail_vmstate i; si_jail_mem i])).
  - apply (spec_try_each _ _ I); [by split; [|intros p ?%elem_of_nil]| |done].
    intros l1 p l2 h' _ [HP' Hd]. spec_call as meta; [by left|].
    assert (HP2 : P (h' ++ [Event (OLstat p) meta])) by by apply monotone.
    destruct meta as [meta|e]; spec_down; [by split|]. case_decide; spec_down; [|by split]. split; [done|].
    intros q [Hq| ->%list_elem_of_singleton]%elem_of_app; [by apply target_absent_mono, Hd|]. apply answered_snoc. eauto.
  - clear h HP. intros ys h [HP Hd]. split; [done|]. intros _. split; apply Hd; [by left|right; by left].
Qed.

Lemma spec_begin base snapshot out h :
  no_snapshot base_id h → answered h (OTryOutputLock out) (λ r, r = Ok true) →
  (∃ room, room_dir home config base_id = Some room ∧ answered h (OReadMeta room) (λ r, r = Ok (Some base))) →
  spec body_allows
    (begin show_path show_secs show_json imm sha256 parse_meta parse_receipt show_receipt home config fuel base_id base snapshot out) h done_by.
Proof using All.
  intros Hn Hlock Hbase. unfold begin.
  set (B := λ h, no_snapshot base_id h ∧ ∃ room, room_dir home config base_id = Some room ∧ answered h (OReadMeta room) (λ r, r = Ok (Some base))).
  assert (HB : Monotone B) by (unfold B; apply _).
  set (P := λ h, B h ∧ output_taken out h). assert (HP : Monotone P) by (unfold P; apply _).
  apply (spec_step _ _ _ _ (λ _, P)).
  { unfold ensure_unclaimed. spec_call as l; [by left|]. destruct l as [l|e]; cbv iota; [|by intros s].
    destruct (find_first _ l) as [j|] eqn:Hf; spec_down; [by intros s|]. split; [by apply HB|].
    split; [by apply answered_l|]. apply answered_snoc. exists l. split; [done|]. intros j Hj Hout.
    rewrite find_first_None in Hf. specialize (Hf j Hj). rewrite bool_decide_eq_true_2 in Hf by done. simpl in Hf.
    unfold for_base in Hf. by case_bool_decide. }
  clear h Hn Hlock Hbase. intros [] h Hh.
  apply (setup_step _ _ _ P); [|done|by intros e h' _ s|].
  { apply setup_prepare. }
  clear h Hh. intros [] h Hh. setup_past P. case_bool_decide; cbn [negb]; [|by intros s].
  apply (spec_step _ _ _ _ (λ i h, P h ∧ planned i h ∧ si_out_dir i = out)).
  { eapply spec_mono; [by apply (spec_build base snapshot out _ P)|]. intros [i|e] h' [HP' Hi]; [|by intros s].
    destruct (Hi i eq_refl) as (Hout & Hb & Hab & Hid & req & now & p & Hp & Hm). split; [done|]. split; [|done].
    destruct HP' as [[_ (room & Hr & Hread)] _]. exists room, base, req, now, p. by split_and!. }
  intros i h2 (Hh2 & Hi & Hout).
  set (Q := λ h, P h ∧ planned i h). assert (HQ : Monotone Q) by (unfold Q; apply _).
  apply (spec_step _ _ _ _ (λ _ h, Q h ∧ target_absent (si_jail_vmstate i) h ∧ target_absent (si_jail_mem i) h)).
  { eapply spec_mono; [by apply (spec_absent i _ Q)|]. intros [[]|e] h' [H1 H2]; [split; [done|by apply H2]|by intros s]. }
  clear h2 Hh2 Hi. intros [] h2 (((( Hn & _) & Ht) & Hi) & Hv & Hm). spec_call as c.
  { right. left. exists i. split; [done|]. by rewrite <- Hout in Ht. }
  destruct c as [[]|e]; cbv iota; [|by intros s]. apply spec_drive_ours. right. by apply answered_snoc.
Qed.

Abbreviation create_it := (create show_path show_secs show_json imm sha256 parse_meta parse_receipt show_receipt home config fuel base_id).

Lemma setup_keeps_lock h op : body_allows h op → op ≠ OUnlock base_id.
Proof using Type.
  intros [Hs|[(i & -> & _)|(i & _ & Hd)]]; [|done|].
  - intros ->. done.
  - by apply (transaction_keeps_lock i base_id h op); left.
Qed.

Lemma spec_create out : spec create_allows (create_it out) [] done_by.
Proof using All.
  unfold create. destruct (negb (is_valid_room_id base_id)); [by intros s|].
  destruct (exec_state_base home config) as [state|e]; [|by intros s]. apply spec_ok. unfold with_base_lock.
  spec_call as held; [by left|]. destruct held as [[]|e]; cbn [negb]; cbv iota; [|by intros s|by intros s]. unfold locked. apply spec_bind.
  eapply (spec_mono _ _ _ (λ r h, done_by r h ∧ lock_held base_id h)).
  - eapply spec_weaken; [apply spec_under_lock; [apply setup_keeps_lock|apply lock_taken|]|].
    2:{ intros h op [? ?]. right. split; [done|]. by right. }
    spec_call as l; [by left|]. destruct l as [l|e]; cbv iota; [|by intros s].
    set (h := _ ++ [Event OSnapshotIntents (Ok l)]).
    destruct (find_first (for_base base_id) l) as [i|] eqn:Hf.
    { apply find_first_in in Hf as [Hi Hb%bool_decide_eq_true]. apply spec_resume; [|done]. apply answered_snoc. by exists l. }
    assert (Hn : no_snapshot base_id h) by (apply answered_snoc; by exists l). revert Hn. generalize h as h0. clear h. intros h Hn.
    destruct (room_dir home config base_id) as [room|] eqn:Hroom; [|by intros s]. cbn [ok_or]. apply spec_ok. unfold any.
    spec_call as read; [by left|]. destruct read as [[base|]|e]; simpl map_err; cbv iota; [|by intros s|by intros s].
    cbn [ok_or]. spec_down. destruct (negb (RoomMeta_is_snapshottable base)); [by intros s|].
    spec_call as fresh; [by left|]. spec_call as where_; [by left|]. destruct where_ as [where_|e]; cbv iota; [|by intros s].
    unfold with_output_lock. spec_call as taken; [by left|]. destruct taken as [[]|e]; cbv iota; cbn [negb]; [|by intros s|by intros s].
    apply spec_bind. eapply spec_mono; [apply spec_begin|].
    + by do 4 apply no_snapshot_mono_base.
    + by apply answered_snoc.
    + exists room. split; [done|]. do 3 apply answered_l. by apply answered_snoc.
    + intros r h' Hr. spec_call as []; [by left|]. intros s Hs. destruct (Hr s Hs) as (i & Ho & Hc). exists i.
      split; [by apply ours_mono|by apply completed_mono].
  - intros r h [Hr Hl]. spec_call as []; [right; split; [done|by left]|]. intros s Hs. destruct (Hr s Hs) as (i & Ho & Hc). exists i.
    split; [by apply ours_mono|by apply completed_mono].
Qed.

End creation.
End snapshot_order.

Section theorems.
  Context (show_path : path → string) (show_secs : N → string) (show_json : json → result string string)
    (imm : N) (sha256 : string → string) (parse_meta : string → result string SnapshotMeta)
    (parse_receipt : string → result string SnapshotAttestation) (show_receipt : SnapshotAttestation → result string string)
    (home : option path) (config : RoomsConfig) (fuel : nat).

(** C4.  Taking a snapshot, whatever the host answers and wherever it stops.  Under
    the base's lock, a transaction is begun only for a base read to be sealed and
    neutral, with no transaction of its own indexed, into an output locked and
    claimed by no other, and with nothing at its jail targets.  The base is paused
    only once the staging is durable and frozen only once the pause is; the pair is
    moved into the output only after the freeze was accepted; the slot is reserved
    only once the pair is durable; the base is signalled, its directories removed
    and its tap deleted only once the reservation is; the metadata is written only
    once the base is gone; and the transaction is recorded as published only after
    the pair was seen whole and every file, the directory and the receipt were seen
    sealed.  Its slot is never freed.  Success means all of this happened. *)
Theorem snapshot_ordered base_id out tr o :
  run (create show_path show_secs show_json imm sha256 parse_meta parse_receipt show_receipt home config fuel base_id out) tr o →
  guarded (create_allows show_path show_json imm parse_meta home config base_id) tr ∧
  ∀ s, o = Some (Ok s) → ∃ i, ours base_id i tr ∧ completed imm home config i s tr.
Proof.
  intros Hrun. destruct (spec_run _ _ _ _ _ (spec_create _ _ _ _ _ _ _ _ _ _ _ _ _) Hrun) as [Hg Hp].
  split; [exact Hg|]. intros s ->. by apply (Hp (Ok s)).
Qed.

(** C5.  Recovering a snapshot, whatever the host answers and wherever it stops: it
    acts only on the transaction asked for, as the index listed it, and under its
    base's lock.  It drives it in the order a snapshot keeps, or gives it up.  It
    gives up only a transaction that recorded no pair, whose base was seen dead or
    gone (or, for a pause of unknown outcome, was signalled as the recorded process
    and then seen dead), whose metadata was not published and whose slot is still
    the base's.  The abort is made durable after the base is gone and before the
    slot is freed, and the index is cleared only after the slot was given back. *)
Theorem recover_ordered sid tr o :
  run (recover show_path show_secs show_json imm parse_meta parse_receipt show_receipt home config fuel sid) tr o →
  guarded (recover_allows show_path show_json imm parse_meta home config sid) tr ∧
  ∀ rep, o = Some (Ok rep) →
    match sid with
    | None => rc_completed rep = None
    | Some sid => ∃ i s, si_snapshot_id i = sid ∧ listed i tr ∧ rc_completed rep = Some s ∧ completed imm home config i s tr
    end.
Proof.
  intros Hrun. destruct (spec_run _ _ _ _ _ (spec_recover _ _ _ _ (λ _, "") _ _ _ _ _ _ _) Hrun) as [Hg Hp].
  split; [exact Hg|]. intros rep ->. by apply (Hp (Ok rep)).
Qed.

End theorems.

(** A host with one live base, whose disks seal. *)
Definition asked (h : list sys_event) : nat :=
  length (List.filter (λ e, match ev_op e with ORunStatus _ _ => true | _ => false end) h).

Definition made_new (p : path) (h : list sys_event) : bool :=
  existsb (λ e, match ev_op e with OOpen q OpenPrivateNew => bool_decide (p = q) | _ => false end) h.

Definition directory_stat : stat := {| st_kind := KindDir; st_uid := 0; st_id := st_id idle_stat |}.
Definition empty_stat : stat :=
  {| st_kind := KindFile; st_uid := 0;
     st_id := {| fi_device := 1; fi_inode := 1; fi_len := 0; fi_mode := 33152; fi_mtime := 0; fi_mtime_nsec := 0;
                 fi_ctime := 0; fi_ctime_nsec := 0 |} |}.

Definition base_meta : RoomMeta :=
  {| schema_version := 1; meta_id := sample_base; label := None; started_at := 0; pid := Some 7%N;
     pid_starttime := Some 9%N; keep := true; slot := Some (derive 3); clone_net_index := None;
     provenance := Some Neutral; snapshot_lineage := None; toolstore_sha256 := None; base_repo_sha := None |}.

Definition freezing_host (h : list sys_event) (op : sysop) : ans op :=
  match op return ans op with
  | OReadMeta _ => Ok (Some base_meta)
  | OExists p => bool_decide (p = [])
  | OLstat p =>
      if bool_decide (last p = Some SNAPSHOT_ATTESTATIONS_DIR) || bool_decide (p = ["out"]) then Ok directory_stat else
      if existsb (λ n, bool_decide (last p = Some n)) [SNAPSHOT_VMSTATE_FILE; SNAPSHOT_MEM_FILE; SNAPSHOT_META_FILE] then
        if (2 <=? asked h)%nat then Ok idle_stat else
        if made_new p h then Ok empty_stat else Err (io_err NotFound)
      else Err (io_err NotFound)
  | OGetFlags _ =>
      Ok (fold_left (λ flags e, match ev_op e with OSetFlags _ new => new | _ => flags end) h 24%N)
  | ORun program args =>
      Ok {| success := true; stderr := "";
            stdout := if (program =? "getent")%string then "firecracker:x:7:8::/:/bin/sh" else "Firecracker v1.7.0" |}
  | OReadText _ => Err (io_err NotFound)
  | op => idle_host h op
  end.

Definition sample_create : sys (result string SnapshotResult) :=
  create (join "/") show_N (λ _, Ok "{}") 16 (λ _, "00") (λ _, Ok sample_meta) (λ _, Err "no receipt") (λ _, Ok "{}")
    None sample_config 5 sample_base None.

Lemma snapshot_ordered_witness :
  let r := exec freezing_host sample_create [] in
  ∃ s i, fst r = Some (Ok s) ∧ ours sample_base i (snd r) ∧ completed 16 None sample_config i s (snd r).
Proof.
  intros r. assert (E : ∃ s, fst r = Some (Ok s)) by (vm_compute; by eexists). destruct E as [s E]. exists s.
  destruct (snapshot_ordered (join "/") show_N (λ _, Ok "{}") 16 (λ _, "00") (λ _, Ok sample_meta) (λ _, Err "no receipt")
    (λ _, Ok "{}") None sample_config 5 sample_base None (snd r) (fst r) (exec_run_nil _ _)) as [_ H].
  destruct (H s E) as (i & Ho & Hc). exists i. exact (conj E (conj Ho Hc)).
Defined.

(** A host with a transaction whose base is gone: it is given up. *)
Definition stranded_host (h : list sys_event) (op : sysop) : ans op :=
  match op return ans op with
  | OSnapshotIntents => Ok [sample_intent Paused false]
  | OSlotClaimedBy _ _ _ => Ok true
  | op => idle_host h op
  end.

Definition sample_recover : sys (result string RecoveryReport) :=
  recover (join "/") show_N (λ _, Ok "{}") 16 (λ _, Ok sample_meta) (λ _, Err "no receipt") (λ _, Ok "{}")
    None sample_config 5 (Some sample_snapshot).

Lemma recover_ordered_witness :
  let r := exec stranded_host sample_recover [] in
  drop 30 (ev_op <$> snd r) =
    [OWriteIntent (sample_intent Paused true); OSlotFree ["s"] 3 sample_base;
     OFinishIntent (sample_intent Paused false); OUnlock sample_base] ∧
  guarded (recover_allows (join "/") (λ _, Ok "{}") 16 (λ _, Ok sample_meta) None sample_config (Some sample_snapshot)) (snd r).
Proof.
  intros r. assert (E : drop 30 (ev_op <$> snd r) =
    [OWriteIntent (sample_intent Paused true); OSlotFree ["s"] 3 sample_base;
     OFinishIntent (sample_intent Paused false); OUnlock sample_base]) by (vm_compute; reflexivity).
  destruct (recover_ordered (join "/") show_N (λ _, Ok "{}") 16 (λ _, Ok sample_meta) (λ _, Err "no receipt") (λ _, Ok "{}")
    None sample_config 5 (Some sample_snapshot) (snd r) (fst r) (exec_run_nil _ _)) as [H _].
  exact (conj E H).
Defined.
