(* ===== verification/Vsock.v ===== *)
(** * Vsock: the guest's sockets ([vsock.rs])

    The host side of the three conversations with a guest: one-shot secrets,
    base provisioning, and the nudge after a restore.  A serving task is a program
    of its own, kept in the handle that awaits it.  Bytes are read one at a time,
    as the code does; a read or an accept under a deadline may answer that the
    deadline came first.  Logging is left out, with the clock that only it reads,
    and so is the closing of what a task still owns when it ends. *)

From S2P Require Import Prelude RStr Fs Prog Config Pcap Launch Boot RestoreExec.
From stdpp Require Import options.

Definition PROVISION_PORT : N := 5001.
Definition QUIESCED_PORT : N := 5002.
Definition RESUME_PORT : N := 5003.

Definition RESUME_PREFACE : string := "ROOMS-RESUME/2".
Definition RESUME_PREFACE_MAX_CANDIDATES : nat := 8.
(** In nanoseconds. *)
Definition RESUME_PREFACE_RETRY_WINDOW : N := 5000000000.
Definition RESUME_CLOCK_APPLY_MAX : N := 4000000000.

(** The calls of the serving tasks.  Times are nanoseconds of the monotonic
    clock, [VUtcNow] is in seconds. *)
Inductive vsop :=
| VRemoveFile (p : path)
| VBind (p : path)
| VChown (p : path) (uid gid : N)
| VAccept (listener : N) (by_ : option N)
| VCloseListener (listener : N)
| VWrite (c : N) (text : string)
| VReadByte (c : N) (by_ : option N)
| VReadOne (c : N)
| VReadToEnd (c : N)
| VClose (c : N)
| VNow
| VUtcNow
| VUlid
| VProgress (step : string)
| VAbort.

(** [None] where the deadline came first; a byte is [None] at the end of the
    stream. *)
Definition vans (op : vsop) : Type :=
  match op with
  | VRemoveFile _ | VChown _ _ _ | VWrite _ _ => result io_error unit
  | VBind _ => result io_error N
  | VAccept _ _ => option (result io_error N)
  | VReadByte _ _ => option (result io_error (option byte))
  | VReadOne _ | VReadToEnd _ => result io_error string
  | VNow => N
  | VUtcNow => Z
  | VUlid => string
  | VCloseListener _ | VClose _ | VProgress _ | VAbort => unit
  end.

Abbreviation vsock := (prog vans) (only parsing).
Abbreviation vevent := (event vans) (only parsing).

(** How a wait for a task ended. *)
Inductive waited := Finished (r : result string unit) | TaskEnded | Elapsed.

Definition nl_line (l : string) : string := l +:+ String nl EmptyString.

(** [String::from_utf8]: a text is valid exactly when nothing of it has to be
    replaced. *)
Definition from_utf8 (s : string) : option string :=
  if (from_utf8_lossy (String.list_ascii_of_string s) =? s)%string then Some s else None.

Definition eof_error : io_error := IoError OtherKind "unexpected end of file".

Section vsock.
  (** [{:?}] of a text, and of a failed [String::from_utf8]. *)
  Variable show_debug : string → string.
  Variable show_utf8_error : string → string.

Definition wr {A : Type} (what : string) (p : vsock (result io_error A)) : vsock (result string A) :=
  pmap_err (λ e, what +:+ ": " +:+ message e) p.

(** ** Framing *)

Definition write_typed_frame (c : N) (kind bytes : string) : vsock (result string unit) :=
  try* _ := wr ("write " +:+ kind +:+ " header") (call (VWrite c (nl_line (kind +:+ " " +:+ show_N (N.of_nat (len bytes)))))) in
  wr ("write " +:+ kind +:+ " body") (call (VWrite c bytes)).

(** What no deadline bounds and is never answered waits for ever. *)
Definition unbounded {A : Type} (p : vsock (option A)) : vsock A :=
  let* r := p in match r with Some a => Ret a | None => Spin end.

Definition timed_out (timed : string) {A : Type} (p : vsock (option (result string A))) : vsock (result string A) :=
  let* r := p in match r with Some r => Ret r | None => Ret (Err timed) end.

(** [room] bytes may still be pushed. *)
Fixpoint read_line_from (c : N) (by_ : option N) (room : nat) (bytes : string) : vsock (option (result string string)) :=
  let* read := call (VReadByte c by_) in
  match read with
  | None => Ret None
  | Some (Err e) => Ret (Some (Err ("read protocol line: " +:+ message e)))
  | Some (Ok None) => Ret (Some (Err ("read protocol line: " +:+ message eof_error)))
  | Some (Ok (Some b)) =>
      if (b =? nl)%char then
        Ret (Some (ok_or (from_utf8 bytes) ("protocol line is not utf-8: " +:+ show_utf8_error bytes)))
      else
        match room with
        | 0 => Ret (Some (Err "protocol line exceeds 64 bytes"))
        | S room => read_line_from c by_ room (bytes +:+ String b EmptyString)
        end
  end.

(** [by_] is the deadline of the [timeout_at] around it. *)
Definition read_bounded_line (c : N) (by_ : option N) : vsock (option (result string string)) :=
  read_line_from c by_ 64 EmptyString.

(** ** One-shot secrets *)

(** A pending delivery: the task that serves it, and the socket. *)
Record Delivery := { dl_task : vsock (result string unit); dl_listen_path : path }.

Definition await_delivered (timeout : N) (w : waited) : result string unit :=
  match w with
  | Finished r => r
  | TaskEnded => Err "delivery task ended without a result"
  | Elapsed =>
      Err ("no guest ack within " +:+ show_N timeout +:+
           "s (image predates vsock secrets, or the guest fetch hook failed)")
  end.

Definition Delivery_drop (listen_path : path) : vsock unit :=
  do* call VAbort in do* call (VRemoveFile listen_path) in Ret ().

(** The acknowledgement, up to its newline or its ninth byte. *)
Fixpoint read_ack (c : N) (room : nat) (ack : string) : vsock (result string string) :=
  let* read := unbounded (call (VReadByte c None)) in
  match read with
  | Err e => Ret (Err ("read ack: " +:+ message e))
  | Ok None => Ret (Err ("read ack: " +:+ message eof_error))
  | Ok (Some b) =>
      if (b =? nl)%char then Ret (Ok ack) else
      let ack := ack +:+ String b EmptyString in
      match room with
      | 0 => Ret (Ok ack)
      | S room => read_ack c room ack
      end
  end.

Definition serve_stream (c : N) (payload : string) : vsock (result string unit) :=
  try* _ := wr "write header" (call (VWrite c (nl_line (show_N (N.of_nat (len payload)))))) in
  try* _ := wr "write blob" (call (VWrite c payload)) in
  try* ack := read_ack c 8 EmptyString in
  if (ack =? "OK")%string then Ret (Ok ())
  else Ret (Err ("guest ack malformed: " +:+ show_debug (from_utf8_lossy (String.list_ascii_of_string ack)))).

(** An accept no deadline bounds. *)
Definition accept (listener : N) : vsock (result io_error N) := unbounded (call (VAccept listener None)).

Definition serve (listener : N) (listen_path : path) (payload : string) : vsock (result string unit) :=
  try* c := wr "accept" (accept listener) in
  do* call (VCloseListener listener) in
  do* call (VRemoveFile listen_path) in
  let* r := serve_stream c payload in
  do* call (VClose c) in
  Ret r.

(** [chown] of a bound socket to its owner, when there is one. *)
Definition own (p : path) (owner : option (N * N)) : vsock (result io_error unit) :=
  match owner with Some (uid, gid) => call (VChown p uid gid) | None => Ret (Ok ()) end.

Definition serve_one_shot (listen_path : path) (payload : string) (owner : option (N * N))
    : vsock (result io_error Delivery) :=
  do* call (VRemoveFile listen_path) in
  try* listener := call (VBind listen_path) in
  try* _ := own listen_path owner in
  Ret (Ok {| dl_task := serve listener listen_path payload; dl_listen_path := listen_path |}).

(** ** Base provisioning *)

Record ProvisioningDelivery := { pd_task : vsock (result string unit); pd_paths : path * path }.

Definition await_quiesced (timeout : N) (w : waited) : result string unit :=
  match w with
  | Finished r => r
  | TaskEnded => Err "provisioning task ended without a result"
  | Elapsed => Err ("no quiesced beacon within " +:+ show_N timeout +:+ "s")
  end.

Definition ProvisioningDelivery_drop (paths : path * path) : vsock unit :=
  do* call VAbort in
  do* call (VRemoveFile (fst paths)) in
  do* call (VRemoveFile (snd paths)) in Ret ().

Definition read_ack_phase (c : N) (phase : string) : vsock (result string unit) :=
  try* ack := unbounded (read_bounded_line c None) in
  if (ack =? "ACK " +:+ phase)%string then Ret (Ok ())
  else Ret (Err ("provisioning " +:+ phase +:+ " ack malformed: " +:+ show_debug ack)).

Definition serve_provisioning_inner (provision_listener quiesced_listener : N) (paths : path * path)
    (payload : ProvisioningPayload) : vsock (result string unit) :=
  let '(provision_path, quiesced_path) := paths in
  try* c := wr "accept provisioning agent" (accept provision_listener) in
  do* call (VCloseListener provision_listener) in
  try* _ := wr "retire provisioning endpoint" (call (VRemoveFile provision_path)) in
  try* _ := wr "write provisioning preface" (call (VWrite c (nl_line "ROOMS-PROVISION/1"))) in
  try* _ := write_typed_frame c "BUNDLE" (pp_bundle payload) in
  try* _ := write_typed_frame c "WARM" (pp_warm payload) in
  try* _ := write_typed_frame c "END" EmptyString in
  try* _ := ptry_each (read_ack_phase c) ["stage"; "clone"; "warm"] in
  try* trailing := wr "wait for provisioning connection close" (call (VReadOne c)) in
  if negb (is_empty trailing) then Ret (Err "provisioning connection carried trailing bytes") else
  do* call (VClose c) in
  try* beacon := wr "accept quiesced beacon" (accept quiesced_listener) in
  do* call (VCloseListener quiesced_listener) in
  try* _ := wr "retire beacon endpoint" (call (VRemoveFile quiesced_path)) in
  try* bytes := wr "read quiesced beacon" (call (VReadToEnd beacon)) in
  if (bytes =? nl_line "quiesced")%string then Ret (Ok ())
  else Ret (Err ("quiesced beacon malformed: " +:+ show_debug (from_utf8_lossy (String.list_ascii_of_string bytes)))).

Definition serve_provisioning (jail_root : path) (payload : ProvisioningPayload) (owner : option (N * N))
    : vsock (result io_error ProvisioningDelivery) :=
  let provision_path := listener_path_for jail_root PROVISION_PORT in
  let quiesced_path := listener_path_for jail_root QUIESCED_PORT in
  do* call (VRemoveFile provision_path) in
  do* call (VRemoveFile quiesced_path) in
  try* provision := call (VBind provision_path) in
  let* bound := call (VBind quiesced_path) in
  match bound with
  | Err e => do* call (VRemoveFile provision_path) in Ret (Err e)
  | Ok quiesced =>
      try* _ := own provision_path owner in
      try* _ := own quiesced_path owner in
      let paths := (provision_path, quiesced_path) in
      Ret (Ok {| pd_task := serve_provisioning_inner provision quiesced paths payload; pd_paths := paths |})
  end.

(** ** The nudge after a restore *)

Record ResumePayload := {
  rp_room_id : string;
  rp_entropy : string;
  rp_secrets : string;
  rp_clock_challenge : string;
  rp_continue_challenge : string;
}.

Definition ResumePayload_new (room_id entropy secrets : string) : vsock ResumePayload :=
  let* clock_challenge := call VUlid in
  let* continue_challenge := call VUlid in
  Ret {| rp_room_id := room_id; rp_entropy := entropy; rp_secrets := secrets;
         rp_clock_challenge := clock_challenge; rp_continue_challenge := continue_challenge |}.

(** The clock is read at the delivery. *)
Definition epoch_secs : vsock Z := call VUtcNow.

Record ResumeDelivery := { rd_task : vsock (result string unit); rd_listen_path : path; rd_room_id : string }.

(** The shared progress: [None] when its lock is poisoned. *)
Definition latest_resume_step (progress : option (option string)) : string :=
  match progress with None => "unknown" | Some step => default "none" step end.

Definition await_acked (room_id : string) (progress : option (option string)) (timeout : N) (w : waited) : result string unit :=
  match w with
  | Finished r => r
  | TaskEnded => Err "resume nudge task ended without a result"
  | Elapsed =>
      Err ("no resume ack for room " +:+ room_id +:+ " within " +:+ show_N timeout +:+ "s after last successful STEP " +:+
           latest_resume_step progress +:+ " (image predates the resume agent, or hygiene failed in-guest)")
  end.

Definition ResumeDelivery_drop (listen_path : path) : vsock unit :=
  do* call VAbort in do* call (VRemoveFile listen_path) in Ret ().

Inductive ResumePreface := RetiredPrefix (received : nat) | Line (line : string).

Fixpoint read_preface_from (c : N) (by_ : option N) (room : nat) (bytes : string)
    : vsock (option (result string ResumePreface)) :=
  let* read := call (VReadByte c by_) in
  match read with
  | None => Ret None
  | Some (Ok None) =>
      Ret (Some (if starts_with RESUME_PREFACE bytes then Ok (RetiredPrefix (len bytes))
                 else Err ("resume preface diverged before EOF: " +:+
                           show_debug (from_utf8_lossy (String.list_ascii_of_string bytes)))))
  | Some (Err e) => Ret (Some (Err ("read resume preface: " +:+ message e)))
  | Some (Ok (Some b)) =>
      if (b =? nl)%char then
        Ret (Some (match from_utf8 bytes with
                   | Some line => Ok (Line line)
                   | None => Err ("resume preface is not utf-8: " +:+ show_utf8_error bytes)
                   end))
      else
        match room with
        | 0 => Ret (Some (Err "resume preface exceeds 64 bytes"))
        | S room => read_preface_from c by_ room (bytes +:+ String b EmptyString)
        end
  end.

Definition read_resume_preface (c : N) (by_ : option N) : vsock (option (result string ResumePreface)) :=
  read_preface_from c by_ 64 EmptyString.

Definition resume_error (room_id what : string) : string := "resume protocol for room " +:+ room_id +:+ ": " +:+ what.

(** The deadline runs from the first candidate that connected. *)
Definition retry_deadline (deadline : option N) : vsock N :=
  match deadline with
  | Some limit => Ret limit
  | None => let* now := call VNow in Ret (now + RESUME_PREFACE_RETRY_WINDOW)%N
  end.

(** [remaining] candidates, the next of them the [candidate]th. *)
Fixpoint accept_candidates (listener : N) (room_id : string) (deadline : option N) (candidate remaining : nat)
    : vsock (result string N) :=
  match remaining with
  | 0 =>
      Ret (Err (resume_error room_id (show_N (N.of_nat RESUME_PREFACE_MAX_CANDIDATES) +:+
                  " agent candidates retired before a complete preface")))
  | S remaining =>
      let* accepted :=
        match deadline with
        | None => unbounded (pbind (call (VAccept listener None)) (λ r, Ret (fmap (M:=option) Ok r)))
        | Some limit =>
            let* r := call (VAccept listener (Some limit)) in
            Ret (ok_or r (resume_error room_id ("preface retry deadline expired after " +:+
                            show_N (N.of_nat (candidate - 1)) +:+ " candidate(s)")))
        end in
      try* accepted := Ret accepted in
      try* c := Ret (map_err (λ e, resume_error room_id ("accept agent: " +:+ message e)) accepted) in
      let* limit := retry_deadline deadline in
      try* preface := timed_out (resume_error room_id ("candidate " +:+ show_N (N.of_nat candidate) +:+
                                   " sent no preface before the retry deadline"))
                                (read_resume_preface c (Some limit)) in
      match preface with
      | Line line =>
          if (line =? RESUME_PREFACE)%string then Ret (Ok c)
          else Ret (Err (resume_error room_id ("candidate " +:+ show_N (N.of_nat candidate) +:+
                           " preface malformed: " +:+ show_debug line)))
      | RetiredPrefix _ =>
          do* call (VClose c) in
          accept_candidates listener room_id (Some limit) (S candidate) remaining
      end
  end.

Definition accept_resume_agent (listener : N) (room_id : string) : vsock (result string N) :=
  accept_candidates listener room_id None 1 RESUME_PREFACE_MAX_CANDIDATES.

Definition read_resume_record (c : N) (by_ : option N) (room_id : string) (last_step : option string)
    : vsock (option (result string string)) :=
  let step := default "none" last_step in
  let* read := read_bounded_line c by_ in
  Ret (match read with
       | None => None
       | Some (Err error) =>
           Some (Err ("resume protocol for room " +:+ room_id +:+ " ended after last successful STEP " +:+ step +:+ ": " +:+ error))
       | Some (Ok line) =>
           match strip_prefix "ERR " line with
           | Some error =>
               Some (if is_empty error then Ok line
                     else Err ("resume guest error for room " +:+ room_id +:+ " after last successful STEP " +:+ step +:+
                               ": " +:+ error))
           | None => Some (Ok line)
           end
       end).

Definition expect_resume_record (c : N) (by_ : option N) (room_id : string) (last_step : option string) (expected : string)
    : vsock (option (result string unit)) :=
  let* read := read_resume_record c by_ room_id last_step in
  Ret (match read with
       | None => None
       | Some (Err error) => Some (Err error)
       | Some (Ok line) =>
           Some (if (line =? expected)%string then Ok ()
                 else Err (resume_error room_id ("expected " +:+ show_debug expected +:+ ", got " +:+ show_debug line +:+
                             " after last successful STEP " +:+ default "none" last_step)))
       end).

(** The last step is what it answers. *)
Definition record_resume_step (step : string) : vsock (option string) :=
  do* call (VProgress step) in Ret (Some step).

Definition expect_resume_step (c : N) (room_id : string) (last_step : option string) (expected_step : string)
    : vsock (result string (option string)) :=
  try* _ := unbounded (expect_resume_record c None room_id last_step ("STEP " +:+ expected_step)) in
  let* last_step := record_resume_step expected_step in
  Ret (Ok last_step).

Definition validate_clock_application_elapsed (room_id : string) (last_step : option string) (elapsed : N) : result string unit :=
  if (elapsed <? RESUME_CLOCK_APPLY_MAX)%N then Ok ()
  else Err (resume_error room_id ("CLOCK application took " +:+ show_N (elapsed / 1000000) +:+ "ms, exceeding the strict <" +:+
              show_N (RESUME_CLOCK_APPLY_MAX / 1000000000) +:+ "s freshness budget after last successful STEP " +:+
              default "none" last_step)).

Definition send_initial_resume_payload (c : N) (payload : ResumePayload) : vsock (result string unit) :=
  let room_id := rp_room_id payload in
  try* _ := pmap_err (resume_error room_id) (write_typed_frame c "ENTROPY" (rp_entropy payload)) in
  try* _ := pmap_err (resume_error room_id) (wr "write identity" (call (VWrite c (nl_line ("IDENTITY " +:+ room_id))))) in
  try* _ := pmap_err (resume_error room_id) (write_typed_frame c "SECRETS" (rp_secrets payload)) in
  pmap_err (resume_error room_id) (write_typed_frame c "END" EmptyString).

(** The steps of the loop, one after the other, with the last of them. *)
Fixpoint expect_resume_steps (c : N) (room_id : string) (last_step : option string) (steps : list string)
    : vsock (result string (option string)) :=
  match steps with
  | [] => Ret (Ok last_step)
  | step :: steps =>
      try* last_step := expect_resume_step c room_id last_step step in
      expect_resume_steps c room_id last_step steps
  end.

Definition clock_line (epoch : Z) (challenge : string) : string := nl_line ("CLOCK " +:+ pretty epoch +:+ " " +:+ challenge).
Definition continue_line (challenge : string) : string := nl_line ("CONTINUE clock " +:+ challenge).

(** The clock exchange: the time sampled, sent, acknowledged in time, and the
    guest let go on. *)
Definition clock_exchange (c : N) (payload : ResumePayload) (last_step : option string) : vsock (result string unit) :=
  let room_id := rp_room_id payload in
  let* clock_started := call VNow in
  let* epoch := epoch_secs in
  try* _ := pmap_err (resume_error room_id) (wr "write clock" (call (VWrite c (clock_line epoch (rp_clock_challenge payload))))) in
  try* _ := timed_out (resume_error room_id ("CLOCK was not applied within the " +:+
                         show_N (RESUME_CLOCK_APPLY_MAX / 1000000000) +:+ "s freshness budget after last successful STEP " +:+
                         default "none" last_step))
                      (expect_resume_record c (Some (clock_started + RESUME_CLOCK_APPLY_MAX)%N) room_id last_step
                         ("APPLIED clock " +:+ rp_clock_challenge payload)) in
  let* now := call VNow in
  try* _ := Ret (validate_clock_application_elapsed room_id last_step (now - clock_started)%N) in
  pmap_err (resume_error room_id) (wr "write clock continuation" (call (VWrite c (continue_line (rp_continue_challenge payload))))).

Definition complete_resume_protocol (c : N) (payload : ResumePayload) : vsock (result string unit) :=
  let room_id := rp_room_id payload in
  try* last_step := expect_resume_steps c room_id None ["reseeded"; "identity"; "hostkeys"; "privilege"] in
  try* _ := unbounded (expect_resume_record c None room_id last_step "READY clock") in
  try* _ := clock_exchange c payload last_step in
  try* _ := unbounded (expect_resume_record c None room_id last_step ("STEP clock " +:+ rp_continue_challenge payload)) in
  let* last_step := record_resume_step "clock" in
  try* last_step := expect_resume_step c room_id last_step "sshd" in
  unbounded (expect_resume_record c None room_id last_step "ACK resume").

Definition serve_resume_inner (listener : N) (listen_path : path) (payload : ResumePayload) : vsock (result string unit) :=
  let room_id := rp_room_id payload in
  try* c := accept_resume_agent listener room_id in
  do* call (VCloseListener listener) in
  try* _ := pmap_err (resume_error room_id) (wr "retire endpoint" (call (VRemoveFile listen_path))) in
  try* _ := send_initial_resume_payload c payload in
  complete_resume_protocol c payload.

Definition serve_resume (jail_root : path) (payload : ResumePayload) (owner : option (N * N))
    : vsock (result io_error ResumeDelivery) :=
  let listen_path := listener_path_for jail_root RESUME_PORT in
  do* call (VRemoveFile listen_path) in
  try* listener := call (VBind listen_path) in
  try* _ := own listen_path owner in
  Ret (Ok {| rd_task := serve_resume_inner listener listen_path payload;
             rd_listen_path := listen_path; rd_room_id := rp_room_id payload |}).

End vsock.
