(* ===== verification/VsockOrder.v ===== *)
(** * VsockOrder: what is said to a guest, and when

    The conversations of [Vsock.v] as sequences of turns, and what a serving
    task that succeeded has said and heard. *)

From S2P Require Import Prelude RStr Fs Prog Pcap Boot RestoreExec Vsock.
From stdpp Require Import options.

(** ** Conversations *)

(** A text the host sent, a byte it read, and what a read of the rest of the
    stream answered. *)
Inductive turn := Sent (text : string) | Got (b : byte) | Rest (text : string).

(** A turn belongs to the newest connection, if it was made on that. *)
Definition say (c : N) (t : turn) (talks : list (N * list turn)) : list (N * list turn) :=
  match talks with
  | (c', said) :: older => if (c =? c')%N then (c', said ++ [t]) :: older else talks
  | [] => []
  end.

Definition hear (talks : list (N * list turn)) (e : vevent) : list (N * list turn) :=
  match e with
  | Event op x =>
      match op return vans op → _ with
      | VAccept _ _ => λ x, match x with Some (Ok c) => (c, []) :: talks | _ => talks end
      | VWrite c text => λ x, match x with Ok _ => say c (Sent text) talks | Err _ => talks end
      | VReadByte c _ => λ x, match x with Some (Ok (Some b)) => say c (Got b) talks | _ => talks end
      | VReadOne c | VReadToEnd c => λ x, match x with Ok text => say c (Rest text) talks | Err _ => talks end
      | _ => λ _, talks
      end x
  end.

(** The connections of a history, the newest first, with what was said on each. *)
Definition talks (h : list vevent) : list (N * list turn) := foldl hear [] h.

(** A line as it is heard. *)
Definition heard (line : string) : list turn := (Got <$> String.list_ascii_of_string line) ++ [Got nl].

Definition frame (kind bytes : string) : list turn :=
  [Sent (nl_line (kind +:+ " " +:+ show_N (N.of_nat (len bytes)))); Sent bytes].

Definition is_read (op : vsop) : Prop := match op with VReadByte _ _ => True | _ => False end.

(** Only reads lie between two histories. *)
Definition reads_from (h h' : list vevent) : Prop := ∃ k, h' = h ++ k ∧ all_calls is_read k.

Lemma talks_snoc h e : talks (h ++ [e]) = hear (talks h) e.
Proof. apply foldl_snoc. Qed.

Lemma reads_refl h : reads_from h h.
Proof. exists []. split; [by rewrite (right_id_L [] (++))|by intros e ?%elem_of_nil]. Qed.

Lemma reads_snoc h h' c by_ x : reads_from h h' → reads_from h (h' ++ [Event (VReadByte c by_) x]).
Proof.
  intros (k & -> & Hk). exists (k ++ [Event (VReadByte c by_) x]). split; [by rewrite (assoc_L (++))|].
  intros e [He| ->%list_elem_of_singleton]%elem_of_app; [by apply Hk|done].
Qed.

Lemma say_newest c t said older : say c t ((c, said) :: older) = (c, said ++ [t]) :: older.
Proof. simpl. by rewrite N.eqb_refl. Qed.

Lemma heard_cons b l : heard (String b l) = Got b :: heard l.
Proof. done. Qed.

Lemma heard_app s t : heard (s +:+ t) = (Got <$> String.list_ascii_of_string s) ++ heard t.
Proof. induction s as [|a s IH]; [done|]. rewrite app_cons, heard_cons, IH. done. Qed.

(** [c] is the newest connection, [said] what was said on it. *)
Definition speaking (c : N) (said : list turn) (older : list (N * list turn)) (h : list vevent) : Prop :=
  talks h = (c, said) :: older.

Lemma speaking_write c said older h text x :
  speaking c said older h → is_ok x = true →
  speaking c (said ++ [Sent text]) older (h ++ [Event (Ans := vans) (VWrite c text) x]).
Proof. unfold speaking. intros Hh Hx. destruct x; [|done]. rewrite talks_snoc, Hh. apply say_newest. Qed.

Lemma speaking_read c said older h by_ b :
  speaking c said older h →
  speaking c (said ++ [Got b]) older (h ++ [Event (Ans := vans) (VReadByte c by_) (Some (Ok (Some b)))]).
Proof. unfold speaking. intros Hh. rewrite talks_snoc, Hh. apply say_newest. Qed.

(** Reading goes on with what was said. *)
Lemma reads_extend c said older h h' :
  speaking c said older h → reads_from h h' → ∃ more, speaking c (said ++ more) older h'.
Proof.
  intros Hs (k & -> & Hk). induction k as [|e k IH] using rev_ind.
  { exists []. by rewrite !(right_id_L [] (++)). }
  destruct IH as (more & Hm); [intros e' He'; apply Hk, elem_of_app; by left|].
  assert (Hop : is_read (ev_op e)) by (apply Hk, elem_of_app; right; by left).
  destruct e as [[] x]; try done. unfold speaking in *. rewrite (assoc_L (++)), talks_snoc, Hm.
  destruct x as [[[b|]|]|]; simpl; [|by exists more..].
  destruct (N.eqb _ _); [|by exists more]. exists (more ++ [Got b]). by rewrite (assoc_L (++)).
Qed.

(** Calls that say nothing. *)
Definition mute (op : vsop) : Prop :=
  match op with
  | VAccept _ _ | VWrite _ _ | VReadByte _ _ | VReadOne _ | VReadToEnd _ => False
  | _ => True
  end.

Lemma talks_mute h op x : mute op → talks (h ++ [Event op x]) = talks h.
Proof. intros Hop. rewrite talks_snoc. by destruct op. Qed.

Lemma speaking_mute c said older h op x : mute op → speaking c said older h → speaking c said older (h ++ [Event op x]).
Proof. unfold speaking. intros Hop Hh. by rewrite talks_mute. Qed.

#[export] Hint Resolve reads_refl reads_snoc : rooms.

(** ** Reading *)

Section reading.
  Variable show_debug show_utf8_error : string → string.
  Variable R : list vevent → vsop → Prop.
  Variables (c : N) (by_ : option N) (older : list (N * list turn)) (h0 : list vevent).
  Hypothesis may_read : ∀ h said, reads_from h0 h → speaking c said older h → R h (VReadByte c by_).

(** A line that was read is what was heard. *)
Lemma spec_read_line room bytes h said :
  reads_from h0 h → speaking c said older h →
  spec R (read_line_from show_utf8_error c by_ room bytes) h
    (λ r h', ∀ line, r = Some (Ok line) →
       reads_from h0 h' ∧ ∃ rest, line = bytes +:+ rest ∧ speaking c (said ++ heard rest) older h').
Proof using All.
  revert bytes h said. induction room as [|room IH]; intros bytes h said Hh Hs; cbn [read_line_from];
    (spec_call as x; [by eapply may_read|]);
    (destruct x as [[[b|]|e]|]; [|by intros ?..]).
  all: assert (Hb := speaking_read c said older h by_ b Hs); assert (Hr := reads_snoc h0 h c by_ (Some (Ok (Some b))) Hh).
  all: destruct (b =? nl)%char eqn:Hnl; [apply Ascii.eqb_eq in Hnl; subst b|].
  1, 3: spec_down; unfold from_utf8; intros line [= El]; revert El; case_match; intros [= <-]; split; [done|];
    exists EmptyString; split; [by rewrite app_nil_r|done].
  - by intros line [= ?].
  - eapply spec_mono; [by apply IH|]. intros r h' H line Hline. destruct (H line Hline) as (Hr' & rest & -> & Hs').
    split; [done|]. exists (String b rest). split; [by rewrite app_assoc|].
    rewrite heard_cons, cons_middle, (assoc_L (++)). exact Hs'.
Qed.

Lemma spec_expect_record room_id last_step expected h said :
  reads_from h0 h → speaking c said older h →
  spec R (expect_resume_record show_debug show_utf8_error c by_ room_id last_step expected) h
    (λ r h', ∀ u, r = Some (Ok u) → reads_from h0 h' ∧ speaking c (said ++ heard expected) older h').
Proof using All.
  intros Hh Hs. unfold expect_resume_record, read_resume_record, read_bounded_line. spec_down.
  eapply spec_mono; [by eapply spec_read_line|]. intros [[line|e]|] h' H; spec_down; [|by intros u ?..].
  destruct (H line eq_refl) as (Hr & rest & -> & Hs').
  assert (Hline : ∀ u, (if (EmptyString +:+ rest =? expected)%string then Ok () else
      Err (resume_error room_id ("expected " +:+ show_debug expected +:+ ", got " +:+ show_debug (EmptyString +:+ rest) +:+
        " after last successful STEP " +:+ default "none" last_step))) = Ok u → speaking c (said ++ heard expected) older h').
  { intros u. destruct (String.eqb_spec (EmptyString +:+ rest) expected) as [<-|]; [done|by intros]. }
  destruct (strip_prefix "ERR " (EmptyString +:+ rest)) as [error|]; [destruct (is_empty error)|]; intros u [= Hu]; eauto.
Qed.

(** The same for the first line of a candidate, unless it hung up. *)
Lemma spec_read_preface room bytes h said :
  reads_from h0 h → speaking c said older h →
  spec R (read_preface_from show_debug show_utf8_error c by_ room bytes) h
    (λ r h', ∀ p, r = Some (Ok p) →
       reads_from h0 h' ∧ ∀ line, p = Line line → ∃ rest, line = bytes +:+ rest ∧ speaking c (said ++ heard rest) older h').
Proof using All.
  revert bytes h said. induction room as [|room IH]; intros bytes h said Hh Hs; cbn [read_preface_from];
    (spec_call as x; [by eapply may_read|]);
    (destruct x as [[[b|]|e]|]; [| |by intros ?..|by intros]).
  2, 4: spec_down; case_match; intros p [= <-]; split; [by apply reads_snoc|by intros].
  all: assert (Hb := speaking_read c said older h by_ b Hs); assert (Hr := reads_snoc h0 h c by_ (Some (Ok (Some b))) Hh).
  all: destruct (b =? nl)%char eqn:Hnl; [apply Ascii.eqb_eq in Hnl; subst b|].
  1, 3: spec_down; unfold from_utf8; case_match; [|by intros p ?]; case_match; [|done];
    intros p [= <-]; split; [done|]; intros line [= <-]; exists EmptyString; simplify_eq; split; [by rewrite app_nil_r|done].
  - by intros p [= ?].
  - eapply spec_mono; [by apply IH|]. intros r h' H p Hp. destruct (H p Hp) as (Hr' & Hl). split; [done|].
    intros line ->. destruct (Hl line eq_refl) as (rest & -> & Hs'). exists (String b rest). split; [by rewrite app_assoc|].
    rewrite heard_cons, cons_middle, (assoc_L (++)). exact Hs'.
Qed.

End reading.

(** ** Steps that may fail *)

Section fallible.
  Variable R : list vevent → vsop → Prop.

Lemma spec_unbounded {A : Type} (p : vsock (option A)) h Q :
  spec R p h (λ r h', ∀ a, r = Some a → Q a h') → spec R (unbounded p) h Q.
Proof. intros Hp. apply spec_bind. eapply spec_mono; [exact Hp|]. intros [a|] h' H; [by apply H|done]. Qed.

Lemma spec_timed_out {A : Type} timed (p : vsock (option (result string A))) h P :
  spec R p h (λ r h', ∀ a, r = Some (Ok a) → P a h') → spec R (timed_out timed p) h (went_well P).
Proof.
  intros Hp. apply spec_bind. eapply spec_mono; [exact Hp|]. intros [r|] h' H a; [|by intros].
  intros ->. by apply H.
Qed.

Lemma spec_well_unbounded {A : Type} (p : vsock (option (result string A))) h P :
  spec R p h (λ r h', ∀ a, r = Some (Ok a) → P a h') → spec R (unbounded p) h (went_well P).
Proof.
  intros Hp. apply spec_unbounded. eapply spec_mono; [exact Hp|]. intros r h' H r' -> a ->. by apply H.
Qed.

(** A write that is allowed. *)
Lemma spec_write {c said older what text h} (P : list vevent → Prop) `{!Monotone P} :
  R h (VWrite c text) → speaking c said older h → P h →
  spec R (wr what (call (VWrite c text))) h
    (went_well (λ _ h', speaking c (said ++ [Sent text]) older h' ∧ P h' ∧
       h' = h ++ [Event (Ans := vans) (VWrite c text) (Ok ())])).
Proof.
  intros HR Hs HP. unfold wr. spec_call as x; [done|]. destruct x as [[]|e]; intros u; [|by intros].
  intros _. split; [by apply speaking_write|]. split; [by apply monotone|done].
Qed.

End fallible.

(** ** The nudge after a restore *)

Section resume.
  Variable payload : ResumePayload.
  Abbreviation challenge := (rp_clock_challenge payload).
  Abbreviation permit := (rp_continue_challenge payload).

(** What is said before the clock is asked for. *)
Definition resume_opening : list turn :=
  heard RESUME_PREFACE ++ frame "ENTROPY" (rp_entropy payload) ++ [Sent (nl_line ("IDENTITY " +:+ rp_room_id payload))] ++
  frame "SECRETS" (rp_secrets payload) ++ frame "END" EmptyString ++
  heard "STEP reseeded" ++ heard "STEP identity" ++ heard "STEP hostkeys" ++ heard "STEP privilege" ++ heard "READY clock".

Definition resume_clock (epoch : Z) : list turn := Sent (clock_line epoch challenge) :: heard ("APPLIED clock " +:+ challenge).

(** The conversation of a nudge that succeeds. *)
Definition resume_script (epoch : Z) : list turn :=
  resume_opening ++ resume_clock epoch ++ Sent (continue_line permit) ::
  heard ("STEP clock " +:+ permit) ++ heard "STEP sshd" ++ heard "ACK resume".

(** The time was sampled by the last call but one. *)
Definition sampled (epoch : Z) (h : list vevent) : Prop :=
  ∃ h0 t, h = h0 ++ [Event (Ans := vans) VNow t; Event (Ans := vans) VUtcNow epoch].

(** The time was sampled, sent and acknowledged in less than four seconds, of
    which the last call measured the end. *)
Definition applied_in_time (c : N) (epoch : Z) (h : list vevent) : Prop :=
  ∃ h0 t0 k t1,
    h = h0 ++ [Event (Ans := vans) VNow t0; Event (Ans := vans) VUtcNow epoch;
               Event (Ans := vans) (VWrite c (clock_line epoch challenge)) (Ok ())] ++ k ++
        [Event (Ans := vans) VNow t1] ∧
    all_calls is_read k ∧ (t1 - t0 < RESUME_CLOCK_APPLY_MAX)%N.

(** What may be sent after what was said. *)
Definition may_say (c : N) (said : list turn) (text : string) (h : list vevent) : Prop :=
  (said ++ [Sent text]) `prefix_of` resume_opening ∨
  (said = resume_opening ∧ ∃ epoch, text = clock_line epoch challenge ∧ sampled epoch h) ∨
  (∃ epoch, said = resume_opening ++ resume_clock epoch ∧ text = continue_line permit ∧ applied_in_time c epoch h).

Variables (listener : N) (listen_path : path).

Fixpoint accepts (h : list vevent) : nat :=
  match h with
  | [] => 0
  | Event (VAccept _ _) _ :: h => S (accepts h)
  | _ :: h => accepts h
  end.

Fixpoint first_now (h : list vevent) : option N :=
  match h with
  | [] => None
  | Event VNow t :: _ => Some t
  | _ :: h => first_now h
  end.

(** No agent is waited for any longer. *)
Definition closed (h : list vevent) : Prop := Event (Ans := vans) (VCloseListener listener) () ∈ h.

Definition retired (h : list vevent) : Prop := closed h ∧ answered h (VRemoveFile listen_path) (λ r, is_ok r = true).

(** What a serving task may do after what it has done. *)
Definition nudge_allows (h : list vevent) (op : vsop) : Prop :=
  match op with
  | VAccept l by_ =>
      l = listener ∧ ¬ closed h ∧ accepts h < RESUME_PREFACE_MAX_CANDIDATES ∧
      by_ = (λ t, t + RESUME_PREFACE_RETRY_WINDOW)%N <$> first_now h ∧ (accepts h ≠ 0 → is_Some (first_now h))
  | VWrite c text => retired h ∧ ∃ said older, speaking c said older h ∧ may_say c said text h
  | VReadByte c by_ => ∃ said older, speaking c said older h
  | VCloseListener l => l = listener
  | VRemoveFile p => p = listen_path
  | VClose _ | VNow | VUtcNow | VProgress _ => True
  | _ => False
  end.

(** *** Choosing the agent *)

Variable show_debug : string → string.
Variable show_utf8_error : string → string.

Lemma closed_snoc h e : closed (h ++ [e]) ↔ closed h ∨ e = Event (Ans := vans) (VCloseListener listener) ().
Proof. unfold closed. rewrite elem_of_app, list_elem_of_singleton. split; intros [?|?]; auto. Qed.

Lemma accepts_snoc h e : accepts (h ++ [e]) = accepts h + match ev_op e with VAccept _ _ => 1 | _ => 0 end.
Proof. induction h as [|[[] x] h IH]; simpl; rewrite ?IH; try done. by destruct e as [[] x]. Qed.

Lemma first_now_snoc h e :
  first_now (h ++ [e]) = match first_now h with Some t => Some t | None => first_now [e] end.
Proof. induction h as [|[[] x] h IH]; simpl in *; try done. Qed.

(** The state of the search: [n] candidates were accepted. *)
Definition searching (n : nat) (deadline : option N) (h : list vevent) : Prop :=
  ¬ closed h ∧ accepts h = n ∧ deadline = (λ t, t + RESUME_PREFACE_RETRY_WINDOW)%N <$> first_now h ∧
  (n ≠ 0 → is_Some (first_now h)).

Lemma searching_idle n limit h op x :
  (match op with VAccept _ _ | VCloseListener _ => False | _ => True end) →
  searching n (Some limit) h → searching n (Some limit) (h ++ [Event op x]).
Proof.
  intros Hop (Hc & Ha & Hd & Hn). split; [|split; [|split]].
  - rewrite closed_snoc. intros [?|[= ? ?]]; [done|]. by subst.
  - rewrite accepts_snoc. destruct op; (done || (simpl; lia)).
  - rewrite first_now_snoc. by destruct (first_now h).
  - intros Hne. rewrite first_now_snoc. by destruct (first_now h).
Qed.

Lemma searching_reads n limit h h' : searching n (Some limit) h → reads_from h h' → searching n (Some limit) h'.
Proof.
  intros Hh (k & -> & Hk). induction k as [|[op x] k IH] using rev_ind; [by rewrite (right_id_L [] (++))|].
  rewrite (assoc_L (++)). apply searching_idle.
  - pose proof (Hk (Event op x)) as He. simpl in He. destruct op; try done; apply He, elem_of_app; right; by left.
  - apply IH. intros e He. apply Hk, elem_of_app. by left.
Qed.

(** The deadline of the first candidate is set once it has connected. *)
Lemma spec_retry_deadline c said older n deadline h h0 :
  searching n deadline h0 → h = h0 ++ [Event (Ans := vans) (VAccept listener deadline) (Some (Ok c))] →
  speaking c said older h →
  spec nudge_allows (retry_deadline deadline) h
    (λ limit h', searching (S n) (Some limit) h' ∧ speaking c said older h').
Proof.
  intros (Hc & Ha & Hd & Hn) -> Hs.
  assert (Hc' : ¬ closed (h0 ++ [Event (Ans := vans) (VAccept listener deadline) (Some (Ok c))])).
  { rewrite closed_snoc. by intros [?|[=]]. }
  unfold retry_deadline. destruct deadline as [limit|].
  - split; [|done]. split; [done|]. rewrite accepts_snoc, first_now_snoc. simpl.
    destruct (first_now h0) as [t|]; [|done]. split; [lia|]. split; [done|]. by eexists.
  - spec_call as now; [done|]. destruct (first_now h0) as [t|] eqn:Ht; [done|]. split; [|by apply speaking_mute].
    split; [rewrite closed_snoc; by intros [?|[=]]|]. rewrite !accepts_snoc, !first_now_snoc, Ht. simpl.
    split; [lia|]. split; [done|]. by eexists.
Qed.

Lemma spec_accept_candidates room_id candidate remaining deadline n h :
  searching n deadline h → n + remaining = RESUME_PREFACE_MAX_CANDIDATES →
  spec nudge_allows (accept_candidates show_debug show_utf8_error listener room_id deadline candidate remaining) h
    (went_well (λ c h', ∃ older, speaking c (heard RESUME_PREFACE) older h')).
Proof using All.
  revert candidate deadline n h. induction remaining as [|remaining IH]; intros candidate deadline n h Hh Hn;
    cbn [accept_candidates]; [by intros c [=]|].
  assert (Hmay : nudge_allows h (VAccept listener deadline)).
  { destruct Hh as (Hc & Ha & Hd & Hsome). split; [done|]. split; [done|]. split; [lia|]. split; [done|]. by rewrite Ha. }
  apply spec_bind.
  assert (Hacc : spec nudge_allows
    (match deadline with
     | None => unbounded (pbind (call (VAccept listener None)) (λ r, Ret (fmap (M:=option) Ok r)))
     | Some limit =>
         let* r := call (VAccept listener (Some limit)) in
         Ret (ok_or r (resume_error room_id ("preface retry deadline expired after " +:+
                         show_N (N.of_nat (candidate - 1)) +:+ " candidate(s)")))
     end) h (λ r h', ∀ c, r = Ok (Ok c) → h' = h ++ [Event (Ans := vans) (VAccept listener deadline) (Some (Ok c))])).
  { destruct deadline as [limit|]; [|apply spec_unbounded]; (spec_call as x; [done|]); destruct x as [x|]; simpl;
      [by intros c [= ->]|by intros|by intros r [= <-] c [= ->]|done]. }
  eapply spec_mono; [exact Hacc|]. intros [[c|e]|e] h1 H1; simpl; [|by intros c [=]..].
  specialize (H1 c eq_refl). assert (Hs : speaking c [] (talks h) h1) by (subst h1; unfold speaking; by rewrite talks_snoc).
  do 2 apply spec_ok. apply spec_bind. eapply spec_mono; [by eapply spec_retry_deadline|]. intros limit h2 [Hh2 Hs2].
  eapply spec_then.
  { apply spec_timed_out. eapply spec_mono; [apply (spec_read_preface _ _ nudge_allows c (Some limit) (talks h) h2)|].
    - intros h' said _ Hsp. by exists said, (talks h).
    - apply reads_refl.
    - exact Hs2.
    - intros r h' H p Hp. exact (H p Hp). }
  intros p h3 [Hr Hl]. destruct p as [received|line]; cbv iota.
  - split; [done|]. intros u. apply (IH _ _ (S n)); [|lia]. apply searching_idle; [done|]. by eapply searching_reads.
  - destruct (String.eqb_spec line RESUME_PREFACE) as [->|]; [|by intros c' [=]]. intros c' [= <-].
    destruct (Hl _ eq_refl) as (rest & Hrest & Hsp). exists (talks h). rewrite Hrest. exact Hsp.
Qed.

(** *** The conversation *)

(** The endpoint is gone, and [said] was said to the agent. *)
Definition nudging (c : N) (older : list (N * list turn)) (said : list turn) (h : list vevent) : Prop :=
  speaking c said older h ∧ retired h.

#[local] Instance monotone_retired : Monotone retired.
Proof. intros h k [Hc Hr]. split; [apply elem_of_app; by left|by apply answered_l]. Qed.

Lemma nudging_mute c older said h op x : mute op → nudging c older said h → nudging c older said (h ++ [Event op x]).
Proof. intros Hop [Hs Hr]. split; [by apply speaking_mute|by apply monotone]. Qed.

Lemma nudge_write c older said h text rest what :
  nudging c older said h → resume_opening = said ++ Sent text :: rest →
  spec nudge_allows (wr what (call (VWrite c text))) h (went_well (λ _, nudging c older (said ++ [Sent text]))).
Proof using All.
  intros [Hs Hr] Ho. eapply spec_mono.
  - apply (spec_write nudge_allows (older := older) (said := said) retired); [|done..].
    split; [done|]. exists said, older. split; [done|]. left. exists rest. by rewrite Ho, <- (assoc_L (++)).
  - intros r h' H u Hu. destruct (H u Hu) as (? & ? & _). done.
Qed.

Lemma nudge_frame c older said h kind bytes rest :
  nudging c older said h → resume_opening = said ++ frame kind bytes ++ rest →
  spec nudge_allows (write_typed_frame c kind bytes) h (went_well (λ _, nudging c older (said ++ frame kind bytes))).
Proof using All.
  intros Hh Ho. unfold write_typed_frame.
  eapply spec_then; [apply (nudge_write c older said h _ (Sent bytes :: rest)); [done|exact Ho]|]. intros [] h1 H1.
  eapply spec_mono; [eapply nudge_write; [exact H1|]|].
  - rewrite Ho, <- !(assoc_L (++)). reflexivity.
  - intros r h' H u Hu. pose proof (H u Hu) as H2. by rewrite <- (assoc_L (++)) in H2.
Qed.

(** A line of the guest, with what is read for it. *)
Lemma nudge_read c older said h by_ room_id last_step line :
  nudging c older said h →
  spec nudge_allows (expect_resume_record show_debug show_utf8_error c by_ room_id last_step line) h
    (λ r h', ∀ u, r = Some (Ok u) → reads_from h h' ∧ nudging c older (said ++ heard line) h').
Proof using All.
  intros [Hs Hr]. eapply spec_mono.
  - apply (spec_expect_record _ _ nudge_allows c by_ older h); [|apply reads_refl|exact Hs].
    intros h' said' _ Hsp. by exists said', older.
  - intros r h' H u Hu. destruct (H u Hu) as [Hk Hsp]. split; [done|]. split; [done|].
    destruct Hk as (k & -> & _). by apply monotone.
Qed.

Lemma nudge_line c older said h room_id last_step line :
  nudging c older said h →
  spec nudge_allows (unbounded (expect_resume_record show_debug show_utf8_error c None room_id last_step line)) h
    (went_well (λ _, nudging c older (said ++ heard line))).
Proof using All.
  intros Hh. apply spec_well_unbounded. eapply spec_mono; [by apply nudge_read|].
  intros r h' H u Hu. by apply H in Hu as [_ ?].
Qed.

Lemma nudge_step c older said h room_id last_step step :
  nudging c older said h →
  spec nudge_allows (expect_resume_step show_debug show_utf8_error c room_id last_step step) h
    (went_well (λ _, nudging c older (said ++ heard ("STEP " +:+ step)))).
Proof using All.
  intros Hh. unfold expect_resume_step. eapply spec_then; [by apply nudge_line|]. intros [] h1 H1.
  unfold record_resume_step. spec_call as u; [done|]. intros s _. by apply nudging_mute.
Qed.

Lemma nudge_steps c older room_id last_step steps said h :
  nudging c older said h →
  spec nudge_allows (expect_resume_steps show_debug show_utf8_error c room_id last_step steps) h
    (went_well (λ _, nudging c older (said ++ concat ((λ step, heard ("STEP " +:+ step)) <$> steps)))).
Proof using All.
  revert last_step said h. induction steps as [|step steps IH]; intros last_step said h Hh; cbn [expect_resume_steps].
  - intros s _. cbv beta. rewrite fmap_nil. cbn [concat]. by rewrite (right_id_L [] (++)).
  - eapply spec_then; [by apply nudge_step|]. intros s h1 H1. rewrite fmap_cons. cbn [concat]. rewrite (assoc_L (++)).
    by apply IH.
Qed.

Lemma nudge_initial c older h :
  nudging c older (heard RESUME_PREFACE) h →
  spec nudge_allows (send_initial_resume_payload c payload) h
    (went_well (λ _, nudging c older (heard RESUME_PREFACE ++ frame "ENTROPY" (rp_entropy payload) ++
       [Sent (nl_line ("IDENTITY " +:+ rp_room_id payload))] ++ frame "SECRETS" (rp_secrets payload) ++ frame "END" EmptyString))).
Proof using All.
  intros Hh. unfold send_initial_resume_payload.
  eapply spec_then; [apply spec_well_err; eapply nudge_frame; [exact Hh|]|].
  { unfold resume_opening. reflexivity. }
  intros [] h1 H1. eapply spec_then; [apply spec_well_err; eapply nudge_write; [exact H1|]|].
  { unfold resume_opening. rewrite <- !(assoc_L (++)). reflexivity. }
  intros [] h2 H2. eapply spec_then; [apply spec_well_err; eapply nudge_frame; [exact H2|]|].
  { unfold resume_opening. rewrite <- !(assoc_L (++)). reflexivity. }
  intros [] h3 H3. apply spec_well_err. eapply spec_mono; [eapply nudge_frame; [exact H3|]|].
  { unfold resume_opening. rewrite <- !(assoc_L (++)). reflexivity. }
  intros r h' H u Hu. pose proof (H u Hu) as H4. by rewrite <- !(assoc_L (++)) in H4.
Qed.

(** The clock is sent right after it was sampled, and the guest let go on only
    when it has acknowledged in time. *)
Lemma nudge_clock c older h last_step :
  nudging c older resume_opening h →
  spec nudge_allows (clock_exchange show_debug show_utf8_error c payload last_step) h
    (went_well (λ _ h', ∃ epoch, nudging c older (resume_opening ++ resume_clock epoch ++ [Sent (continue_line permit)]) h')).
Proof using All.
  intros Hh. unfold clock_exchange, epoch_secs.
  ask as t0; [done|]. apply nudging_mute with (op := VNow) (x := t0) in Hh; [|done].
  ask as epoch; [done|]. apply nudging_mute with (op := VUtcNow) (x := epoch) in Hh; [|done].
  rewrite <- (assoc_L (++)) in *. simpl app in *. destruct Hh as [Hs Hr].
  eapply spec_then.
  { apply spec_well_err, (spec_write nudge_allows retired (older := older) (said := resume_opening)); [|done..].
    split; [done|]. exists resume_opening, older. split; [done|]. right. left. split; [done|].
    exists epoch. split; [done|]. by exists h, t0. }
  intros [] h1 (Hs1 & Hr1 & Eh1).
  eapply spec_then; [apply spec_timed_out, nudge_read; by split|].
  intros [] h2 [(k & -> & Hk) H2].
  ask as t1; [done|]. apply nudging_mute with (op := VNow) (x := t1) in H2; [|done].
  unfold validate_clock_application_elapsed. destruct (N.ltb_spec (t1 - t0) RESUME_CLOCK_APPLY_MAX) as [Hlt|]; [|by intros []].
  apply spec_ok. apply spec_well_err.
  assert (Hsaid : (resume_opening ++ [Sent (clock_line epoch challenge)]) ++ heard ("APPLIED clock " +:+ challenge)
                  = resume_opening ++ resume_clock epoch) by (by rewrite <- (assoc_L (++))).
  rewrite Hsaid in H2. destruct H2 as [Hs2 Hr2]. eapply spec_mono.
  - apply (spec_write nudge_allows retired (older := older) (said := resume_opening ++ resume_clock epoch)); [|done..].
    split; [done|]. exists (resume_opening ++ resume_clock epoch), older. split; [done|]. right. right. exists epoch.
    split; [done|]. split; [done|]. exists h, t0, k, t1. split; [|done]. subst h1.
    rewrite <- !(assoc_L (++)). done.
  - intros r h' H u Hu. destruct (H u Hu) as (Hs3 & Hr3 & _). exists epoch. split; [|done].
    by rewrite <- !(assoc_L (++)) in Hs3.
Qed.

Lemma nudge_complete c older h said :
  nudging c older said h →
  resume_opening = said ++ heard "STEP reseeded" ++ heard "STEP identity" ++ heard "STEP hostkeys" ++
                   heard "STEP privilege" ++ heard "READY clock" →
  spec nudge_allows (complete_resume_protocol show_debug show_utf8_error c payload) h
    (went_well (λ _ h', ∃ epoch, nudging c older (resume_script epoch) h')).
Proof using All.
  intros Hh Ho. unfold complete_resume_protocol. cbv zeta.
  eapply spec_then; [eapply nudge_steps; exact Hh|]. intros s1 h1 H1.
  eapply spec_then; [eapply nudge_line; exact H1|]. intros [] h2 H2.
  assert (Hopen : nudging c older resume_opening h2).
  { cbv beta in H2. rewrite <- !(assoc_L (++)) in H2. rewrite Ho. exact H2. }
  eapply spec_then; [eapply nudge_clock; exact Hopen|]. intros [] h3 [epoch H3].
  eapply spec_then; [eapply nudge_line; exact H3|]. intros [] h4 H4.
  apply spec_bind. unfold record_resume_step. ask as u; [done|]. apply spec_ret.
  apply nudging_mute with (op := VProgress "clock") (x := u) in H4; [|done].
  eapply spec_then; [eapply nudge_step; exact H4|]. intros s2 h5 H5.
  eapply spec_mono; [eapply nudge_line; exact H5|]. intros r h' H v Hv. exists epoch. pose proof (H v Hv) as H6.
  cbv beta in H6. rewrite <- !(assoc_L (++)) in H6. exact H6.
Qed.

Lemma spec_nudge h :
  h = [] →
  spec nudge_allows (serve_resume_inner show_debug show_utf8_error listener listen_path payload) h
    (went_well (λ _ h', ∃ c older epoch, speaking c (resume_script epoch) older h')).
Proof using All.
  intros ->. unfold serve_resume_inner, accept_resume_agent. cbv zeta.
  eapply spec_then.
  { apply (spec_accept_candidates _ _ _ _ 0); [|done].
    split; [by intros ?%elem_of_nil|]. done. }
  intros c h1 [older H1].
  ask as u; [done|]. destruct u. apply speaking_mute with (op := VCloseListener listener) (x := tt) in H1; [|done].
  eapply (spec_then _ _ _ _ (λ _ h', nudging c older (heard RESUME_PREFACE) h')).
  { apply spec_well_err. unfold wr. spec_call as x; [done|]. destruct x as [[]|e]; [|by intros []]. intros [] _.
    split; [by apply speaking_mute|]. split.
    - apply elem_of_app. left. apply elem_of_app. right. by apply list_elem_of_singleton.
    - by apply answered_snoc. }
  intros [] h2 H2. eapply spec_then; [by apply nudge_initial|]. intros [] h3 H3.
  eapply spec_mono; [eapply nudge_complete; [exact H3|]|].
  { unfold resume_opening. rewrite <- !(assoc_L (++)). reflexivity. }
  intros r h' H v Hv. destruct (H v Hv) as (epoch & Hs & _). by exists c, older, epoch.
Qed.

End resume.

(** ** An agent that answers *)

(** [p] returns [a] on this host, in a history with [P]. *)
Definition yields {A : Type} (host : list vevent → ∀ op, vans op) (p : vsock A) (h : list vevent) (a : A)
    (P : list vevent → Prop) : Prop :=
  ∃ h', exec host p h = (Some a, h') ∧ P h'.

Section yields.
  Variable host : list vevent → ∀ op, vans op.

Lemma yields_ret {A : Type} (a : A) h (P : list vevent → Prop) : P h → yields host (Ret a) h a P.
Proof. intros HP. by exists h. Qed.

Lemma yields_call op h a (P : list vevent → Prop) :
  host h op = a → P (h ++ [Event op a]) → yields host (call op) h a P.
Proof. intros <- HP. by exists (h ++ [Event op (host h op)]). Qed.

Lemma yields_bind {A B : Type} (p : vsock A) (k : A → vsock B) h a b P Q :
  yields host p h a P → (∀ h', P h' → yields host (k a) h' b Q) → yields host (pbind p k) h b Q.
Proof. intros (h1 & E & H1) Hk. destruct (Hk h1 H1) as (h2 & E2 & H2). exists h2. by rewrite exec_bind, E. Qed.

Lemma yields_try {E A B : Type} (p : vsock (result E A)) (k : A → vsock (result E B)) h a b P Q :
  yields host p h (Ok a) P → (∀ h', P h' → yields host (k a) h' b Q) → yields host (ptry p k) h b Q.
Proof. intros Hp Hk. by eapply yields_bind. Qed.

Lemma yields_map_err {E E' A : Type} (f : E → E') (p : vsock (result E A)) h a P :
  yields host p h (Ok a) P → yields host (pmap_err f p) h (Ok a) P.
Proof. intros Hp. eapply yields_bind; [exact Hp|]. intros h' HP. by apply yields_ret. Qed.

Lemma yields_unbounded {A : Type} (p : vsock (option A)) h a P :
  yields host p h (Some a) P → yields host (unbounded p) h a P.
Proof. intros Hp. eapply yields_bind; [exact Hp|]. intros h' HP. by apply yields_ret. Qed.

Lemma yields_timed_out {A : Type} timed (p : vsock (option (result string A))) h a P :
  yields host p h (Some a) P → yields host (timed_out timed p) h a P.
Proof. intros Hp. eapply yields_bind; [exact Hp|]. intros h' HP. by apply yields_ret. Qed.

End yields.

Fixpoint reads (h : list vevent) : nat :=
  match h with
  | [] => 0
  | Event (VReadByte _ _) _ :: h => S (reads h)
  | _ :: h => reads h
  end.

Lemma reads_count h e : reads (h ++ [e]) = reads h + match ev_op e with VReadByte _ _ => 1 | _ => 0 end.
Proof. induction h as [|[[] x] h IH]; simpl; rewrite ?IH; try done. by destruct e as [[] x]. Qed.

(** A line that fits, in ASCII. *)
Definition sendable (line : string) : bool :=
  (len line <=? 64)%nat && all_bytes (λ a, negb (a =? nl)%char && (code a <? 128)%N) line.

Definition line_bytes (line : string) : list byte := String.list_ascii_of_string line ++ [nl].

(** The agent's side of the protocol. *)
Definition agent_lines (payload : ResumePayload) : list string :=
  [RESUME_PREFACE; "STEP reseeded"; "STEP identity"; "STEP hostkeys"; "STEP privilege"; "READY clock";
   "APPLIED clock " +:+ rp_clock_challenge payload; "STEP clock " +:+ rp_continue_challenge payload; "STEP sshd"; "ACK resume"].

(** A host on which the first candidate is an agent that says its lines, nothing
    else fails and four seconds never pass. *)
Record good_agent (payload : ResumePayload) (host : list vevent → ∀ op, vans op) : Prop := {
  ga_accept h l by_ : ∃ c, host h (VAccept l by_) = Some (Ok c);
  ga_write h c text : host h (VWrite c text) = Ok ();
  ga_remove h p : host h (VRemoveFile p) = Ok ();
  ga_read h c by_ : host h (VReadByte c by_) = Some (Ok (concat (line_bytes <$> agent_lines payload) !! reads h));
  ga_now h h' : (host h' VNow - host h VNow < RESUME_CLOCK_APPLY_MAX)%N
}.

Lemma ascii_lossy s :
  all_bytes (λ a, (code a <? 128)%N) s = true → from_utf8_lossy (String.list_ascii_of_string s) = s.
Proof.
  intros Hs. rewrite lossy_ascii; [apply String.string_of_list_ascii_of_string|].
  induction s as [|a s IH]; simpl in *; [constructor|]. apply andb_true_iff in Hs as [Ha Hs].
  constructor; [by apply N.ltb_lt|by apply IH].
Qed.

Section agent.
  Variable payload : ResumePayload.
  Variables show_debug show_utf8_error : string → string.
  Variable host : list vevent → ∀ op, vans op.
  Hypothesis Hagent : good_agent payload host.

(** The agent has [text] left to say. *)
Definition to_say (text : list byte) (h : list vevent) : Prop := drop (reads h) (concat (line_bytes <$> agent_lines payload)) = text.

Lemma to_say_quiet text h op x : ¬ is_read op → to_say text h → to_say text (h ++ [Event op x]).
Proof. unfold to_say. rewrite reads_count. intros Hop <-. destruct op; simpl in *; rewrite ?Nat.add_0_r; done. Qed.

Lemma yields_read c by_ b text h :
  to_say (b :: text) h → yields host (call (VReadByte c by_)) h (Some (Ok (Some b))) (to_say text).
Proof using All.
  intros Hh. apply yields_call.
  - rewrite (ga_read _ _ Hagent). do 2 f_equal. rewrite <- (Nat.add_0_r (reads h)), <- lookup_drop. unfold to_say in Hh.
    by rewrite Hh.
  - unfold to_say in *. rewrite reads_count. cbn [ev_op]. by rewrite <- drop_drop, Hh.
Qed.

Lemma yields_line c by_ room bytes line rest h :
  len line ≤ room → all_bytes (λ a, negb (a =? nl)%char) line = true →
  all_bytes (λ a, (code a <? 128)%N) (bytes +:+ line) = true →
  to_say (line_bytes line ++ rest) h →
  yields host (read_line_from show_utf8_error c by_ room bytes) h (Some (Ok (bytes +:+ line))) (to_say rest).
Proof using All.
  revert room bytes h. induction line as [|b line IH]; intros room bytes h Hlen Hnl Hb Hh.
  - destruct room; (eapply yields_bind; [eapply yields_read; exact Hh|]); intros h1 H1; simpl.
    all: rewrite app_nil_r in *; unfold from_utf8; rewrite ascii_lossy by done; rewrite String.eqb_refl; by apply yields_ret.
  - simpl in Hlen, Hnl. apply andb_true_iff in Hnl as [Hbn Hnl]. apply negb_true_iff in Hbn.
    destruct room as [|room]; [lia|]. eapply yields_bind; [eapply yields_read; exact Hh|]. intros h1 H1. cbv beta iota.
    rewrite Hbn. pose proof (app_assoc bytes (String b EmptyString) line) as Ea. simpl in Ea.
    change (String b line) with (String b EmptyString +:+ line) in *. rewrite <- Ea in *. apply IH; [lia|done..].
Qed.

Lemma sendable_spec line :
  sendable line = true →
  len line ≤ 64 ∧ all_bytes (λ a, negb (a =? nl)%char) line = true ∧ all_bytes (λ a, (code a <? 128)%N) line = true.
Proof.
  unfold sendable. intros [Hlen Hall]%andb_true_iff. split; [by apply Nat.leb_le|].
  split; (eapply all_bytes_impl; [|exact Hall]); intros a [??]%andb_true_iff; done.
Qed.

Lemma yields_record c by_ room_id last_step line rest h :
  sendable line = true → strip_prefix "ERR " line = None → to_say (line_bytes line ++ rest) h →
  yields host (expect_resume_record show_debug show_utf8_error c by_ room_id last_step line) h (Some (Ok ())) (to_say rest).
Proof using All.
  intros (Hlen & Hnl & Hascii)%sendable_spec Herr Hh. unfold expect_resume_record, read_resume_record, read_bounded_line.
  eapply yields_bind.
  - eapply yields_bind; [by apply yields_line|]. intros h1 H1. cbv beta iota. rewrite app_nil_l, Herr. by apply yields_ret.
  - intros h1 H1. cbv beta iota. rewrite String.eqb_refl. by apply yields_ret.
Qed.

Lemma yields_quiet op a text h :
  host h op = a → ¬ is_read op → to_say text h → yields host (call op) h a (to_say text).
Proof. intros Ha Hop Hh. apply yields_call; [done|]. by apply to_say_quiet. Qed.

Lemma yields_wr c what s text h : to_say text h → yields host (wr what (call (VWrite c s))) h (Ok ()) (to_say text).
Proof using All. intros Hh. apply yields_map_err, (yields_quiet (VWrite c s)); [apply (ga_write _ _ Hagent)|tauto|done]. Qed.

Lemma yields_frame c kind bytes text h : to_say text h → yields host (write_typed_frame c kind bytes) h (Ok ()) (to_say text).
Proof using All. intros Hh. eapply yields_try; [by apply yields_wr|]. intros h1 H1. by apply yields_wr. Qed.

Lemma yields_step c room_id last_step step rest h :
  sendable ("STEP " +:+ step) = true → to_say (line_bytes ("STEP " +:+ step) ++ rest) h →
  yields host (expect_resume_step show_debug show_utf8_error c room_id last_step step) h (Ok (Some step)) (to_say rest).
Proof using All.
  intros Hs Hh. unfold expect_resume_step. eapply yields_try; [apply yields_unbounded, yields_record; done|].
  intros h1 H1. eapply yields_bind; [|intros h2 H2; apply yields_ret; exact H2].
  unfold record_resume_step. eapply yields_bind; [by apply (yields_quiet (VProgress step)); [|tauto|]|]. intros h2 H2. by apply yields_ret.
Qed.

Lemma yields_steps c room_id last_step steps rest h :
  Forall (λ step, sendable ("STEP " +:+ step) = true) steps →
  to_say (concat ((λ step, line_bytes ("STEP " +:+ step)) <$> steps) ++ rest) h →
  ∃ s, yields host (expect_resume_steps show_debug show_utf8_error c room_id last_step steps) h (Ok s) (to_say rest).
Proof using All.
  intros Hs. revert last_step h. induction Hs as [|step steps Hstep _ IH]; intros last_step h Hh.
  - exists last_step. by apply yields_ret.
  - rewrite fmap_cons in Hh. cbn [concat] in Hh. rewrite <- (assoc_L (++)) in Hh.
    cbn [expect_resume_steps]. destruct (yields_step c room_id last_step step _ h Hstep Hh) as (h1 & E & H1).
    destruct (IH (Some step) h1 H1) as (s & h2 & E2 & H2). exists s, h2. split; [|done].
    unfold ptry. rewrite exec_bind, E. exact E2.
Qed.

Lemma yields_clock c last_step rest h :
  sendable ("APPLIED clock " +:+ rp_clock_challenge payload) = true →
  to_say (line_bytes ("APPLIED clock " +:+ rp_clock_challenge payload) ++ rest) h →
  yields host (clock_exchange show_debug show_utf8_error c payload last_step) h (Ok ()) (to_say rest).
Proof using All.
  intros Hs Hh. unfold clock_exchange, epoch_secs. eapply yields_bind; [by apply (yields_quiet VNow); [|tauto|]|]. intros h1 H1.
  eapply yields_bind; [by apply (yields_quiet VUtcNow); [|tauto|]|]. intros h2 H2.
  eapply yields_try; [by apply yields_map_err, yields_wr|]. intros h3 H3.
  eapply yields_try; [apply yields_timed_out, yields_record; done|]. intros h4 H4.
  eapply yields_bind; [by apply (yields_quiet VNow); [|tauto|]|]. intros h5 H5.
  unfold validate_clock_application_elapsed. rewrite (proj2 (N.ltb_lt _ _) (ga_now _ _ Hagent _ _)).
  eapply yields_try; [by apply yields_ret|]. intros h6 H6. by apply yields_map_err, yields_wr.
Qed.

Lemma yields_preface c by_ room bytes line rest h :
  len line ≤ room → all_bytes (λ a, negb (a =? nl)%char) line = true →
  all_bytes (λ a, (code a <? 128)%N) (bytes +:+ line) = true →
  to_say (line_bytes line ++ rest) h →
  yields host (read_preface_from show_debug show_utf8_error c by_ room bytes) h (Some (Ok (Line (bytes +:+ line)))) (to_say rest).
Proof using All.
  revert room bytes h. induction line as [|b line IH]; intros room bytes h Hlen Hnl Hb Hh.
  - destruct room; (eapply yields_bind; [eapply yields_read; exact Hh|]); intros h1 H1; simpl.
    all: rewrite app_nil_r in *; unfold from_utf8; rewrite ascii_lossy by done; rewrite String.eqb_refl; by apply yields_ret.
  - simpl in Hlen, Hnl. apply andb_true_iff in Hnl as [Hbn Hnl]. apply negb_true_iff in Hbn.
    destruct room as [|room]; [lia|]. eapply yields_bind; [eapply yields_read; exact Hh|]. intros h1 H1. cbv beta iota.
    rewrite Hbn. pose proof (app_assoc bytes (String b EmptyString) line) as Ea. simpl in Ea.
    change (String b line) with (String b EmptyString +:+ line) in *. rewrite <- Ea in *. apply IH; [lia|done..].
Qed.

(** The first candidate is the agent. *)
Lemma yields_accept listener room_id rest h :
  to_say (line_bytes RESUME_PREFACE ++ rest) h →
  ∃ c, yields host (accept_resume_agent show_debug show_utf8_error listener room_id) h (Ok c) (to_say rest).
Proof using All.
  intros Hh. destruct (ga_accept _ _ Hagent h listener None) as [c Hc]. exists c.
  unfold accept_resume_agent, RESUME_PREFACE_MAX_CANDIDATES. cbn [accept_candidates].
  eapply (yields_bind _ _ _ _ (Ok (Ok c))).
  { apply yields_unbounded. eapply yields_bind.
    - apply (yields_quiet (VAccept listener None) _ (line_bytes RESUME_PREFACE ++ rest) _ Hc); [tauto|exact Hh].
    - intros h1 H1. by apply yields_ret. }
  intros h1 H1. eapply yields_try; [by apply yields_ret|]. intros h2 H2.
  eapply yields_try; [by apply yields_ret|]. intros h3 H3.
  eapply yields_bind; [eapply yields_bind; [by apply (yields_quiet VNow); [|tauto|]|]; intros h4 H4; by apply yields_ret|].
  intros h4 H4. eapply yields_try.
  { apply yields_timed_out. unfold read_resume_preface. apply (yields_preface _ _ _ _ RESUME_PREFACE rest); [..|exact H4];
      vm_compute; first [reflexivity|lia]. }
  intros h5 H5. cbv beta iota. rewrite app_nil_l, String.eqb_refl. by apply yields_ret.
Qed.

Lemma yields_initial c text h :
  to_say text h → yields host (send_initial_resume_payload c payload) h (Ok ()) (to_say text).
Proof using All.
  intros Hh. unfold send_initial_resume_payload.
  eapply yields_try; [by apply yields_map_err, yields_frame|]. intros h1 H1.
  eapply yields_try; [by apply yields_map_err, yields_wr|]. intros h2 H2.
  eapply yields_try; [by apply yields_map_err, yields_frame|]. intros h3 H3.
  by apply yields_map_err, yields_frame.
Qed.

Lemma yields_complete c h :
  sendable ("APPLIED clock " +:+ rp_clock_challenge payload) = true →
  sendable ("STEP clock " +:+ rp_continue_challenge payload) = true →
  to_say (concat (line_bytes <$> drop 1 (agent_lines payload))) h →
  yields host (complete_resume_protocol show_debug show_utf8_error c payload) h (Ok ()) (to_say []).
Proof using All.
  intros Hclock Hcont Hh. unfold complete_resume_protocol. cbv zeta.
  unfold agent_lines in Hh. cbn [drop] in Hh. rewrite !fmap_cons, fmap_nil in Hh. cbn [concat] in Hh.
  destruct (yields_steps c (rp_room_id payload) None ["reseeded"; "identity"; "hostkeys"; "privilege"]
              (line_bytes "READY clock" ++ line_bytes ("APPLIED clock " +:+ rp_clock_challenge payload) ++
               line_bytes ("STEP clock " +:+ rp_continue_challenge payload) ++ line_bytes "STEP sshd" ++ line_bytes "ACK resume" ++ [])
              h) as (s & Hs).
  { by repeat constructor. }
  { rewrite !fmap_cons, fmap_nil. cbn [concat]. rewrite (right_id_L [] (++)), <- !(assoc_L (++)). exact Hh. }
  eapply yields_try; [exact Hs|]. intros h1 H1.
  eapply yields_try; [apply yields_unbounded, yields_record; [reflexivity|reflexivity|exact H1]|]. intros h2 H2.
  eapply yields_try; [apply yields_clock; [done|exact H2]|]. intros h3 H3.
  eapply yields_try; [apply yields_unbounded, yields_record; [done|reflexivity|exact H3]|]. intros h4 H4.
  eapply yields_bind.
  { unfold record_resume_step. eapply yields_bind; [by apply (yields_quiet (VProgress "clock")); [|tauto|]|].
    intros h5 H5. by apply yields_ret. }
  intros h5 H5. eapply yields_try; [apply yields_step; [reflexivity|exact H5]|]. intros h6 H6.
  apply yields_unbounded, yields_record; [reflexivity|reflexivity|exact H6].
Qed.

Lemma yields_nudge listener listen_path :
  sendable ("APPLIED clock " +:+ rp_clock_challenge payload) = true →
  sendable ("STEP clock " +:+ rp_continue_challenge payload) = true →
  yields host (serve_resume_inner show_debug show_utf8_error listener listen_path payload) [] (Ok ()) (to_say []).
Proof using All.
  intros Hclock Hcont. unfold serve_resume_inner. cbv zeta.
  destruct (yields_accept listener (rp_room_id payload) (concat (line_bytes <$> drop 1 (agent_lines payload))) []) as [c Hc].
  { done. }
  eapply yields_try; [exact Hc|]. intros h1 H1.
  eapply yields_bind; [by apply (yields_quiet (VCloseListener listener)); [|tauto|]|]. intros h2 H2.
  eapply yields_try.
  { apply yields_map_err, yields_map_err, (yields_quiet (VRemoveFile listen_path)); [apply (ga_remove _ _ Hagent)|tauto|exact H2]. }
  intros h3 H3. eapply yields_try; [by apply yields_initial|]. intros h4 H4. by apply yields_complete.
Qed.

End agent.

(** Such a host. *)
Definition agent_host (payload : ResumePayload) (h : list vevent) (op : vsop) : vans op :=
  match op return vans op with
  | VRemoveFile _ | VChown _ _ _ | VWrite _ _ => Ok ()
  | VBind _ => Ok 3%N
  | VAccept _ _ => Some (Ok 4%N)
  | VReadByte _ _ => Some (Ok (concat (line_bytes <$> agent_lines payload) !! reads h))
  | VReadOne _ | VReadToEnd _ => Ok EmptyString
  | VNow => 1000%N
  | VUtcNow => 1750000000%Z
  | VUlid => "01jz0000000000000000000000"
  | VCloseListener _ | VClose _ | VProgress _ | VAbort => ()
  end.

Lemma agent_host_good payload : good_agent payload (agent_host payload).
Proof. split; simpl; eauto. by intros _ _. Qed.

Definition sample_nudge : ResumePayload :=
  {| rp_room_id := "room-a"; rp_entropy := "entropy"; rp_secrets := EmptyString;
     rp_clock_challenge := "01jz0000000000000000000001"; rp_continue_challenge := "01jz0000000000000000000002" |}.

(** ** Theorems *)

(** C17. The nudge after a restore is one fixed conversation.  Whatever the host
    answers, at most eight candidates are accepted, all after the first within
    five seconds of it; entropy, identity and secrets are sent only when a
    candidate has sent the whole preface, the listener is closed and its path
    removed; the clock is sent right after it was sampled, once the guest has
    asked for it, and the guest is let go on only when it has acknowledged that
    very sample in less than four seconds.  The task succeeds only when the whole
    conversation took place in its order, both challenges echoed. *)
Theorem resume_conversation show_debug show_utf8_error listener listen_path payload tr o :
  run (serve_resume_inner show_debug show_utf8_error listener listen_path payload) tr o →
  guarded (nudge_allows payload listener listen_path) tr ∧
  (o = Some (Ok ()) → ∃ c older epoch, speaking c (resume_script payload epoch) older tr).
Proof.
  intros Hrun. destruct (spec_run _ _ _ _ _ (spec_nudge payload listener listen_path show_debug show_utf8_error [] eq_refl) Hrun)
    as [Hg Hq].
  split; [done|]. intros ->. exact (Hq _ eq_refl () eq_refl).
Qed.

(** C18. An agent that answers is heard: on a host where the first candidate says
    the agent's lines, no call fails and no four seconds pass, the nudge
    succeeds, for every payload whose challenges fit a line. *)
Theorem resume_acknowledged show_debug show_utf8_error listener listen_path payload host :
  good_agent payload host →
  sendable ("APPLIED clock " +:+ rp_clock_challenge payload) = true →
  sendable ("STEP clock " +:+ rp_continue_challenge payload) = true →
  fst (exec host (serve_resume_inner show_debug show_utf8_error listener listen_path payload) []) = Some (Ok ()).
Proof.
  intros Ha Hc Hp. destruct (yields_nudge payload show_debug show_utf8_error host Ha listener listen_path Hc Hp) as (h & -> & _).
  done.
Qed.

Lemma resume_conversation_witness :
  let r := exec (agent_host sample_nudge) (serve_resume_inner id id 3 ["jail"; "v.sock_5003"] sample_nudge) [] in
  fst r = Some (Ok ()) ∧ guarded (nudge_allows sample_nudge 3 ["jail"; "v.sock_5003"]) (snd r) ∧
  ∃ c older epoch, speaking c (resume_script sample_nudge epoch) older (snd r).
Proof.
  assert (E : fst (exec (agent_host sample_nudge) (serve_resume_inner id id 3 ["jail"; "v.sock_5003"] sample_nudge) []) = Some (Ok ()))
    by (vm_compute; reflexivity).
  split; [exact E|].
  destruct (resume_conversation id id 3 ["jail"; "v.sock_5003"] sample_nudge _ _ (exec_run_nil (agent_host sample_nudge) _)) as [Hg Hq].
  exact (conj Hg (Hq E)).
Defined.

Lemma resume_acknowledged_witness :
  fst (exec (agent_host sample_nudge) (serve_resume_inner id id 3 ["jail"; "v.sock_5003"] sample_nudge) []) = Some (Ok ()).
Proof. apply resume_acknowledged; [apply agent_host_good|vm_compute; reflexivity|vm_compute; reflexivity]. Defined.
