(* ===== verification/VsockServe.v ===== *)
(** * VsockServe: the one-shot secrets and base provisioning

    What the serving tasks of [serve_one_shot] and [serve_provisioning] say, to
    whom, and what a success means. *)

From S2P Require Import Prelude RStr Fs Prog Pcap Boot RestoreExec Vsock VsockOrder.
From stdpp Require Import options.

(** ** One-shot secrets *)

Section one_shot.
  Variables (show_debug : string → string) (listener : N) (listen_path : path) (payload : string).

Definition secret_frame : list turn := [Sent (nl_line (show_N (N.of_nat (len payload)))); Sent payload].

(** The secrets go to the only connection ever accepted, once nobody else can
    connect; of its answer at most nine bytes are read. *)
Definition one_shot_allows (h : list vevent) (op : vsop) : Prop :=
  match op with
  | VAccept l by_ => l = listener ∧ by_ = None ∧ h = []
  | VCloseListener l => l = listener
  | VRemoveFile p => p = listen_path
  | VWrite c text =>
      closed listener h ∧ answered h (VRemoveFile listen_path) (λ _, True) ∧
      ∃ said, speaking c said [] h ∧ (said ++ [Sent text]) `prefix_of` secret_frame
  | VReadByte c by_ => ∃ bytes, speaking c (secret_frame ++ (Got <$> bytes)) [] h ∧ length bytes ≤ 8
  | VClose _ => True
  | _ => False
  end.

Lemma spec_read_ack c room ack h :
  speaking c (secret_frame ++ (Got <$> String.list_ascii_of_string ack)) [] h → len ack + room = 8 →
  spec one_shot_allows (read_ack c room ack) h
    (went_well (λ ack' h', len ack' ≤ 8 → speaking c (secret_frame ++ heard ack') [] h')).
Proof using All.
  revert ack h. induction room as [|room IH]; intros ack h Hs Hlen; cbn [read_ack];
    (apply spec_bind, spec_unbounded; spec_call as x;
     [exists (String.list_ascii_of_string ack); split; [done|]; rewrite length_list_ascii; lia|]);
    (destruct x as [x|]; intros r [= <-]); (destruct x as [[b|]|e]; [|by intros ? [=]..]).
  all: assert (Hb := speaking_read c _ _ h None b Hs); rewrite <- (assoc_L (++)) in Hb.
  all: destruct (Ascii.eqb_spec b nl) as [->|_]; [intros ack' [= <-] _; exact Hb|].
  - intros ack' [= <-]. rewrite len_app. simpl. lia.
  - apply IH; [|rewrite len_app; simpl; lia]. by rewrite list_ascii_app, fmap_app.
Qed.

Lemma spec_accept_call R l h :
  R h (VAccept l None) →
  spec R (accept l) h
    (λ r h', ∀ c, r = Ok c → h' = h ++ [Event (Ans := vans) (VAccept l None) (Some (Ok c))]).
Proof using. intros HR. apply spec_unbounded. spec_call as x; [done|]. by intros r [= ->] c [= ->]. Qed.

Lemma spec_secret_write c said rest what text h :
  closed listener h ∧ answered h (VRemoveFile listen_path) (λ _, True) → speaking c said [] h →
  secret_frame = said ++ Sent text :: rest →
  spec one_shot_allows (wr what (call (VWrite c text))) h
    (went_well (λ _ h', speaking c (said ++ [Sent text]) [] h' ∧
       closed listener h' ∧ answered h' (VRemoveFile listen_path) (λ _, True))).
Proof using All.
  intros Hret Hs Ho.
  assert (HM : Monotone (λ h, closed listener h ∧ answered h (VRemoveFile listen_path) (λ _, True))).
  { intros h1 k [Hc Hr]. split; [apply elem_of_app; by left|by apply answered_l]. }
  eapply spec_mono.
  - apply (spec_write one_shot_allows (older := []) (said := said)
             (λ h, closed listener h ∧ answered h (VRemoveFile listen_path) (λ _, True))); [|done..].
    split; [apply Hret|]. split; [apply Hret|]. exists said. split; [done|]. exists rest. by rewrite Ho, <- (assoc_L (++)).
  - intros r h' H u Hu. destruct (H u Hu) as (? & ? & _). done.
Qed.

Lemma spec_serve :
  spec one_shot_allows (serve show_debug listener listen_path payload) []
    (went_well (λ _ h', ∃ c, speaking c (secret_frame ++ heard "OK") [] h')).
Proof using All.
  unfold serve. eapply (spec_then _ _ _ _ (λ c h', speaking c [] [] h')).
  { apply spec_well_err. eapply spec_mono; [by apply spec_accept_call|]. by intros r h' H c ->%H. }
  intros c h Hs. ask as u; [done|]. destruct u. ask as x; [done|].
  assert (Hret : closed listener ((h ++ [Event (Ans := vans) (VCloseListener listener) ()]) ++ [Event (Ans := vans) (VRemoveFile listen_path) x]) ∧
    answered ((h ++ [Event (Ans := vans) (VCloseListener listener) ()]) ++ [Event (Ans := vans) (VRemoveFile listen_path) x])
      (VRemoveFile listen_path) (λ _, True)).
  { split; [|by apply answered_snoc]. apply elem_of_app. left. apply elem_of_app. right. by apply list_elem_of_singleton. }
  apply speaking_mute with (op := VCloseListener listener) (x := tt) in Hs; [|done].
  apply speaking_mute with (op := VRemoveFile listen_path) (x := x) in Hs; [|done].
  revert Hret Hs. generalize ((h ++ [Event (Ans := vans) (VCloseListener listener) ()]) ++ [Event (Ans := vans) (VRemoveFile listen_path) x]).
  clear x h. intros h Hret Hs.
  apply spec_bind. eapply (spec_mono _ _ _ (went_well (λ _ h', speaking c (secret_frame ++ heard "OK") [] h'))).
  - unfold serve_stream. eapply spec_then; [eapply spec_secret_write; [exact Hret|exact Hs|reflexivity]|]. intros [] h1 [Hs1 Hret1].
    eapply spec_then; [eapply spec_secret_write; [exact Hret1|exact Hs1|reflexivity]|]. intros [] h2 [Hs2 _].
    eapply spec_then; [apply spec_read_ack; [exact Hs2|done]|]. intros ack h3 Hack.
    destruct (String.eqb_spec ack "OK") as [->|]; [|by intros ? [=]]. intros [] _. apply Hack. simpl. lia.
  - intros r h' H. ask as u; [done|]. intros [] ->. exists c. apply speaking_mute; [done|]. exact (H () eq_refl).
Qed.

End one_shot.

(** ** Base provisioning *)

Section provisioning.
  Variables (show_debug show_utf8_error : string → string).
  Variables (provision quiesced : N) (provision_path quiesced_path : path) (payload : ProvisioningPayload).

Definition provision_frames : list turn :=
  Sent (nl_line "ROOMS-PROVISION/1") :: frame "BUNDLE" (pp_bundle payload) ++ frame "WARM" (pp_warm payload) ++
  frame "END" EmptyString.

Definition provision_acks : list turn := heard "ACK stage" ++ heard "ACK clone" ++ heard "ACK warm".

(** The whole first conversation: the agent hangs up after its last line. *)
Definition provision_script : list turn := provision_frames ++ provision_acks ++ [Rest EmptyString].

(** The frames go to one agent, once the endpoint is gone; the beacon is waited
    for only after that agent has acknowledged every phase and hung up. *)
Definition provisioning_allows (h : list vevent) (op : vsop) : Prop :=
  match op with
  | VAccept l by_ =>
      by_ = None ∧ ((l = provision ∧ h = []) ∨ (l = quiesced ∧ ∃ c, talks h = [(c, provision_script)]))
  | VCloseListener l => l = provision ∨ l = quiesced
  | VRemoveFile p => p = provision_path ∨ p = quiesced_path
  | VWrite c text =>
      retired provision provision_path h ∧
      ∃ said, speaking c said [] h ∧ (said ++ [Sent text]) `prefix_of` provision_frames
  | VReadByte c by_ => ∃ said, speaking c (provision_frames ++ said) [] h
  | VReadOne c => speaking c (provision_frames ++ provision_acks) [] h
  | VReadToEnd b => retired quiesced quiesced_path h ∧ ∃ c, talks h = [(b, []); (c, provision_script)]
  | VClose _ => True
  | _ => False
  end.

Abbreviation R := provisioning_allows.

(** The endpoint is gone, and [said] was said to the agent. *)
Definition providing (c : N) (said : list turn) (h : list vevent) : Prop :=
  speaking c said [] h ∧ retired provision provision_path h.

Lemma spec_provision_write c said rest what text h :
  providing c said h → provision_frames = said ++ Sent text :: rest →
  spec R (wr what (call (VWrite c text))) h (went_well (λ _, providing c (said ++ [Sent text]))).
Proof using All.
  intros [Hs Hret] Ho. assert (HM := monotone_retired provision provision_path). eapply spec_mono.
  - apply (spec_write R (older := []) (said := said) (retired provision provision_path)); [|done..].
    split; [done|]. exists said. split; [done|]. exists rest. by rewrite Ho, <- (assoc_L (++)).
  - intros r h' H u Hu. destruct (H u Hu) as (? & ? & _). done.
Qed.

Lemma spec_provision_frame c said rest kind bytes h :
  providing c said h → provision_frames = said ++ frame kind bytes ++ rest →
  spec R (write_typed_frame c kind bytes) h (went_well (λ _, providing c (said ++ frame kind bytes))).
Proof using All.
  intros Hs Ho. unfold write_typed_frame.
  eapply spec_then; [apply (spec_provision_write c said (Sent bytes :: rest)); [done|exact Ho]|]. intros [] h1 H1.
  eapply spec_mono; [eapply (spec_provision_write c _ rest); [exact H1|]|].
  - rewrite Ho, <- !(assoc_L (++)). reflexivity.
  - intros r h' H u Hu. pose proof (H u Hu) as H2. by rewrite <- (assoc_L (++)) in H2.
Qed.

Lemma spec_provision_frames {A : Type} c h (k : vsock (result string A)) Q :
  providing c [] h → (∀ h', providing c provision_frames h' → spec R k h' (went_well Q)) →
  spec R (try* _ := wr "write provisioning preface" (call (VWrite c (nl_line "ROOMS-PROVISION/1"))) in
          try* _ := write_typed_frame c "BUNDLE" (pp_bundle payload) in
          try* _ := write_typed_frame c "WARM" (pp_warm payload) in
          try* _ := write_typed_frame c "END" EmptyString in k) h (went_well Q).
Proof using All.
  intros Hs Hk. eapply spec_then; [eapply spec_provision_write; [exact Hs|reflexivity]|]. intros [] h1 H1.
  eapply spec_then; [eapply spec_provision_frame; [exact H1|reflexivity]|]. intros [] h2 H2.
  eapply spec_then; [eapply spec_provision_frame; [exact H2|]|].
  { rewrite <- !(assoc_L (++)). reflexivity. }
  intros [] h3 H3. eapply spec_then; [eapply (spec_provision_frame _ _ []); [exact H3|]|].
  { rewrite <- !(assoc_L (++)). reflexivity. }
  intros [] h4 H4. apply Hk. cbv beta in H4. rewrite <- !(assoc_L (++)) in H4. exact H4.
Qed.

Lemma spec_provision_ack c phase said h :
  providing c (provision_frames ++ said) h →
  spec R (read_ack_phase show_debug show_utf8_error c phase) h
    (went_well (λ _, providing c (provision_frames ++ said ++ heard ("ACK " +:+ phase)))).
Proof using All.
  intros [Hs Hret]. unfold read_ack_phase.
  eapply (spec_then _ _ _ _ (λ line, providing c (provision_frames ++ said ++ heard line))).
  - apply spec_well_unbounded. eapply spec_mono.
    + apply (spec_read_line show_debug _ R c None [] h); [|apply reads_refl|exact Hs].
      intros h' said' Hr Hsp. destruct (reads_extend _ _ _ _ _ Hs Hr) as (more & Hm).
      exists (said ++ more). by rewrite (assoc_L (++)).
    + intros r h' H line ->. destruct (H line eq_refl) as ((k & -> & _) & rest & -> & Hsp).
      split; [by rewrite (assoc_L (++))|]. by apply monotone_retired.
  - intros line h1 H1. destruct (String.eqb_spec line ("ACK " +:+ phase)) as [->|]; [|by intros ? [=]]. by intros [] _.
Qed.

Lemma spec_provision_acks c h :
  providing c provision_frames h →
  spec R (ptry_each (read_ack_phase show_debug show_utf8_error c) ["stage"; "clone"; "warm"]) h
    (went_well (λ _, providing c (provision_frames ++ provision_acks))).
Proof using All.
  intros Hs. cbn [ptry_each]. rewrite <- (right_id_L [] (++) provision_frames) in Hs.
  eapply spec_then; [by apply spec_provision_ack|]. intros [] h1 H1.
  eapply (spec_then _ _ _ _ (λ _, providing c (provision_frames ++ provision_acks))); [|by intros ys h2 H2 zs [= <-]].
  eapply spec_then; [by apply spec_provision_ack|]. intros [] h2 H2.
  eapply (spec_then _ _ _ _ (λ _, providing c (provision_frames ++ provision_acks))); [|by intros ys h3 H3 zs [= <-]].
  eapply spec_then; [by apply spec_provision_ack|]. intros [] h3 H3 zs _.
  cbv beta in H3. rewrite <- !(assoc_L (++)) in H3. exact H3.
Qed.

Lemma spec_beacon c h :
  speaking c provision_script [] h →
  spec R (try* beacon := wr "accept quiesced beacon" (accept quiesced) in
          do* call (VCloseListener quiesced) in
          try* _ := wr "retire beacon endpoint" (call (VRemoveFile quiesced_path)) in
          try* bytes := wr "read quiesced beacon" (call (VReadToEnd beacon)) in
          if (bytes =? nl_line "quiesced")%string then Ret (Ok ())
          else Ret (Err ("quiesced beacon malformed: " +:+
                         show_debug (from_utf8_lossy (String.list_ascii_of_string bytes))))) h
    (went_well (λ _ h', ∃ b, talks h' = [(b, [Rest (nl_line "quiesced")]); (c, provision_script)])).
Proof using All.
  intros Hs. eapply (spec_then _ _ _ _ (λ b, speaking b [] [(c, provision_script)])).
  { apply spec_well_err. eapply spec_mono; [apply spec_accept_call|].
    - split; [done|]. right. split; [done|]. by exists c.
    - intros r h' H b ->%H. unfold speaking. rewrite talks_snoc, Hs. done. }
  intros b h1 H1. ask as u; [by right|]. destruct u.
  apply speaking_mute with (op := VCloseListener quiesced) (x := tt) in H1; [|done].
  eapply (spec_then _ _ _ _ (λ _ h', speaking b [] [(c, provision_script)] h' ∧ retired quiesced quiesced_path h')).
  { apply spec_map_err. unfold wr. spec_call as x; [by right|]. intros [] Hx. split; [by apply speaking_mute|].
    split; [|apply answered_snoc; by destruct x]. apply elem_of_app. left. apply elem_of_app. right. by apply list_elem_of_singleton. }
  intros [] h2 [H2 Hret].
  eapply (spec_then _ _ _ _ (λ bytes h', talks h' = [(b, [Rest bytes]); (c, provision_script)])).
  { apply spec_well_err. apply spec_call; [split; [done|]; by exists c|]. intros x bytes ->.
    rewrite talks_snoc, H2. apply say_newest. }
  intros bytes h3 H3. destruct (String.eqb_spec bytes (nl_line "quiesced")) as [->|]; [|by intros ? [=]].
  intros [] _. by exists b.
Qed.

Lemma spec_provisioning :
  spec R (serve_provisioning_inner show_debug show_utf8_error provision quiesced (provision_path, quiesced_path) payload) []
    (went_well (λ _ h', ∃ b c, talks h' = [(b, [Rest (nl_line "quiesced")]); (c, provision_script)])).
Proof using All.
  unfold serve_provisioning_inner. eapply (spec_then _ _ _ _ (λ c h', speaking c [] [] h')).
  { apply spec_well_err. eapply spec_mono; [apply spec_accept_call; split; [done|]; by left|]. by intros r h' H c ->%H. }
  intros c h Hs. ask as u; [by left|]. destruct u.
  apply speaking_mute with (op := VCloseListener provision) (x := tt) in Hs; [|done].
  eapply (spec_then _ _ _ _ (λ _, providing c [])).
  { apply spec_well_err. unfold wr. spec_call as x; [by left|]. intros [] Hx. split; [by apply speaking_mute|].
    split; [|apply answered_snoc; by destruct x]. apply elem_of_app. left. apply elem_of_app. right. by apply list_elem_of_singleton. }
  intros [] h1 H1. apply spec_provision_frames; [exact H1|]. intros h2 H2.
  eapply spec_then; [apply spec_provision_acks; exact H2|]. intros ys h3 [H3 _].
  eapply (spec_then _ _ _ _ (λ trailing h', speaking c (provision_frames ++ provision_acks ++ [Rest trailing]) [] h')).
  { apply spec_well_err. apply spec_call; [done|]. intros x trailing ->. unfold speaking.
    rewrite talks_snoc, H3. cbn [hear]. rewrite say_newest. by rewrite <- (assoc_L (++)). }
  intros trailing h4 H4. destruct trailing as [|b trailing]; [|by intros ? [=]]. cbn [is_empty negb].
  ask as u; [done|]. apply speaking_mute with (op := VClose c) (x := u) in H4; [|done].
  eapply spec_mono; [apply spec_beacon; exact H4|]. intros r h' H v Hv. destruct (H v Hv) as (b & Hb). by exists b, c.
Qed.

End provisioning.

(** ** Theorems *)

(** One-shot secrets are read once.  Whatever the host answers, the task
    accepts a single connection, and sends the length and the secrets to it only
    after it has closed the listener and removed its path; it reads at most nine
    bytes of the answer.  It succeeds only when exactly those two texts were sent
    and the guest answered [OK] and a newline, nothing else. *)
Theorem one_shot_delivered show_debug listener listen_path payload tr o :
  run (serve show_debug listener listen_path payload) tr o →
  guarded (one_shot_allows listener listen_path payload) tr ∧
  (o = Some (Ok ()) → ∃ c, talks tr = [(c, secret_frame payload ++ heard "OK")]).
Proof.
  intros Hrun. destruct (spec_run _ _ _ _ _ (spec_serve show_debug listener listen_path payload) Hrun) as [Hg Hq].
  split; [done|]. intros ->. exact (Hq _ eq_refl () eq_refl).
Qed.

(** A base is provisioned in two conversations.  Whatever the host answers,
    the bundle and the warm-up script are framed to the one agent that was
    accepted, after its endpoint has gone; the beacon is waited for only when that
    agent has acknowledged stage, clone and warm, in that order, and hung up.  The
    task succeeds only when a second connection then said exactly [quiesced]. *)
Theorem provisioning_conversation show_debug show_utf8_error provision quiesced provision_path quiesced_path payload tr o :
  run (serve_provisioning_inner show_debug show_utf8_error provision quiesced (provision_path, quiesced_path) payload) tr o →
  guarded (provisioning_allows provision quiesced provision_path quiesced_path payload) tr ∧
  (o = Some (Ok ()) →
   ∃ b c, talks tr = [(b, [Rest (nl_line "quiesced")]); (c, provision_script payload)]).
Proof.
  intros Hrun.
  destruct (spec_run _ _ _ _ _ (spec_provisioning show_debug show_utf8_error provision quiesced provision_path quiesced_path payload)
              Hrun) as [Hg Hq].
  split; [done|]. intros ->. exact (Hq _ eq_refl () eq_refl).
Qed.

(** A guest that says [text], byte by byte, and the beacon. *)
Definition guest_host (text : string) (h : list vevent) (op : vsop) : vans op :=
  match op return vans op with
  | VRemoveFile _ | VChown _ _ _ | VWrite _ _ => Ok ()
  | VBind _ => Ok 3%N
  | VAccept l _ => Some (Ok (10 + l)%N)
  | VReadByte _ _ => Some (Ok (String.list_ascii_of_string text !! reads h))
  | VReadOne _ => Ok EmptyString
  | VReadToEnd _ => Ok (nl_line "quiesced")
  | VNow => 1000%N
  | VUtcNow => 1750000000%Z
  | VUlid => "01jz0000000000000000000000"
  | VCloseListener _ | VClose _ | VProgress _ | VAbort => ()
  end.

Lemma one_shot_delivered_witness :
  let r := exec (guest_host (nl_line "OK")) (serve id 3 ["jail"; "v.sock_5000"] "A=b") [] in
  fst r = Some (Ok ()) ∧ guarded (one_shot_allows 3 ["jail"; "v.sock_5000"] "A=b") (snd r) ∧
  ∃ c, talks (snd r) = [(c, secret_frame "A=b" ++ heard "OK")].
Proof.
  assert (E : fst (exec (guest_host (nl_line "OK")) (serve id 3 ["jail"; "v.sock_5000"] "A=b") []) = Some (Ok ()))
    by (vm_compute; reflexivity).
  destruct (one_shot_delivered id 3 ["jail"; "v.sock_5000"] "A=b" _ _ (exec_run_nil (guest_host (nl_line "OK")) _)) as [Hg Hq].
  exact (conj E (conj Hg (Hq E))).
Defined.

Definition sample_payload : ProvisioningPayload := {| pp_bundle := "bundle"; pp_warm := "make"; pp_base_repo_sha := None |}.

Definition sample_acks : string := nl_line "ACK stage" +:+ nl_line "ACK clone" +:+ nl_line "ACK warm".

Lemma provisioning_conversation_witness :
  let r := exec (guest_host sample_acks)
             (serve_provisioning_inner id id 3 4 (["jail"; "v.sock_5001"], ["jail"; "v.sock_5002"]) sample_payload) [] in
  fst r = Some (Ok ()) ∧
  guarded (provisioning_allows 3 4 ["jail"; "v.sock_5001"] ["jail"; "v.sock_5002"] sample_payload) (snd r) ∧
  ∃ b c, talks (snd r) = [(b, [Rest (nl_line "quiesced")]); (c, provision_script sample_payload)].
Proof.
  assert (E : fst (exec (guest_host sample_acks)
    (serve_provisioning_inner id id 3 4 (["jail"; "v.sock_5001"], ["jail"; "v.sock_5002"]) sample_payload) []) = Some (Ok ()))
    by (vm_compute; reflexivity).
  destruct (provisioning_conversation id id 3 4 ["jail"; "v.sock_5001"] ["jail"; "v.sock_5002"] sample_payload _ _
              (exec_run_nil (guest_host sample_acks) _)) as [Hg Hq].
  exact (conj E (conj Hg (Hq E))).
Defined.
