(* ===== verification/Runner.v ===== *)
(** * Runner: driving a guest ([runner.rs])

    Reaching a guest through its namespace, waiting for its sshd, running a
    command, a repository command or the cursor agent, and bringing the output
    back.  A host process is a call; what OpenSSH, git and tar do is what such a
    call answers.  An error is its outermost message, and the durations are
    nanoseconds.  A process that is still running when its future is dropped is
    killed, and that is left out. *)

From S2P Require Import Prelude RStr Fs Artifacts Config Pcap Prog Sys Images Boot.
From stdpp Require Import options.

(** ** Text *)

Definition dq : string := String "034" EmptyString.
Definition quoted (s : string) : string := dq +:+ s +:+ dq.
Definition lossy (s : string) : string := from_utf8_lossy (String.list_ascii_of_string s).

(** [str::split_once] on a text. *)
Fixpoint split_once_str (sep s : string) : option (string * string) :=
  match strip_prefix sep s with
  | Some r => Some (EmptyString, r)
  | None =>
      match s with
      | EmptyString => None
      | String a s => match split_once_str sep s with Some (u, v) => Some (String a u, v) | None => None end
      end
  end.

(** [str::parse::<i32>]. *)
Definition parse_i32 (s : string) : option Z :=
  match s with
  | String a r =>
      if (a =? "-")%char then
        if is_empty r then None else (λ n, (- Z.of_N n)%Z) <$> parse_digits 2147483648 0 r
      else Z.of_N <$> parse_uint 2147483647 s
  | EmptyString => None
  end.

Definition is_ascii_hexdigit (a : byte) : bool := is_ascii_digit a || in_range 97 102 a || in_range 65 70 a.

(** A full object id. *)
Definition is_object_id (s : string) : bool :=
  (bool_decide (len s = 40) || bool_decide (len s = 64)) && all_bytes is_ascii_hexdigit s.

(** ** Constants *)

Definition GUEST_USER : string := "rooms".
Definition SSH_PROBE_ATTEMPT_TIMEOUT : N := 75000000000.
Definition SSH_AUXILIARY_CONNECT_TIMEOUT : N := 5000000000.
Definition CURSOR_RUNNER_JS : string := "/opt/rooms/cursor-runner/cursor-runner.js".
Definition WORKSPACE_UNWRITABLE_MARKER : string := "ROOMS_WORKSPACE_UNWRITABLE".
Definition CHANGESET_JSON : string := "changeset.json".

(** The walk of the overlay's upper directory, as the guest runs it. *)
Definition ENUMERATE_OVERLAY : string :=
  join dq ["sudo bash -c 'UP=/oldroot/mnt/upper; LOW=/oldroot
if [ ! -d ";
  "$UP";
  " ]; then printf NOOVERLAY; exit 0; fi
find ";
  "$UP";
  " \( -type f -o -type l -o -type b -o -type p -o -type s -o -type c \) -print0 | while IFS= read -r -d ";
  "";
  " p; do
  rel=${p#";
  "$UP";
  "/}
  if [ -c ";
  "$p";
  " ] && [ ";
  "$(stat -c %t ";
  "$p";
  " 2>/dev/null)";
  " = 0 ] && [ ";
  "$(stat -c %T ";
  "$p";
  " 2>/dev/null)";
  " = 0 ]; then printf ";
  "D\t%s\0";
  " ";
  "$rel";
  "
  elif [ -e ";
  "$LOW/$rel";
  " ] || [ -L ";
  "$LOW/$rel";
  " ]; then printf ";
  "M\t%s\0";
  " ";
  "$rel";
  "
  else printf ";
  "A\t%s\0";
  " ";
  "$rel";
  "; fi
done'"].

(** ** Requests *)

Record CursorMeta := { cm_base_sha : string; cm_model_id : string }.

Record CursorRequest := {
  cr_repo_url : string;
  cr_task_md : string;
  cr_meta : CursorMeta;
  cr_push_branch : option string
}.

Inductive Runner :=
| Command (command : string)
| RepositoryCommand (command repo_url base_sha : string)
| Cursor (request : CursorRequest).

Definition guest_command_argv (command : string) : list string := ["sh"; "-c"; command].
Definition cursor_command_argv : list string := ["node"; CURSOR_RUNNER_JS].

Definition command_argv (r : Runner) : list string :=
  match r with
  | Command command | RepositoryCommand command _ _ => guest_command_argv command
  | Cursor _ => cursor_command_argv
  end.

Inductive GuestSignal := GuestReady | SshReady.

#[export] Instance guest_signal_eq_dec : EqDecision GuestSignal.
Proof. solve_decision. Defined.

Record GuestTarget := { guest_ip : string; netns : option string }.

Definition flat (ip : string) : GuestTarget := {| guest_ip := ip; netns := None |}.

Record GuestExecOutcome := {
  go_exit_code : Z;
  go_status : RunStatus;
  go_started_at : string;
  go_ended_at : string;
  go_post_run_error : option string
}.

(** ** Host processes *)

(** [Command::new(program).args(args)], with the directory it runs in and the
    variables set for it. *)
Record HostCommand := { hc_program : string; hc_args : list string; hc_cwd : option string; hc_env : list (string * string) }.

Definition host_command (program : string) (args : list string) : HostCommand :=
  {| hc_program := program; hc_args := args; hc_cwd := None; hc_env := [] |}.

(** No code where a signal ended it. *)
Record Output := { out_code : option Z; out_stdout : string; out_stderr : string }.

Definition out_success (o : Output) : bool := bool_decide (out_code o = Some 0%Z).

Definition guest_process (target : GuestTarget) (program : string) (args : list string) : HostCommand :=
  match netns target with
  | None => host_command program args
  | Some ns => host_command "ip" (["netns"; "exec"; ns; program] ++ args)
  end.

(** Rounded up to seconds, and at least one. *)
Definition ssh_connect_timeout_option (timeout : N) : string :=
  let seconds := N.max 1 (N.min u64_max (timeout / 1000000000 + if (timeout mod 1000000000 =? 0)%N then 0 else 1)) in
  "ConnectTimeout=" +:+ show_N seconds.

Definition destination (target : GuestTarget) : string := GUEST_USER +:+ "@" +:+ guest_ip target.

Definition ssh_probe_command (target : GuestTarget) (key : string) (connect_timeout : N) : HostCommand :=
  guest_process target "ssh"
    ["-i"; key; "-o"; "BatchMode=yes"; "-o"; ssh_connect_timeout_option connect_timeout;
     "-o"; "StrictHostKeyChecking=no"; "-o"; "UserKnownHostsFile=/dev/null"; "-o"; "LogLevel=ERROR";
     destination target; "true"].

Definition ping_command (target : GuestTarget) : HostCommand :=
  guest_process target "ping" ["-c"; "1"; "-W"; "1"; guest_ip target].

Definition ssh_args (target : GuestTarget) (key remote : string) (forward_gh_token : bool) (connect_timeout : N) : list string :=
  ["-i"; key; "-o"; "BatchMode=yes"; "-o"; ssh_connect_timeout_option connect_timeout;
   "-o"; "StrictHostKeyChecking=no"; "-o"; "UserKnownHostsFile=/dev/null"; "-o"; "LogLevel=ERROR";
   "-o"; "SendEnv=ANTHROPIC_API_KEY"; "-o"; "SendEnv=CLAUDE_CODE_OAUTH_TOKEN";
   "-o"; "SendEnv=ANTHROPIC_AUTH_TOKEN"; "-o"; "SendEnv=CURSOR_API_KEY"] ++
  (if forward_gh_token then ["-o"; "SendEnv=GH_TOKEN"] else []) ++
  [destination target; "--"; remote].

(** One argument of a POSIX shell, whatever is in it. *)
Fixpoint single_quote_body (s : string) : string :=
  match s with
  | EmptyString => EmptyString
  | String c s => if (c =? "'")%char then "'\''" +:+ single_quote_body s else String c (single_quote_body s)
  end.

Definition shell_single_quote (s : string) : string := "'" +:+ single_quote_body s +:+ "'".

(** ** Calls *)

(** [RRun] waits as long as it takes, [RRunWithin] answers [None] after its
    time.  [RComplete] is the assignment of the caller's [completed]. *)
Inductive rop :=
| RNow
| RUtcNow
| RUlid
| REnv (name : string)
| RSleep (time : N)
| RObserve (signal : GuestSignal)
| RComplete (outcome : option GuestExecOutcome)
| RRun (c : HostCommand)
| RRunWithin (c : HostCommand) (time : N)
| RSpawn (c : HostCommand)
| RFeed (child : N) (bytes : string)          (* by a task of its own, failures ignored *)
| RWrite (child : N) (bytes : string)
| RShutdown (child : N)
| RWait (child : N)
| RRemoveDirAll (p : path)
| RCreateDir (p : path)
| RWriteFile (p : path) (bytes : string)
| RRename (source target : path)
| RReadFile (p : path)
| RTempDir
| RExists (p : string)
| RCanonicalize (p : string).

Definition rans (op : rop) : Type :=
  match op with
  | RNow => N
  | RUtcNow | RUlid => string
  | REnv _ => option string
  | RSleep _ | RObserve _ | RComplete _ | RFeed _ _ => unit
  | RRun _ => result io_error Output
  | RRunWithin _ _ => option (result io_error Output)
  | RSpawn _ => result io_error N
  | RWrite _ _ | RShutdown _ => result io_error unit
  | RWait _ => result io_error Output
  | RRemoveDirAll _ | RCreateDir _ | RWriteFile _ _ | RRename _ _ => result io_error unit
  | RReadFile _ => result io_error string
  | RTempDir => path
  | RExists _ => bool
  | RCanonicalize _ => result io_error path
  end.

Abbreviation run_prog := (prog rans) (only parsing).
Abbreviation revent := (event rans) (only parsing).

(** [Context::context]. *)
Definition context {A : Type} (what : string) (p : run_prog (result io_error A)) : run_prog (result string A) :=
  pmap_err (λ _, what) p.

(** [?] on an I/O error. *)
Definition plain {A : Type} (p : run_prog (result io_error A)) : run_prog (result string A) := pmap_err message p.

Definition ns (ms : N) : N := (ms * 1000000)%N.

Section runner.
  Variable config : RoomsConfig.
  Variable show_path : path → string.
  (** [{:?}] of a text and of a duration, [{}] of an exit status and of the parse
      errors, and [serde_json::to_string_pretty]. *)
  Variables (show_debug : string → string) (show_duration : N → string) (show_status : option Z → string).
  Variables (show_utf8_error show_int_error : string → string).
  Variables (show_result : ResultJson → string) (show_meta : CursorMeta → string) (show_changeset : Changeset → string).

(** [Path::to_str]. *)
Definition path_to_str (p : path) : option string :=
  let s := show_path p in if (lossy s =? s)%string then Some s else None.

Definition ssh_command (target : GuestTarget) (key_path : path) (remote : string) (forward_gh_token : bool)
    (connect_timeout : N) : result string HostCommand :=
  match path_to_str key_path with
  | None => Err "key path not utf-8"
  | Some key => Ok (guest_process target "ssh" (ssh_args target key remote forward_gh_token connect_timeout))
  end.

(** ** Waiting for the guest *)

Definition probe_ssh_once (target : GuestTarget) (key : string) (attempt : N)
    : run_prog (option (result FirecrackerError (option string))) :=
  let* probed := call (RRunWithin (ssh_probe_command target key attempt) attempt) in
  Ret (match probed with
       | None => None
       | Some (Err e) => Some (Err (FcInternal ("ssh probe spawn failed: " +:+ message e)))
       | Some (Ok output) => Some (Ok (if out_success output then None else Some (trim (lossy (out_stderr output)))))
       end).

Definition probe_ping_once (target : GuestTarget) (remaining : N) : run_prog (option bool) :=
  let* answer := call (RRunWithin (ping_command target) remaining) in
  Ret (match answer with None => None | Some (Ok output) => Some (out_success output) | Some (Err _) => Some false end).

Definition signal_ready (guest_seen : bool) : run_prog unit :=
  do* if guest_seen then Ret () else call (RObserve GuestReady) in
  call (RObserve SshReady).

Definition unreachable (target : GuestTarget) (timeout : N) (last_err : string) : FirecrackerError :=
  FcGuestUnreachable ("sshd at " +:+ guest_ip target +:+ " did not accept connections within " +:+ show_duration timeout +:+
                      " (last stderr: " +:+ last_err +:+ ")").

(** What is left until the deadline. *)
Definition remaining_until (deadline : N) : run_prog N := let* now := call RNow in Ret (deadline - now)%N.

Fixpoint wait_loop (fuel : nat) (target : GuestTarget) (key : string) (probe_ping : bool) (deadline : N) (guest_seen : bool)
    (last_err : string) : run_prog (result FirecrackerError unit) :=
  match fuel with
  | 0 => Spin
  | S fuel =>
      let timeout := ns (guest_reach_timeout config) in
      let* now := call RNow in
      if (deadline <=? now)%N then Ret (Err (unreachable target timeout last_err)) else
      let* remaining := remaining_until deadline in
      let attempt := N.min remaining SSH_PROBE_ATTEMPT_TIMEOUT in
      let* probed := probe_ssh_once target key attempt in
      try* probe := Ret (match probed with
                         | Some result => result
                         | None => Ok (Some ("authenticated SSH attempt exceeded " +:+ show_duration attempt))
                         end) in
      match probe with
      | None => do* signal_ready guest_seen in Ret (Ok ())
      | Some last_err =>
          try* guest_seen :=
            if probe_ping && negb guest_seen then
              let* remaining := remaining_until deadline in
              let* answer := probe_ping_once target remaining in
              match answer with
              | Some true => do* call (RObserve GuestReady) in Ret (Ok true)
              | Some false => Ret (Ok guest_seen)
              | None => Ret (Err (unreachable target timeout last_err))
              end
            else Ret (Ok guest_seen) in
          let* remaining := remaining_until deadline in
          do* call (RSleep (N.min (ns (guest_reach_poll_interval config)) remaining)) in
          wait_loop fuel target key probe_ping deadline guest_seen last_err
      end
  end.

Definition wait_for_ssh_observed (fuel : nat) (target : GuestTarget) (key_path : path) (probe_ping : bool)
    : run_prog (result FirecrackerError unit) :=
  match path_to_str key_path with
  | None => Ret (Err (FcInternal "key path not utf-8"))
  | Some key =>
      let* now := call RNow in
      wait_loop fuel target key probe_ping (now + ns (guest_reach_timeout config))%N false EmptyString
  end.

(** ** Guest files and setup commands *)

Definition guest_run (target : GuestTarget) (key_path : path) (remote : string) (forward_gh_token : bool) (timeout : N)
    (what : io_error → string) : run_prog (result string Output) :=
  try* c := Ret (ssh_command target key_path remote forward_gh_token timeout) in
  pmap_err what (call (RRun c)).

Definition run_setup_ssh (target : GuestTarget) (key_path : path) (remote what : string) (timeout : N)
    : run_prog (result string unit) :=
  try* output := guest_run target key_path remote false timeout (λ _, "failed to spawn ssh for " +:+ what) in
  Ret (if out_success output then Ok ()
       else Err (what +:+ " failed (exit " +:+ show_status (out_code output) +:+ "): " +:+ lossy (out_stderr output))).

Definition write_guest_file (target : GuestTarget) (key_path : path) (dir name contents : string) (timeout : N)
    : run_prog (result string unit) :=
  let remote := "mkdir -p " +:+ dir +:+ " && cat > " +:+ dir +:+ "/" +:+ name in
  try* c := Ret (ssh_command target key_path remote false timeout) in
  try* child := context ("spawn ssh to write " +:+ name) (call (RSpawn c)) in
  try* _ := context ("write " +:+ name +:+ " to ssh stdin") (call (RWrite child contents)) in
  try* _ := context ("close ssh stdin after " +:+ name) (call (RShutdown child)) in
  try* output := context ("wait on " +:+ name +:+ " ssh") (call (RWait child)) in
  Ret (if out_success output then Ok ()
       else Err ("write " +:+ name +:+ " via SSH failed (exit " +:+ show_status (out_code output) +:+ "): " +:+
                 lossy (out_stderr output))).

Definition write_guest_result_json_with_timeout (target : GuestTarget) (key_path : path) (result_ : ResultJson) (timeout : N)
    : run_prog (result string unit) :=
  write_guest_file target key_path "/workspace/out" "result.json" (show_result result_) timeout.

Definition write_guest_result_json (target : GuestTarget) (key_path : path) (result_ : ResultJson)
    : run_prog (result string unit) :=
  write_guest_result_json_with_timeout target key_path result_ SSH_AUXILIARY_CONNECT_TIMEOUT.

Definition ensure_guest_artifact_skeleton (target : GuestTarget) (key_path : path) : run_prog (result string unit) :=
  run_setup_ssh target key_path
    "mkdir -p /workspace/out/logs && touch /workspace/out/logs/stdout.log /workspace/out/logs/stderr.log"
    "create cancelled-run artifact skeleton" SSH_AUXILIARY_CONNECT_TIMEOUT.

Definition stage_cursor_input (target : GuestTarget) (key_path : path) (task_md : string) (meta : CursorMeta) (timeout : N)
    : run_prog (result string unit) :=
  try* _ := write_guest_file target key_path "/workspace/in" "task.md" task_md timeout in
  write_guest_file target key_path "/workspace/in" "meta.json" (show_meta meta) timeout.

(** ** The repository in the guest *)

Definition resolve_base_command (repo revision : string) : string :=
  let repo := shell_single_quote repo in
  let direct := shell_single_quote (revision +:+ "^{commit}") in
  let remote := shell_single_quote ("refs/remotes/origin/" +:+ revision +:+ "^{commit}") in
  "git -C " +:+ repo +:+ " rev-parse --verify --end-of-options " +:+ direct +:+ " 2>/dev/null || git -C " +:+ repo +:+
  " rev-parse --verify --end-of-options " +:+ remote.

Definition clone_command (repo_url base_sha : string) : string :=
  "rm -rf /workspace/repo && git clone -- " +:+ shell_single_quote repo_url +:+ " /workspace/repo && base=$(" +:+
  resolve_base_command "/workspace/repo" base_sha +:+ ") && git -C /workspace/repo checkout --detach " +:+ quoted "$base" +:+
  " && git -C /workspace/repo rev-parse HEAD".

Definition clone_repo_in_guest (target : GuestTarget) (key_path : path) (repo_url base_sha : string) (timeout : N)
    : run_prog (result string string) :=
  try* output := guest_run target key_path (clone_command repo_url base_sha) false timeout message in
  if negb (out_success output) then Ret (Err ("clone repo in guest failed: " +:+ lossy (out_stderr output))) else
  if negb (lossy (out_stdout output) =? out_stdout output)%string then Ret (Err (show_utf8_error (out_stdout output))) else
  let base := trim (out_stdout output) in
  Ret (if is_object_id base then Ok base else Err "invalid resolved repository base").

Definition patch_command (pinned_base : string) : string :=
  "mkdir -p /workspace/out && cd /workspace/repo && git add -A && git diff --binary --cached " +:+
  shell_single_quote pinned_base +:+ " > /workspace/out/result.patch".

Definition generate_result_patch (target : GuestTarget) (key_path : path) (pinned_base : string) (timeout : N)
    : run_prog (result string unit) :=
  run_setup_ssh target key_path (patch_command pinned_base) "generate result.patch" timeout.

Definition push_command (repo_url branch pinned_base : string) : string :=
  let branch_q := shell_single_quote branch in
  "set -e; cd /workspace/repo; git checkout -B " +:+ branch_q +:+ "; git add -A; if ! git diff --cached --quiet; then " +:+
  "git -c user.email=cursor@rooms.local -c user.name='rooms cursor agent' commit -q -m 'rooms cursor agent run' " +:+
  "-m 'Co-authored-by: Cursor <cursoragent@cursor.com>'; fi; if [ " +:+ quoted "$(git rev-parse HEAD)" +:+ " = " +:+
  shell_single_quote pinned_base +:+ " ]; then exit 3; fi; git -c credential.helper='!f(){ echo username=x-access-token; echo " +:+
  quoted "password=$GH_TOKEN" +:+ "; }; f' push " +:+ shell_single_quote repo_url +:+ " HEAD:" +:+ branch_q.

Definition push_branch_in_guest (target : GuestTarget) (key_path : path) (repo_url branch pinned_base : string) (timeout : N)
    : run_prog (result string bool) :=
  try* output := guest_run target key_path (push_command repo_url branch pinned_base) true timeout
                   (λ _, "failed to spawn ssh for push") in
  Ret (match out_code output with
       | Some 0%Z => Ok true
       | Some 3%Z => Ok false
       | _ => Err ("git push failed (exit " +:+ show_status (out_code output) +:+ "): " +:+ lossy (out_stderr output))
       end).

(** ** Running a command *)

(** The last marker counts. *)
Definition parse_remote_exit_code (output : string) : result string Z :=
  let text := lossy output in
  match last (omap (strip_prefix "EXIT=") (lines text)) with
  | None => Err ("guest stdout missing EXIT= marker; raw stdout: " +:+ show_debug text)
  | Some marker =>
      ok_or (parse_i32 (trim marker)) ("EXIT= marker not numeric: " +:+ show_debug marker +:+ "; raw stdout: " +:+ show_debug text)
  end.

Record WrappedRun := { wr_exit_code : Z; wr_started_at : string; wr_ended_at : string }.

Definition wrapped_command (inner : string) : string :=
  "if ! mkdir -p /workspace/out/logs; then echo " +:+ WORKSPACE_UNWRITABLE_MARKER +:+ " >&2; exit 1; fi; bash -c " +:+
  shell_single_quote inner +:+ " > /workspace/out/logs/stdout.log 2> /workspace/out/logs/stderr.log; echo EXIT=$?".

Definition unwritable_message : string :=
  "guest /workspace is not writable by the runner user (" +:+ GUEST_USER +:+
  "); the image must provide a rooms-owned /workspace — agent images built with " +:+
  "scripts/build-rootfs-alpine.sh carry it, and scripts/bake-rootfs-ssh.sh provisions it into a stock image".

Definition run_wrapped (target : GuestTarget) (key_path : path) (inner : string) (timeout : N)
    : run_prog (result string WrappedRun) :=
  let* started_at := call RUtcNow in
  try* output := guest_run target key_path (wrapped_command inner) false timeout
                   (λ _, "failed to spawn ssh; is openssh-client installed?") in
  let* ended_at := call RUtcNow in
  let stderr_str := lossy (out_stderr output) in
  if contains stderr_str WORKSPACE_UNWRITABLE_MARKER then Ret (Err unwritable_message) else
  if negb (existsb (λ l, starts_with l "EXIT=") (lines (lossy (out_stdout output)))) then
    Ret (Err ("guest exec via SSH failed before wrapper completed (ssh exit " +:+ show_status (out_code output) +:+ "): " +:+ stderr_str))
  else
  try* exit_code := Ret (parse_remote_exit_code (out_stdout output)) in
  do* call (RComplete (Some {| go_exit_code := exit_code; go_status := status_from_exit_code exit_code;
                               go_started_at := started_at; go_ended_at := ended_at; go_post_run_error := None |})) in
  Ret (Ok {| wr_exit_code := exit_code; wr_started_at := started_at; wr_ended_at := ended_at |}).

Definition outcome_of (run : WrappedRun) (post_run_error : option string) : GuestExecOutcome :=
  {| go_exit_code := wr_exit_code run; go_status := status_from_exit_code (wr_exit_code run);
     go_started_at := wr_started_at run; go_ended_at := wr_ended_at run; go_post_run_error := post_run_error |}.

Definition result_of (run : WrappedRun) (argv : list string) : ResultJson :=
  from_exec (wr_exit_code run) (status_from_exit_code (wr_exit_code run)) (wr_started_at run) (wr_ended_at run) argv.

(** Fields of the result assigned. *)
Definition set_patch_path (p : option string) (r : ResultJson) : ResultJson :=
  {| Artifacts.schema_version := Artifacts.schema_version r; status := status r; exit_code := exit_code r;
     Artifacts.started_at := Artifacts.started_at r; ended_at := ended_at r; summary_path := summary_path r; patch_path := p;
     events_path := events_path r; pushed_branch := pushed_branch r; run_command_line := run_command_line r |}.

Definition set_cursor_paths (patch pushed : option string) (r : ResultJson) : ResultJson :=
  {| Artifacts.schema_version := Artifacts.schema_version r; status := status r; exit_code := exit_code r;
     Artifacts.started_at := Artifacts.started_at r; ended_at := ended_at r; summary_path := Some "summary.md"; patch_path := patch;
     events_path := Some "events.ndjson"; pushed_branch := pushed; run_command_line := run_command_line r |}.

Definition exec_in_guest_observed (target : GuestTarget) (key_path : path) (command : string)
    : run_prog (result string GuestExecOutcome) :=
  let timeout := ns (guest_reach_timeout config) in
  try* run := run_wrapped target key_path command timeout in
  try* _ := write_guest_result_json_with_timeout target key_path (result_of run (guest_command_argv command)) timeout in
  Ret (Ok (outcome_of run None)).

Definition repository_inner (command : string) : string :=
  "cd /workspace/repo && bash -c " +:+ shell_single_quote command.

Definition exec_repository_command (target : GuestTarget) (key : path) (command repo base : string)
    : run_prog (result string GuestExecOutcome) :=
  let timeout := ns (guest_reach_timeout config) in
  try* pinned_base := clone_repo_in_guest target key repo base timeout in
  try* run := run_wrapped target key (repository_inner command) timeout in
  let* patch := generate_result_patch target key pinned_base timeout in
  let result_ := set_patch_path (match patch with Ok _ => Some "result.patch" | Err _ => None end)
                   (result_of run (guest_command_argv command)) in
  try* _ := write_guest_result_json_with_timeout target key result_ timeout in
  Ret (Ok (outcome_of run (match patch with Ok _ => None | Err error => Some error end))).

Definition exec_cursor_in_guest_observed (target : GuestTarget) (key_path : path) (request : CursorRequest)
    : run_prog (result string GuestExecOutcome) :=
  let timeout := ns (guest_reach_timeout config) in
  try* pinned_base := clone_repo_in_guest target key_path (cr_repo_url request) (cm_base_sha (cr_meta request)) timeout in
  try* _ := stage_cursor_input target key_path (cr_task_md request) (cr_meta request) timeout in
  try* run := run_wrapped target key_path ("node " +:+ CURSOR_RUNNER_JS +:+ " < /dev/null") timeout in
  let* patch := generate_result_patch target key_path pinned_base timeout in
  let* pushed :=
    match cr_push_branch request, wr_exit_code run with
    | Some branch, 0%Z =>
        let* pushed := push_branch_in_guest target key_path (cr_repo_url request) branch pinned_base timeout in
        Ret (match pushed with
             | Ok true => (Some branch, None)
             | Ok false => (None, None)
             | Err e => (None, Some e)
             end)
    | _, _ => Ret (None, None)
    end in
  let '(pushed_branch, push_err) := pushed in
  try* _ := run_setup_ssh target key_path
              "mkdir -p /workspace/out && touch /workspace/out/events.ndjson /workspace/out/summary.md"
              "ensure cursor output artifacts exist" timeout in
  let result_ := set_cursor_paths (if is_ok patch then Some "result.patch" else None) pushed_branch
                   (result_of run cursor_command_argv) in
  try* _ := write_guest_result_json_with_timeout target key_path result_ timeout in
  Ret (Ok (outcome_of run push_err)).

Definition exec_observed (target : GuestTarget) (key_path : path) (runner : Runner)
    : run_prog (result string GuestExecOutcome) :=
  do* call (RComplete None) in
  match runner with
  | Command command => exec_in_guest_observed target key_path command
  | RepositoryCommand command repo_url base_sha => exec_repository_command target key_path command repo_url base_sha
  | Cursor request => exec_cursor_in_guest_observed target key_path request
  end.

(** ** Output directories *)

(** [Path::ancestors] of an absolute path, the outermost first. *)
Definition ancestors_in (p : path) : list path := (λ n, take n p) <$> seq 0 (S (length p)).

Fixpoint create_directories (dirs : list path) (created : list path) : run_prog (list path * result string unit) :=
  match dirs with
  | [] => Ret (created, Ok ())
  | dir :: dirs =>
      let* made := call (RCreateDir dir) in
      match made with
      | Ok _ => create_directories dirs (created ++ [dir])
      | Err e =>
          if bool_decide (kind e = AlreadyExists) then create_directories dirs created
          else Ret (created, Err ("create output " +:+ show_path dir))
      end
  end.

(** [created] gains the directories this call made, also when it fails. *)
Definition create_output_directory (p : path) (created : list path) : run_prog (list path * result string unit) :=
  create_directories (ancestors_in p) created.

Definition return_artifact_ownership (paths : list path) (recursive : bool) : run_prog (result string unit) :=
  match paths with
  | [] => Ret (Ok ())
  | _ =>
      let* uid := call (REnv "SUDO_UID") in
      let* gid := call (REnv "SUDO_GID") in
      match uid, gid with
      | Some uid, Some gid =>
          try* uid := Ret (ok_or (parse_uint u32_max uid) (show_int_error uid)) in
          try* gid := Ret (ok_or (parse_uint u32_max gid) (show_int_error gid)) in
          let owner := show_N uid +:+ ":" +:+ show_N gid in
          try* output := plain (call (RRun (host_command "chown"
                           ([if recursive then "-hR" else "-h"; "--"; owner] ++ (show_path <$> paths))))) in
          Ret (if out_success output then Ok () else Err ("return --out ownership: " +:+ lossy (out_stderr output)))
      | _, _ => Ret (Ok ())
      end
  end.

(** ** Collecting *)

Definition run_host_tar (archive : string) (args : list string) (p : option path) : run_prog (result string Output) :=
  try* child := context "failed to spawn host tar"
                  (call (RSpawn (host_command "tar" (args ++ (show_path <$> option_list p))))) in
  do* call (RFeed child archive) in
  context "failed to wait for host tar" (call (RWait child)).

(** A line of [tar -tv]: a plain file or a directory, and no word of it absolute
    or with a [..] component. *)
Definition tar_member_is_safe (line : string) : bool :=
  match line with
  | String c _ => ((c =? "-")%char || (c =? "d")%char) &&
                  negb (existsb (λ tok, starts_with tok "/" || existsb (λ comp, (comp =? "..")%string) (split_byte "/" tok))
                                (split_whitespace line))
  | EmptyString => false
  end.

Definition ensure_tar_regular_only (archive : string) : run_prog (result string unit) :=
  try* listing := run_host_tar archive ["-tvf"; "-"] None in
  if negb (out_success listing) then
    Ret (Err ("could not list guest tar (exit " +:+ show_status (out_code listing) +:+ "): " +:+ lossy (out_stderr listing)))
  else
  Ret (match find (λ line, negb (tar_member_is_safe line)) (lines (lossy (out_stdout listing))) with
       | Some line => Err ("refusing unsafe guest archive member: " +:+ line)
       | None => Ok ()
       end).

Definition collect_command : string :=
  "if [ ! -d /workspace/out ]; then exit 0; fi; if command -v sudo >/dev/null 2>&1 && sudo -n true 2>/dev/null; then " +:+
  "exec sudo -n tar cf - -C /workspace/out .; fi; exec tar cf - -C /workspace/out .".

Definition extract_args : list string := ["--no-same-owner"; "--no-same-permissions"; "-xf"; "-"; "-C"].

Definition extract_archive (archive : string) (host_dir : path) : run_prog (result string unit) :=
  try* _ := ensure_tar_regular_only archive in
  try* extract := run_host_tar archive extract_args (Some host_dir) in
  if negb (out_success extract) then
    Ret (Err ("host tar extract failed (exit " +:+ show_status (out_code extract) +:+ "): " +:+ lossy (out_stderr extract)))
  else
  try* modes := plain (call (RRun (host_command "chmod" ["-R"; "u+rwX,a-s"; "--"; show_path host_dir]))) in
  Ret (if out_success modes then Ok () else Err "normalize collected artifact permissions failed").

Definition collect_out_to_host_observed (target : GuestTarget) (key_path host_dir : path) (created : list path)
    : run_prog (list path * result string unit) :=
  let* cleared := call (RRemoveDirAll host_dir) in
  let clear_failed := match cleared with Ok _ => false | Err e => negb (bool_decide (kind e = NotFound)) end in
  if clear_failed then Ret (created, Err ("clear --out dir " +:+ show_path host_dir)) else
  let* made := create_output_directory host_dir created in
  match made with
  | (created, Err e) => Ret (created, Err e)
  | (created, Ok _) =>
      let* collected :=
        try* ssh_out := guest_run target key_path collect_command false SSH_AUXILIARY_CONNECT_TIMEOUT
                          (λ _, "failed to run guest tar over ssh") in
        if negb (out_success ssh_out) then
          Ret (Err ("guest tar failed (exit " +:+ show_status (out_code ssh_out) +:+ "): " +:+ lossy (out_stderr ssh_out)))
        else
        if is_empty (out_stdout ssh_out) then Ret (Ok ()) else extract_archive (out_stdout ssh_out) host_dir in
      Ret (created, collected)
  end.

Definition collect_out_to_host (target : GuestTarget) (key_path host_dir : path) : run_prog (result string unit) :=
  let* collected := collect_out_to_host_observed target key_path host_dir [] in
  let '(created, collected) := collected in
  let* ownership :=
    try* _ := if bool_decide (host_dir ∈ created) then return_artifact_ownership [host_dir] true else Ret (Ok ()) in
    return_artifact_ownership (filter (λ p, p ≠ host_dir) created) false in
  Ret (match collected with Err e => Err e | Ok _ => ownership end).

Definition write_host_artifact_atomic (dir : path) (name bytes : string) : run_prog (result string unit) :=
  let final_path := path_join dir name in
  let tmp_path := path_join dir (name +:+ ".tmp") in
  try* _ := context ("write " +:+ show_path tmp_path) (call (RWriteFile tmp_path bytes)) in
  context ("rename into " +:+ show_path final_path) (call (RRename tmp_path final_path)).

Definition collect_changeset_to_host (target : GuestTarget) (key_path host_dir : path) : run_prog (result string unit) :=
  try* ssh_out := guest_run target key_path ENUMERATE_OVERLAY false SSH_AUXILIARY_CONNECT_TIMEOUT
                    (λ _, "failed to enumerate overlay over ssh") in
  if negb (out_success ssh_out) then
    Ret (Err ("guest overlay enumeration failed (exit " +:+ show_status (out_code ssh_out) +:+ "): " +:+ lossy (out_stderr ssh_out)))
  else
  write_host_artifact_atomic host_dir CHANGESET_JSON
    (show_changeset (parse_changeset_stream (String.list_ascii_of_string (out_stdout ssh_out)))).

(** ** The input of a neutral base *)

Definition CREDENTIAL_MARKERS : list string :=
  ["token="; "password="; "secret="; "oauth="; "api_key="; "authorization:"; ".netrc"; ".ssh/"; ".git-credentials";
   "credential.helper"; "gh auth"].

Definition validate_neutral_warm (command : string) : result FirecrackerError unit :=
  let lower := to_ascii_lowercase command in
  match find (contains lower) CREDENTIAL_MARKERS with
  | Some marker =>
      Err (FcInternal ("base warm-up refuses credential source marker " +:+ show_debug marker +:+
                       "; authenticated warm-up runs after restore"))
  | None => Ok ()
  end.

Definition repo_url_has_userinfo (repo : string) : bool :=
  match split_once_str "://" repo with
  | Some (_, rest) => match split_byte "/" rest with authority :: _ => contains_byte "@" authority | [] => false end
  | None => false
  end.

Definition git_stdout (cwd : string) (args : list string) (action : string) : run_prog (result FirecrackerError string) :=
  try* output := pmap_err (λ e, FcInternal (action +:+ ": " +:+ message e))
                   (call (RRun {| hc_program := "git"; hc_args := args; hc_cwd := Some cwd; hc_env := [("GIT_TERMINAL_PROMPT", "0")] |})) in
  Ret (if out_success output then Ok (trim (lossy (out_stdout output)))
       else Err (FcInternal (action +:+ ": " +:+ trim (lossy (out_stderr output))))).

Definition run_git (cwd : string) (args : list string) (action : string) : run_prog (result FirecrackerError unit) :=
  try* _ := git_stdout cwd args action in Ret (Ok ()).

Definition bundle_pinned_head (repo_dir staging : path) (revision : string) (bundle : path)
    : run_prog (result FirecrackerError string) :=
  let spec_ := revision +:+ "^{commit}" in
  try* commit := git_stdout (show_path repo_dir) ["rev-parse"; "--verify"; "--end-of-options"; spec_] "resolve --base-sha on host" in
  if negb (is_object_id commit) then
    Ret (Err (FcInternal ("--base-sha " +:+ revision +:+ " did not resolve to a full commit id")))
  else
  try* _ := run_git "." ["clone"; "--quiet"; "--bare"; "--shared"; "--"; lossy (show_path repo_dir); lossy (show_path staging)]
              "stage pinned base repository" in
  try* _ := run_git (show_path staging) ["update-ref"; "--no-deref"; "HEAD"; commit] "pin base repository HEAD" in
  try* _ := run_git (show_path staging) ["bundle"; "create"; lossy (show_path bundle); "HEAD"] "create pinned repository bundle" in
  Ret (Ok commit).

(** The steps that have the temporary directory. *)
Definition bundle_in (temp : path) (repo : string) (base_revision : option string)
    : run_prog (result FirecrackerError (string * option string)) :=
  let* exists_ := call (RExists repo) in
  try* repo_dir :=
    if exists_ : bool then pmap_err FcIo (call (RCanonicalize repo))
    else
      let mirror := path_join temp "repo.git" in
      try* _ := run_git "." ["clone"; "--mirror"; "--"; repo; lossy (show_path mirror)] "resolve base repository on host" in
      Ret (Ok mirror) in
  let bundle_path := path_join temp "repo.bundle" in
  try* pinned :=
    match base_revision with
    | Some revision =>
        try* commit := bundle_pinned_head repo_dir (path_join temp "pinned.git") revision bundle_path in
        Ret (Ok (Some commit))
    | None => Ret (Ok None)
    end in
  try* _ :=
    match pinned with
    | None => run_git (show_path repo_dir) ["bundle"; "create"; lossy (show_path bundle_path); "--all"]
                "create credential-free repository bundle"
    | Some _ => Ret (Ok ())
    end in
  try* bytes := pmap_err FcIo (call (RReadFile bundle_path)) in
  Ret (Ok (bytes, pinned)).

(** The temporary directory goes away however that ends. *)
Definition create_repo_bundle (repo : string) (base_revision : option string)
    : run_prog (result FirecrackerError (string * option string)) :=
  if repo_url_has_userinfo repo then Ret (Err (FcInternal "base --repo URL must not embed credentials")) else
  let* temp_dir := call RTempDir in
  let* id := call RUlid in
  let temp := path_join temp_dir ("rooms-base-" +:+ id) in
  try* _ := pmap_err FcIo (call (RCreateDir temp)) in
  let* bundled := bundle_in temp repo base_revision in
  do* call (RRemoveDirAll temp) in
  Ret bundled.

Definition prepare_base_provisioning (repo base_revision warm : option string)
    : run_prog (result FirecrackerError ProvisioningPayload) :=
  try* _ := Ret (match warm with Some command => validate_neutral_warm command | None => Ok () end) in
  match repo with
  | None =>
      Ret (if base_revision is Some _ then Err (FcInternal "--base-sha requires --repo")
           else Ok (ProvisioningPayload_new EmptyString warm))
  | Some repo =>
      try* made := create_repo_bundle repo base_revision in
      let '(bundle, pinned) := made in
      let payload := ProvisioningPayload_new bundle warm in
      Ret (Ok (match pinned with Some commit => pinned_to commit payload | None => payload end))
  end.

End runner.
