(* ===== verification/RunnerOrder.v ===== *)
(** * RunnerOrder: the order of a run in the guest

    What [exec_observed] asks of a guest, after what, and what an outcome stands
    for. *)

From S2P Require Import Prelude RStr Fs Artifacts Config Pcap Prog Sys Images Boot Runner.
From stdpp Require Import options.

Section order.
  Variables (config : RoomsConfig) (show_path : path → string).
  Variables (show_debug : string → string) (show_status : option Z → string) (show_utf8_error : string → string).
  Variables (show_result : ResultJson → string) (show_meta : CursorMeta → string).
  Variables (target : GuestTarget) (key_path : path) (runner : Runner).

(** [c] runs [remote] in the guest over ssh. *)
Definition asks (remote : string) (forward_gh_token : bool) (c : HostCommand) : Prop :=
  ∃ timeout, ssh_command show_path target key_path remote forward_gh_token timeout = Ok c.

(** What was run, and answered with success. *)
Definition answered_ok (remote : string) (forward_gh_token : bool) (o : Output) (h : list revent) : Prop :=
  ∃ c, asks remote forward_gh_token c ∧ Event (Ans := rans) (RRun c) (Ok o) ∈ h.

Definition source_of (r : Runner) : option (string * string) :=
  match r with
  | Command _ => None
  | RepositoryCommand _ url base => Some (url, base)
  | Cursor request => Some (cr_repo_url request, cm_base_sha (cr_meta request))
  end.

Definition inner_of (r : Runner) : string :=
  match r with
  | Command command => command
  | RepositoryCommand command _ _ => repository_inner command
  | Cursor _ => "node " +:+ CURSOR_RUNNER_JS +:+ " < /dev/null"
  end.

(** The clone answered [base], before any code of the guest's was run. *)
Definition pinned (base : string) (h : list revent) : Prop :=
  ∃ url revision o, source_of runner = Some (url, revision) ∧
    answered_ok (clone_command url revision) false o h ∧ out_success o = true ∧
    base = trim (out_stdout o) ∧ is_object_id base = true.

(** The workload ran, its marker gave its exit code, and the caller was told. *)
Definition worked (run : WrappedRun) (h : list revent) : Prop :=
  ∃ o, answered_ok (wrapped_command (inner_of runner)) false o h ∧
    parse_remote_exit_code show_debug (out_stdout o) = Ok (wr_exit_code run) ∧
    Event (Ans := rans) (RComplete (Some (outcome_of run None))) () ∈ h.

Definition pushes (request : CursorRequest) (branch : string) : Prop :=
  runner = Cursor request ∧ cr_push_branch request = Some branch.

Definition write_command (dir name : string) : string := "mkdir -p " +:+ dir +:+ " && cat > " +:+ dir +:+ "/" +:+ name.

Definition skeleton_command : string :=
  "mkdir -p /workspace/out && touch /workspace/out/events.ndjson /workspace/out/summary.md".

(** The commands of a run, each with what went before it. *)
Inductive run_allowed (h : list revent) (c : HostCommand) : Prop :=
| AllowClone url revision :
    source_of runner = Some (url, revision) → (∀ run, ¬ worked run h) →
    asks (clone_command url revision) false c → run_allowed h c
| AllowWorkload :
    (is_Some (source_of runner) → ∃ base, pinned base h) → (∀ run, ¬ worked run h) →
    asks (wrapped_command (inner_of runner)) false c → run_allowed h c
| AllowPatch base run :
    pinned base h → worked run h → asks (patch_command base) false c → run_allowed h c
| AllowPush request branch base run :
    pushes request branch → pinned base h → worked run h → wr_exit_code run = 0%Z →
    asks (push_command (cr_repo_url request) branch base) true c → run_allowed h c
| AllowSkeleton run :
    worked run h → asks skeleton_command false c → run_allowed h c.

Inductive spawn_allowed (h : list revent) (c : HostCommand) : Prop :=
| AllowInput request name base :
    runner = Cursor request → name ∈ ["task.md"; "meta.json"] → pinned base h → (∀ run, ¬ worked run h) →
    asks (write_command "/workspace/in" name) false c → spawn_allowed h c
| AllowResult run :
    worked run h → asks (write_command "/workspace/out" "result.json") false c → spawn_allowed h c.

Definition exec_allows (h : list revent) (op : rop) : Prop :=
  match op with
  | RUtcNow | RShutdown _ | RWait _ => True
  | RComplete None => h = []
  | RComplete (Some o) =>
      ∃ out, answered_ok (wrapped_command (inner_of runner)) false out h ∧
        parse_remote_exit_code show_debug (out_stdout out) = Ok (go_exit_code o) ∧
        go_status o = status_from_exit_code (go_exit_code o) ∧ go_post_run_error o = None
  | RRun c => run_allowed h c
  | RSpawn c => spawn_allowed h c
  | RWrite child _ => ∃ c, Event (Ans := rans) (RSpawn c) (Ok child) ∈ h
  | _ => False
  end.

(** The result that was written to the guest. *)
Definition recorded (run : WrappedRun) (h : list revent) : Prop :=
  ∃ r child, Event (Ans := rans) (RWrite child (show_result r)) (Ok ()) ∈ h ∧
    exit_code r = wr_exit_code run ∧ status r = status_from_exit_code (wr_exit_code run) ∧
    run_command_line r = command_argv runner ∧
    (is_Some (patch_path r) → ∃ base o, pinned base h ∧ answered_ok (patch_command base) false o h ∧ out_success o = true) ∧
    (∀ branch, pushed_branch r = Some branch → ∃ request base o, pushes request branch ∧ pinned base h ∧
       answered_ok (push_command (cr_repo_url request) branch base) true o h ∧ out_code o = Some 0%Z).

(** ** Steps *)

#[local] Instance monotone_answered_ok remote fwd o : Monotone (answered_ok remote fwd o).
Proof. intros h k (c & Hc & He). exists c. split; [done|]. apply elem_of_app. by left. Qed.
#[local] Instance monotone_pinned base : Monotone (pinned base).
Proof.
  intros h k (url & rev & o & Hs & Ha & H). exists url, rev, o. split; [done|]. split; [by apply monotone_answered_ok|done].
Qed.
#[local] Instance monotone_worked run : Monotone (worked run).
Proof.
  intros h k (o & Ha & Hp & He). exists o. split; [by apply monotone_answered_ok|]. split; [done|]. apply elem_of_app. by left.
Qed.

Lemma spec_guest_run remote fwd timeout what (P : list revent → Prop) `{!Monotone P} h :
  (∀ c, asks remote fwd c → run_allowed h c) → P h →
  spec exec_allows (guest_run show_path target key_path remote fwd timeout what) h
    (went_well (λ o h', P h' ∧ answered_ok remote fwd o h')).
Proof using All.
  intros HR HP. unfold guest_run. destruct (ssh_command show_path target key_path remote fwd timeout) as [c|e] eqn:Hc; [|by intros o ?].
  apply spec_ok. spec_call as r; [apply HR; by exists timeout|]. destruct r as [o'|e]; intros o; [|by intros].
  intros [= ->]. split; [by apply monotone|]. exists c. split; [by exists timeout|]. apply elem_of_app. right. by left.
Qed.

Lemma spec_set_up remote what timeout (P : list revent → Prop) `{!Monotone P} h :
  (∀ c, asks remote false c → run_allowed h c) → P h →
  spec exec_allows (run_setup_ssh show_path show_status target key_path remote what timeout) h
    (λ r h', P h' ∧ (is_ok r = true → ∃ o, answered_ok remote false o h' ∧ out_success o = true)).
Proof using All.
  intros HR HP. unfold run_setup_ssh, guest_run.
  destruct (ssh_command show_path target key_path remote false timeout) as [c|e] eqn:Hc; [|by split].
  apply spec_try, spec_ok. spec_call as r; [apply HR; by exists timeout|]. destruct r as [o|e]; simpl; [|split; [by apply monotone|done]].
  split; [by apply monotone|]. destruct (out_success o) eqn:Ho; [|done]. intros _. exists o. split; [|done].
  exists c. split; [by exists timeout|]. apply elem_of_app. right. by left.
Qed.

(** The calls that write a file. *)
Definition is_transfer (op : rop) : Prop :=
  match op with RSpawn _ | RWrite _ _ | RShutdown _ | RWait _ => True | _ => False end.

(** A file written to the guest, with a fact that such calls keep. *)
Lemma spec_write_file dir name contents timeout (P : list revent → Prop) h :
  (∀ h op x, is_transfer op → P h → P (h ++ [Event op x])) →
  (∀ c, asks (write_command dir name) false c → spawn_allowed h c) → P h →
  spec exec_allows (write_guest_file show_path show_status target key_path dir name contents timeout) h
    (went_well (λ _ h', P h' ∧ ∃ child, Event (Ans := rans) (RWrite child contents) (Ok ()) ∈ h')).
Proof using All.
  intros Hkeep HR HP. unfold write_guest_file, context.
  change ("mkdir -p " +:+ dir +:+ " && cat > " +:+ dir +:+ "/" +:+ name) with (write_command dir name).
  destruct (ssh_command show_path target key_path (write_command dir name) false timeout) as [c|e] eqn:Hc; [|by intros o ?].
  apply spec_ok. spec_call as child; [apply HR; by exists timeout|]. destruct child as [child|e]; [|by intros o ?].
  simpl map_err; cbv iota. spec_call as w; [exists c; apply elem_of_app; right; by left|]. destruct w as [[]|e]; [|by intros o ?].
  simpl map_err; cbv iota. spec_call as s; [done|]. destruct s as [[]|e]; [|by intros o ?].
  simpl map_err; cbv iota. spec_call as o; [done|]. destruct o as [o|e]; intros u; [|by intros].
  intros _. split; [by repeat (apply Hkeep; [done|])|]. exists child. set_solver.
Qed.

(** Before the workload: nothing was completed. *)
Definition unworked (h : list revent) : Prop := ∀ o, Event (Ans := rans) (RComplete (Some o)) () ∉ h.

Lemma unworked_snoc h op x :
  (match op with RComplete (Some _) => False | _ => True end) → unworked h → unworked (h ++ [Event op x]).
Proof.
  intros Hop Hh o. rewrite elem_of_app, list_elem_of_singleton. intros [Ho|Ho]; [by eapply Hh|]. by injection Ho as <-.
Qed.

Lemma unworked_not h : unworked h → ∀ run, ¬ worked run h.
Proof. intros Hh run (o & _ & _ & He). by eapply Hh. Qed.

(** A command whose answer is looked at by a function of it alone. *)
Lemma spec_asked remote fwd timeout what h Q :
  (∀ c, asks remote fwd c → run_allowed h c) →
  (∀ e, Q (Err e) h) →
  (∀ c r, asks remote fwd c → Q (map_err what r) (h ++ [Event (Ans := rans) (RRun c) r])) →
  spec exec_allows (guest_run show_path target key_path remote fwd timeout what) h Q.
Proof using All.
  intros HR He HQ. unfold guest_run. destruct (ssh_command show_path target key_path remote fwd timeout) as [c|e] eqn:Hc; [|apply He].
  apply spec_ok. spec_call as r; [apply HR; by exists timeout|]. apply HQ. by exists timeout.
Qed.

Lemma spec_clone url revision timeout h :
  source_of runner = Some (url, revision) → unworked h →
  spec exec_allows (clone_repo_in_guest show_path show_utf8_error target key_path url revision timeout) h
    (went_well (λ base h', pinned base h' ∧ unworked h')).
Proof using All.
  intros Hs Hu. unfold clone_repo_in_guest.
  eapply (spec_then _ _ _ _ (λ o h', answered_ok (clone_command url revision) false o h' ∧ unworked h')).
  - apply spec_asked.
    + intros c Hc. eapply AllowClone; [exact Hs|by apply unworked_not|done].
    + by intros e o ?.
    + intros c [o'|e] Hc o; [|by intros]. intros [= ->]. split; [|by apply unworked_snoc].
      exists c. split; [done|]. apply elem_of_app. right. by left.
  - intros o h' [Ho Hu']. destruct (out_success o) eqn:Hok; [|by intros base ?]. cbn [negb].
    destruct (negb _) eqn:Hutf; [by intros base ?|]. destruct (is_object_id (trim (out_stdout o))) eqn:Hid; [|by intros base ?].
    intros base [= <-]. split; [|done]. exists url, revision, o. by split_and!.
Qed.

(** The workload, with what was done before it. *)
Lemma spec_run_wrapped timeout (P : list revent → Prop) `{!Monotone P} h :
  (is_Some (source_of runner) → ∃ base, pinned base h) → unworked h → P h →
  spec exec_allows (run_wrapped show_path show_debug show_status target key_path (inner_of runner) timeout) h
    (went_well (λ run h', P h' ∧ worked run h')).
Proof using All.
  intros Hsrc Hu HP. unfold run_wrapped. ask as started; [done|].
  eapply (spec_then _ _ _ _ (λ o h', P h' ∧ answered_ok (wrapped_command (inner_of runner)) false o h')).
  - apply spec_asked.
    + intros c Hc. apply AllowWorkload; [|by apply unworked_not, unworked_snoc|done].
      intros Hs. destruct (Hsrc Hs) as [base Hb]. exists base. by apply monotone_pinned.
    + by intros e o ?.
    + intros c [o'|e] Hc o; [|by intros]. intros [= ->]. rewrite <- (assoc_L (++)). split; [by apply monotone|].
      exists c. split; [done|]. set_solver.
  - intros o h' [HP' Ho]. ask as ended; [done|]. destruct (contains _ _); [by intros run ?|].
    destruct (negb _); [by intros run ?|].
    destruct (parse_remote_exit_code show_debug (out_stdout o)) as [code|e] eqn:Hcode; [|by intros run ?].
    apply spec_ok. ask as u; [exists o; split; [by apply monotone_answered_ok|done]|]. destruct u.
    intros run [= <-]. split; [by do 2 apply monotone|]. exists o. split; [by do 2 apply monotone_answered_ok|].
    split; [done|]. apply elem_of_app. right. by left.
Qed.

(** A result that says what was done. *)
Definition truthful (run : WrappedRun) (r : ResultJson) (h : list revent) : Prop :=
  exit_code r = wr_exit_code run ∧ status r = status_from_exit_code (wr_exit_code run) ∧
  run_command_line r = command_argv runner ∧
  (is_Some (patch_path r) → ∃ base o, pinned base h ∧ answered_ok (patch_command base) false o h ∧ out_success o = true) ∧
  (∀ branch, pushed_branch r = Some branch → ∃ request base o, pushes request branch ∧ pinned base h ∧
     answered_ok (push_command (cr_repo_url request) branch base) true o h ∧ out_code o = Some 0%Z).

#[local] Instance monotone_truthful run r : Monotone (truthful run r).
Proof.
  intros h k (He & Hs & Hc & Hp & Hb). do 3 (split; [done|]). split.
  - intros Hr. destruct (Hp Hr) as (base & o & H1 & H2 & H3). exists base, o. split; [by apply monotone_pinned|].
    split; [by apply monotone_answered_ok|done].
  - intros branch Hr. destruct (Hb branch Hr) as (request & base & o & H0 & H1 & H2 & H3). exists request, base, o.
    split; [done|]. split; [by apply monotone_pinned|]. split; [by apply monotone_answered_ok|done].
Qed.

Lemma spec_result_record run r timeout h :
  worked run h → truthful run r h →
  spec exec_allows (write_guest_result_json_with_timeout show_path show_status show_result target key_path r timeout) h
    (went_well (λ _ h', worked run h' ∧ recorded run h')).
Proof using All.
  intros Hw Ht. unfold write_guest_result_json_with_timeout.
  eapply spec_mono; [apply (spec_write_file _ _ _ _ (λ h, worked run h ∧ truthful run r h))|].
  - intros h0 op x _ [? ?]. split; [by apply monotone_worked|by apply monotone_truthful].
  - intros c Hc. by eapply AllowResult.
  - done.
  - intros x h' H u Hu. destruct (H u Hu) as [[Hw' Ht'] [child Hc]]. split; [done|].
    destruct Ht' as (? & ? & ? & ? & ?). exists r, child. by split_and!.
Qed.

(** What an outcome stands for. *)
Definition accounted (o : GuestExecOutcome) (h : list revent) : Prop :=
  ∃ run, worked run h ∧ recorded run h ∧ o = outcome_of run (go_post_run_error o).

Lemma spec_command command h :
  runner = Command command → unworked h →
  spec exec_allows (exec_in_guest_observed config show_path show_debug show_status show_result target key_path command) h
    (went_well accounted).
Proof using All.
  intros Hrunner Hu. assert (Hin : command = inner_of runner) by (by rewrite Hrunner).
  assert (Hsrc : source_of runner = None) by (by rewrite Hrunner).
  assert (Hargv : guest_command_argv command = command_argv runner) by (by rewrite Hrunner).
  unfold exec_in_guest_observed. cbv zeta. rewrite Hargv, Hin.
  eapply (spec_then _ _ _ _ (λ run h', True ∧ worked run h')).
  - apply spec_run_wrapped; [apply _|by rewrite Hsrc; intros [? ?]|done|done].
  - intros run h' [_ Hw]. eapply (spec_then _ _ _ _ (λ _ h', worked run h' ∧ recorded run h')).
    + apply spec_result_record; [done|]. split_and!; try done. by intros [? ?].
    + intros [] h'' [Hw' Hr]. intros o [= <-]. by exists run.
Qed.

(** The patch against the pinned base. *)
Lemma spec_patch base run timeout h :
  pinned base h → worked run h →
  spec exec_allows (generate_result_patch show_path show_status target key_path base timeout) h
    (λ r h', (pinned base h' ∧ worked run h') ∧
       (is_ok r = true → ∃ o, answered_ok (patch_command base) false o h' ∧ out_success o = true)).
Proof using All.
  intros Hp Hw. unfold generate_result_patch. apply (spec_set_up _ _ _ (λ h, pinned base h ∧ worked run h)); [|done].
  intros c Hc. by eapply AllowPatch.
Qed.

Lemma spec_repository command url revision h :
  runner = RepositoryCommand command url revision → unworked h →
  spec exec_allows
    (exec_repository_command config show_path show_debug show_status show_utf8_error show_result target key_path command url revision) h
    (went_well accounted).
Proof using All.
  intros Hrunner Hu. assert (Hin : repository_inner command = inner_of runner) by (by rewrite Hrunner).
  assert (Hsrc : source_of runner = Some (url, revision)) by (by rewrite Hrunner).
  assert (Hargv : guest_command_argv command = command_argv runner) by (by rewrite Hrunner).
  unfold exec_repository_command. cbv zeta. rewrite Hargv, Hin.
  eapply spec_then; [by apply spec_clone|]. intros base h1 [Hb Hu1].
  eapply (spec_then _ _ _ _ (λ run h', pinned base h' ∧ worked run h')).
  { apply spec_run_wrapped; [apply _|by intros _; exists base|done|done]. }
  intros run h2 [Hb2 Hw2]. apply spec_bind. eapply spec_mono; [by apply spec_patch|].
  intros patch h3 [[Hb3 Hw3] Hpatch]. eapply (spec_then _ _ _ _ (λ _ h', worked run h' ∧ recorded run h')).
  - apply spec_result_record; [done|]. split_and!; try done.
    destruct patch as [[]|e]; [|by intros [? ?]]. intros _. destruct (Hpatch eq_refl) as (o & Ho). by exists base, o.
  - intros [] h4 [Hw4 Hr]. intros o [= <-]. by exists run.
Qed.

Lemma spec_input request base h :
  runner = Cursor request → pinned base h → unworked h → ∀ name contents timeout, name ∈ ["task.md"; "meta.json"] →
  spec exec_allows (write_guest_file show_path show_status target key_path "/workspace/in" name contents timeout) h
    (went_well (λ _ h', pinned base h' ∧ unworked h')).
Proof using All.
  intros Hrunner Hb Hu name contents timeout Hname.
  eapply spec_mono; [apply (spec_write_file _ _ _ _ (λ h, pinned base h ∧ unworked h))|].
  - intros h0 op x Hop [? ?]. split; [by apply monotone_pinned|]. apply unworked_snoc; [by destruct op|done].
  - intros c Hc. by eapply AllowInput; [..|apply unworked_not|].
  - done.
  - intros r h' H u Hw. by destruct (H u Hw).
Qed.

Lemma spec_push request branch base run timeout h :
  pushes request branch → wr_exit_code run = 0%Z → pinned base h → worked run h →
  spec exec_allows (push_branch_in_guest show_path show_status target key_path (cr_repo_url request) branch base timeout) h
    (λ r h', (pinned base h' ∧ worked run h') ∧ (r = Ok true →
       ∃ o, answered_ok (push_command (cr_repo_url request) branch base) true o h' ∧ out_code o = Some 0%Z)).
Proof using All.
  intros Hpush H0 Hb Hw. unfold push_branch_in_guest. apply spec_try, spec_asked.
  - intros c Hc. by eapply AllowPush.
  - by intros e.
  - intros c r Hc. set (h' := h ++ _).
    assert (Hk : pinned base h' ∧ worked run h') by (split; [by apply monotone_pinned|by apply monotone_worked]).
    destruct r as [o|e]; [|by split]. simpl. split; [done|]. intros Ho. exists o. split.
    + exists c. split; [done|]. apply elem_of_app. right. by left.
    + destruct (out_code o) as [[|[[]|[]|]|]|]; try done.
Qed.

(** What the run has done when its result is written. *)
Definition finished (request : CursorRequest) (base : string) (run : WrappedRun) (patch : bool) (pushed : option string)
    (h : list revent) : Prop :=
  pinned base h ∧ worked run h ∧
  (patch = true → ∃ o, answered_ok (patch_command base) false o h ∧ out_success o = true) ∧
  (∀ branch, pushed = Some branch → ∃ o, pushes request branch ∧
     answered_ok (push_command (cr_repo_url request) branch base) true o h ∧ out_code o = Some 0%Z).

#[local] Instance monotone_finished request base run patch pushed : Monotone (finished request base run patch pushed).
Proof.
  intros h k (Hb & Hw & Hp & Hbr). split; [by apply monotone_pinned|]. split; [by apply monotone_worked|]. split.
  - intros E. destruct (Hp E) as (o & Ho & Hs). exists o. split; [by apply monotone_answered_ok|done].
  - intros branch E. destruct (Hbr branch E) as (o & H0 & Ho & Hs). exists o. split; [done|].
    split; [by apply monotone_answered_ok|done].
Qed.

Lemma spec_maybe_push request base run patch timeout h :
  runner = Cursor request → finished request base run patch None h →
  spec exec_allows
    (match cr_push_branch request, wr_exit_code run with
     | Some branch, 0%Z =>
         let* pushed := push_branch_in_guest show_path show_status target key_path (cr_repo_url request) branch base timeout in
         Ret (match pushed with
              | Ok true => (Some branch, None)
              | Ok false => (None, None)
              | Err e => (None, Some e)
              end)
     | _, _ => Ret (None, None)
     end) h (λ pushed h', finished request base run patch (fst pushed) h').
Proof using All.
  intros Hrunner Hf. destruct (cr_push_branch request) as [branch|] eqn:Hbranch; [|done].
  destruct (wr_exit_code run) eqn:Hcode; [|done..]. apply spec_bind.
  pose proof Hf as (Hb & Hw & _ & _).
  eapply spec_mono; [eapply (spec_keep exec_allows _ h (finished request base run patch None)); [exact Hf|];
    by apply spec_push|].
  intros pushed h' [(Hb' & Hw' & Hp' & _) [_ Hok]]. split; [done|]. split; [done|]. split; [done|].
  intros branch' Hbr. destruct pushed as [[]|e]; simpl in Hbr; [|done..]. injection Hbr as <-.
  destruct (Hok eq_refl) as (o & Ho & H0). by exists o.
Qed.

Lemma spec_cursor request h :
  runner = Cursor request → unworked h →
  spec exec_allows
    (exec_cursor_in_guest_observed config show_path show_debug show_status show_utf8_error show_result show_meta target key_path request) h
    (went_well accounted).
Proof using All.
  intros Hrunner Hu. assert (Hin : "node " +:+ CURSOR_RUNNER_JS +:+ " < /dev/null" = inner_of runner) by (by rewrite Hrunner).
  assert (Hsrc : source_of runner = Some (cr_repo_url request, cm_base_sha (cr_meta request))) by (by rewrite Hrunner).
  assert (Hargv : cursor_command_argv = command_argv runner) by (by rewrite Hrunner).
  unfold exec_cursor_in_guest_observed. cbv zeta. rewrite Hargv, Hin.
  eapply spec_then; [by apply spec_clone|]. intros base h1 [Hb1 Hu1].
  eapply (spec_then _ _ _ _ (λ _ h', pinned base h' ∧ unworked h')).
  { unfold stage_cursor_input. eapply spec_then; [by eapply spec_input; [..|left]|]. intros [] h2 [Hb2 Hu2].
    by eapply spec_input; [..|right; left]. }
  intros [] h2 [Hb2 Hu2]. eapply (spec_then _ _ _ _ (λ run h', pinned base h' ∧ worked run h')).
  { apply spec_run_wrapped; [apply _|by intros _; exists base|done|done]. }
  intros run h3 [Hb3 Hw3]. apply spec_bind. eapply spec_mono; [by apply spec_patch|].
  intros patch h4 [[Hb4 Hw4] Hpatch]. apply spec_bind.
  eapply spec_mono; [apply (spec_maybe_push request base run (is_ok patch)); [done|]; by split_and!|].
  intros [pushed push_err] h5 Hf. cbv beta iota. simpl fst in Hf.
  eapply (spec_then _ _ _ _ (λ _, finished request base run (is_ok patch) pushed)).
  { eapply spec_mono; [apply (spec_set_up _ _ _ (finished request base run (is_ok patch) pushed)); [|exact Hf]|].
    - intros c Hc. apply (AllowSkeleton _ _ run); [apply Hf|exact Hc].
    - intros r h' [H _] u _. exact H. }
  intros [] h6 (Hb6 & Hw6 & Hpatch6 & Hpush6).
  eapply (spec_then _ _ _ _ (λ _ h', worked run h' ∧ recorded run h')).
  - apply spec_result_record; [done|]. split_and!; try done.
    + destruct patch as [[]|e]; [|by intros [? ?]]. intros _. destruct (Hpatch6 eq_refl) as (o & Ho). by exists base, o.
    + intros branch Hbr. destruct (Hpush6 branch Hbr) as (o & Hp & Ha & H0). by exists request, base, o.
  - intros [] h7 [Hw7 Hr]. intros o [= <-]. by exists run.
Qed.

Lemma spec_exec :
  spec exec_allows
    (exec_observed config show_path show_debug show_status show_utf8_error show_result show_meta target key_path runner) []
    (went_well accounted).
Proof using All.
  unfold exec_observed. ask as u; [done|]. destruct u.
  assert (Hu : unworked ([] ++ [Event (Ans := rans) (RComplete None) ()])).
  { intros o. rewrite elem_of_app, list_elem_of_singleton. by intros [?%elem_of_nil|[=]]. }
  destruct runner as [command|command url base|request] eqn:E.
  - by apply spec_command.
  - by apply spec_repository.
  - by apply spec_cursor.
Qed.

End order.

(** ** The push token *)

(** The process sends the host's [GH_TOKEN] to the guest. *)
Definition forwards_gh_token (args : list string) : Prop :=
  ∃ i, args !! i = Some "-o" ∧ args !! S i = Some "SendEnv=GH_TOKEN".

Lemma forwards_app_short pre args :
  "-o" ∉ pre → forwards_gh_token (pre ++ args) → forwards_gh_token args.
Proof.
  intros Hpre (i & Hi & Hj). destruct (decide (i < length pre)) as [Hlt|Hge].
  - rewrite lookup_app_l in Hi by lia. by apply list_elem_of_lookup_2 in Hi.
  - rewrite lookup_app_r in Hi, Hj by lia. exists (i - length pre). split; [done|]. by rewrite <- Nat.sub_succ_l by lia.
Qed.

Lemma ssh_args_no_token target key remote timeout :
  ¬ forwards_gh_token (ssh_args target key remote false timeout).
Proof.
  intros (i & Hi & Hj). unfold ssh_args, destination, ssh_connect_timeout_option in *.
  do 23 (destruct i as [|i]; [cbn in Hi, Hj; first [congruence|by injection Hj|by injection Hi]|]). cbn in Hj. by destruct i.
Qed.

Lemma asks_no_token show_path target key_path remote c :
  netns target ≠ Some "-o" → asks show_path target key_path remote false c → ¬ forwards_gh_token (hc_args c).
Proof.
  intros Hns (timeout & Hc) Hf. unfold ssh_command in Hc. destruct (path_to_str show_path key_path) as [key|]; [|done].
  injection Hc as <-. unfold guest_process in Hf. destruct (netns target) as [ns|]; simpl hc_args in Hf.
  - apply (forwards_app_short ["netns"; "exec"; ns; "ssh"]) in Hf; [by eapply ssh_args_no_token|]. set_unfold. naive_solver.
  - by eapply ssh_args_no_token.
Qed.

(** It stays in the guest's namespace. *)
Definition confined (target : GuestTarget) (c : HostCommand) : Prop :=
  match netns target with
  | Some ns => hc_program c = "ip" ∧ ∃ args, hc_args c = ["netns"; "exec"; ns; "ssh"] ++ args
  | None => hc_program c = "ssh"
  end.

Lemma asks_confined show_path target key_path remote fwd c :
  asks show_path target key_path remote fwd c → confined target c.
Proof.
  intros (timeout & Hc). unfold ssh_command in Hc. destruct (path_to_str show_path key_path); [|done]. injection Hc as <-.
  unfold confined, guest_process. destruct (netns target) as [ns|]; simpl; [|done]. eauto.
Qed.

(** ** Theorems *)

(** C19. A run in the guest keeps its order under any failure, whatever the guest
    answers.  With a repository, its base is resolved to a full object id before
    any code of the guest's is run, and the patch and the push use that very id;
    the workload runs at most once completed; patch, push and the writing of the
    result come only after the caller has been told the exit code of the last
    marker.  An outcome carries that exit code, and the result in the guest was
    written with it, naming a patch or a pushed branch only when that step
    succeeded. *)
Theorem exec_ordered config show_path show_debug show_status show_utf8_error show_result show_meta target key_path runner tr o :
  run (exec_observed config show_path show_debug show_status show_utf8_error show_result show_meta target key_path runner) tr o →
  guarded (exec_allows show_path show_debug target key_path runner) tr ∧
  ∀ out, o = Some (Ok out) → accounted show_path show_debug show_result target key_path runner out tr.
Proof.
  intros Hrun.
  destruct (spec_run _ _ _ _ _ (spec_exec config show_path show_debug show_status show_utf8_error show_result show_meta
              target key_path runner) Hrun) as [Hg Hq].
  split; [done|]. intros out ->. exact (Hq _ eq_refl out eq_refl).
Qed.

(** C20. The push token is confined.  Every process of a run reaches the guest by
    ssh, in its namespace when it has one; the host's [GH_TOKEN] is forwarded by
    no process but the push of a cursor run with a requested branch, and by that
    only after the workload ended with exit code 0. *)
Theorem token_only_pushes config show_path show_debug show_status show_utf8_error show_result show_meta target key_path runner tr o h e h' c :
  run (exec_observed config show_path show_debug show_status show_utf8_error show_result show_meta target key_path runner) tr o →
  netns target ≠ Some "-o" →
  tr = h ++ e :: h' → ev_op e = RRun c ∨ ev_op e = RSpawn c →
  confined target c ∧
  (forwards_gh_token (hc_args c) →
   ∃ request branch base run, pushes runner request branch ∧ worked show_path show_debug target key_path runner run h ∧
     wr_exit_code run = 0%Z ∧ asks show_path target key_path (push_command (cr_repo_url request) branch base) true c).
Proof.
  intros Hrun Hns -> Hop.
  destruct (spec_run _ _ _ _ _ (spec_exec config show_path show_debug show_status show_utf8_error show_result show_meta
              target key_path runner) Hrun) as [Hg _].
  specialize (Hg h e h' eq_refl). destruct Hop as [Hop|Hop]; rewrite Hop in Hg; destruct Hg.
  all: split; [by eapply asks_confined|intros Hf].
  all: try (exfalso; eapply asks_no_token; [exact Hns|..]; eassumption).
  eauto 10.
Qed.

(** ** Examples *)

Definition sample_target : GuestTarget := {| guest_ip := "172.16.0.2"; netns := Some "rooms-c1" |}.

Definition sample_cursor : CursorRequest :=
  {| cr_repo_url := "https://github.com/o/r"; cr_task_md := "task";
     cr_meta := {| cm_base_sha := "main"; cm_model_id := "model" |}; cr_push_branch := Some "work" |}.

Definition sample_id : string := "0123456789abcdef0123456789abcdef01234567".

Definition plain_output (text : string) : result io_error Output :=
  Ok {| out_code := Some 0%Z; out_stdout := text; out_stderr := EmptyString |}.

(** A guest in which every command succeeds. *)
Definition willing_guest (h : list revent) (op : rop) : rans op :=
  match op return rans op with
  | RNow => 0%N
  | RUtcNow => "2026-01-01T00:00:00Z"
  | RUlid => "01hzzzzzzzzzzzzzzzzzzzzzzx"
  | REnv _ => None
  | RSleep _ | RObserve _ | RComplete _ | RFeed _ _ => ()
  | RRun c =>
      match last (hc_args c) with
      | Some remote =>
          if starts_with remote "rm -rf" then plain_output (sample_id +:+ String nl EmptyString)
          else if starts_with remote "if ! mkdir" then plain_output ("EXIT=0" +:+ String nl EmptyString)
          else plain_output EmptyString
      | None => plain_output EmptyString
      end
  | RRunWithin _ _ => Some (plain_output EmptyString)
  | RSpawn _ => Ok 5%N
  | RWrite _ _ | RShutdown _ => Ok ()
  | RWait _ => plain_output EmptyString
  | RRemoveDirAll _ | RCreateDir _ | RWriteFile _ _ | RRename _ _ => Ok ()
  | RReadFile _ => Ok "bundle"
  | RTempDir => ["tmp"]
  | RExists _ => true
  | RCanonicalize _ => Ok ["repo"]
  end.

Definition show_sample_path (p : path) : string := "/" +:+ String.concat "/" p.

Definition sample_exec : run_prog (result string GuestExecOutcome) :=
  exec_observed RoomsConfig_default show_sample_path id (λ _, EmptyString) id (λ r, pretty (exit_code r)) cm_model_id
    sample_target ["keys"; "id"] (Cursor sample_cursor).

Lemma exec_ordered_witness :
  ∃ out, fst (exec willing_guest sample_exec []) = Some (Ok out) ∧
    guarded (exec_allows show_sample_path id sample_target ["keys"; "id"] (Cursor sample_cursor)) (snd (exec willing_guest sample_exec [])) ∧
    accounted show_sample_path id (λ r, pretty (exit_code r)) sample_target ["keys"; "id"] (Cursor sample_cursor) out
      (snd (exec willing_guest sample_exec [])).
Proof.
  destruct (fst (exec willing_guest sample_exec [])) as [[out|e]|] eqn:E; [|vm_compute in E; discriminate E..].
  exists out. split; [reflexivity|].
  pose proof (exec_run_nil willing_guest sample_exec) as Hrun. rewrite E in Hrun.
  destruct (exec_ordered RoomsConfig_default show_sample_path id (λ _, EmptyString) id (λ r, pretty (exit_code r)) cm_model_id
              sample_target ["keys"; "id"] (Cursor sample_cursor) _ _ Hrun) as [Hg Ha]. exact (conj Hg (Ha out eq_refl)).
Defined.

Definition sample_push : HostCommand :=
  guest_process sample_target "ssh"
    (ssh_args sample_target "/keys/id" (push_command "https://github.com/o/r" "work" sample_id) true 120000000000).

Lemma token_only_pushes_witness :
  let tr := snd (exec willing_guest sample_exec []) in
  tr !! 15 = Some (Event (Ans := rans) (RRun sample_push) (plain_output EmptyString)) ∧
  forwards_gh_token (hc_args sample_push) ∧ confined sample_target sample_push ∧
  ∃ request branch base run, pushes (Cursor sample_cursor) request branch ∧
    worked show_sample_path id sample_target ["keys"; "id"] (Cursor sample_cursor) run (take 15 tr) ∧
    wr_exit_code run = 0%Z ∧
    asks show_sample_path sample_target ["keys"; "id"] (push_command (cr_repo_url request) branch base) true sample_push.
Proof.
  intros tr.
  assert (E : tr !! 15 = Some (Event (Ans := rans) (RRun sample_push) (plain_output EmptyString))) by (vm_compute; reflexivity).
  assert (F : forwards_gh_token (hc_args sample_push)) by (exists 24; split; reflexivity).
  assert (Hns : netns sample_target ≠ Some "-o") by (intros H; discriminate H).
  destruct (token_only_pushes RoomsConfig_default show_sample_path id (λ _, EmptyString) id (λ r, pretty (exit_code r)) cm_model_id
              sample_target ["keys"; "id"] (Cursor sample_cursor) tr _ (take 15 tr) _ (drop 16 tr) sample_push
              (exec_run_nil willing_guest sample_exec) Hns (eq_sym (take_drop_middle tr 15 _ E)) (or_introl eq_refl)) as [Hc Hf].
  exact (conj E (conj F (conj Hc (Hf F)))).
Defined.
