(* ===== verification/ShellQuote.v ===== *)
(** * ShellQuote: what a guest's shell makes of the commands

    The commands of [Runner.v] are texts for a POSIX shell.  Here is how such a
    shell divides a text into words and operators, with every byte of a word
    marked as quoted or not, and that what is put into a command stays one quoted
    piece of it, whatever bytes it has.  Expansions are not carried out: they act
    on unquoted bytes only. *)

From S2P Require Import Prelude RStr Config Runner.
From stdpp Require Import options.

(** ** The shell's words *)

(** The bytes of a word, each with whether quoting took its meaning away. *)
Abbreviation word := (list (bool * byte)) (only parsing).

Inductive token := Word (w : word) | Operator (c : byte).

Inductive mode := Plain | Escape | Single | Double | DoubleEscape | Comment.

(** The tokens so far, and the word in progress if one has begun. *)
Record scanner := { sc_tokens : list token; sc_mode : mode; sc_word : option word }.

Definition double_quote : byte := "034".
Definition one_of (l : list byte) (c : byte) : bool := existsb (λ o, (c =? o)%char) l.
Definition is_operator : byte → bool := one_of [";"; "&"; "|"; "<"; ">"; "("; ")"; nl]%char.
Definition is_blank : byte → bool := one_of [space; "009"%char].

Definition finish (st : scanner) : list token :=
  match sc_word st with Some w => sc_tokens st ++ [Word w] | None => sc_tokens st end.

Definition goto (m : mode) (st : scanner) : scanner := {| sc_tokens := sc_tokens st; sc_mode := m; sc_word := sc_word st |}.
Definition begin (st : scanner) : scanner :=
  {| sc_tokens := sc_tokens st; sc_mode := sc_mode st; sc_word := Some (default [] (sc_word st)) |}.
Definition push (quoted : bool) (c : byte) (st : scanner) : scanner :=
  {| sc_tokens := sc_tokens st; sc_mode := sc_mode st; sc_word := Some (default [] (sc_word st) ++ [(quoted, c)]) |}.
Definition cut (st : scanner) : scanner := {| sc_tokens := finish st; sc_mode := Plain; sc_word := None |}.
Definition operator (c : byte) (st : scanner) : scanner :=
  {| sc_tokens := finish st ++ [Operator c]; sc_mode := Plain; sc_word := None |}.

Definition sh_step (st : scanner) (c : byte) : scanner :=
  match sc_mode st with
  | Comment => if (c =? nl)%char then operator c st else st
  | Single => if (c =? "'")%char then goto Plain st else push true c st
  | Double =>
      if (c =? double_quote)%char then goto Plain st
      else if (c =? "\")%char then goto DoubleEscape st
      else push (negb (one_of ["$"; "`"]%char c)) c st
  | DoubleEscape =>
      if one_of ["$"; "`"; double_quote; "\"]%char c then goto Double (push true c st)
      else if (c =? nl)%char then goto Double st
      else goto Double (push true c (push true "\" st))
  | Escape => if (c =? nl)%char then goto Plain st else goto Plain (push true c st)
  | Plain =>
      if (c =? "'")%char then goto Single (begin st)
      else if (c =? double_quote)%char then goto Double (begin st)
      else if (c =? "\")%char then goto Escape st
      else if is_blank c then cut st
      else if is_operator c then operator c st
      else if (c =? "#")%char && bool_decide (sc_word st = None) then goto Comment st
      else push false c st
  end.

Definition sh_scan (st : scanner) (s : string) : scanner := foldl sh_step st (String.list_ascii_of_string s).

Definition start : scanner := {| sc_tokens := []; sc_mode := Plain; sc_word := None |}.

(** [None] where a quotation is not closed. *)
Definition sh_tokens (s : string) : option (list token) :=
  let st := sh_scan start s in
  match sc_mode st with Plain | Comment => Some (finish st) | _ => None end.

(** Bytes that mean themselves, and bytes as they are written. *)
Definition literal (s : string) : word := (λ c, (true, c)) <$> String.list_ascii_of_string s.
Definition bare (s : string) : word := (λ c, (false, c)) <$> String.list_ascii_of_string s.

(** ** Scanning *)

Lemma scan_app st s t : sh_scan st (s +:+ t) = sh_scan (sh_scan st s) t.
Proof. unfold sh_scan. by rewrite list_ascii_app, foldl_app. Qed.

Definition plain_at (tokens : list token) (w : option word) : scanner :=
  {| sc_tokens := tokens; sc_mode := Plain; sc_word := w |}.

(** A quoted text adds exactly its bytes to the word it stands in. *)
Lemma scan_quoted tokens w s : sh_scan (plain_at tokens w) (shell_single_quote s) = plain_at tokens (Some (default [] w ++ literal s)).
Proof.
  unfold shell_single_quote. rewrite scan_app.
  change (sh_scan (plain_at tokens w) "'") with {| sc_tokens := tokens; sc_mode := Single; sc_word := Some (default [] w) |}.
  generalize (default [] w). clear w. induction s as [|c s IH]; intros w; cbn [single_quote_body].
  - unfold literal. simpl. by rewrite (right_id_L [] (++)).
  - assert (El : w ++ literal (String c s) = (w ++ [(true, c)]) ++ literal s) by (by rewrite <- (assoc_L (++))).
    rewrite El. destruct (Ascii.eqb_spec c "'") as [->|Hc].
    + rewrite app_assoc, scan_app. apply IH.
    + rewrite app_cons. unfold sh_scan at 1. cbn [String.list_ascii_of_string foldl]. unfold sh_step at 2. cbn [sc_mode].
      rewrite (proj2 (Ascii.eqb_neq c "'") Hc). apply IH.
Qed.

(** What was scanned does not matter to what follows. *)
Definition after (tokens : list token) (st : scanner) : scanner :=
  {| sc_tokens := tokens ++ sc_tokens st; sc_mode := sc_mode st; sc_word := sc_word st |}.

Lemma step_after tokens st c : sh_step (after tokens st) c = after tokens (sh_step st c).
Proof.
  assert (Hf : finish (after tokens st) = tokens ++ finish st).
  { unfold finish, after. simpl. destruct (sc_word st); [by rewrite (assoc_L (++))|done]. }
  unfold sh_step. change (sc_mode (after tokens st)) with (sc_mode st). change (sc_word (after tokens st)) with (sc_word st).
  destruct (sc_mode st); repeat case_match; try done.
  all: unfold cut, operator; rewrite Hf; unfold after; simpl; by rewrite ?(assoc_L (++)).
Qed.

Lemma scan_after tokens st s : sh_scan (after tokens st) s = after tokens (sh_scan st s).
Proof.
  unfold sh_scan. generalize (String.list_ascii_of_string s) as l. intros l. revert st.
  induction l as [|c l IH]; intros st; [done|]. simpl. by rewrite step_after, IH.
Qed.

(** A word ends where a blank or an operator follows. *)
Lemma scan_next tokens w s tokens' w' :
  sh_scan start s = plain_at tokens' w' →
  (∃ c r, s = String c r ∧ (is_blank c || is_operator c) = true) →
  sh_scan (plain_at tokens (Some w)) s = plain_at (tokens ++ Word w :: tokens') w'.
Proof.
  intros Hs (c & r & -> & Hc).
  assert (E : sh_step (plain_at tokens (Some w)) c = after (tokens ++ [Word w]) (sh_step start c)).
  { unfold sh_step. cbn [sc_mode plain_at start].
    assert (Hn : (c =? "'")%char = false ∧ (c =? double_quote)%char = false ∧ (c =? "\")%char = false).
    { unfold is_blank, is_operator, one_of, existsb in Hc. rewrite !orb_true_iff, !Ascii.eqb_eq in Hc.
      destruct Hc as [[|[|]]|[|[|[|[|[|[|[|[|]]]]]]]]]; subst; done. }
    destruct Hn as (-> & -> & ->). destruct (is_blank c); [|cbn [orb] in Hc; rewrite Hc].
    - unfold cut, after, finish. simpl. by rewrite (right_id_L [] (++)).
    - unfold operator, after, finish. simpl. done. }
  unfold sh_scan in *. cbn [String.list_ascii_of_string foldl] in *. rewrite E. fold (sh_scan (after (tokens ++ [Word w]) (sh_step start c)) r).
  rewrite scan_after. unfold sh_scan. rewrite Hs. unfold after, plain_at. simpl. by rewrite <- (assoc_L (++)).
Qed.

(** A piece of fixed text, between what is put in. *)
Definition piece_tokens (p : string) : list token := sc_tokens (sh_scan start p).
Definition piece_word (p : string) : option word := sc_word (sh_scan start p).
Definition ends_plain (p : string) : bool := match sc_mode (sh_scan start p) with Plain => true | _ => false end.
Definition begins_apart (p : string) : bool :=
  match p with String c _ => is_blank c || is_operator c | EmptyString => false end.

Lemma scan_piece_start p rest :
  ends_plain p = true → sh_scan start (p +:+ rest) = sh_scan (plain_at (piece_tokens p) (piece_word p)) rest.
Proof.
  intros Hp. rewrite scan_app. f_equal. unfold piece_tokens, piece_word, ends_plain in *.
  destruct (sh_scan start p) as [t m w]. simpl in *. by destruct m.
Qed.

Lemma scan_piece tokens w p rest :
  ends_plain p = true → begins_apart p = true →
  sh_scan (plain_at tokens (Some w)) (p +:+ rest) = sh_scan (plain_at (tokens ++ Word w :: piece_tokens p) (piece_word p)) rest.
Proof.
  intros Hp Hb. rewrite scan_app. f_equal. apply scan_next.
  - unfold piece_tokens, piece_word, ends_plain in *. destruct (sh_scan start p) as [t m w']. simpl in *. by destruct m.
  - destruct p as [|c r]; [done|]. by exists c, r.
Qed.

Lemma scan_hole tokens w x rest :
  sh_scan (plain_at tokens w) (shell_single_quote x +:+ rest) = sh_scan (plain_at tokens (Some (default [] w ++ literal x))) rest.
Proof. by rewrite scan_app, scan_quoted. Qed.

(** Lists as one right-nested append. *)
Ltac list_normal := repeat (rewrite <- (assoc_L (++)) || rewrite <- app_comm_cons).

#[local] Opaque piece_tokens.

(** The commands as pieces and holes. *)
Definition wrapped_head : string :=
  "if ! mkdir -p /workspace/out/logs; then echo " +:+ WORKSPACE_UNWRITABLE_MARKER +:+ " >&2; exit 1; fi; bash -c ".
Definition wrapped_tail : string := " > /workspace/out/logs/stdout.log 2> /workspace/out/logs/stderr.log; echo EXIT=$?".

Lemma wrapped_tokens inner :
  sh_tokens (wrapped_command inner) = Some (piece_tokens wrapped_head ++ Word (literal inner) :: piece_tokens wrapped_tail ++ [Word (bare "EXIT=$?")]).
Proof.
  assert (E : wrapped_command inner = wrapped_head +:+ shell_single_quote inner +:+ wrapped_tail +:+ EmptyString).
  { unfold wrapped_command, wrapped_head. rewrite !app_assoc, app_nil_r. reflexivity. }
  unfold sh_tokens. rewrite E, scan_piece_start by reflexivity. rewrite scan_hole, scan_piece by reflexivity.
  change (sh_scan ?s EmptyString) with s. cbn [sc_mode plain_at]. unfold finish. cbn [sc_word sc_tokens plain_at].
  change (piece_word wrapped_tail) with (Some (bare "EXIT=$?")). cbv iota. by rewrite <- (assoc_L (++)).
Qed.

Lemma repository_tokens command :
  sh_tokens (repository_inner command) = Some (piece_tokens "cd /workspace/repo && bash -c " ++ [Word (literal command)]).
Proof.
  assert (E : repository_inner command = "cd /workspace/repo && bash -c " +:+ shell_single_quote command +:+ EmptyString)
    by (by rewrite app_nil_r).
  unfold sh_tokens. rewrite E, scan_piece_start, scan_hole by reflexivity. done.
Qed.

Definition clone_1 : string := "rm -rf /workspace/repo && git clone -- ".
Definition clone_2 : string :=
  " /workspace/repo && base=$(git -C " +:+ shell_single_quote "/workspace/repo" +:+ " rev-parse --verify --end-of-options ".
Definition clone_3 : string :=
  " 2>/dev/null || git -C " +:+ shell_single_quote "/workspace/repo" +:+ " rev-parse --verify --end-of-options ".
Definition clone_4 : string :=
  ") && git -C /workspace/repo checkout --detach " +:+ quoted "$base" +:+ " && git -C /workspace/repo rev-parse HEAD".

Lemma clone_tokens url revision :
  sh_tokens (clone_command url revision) =
  Some (piece_tokens clone_1 ++ Word (literal url) :: piece_tokens clone_2 ++
        Word (literal (revision +:+ "^{commit}")) :: piece_tokens clone_3 ++
        Word (literal ("refs/remotes/origin/" +:+ revision +:+ "^{commit}")) :: piece_tokens clone_4 ++ [Word (bare "HEAD")]).
Proof.
  assert (E : clone_command url revision =
    clone_1 +:+ shell_single_quote url +:+ clone_2 +:+ shell_single_quote (revision +:+ "^{commit}") +:+ clone_3 +:+
    shell_single_quote ("refs/remotes/origin/" +:+ revision +:+ "^{commit}") +:+ clone_4 +:+ EmptyString).
  { unfold clone_command, resolve_base_command, clone_1, clone_2, clone_3, clone_4, quoted.
    rewrite !app_assoc, app_nil_r. reflexivity. }
  unfold sh_tokens. rewrite E, scan_piece_start by reflexivity. rewrite scan_hole, scan_piece by reflexivity.
  rewrite scan_hole, scan_piece by reflexivity. rewrite scan_hole, scan_piece by reflexivity.
  change (sh_scan ?s EmptyString) with s. cbn [sc_mode plain_at]. unfold finish. cbn [sc_word sc_tokens plain_at].
  change (piece_word clone_4) with (Some (bare "HEAD")). cbv iota. list_normal. reflexivity.
Qed.

Definition patch_head : string := "mkdir -p /workspace/out && cd /workspace/repo && git add -A && git diff --binary --cached ".
Definition patch_tail : string := " > /workspace/out/result.patch".

Lemma patch_tokens base :
  sh_tokens (patch_command base) =
  Some (piece_tokens patch_head ++ Word (literal base) :: piece_tokens patch_tail ++ [Word (bare "/workspace/out/result.patch")]).
Proof.
  assert (E : patch_command base = patch_head +:+ shell_single_quote base +:+ patch_tail +:+ EmptyString).
  { unfold patch_command, patch_head, patch_tail. rewrite app_nil_r. reflexivity. }
  unfold sh_tokens. rewrite E, scan_piece_start by reflexivity. rewrite scan_hole, scan_piece by reflexivity.
  change (sh_scan ?s EmptyString) with s. cbn [sc_mode plain_at]. unfold finish. cbn [sc_word sc_tokens plain_at].
  change (piece_word patch_tail) with (Some (bare "/workspace/out/result.patch")). cbv iota. by rewrite <- (assoc_L (++)).
Qed.

Definition push_1 : string := "set -e; cd /workspace/repo; git checkout -B ".
Definition push_2 : string :=
  "; git add -A; if ! git diff --cached --quiet; then git -c user.email=cursor@rooms.local " +:+
  "-c user.name='rooms cursor agent' commit -q -m 'rooms cursor agent run' " +:+
  "-m 'Co-authored-by: Cursor <cursoragent@cursor.com>'; fi; if [ " +:+ quoted "$(git rev-parse HEAD)" +:+ " = ".
Definition push_3 : string :=
  " ]; then exit 3; fi; git -c credential.helper='!f(){ echo username=x-access-token; echo " +:+
  quoted "password=$GH_TOKEN" +:+ "; }; f' push ".
Definition push_4 : string := " HEAD:".

Lemma push_tokens url branch base :
  sh_tokens (push_command url branch base) =
  Some (piece_tokens push_1 ++ Word (literal branch) :: piece_tokens push_2 ++ Word (literal base) :: piece_tokens push_3 ++
        [Word (literal url); Word (bare "HEAD:" ++ literal branch)]).
Proof.
  assert (E : push_command url branch base =
    push_1 +:+ shell_single_quote branch +:+ push_2 +:+ shell_single_quote base +:+ push_3 +:+ shell_single_quote url +:+
    push_4 +:+ shell_single_quote branch +:+ EmptyString).
  { unfold push_command, push_1, push_2, push_3, push_4, quoted. rewrite !app_assoc, app_nil_r. reflexivity. }
  unfold sh_tokens. rewrite E, scan_piece_start by reflexivity. rewrite scan_hole, scan_piece by reflexivity.
  rewrite scan_hole, scan_piece by reflexivity. rewrite scan_hole, scan_piece by reflexivity. rewrite scan_hole.
  change (sh_scan ?s EmptyString) with s. cbn [sc_mode plain_at]. unfold finish. cbn [sc_word sc_tokens plain_at].
  change (piece_word push_4) with (Some (bare "HEAD:")). cbv iota.
  list_normal. reflexivity.
Qed.

(** C36. Nothing that is put into a guest command can leave its quotes.  Whatever
    bytes a command, a repository's address, a revision, a branch or an object id
    has, a POSIX shell reads each of the guest commands as the same fixed words
    and operators, with that text as one quoted word (after [HEAD:] in the push's
    last) and nothing of it unquoted. *)
Theorem commands_quoted :
  (∃ a b, ∀ inner, sh_tokens (wrapped_command inner) = Some (a ++ Word (literal inner) :: b)) ∧
  (∃ a, ∀ command, sh_tokens (repository_inner command) = Some (a ++ [Word (literal command)])) ∧
  (∃ a b c d, ∀ url revision, sh_tokens (clone_command url revision) =
     Some (a ++ Word (literal url) :: b ++ Word (literal (revision +:+ "^{commit}")) :: c ++
           Word (literal ("refs/remotes/origin/" +:+ revision +:+ "^{commit}")) :: d)) ∧
  (∃ a b, ∀ base, sh_tokens (patch_command base) = Some (a ++ Word (literal base) :: b)) ∧
  (∃ a b c, ∀ url branch base, sh_tokens (push_command url branch base) =
     Some (a ++ Word (literal branch) :: b ++ Word (literal base) :: c ++
           [Word (literal url); Word (bare "HEAD:" ++ literal branch)])).
Proof.
  split; [|split; [|split; [|split]]].
  - eexists _, _. intros inner. apply wrapped_tokens.
  - eexists _. intros command. apply repository_tokens.
  - eexists _, _, _, _. intros url revision. apply clone_tokens.
  - eexists _, _. intros base. apply patch_tokens.
  - eexists _, _, _. intros url branch base. apply push_tokens.
Qed.

(** Injection attempts. *)
Example quoted_injection :
  sh_tokens ("bash -c " +:+ shell_single_quote "x'; rm -rf / #") =
  Some [Word (bare "bash"); Word (bare "-c"); Word (literal "x'; rm -rf / #")].
Proof. vm_compute. reflexivity. Qed.

Example unquoted_injection :
  sh_tokens "echo a; rm" = Some [Word (bare "echo"); Word (bare "a"); Operator ";"; Word (bare "rm")].
Proof. vm_compute. reflexivity. Qed.
