(* ===== verification/RunnerWait.v ===== *)
(** * RunnerWait: waiting for a guest

    The readiness signals of [wait_for_ssh_observed], its deadline, and that it
    comes to an end. *)

From S2P Require Import Prelude RStr Fs Config Prog Sys Runner.
From stdpp Require Import options.

Section wait.
  Variables (config : RoomsConfig) (show_path : path → string) (show_duration : N → string).
  Variables (target : GuestTarget) (key : string) (probe_ping : bool).

Abbreviation timeout := (ns (guest_reach_timeout config)).
Abbreviation poll := (ns (guest_reach_poll_interval config)).

Definition signal_of (e : revent) : option GuestSignal :=
  match ev_op e with RObserve s => Some s | _ => None end.

(** The signals observed so far. *)
Definition signals (h : list revent) : list GuestSignal := omap signal_of h.

(** The wait began with the clock. *)
Definition deadline_of (h : list revent) : N :=
  match h with Event op x :: _ => match op return rans op → N with RNow => λ t, (t + timeout)%N | _ => λ _, 0%N end x | [] => 0%N end.

(** The last call read the clock, and [time] is within what is left. *)
Definition in_time (time : N) (h : list revent) : Prop :=
  ∃ h0 now, h = h0 ++ [Event (Ans := rans) RNow now] ∧ (time ≤ deadline_of h - now)%N.

(** A probe accepted just now. *)
Definition accepted (h : list revent) (c : N → HostCommand) : Prop :=
  ∃ h0 time o, h = h0 ++ [Event (Ans := rans) (RRunWithin (c time) time) (Some (Ok o))] ∧ out_success o = true.

Definition wait_allows (h : list revent) (op : rop) : Prop :=
  match op with
  | RNow => True
  | RRunWithin c time =>
      in_time time h ∧
      ((c = ssh_probe_command target key time ∧ (time ≤ SSH_PROBE_ATTEMPT_TIMEOUT)%N) ∨
       (c = ping_command target ∧ probe_ping = true ∧ signals h = []))
  | RSleep time => in_time time h ∧ (time ≤ poll)%N
  | RObserve GuestReady =>
      signals h = [] ∧ (accepted h (ssh_probe_command target key) ∨ accepted h (λ _, ping_command target))
  | RObserve SshReady =>
      signals h = [GuestReady] ∧
      ∃ h0, (h = h0 ∨ h = h0 ++ [Event (Ans := rans) (RObserve GuestReady) ()]) ∧ accepted h0 (ssh_probe_command target key)
  | _ => False
  end.

Lemma signals_snoc h e : signals (h ++ [e]) = signals h ++ option_list (signal_of e).
Proof. unfold signals. rewrite omap_app. simpl. by destruct (signal_of e). Qed.

Lemma signals_quiet h op x : (match op with RObserve _ => False | _ => True end) → signals (h ++ [Event op x]) = signals h.
Proof. intros Hop. rewrite signals_snoc. unfold signal_of. destruct op; done || (simpl; by rewrite (right_id_L [] (++))). Qed.

Lemma deadline_app h k : h ≠ [] → deadline_of (h ++ k) = deadline_of h.
Proof. by destruct h. Qed.

(** The state of the loop: the deadline, and what was observed. *)
Definition waiting (deadline : N) (guest_seen : bool) (h : list revent) : Prop :=
  h ≠ [] ∧ deadline_of h = deadline ∧ signals h = if guest_seen then [GuestReady] else [].

Lemma waiting_quiet deadline seen h op x :
  (match op with RObserve _ => False | _ => True end) → waiting deadline seen h → waiting deadline seen (h ++ [Event op x]).
Proof.
  intros Hop (Hne & Hd & Hs). split; [by destruct h|]. split; [by rewrite deadline_app|]. by rewrite signals_quiet.
Qed.

Lemma waiting_in_time deadline seen h now time :
  waiting deadline seen h → (time ≤ deadline - now)%N → in_time time (h ++ [Event (Ans := rans) RNow now]).
Proof. intros (Hne & Hd & _) Ht. exists h, now. split; [done|]. by rewrite deadline_app, Hd. Qed.

(** What is left is asked for just before it is used. *)
Lemma spec_remaining_time {A : Type} deadline seen h (k : N → run_prog A) Q :
  waiting deadline seen h →
  (∀ now, waiting deadline seen (h ++ [Event (Ans := rans) RNow now]) →
     (∀ time, (time ≤ deadline - now)%N → in_time time (h ++ [Event (Ans := rans) RNow now])) →
     spec wait_allows (k (deadline - now)%N) (h ++ [Event (Ans := rans) RNow now]) Q) →
  spec wait_allows (pbind (remaining_until deadline) k) h Q.
Proof using All.
  intros Hw Hk. unfold remaining_until. apply spec_bind. ask as now; [done|]. apply spec_ret.
  apply Hk; [by apply waiting_quiet|]. intros time. by eapply waiting_in_time.
Qed.

(** What a wait that ended has observed. *)
Definition observed {E : Type} (r : result E unit) (h : list revent) : Prop :=
  match r with
  | Ok _ => signals h = [GuestReady; SshReady]
  | Err _ => signals h = [] ∨ signals h = [GuestReady]
  end.

Lemma waiting_failed {E : Type} deadline seen h (e : E) : waiting deadline seen h → observed (Err e) h.
Proof. intros (_ & _ & Hs). simpl. rewrite Hs. destruct seen; auto. Qed.

Lemma spec_signal_ready deadline seen h :
  waiting deadline seen h → accepted h (ssh_probe_command target key) →
  spec wait_allows (signal_ready seen) h (λ _ h', signals h' = [GuestReady; SshReady]).
Proof using All.
  intros (Hne & Hd & Hs) Ha. unfold signal_ready. destruct seen; apply spec_bind.
  - apply spec_ret. spec_call as u; [split; [done|]; exists h; auto|]. by rewrite signals_snoc, Hs.
  - spec_call as u; [split; [done|by left]|]. destruct u. spec_call as v.
    + split; [by rewrite signals_snoc, Hs|]. exists h. auto.
    + by rewrite !signals_snoc, Hs.
Qed.

(** After a failed attempt: the ping, when it is asked for, the pause, and on. *)
Lemma spec_retry (next : bool → run_prog (result FirecrackerError unit)) deadline seen last_err h :
  waiting deadline seen h →
  (∀ seen h', waiting deadline seen h' → spec wait_allows (next seen) h' observed) →
  spec wait_allows
    (try* guest_seen :=
       if probe_ping && negb seen then
         let* remaining := remaining_until deadline in
         let* answer := probe_ping_once target remaining in
         match answer with
         | Some true => do* call (RObserve GuestReady) in Ret (Ok true)
         | Some false => Ret (Ok seen)
         | None => Ret (Err (unreachable show_duration target timeout last_err))
         end
       else Ret (Ok seen) in
     let* remaining := remaining_until deadline in
     do* call (RSleep (N.min poll remaining)) in
     next guest_seen) h observed.
Proof using All.
  intros Hw Hnext.
  assert (Hpause : ∀ seen h', waiting deadline seen h' →
    spec wait_allows (let* remaining := remaining_until deadline in do* call (RSleep (N.min poll remaining)) in next seen) h' observed).
  { intros seen' h' Hw'. eapply spec_remaining_time; [exact Hw'|]. intros now Hn Ht. ask as u; [split; [apply Ht|]; lia|].
    apply Hnext. by apply waiting_quiet. }
  apply spec_try. destruct (probe_ping && negb seen) eqn:Hping; [|by apply Hpause].
  apply andb_true_iff in Hping as [Hping Hseen]. destruct seen; [done|].
  eapply spec_remaining_time; [exact Hw|]. intros now Hn Ht. unfold probe_ping_once. apply spec_bind. ask as answer.
  { split; [by apply Ht|]. right. split; [done|]. split; [done|]. apply Hn. }
  apply spec_ret. pose proof Hn as Hn2.
  apply waiting_quiet with (op := RRunWithin (ping_command target) (deadline - now)) (x := answer) in Hn2; [|done].
  destruct answer as [[o|e]|]; [|by apply Hpause|by eapply waiting_failed].
  destruct (out_success o) eqn:Ho; [|by apply Hpause].
  ask as u.
  { split; [apply Hn2|]. right. by eexists _, _, o. }
  destruct u. apply Hpause. destruct Hn2 as (Hne & Hd & Hs). split; [by destruct h|]. split; [by rewrite deadline_app|].
  by rewrite signals_snoc, Hs.
Qed.

Lemma spec_wait_loop fuel deadline seen last_err h :
  waiting deadline seen h →
  spec wait_allows (wait_loop config show_duration fuel target key probe_ping deadline seen last_err) h observed.
Proof using All.
  revert seen last_err h. induction fuel as [|fuel IH]; intros seen last_err h Hw; cbn [wait_loop]; [done|].
  ask as now; [done|]. apply waiting_quiet with (op := RNow) (x := now) in Hw; [|done].
  destruct (deadline <=? now)%N; [by eapply waiting_failed|].
  eapply spec_remaining_time; [exact Hw|]. intros now1 Hw1 Ht1. clear Hw.
  set (attempt := N.min (deadline - now1) SSH_PROBE_ATTEMPT_TIMEOUT).
  unfold probe_ssh_once. apply spec_bind. ask as probed.
  { split; [apply Ht1; lia|]. left. split; [done|lia]. }
  pose proof Hw1 as Hw2.
  apply waiting_quiet with (op := RRunWithin (ssh_probe_command target key attempt) attempt) (x := probed) in Hw2; [|done].
  apply spec_ret. apply spec_try, spec_ret. destruct probed as [[o|e]|]; [|by eapply waiting_failed|].
  - cbv iota. destruct (out_success o) eqn:Ho.
    + apply spec_bind. eapply spec_mono; [eapply spec_signal_ready; [exact Hw2|]|by intros [] h' H].
      by exists (h ++ [Event (Ans := rans) RNow now] ++ [Event (Ans := rans) RNow now1]), attempt, o; rewrite (assoc_L (++)).
    + cbv iota. by apply spec_retry; [|intros; apply IH].
  - cbv iota. by apply spec_retry; [|intros; apply IH].
Qed.

End wait.

Lemma spec_wait config show_path show_duration fuel target key_path key probe_ping :
  path_to_str show_path key_path = Some key →
  spec (wait_allows config target key probe_ping)
    (wait_for_ssh_observed config show_path show_duration fuel target key_path probe_ping) [] observed.
Proof.
  intros Hkey. unfold wait_for_ssh_observed. rewrite Hkey. split; [done|]. intros now. by apply (spec_wait_loop config show_path).
Qed.

(** ** The wait ends *)

Section termination.
  Variables (config : RoomsConfig) (show_duration : N → string) (target : GuestTarget) (key : string) (probe_ping : bool).
  Variable host : list revent → ∀ op, rans op.

(** The host's clock does not go back, and a sleep takes its time. *)
Record timely : Prop := {
  ti_monotone h e : (host h RNow ≤ host (h ++ [e]) RNow)%N;
  ti_sleep h time : (host h RNow + time ≤ host (h ++ [Event (Ans := rans) (RSleep time) ()]) RNow)%N
}.

Hypothesis Htimely : timely.
Abbreviation poll := (ns (guest_reach_poll_interval config)).

Variable deadline : N.

(** [p] returns on this host. *)
Definition returns {A : Type} (p : run_prog A) (h : list revent) : Prop := ∃ a h', exec host p h = (Some a, h').

Lemma returns_ret {A : Type} (a : A) h : returns (Ret a) h.
Proof using All. by exists a, h. Qed.

Lemma returns_call {A : Type} op (k : rans op → run_prog A) h :
  returns (k (host h op)) (h ++ [Event op (host h op)]) → returns (pbind (call op) k) h.
Proof using All. done. Qed.

Lemma returns_call_bind {A B : Type} op (j : rans op → run_prog A) (k : A → run_prog B) h :
  returns (pbind (j (host h op)) k) (h ++ [Event op (host h op)]) → returns (pbind (pbind (call op) j) k) h.
Proof using All. done. Qed.

Lemma returns_ret_bind {A B : Type} (a : A) (k : A → run_prog B) h : returns (k a) h → returns (pbind (Ret a) k) h.
Proof using All. done. Qed.

Lemma wait_bind_returns {A B : Type} (p : run_prog A) (k : A → run_prog B) h a h' :
  exec host p h = (Some a, h') → returns (k a) h' → returns (pbind p k) h.
Proof using All. intros E (b & h2 & E2). exists b, h2. by rewrite exec_bind, E. Qed.

Lemma clock_snoc h e t : (t ≤ host h RNow)%N → (t ≤ host (h ++ [e]) RNow)%N.
Proof using All. intros Ht. pose proof (ti_monotone Htimely h e). lia. Qed.

(** The ping of a cycle, and what it leaves. *)
Lemma ping_result seen last_err h t :
  (t ≤ host h RNow)%N →
  ∃ r h', exec host (let* remaining := remaining_until deadline in
            let* answer := probe_ping_once target remaining in
            match answer with
            | Some true => do* call (RObserve GuestReady) in Ret (Ok true)
            | Some false => Ret (Ok seen)
            | None => Ret (Err (unreachable show_duration target (ns (guest_reach_timeout config)) last_err))
            end) h = (Some r, h') ∧ (t ≤ host h' RNow)%N.
Proof using All.
  intros Ht. unfold remaining_until, probe_ping_once. rewrite !exec_bind. cbn [exec call].
  apply clock_snoc with (e := Event (Ans := rans) RNow (host h RNow)) in Ht. set (h1 := h ++ _) in *.
  rewrite !exec_bind. cbn [exec call]. set (op := RRunWithin _ _).
  apply clock_snoc with (e := Event (Ans := rans) op (host h1 op)) in Ht. set (h2 := h1 ++ [_]) in *.
  destruct (host h1 op) as [[o|e]|]; [destruct (out_success o)| |]; simpl; eexists _, _; (split; [reflexivity|]); try done.
  by apply clock_snoc.
Qed.

Lemma returns_err {E A B : Type} (e : E) (k : A → run_prog (result E B)) h : returns (ptry (Ret (Err e)) k) h.
Proof using All. by exists (Err e), h. Qed.

(** What the pause brings: the deadline, or another poll interval. *)
Lemma returns_pause {A : Type} (next : run_prog A) k h :
  (deadline - N.of_nat (S k) * poll ≤ host h RNow)%N →
  (∀ h', (deadline - N.of_nat k * poll ≤ host h' RNow)%N → returns next h') →
  returns (let* remaining := remaining_until deadline in do* call (RSleep (N.min poll remaining)) in next) h.
Proof using All.
  intros Hd Hnext. unfold remaining_until. apply returns_call.
  change (returns (do* call (RSleep (N.min poll (deadline - host h RNow))) in next) (h ++ [Event (Ans := rans) RNow (host h RNow)])).
  apply returns_call. apply Hnext. set (h1 := h ++ [_]). set (time := N.min _ _).
  pose proof (ti_sleep Htimely h1 time) as Hs. pose proof (clock_snoc h (Event (Ans := rans) RNow (host h RNow)) _ (N.le_refl _)) as Hm.
  fold h1 in Hm. destruct (host h1 (RSleep time)). unfold time in *. lia.
Qed.

Lemma returns_wait_loop k seen last_err h :
  (deadline - N.of_nat k * poll ≤ host h RNow)%N →
  returns (wait_loop config show_duration (S k) target key probe_ping deadline seen last_err) h.
Proof using All.
  revert seen last_err h. induction k as [|k IH]; intros seen last_err h Hd; cbn [wait_loop]; apply returns_call.
  { destruct (N.leb_spec deadline (host h RNow)); [apply returns_ret|lia]. }
  destruct (deadline <=? host h RNow)%N; [apply returns_ret|].
  apply clock_snoc with (e := Event (Ans := rans) RNow (host h RNow)) in Hd. revert Hd. generalize (h ++ [Event (Ans := rans) RNow (host h RNow)]).
  clear h. intros h Hd.
  assert (Hpause : ∀ seen last_err h', (deadline - N.of_nat (S k) * poll ≤ host h' RNow)%N →
    returns (let* remaining := remaining_until deadline in do* call (RSleep (N.min poll remaining)) in
             wait_loop config show_duration (S k) target key probe_ping deadline seen last_err) h').
  { intros seen' last_err' h' Hd'. eapply returns_pause; [exact Hd'|]. intros h2 Hd2. by apply IH. }
  assert (Hretry : ∀ last_err h', (deadline - N.of_nat (S k) * poll ≤ host h' RNow)%N →
    returns (try* guest_seen :=
       if probe_ping && negb seen then
         let* remaining := remaining_until deadline in
         let* answer := probe_ping_once target remaining in
         match answer with
         | Some true => do* call (RObserve GuestReady) in Ret (Ok true)
         | Some false => Ret (Ok seen)
         | None => Ret (Err (unreachable show_duration target (ns (guest_reach_timeout config)) last_err))
         end
       else Ret (Ok seen) in
     let* remaining := remaining_until deadline in
     do* call (RSleep (N.min poll remaining)) in
     wait_loop config show_duration (S k) target key probe_ping deadline guest_seen last_err) h').
  { intros last_err' h' Hd'. destruct (probe_ping && negb seen); [|by apply Hpause].
    destruct (ping_result seen last_err' h' _ Hd') as (r & h2 & E & Hd2).
    eapply wait_bind_returns; [exact E|]. destruct r as [seen'|e]; [by apply Hpause|apply returns_ret]. }
  apply returns_call_bind, returns_ret_bind.
  set (h1 := h ++ _) in *. set (attempt := N.min _ SSH_PROBE_ATTEMPT_TIMEOUT).
  unfold probe_ssh_once. apply returns_call_bind, returns_ret_bind.
  set (op := RRunWithin _ attempt). apply clock_snoc with (e := Event (Ans := rans) RNow (host h RNow)) in Hd. fold h1 in Hd.
  apply clock_snoc with (e := Event (Ans := rans) op (host h1 op)) in Hd. set (h2 := h1 ++ [_]) in *.
  destruct (host h1 op) as [[o|e]|]; [|apply returns_err|by apply Hretry].
  destruct (out_success o); [|by apply Hretry].
  apply (returns_ret_bind (Ok None)). unfold signal_ready. destruct seen; [apply returns_ret_bind|apply returns_call_bind]; by repeat eexists.
Qed.

End termination.

(** ** Theorems *)

(** Waiting for a guest keeps to its deadline and to the order of the signals.
    Whatever the host answers, an ssh attempt, a ping or a pause is bounded by what
    the clock, read just before, leaves of the time; [GuestReady] is observed when
    a probe has just been accepted, at most once, and [SshReady] once, after it and
    only when ssh was accepted.  A success has observed exactly the two, a failure
    at most [GuestReady]. *)
Theorem wait_observed config show_path show_duration fuel target key_path key probe_ping tr o :
  path_to_str show_path key_path = Some key →
  run (wait_for_ssh_observed config show_path show_duration fuel target key_path probe_ping) tr o →
  guarded (wait_allows config target key probe_ping) tr ∧ ∀ r, o = Some r → observed r tr.
Proof. intros Hkey Hrun. exact (spec_run _ _ _ _ _ (spec_wait config show_path show_duration fuel target key_path key probe_ping Hkey) Hrun). Qed.

(** The wait ends.  On a host whose clock does not go back and where a pause
    takes its time, the wait returns within as many rounds as poll intervals fit
    into its time, and two, whatever else the host answers. *)
Theorem wait_returns config show_path show_duration fuel target key_path probe_ping host :
  timely host → (0 < guest_reach_poll_interval config)%N →
  N.to_nat (guest_reach_timeout config / guest_reach_poll_interval config) + 2 ≤ fuel →
  is_Some (fst (exec host (wait_for_ssh_observed config show_path show_duration fuel target key_path probe_ping) [])).
Proof.
  intros Ht Hpoll Hfuel. unfold wait_for_ssh_observed. destruct (path_to_str show_path key_path) as [key|]; [|by eexists].
  cbn [pbind call exec]. set (h := [] ++ _). set (k := N.to_nat (guest_reach_timeout config / guest_reach_poll_interval config) + 1).
  destruct fuel as [|fuel]; [lia|].
  assert (Hd : (host [] RNow + ns (guest_reach_timeout config) - N.of_nat fuel * ns (guest_reach_poll_interval config) ≤ host h RNow)%N).
  { pose proof (ti_monotone _ Ht [] (Event RNow (host [] RNow))) as Hm. unfold h.
    pose proof (N.div_mod' (guest_reach_timeout config) (guest_reach_poll_interval config)) as Hdiv.
    pose proof (N.mod_lt (guest_reach_timeout config) (guest_reach_poll_interval config)) as Hmod.
    assert (Hk : (guest_reach_timeout config ≤ N.of_nat fuel * guest_reach_poll_interval config)%N).
    { assert (guest_reach_timeout config / guest_reach_poll_interval config + 1 ≤ N.of_nat fuel)%N by lia. nia. }
    unfold ns. nia. }
  destruct (returns_wait_loop config show_duration target key probe_ping host Ht _ fuel false EmptyString h Hd) as (a & h' & E).
  rewrite E. by eexists.
Qed.

(** A host whose clock only moves by its pauses. *)
Fixpoint slept (h : list revent) : N :=
  match h with
  | [] => 0%N
  | Event (RSleep time) _ :: h => (time + slept h)%N
  | _ :: h => slept h
  end.

Definition deaf_guest (h : list revent) (op : rop) : rans op :=
  match op return rans op with
  | RNow => slept h
  | RUtcNow | RUlid => EmptyString
  | REnv _ => None
  | RSleep _ | RObserve _ | RComplete _ | RFeed _ _ => ()
  | RRun c => Ok {| out_code := Some 255%Z; out_stdout := EmptyString; out_stderr := "refused" |}
  | RRunWithin c _ =>
      Some (Ok {| out_code := Some (if bool_decide (signals h = []) && bool_decide (hc_program c = "ping") then 0 else 255)%Z;
                  out_stdout := EmptyString; out_stderr := "refused" |})
  | RSpawn _ => Ok 5%N
  | RWrite _ _ | RShutdown _ => Ok ()
  | RWait _ => Err (io_err OtherKind)
  | RRemoveDirAll _ | RCreateDir _ | RWriteFile _ _ | RRename _ _ => Ok ()
  | RReadFile _ => Ok EmptyString
  | RTempDir => ["tmp"]
  | RExists _ => true
  | RCanonicalize _ => Ok []
  end.

Lemma slept_snoc h e : slept (h ++ [e]) = (slept h + match ev_op e with RSleep time => time | _ => 0 end)%N.
Proof. induction h as [|[[] x] h IH]; simpl; rewrite ?IH; try lia. destruct e as [[] x]; simpl; lia. Qed.

Lemma deaf_guest_timely : timely deaf_guest.
Proof. split; intros; simpl; rewrite slept_snoc; simpl; lia. Qed.

Definition quick_config : RoomsConfig :=
  {| api_timeout := 1; instance_start_timeout := 1; api_socket_timeout := 1; guest_reach_timeout := 10;
     guest_reach_poll_interval := 4; base_provisioning_timeout := 1; cleanup_grace := 1; firecracker_binary := "firecracker";
     jailer_binary := "jailer"; jailer_chroot_base := None; state_base := None; min_firecracker_version := (1, 7)%N;
     min_rootfs_bytes := 1; max_pool := 4 |}.

Definition sample_wait : run_prog (result FirecrackerError unit) :=
  wait_for_ssh_observed quick_config (λ _, "/key") (λ _, "10ms") 4 (flat "172.16.0.2") ["key"] true.

(** A guest that answers the ping and never lets anybody in: the signal has been
    observed when the wait fails. *)
Lemma wait_observed_witness :
  signals (snd (exec deaf_guest sample_wait [])) = [GuestReady] ∧
  guarded (wait_allows quick_config (flat "172.16.0.2") "/key" true) (snd (exec deaf_guest sample_wait [])) ∧
  ∀ r, fst (exec deaf_guest sample_wait []) = Some r → observed r (snd (exec deaf_guest sample_wait [])).
Proof.
  split; [vm_compute; reflexivity|].
  exact (wait_observed quick_config (λ _, "/key") (λ _, "10ms") 4 (flat "172.16.0.2") ["key"] "/key" true _ _ eq_refl
           (exec_run_nil deaf_guest sample_wait)).
Defined.

Lemma wait_returns_witness : is_Some (fst (exec deaf_guest sample_wait [])).
Proof.
  apply (wait_returns quick_config (λ _, "/key") (λ _, "10ms") 4 (flat "172.16.0.2") ["key"] true deaf_guest);
    [apply deaf_guest_timely|vm_compute; reflexivity|vm_compute; lia].
Defined.
