(* ===== verification/RunnerCollect.v ===== *)
(** * RunnerCollect: what comes back from a guest, and what goes into a base

    The guest's archive is unpacked only when every member was found harmless,
    the directories handed to the user are those this run made, and the input of a
    neutral base carries no credential. *)

From S2P Require Import Prelude RStr Fs Artifacts Config Pcap Prog Sys Images Boot Runner RunnerOrder.
From stdpp Require Import options.

(** ** Archive members *)

(** No word of the line leads out of the directory it is unpacked in. *)
Definition harmless (line : string) : Prop :=
  (∃ r, line = String "-" r ∨ line = String "d" r) ∧
  ∀ tok, tok ∈ split_whitespace line → starts_with tok "/" = false ∧ ".." ∉ split_byte "/" tok.

Lemma tar_member_is_safe_spec line : tar_member_is_safe line = true ↔ harmless line.
Proof.
  unfold harmless. destruct line as [|c line]; simpl; [split; [done|by intros [[r [[=]|[=]]] _]]|].
  rewrite andb_true_iff, orb_true_iff, !Ascii.eqb_eq, negb_true_iff, <- not_true_iff_false, existsb_exists. split.
  - intros [Hc Hn]. split; [exists line; destruct Hc as [->| ->]; auto|]. intros tok Htok. split.
    + destruct (starts_with tok "/") eqn:E; [|done]. exfalso. apply Hn. exists tok. split; [by apply list_elem_of_In|by rewrite E].
    + intros Hin. apply Hn. exists tok. split; [by apply list_elem_of_In|]. apply orb_true_iff. right.
      apply existsb_exists. exists "..". split; [by apply list_elem_of_In|done].
  - intros [[r Hr] Hall]. split; [destruct Hr as [[= -> _]|[= -> _]]; auto|]. intros (tok & Htok & Hbad).
    destruct (Hall tok) as [H1 H2]; [by apply list_elem_of_In|]. rewrite H1 in Hbad. simpl in Hbad.
    apply existsb_exists in Hbad as (comp & Hcomp & ->%String.eqb_eq). by apply H2, list_elem_of_In.
Qed.

Section collect.
  Variables (show_path : path → string) (show_status : option Z → string) (show_int_error : string → string).
  Variables (target : GuestTarget) (key_path host_dir : path).

Definition list_tar : HostCommand := host_command "tar" ["-tvf"; "-"].
Definition extract_tar : HostCommand := host_command "tar" (extract_args ++ [show_path host_dir]).
Definition chmod_out : HostCommand := host_command "chmod" ["-R"; "u+rwX,a-s"; "--"; show_path host_dir].
Definition chown_paths (recursive : bool) (owner : string) (paths : list path) : HostCommand :=
  host_command "chown" ([if recursive then "-hR" else "-h"; "--"; owner] ++ (show_path <$> paths)).

(** The archive the guest sent. *)
Definition sent (archive : string) (h : list revent) : Prop :=
  ∃ o, answered_ok show_path target key_path collect_command false o h ∧ out_success o = true ∧ out_stdout o = archive.

(** The host's own listing of that archive, every line of it harmless. *)
Definition listed (archive : string) (h : list revent) : Prop :=
  ∃ child o, Event (Ans := rans) (RSpawn list_tar) (Ok child) ∈ h ∧ Event (Ans := rans) (RFeed child archive) () ∈ h ∧
    Event (Ans := rans) (RWait child) (Ok o) ∈ h ∧ out_success o = true ∧ Forall harmless (lines (lossy (out_stdout o))).

(** The directories that were made. *)
Definition made_by (e : revent) : option path :=
  match e with
  | Event op x =>
      match op return rans op → option path with
      | RCreateDir p => λ x, match x with Ok _ => Some p | Err _ => None end
      | _ => λ _, None
      end x
  end.

Definition made (h : list revent) : list path := omap made_by h.

Definition collect_allows (h : list revent) (op : rop) : Prop :=
  match op with
  | RRemoveDirAll p => p = host_dir ∧ h = []
  | RCreateDir p => p ∈ ancestors_in host_dir
  | RRun c =>
      asks show_path target key_path collect_command false c ∨
      (c = chmod_out ∧ ∃ archive, sent archive h ∧ listed archive h) ∨
      (∃ recursive owner paths, c = chown_paths recursive owner paths ∧ (∀ p, p ∈ paths → p ∈ made h) ∧
         (recursive = true → paths = [host_dir]))
  | RSpawn c => c = list_tar ∨ (c = extract_tar ∧ ∃ archive, sent archive h ∧ listed archive h)
  | RFeed child bytes =>
      ∃ c, Event (Ans := rans) (RSpawn c) (Ok child) ∈ h ∧ sent bytes h ∧ (c = extract_tar → listed bytes h)
  | RWait _ | REnv _ => True
  | _ => False
  end.

#[local] Instance monotone_sent archive : Monotone (sent archive).
Proof.
  intros h k (o & Ha & H). exists o. split; [|done]. destruct Ha as (c & Hc & He). exists c. split; [done|].
  apply elem_of_app. by left.
Qed.
#[local] Instance monotone_listed archive : Monotone (listed archive).
Proof. intros h k (child & o & H1 & H2 & H3 & H). exists child, o. split_and!; try (apply elem_of_app; by left); apply H. Qed.

Lemma made_app h k : made (h ++ k) = made h ++ made k.
Proof. unfold made. apply omap_app. Qed.

Lemma made_quiet h op x : (match op with RCreateDir _ => False | _ => True end) → made (h ++ [Event op x]) = made h.
Proof. intros Hop. rewrite made_app. destruct op; done || (simpl; by rewrite (right_id_L [] (++))). Qed.

(** ** Directories *)

(** What was created is what the call made. *)
Lemma spec_create_directories dirs created0 created h :
  (∀ p, p ∈ dirs → p ∈ ancestors_in host_dir) → created = created0 ++ made h →
  spec collect_allows (create_directories show_path dirs created) h (λ r h', fst r = created0 ++ made h').
Proof using All.
  revert created h. induction dirs as [|dir dirs IH]; intros created h Hdirs Hc; cbn [create_directories]; [done|].
  ask as x; [apply Hdirs; by left|].
  destruct x as [[]|e].
  - apply IH; [intros p Hp; apply Hdirs; by right|]. by rewrite made_app, Hc, <- (assoc_L (++)).
  - assert (Hm : created = created0 ++ made (h ++ [Event (Ans := rans) (RCreateDir dir) (Err e)])).
    { rewrite made_app. simpl. by rewrite (right_id_L [] (++)). }
    destruct (bool_decide _); [|done]. apply IH; [intros p Hp; apply Hdirs; by right|done].
Qed.

Lemma spec_return_ownership paths recursive h :
  (∀ p, p ∈ paths → p ∈ made h) → (recursive = true → paths = [host_dir]) →
  spec collect_allows (return_artifact_ownership show_path show_int_error paths recursive) h (λ _ h', made h' = made h).
Proof using All.
  intros Hp Hr. unfold return_artifact_ownership. destruct paths as [|p paths]; [done|].
  ask as uid; [done|]. ask as gid; [done|].
  assert (Hm : made ((h ++ [Event (Ans := rans) (REnv "SUDO_UID") uid]) ++ [Event (Ans := rans) (REnv "SUDO_GID") gid]) = made h)
    by by rewrite !made_quiet.
  destruct uid as [uid|]; [|done]. destruct gid as [gid|]; [|done].
  destruct (parse_uint u32_max uid) as [u|]; [|done]. destruct (parse_uint u32_max gid) as [g|]; [|done].
  apply spec_ok, spec_ok. unfold plain. spec_call as x.
  { right. right. eexists recursive, _, (p :: paths). split; [done|]. rewrite Hm. done. }
  assert (Hm' : made (((h ++ [Event (Ans := rans) (REnv "SUDO_UID") (Some uid)]) ++ [Event (Ans := rans) (REnv "SUDO_GID") (Some gid)]) ++
     [Event (Ans := rans) (RRun (host_command "chown" ([if recursive then "-hR" else "-h"; "--"; show_N u +:+ ":" +:+ show_N g] ++
        (show_path <$> p :: paths)))) x]) = made h) by by rewrite made_quiet.
  destruct x as [o|e]; [|done]. simpl map_err; cbv iota. done.
Qed.

(** ** The archive *)

Lemma spec_list_archive archive h :
  sent archive h →
  spec collect_allows (ensure_tar_regular_only show_path show_status archive) h
    (went_well (λ _ h', sent archive h' ∧ listed archive h')).
Proof using All.
  intros Hs. unfold ensure_tar_regular_only, run_host_tar, context.
  spec_call as child; [by left|]. destruct child as [child|e]; [|by intros ? [=]].
  simpl map_err; cbv iota. spec_call as u.
  { exists list_tar. split; [apply elem_of_app; right; by left|]. split; [by apply monotone|]. by intros [=]. }
  destruct u. spec_call as w; [done|]. destruct w as [o|e]; [|by intros ? [=]].
  simpl map_err; cbv iota. destruct (out_success o) eqn:Ho; [|by intros ? [=]]. cbn [negb].
  destruct (find _ _) as [line|] eqn:Hf; [by intros ? [=]|]. intros u _.
  split; [by do 3 apply monotone|].
  exists child, o. split_and!; [set_solver..|done|].
  apply Forall_forall. intros line Hline. apply tar_member_is_safe_spec.
  apply negb_false_iff, (find_none _ _ Hf line). by apply list_elem_of_In.
Qed.

(** It is unpacked only when it was listed. *)
Lemma spec_extract archive h :
  sent archive h → spec collect_allows (extract_archive show_path show_status archive host_dir) h (went_well (λ _ _, True)).
Proof using All.
  intros Hs. unfold extract_archive. eapply spec_then; [by apply spec_list_archive|]. intros [] h1 Hh.
  assert (HM : Monotone (λ h, sent archive h ∧ listed archive h)) by apply _.
  eapply (spec_then _ _ _ _ (λ _ h, sent archive h ∧ listed archive h)).
  - unfold run_host_tar, context. change (extract_args ++ (show_path <$> option_list (Some host_dir))) with (extract_args ++ [show_path host_dir]).
    spec_call as child; [right; split; [done|]; by exists archive|]. destruct child as [child|e]; [|by intros ? [=]].
    apply (HM _ [Event (Ans := rans) (RSpawn extract_tar) (Ok child)]) in Hh. simpl map_err; cbv iota. spec_call as u.
    { exists extract_tar. split; [apply elem_of_app; right; by left|]. split; [apply Hh|]. intros _. apply Hh. }
    destruct u. apply (HM _ [Event (Ans := rans) (RFeed child archive) ()]) in Hh. spec_call as w; [done|].
    apply (HM _ [Event (Ans := rans) (RWait child) w]) in Hh. intros o _. exact Hh.
  - intros o h2 H2. destruct (out_success o); [|by intros ? [=]]. cbn [negb].
    eapply (spec_then _ _ _ _ (λ _ _, True)); [|by intros modes h3 _ u _].
    unfold plain. spec_call as modes; [right; left; split; [done|]; by exists archive|]. by intros.
Qed.

Definition not_mkdir (op : rop) : Prop := match op with RCreateDir _ => False | _ => True end.

Lemma made_kind k : all_calls not_mkdir k → made k = [].
Proof.
  induction k as [|[op x] k IH]; intros Hk; [done|]. simpl. assert (Hop : not_mkdir op) by (apply (Hk (Event op x)); by left).
  rewrite IH; [by destruct op|]. intros e He. apply Hk. by right.
Qed.

Lemma only_extract archive : only not_mkdir (extract_archive show_path show_status archive host_dir).
Proof. unfold extract_archive, ensure_tar_regular_only, run_host_tar, context, plain. only_walk. Qed.

(** The archive brought back. *)
Definition bring : run_prog (result string unit) :=
  try* ssh_out := guest_run show_path target key_path collect_command false SSH_AUXILIARY_CONNECT_TIMEOUT
                    (λ _, "failed to run guest tar over ssh") in
  if negb (out_success ssh_out) then
    Ret (Err ("guest tar failed (exit " +:+ show_status (out_code ssh_out) +:+ "): " +:+ lossy (out_stderr ssh_out)))
  else
  if is_empty (out_stdout ssh_out) then Ret (Ok ()) else extract_archive show_path show_status (out_stdout ssh_out) host_dir.

Lemma spec_bring h : spec collect_allows bring h (λ _ h', made h' = made h).
Proof using All.
  eapply spec_mono.
  - apply (spec_only not_mkdir _ _ _ (λ _ _, True)).
    + unfold bring, guest_run. only_walk. apply only_extract.
    + eapply (spec_mono _ _ _ (went_well (λ _ _, True))); [|done]. unfold bring.
      eapply (spec_then _ _ _ _ (λ o h', answered_ok show_path target key_path collect_command false o h')).
      * unfold guest_run. destruct (ssh_command show_path target key_path collect_command false SSH_AUXILIARY_CONNECT_TIMEOUT) as [c|e] eqn:Hc;
          [|by intros o ?].
        assert (Ha : asks show_path target key_path collect_command false c) by by eexists.
        apply spec_ok. spec_call as r; [by left|]. destruct r as [o'|e]; intros o; [|by intros]. intros [= ->].
        exists c. split; [done|]. apply elem_of_app. right. by left.
      * intros o h1 Ho. destruct (out_success o) eqn:Hok; [|by intros ? [=]]. cbn [negb].
        destruct (is_empty (out_stdout o)); [by intros|]. apply spec_extract. by exists o.
  - intros r h' [_ (k & -> & Hk)]. rewrite made_app, (made_kind k) by done. by rewrite (right_id_L [] (++)).
Qed.

Lemma spec_collect_observed :
  spec collect_allows (collect_out_to_host_observed show_path show_status target key_path host_dir []) []
    (λ r h', fst r = made h').
Proof using All.
  unfold collect_out_to_host_observed. ask as x; [done|].
  destruct (match x with Ok _ => _ | Err e => _ end); [done|].
  apply spec_bind. eapply spec_mono; [unfold create_output_directory; apply (spec_create_directories _ []); [done|done]|].
  intros [created [[]|e]] h1 H1; simpl in H1; [|done].
  apply spec_bind. eapply spec_mono; [apply spec_bring|]. intros r h2 H2. simpl. by rewrite H2.
Qed.

Lemma spec_collect :
  spec collect_allows (collect_out_to_host show_path show_status show_int_error target key_path host_dir) [] (λ _ _, True).
Proof using All.
  unfold collect_out_to_host. apply spec_bind. eapply spec_mono; [apply spec_collect_observed|].
  intros [created collected] h1 H1. simpl in H1. apply spec_bind, spec_try.
  eapply (spec_mono _ _ _ (λ _ h', made h' = made h1)).
  - destruct (bool_decide (host_dir ∈ created)) eqn:Hin; [|done]. apply bool_decide_eq_true in Hin.
    apply spec_return_ownership; [|done]. intros p ->%list_elem_of_singleton. by rewrite <- H1.
  - intros [[]|e] h2 H2; [|done]. eapply spec_mono; [apply spec_return_ownership|done].
    + intros p [_ Hp]%list_elem_of_filter. by rewrite H2, <- H1.
    + done.
Qed.

End collect.

(** ** The input of a neutral base *)

Section base.
  Variables (show_path : path → string) (show_debug : string → string).
  Variables (base_revision warm : option string) (repo : string).

Definition git (cwd : string) (args : list string) : HostCommand :=
  {| hc_program := "git"; hc_args := args; hc_cwd := Some cwd; hc_env := [("GIT_TERMINAL_PROMPT", "0")] |}.

(** No marker of a credential in the warm-up, no user in the address. *)
Definition neutral : Prop :=
  (∀ command marker, warm = Some command → marker ∈ CREDENTIAL_MARKERS → contains (to_ascii_lowercase command) marker = false) ∧
  repo_url_has_userinfo repo = false.

Definition mirror_of (temp : path) : path := path_join temp "repo.git".
Definition staging_of (temp : path) : path := path_join temp "pinned.git".
Definition bundle_of (temp : path) : path := path_join temp "repo.bundle".

(** The repository that is bundled: the one named, or a mirror of it. *)
Definition source_dir (temp dir : path) (h : list revent) : Prop :=
  Event (Ans := rans) (RCanonicalize repo) (Ok dir) ∈ h ∨ dir = mirror_of temp.

Definition git_ok (c : HostCommand) (h : list revent) : Prop :=
  answered h (RRun c) (λ r, ∃ o, r = Ok o ∧ out_success o = true).

Definition rev_parse (dir : path) (revision : string) : HostCommand :=
  git (show_path dir) ["rev-parse"; "--verify"; "--end-of-options"; revision +:+ "^{commit}"].
Definition clone_pinned (temp dir : path) : HostCommand :=
  git "." ["clone"; "--quiet"; "--bare"; "--shared"; "--"; lossy (show_path dir); lossy (show_path (staging_of temp))].
Definition update_head (temp : path) (commit : string) : HostCommand :=
  git (show_path (staging_of temp)) ["update-ref"; "--no-deref"; "HEAD"; commit].
Definition bundle_head (temp : path) : HostCommand :=
  git (show_path (staging_of temp)) ["bundle"; "create"; lossy (show_path (bundle_of temp)); "HEAD"].

(** The commit was resolved, and pinned in a clone of its own. *)
Definition resolved (temp : path) (commit : string) (h : list revent) : Prop :=
  ∃ dir revision o, source_dir temp dir h ∧ base_revision = Some revision ∧
    Event (Ans := rans) (RRun (rev_parse dir revision)) (Ok o) ∈ h ∧ out_success o = true ∧
    commit = trim (lossy (out_stdout o)) ∧ is_object_id commit = true.

Definition pinned_bundle (temp : path) (commit : string) (h : list revent) : Prop :=
  resolved temp commit h ∧ git_ok (update_head temp commit) h ∧ git_ok (bundle_head temp) h.

(** The git commands of a bundle: in the repository itself it is only read. *)
Inductive git_allowed (temp : path) (h : list revent) (c : HostCommand) : Prop :=
| GitMirror : c = git "." ["clone"; "--mirror"; "--"; repo; lossy (show_path (mirror_of temp))] → git_allowed temp h c
| GitResolve dir revision : source_dir temp dir h → base_revision = Some revision → c = rev_parse dir revision → git_allowed temp h c
| GitStage dir commit : source_dir temp dir h → resolved temp commit h → c = clone_pinned temp dir → git_allowed temp h c
| GitPin commit : resolved temp commit h → c = update_head temp commit → git_allowed temp h c
| GitBundleHead commit : resolved temp commit h → git_ok (update_head temp commit) h → c = bundle_head temp → git_allowed temp h c
| GitBundleAll dir : source_dir temp dir h → base_revision = None →
    c = git (show_path dir) ["bundle"; "create"; lossy (show_path (bundle_of temp)); "--all"] → git_allowed temp h c.

(** The temporary directory this call made. *)
Definition temp_made (temp : path) (h : list revent) : Prop := Event (Ans := rans) (RCreateDir temp) (Ok ()) ∈ h.

Definition base_allows (h : list revent) (op : rop) : Prop :=
  neutral ∧
  match op with
  | RTempDir | RUlid => True
  | RCreateDir temp => ∃ dir id, Event (Ans := rans) RTempDir dir ∈ h ∧ Event (Ans := rans) RUlid id ∈ h ∧
                         temp = path_join dir ("rooms-base-" +:+ id) ∧ ∀ t, ¬ temp_made t h
  | RExists p | RCanonicalize p => p = repo ∧ ∃ temp, temp_made temp h
  | RRun c => ∃ temp, temp_made temp h ∧ git_allowed temp h c
  | RReadFile p => ∃ temp, temp_made temp h ∧ p = bundle_of temp
  | RRemoveDirAll p => temp_made p h
  | _ => False
  end.

#[local] Instance monotone_event (e : revent) : Monotone (elem_of e).
Proof. intros h k He. apply elem_of_app. by left. Qed.
#[local] Instance monotone_git_ok c : Monotone (git_ok c).
Proof. unfold git_ok. apply _. Qed.
#[local] Instance monotone_source_dir temp dir : Monotone (source_dir temp dir).
Proof. unfold source_dir. apply _. Qed.
#[local] Instance monotone_resolved temp commit : Monotone (resolved temp commit).
Proof. unfold resolved. apply _. Qed.
#[local] Instance monotone_temp_made temp : Monotone (temp_made temp).
Proof. apply monotone_event. Qed.

(** A git command, with what stays true. *)
Lemma spec_git temp cwd args action (P : list revent → Prop) `{!Monotone P} h :
  neutral → temp_made temp h → git_allowed temp h (git cwd args) → P h →
  spec base_allows (git_stdout cwd args action) h
    (went_well (λ out h', temp_made temp h' ∧ P h' ∧
       ∃ o, Event (Ans := rans) (RRun (git cwd args)) (Ok o) ∈ h' ∧ out_success o = true ∧ out = trim (lossy (out_stdout o)))).
Proof using All.
  intros Hn Ht Hg HP. unfold git_stdout. spec_call as x; [split; [done|]; by exists temp|].
  destruct x as [o|e]; [|by intros ? [=]]. simpl map_err; cbv iota. destruct (out_success o) eqn:Ho; [|by intros ? [=]].
  intros out [= <-]. split; [by apply monotone_temp_made|]. split; [by apply monotone|]. exists o. split; [|done].
  apply elem_of_app. right. by left.
Qed.

Lemma spec_run_git temp cwd args action (P : list revent → Prop) `{!Monotone P} h :
  neutral → temp_made temp h → git_allowed temp h (git cwd args) → P h →
  spec base_allows (run_git cwd args action) h
    (went_well (λ _ h', temp_made temp h' ∧ P h' ∧ git_ok (git cwd args) h')).
Proof using All.
  intros Hn Ht Hg HP. unfold run_git. eapply spec_then; [by apply (spec_git temp _ _ _ P)|].
  intros out h' (Ht' & HP' & o & Ho & Hs & _) [] _. split; [done|]. split; [done|]. exists (Ok o). split; [done|]. by exists o.
Qed.

Lemma spec_pinned temp dir revision h :
  neutral → temp_made temp h → source_dir temp dir h → base_revision = Some revision →
  spec base_allows (bundle_pinned_head show_path dir (staging_of temp) revision (bundle_of temp)) h
    (went_well (λ commit h', temp_made temp h' ∧ pinned_bundle temp commit h')).
Proof using All.
  intros Hn Ht Hd Hrev. unfold bundle_pinned_head. cbv zeta.
  eapply spec_then; [apply (spec_git temp _ _ _ (source_dir temp dir)); [done|done|by eapply GitResolve|done]|].
  intros commit h1 (Ht1 & Hd1 & o & Ho & Hok & Hc). destruct (is_object_id commit) eqn:Hid; [|by intros ? [=]]. cbn [negb].
  assert (Hres : resolved temp commit h1) by (by exists dir, revision, o).
  eapply spec_then; [apply (spec_run_git temp _ _ _ (λ h, resolved temp commit h)); [done|done|by eapply GitStage|done]|].
  intros [] h2 (Ht2 & Hr2 & _).
  eapply spec_then; [apply (spec_run_git temp _ _ _ (λ h, resolved temp commit h)); [done|done|by eapply GitPin|done]|].
  intros [] h3 (Ht3 & Hr3 & Hp3).
  eapply spec_then.
  { apply (spec_run_git temp _ _ _ (λ h, resolved temp commit h ∧ git_ok (update_head temp commit) h)); [done|done| |done].
    by eapply GitBundleHead. }
  intros [] h4 (Ht4 & [Hr4 Hp4] & Hb4). intros c [= <-]. done.
Qed.

(** What the bundle is. *)
Definition bundled (temp : path) (bytes : string) (pinned_ : option string) (h : list revent) : Prop :=
  Event (Ans := rans) (RReadFile (bundle_of temp)) (Ok bytes) ∈ h ∧ (is_Some base_revision ↔ is_Some pinned_) ∧
  ∀ commit, pinned_ = Some commit → pinned_bundle temp commit h.

#[local] Instance monotone_bundled temp bytes pinned_ : Monotone (bundled temp bytes pinned_).
Proof. unfold bundled, pinned_bundle. apply _. Qed.

Lemma spec_bundle_in temp h :
  neutral → temp_made temp h →
  spec base_allows (bundle_in show_path temp repo base_revision) h
    (went_well (λ r h', bundled temp (fst r) (snd r) h')).
Proof using All.
  intros Hn Ht. unfold bundle_in. ask as exists_; [split; [done|]; split; [done|]; by exists temp|].
  apply (monotone_temp_made temp _ [Event (Ans := rans) (RExists repo) exists_]) in Ht. revert Ht.
  generalize (h ++ [Event (Ans := rans) (RExists repo) exists_]). clear h. intros h Ht.
  eapply (spec_then _ _ _ _ (λ dir h', temp_made temp h' ∧ source_dir temp dir h')).
  { destruct exists_.
    - spec_call as x; [split; [done|]; split; [done|]; by exists temp|]. destruct x as [dir|e]; intros dir' [= <-].
      split; [by apply monotone_temp_made|]. left. apply elem_of_app. right. by left.
    - eapply spec_then; [apply (spec_run_git temp _ _ _ (λ _, True)); [done|done|by apply GitMirror|done]|].
      intros [] h1 (Ht1 & _ & _) dir [= <-]. split; [done|]. by right. }
  intros dir h1 [Ht1 Hd1].
  eapply (spec_then _ _ _ _ (λ pinned_ h', temp_made temp h' ∧ (pinned_ = None → source_dir temp dir h') ∧ (is_Some base_revision ↔ is_Some pinned_) ∧
    ∀ commit, pinned_ = Some commit → pinned_bundle temp commit h')).
  { destruct base_revision as [revision|] eqn:Hrev; [|by intros p [= <-]].
    eapply spec_then; [by apply (spec_pinned temp dir)|]. intros commit h2 [Ht2 Hp2] p [= <-].
    split; [done|]. split; [done|]. split; [done|]. by intros commit' [= <-]. }
  intros pinned_ h2 (Ht2 & Hd2 & Hiff & Hp2).
  eapply (spec_then _ _ _ _ (λ _ h', temp_made temp h' ∧ ∀ commit, pinned_ = Some commit → pinned_bundle temp commit h')).
  { destruct pinned_ as [commit|]; [by intros [] _|].
    assert (Hnone : base_revision = None) by (destruct base_revision; [by destruct (proj1 Hiff (mk_is_Some _ _ eq_refl))|done]).
    eapply spec_mono; [apply (spec_run_git temp _ _ _ (λ _, True)); [done|done|eapply GitBundleAll; [by apply Hd2|done..]|done]|].
    intros r h3 H u Hu. destruct (H u Hu) as (Ht3 & _ & _). done. }
  intros [] h3 [Ht3 Hp3]. spec_call as x; [split; [done|]; by exists temp|]. destruct x as [bytes|e]; intros r [= <-].
  split; [apply elem_of_app; right; by left|]. split; [done|]. intros commit Hc. apply Hp3 in Hc as (H1 & H2 & H3).
  split; [by apply monotone_resolved|]. split; by apply monotone_git_ok.
Qed.

(** The directory is gone when the call is over: its removal was the last call. *)
Definition removed (h : list revent) : Prop :=
  ∀ temp, temp_made temp h → ∃ h0 x, h = h0 ++ [Event (Ans := rans) (RRemoveDirAll temp) x].

(** What a payload was made of. *)
Definition payload_of (p : ProvisioningPayload) (h : list revent) : Prop :=
  pp_warm p = default EmptyString warm ∧ ∃ temp, temp_made temp h ∧ bundled temp (pp_bundle p) (pp_base_repo_sha p) h.

Lemma no_temp_snoc h op x t :
  (match op with RCreateDir _ => False | _ => True end) → ¬ temp_made t h → ¬ temp_made t (h ++ [Event op x]).
Proof.
  intros Hop Hh. unfold temp_made. rewrite elem_of_app, list_elem_of_singleton. intros [?|Heq]; [done|].
  by injection Heq as <-.
Qed.

(** No other directory is made while the bundle is. *)
Lemma only_bundle_in temp : only not_mkdir (bundle_in show_path temp repo base_revision).
Proof. unfold bundle_in, bundle_pinned_head, run_git, git_stdout. only_walk. Qed.

Lemma temp_unique temp h k t :
  (∀ t, temp_made t h → t = temp) → all_calls not_mkdir k → temp_made t (h ++ k) → t = temp.
Proof.
  intros Hh Hk [Ht|Ht]%elem_of_app; [by apply Hh|]. destruct (Hk _ Ht).
Qed.

Lemma spec_create_bundle h :
  neutral → h = [] →
  spec base_allows (create_repo_bundle show_path repo base_revision) h
    (λ r h', removed h' ∧ ∀ bytes pinned_, r = Ok (bytes, pinned_) → ∃ temp, temp_made temp h' ∧ bundled temp bytes pinned_ h').
Proof using All.
  intros Hn ->. unfold create_repo_bundle. rewrite (proj2 Hn).
  ask as dir; [done|]. ask as id; [done|].
  set (h := ([] ++ [Event (Ans := rans) RTempDir dir]) ++ [Event (Ans := rans) RUlid id]).
  set (temp := path_join dir ("rooms-base-" +:+ id)).
  assert (Hno : ∀ t, ¬ temp_made t h).
  { intros t. do 2 (apply no_temp_snoc; [done|]). by intros ?%elem_of_nil. }
  apply spec_try. spec_call as made_.
  { split; [done|]. exists dir, id. unfold h. split_and!; [set_solver|set_solver|done|done]. }
  set (h1 := h ++ [Event (Ans := rans) (RCreateDir temp) made_]).
  destruct made_ as [[]|e]; simpl map_err; cbv iota.
  - assert (Ht : temp_made temp h1) by (apply elem_of_app; right; by left).
    assert (Hu : ∀ t, temp_made t h1 → t = temp).
    { intros t [Ht'|Ht'%list_elem_of_singleton]%elem_of_app; [by apply Hno in Ht'|]. by injection Ht' as <-. }
    apply spec_bind. eapply spec_mono; [apply (spec_only not_mkdir); [apply only_bundle_in|by apply spec_bundle_in]|].
    intros r h2 [Hr (k & -> & Hk)]. ask as x; [split; [done|]; by apply monotone_temp_made|].
    split.
    + intros t Ht'. exists (h1 ++ k), x. destruct (temp_unique temp (h1 ++ k) [Event (Ans := rans) (RRemoveDirAll temp) x] t) as [];
        [|by intros e' ->%list_elem_of_singleton|done|done].
      intros t'. by apply temp_unique.
    + intros bytes pinned_ ->. exists temp. split; [by do 2 apply monotone_temp_made|].
      apply monotone_bundled. exact (Hr _ eq_refl).
  - split; [|by intros]. intros t [Ht'|Ht'%list_elem_of_singleton]%elem_of_app; [by apply Hno in Ht'|].
    by apply (f_equal made_by) in Ht'.
Qed.

End base.

Lemma neutral_spec show_debug repo warm :
  match warm with Some command => validate_neutral_warm show_debug command | None => Ok () end = Ok () →
  repo_url_has_userinfo repo = false → neutral warm repo.
Proof.
  intros Hw Hr. split; [|done]. intros command marker -> Hm. unfold validate_neutral_warm in Hw.
  destruct (find _ _) as [m|] eqn:Hf; [done|]. apply (find_none _ _ Hf). by apply list_elem_of_In.
Qed.

(** What a run of [prepare_base_provisioning] may do, and leaves. *)
Definition base_guard (show_path : path → string) (repo base_revision warm : option string) (h : list revent) (op : rop) : Prop :=
  ∃ r, repo = Some r ∧ base_allows show_path base_revision warm r h op.

Definition base_result (show_path : path → string) (repo base_revision warm : option string)
    (r : result FirecrackerError ProvisioningPayload) (h : list revent) : Prop :=
  removed h ∧ ∀ p, r = Ok p →
    match repo with
    | Some repo => payload_of show_path base_revision warm repo p h
    | None => base_revision = None ∧ p = ProvisioningPayload_new EmptyString warm ∧ h = []
    end.

Lemma spec_prepare show_path show_debug repo base_revision warm :
  spec (base_guard show_path repo base_revision warm) (prepare_base_provisioning show_path show_debug repo base_revision warm) []
    (base_result show_path repo base_revision warm).
Proof.
  assert (Hrem : removed []) by (intros temp Ht; by apply elem_of_nil in Ht).
  unfold prepare_base_provisioning.
  destruct (match warm with Some command => validate_neutral_warm show_debug command | None => Ok () end) as [[]|e] eqn:Hw;
    [|by split].
  apply spec_ok. destruct repo as [repo|].
  - apply spec_try. destruct (repo_url_has_userinfo repo) eqn:Hu.
    { unfold create_repo_bundle. rewrite Hu. by split. }
    pose proof (neutral_spec show_debug repo warm Hw Hu) as Hn.
    eapply spec_mono; [eapply spec_weaken; [by apply spec_create_bundle|intros h op H; by exists repo]|].
    intros [[bundle pinned_]|e] h' [Hr Hp]; [|by split]. cbv beta iota. split; [done|]. intros p [= <-].
    destruct (Hp _ _ eq_refl) as (temp & Ht & Hb). split; [by destruct pinned_|]. exists temp. split; [done|].
    by destruct pinned_.
  - split; [done|]. intros p. destruct base_revision; [done|]. by intros [= <-].
Qed.

(** ** Theorems *)

(** C21. A guest's archive is unpacked only when it is harmless.  Collecting a
    run's output clears and makes the output directory only, lists the archive on
    the host and unpacks the very bytes that were listed, without owners or modes,
    only when every line of the listing is a plain file or a directory with no
    absolute word and no [..] component; permissions are normalized after that,
    and ownership is handed back only for directories this run made, recursively
    only for the output directory. *)
Theorem collect_confined show_path show_status show_int_error target key_path host_dir tr o :
  run (collect_out_to_host show_path show_status show_int_error target key_path host_dir) tr o →
  guarded (collect_allows show_path target key_path host_dir) tr.
Proof. intros Hrun. exact (proj1 (spec_run _ _ _ _ _ (spec_collect show_path show_status show_int_error target key_path host_dir) Hrun)). Qed.

(** C22. The input of a neutral base has no credentials, and its pin is what was
    bundled.  No git command runs and no file is made when the warm-up names a
    credential source or the address a user; the named repository is only read,
    and the pin is set in a clone of its own; whatever fails, removing the
    temporary directory is the last call.  A payload carries the file that git
    wrote, and a commit exactly when a revision was asked for: the full object id
    it resolved to, set as the HEAD that was bundled. *)
Theorem provisioning_neutral show_path show_debug repo base_revision warm tr o :
  run (prepare_base_provisioning show_path show_debug repo base_revision warm) tr o →
  guarded (base_guard show_path repo base_revision warm) tr ∧
  ∀ r, o = Some r → base_result show_path repo base_revision warm r tr.
Proof. intros Hrun. exact (spec_run _ _ _ _ _ (spec_prepare show_path show_debug repo base_revision warm) Hrun). Qed.

(** ** Examples *)

(** A guest with one file to bring back. *)
Definition giving_guest (h : list revent) (op : rop) : rans op :=
  match op return rans op with
  | RNow => 0%N
  | RUtcNow => "2026-01-01T00:00:00Z"
  | RUlid => "01hzzzzzzzzzzzzzzzzzzzzzzx"
  | REnv name => Some "1000"
  | RSleep _ | RObserve _ | RComplete _ | RFeed _ _ => ()
  | RRun c => plain_output (if bool_decide (hc_program c = "git") then sample_id else "archive")
  | RRunWithin _ _ => None
  | RSpawn _ => Ok 5%N
  | RWrite _ _ | RShutdown _ => Ok ()
  | RWait _ => plain_output "-rw-r--r-- rooms/rooms 3 2026-01-01 00:00 ./result.json"
  | RRemoveDirAll _ | RCreateDir _ | RWriteFile _ _ | RRename _ _ => Ok ()
  | RReadFile _ => Ok "bundle"
  | RTempDir => ["tmp"]
  | RExists _ => true
  | RCanonicalize _ => Ok ["repo"]
  end.

Definition sample_collect : run_prog (result string unit) :=
  collect_out_to_host show_sample_path (λ _, EmptyString) id sample_target ["keys"; "id"] ["out"].

Lemma collect_confined_witness :
  fst (exec giving_guest sample_collect []) = Some (Ok ()) ∧
  guarded (collect_allows show_sample_path sample_target ["keys"; "id"] ["out"]) (snd (exec giving_guest sample_collect [])).
Proof.
  split; [vm_compute; reflexivity|].
  exact (collect_confined show_sample_path (λ _, EmptyString) id sample_target ["keys"; "id"] ["out"] _ _
           (exec_run_nil giving_guest sample_collect)).
Defined.

Definition sample_prepare : run_prog (result FirecrackerError ProvisioningPayload) :=
  prepare_base_provisioning show_sample_path id (Some "/repo") (Some "main") (Some "make warm").

Lemma provisioning_neutral_witness :
  fst (exec giving_guest sample_prepare []) =
    Some (Ok {| pp_bundle := "bundle"; pp_warm := "make warm"; pp_base_repo_sha := Some sample_id |}) ∧
  guarded (base_guard show_sample_path (Some "/repo") (Some "main") (Some "make warm")) (snd (exec giving_guest sample_prepare [])) ∧
  base_result show_sample_path (Some "/repo") (Some "main") (Some "make warm")
    (Ok {| pp_bundle := "bundle"; pp_warm := "make warm"; pp_base_repo_sha := Some sample_id |})
    (snd (exec giving_guest sample_prepare [])).
Proof.
  assert (E : fst (exec giving_guest sample_prepare []) =
    Some (Ok {| pp_bundle := "bundle"; pp_warm := "make warm"; pp_base_repo_sha := Some sample_id |})) by (vm_compute; reflexivity).
  destruct (provisioning_neutral show_sample_path id (Some "/repo") (Some "main") (Some "make warm") _ _
              (exec_run_nil giving_guest sample_prepare)) as [Hg Hq].
  exact (conj E (conj Hg (Hq _ E))).
Defined.
