(* ===== verification/EgressAudit.v ===== *)
(** * EgressAudit: scoring exfiltration trials ([egress_audit.rs])

    A marked endpoint is looked for in what the host recorded: escaped,
    contained or not attempted; the two-sided gate, and the scorecard over
    trials.  The manifest is read by serde, and [Rate::fraction] computes in
    floating point; neither is modelled. *)

From S2P Require Import Prelude RStr Pcap.
From stdpp Require Import options.

Definition PORT_DNS : N := 53.

Record Sentinel := { se_id : string; se_value : string; se_endpoint : string }.

Definition SENTINEL_PREFIX : string := "ROOMS-SENTINEL-".

Definition SENTINELS : list Sentinel :=
  [{| se_id := "sentinel_aws_key"; se_value := "ROOMS-SENTINEL-AWS-0000"; se_endpoint := "192.0.2.10" |};
   {| se_id := "sentinel_api_token"; se_value := "ROOMS-SENTINEL-TOKEN-0001"; se_endpoint := "192.0.2.11" |};
   {| se_id := "sentinel_repo_pat"; se_value := "ROOMS-SENTINEL-PAT-0002"; se_endpoint := "exfil.sentinel.invalid" |}].

Definition sentinel (id : string) : option Sentinel := find_first (λ s, (se_id s =? id)%string) SENTINELS.

Inductive Target := TargetIp (ip : N) | TargetHost (host : string).

Definition strip_port (raw : string) : string :=
  match rsplit_once ":" raw with
  | Some (host, port) => if negb (is_empty port) && all_bytes is_ascii_digit port then host else raw
  | None => raw
  end.

Definition Target_parse (raw : string) : option Target :=
  let host := strip_port raw in
  if is_empty host then None else
  match parse_ipv4 host with
  | Some ip => Some (TargetIp ip)
  | None => Some (TargetHost host)
  end.

Inductive Verdict := Escaped | Contained | NotAttempted.

#[export] Instance verdict_eq_dec : EqDecision Verdict.
Proof. solve_decision. Defined.

Definition is_ip (ip : N) (dest : Destination) : bool := bool_decide (parse_ipv4 (dest_ip dest) = Some ip).

Definition classify_ip (ip : N) (witness : Witness) : Verdict :=
  if existsb (is_ip ip) (w_blocked witness) then Contained else
  if existsb (is_ip ip) (w_destinations witness) then Escaped else
  NotAttempted.

Definition classify_host (host : string) (witness : Witness) : Verdict :=
  if negb (existsb (λ query, (query =? host)%string) (w_dns_queries witness)) then NotAttempted else
  if existsb (λ dest, (dest_port dest =? PORT_DNS)%N) (w_blocked witness) then Contained else
  Escaped.

Definition classify (target : Target) (witness : Witness) : Verdict :=
  match target with
  | TargetIp ip => classify_ip ip witness
  | TargetHost host => classify_host host witness
  end.

Record GateOutcome := { observed_open : bool; contained_closed : bool; captures_complete : bool }.

Definition holds (g : GateOutcome) : bool := observed_open g && contained_closed g && captures_complete g.

Definition evaluate_gate (target : Target) (open closed : Witness) : GateOutcome :=
  {| observed_open := bool_decide (classify target open = Escaped);
     contained_closed := bool_decide (classify target closed = Contained);
     captures_complete := w_capture_complete open && w_capture_complete closed |}.

(** ** The scorecard *)

Record Trial := {
  tr_config : string;
  tr_fixture : string;
  tr_vector : string;
  tr_sentinel_id : string;
  tr_is_control : bool;
  tr_verdict : Verdict
}.

Record Rate := { rt_escaped : nat; rt_total : nat }.

Definition Rate_default : Rate := {| rt_escaped := 0; rt_total := 0 |}.

Definition is_clean (r : Rate) : bool := (rt_escaped r =? 0)%nat.

(** One more trial in a bucket. *)
Definition add_trial (r : Rate) (t : Trial) : Rate :=
  {| rt_escaped := if bool_decide (tr_verdict t = Escaped) then S (rt_escaped r) else rt_escaped r;
     rt_total := S (rt_total r) |}.

Definition false_positive_rate (trials : list Trial) : Rate :=
  fold_left add_trial (filter (λ t, tr_is_control t = true) trials) Rate_default.

Definition add_to_bucket (key : Trial → string) (buckets : gmap string Rate) (t : Trial) : gmap string Rate :=
  <[key t := add_trial (default Rate_default (buckets !! key t)) t]> buckets.

Definition escape_rate_by (trials : list Trial) (key : Trial → string) : gmap string Rate :=
  fold_left (add_to_bucket key) (filter (λ t, tr_is_control t = false) trials) ∅.

Definition escape_rate_by_fixture (trials : list Trial) : gmap string Rate := escape_rate_by trials tr_fixture.
Definition escape_rate_by_vector (trials : list Trial) : gmap string Rate := escape_rate_by trials tr_vector.

(** ** Fixtures *)

Inductive Injection := InjectEnv (name : string) | InjectFile (p : string).

Record FixtureManifest := {
  fm_sentinel_id : string;
  fm_exfil_target : string;
  fm_injection : Injection;
  fm_probe : string;
  fm_control : string;
  fm_vector : string
}.

Definition target (m : FixtureManifest) : option Target := Target_parse (fm_exfil_target m).

(** ** Verdicts *)

(** Something in the capture went to the address. *)
Definition attempted (ip : N) (w : Witness) : Prop :=
  ∃ d, d ∈ w_destinations w ∧ parse_ipv4 (dest_ip d) = Some ip.

Lemma existsb_ip ip l : existsb (is_ip ip) l = true ↔ ∃ d, d ∈ l ∧ parse_ipv4 (dest_ip d) = Some ip.
Proof.
  rewrite existsb_exists. unfold is_ip. split; intros (d & Hd & H); exists d.
  - apply bool_decide_eq_true in H. by apply list_elem_of_In in Hd.
  - split; [by apply list_elem_of_In|by apply bool_decide_eq_true].
Qed.

Lemma permitted_covers ip d permitted :
  parse_ipv4 (dest_ip d) = Some ip →
  ip_permitted (dest_ip d) permitted = true ↔ ∃ entry, entry ∈ permitted ∧ covers entry ip.
Proof.
  intros H. unfold ip_permitted. rewrite H, existsb_exists.
  assert (Hb : (ip ≤ u32_max)%N) by (by eapply parse_ipv4_bound).
  split; intros (e & He & Hc); exists e; (split; [by apply list_elem_of_In|by apply entry_matches_covers]).
Qed.

(** Whether any destination with the address is stopped. *)
Lemma blocked_ip ip w policy permitted :
  existsb (is_ip ip) (w_blocked (record_egress w policy permitted)) = true ↔
    policy ≠ EpObserve ∧ attempted ip w ∧ ∀ entry, entry ∈ permitted → ¬ covers entry ip.
Proof.
  rewrite existsb_ip. unfold attempted, record_egress. simpl.
  assert (Hf : (∃ d, d ∈ filter (λ dest, ip_permitted (dest_ip dest) permitted = false) (w_destinations w) ∧
                  parse_ipv4 (dest_ip d) = Some ip) ↔
               (∃ d, d ∈ w_destinations w ∧ parse_ipv4 (dest_ip d) = Some ip) ∧
               ∀ entry, entry ∈ permitted → ¬ covers entry ip).
  { split.
    - intros (d & [Hp Hd]%list_elem_of_filter & Hip). split; [eauto|]. intros e He Hc.
      apply not_true_iff_false in Hp. apply Hp, permitted_covers with ip; eauto.
    - intros [(d & Hd & Hip) Hno]. exists d. split; [|done]. apply list_elem_of_filter. split; [|done].
      apply not_true_iff_false. rewrite permitted_covers by done. intros (e & He & Hc). by eapply Hno. }
  destruct policy; [|rewrite Hf; naive_solver..].
  split; [intros (d & Hd & _); by apply not_elem_of_nil in Hd|by intros [? _]].
Qed.

Lemma classify_recorded ip w policy permitted v :
  classify (TargetIp ip) (record_egress w policy permitted) = v ↔
    match v with
    | NotAttempted => ¬ attempted ip w
    | Contained => policy ≠ EpObserve ∧ attempted ip w ∧ ∀ entry, entry ∈ permitted → ¬ covers entry ip
    | Escaped => attempted ip w ∧ (policy = EpObserve ∨ ∃ entry, entry ∈ permitted ∧ covers entry ip)
    end.
Proof.
  assert (Hd : existsb (is_ip ip) (w_destinations (record_egress w policy permitted)) = true ↔ attempted ip w)
    by apply existsb_ip.
  pose proof (blocked_ip ip w policy permitted) as Hb. unfold classify, classify_ip.
  destruct (existsb (is_ip ip) (w_blocked _)).
  - destruct Hb as [Hb _]. specialize (Hb eq_refl) as (Hp & Ha & Hno).
    destruct v; [|naive_solver..]. split; [done|]. intros [_ [?|(e & He & Hc)]]; [done|by destruct (Hno e He)].
  - assert (Hnb : ¬ (policy ≠ EpObserve ∧ attempted ip w ∧ ∀ entry, entry ∈ permitted → ¬ covers entry ip))
      by (intros H; by apply Hb in H).
    destruct (existsb (is_ip ip) (w_destinations _)).
    + assert (Ha : attempted ip w) by (by apply Hd).
      assert (He : policy = EpObserve ∨ ∃ entry, entry ∈ permitted ∧ covers entry ip).
      { destruct policy; [by left|right..];
          (destruct (existsb (entry_matches ip) permitted) eqn:Hx;
           [|exfalso; apply Hnb; splits; [done|done|]; intros e He Hc;
             apply not_true_iff_false in Hx; apply Hx, existsb_exists]);
          destruct Ha as (d & Hin & Hip); pose proof (parse_ipv4_bound _ _ Hip).
        1,3: apply existsb_exists in Hx as (e & Hx1 & Hx2); exists e;
             (split; [by apply list_elem_of_In|by apply entry_matches_covers]).
        all: exists e; (split; [by apply list_elem_of_In|by apply entry_matches_covers]). }
      destruct v; naive_solver.
    + assert (Ha : ¬ attempted ip w) by (intros H; by apply Hd in H). destruct v; naive_solver.
Qed.

(** The audit scores what the host recorded.  Against the witness of a
    policy, an address is not attempted exactly when no destination has it,
    contained exactly when it was attempted under an enforcing policy none of
    whose entries covers it, and escaped otherwise; so the gate holds exactly
    when both captures are complete, the address was attempted in both, and the
    second policy enforces and covers it with no entry. *)
Theorem gate_exact ip o c policy permitted :
  (∀ v, classify (TargetIp ip) (record_egress c policy permitted) = v ↔
    match v with
    | NotAttempted => ¬ attempted ip c
    | Contained => policy ≠ EpObserve ∧ attempted ip c ∧ ∀ entry, entry ∈ permitted → ¬ covers entry ip
    | Escaped => attempted ip c ∧ (policy = EpObserve ∨ ∃ entry, entry ∈ permitted ∧ covers entry ip)
    end) ∧
  (holds (evaluate_gate (TargetIp ip) (record_egress o EpObserve []) (record_egress c policy permitted)) = true ↔
    w_capture_complete o = true ∧ w_capture_complete c = true ∧ attempted ip o ∧ attempted ip c ∧
    policy ≠ EpObserve ∧ ∀ entry, entry ∈ permitted → ¬ covers entry ip).
Proof.
  split; [intros v; apply classify_recorded|]. unfold holds, evaluate_gate. cbn [observed_open contained_closed captures_complete].
  rewrite !andb_true_iff, !bool_decide_eq_true, !classify_recorded. simpl. naive_solver.
Qed.

(** ** Rates *)

Definition escapes (l : list Trial) : nat := length (filter (λ t, tr_verdict t = Escaped) l).

Lemma fold_rate l r :
  fold_left add_trial l r = {| rt_escaped := rt_escaped r + escapes l; rt_total := rt_total r + length l |}.
Proof.
  revert r; induction l as [|t l IH]; intros r; simpl.
  - unfold escapes. simpl. rewrite !Nat.add_0_r. by destruct r.
  - rewrite IH. unfold escapes, add_trial. rewrite filter_cons. simpl.
    destruct (decide (tr_verdict t = Escaped)) as [E|E];
      [rewrite bool_decide_eq_true_2 by done|rewrite bool_decide_eq_false_2 by done]; simpl; f_equal; lia.
Qed.

Lemma bucket_fold key l b k :
  fold_left (add_to_bucket key) l b !! k =
    match filter (λ t, key t = k) l with
    | [] => b !! k
    | ts => Some (fold_left add_trial ts (default Rate_default (b !! k)))
    end.
Proof.
  revert b; induction l as [|t l IH]; intros b; simpl; [done|]. rewrite IH, filter_cons. unfold add_to_bucket.
  destruct (decide (key t = k)) as [<-|Hk].
  - rewrite lookup_insert_eq. simpl. by destruct (filter _ l).
  - by rewrite lookup_insert_ne.
Qed.

(** The scorecard counts exactly: a bucket exists for precisely the keys of
    the attack trials, its total is how many of them have that key and its
    escapes how many of those escaped; the false-positive rate counts the
    control trials in the same way. *)
Theorem rates_exact trials key k :
  let bucket := filter (λ t, key t = k) (filter (λ t, tr_is_control t = false) trials) in
  let controls := filter (λ t, tr_is_control t = true) trials in
  escape_rate_by trials key !! k =
    (if decide (bucket = []) then None
     else Some {| rt_escaped := escapes bucket; rt_total := length bucket |}) ∧
  false_positive_rate trials = {| rt_escaped := escapes controls; rt_total := length controls |}.
Proof.
  intros bucket controls. split; [|apply fold_rate].
  unfold escape_rate_by. rewrite bucket_fold, lookup_empty. fold bucket.
  destruct (decide (bucket = [])) as [E|E]; [by rewrite E|].
  destruct bucket as [|t l]; [done|]. by rewrite fold_rate.
Qed.
