(* ===== verification/Matrix.v ===== *)
(** * Matrix: the manifest of a command matrix ([matrix.rs])

    A manifest is read once, bounded, and admitted only when every case is well
    formed.  Opening and reading the file are one call, since both fail with the
    same error; [serde_json] and SHA-256 are parameters. *)

From S2P Require Import Prelude RStr Fs.
From stdpp Require Import options.

Definition SCHEMA : string := "rooms.matrix.v1".
Definition MAX_MANIFEST_BYTES : N := 128 * 1024.
Definition MAX_CASES : nat := 8.
Definition MAX_CASE_ID_BYTES : nat := 64.
Definition MAX_COMMAND_BYTES : N := 16 * 1024.

Definition size (s : string) : N := N.of_nat (len s).

Record Case := { cs_id : string; cs_command : string; command_sha256 : string }.
Record Manifest := { mn_sha256 : string; mn_cases : list Case }.

(** [as u8]. *)
Definition count (m : Manifest) : N := (N.of_nat (length (mn_cases m)) mod 256)%N.

Inductive MatrixError :=
| MxRead (p : path) (source : io_error)
| MxTooLarge (max_bytes : N)
| MxParse (e : string)
| MxSchema (actual : string)
| MxCaseCount (actual : nat)
| MxInvalidCaseId (id : string)
| MxDuplicateCaseId (id : string)
| MxEmptyCommand (id : string)
| MxCommandTooLarge (id : string) (max_bytes : N)
| MxCommandContainsNul (id : string)
| MxCanonicalize (e : string).

Record WireCase := { wc_id : string; wc_command : string }.
Record WireManifest := { wm_schema : string; wm_cases : list WireCase }.

Definition valid_case_id (id : string) : bool :=
  if is_empty id || (MAX_CASE_ID_BYTES <? len id)%nat then false else
  match id with
  | EmptyString => false
  | String first rest =>
      if negb (is_ascii_lowercase first) && negb (is_ascii_digit first) then false
      else all_bytes (λ b, is_ascii_lowercase b || is_ascii_digit b || (b =? "_")%char || (b =? "-")%char) rest
  end.

(** The ids seen, with this one. *)
Definition validate_case (case : WireCase) (ids : list string) : result MatrixError (list string) :=
  let id := wc_id case in
  if negb (valid_case_id id) then Err (MxInvalidCaseId id) else
  if bool_decide (id ∈ ids) then Err (MxDuplicateCaseId id) else
  if is_empty (trim (wc_command case)) then Err (MxEmptyCommand id) else
  if (MAX_COMMAND_BYTES <? size (wc_command case))%N then Err (MxCommandTooLarge id MAX_COMMAND_BYTES) else
  if contains_byte "000" (wc_command case) then Err (MxCommandContainsNul id) else
  Ok (id :: ids).

Fixpoint validate_cases (cases : list WireCase) (ids : list string) : result MatrixError unit :=
  match cases with
  | [] => Ok ()
  | case :: cases => match validate_case case ids with Err e => Err e | Ok ids => validate_cases cases ids end
  end.

Definition validate (m : WireManifest) : result MatrixError unit :=
  if negb (wm_schema m =? SCHEMA)%string then Err (MxSchema (wm_schema m)) else
  if negb ((1 <=? length (wm_cases m))%nat && (length (wm_cases m) <=? MAX_CASES)%nat) then
    Err (MxCaseCount (length (wm_cases m)))
  else validate_cases (wm_cases m) [].

Section matrix.
  (** The deserializer with its end check, the serializer, and the lower-case
      hexadecimal SHA-256. *)
  Variable parse : string → result string WireManifest.
  Variable to_vec : WireManifest → result string string.
  Variable sha256 : string → string.

Definition digest (bytes : string) : string := "sha256:" +:+ sha256 bytes.

(** What is done with the bytes read. *)
Definition admit_bytes (bytes : string) : result MatrixError Manifest :=
  if (MAX_MANIFEST_BYTES <? size bytes)%N then Err (MxTooLarge MAX_MANIFEST_BYTES) else
  match parse bytes with
  | Err e => Err (MxParse e)
  | Ok wire =>
      match validate wire with
      | Err e => Err e
      | Ok _ =>
          match to_vec wire with
          | Err e => Err (MxCanonicalize e)
          | Ok canonical =>
              Ok {| mn_sha256 := digest canonical;
                    mn_cases := (λ c, {| cs_id := wc_id c; cs_command := wc_command c;
                                         command_sha256 := digest (wc_command c) |}) <$> wm_cases wire |}
          end
      end
  end.

Definition load (p : path) : io MatrixError Manifest :=
  let! bytes := lift_err (MxRead p) (read_following p) in
  of_result (admit_bytes (take_bytes (N.to_nat (MAX_MANIFEST_BYTES + 1)) bytes)).

(** ** What is admitted *)

Definition case_ok (c : WireCase) : Prop :=
  valid_case_id (wc_id c) = true ∧ trim (wc_command c) ≠ "" ∧ (size (wc_command c) ≤ 16384)%N ∧ lacks "000" (wc_command c) = true.

Definition manifest_ok (w : WireManifest) : Prop :=
  wm_schema w = "rooms.matrix.v1" ∧ 1 ≤ length (wm_cases w) ≤ 8 ∧ NoDup (wc_id <$> wm_cases w) ∧ Forall case_ok (wm_cases w).

Lemma is_empty_true s : is_empty s = true ↔ s = "".
Proof. by destruct s. Qed.

Lemma contains_byte_lacks a s : contains_byte a s = negb (lacks a s).
Proof. done. Qed.

Lemma validate_case_ok c ids ids' :
  validate_case c ids = Ok ids' ↔ case_ok c ∧ (wc_id c ∉ ids) ∧ ids' = wc_id c :: ids.
Proof.
  unfold validate_case, case_ok. rewrite contains_byte_lacks. change MAX_COMMAND_BYTES with 16384%N.
  destruct (valid_case_id (wc_id c)); cbn [negb]; [|naive_solver].
  destruct (bool_decide_reflect (wc_id c ∈ ids)) as [|Hn]; [naive_solver|].
  rewrite <- (is_empty_true (trim _)). destruct (is_empty (trim _)); [naive_solver|].
  destruct (N.ltb_spec 16384 (size (wc_command c))) as [H|H]; [split; [done|lia]|].
  destruct (lacks "000" (wc_command c)); cbn [negb]; naive_solver.
Qed.

Lemma validate_cases_ok cases ids :
  validate_cases cases ids = Ok () ↔
    Forall case_ok cases ∧ NoDup (wc_id <$> cases) ∧ (∀ c, c ∈ cases → wc_id c ∉ ids).
Proof.
  revert ids; induction cases as [|c cases IH]; intros ids; simpl.
  - split; [intros _; splits; [done|constructor|]; intros c H; by apply not_elem_of_nil in H|done].
  - rewrite Forall_cons, NoDup_cons. destruct (validate_case c ids) as [ids'|e] eqn:E.
    + apply validate_case_ok in E as (Hc & Hn & ->). rewrite IH. set_unfold. naive_solver.
    + split; [done|]. intros ([Hc _] & _ & Hids).
      assert (H : validate_case c ids = Ok (wc_id c :: ids))
        by (apply validate_case_ok; splits; [done|apply Hids; set_solver|done]).
      congruence.
Qed.

Lemma validate_ok w : validate w = Ok () ↔ manifest_ok w.
Proof.
  unfold validate, manifest_ok. destruct (String.eqb_spec (wm_schema w) SCHEMA) as [H|H]; cbn [negb];
    [|by split; [|intros [? _]]].
  change MAX_CASES with 8.
  destruct (Nat.leb_spec 1 (length (wm_cases w))), (Nat.leb_spec (length (wm_cases w)) 8); cbn [andb negb];
    try (split; [done|lia]).
  rewrite validate_cases_ok. split; [intros (? & ? & _)|intros (_ & _ & ? & ?)]; splits; try done; try lia.
  intros c _ Hc. by apply not_elem_of_nil in Hc.
Qed.

Lemma admit_bytes_ok bytes m :
  admit_bytes bytes = Ok m ↔
    (size bytes ≤ 131072)%N ∧ ∃ w c, parse bytes = Ok w ∧ manifest_ok w ∧ to_vec w = Ok c ∧
      m = {| mn_sha256 := digest c;
             mn_cases := (λ c, {| cs_id := wc_id c; cs_command := wc_command c;
                                  command_sha256 := digest (wc_command c) |}) <$> wm_cases w |}.
Proof.
  unfold admit_bytes. change MAX_MANIFEST_BYTES with 131072%N.
  destruct (N.ltb_spec 131072 (size bytes)); [split; [done|lia]|].
  destruct (parse bytes) as [w|]; [|naive_solver].
  pose proof (validate_ok w) as Hv. destruct (validate w) as [[]|e].
  - destruct Hv as [Hv _]. specialize (Hv eq_refl). destruct (to_vec w) as [c|e] eqn:Ec.
    + split; [intros [= <-]; split; [done|]; by exists w, c|].
      intros (_ & w' & c' & [= <-] & _ & Hc' & ->). rewrite Ec in Hc'. by injection Hc' as <-.
    + split; [done|]. intros (_ & w' & c' & [= <-] & _ & Hc' & _). congruence.
  - split; [done|]. intros (_ & w' & c & [= <-] & Hm & _). by apply Hv in Hm.
Qed.

Lemma take_bytes_all n s : len s ≤ n → take_bytes n s = s.
Proof.
  revert s; induction n as [|n IH]; intros [|a s]; simpl; intros H; try done; [lia|]. by rewrite IH by lia.
Qed.

Lemma len_take_bytes n s : len (take_bytes n s) = min n (len s).
Proof. revert s; induction n as [|n IH]; intros [|a s]; simpl; auto. Qed.

(** The bound on what is read changes nothing. *)
Lemma admit_taken s m :
  admit_bytes (take_bytes (N.to_nat (MAX_MANIFEST_BYTES + 1)) s) = Ok m ↔ admit_bytes s = Ok m.
Proof.
  change (MAX_MANIFEST_BYTES + 1)%N with 131073%N.
  destruct (decide (size s ≤ 131072)%N) as [H|H]; unfold size in H.
  - by rewrite take_bytes_all by lia.
  - split; intros [Hs _]%admit_bytes_ok; unfold size in *; [rewrite len_take_bytes in Hs|]; lia.
Qed.

#[local] Opaque MAX_MANIFEST_BYTES.

(** The manifest the file of a path holds. *)
Definition admitted (t : tree) (p : path) (m : Manifest) : Prop :=
  ∃ q s w c, resolve_path t p = Ok q ∧ file t q = Some s ∧ (size s ≤ 131072)%N ∧ parse s = Ok w ∧ manifest_ok w ∧
    to_vec w = Ok c ∧ mn_sha256 m = "sha256:" +:+ sha256 c ∧
    mn_cases m = (λ c, {| cs_id := wc_id c; cs_command := wc_command c;
                          command_sha256 := "sha256:" +:+ sha256 (wc_command c) |}) <$> wm_cases w.

Lemma admitted_bytes t p m :
  admitted t p m ↔ ∃ q s, resolve_path t p = Ok q ∧ file t q = Some s ∧ admit_bytes s = Ok m.
Proof.
  unfold admitted. setoid_rewrite admit_bytes_ok. split.
  - intros (q & s & w & c & ? & ? & ? & ? & ? & ? & Hs & Hc). exists q, s. splits; [done..|].
    exists w, c. splits; [done..|]. destruct m; simpl in *. by subst.
  - intros (q & s & ? & ? & ? & w & c & ? & ? & ? & ->). exists q, s, w, c. by splits.
Qed.

(** C40.  A matrix manifest is admitted exactly when its file holds at most 128
    KiB that parse to the one schema with one to eight cases, their ids distinct
    and well formed, their commands not blank, at most 16 KiB and without NUL;
    the manifest owns those very cases with their digests, and their number fits
    the byte it is counted in.  Loading never changes a file. *)
Theorem load_admits t p :
  wp (load p) (λ o t', t' = t ∧ ∀ m, o = Done (Ok m) → admitted t p m) t ∧
  (∀ m, runs (load p) t (Ok m) t ↔ admitted t p m) ∧
  (∀ m, admitted t p m → count m = N.of_nat (length (mn_cases m)) ∧ (1 ≤ count m ≤ 8)%N).
Proof.
  splits.
  - unfold load. apply wp_bind, wp_lift_err, wp_read_following; simpl; [|done|done].
    intros q s Hq Hs. apply wp_of_result; split; [done|]. intros m [= H].
    apply admitted_bytes. exists q, s. splits; [done..|]. by apply admit_taken.
  - intros m. rewrite admitted_bytes. setoid_rewrite <- admit_taken.
    pose proof (runs_atomic (λ t, match resolve_path t p with
      | Err k => (Err (io_err k), t)
      | Ok q => match t !! q with Some (File s) => (Ok s, t) | _ => (Err (io_err IsADirectory), t) end end) t) as Hr.
    fold (read_following p) in Hr. simpl in Hr. unfold load. split.
    + intros H. destruct (resolve_path t p) as [q|k].
      2: { apply runs_lift_err with (f := MxRead p) in Hr. eapply runs_bind_err in Hr.
           by destruct (runs_det _ _ _ _ _ _ H Hr). }
      destruct (file t q) as [s|] eqn:Hs.
      * rewrite (proj1 (file_Some _ _ _) Hs) in Hr. apply runs_lift_err with (f := MxRead p) in Hr. simpl in Hr.
        exists q, s. splits; [done..|]. unfold runs, bind in H, Hr. rewrite Hr in H.
        unfold of_result in H. by injection H.
      * assert (Hn : runs (read_following p) t (Err (io_err IsADirectory)) t).
        { unfold file in Hs. by destruct (t !! q) as [[]|]. }
        apply runs_lift_err with (f := MxRead p) in Hn. eapply runs_bind_err in Hn.
        by destruct (runs_det _ _ _ _ _ _ H Hn).
    + intros (q & s & Hq & Hs & Ha). rewrite Hq, (proj1 (file_Some _ _ _) Hs) in Hr.
      apply runs_lift_err with (f := MxRead p) in Hr. simpl in Hr.
      eapply runs_bind; [exact Hr|]. unfold runs, of_result. by rewrite Ha.
  - intros m (q & s & w & c & _ & _ & _ & _ & (_ & Hl & _) & _ & _ & Hc). unfold count. rewrite Hc, length_fmap.
    rewrite N.mod_small by lia. lia.
Qed.

End matrix.
