(* ===== verification/Lifecycle.v ===== *)
(** * Lifecycle: the event stream of a run ([lifecycle.rs])

    The NDJSON appender over the file tree with faults, and the readiness clock.
    The writer and the clock are passed along as the state their locks guard; a
    poisoned lock needs a panic and is left out, as is [flush], which does
    nothing on a [File].  [writeln!] on a file writes the line and its newline
    with one call each.  Times are texts or nanoseconds, the serializer is a
    parameter. *)

From S2P Require Import Prelude RStr Fs.
From stdpp Require Import options.

Inductive WorkloadStatus := WlSucceeded | WlFailed | WlTimedOut | WlCancelled.

Inductive Event :=
| SlotAllocated (slot : N) (tap : string)
| PoolFull (cap : N)
| VmmStarted (pid : option N)
| ToolstoreAttached (sha256 : string)
| BootFailed (error : string)
| GuestReady
| SshReady
| ResumeReady
| GuestUnreachable (error : string)
| SecretsDelivered
| SecretsFailed (error : string)
| WorkloadStarted (command : list string)
| WorkloadExited (exit_code : Z) (status : WorkloadStatus)
| WorkloadFailed (error : string)
| CollectionStarted
| CollectionDone
| CollectionFailed (error : string)
| WitnessStarted (tap : string)
| WitnessDone (destinations : nat) (complete : bool)
| CleanupDone
| CleanupFailed (error : string).

Record Envelope := { en_seq : N; en_ts : string; en_room_id : string; en_event : Event }.

Record ReadinessTiming := { dispatch_to_resume_ack : option N; dispatch_to_ssh_ready : option N }.

Record ReadinessClock := { rc_started : N; rc_timing : ReadinessTiming }.

Record Writer := { wt_file : path; wt_seq : N; wt_room_id : string }.

Record Lifecycle := { lc_writer : option Writer; lc_readiness : option ReadinessClock }.

(** [Option::get_or_insert]. *)
Definition get_or_insert {A : Type} (o : option A) (a : A) : option A := Some (default a o).

Definition observe (now : N) (event : Event) (c : ReadinessClock) : ReadinessClock :=
  let elapsed := (now - rc_started c)%N in
  let timing := rc_timing c in
  match event with
  | ResumeReady =>
      {| rc_started := rc_started c;
         rc_timing := {| dispatch_to_resume_ack := get_or_insert (dispatch_to_resume_ack timing) elapsed;
                         dispatch_to_ssh_ready := dispatch_to_ssh_ready timing |} |}
  | SshReady =>
      {| rc_started := rc_started c;
         rc_timing := {| dispatch_to_resume_ack := dispatch_to_resume_ack timing;
                         dispatch_to_ssh_ready := get_or_insert (dispatch_to_ssh_ready timing) elapsed |} |}
  | _ => c
  end.

Definition disabled : Lifecycle := {| lc_writer := None; lc_readiness := None |}.

Definition measured (now : N) : Lifecycle :=
  {| lc_writer := None;
     lc_readiness := Some {| rc_started := now;
                             rc_timing := {| dispatch_to_resume_ack := None; dispatch_to_ssh_ready := None |} |} |}.

Definition is_enabled (l : Lifecycle) : bool := bool_decide (is_Some (lc_writer l)).

Definition readiness (l : Lifecycle) : option ReadinessTiming := rc_timing <$> lc_readiness l.

(** [u64] addition, as a release build has it. *)
Definition succ_u64 (n : N) : N := ((n + 1) mod 18446744073709551616)%N.

(** The directory is opened, then synced. *)
Definition sync_parent_dir (p : path) : io io_error unit :=
  let! _ := atomic (λ t, if parent_is_dir t p then (Ok (), t) else (Err (io_err NotFound), t)) in
  sync_all (removelast p).

Definition create (p : path) (room_id : string) : io io_error Lifecycle :=
  do! open_create true p in
  do! sync_parent_dir p in
  ret {| lc_writer := Some {| wt_file := p; wt_seq := 0; wt_room_id := room_id |}; lc_readiness := None |}.

Section lifecycle.
  (** [serde_json::to_string]. *)
  Variable render : Envelope → result string string.

Definition record_of (w : Writer) (ts : string) (event : Event) : Envelope :=
  {| en_seq := succ_u64 (wt_seq w); en_ts := ts; en_room_id := wt_room_id w; en_event := event |}.

Definition append (w : Writer) (ts : string) (event : Event) : io io_error Writer :=
  let! line := of_result (map_err (IoError OtherKind) (render (record_of w ts event))) in
  do! write_all (wt_file w) line in
  do! write_all (wt_file w) (String nl EmptyString) in
  do! sync_all (wt_file w) in
  ret {| wt_file := wt_file w; wt_seq := succ_u64 (wt_seq w); wt_room_id := wt_room_id w |}.

(** [now] and [ts] are what the two clocks read. *)
Definition emit (now : N) (ts : string) (l : Lifecycle) (event : Event) : io infallible Lifecycle :=
  let clock := observe now event <$> lc_readiness l in
  match lc_writer l with
  | None => ret {| lc_writer := None; lc_readiness := clock |}
  | Some w =>
      let! appended := attempt (append w ts event) in
      ret {| lc_writer := Some (match appended with Ok w => w | Err _ => w end); lc_readiness := clock |}
  end.

(** A run that reports these events, each with what the clocks read. *)
Fixpoint emit_all (l : Lifecycle) (events : list (N * string * Event)) : io infallible Lifecycle :=
  match events with
  | [] => ret l
  | (now, ts, event) :: events => let! l := emit now ts l event in emit_all l events
  end.

(** ** The stream *)

#[local] Instance fault_eq_dec : EqDecision fault.
Proof. solve_decision. Defined.

(** How the next call ends. *)
Definition next_call (l : list fault) : fault * list fault :=
  match l with [] => (Pass, []) | f :: l => (f, l) end.

(** What a write that ends this way leaves of its text. *)
Definition cut (f : fault) (s : string) : string :=
  match f with Pass => s | Short n _ | HaltShort n => take_bytes n s | Fail _ | Halt => EmptyString end.

(** Whether the process is over. *)
Definition dies (f : fault) : bool := match f with Halt | HaltShort _ => true | _ => false end.

Lemma syscall_next {A : Type} (part : nat → tree → tree) (act : tree → result io_error A * tree) t l f l1 :
  next_call l = (f, l1) →
  match f with
  | Pass => syscall part act (World t l) = (Done (fst (act t)), World (snd (act t)) l1)
  | Fail e => syscall part act (World t l) = (Done (Err (inject e)), World t l1)
  | Short n e => syscall part act (World t l) = (Done (Err (inject e)), World (part n t) l1)
  | Halt => syscall part act (World t l) = (Crashed, World t l1)
  | HaltShort n => syscall part act (World t l) = (Crashed, World (part n t) l1)
  end.
Proof. intros H. unfold syscall. destruct l as [|f' l]; injection H as <- <-; [|destruct f']; simpl; try done; by destruct (act t). Qed.

Section stream.
  Context (room_id : string).

(** The line of an event after [n] kept ones. *)
Definition line_of (n : N) (ts : string) (event : Event) : result string string :=
  render {| en_seq := succ_u64 n; en_ts := ts; en_room_id := room_id; en_event := event |}.

(** A line is written by three calls, and what is written is known from the first
    that does not pass: it leaves a part of the line, the line and a part of its
    end, or, when only the sync fails, all of it. *)
Inductive written (line : string) (l : list fault) : fault → string → list fault → Prop :=
| written_whole l1 l2 l3 :
    next_call l = (Pass, l1) → next_call l1 = (Pass, l2) → next_call l2 = (Pass, l3) →
    written line l Pass (line +:+ String nl EmptyString) l3
| written_cut f l1 : next_call l = (f, l1) → f ≠ Pass → written line l f (cut f line) l1
| written_unended f l1 l2 :
    next_call l = (Pass, l1) → next_call l1 = (f, l2) → f ≠ Pass →
    written line l f (line +:+ cut f (String nl EmptyString)) l2
| written_unsynced f l1 l2 l3 :
    next_call l = (Pass, l1) → next_call l1 = (Pass, l2) → next_call l2 = (f, l3) → f ≠ Pass →
    written line l f (line +:+ String nl EmptyString) l3.

(** [stream l n events over n' s l']: with calls that end as in [l], reporting
    [events] from the number [n] leaves the text [s], the number [n'] and the calls
    [l'], the process over or not.  An event whose calls all pass is kept and takes
    the next number; one with a call that fails, or that the serializer refuses,
    leaves its number to the next. *)
Inductive stream : list fault → N → list (N * string * Event) → bool → N → string → list fault → Prop :=
| stream_nil l n : stream l n [] false n EmptyString l
| stream_kept l n now ts event line x l1 events over n' s l2 :
    line_of n ts event = Ok line → written line l Pass x l1 → stream l1 (succ_u64 n) events over n' s l2 →
    stream l n ((now, ts, event) :: events) over n' (x +:+ s) l2
| stream_lost l n now ts event line f x l1 events over n' s l2 :
    line_of n ts event = Ok line → written line l f x l1 → f ≠ Pass → dies f = false → stream l1 n events over n' s l2 →
    stream l n ((now, ts, event) :: events) over n' (x +:+ s) l2
| stream_unrendered l n now ts event e events over n' s l2 :
    line_of n ts event = Err e → stream l n events over n' s l2 →
    stream l n ((now, ts, event) :: events) over n' s l2
| stream_died l n now ts event line f x l1 events :
    line_of n ts event = Ok line → written line l f x l1 → dies f = true →
    stream l n ((now, ts, event) :: events) true n x l1.

(** One line for each event, numbered from [k]. *)
Fixpoint numbered (k : N) (events : list (N * string * Event)) : string :=
  match events with
  | [] => EmptyString
  | (_, ts, event) :: events =>
      match render {| en_seq := k; en_ts := ts; en_room_id := room_id; en_event := event |} with
      | Ok line => line +:+ String nl EmptyString
      | Err _ => EmptyString
      end +:+ numbered (k + 1) events
  end.

Lemma succ_u64_small n : (n + 1 < 2 ^ 64)%N → succ_u64 n = (n + 1)%N.
Proof. intros H. unfold succ_u64. by rewrite N.mod_small. Qed.

Lemma written_passes line l f x l1 :
  written line l f x l1 → Forall (λ f, f = Pass) l → f = Pass ∧ x = line +:+ String nl EmptyString ∧ Forall (λ f, f = Pass) l1.
Proof.
  assert (Hnext : ∀ l f l1, Forall (λ f, f = Pass) l → next_call l = (f, l1) → f = Pass ∧ Forall (λ f, f = Pass) l1).
  { intros l0 f0 l2 H. destruct H as [|f' l' -> H]; intros [= <- <-]; by split. }
  intros Hw Hl. destruct Hw as [l1 l2 l3 H1 H2 H3|f l1 H1 Hf|f l1 l2 H1 H2 Hf|f l1 l2 l3 H1 H2 H3 Hf];
    repeat match goal with
    | H : next_call ?l = (_, _), Hl : Forall _ ?l |- _ => destruct (Hnext _ _ _ Hl H) as [? ?]; clear H
    end; by split_and!.
Qed.

(** With no failure nothing is lost. *)
Lemma stream_clean l n events over n' s l2 :
  stream l n events over n' s l2 → Forall (λ f, f = Pass) l → (∀ r, is_ok (render r) = true) →
  (n + N.of_nat (length events) < 2 ^ 64)%N →
  over = false ∧ n' = (n + N.of_nat (length events))%N ∧ s = numbered (n + 1) events.
Proof.
  intros Hs. induction Hs as [l n|l n now ts event line x l1 events over n' s l2 Hl Hw Hs IH|
    l n now ts event line f x l1 events over n' s l2 Hl Hw Hf Hd Hs IH|l n now ts event e events over n' s l2 Hl Hs IH|
    l n now ts event line f x l1 events Hl Hw Hd]; intros Hp Hr Hb; cbn [length numbered] in *.
  - split_and!; [done|lia|done].
  - destruct (written_passes _ _ _ _ _ Hw Hp) as (_ & -> & Hp1). rewrite succ_u64_small in * by lia.
    destruct (IH Hp1 Hr ltac:(lia)) as (-> & -> & ->). unfold line_of in Hl. rewrite succ_u64_small in Hl by lia.
    rewrite Hl. split_and!; [done|lia|done].
  - by destruct (written_passes _ _ _ _ _ Hw Hp).
  - exfalso. unfold line_of in Hl. specialize (Hr {| en_seq := succ_u64 n; en_ts := ts; en_room_id := room_id; en_event := event |}).
    by rewrite Hl in Hr.
  - destruct (written_passes _ _ _ _ _ Hw Hp) as (-> & _). done.
Qed.

Lemma file_append (t : tree) p s x : file t p = Some s → file (append_file p x t) p = Some (s +:+ x).
Proof. intros Hs%file_Some. unfold append_file. rewrite Hs. apply file_insert. Qed.

(** What a call that is not a success comes to. *)
Definition ended {A : Type} (f : fault) (o : outcome io_error A) : Prop :=
  if dies f then o = Crashed else ∃ e, o = Done (Err e).

(** One write: it passes, or leaves a part of its text. *)
Lemma write_all_next p text t l s f l1 :
  file t p = Some s → next_call l = (f, l1) →
  ∃ o t1, write_all p text (World t l) = (o, World t1 l1) ∧ frame [p] t t1 ∧ file t1 p = Some (s +:+ cut f text) ∧
    (f = Pass → o = Done (Ok ())) ∧ (f ≠ Pass → ended f o).
Proof.
  intros Hs Hn. unfold write_all.
  pose proof (syscall_next (λ n, append_file p (take_bytes n text)) (λ t, (Ok (), append_file p text t)) t l f l1 Hn) as H.
  destruct f; cbn [cut] in *; eexists _, _; (split; [exact H|]); cbn [fst snd];
    rewrite ?app_nil_r; split_and!; try apply frame_append; try apply file_append; try done; unfold ended; cbn; eauto.
Qed.

Lemma sync_all_next p t l f l1 :
  next_call l = (f, l1) →
  ∃ o, sync_all p (World t l) = (o, World t l1) ∧ (f = Pass → o = Done (Ok ())) ∧ (f ≠ Pass → ended f o).
Proof.
  intros Hn. pose proof (syscall_next (λ _ t, t) (λ t, (Ok (), t)) t l f l1 Hn) as H. unfold sync_all, atomic.
  destruct f; eexists; (split; [exact H|]); split; try done; unfold ended; cbn; eauto.
Qed.

Lemma ended_bind {A B : Type} f (m : io io_error A) (k : A → io io_error B) w o w1 :
  m w = (o, w1) → ended f o → ∃ o', bind m k w = (o', w1) ∧ ended f o'.
Proof.
  intros Hm He. unfold bind, ended in *. rewrite Hm. destruct (dies f); [subst; by exists Crashed|].
  destruct He as [e ->]. exists (Done (Err e)). split; [done|by exists e].
Qed.

(** What an append does: the line is written as its calls end. *)
Lemma append_written w ts event t l s line :
  wt_room_id w = room_id → file t (wt_file w) = Some s → line_of (wt_seq w) ts event = Ok line →
  ∃ f x o t1 l1, written line l f x l1 ∧ append w ts event (World t l) = (o, World t1 l1) ∧ frame [wt_file w] t t1 ∧
    file t1 (wt_file w) = Some (s +:+ x) ∧
    (f = Pass → o = Done (Ok {| wt_file := wt_file w; wt_seq := succ_u64 (wt_seq w); wt_room_id := room_id |})) ∧
    (f ≠ Pass → ended f o).
Proof.
  intros Hroom Hs Hline. unfold append, record_of. rewrite Hroom. fold (line_of (wt_seq w) ts event). rewrite Hline.
  cbn [map_err]. unfold of_result. unfold bind at 1.
  destruct (next_call l) as [f1 l1] eqn:E1.
  destruct (write_all_next _ line t l s f1 l1 Hs E1) as (o1 & t1 & Hw1 & Hf1 & Hs1 & Hp1 & He1).
  destruct (decide (f1 = Pass)) as [->|Hn1].
  2:{ destruct (ended_bind f1 (write_all (wt_file w) line) (λ _, do! write_all (wt_file w) (String nl EmptyString) in
        do! sync_all (wt_file w) in ret {| wt_file := wt_file w; wt_seq := succ_u64 (wt_seq w); wt_room_id := room_id |})
        _ _ _ Hw1 (He1 Hn1)) as (o & Ho & He). exists f1, (cut f1 line), o, t1, l1. by split_and!; [constructor|..]. }
  cbn [cut] in Hs1. unfold bind at 1. rewrite Hw1, Hp1 by done.
  destruct (next_call l1) as [f2 l2] eqn:E2.
  destruct (write_all_next _ (String nl EmptyString) t1 l1 _ f2 l2 Hs1 E2) as (o2 & t2 & Hw2 & Hf2 & Hs2 & Hp2 & He2).
  rewrite app_assoc in Hs2. assert (Hf12 : frame [wt_file w] t t2) by (by eapply frame_trans).
  destruct (decide (f2 = Pass)) as [->|Hn2].
  2:{ destruct (ended_bind f2 (write_all (wt_file w) (String nl EmptyString)) (λ _,
        do! sync_all (wt_file w) in ret {| wt_file := wt_file w; wt_seq := succ_u64 (wt_seq w); wt_room_id := room_id |})
        _ _ _ Hw2 (He2 Hn2)) as (o & Ho & He). exists f2, (line +:+ cut f2 (String nl EmptyString)), o, t2, l2.
      by split_and!; [by eapply written_unended|..]. }
  cbn [cut] in Hs2. unfold bind at 1. rewrite Hw2, Hp2 by done.
  destruct (next_call l2) as [f3 l3] eqn:E3. destruct (sync_all_next (wt_file w) t2 l2 f3 l3 E3) as (o3 & Hw3 & Hp3 & He3).
  destruct (decide (f3 = Pass)) as [->|Hn3].
  - unfold bind. rewrite Hw3, Hp3 by done. eexists Pass, _, _, t2, l3. by split_and!; [by eapply written_whole|..].
  - destruct (ended_bind f3 (sync_all (wt_file w)) (λ _, ret {| wt_file := wt_file w; wt_seq := succ_u64 (wt_seq w); wt_room_id := room_id |})
      _ _ _ Hw3 (He3 Hn3)) as (o & Ho & He). exists f3, (line +:+ String nl EmptyString), o, t2, l3.
    by split_and!; [by eapply written_unsynced|..].
Qed.

(** What a run of emits leaves of its stream. *)
Definition streamed (w : Writer) (events : list (N * string * Event)) (t : tree) (l : list fault) (s : string)
    (r : outcome infallible Lifecycle * world) : Prop :=
  ∃ over n s', stream l (wt_seq w) events over n s' (faults (snd r)) ∧ frame [wt_file w] t (fs (snd r)) ∧
    file (fs (snd r)) (wt_file w) = Some (s +:+ s') ∧
    if over then fst r = Crashed
    else ∃ lc, fst r = Done (Ok lc) ∧ lc_writer lc = Some {| wt_file := wt_file w; wt_seq := n; wt_room_id := room_id |}.

Lemma emit_all_streamed events lc w t l s :
  lc_writer lc = Some w → wt_room_id w = room_id → file t (wt_file w) = Some s →
  streamed w events t l s (emit_all lc events (World t l)).
Proof.
  revert lc w t l s; induction events as [|[[now ts] event] events IH]; intros lc w t l s Hlc Hroom Hs.
  { exists false, (wt_seq w), EmptyString. rewrite app_nil_r. split_and!; [constructor|done|done|].
    exists lc. split; [done|]. rewrite Hlc, <- Hroom. by destruct w. }
  cbn [emit_all]. unfold emit. rewrite Hlc.
  destruct (line_of (wt_seq w) ts event) as [line|e] eqn:Hline.
  - destruct (append_written w ts event t l s line Hroom Hs Hline) as (f & x & o & t1 & l1 & Hw & Ha & Hf & Hx & Hp & He).
    unfold bind, attempt. rewrite Ha. destruct (decide (f = Pass)) as [->|Hn].
    + rewrite (Hp eq_refl). cbn [ret].
      set (lc' := {| lc_writer := _; lc_readiness := _ |}).
      change (streamed w ((now, ts, event) :: events) t l s (emit_all lc' events (World t1 l1))).
      destruct (IH lc' _ t1 l1 (s +:+ x) eq_refl eq_refl Hx) as (over & n & s' & Hst & Hf2 & Hfile & Ho).
      exists over, n, (x +:+ s'). split_and!; [by eapply stream_kept|by eapply frame_trans|cbn [wt_file] in Hfile; by rewrite Hfile, app_assoc|exact Ho].
    + specialize (He Hn). unfold ended in He. destruct (dies f) eqn:Hd.
      * subst o. exists true, (wt_seq w), x. by split_and!; [by eapply stream_died|..].
      * destruct He as [e ->]. cbn [ret]. set (lc' := {| lc_writer := _; lc_readiness := _ |}).
        change (streamed w ((now, ts, event) :: events) t l s (emit_all lc' events (World t1 l1))).
        destruct (IH lc' w t1 l1 (s +:+ x) eq_refl Hroom Hx) as (over & n & s' & Hst & Hf2 & Hfile & Ho).
        exists over, n, (x +:+ s'). split_and!; [by eapply stream_lost|by eapply frame_trans|cbn [wt_file] in Hfile; by rewrite Hfile, app_assoc|exact Ho].
  - assert (Ha : append w ts event (World t l) = (Done (Err (IoError OtherKind e)), World t l)).
    { unfold append, record_of. rewrite Hroom. fold (line_of (wt_seq w) ts event). by rewrite Hline. }
    unfold bind, attempt. rewrite Ha. cbn [ret]. set (lc' := {| lc_writer := _; lc_readiness := _ |}).
    change (streamed w ((now, ts, event) :: events) t l s (emit_all lc' events (World t l))).
    destruct (IH lc' w t l s eq_refl Hroom Hs) as (over & n & s' & Hst & Hf2 & Hfile & Ho).
    exists over, n, s'. by split_and!; [by eapply stream_unrendered|..].
Qed.

End stream.

Lemma create_spec t p room_id :
  wp (create p room_id) (λ o t1, frame [p] t t1 ∧ ∀ l, o = Done (Ok l) →
    file t1 p = Some EmptyString ∧
    l = {| lc_writer := Some {| wt_file := p; wt_seq := 0; wt_room_id := room_id |}; lc_readiness := None |}) t.
Proof.
  unfold create, sync_parent_dir.
  assert (Hsame : ∀ o t1, frame [p] t t1 → (∀ l, o ≠ Done (Ok l)) →
    frame [p] t t1 ∧ ∀ l : Lifecycle, o = Done (A:=Lifecycle) (E:=io_error) (Ok l) → file t1 p = Some EmptyString ∧
    l = {| lc_writer := Some {| wt_file := p; wt_seq := 0; wt_room_id := room_id |}; lc_readiness := None |})
    by (intros o t1 Hf Ho; split; [done|intros l H; by apply Ho in H]).
  apply wp_bind, wp_open_truncate; [|intros e; by apply Hsame|by apply Hsame].
  wp_post. apply wp_bind, wp_bind.
  set (t1 := <[p := File EmptyString]> t). assert (Hf : frame [p] t t1) by apply frame_insert.
  apply wp_atomic; [|intros e _; by apply Hsame|by apply Hsame].
  destruct (parent_is_dir t1 p); simpl; wp_post; [|by apply Hsame].
  apply wp_pure_call; [|intros e; by apply Hsame|by apply Hsame].
  wp_post. apply wp_ret. split; [done|]. intros l [= <-]. split; [apply file_insert|done].
Qed.

(** C39.  The lifecycle stream, exactly, under any failure or crash.  A stream begins
    empty and only its file changes.  After any events its text is told by how the
    calls ended: each event is three calls, and it is kept, its whole line under the
    next number, just when the three pass; otherwise the first that does not tells
    what it leaves, a part of the line, the line and a part of its end, or all of
    it when only the sync failed, and the next event takes its number.  An event
    that the serializer refuses writes nothing.  A failure never stops the run,
    only the end of the process does; and when every call passes and the serializer
    refuses nothing, the file holds exactly one line for each event, numbered from
    one. *)
Theorem stream_follows t p room_id events calls :
  let '(o, w) := create p room_id (World t calls) in
  frame [p] t (fs w) ∧ ∀ l, o = Done (Ok l) → file (fs w) p = Some EmptyString ∧
    let '(o2, w2) := emit_all l events w in
    frame [p] (fs w) (fs w2) ∧ ∃ over n s, stream room_id (faults w) 0 events over n s (faults w2) ∧ file (fs w2) p = Some s ∧
      (if over then o2 = Crashed
       else ∃ l', o2 = Done (Ok l') ∧ lc_writer l' = Some {| wt_file := p; wt_seq := n; wt_room_id := room_id |}) ∧
      (Forall (λ f, f = Pass) (faults w) → (∀ r, is_ok (render r) = true) → (N.of_nat (length events) < 2 ^ 64)%N →
       over = false ∧ n = N.of_nat (length events) ∧ s = numbered room_id 1 events).
Proof.
  pose proof (create_spec t p room_id calls) as H. destruct (create p room_id (World t calls)) as [o [t1 l1]]. cbn [fst snd fs faults] in *.
  destruct H as [Hf Hok]. split; [done|]. intros l ->. destruct (Hok l eq_refl) as [Hempty ->]. split; [done|].
  pose proof (emit_all_streamed room_id events {| lc_writer := Some {| wt_file := p; wt_seq := 0; wt_room_id := room_id |}; lc_readiness := None |}
    _ t1 l1 EmptyString eq_refl eq_refl Hempty) as Hs.
  destruct (emit_all _ events (World t1 l1)) as [o2 w2]. destruct Hs as (over & n & s & Hst & Hf2 & Hfile & Ho). cbn [fst snd wt_file wt_seq] in *.
  split; [done|]. exists over, n, s. split_and!; [done..|]. intros Hp Hr Hb. by apply (stream_clean _ _ _ _ _ _ _ _ Hst).
Qed.

End lifecycle.

(** ** A failed sync, and a torn line *)

Definition sample_render (r : Envelope) : result string string :=
  Ok (show_N (en_seq r) +:+ match en_event r with GuestReady => " guest_ready" | _ => " other" end).

Definition sample_stream (fs_ : list fault) : outcome io_error Lifecycle * world :=
  (let! l := create ["events"] "room" in
   let! l := lift_err (Empty_set_rect _) (emit sample_render 0 "t" l GuestReady) in
   lift_err (Empty_set_rect _) (emit sample_render 0 "t" l SshReady)) (World ∅ fs_).

(** A line whose sync failed is in the file, and the next one has its number. *)
Lemma number_repeated :
  file (fs (snd (sample_stream [Pass; Pass; Pass; Pass; Pass; Fail (io_err OtherKind)]))) ["events"] =
    Some (join (String nl "") ["1 guest_ready"; "1 other"; ""]).
Proof. vm_compute. reflexivity. Qed.

(** A line cut short has the next one behind it. *)
Lemma line_torn :
  file (fs (snd (sample_stream [Pass; Pass; Pass; Short 4 (io_err OtherKind)]))) ["events"] =
    Some (join (String nl "") ["1 gu1 other"; ""]).
Proof. vm_compute. reflexivity. Qed.
