(* ===== verification/Doctor.v ===== *)
(** * Doctor: the checks of a host ([doctor.rs])

    Every check of [rooms doctor] over the host's calls, each answering a result
    and never failing, and the probes the other commands share with it.  A file's
    owner, group and mode are one call of this file's own. *)

From S2P Require Import Prelude RStr Fs Host Config Pcap Prog Sys Images Launch.
From stdpp Require Import options.

Definition DOCTOR_SCHEMA_VERSION : N := 1.
Definition WARN_PREFIX : string := "warn:".
Definition ROOMS_FWD_CHAIN : string := "ROOMS_FWD".
Definition ROOMS_SUPERNET : string := "172.16.0.0/24".
Definition ROOMS_FWD_MARKER : string := "rooms:fwd:v1:172.16.0.0/24".
Definition ANTHROPIC_CREDENTIAL_VARS : list string := ["ANTHROPIC_API_KEY"; "CLAUDE_CODE_OAUTH_TOKEN"; "ANTHROPIC_AUTH_TOKEN"].

Inductive RoomsFwdStatus := FwdInstalled | FwdMissing | FwdUnprobeable.

Record CheckResult := { ck_name : string; ck_ok : bool; ck_message : string }.

Definition is_warning (c : CheckResult) : bool := ck_ok c && starts_with (ck_message c) WARN_PREFIX.

Record DoctorReport := { dr_schema_version : N; dr_checks : list CheckResult }.

Definition all_ok (r : DoctorReport) : bool := forallb ck_ok (dr_checks r).

(** A result, for the name of its check. *)
Definition passes (message name : string) : CheckResult := {| ck_name := name; ck_ok := true; ck_message := message |}.
Definition fails_with (message name : string) : CheckResult := {| ck_name := name; ck_ok := false; ck_message := message |}.

(** ** Text *)

Definition classify_rooms_fwd_dump (dump : string) : RoomsFwdStatus :=
  if contains dump ROOMS_FWD_MARKER then FwdInstalled else FwdMissing.

Fixpoint trim_start_v (s : string) : string :=
  match s with String a r => if (a =? "v")%char || (a =? "V")%char then trim_start_v r else s | EmptyString => s end.

Fixpoint parse_version_tokens (tokens : list string) : option (N * N) :=
  match tokens with
  | [] => None
  | token :: tokens =>
      let trimmed := trim_start_v token in
      if negb (contains_byte "." trimmed) then parse_version_tokens tokens else
      match split_byte "." trimmed with
      | major :: minor :: _ => major ← parse_uint u32_max major; minor ← parse_uint u32_max minor; Some (major, minor)
      | _ => None
      end
  end.

Definition parse_firecracker_version (output : string) : option (N * N) := parse_version_tokens (split_whitespace output).

Definition version_meets_min (major minor : N) (min : N * N) : bool :=
  ((fst min <? major) || ((major =? fst min) && (snd min <=? minor)))%N.

Definition kernel_carries_vsock (kernel_bytes : string) : bool := contains kernel_bytes "virtio_vsock".

Definition anthropic_credential_result (values : list (string * option string)) : CheckResult :=
  match find (λ '(_, v), match v with Some v => negb (is_empty (trim v)) | None => false end) values with
  | Some (var, _) => passes (var +:+ " is set") "anthropic_api_key"
  | None =>
      passes (WARN_PREFIX +:+ " no Anthropic credential set (" +:+ join " / " ANTHROPIC_CREDENTIAL_VARS +:+
              ") — one is required for --runner cursor, none for --command / e2e") "anthropic_api_key"
  end.

Definition parse_tap_index (line : string) : option N :=
  dev ← split_whitespace line !! 1;
  dev ← head (split_byte "@" (trim_end_byte ":" dev));
  suffix ← strip_prefix "tap-fc" dev;
  index ← parse_uint u8_max suffix;
  if (1 <=? index)%N then Some index else None.

(** Sorted without duplicates. *)
Fixpoint insert_index (k : N) (l : list N) : list N :=
  match l with
  | [] => [k]
  | j :: r => if (k <? j)%N then k :: l else if (k =? j)%N then l else j :: insert_index k r
  end.

Definition orphaned_tap_indices (ip_link_output : string) (claimed : list N) : list N :=
  foldr insert_index [] (filter (λ k, k ∉ claimed) (omap parse_tap_index (lines ip_link_output))).

(** A digest and its artifact. *)
Definition parse_pin (line : string) : option (string * string) :=
  let line := trim line in
  if is_empty line || starts_with line "#" then None else
  match split_whitespace line with
  | digest :: name :: _ =>
      if (len digest =? 64)%nat && all_bytes (λ b, is_ascii_digit b || in_range 97 102 b || in_range 65 70 b) digest
      then Some (name, to_ascii_lowercase digest) else None
  | _ => None
  end.

(** The last pin of a name counts. *)
Definition parse_checksums (content : string) : gmap string string :=
  fold_left (λ pins '(name, digest), <[name := digest]> pins) (omap parse_pin (lines content)) ∅.

Definition rootfs_message (show_path : path → string) (show_hex : N → string) (e : RootfsError) : string :=
  match e with
  | RfNotFound p => "rootfs not found at " +:+ show_path p
  | RfNotExt4 p magic => "rootfs at " +:+ show_path p +:+ " is not ext4 (magic " +:+ show_hex magic +:+ ")"
  | RfTooSmall p size min_bytes =>
      "rootfs at " +:+ show_path p +:+ " is too small (" +:+ show_N size +:+ " bytes; min " +:+ show_N min_bytes +:+ ")"
  | RfKernelNotFound p => "kernel not found at " +:+ show_path p
  | RfKernelBadFormat p => "kernel at " +:+ show_path p +:+ " is neither an ELF vmlinux nor an ARM64 boot Image"
  | RfIo e => "io error: " +:+ message e
  end.

(** ** Calls *)

(** [std::fs::metadata]'s owner, group and mode. *)
Inductive dop := DSys (op : sysop) | DMetadata (p : path).

Definition dans (op : dop) : Type :=
  match op with DSys op => ans op | DMetadata _ => result io_error (N * N * N) end.

Abbreviation doc := (prog dans) (only parsing).

(** The calls of a host program among these. *)
Definition hosted {A : Type} (p : sys A) : doc A := translate (λ op, call (DSys op)) p.

(** ** Probes *)

Definition rooms_fwd_status : sys RoomsFwdStatus :=
  let* output := call (ORun "iptables" ["-S"; ROOMS_FWD_CHAIN]) in
  Ret (match output with
       | Ok out =>
           if success out then classify_rooms_fwd_dump (stdout out)
           else if contains (stderr out) "No chain" then FwdMissing else FwdUnprobeable
       | Err _ => FwdUnprobeable
       end).

Definition ensure_rooms_fwd_installed : sys (result string unit) :=
  let* status := rooms_fwd_status in
  Ret (match status with
       | FwdInstalled | FwdUnprobeable => Ok ()
       | FwdMissing =>
           Err (ROOMS_FWD_CHAIN +:+ " chain not installed (or supernet drift); run `sudo bash scripts/setup-tap.sh --host` before booting a room")
       end).

Definition firecracker_uid : sys (option N) :=
  let* output := call (ORun "getent" ["passwd"; FIRECRACKER_USER]) in
  Ret (match output with
       | Ok out => if success out then fst <$> parse_getent_passwd (stdout out) else None
       | Err _ => None
       end).

Definition current_primary_gid (uid : N) : sys N :=
  let* output := call (ORun "getent" ["passwd"; show_N uid]) in
  Ret (match output with
       | Ok out => if success out then default u32_max (snd <$> parse_getent_passwd (stdout out)) else u32_max
       | Err _ => u32_max
       end).

Definition path_readable_by_uid (p : path) (uid : N) : doc bool :=
  let* meta := call (DMetadata p) in
  match meta with
  | Err _ => Ret false
  | Ok (owner, group, mode) =>
      if (owner =? uid)%N then Ret (negb (N.land mode 256 =? 0)%N) else
      let* primary := hosted (current_primary_gid uid) in
      Ret (if (group =? primary)%N then negb (N.land mode 32 =? 0)%N else negb (N.land mode 4 =? 0)%N)
  end.

(** The directories at and above a path, the nearest first. *)
Definition at_and_above (p : path) : list path := reverse ((λ n, take n p) <$> seq 0 (S (length p))).

Fixpoint first_dir (candidates : list path) : sys (option path) :=
  match candidates with
  | [] => Ret None
  | p :: candidates =>
      let* stat := call (OStat p) in
      match stat with Ok s => if st_is_dir s then Ret (Some p) else first_dir candidates | Err _ => first_dir candidates end
  end.

Definition nearest_existing_dir (p : path) : sys (option path) := first_dir (at_and_above p).

Definition WRITE_PROBE : string := ".rooms-doctor-write-probe".

Definition dir_is_writable (dir : path) : sys bool :=
  let probe := path_join dir WRITE_PROBE in
  let* opened := call (OOpen probe OpenCreateNew) in
  match opened with
  | Ok _ => do* call (ORemoveFile probe) in Ret true
  | Err e => if bool_decide (kind e = AlreadyExists) then do* call (ORemoveFile probe) in Ret true else Ret false
  end.

Section doctor.
  Variable show_path : path → string.
  Variable show_status : option Z → string.
  Variable show_hex : N → string.
  Variable resolve : string → path.
  (** The host's architecture and its name, the home directory, the
      configuration, and the embedded [checksums.txt]. *)
  Variables (arch : target_arch) (HOST_ARCH : string) (home : option path) (config : RoomsConfig) (CHECKSUMS_TXT : string).

Definition drift_artifacts : list string :=
  ["firecracker-v1.15.0-" +:+ HOST_ARCH; "jailer-v1.15.0-" +:+ HOST_ARCH; "vmlinux-6.1.155-" +:+ HOST_ARCH +:+ ".bin"].

Definition is_aarch64 : bool := (HOST_ARCH =? "aarch64")%string.

(** [Ord::max] on the pair. *)
Definition effective_min_fc_version : N * N :=
  let arch_floor := if is_aarch64 then (1, 15)%N else (0, 0)%N in
  let min := min_firecracker_version config in
  if version_meets_min (fst arch_floor) (snd arch_floor) min then arch_floor else min.

Definition claimed_slot_indices : sys (list N) :=
  match slots_dir home config with
  | None => Ret []
  | Some slots =>
      let* entries := call (OReadDir slots) in
      Ret (match entries with
           | Err _ => []
           | Ok entries =>
               omap (λ e, match e with
                          | Ok e =>
                              index ← parse_uint u8_max (dirent_name e);
                              if (dirent_name e =? show_N index)%string then Some index else None
                          | Err _ => None
                          end) entries
           end)
  end.

Definition orphaned_pool_taps : sys (list N) :=
  let* claimed := claimed_slot_indices in
  let* output := call (ORun "ip" ["-o"; "link"; "show"]) in
  Ret (match output with
       | Ok out => if success out then orphaned_tap_indices (stdout out) claimed else []
       | Err _ => []
       end).

Definition resolve_in_path (binary : string) : sys (option path) :=
  if starts_with binary "/" || (1 <? length (components binary))%nat then
    let* here := call (OExists (resolve binary)) in
    Ret (if here : bool then Some (resolve binary) else None)
  else
  let* path_var := call (OEnv "PATH") in
  match path_var with
  | None => Ret None
  | Some path_var =>
      (fix search (dirs : list string) : sys (option path) :=
         match dirs with
         | [] => Ret None
         | dir :: dirs =>
             let candidate := path_join (resolve dir) binary in
             let* file := call (OIsFile candidate) in
             if file : bool then Ret (Some candidate) else search dirs
         end) (split_byte ":" path_var)
  end.

Definition resolve_kernel_path (image : option path) : option path :=
  match image with
  | Some image => kernel_sibling image
  | None => (λ home, path_join home "rooms/images/vmlinux.bin") <$> home
  end.

Definition default_rootfs_path : path := path_join (default ["tmp"] home) "rooms/images/rootfs.ext4".

Definition image_path (image : option path) : path := default default_rootfs_path image.

Definition file_sha256 (p : path) : sys (result string string) :=
  try* output := pmap_err (λ e, "sha256sum failed for " +:+ show_path p +:+ ": " +:+ message e)
                   (call (ORunStatus "sha256sum" [show_path p])) in
  let '(code, out) := output in
  if negb (success out) then Ret (Err ("sha256sum exited " +:+ show_status code +:+ " for " +:+ show_path p)) else
  Ret (ok_or (to_ascii_lowercase <$> head (split_whitespace (stdout out)))
             ("sha256sum produced no digest for " +:+ show_path p)).

Definition drift_target_path (artifact : string) (image : option path) : sys (option path) :=
  if (artifact =? "firecracker-v1.15.0-" +:+ HOST_ARCH)%string then resolve_in_path (firecracker_binary config) else
  if (artifact =? "jailer-v1.15.0-" +:+ HOST_ARCH)%string then resolve_in_path "jailer" else
  if (artifact =? "vmlinux-6.1.155-" +:+ HOST_ARCH +:+ ".bin")%string then Ret (resolve_kernel_path image) else
  Ret None.

(** ** The checks *)

(** A check, once named. *)
Definition named {A : Type} (name : string) (p : doc A) (result : A → string → CheckResult) : doc CheckResult :=
  let* a := p in Ret (result a name).

Definition check_kvm : doc CheckResult :=
  named "kvm" (hosted (
    let* here := call (OExists ["dev"; "kvm"]) in
    if negb here then Ret (fails_with "/dev/kvm does not exist; enable KVM or nested virt") else
    let* opened := call (OOpen ["dev"; "kvm"] OpenReadWrite) in
    Ret (match opened with
         | Ok _ => passes "/dev/kvm present and rw-accessible"
         | Err e => fails_with ("/dev/kvm permission denied: " +:+ message e)
         end))) id.

Definition show_version (v : N * N) : string := show_N (fst v) +:+ "." +:+ show_N (snd v).

Definition check_firecracker_version : doc CheckResult :=
  let min := effective_min_fc_version in
  named "firecracker" (hosted (call (ORunStatus (firecracker_binary config) ["--version"]))) (λ output,
    match output with
    | Ok (code, out) =>
        if success out then
          let version_str := trim (stdout out) in
          match parse_firecracker_version version_str with
          | Some v =>
              if version_meets_min (fst v) (snd v) min
              then passes ("firecracker " +:+ show_version v +:+ " (>= " +:+ show_version min +:+ ")")
              else fails_with ("firecracker " +:+ show_version v +:+ " is below minimum " +:+ show_version min)
          | None => fails_with ("could not parse firecracker version from: " +:+ version_str)
          end
        else fails_with ("firecracker --version failed (exit " +:+ show_status code +:+ "): " +:+ stderr out)
    | Err e => fails_with ("firecracker binary not found at " +:+ firecracker_binary config +:+ ": " +:+ message e)
    end).

Definition check_jailer : doc CheckResult :=
  named "jailer" (hosted (resolve_in_path (jailer_binary config))) (λ found,
    match found with
    | None =>
        fails_with ("jailer not found on PATH (looked for " +:+ jailer_binary config +:+ "); run scripts/setup-rooms-host.sh")
    | Some p => passes ("jailer present at " +:+ show_path p)
    end).

Definition check_firecracker_user : doc CheckResult :=
  named "firecracker_user" (hosted (call (ORun "getent" ["passwd"; FIRECRACKER_USER]))) (λ output,
    match output with
    | Ok out =>
        if success out then
          match parse_getent_passwd (stdout out) with
          | Some (uid, gid) =>
              passes (FIRECRACKER_USER +:+ " system user exists (uid " +:+ show_N uid +:+ ", gid " +:+ show_N gid +:+ ")")
          | None => fails_with ("getent returned unexpected passwd line for " +:+ FIRECRACKER_USER)
          end
        else fails_with ("system user " +:+ FIRECRACKER_USER +:+ " missing; run scripts/setup-rooms-host.sh")
    | Err e => fails_with ("could not run getent passwd " +:+ FIRECRACKER_USER +:+ ": " +:+ message e)
    end).

(** What is wrong with one image. *)
Definition unreadable (what : string) (p : path) (uid : N) : doc (list string) :=
  let* here := hosted (call (OExists p)) in
  if negb here then Ret [what +:+ " missing at " +:+ show_path p] else
  let* readable := path_readable_by_uid p uid in
  Ret (if readable : bool then []
       else [FIRECRACKER_USER +:+ " cannot read " +:+ what +:+ " at " +:+ show_path p +:+ " (check group/other permissions)"]).

Definition no_kernel_path : string := "no kernel path configured; pass --image or set $HOME/rooms/images/vmlinux.bin".

Definition check_jailer_file_access (image : option path) : doc CheckResult :=
  named "jailer_file_access" (
    let* uid := hosted firecracker_uid in
    match uid with
    | None => Ret (fails_with ("cannot verify file access: " +:+ FIRECRACKER_USER +:+ " user missing"))
    | Some uid =>
        let* kernel :=
          match resolve_kernel_path image with
          | Some p => unreadable "kernel" p uid
          | None => Ret [no_kernel_path]
          end in
        let* rootfs := unreadable "rootfs" (image_path image) uid in
        Ret (match kernel ++ rootfs with
             | [] => passes (FIRECRACKER_USER +:+ " can read kernel and rootfs images")
             | failures => fails_with (join "; " failures)
             end)
    end) id.

Definition check_tun_device : doc CheckResult :=
  named "tun_device" (
    let* uid := hosted firecracker_uid in
    match uid with
    | None => Ret (fails_with ("cannot verify TAP access: " +:+ FIRECRACKER_USER +:+ " user missing"))
    | Some uid =>
        let tun := ["dev"; "net"; "tun"] in
        let* here := hosted (call (OExists tun)) in
        if negb here then Ret (fails_with "/dev/net/tun missing; load the tun kernel module (sudo modprobe tun)") else
        let* readable := path_readable_by_uid tun uid in
        Ret (if readable : bool
             then passes ("/dev/net/tun present and openable by " +:+ FIRECRACKER_USER +:+ " (per-slot taps created at boot)")
             else fails_with (FIRECRACKER_USER +:+ " cannot open /dev/net/tun; check its permissions"))
    end) id.

Definition check_rooms_fwd : doc CheckResult :=
  named "rooms_fwd" (hosted rooms_fwd_status) (λ status,
    match status with
    | FwdInstalled => passes (ROOMS_FWD_CHAIN +:+ " installed and scoped to " +:+ ROOMS_SUPERNET)
    | FwdMissing => fails_with (ROOMS_FWD_CHAIN +:+ " not installed or supernet drift; run `sudo bash scripts/setup-tap.sh --host`")
    | FwdUnprobeable =>
        passes (WARN_PREFIX +:+ " could not read " +:+ ROOMS_FWD_CHAIN +:+
                " (need root?); re-run `sudo rooms doctor` to verify the chain")
    end).

Definition check_slots_dir : doc CheckResult :=
  named "slots_dir" (hosted (
    match slots_dir home config with
    | None => Ret (fails_with "HOME unset; cannot locate the slots dir")
    | Some slots =>
        let* probe := nearest_existing_dir slots in
        match probe with
        | None => Ret (fails_with ("no existing ancestor of " +:+ show_path slots +:+ " to write slot claims into"))
        | Some dir =>
            let* writable := dir_is_writable dir in
            Ret (if writable : bool
                 then passes ("slots dir " +:+ show_path slots +:+ " is writable (ensure the state base is a local fs, not NFS)")
                 else fails_with ("slots dir " +:+ show_path slots +:+ " not writable (" +:+ show_path dir +:+
                                  " rejected a probe file); O_EXCL slot claims will fail"))
        end
    end)) id.

Definition check_orphaned_taps : doc CheckResult :=
  named "orphaned_taps" (hosted orphaned_pool_taps) (λ orphans,
    match orphans with
    | [] => passes "no orphaned pool taps"
    | _ => passes (WARN_PREFIX +:+ " orphaned tap(s) with no live slot: " +:+
                   join ", " ((λ k, "tap-fc" +:+ show_N k) <$> orphans) +:+ "; `rooms gc` sweeps them")
    end).

Definition check_kernel (image : option path) : doc CheckResult :=
  named "kernel" (hosted (
    match resolve_kernel_path image with
    | None => Ret (fails_with no_kernel_path)
    | Some p =>
        let* valid := validate_kernel arch p in
        Ret (match valid with
             | Ok _ => passes ("kernel valid at " +:+ show_path p)
             | Err e => fails_with (rootfs_message show_path show_hex e)
             end)
    end)) id.

(** [std::fs::read]. *)
Definition read_file (p : path) : sys (result io_error string) :=
  try* file := call (OOpen p OpenRead) in call (OReadAll file None).

Definition check_kernel_vsock (image : option path) : doc CheckResult :=
  named "kernel_vsock" (hosted (
    match resolve_kernel_path image with
    | None => Ret (passes (WARN_PREFIX +:+ " no kernel path configured; cannot probe virtio-vsock"))
    | Some p =>
        let* bytes := read_file p in
        Ret (match bytes with
             | Err _ => passes (WARN_PREFIX +:+ " could not read kernel " +:+ show_path p +:+ " to probe virtio-vsock")
             | Ok bytes =>
                 if kernel_carries_vsock bytes then passes ("guest kernel carries virtio_vsock (" +:+ show_path p +:+ ")")
                 else passes (WARN_PREFIX +:+ " guest kernel " +:+ show_path p +:+
                   " has no virtio_vsock strings — `rooms run --secret` will refuse at admission (CONFIG_VIRTIO_VSOCKETS=y required)")
             end)
    end)) id.

Definition check_rootfs (image : option path) : doc CheckResult :=
  let p := image_path image in
  named "rootfs" (hosted (validate_rootfs p (min_rootfs_bytes config))) (λ valid,
    match valid with
    | Ok _ => passes ("rootfs valid at " +:+ show_path p)
    | Err e => fails_with (rootfs_message show_path show_hex e)
    end).

Definition env_value (var : string) : sys (string * option string) :=
  let* value := (call (OEnv var) : sys (option string)) in Ret (var, value).

Definition check_anthropic_api_key : doc CheckResult :=
  let* values := hosted (pfor_each env_value ANTHROPIC_CREDENTIAL_VARS) in
  Ret (anthropic_credential_result values).

(** The first knob that can be read decides. *)
Fixpoint nested_knobs (paths : list string) : sys (option (string * string)) :=
  match paths with
  | [] => Ret None
  | p :: paths =>
      let* content := call (OReadText (resolve p)) in
      match content with Ok content => Ret (Some (p, trim content)) | Err _ => nested_knobs paths end
  end.

Definition check_nested_virt : doc CheckResult :=
  named "nested_virt" (hosted (
    if is_aarch64 then
      let* opened := call (OOpen ["dev"; "kvm"] OpenReadWrite) in
      if is_ok opened then Ret (passes "nested virtualization available (/dev/kvm r/w on aarch64)") else
      let* here := call (OExists ["dev"; "kvm"]) in
      Ret (fails_with (if here : bool then "/dev/kvm present but not r/w-accessible; see the kvm check"
                       else "/dev/kvm absent; enable nested virtualization on the outer VM"))
    else
    let* kvm_ok := call (ORun "kvm-ok" []) in
    if match kvm_ok with Ok out => success out | Err _ => false end
    then Ret (passes "nested virtualization appears enabled (kvm-ok)") else
    let* knob := nested_knobs ["/sys/module/kvm_intel/parameters/nested"; "/sys/module/kvm_amd/parameters/nested"] in
    Ret (match knob with
         | None => fails_with "could not determine nested virt status (kvm-ok and sysfs probes failed)"
         | Some (p, val) =>
             if (val =? "Y")%string || (val =? "1")%string || (val =? "on")%string
             then passes ("nested virt enabled (" +:+ p +:+ "=" +:+ val +:+ ")")
             else fails_with ("nested virt disabled (" +:+ p +:+ "=" +:+ val +:+ ")")
         end))) id.

(** The warnings of one artifact, and whether it was checked. *)
Definition drift_of (pins : gmap string string) (image : option path) (artifact : string) : sys (list string * bool) :=
  match pins !! artifact with
  | None => Ret (["no checksum pin for " +:+ artifact +:+ " in embedded checksums"], false)
  | Some expected =>
      let* target := drift_target_path artifact image in
      match target with
      | None => Ret ([], false)
      | Some p =>
          let* here := call (OExists p) in
          if negb here then Ret ([], false) else
          let* digest := file_sha256 p in
          Ret (match digest with
               | Ok actual =>
                   if (actual =? expected)%string then []
                   else ["sha256 drift: " +:+ artifact +:+ " at " +:+ show_path p +:+ " (expected " +:+ expected +:+ ", got " +:+ actual +:+ ")"]
               | Err e => ["sha256 check failed: " +:+ artifact +:+ " at " +:+ show_path p +:+ " (" +:+ e +:+ ")"]
               end, true)
      end
  end.

Definition check_sha_drift (image : option path) : doc CheckResult :=
  let pins := parse_checksums CHECKSUMS_TXT in
  named "sha_drift" (hosted (pfor_each (drift_of pins image) drift_artifacts)) (λ results,
    let checked := length (filter (λ r, snd r = true) results) in
    match results ≫= fst with
    | [] => passes (if (checked =? 0)%nat then "no pinned artifacts present to verify"
                    else show_N (N.of_nat checked) +:+ " pinned artifact(s) match checksums.txt")
    | warnings => passes (WARN_PREFIX +:+ " " +:+ join "; " warnings)
    end).

Definition doctor_checks (image : option path) : list (doc CheckResult) :=
  [check_kvm; check_firecracker_version; check_jailer; check_firecracker_user; check_jailer_file_access image;
   check_tun_device; check_rooms_fwd; check_slots_dir; check_orphaned_taps; check_kernel image;
   check_kernel_vsock image; check_rootfs image; check_anthropic_api_key; check_nested_virt; check_sha_drift image].

Definition run_doctor (image : option path) : doc DoctorReport :=
  let* checks := pfor_each id (doctor_checks image) in
  Ret {| dr_schema_version := DOCTOR_SCHEMA_VERSION; dr_checks := checks |}.

End doctor.
