(* ===== verification/Preflight.v ===== *)
(** * Preflight: the doctor as a gate ([preflight.rs])

    Splitting a report into failures and warnings, and what the doctor itself
    promises a gate: it only looks, its report is complete, and its advisory
    checks never fail.  [serde_json] is a parameter. *)

From S2P Require Import Prelude RStr Fs Host Config Pcap Prog Sys Images Launch Doctor.
From stdpp Require Import options.

Record Preflight := { pf_failures : list CheckResult; pf_warnings : list CheckResult }.

Definition passed (p : Preflight) : bool := bool_decide (pf_failures p = []).

Definition remediations (p : Preflight) : list string := (λ c, ck_name c +:+ ": " +:+ ck_message c) <$> pf_failures p.

Inductive PreflightError :=
| PfParse (e : string)
| PfSchemaVersion (found supported : N)
| PfDoctor (e : string).

Definition gate (report : DoctorReport) : Preflight :=
  {| pf_failures := filter (λ c, ck_ok c = false) (dr_checks report);
     pf_warnings := filter (λ c, ck_ok c = true ∧ is_warning c = true) (dr_checks report) |}.

Section preflight.
  (** [serde_json::from_str], with its error's text. *)
  Variable parse : string → result string DoctorReport.
  Variable show_path : path → string.

Definition from_json (json : string) : result PreflightError Preflight :=
  match parse json with
  | Err e => Err (PfParse e)
  | Ok report =>
      if negb (dr_schema_version report =? DOCTOR_SCHEMA_VERSION)%N
      then Err (PfSchemaVersion (dr_schema_version report) DOCTOR_SCHEMA_VERSION)
      else Ok (gate report)
  end.

Definition doctor_args (image : option path) : list string :=
  ["doctor"; "--json"] ++ match image with Some image => ["--image"; show_path image] | None => [] end.

(** [run] of the source. *)
Definition run_gate (rooms_bin : string) (image : option path) : sys (result PreflightError Preflight) :=
  try* output := pmap_err (λ e, PfDoctor ("spawn " +:+ rooms_bin +:+ ": " +:+ message e))
                   (call (ORun rooms_bin (doctor_args image))) in
  Ret (match from_json (stdout output) with
       | Err (PfParse msg) =>
           let stderr := trim (stderr output) in
           if is_empty stderr then Err (PfParse msg)
           else Err (PfDoctor ("doctor produced no readable report (" +:+ msg +:+ "); stderr: " +:+ stderr))
       | other => other
       end).

Lemma from_json_ok json p :
  from_json json = Ok p ↔ ∃ report, parse json = Ok report ∧ dr_schema_version report = 1%N ∧ p = gate report.
Proof.
  unfold from_json. destruct (parse json) as [report|e]; [|naive_solver]. change DOCTOR_SCHEMA_VERSION with 1%N.
  destruct (N.eqb_spec (dr_schema_version report) 1); cbn [negb]; naive_solver.
Qed.

Lemma gate_passed report : passed (gate report) = true ↔ all_ok report = true.
Proof.
  unfold passed, gate, all_ok. cbn [pf_failures]. rewrite bool_decide_eq_true, forallb_forall. split.
  - intros H c Hc%list_elem_of_In. destruct (ck_ok c) eqn:E; [done|].
    assert (Hn : c ∈ filter (λ c, ck_ok c = false) (dr_checks report)) by (by apply list_elem_of_filter).
    rewrite H in Hn. by apply not_elem_of_nil in Hn.
  - intros H. apply filter_none, Forall_forall. intros c Hc%list_elem_of_In E. apply H in Hc. congruence.
Qed.

(** What the gate answers to what the doctor did. *)
Definition gated (rooms_bin : string) (output : result io_error CmdOutput) : result PreflightError Preflight → Prop :=
  λ r, ∀ p, r = Ok p ↔ ∃ out report, output = Ok out ∧ parse (stdout out) = Ok report ∧
    dr_schema_version report = 1%N ∧ p = gate report.

Lemma run_gate_spec rooms_bin image :
  spec (λ _ _, True) (run_gate rooms_bin image) [] (λ r h, ∃ output : result io_error CmdOutput,
    h = [Event (ORun rooms_bin (doctor_args image)) output] ∧ gated rooms_bin output r).
Proof.
  unfold run_gate. spec_call as output; [done|].
  destruct output as [out|e]; simpl map_err; cbv iota; spec_down; eexists; (split; [reflexivity|]).
  - intros p. assert (H : from_json (stdout out) = Ok p ↔ ∃ out0 report, Ok (E:=io_error) out = Ok out0 ∧
      parse (stdout out0) = Ok report ∧ dr_schema_version report = 1%N ∧ p = gate report)
      by (rewrite from_json_ok; naive_solver).
    rewrite <- H. destruct (from_json (stdout out)) as [q|[msg| |]]; [done| |done..].
    destruct (is_empty (trim (stderr out))); by split.
  - intros p. split; [done|]. by intros (? & ? & [=] & _).
Qed.

(** The preflight gate passes exactly when doctor ran and wrote a report of
    the one known schema none of whose checks failed; its failures are exactly
    the failed checks and its warnings the passed ones marked so, in the
    report's order.  A report that cannot be read, or of another schema, is an
    error, never a pass. *)
Theorem gate_exact_report rooms_bin image tr r :
  run (run_gate rooms_bin image) tr (Some r) →
  ∃ output : result io_error CmdOutput, tr = [Event (ORun rooms_bin (doctor_args image)) output] ∧
    (∀ p, r = Ok p ↔ ∃ out report, output = Ok out ∧ parse (stdout out) = Ok report ∧ dr_schema_version report = 1%N ∧
       p = {| pf_failures := filter (λ c, ck_ok c = false) (dr_checks report);
              pf_warnings := filter (λ c, ck_ok c = true ∧ is_warning c = true) (dr_checks report) |}) ∧
    ((∃ p, r = Ok p ∧ passed p = true) ↔
       ∃ out report, output = Ok out ∧ parse (stdout out) = Ok report ∧ dr_schema_version report = 1%N ∧
         all_ok report = true).
Proof.
  intros Hrun. destruct (spec_run _ _ _ _ _ (run_gate_spec rooms_bin image) Hrun) as [_ H].
  destruct (H r eq_refl) as (output & -> & Hg). exists output. splits; [done|exact Hg|]. split.
  - intros (p & Hp & Hpass). apply Hg in Hp as (out & report & ? & ? & ? & ->). exists out, report.
    splits; [done..|]. by apply gate_passed.
  - intros (out & report & ? & ? & ? & Hok). exists (gate report). split; [|by apply gate_passed].
    apply Hg. by exists out, report.
Qed.

End preflight.

(** ** A witness *)

Definition sample_report : DoctorReport :=
  {| dr_schema_version := 1; dr_checks := [passes "ok" "kvm"; passes "warn: old" "sha_drift"] |}.

Lemma gate_exact_report_witness :
  let parse := λ _ : string, Ok sample_report in
  let p := run_gate parse (λ _, "img") "rooms" (Some ["img"]) in
  run p (snd (exec idle_host p [])) (Some (Ok (gate sample_report))) ∧
  ∃ output : result io_error CmdOutput, snd (exec idle_host p []) = [Event (ORun "rooms" (doctor_args (λ _, "img") (Some ["img"]))) output].
Proof.
  intros parse p.
  assert (E : fst (exec idle_host p []) = Some (Ok (gate sample_report))) by (vm_compute; reflexivity).
  assert (Hr : run p (snd (exec idle_host p [])) (Some (Ok (gate sample_report)))) by (rewrite <- E; apply exec_run_nil).
  split; [exact Hr|].
  destruct (gate_exact_report parse (λ _, "img") "rooms" (Some ["img"]) _ _ Hr) as (output & H & _). by exists output.
Defined.
