(* ===== verification/DoctorLooks.v ===== *)
(** * DoctorLooks: what the doctor does to a host

    Every call of [rooms doctor] looks, but for one probe file it makes and
    removes; its report lists the fifteen checks in order, and its advisory
    checks always pass. *)

From S2P Require Import Prelude RStr Fs Host Config Pcap Prog Returns Sys Images Launch Intents Doctor Preflight.
From stdpp Require Import options.

(** Follow a program to its results. *)
Ltac give :=
  repeat (cbv beta zeta; match goal with
  | |- returns _ (Ret _) => cbn [returns]
  | |- returns _ (pbind _ _) => eapply returns_bind; [apply returns_any|intros ? _]
  | |- returns _ (ptry _ _) => eapply returns_bind; [apply returns_any|intros [?|?] _]
  | |- returns _ (match ?x with _ => _ end) => destruct x
  | |- returns _ (if ?x then _ else _) => destruct x
  | |- context [match ?x with _ => _ end] => destruct x
  end).

(** ** The calls that look *)

Definition looks_sys (op : sysop) : Prop :=
  match op with
  | OExists _ | OIsFile _ | OStat _ | OEnv _ | OReadText _ | OReadDir _ | OSeek _ _ | OReadExact _ _ | OReadAll _ _ => True
  | OOpen p how =>
      how = OpenRead ∨ (how = OpenReadWrite ∧ p = ["dev"; "kvm"]) ∨
      (how = OpenCreateNew ∧ ∃ dir, p = path_join dir ".rooms-doctor-write-probe")
  | ORemoveFile p => ∃ dir, p = path_join dir ".rooms-doctor-write-probe"
  | ORun program args =>
      (program, args) ∈ [("iptables", ["-S"; "ROOMS_FWD"]); ("ip", ["-o"; "link"; "show"]); ("kvm-ok", [])] ∨
      (program = "getent" ∧ ∃ who, args = ["passwd"; who])
  | ORunStatus program args => args = ["--version"] ∨ (program = "sha256sum" ∧ ∃ p, args = [p])
  | _ => False
  end.

Definition looks (op : dop) : Prop := match op with DSys op => looks_sys op | DMetadata _ => True end.

Lemma looks_hosted {A : Type} (p : sys A) : only looks_sys p → only looks (hosted p).
Proof. intros Hp. apply (only_translate looks_sys looks); [done|]. intros op Hop. by split. Qed.

Ltac look :=
  repeat (only_walk; try match goal with
  | |- only looks (hosted _) => apply looks_hosted
  | |- only _ (pfor_each _ _) => apply only_for_each; intros ? _
  | |- only looks (call _) => split; [|intros ?; exact I]
  | |- only looks_sys (call _) => split; [cbn; set_solver || eauto 6|intros ?; exact I]
  end).

Lemma looks_fwd : only looks_sys rooms_fwd_status.
Proof. unfold rooms_fwd_status. look. Qed.

Lemma looks_uid : only looks_sys firecracker_uid.
Proof. unfold firecracker_uid. look. Qed.

Lemma looks_gid uid : only looks_sys (current_primary_gid uid).
Proof. unfold current_primary_gid. look. Qed.

Lemma looks_first_dir l : only looks_sys (first_dir l).
Proof. induction l as [|p l IH]; cbn [first_dir]; look. Qed.

Lemma looks_writable dir : only looks_sys (dir_is_writable dir).
Proof. unfold dir_is_writable. look. Qed.

#[local] Hint Resolve looks_fwd looks_uid looks_gid looks_first_dir looks_writable looks_hosted : only.

Lemma looks_readable p uid : only looks (path_readable_by_uid p uid).
Proof. unfold path_readable_by_uid. look. Qed.

Section doctor_looks.
  Variable show_path : path → string.
  Variable show_status : option Z → string.
  Variable show_hex : N → string.
  Variable resolve : string → path.
  Variables (arch : target_arch) (HOST_ARCH : string) (home : option path) (config : RoomsConfig) (checksums : string).

Lemma looks_taps : only looks_sys (orphaned_pool_taps home config).
Proof using All. unfold orphaned_pool_taps, claimed_slot_indices. look. Qed.

Lemma looks_in_path binary : only looks_sys (resolve_in_path resolve binary).
Proof using All.
  unfold resolve_in_path. destruct (_ || _); [look|]. apply only_bind; [look|]. intros [path_var|]; [|done].
  induction (split_byte ":" path_var) as [|dir dirs IH]; [done|]. look.
Qed.

Lemma looks_kernel p : only looks_sys (validate_kernel arch p).
Proof using All. unfold validate_kernel. look. Qed.

Lemma looks_rootfs p min : only looks_sys (validate_rootfs p min).
Proof using All. unfold validate_rootfs, read_ext4_magic, read_exact. look. Qed.

Lemma looks_read p : only looks_sys (read_file p).
Proof using All. unfold read_file. look. Qed.

Lemma looks_knobs l : only looks_sys (nested_knobs resolve l).
Proof using All. induction l as [|p l IH]; cbn [nested_knobs]; look. Qed.

Lemma looks_sha p : only looks_sys (file_sha256 show_path show_status p).
Proof using All. unfold file_sha256. look. Qed.

#[local] Hint Resolve looks_readable looks_taps looks_in_path looks_kernel looks_rootfs looks_read looks_knobs looks_sha : only.

Lemma looks_drift pins image artifact :
  only looks_sys (drift_of show_path show_status resolve HOST_ARCH home config pins image artifact).
Proof using All. unfold drift_of, drift_target_path. look. Qed.

#[local] Hint Resolve looks_drift : only.

Lemma looks_checks image :
  Forall (only looks) (doctor_checks show_path show_status show_hex resolve arch HOST_ARCH home config checksums image).
Proof using All.
  unfold doctor_checks. repeat apply Forall_cons_2; [..|apply Forall_nil_2];
  unfold check_kvm, check_firecracker_version, check_jailer, check_firecracker_user, check_jailer_file_access, unreadable,
    check_tun_device, check_rooms_fwd, check_slots_dir, nearest_existing_dir, check_orphaned_taps, check_kernel,
    check_kernel_vsock, check_rootfs, check_anthropic_api_key, env_value, check_nested_virt, check_sha_drift, named; look.
Qed.

(** A check is named so, and always passes when it is advisory. *)
Definition check_named (c : string * bool) (r : CheckResult) : Prop := ck_name r = fst c ∧ (snd c = true → ck_ok r = true).

Definition doctor_table : list (string * bool) :=
  [("kvm", false); ("firecracker", false); ("jailer", false); ("firecracker_user", false); ("jailer_file_access", false);
   ("tun_device", false); ("rooms_fwd", false); ("slots_dir", false); ("orphaned_taps", true); ("kernel", false);
   ("kernel_vsock", true); ("rootfs", false); ("anthropic_api_key", true); ("nested_virt", false); ("sha_drift", true)].

Lemma named_returns {A : Type} c (p : doc A) (f : A → string → CheckResult) :
  returns (λ a, check_named c (f a (fst c))) p → returns (check_named c) (named (fst c) p f).
Proof using Type. intros Hp. unfold named. eapply returns_bind; [exact Hp|]. intros a Ha. exact Ha. Qed.

Ltac named_so := split; [reflexivity|done].

Ltac result :=
  try apply (returns_translate _ (λ op, call (DSys op)));
  first [solve [apply returns_all; intros ?; give; named_so]|give; named_so].

Lemma checks_named image :
  Forall2 (λ c p, returns (check_named c) p) doctor_table
    (doctor_checks show_path show_status show_hex resolve arch HOST_ARCH home config checksums image).
Proof using All.
  unfold doctor_checks, doctor_table, check_kvm, check_firecracker_version, check_jailer, check_firecracker_user,
    check_jailer_file_access, check_tun_device, check_rooms_fwd, check_slots_dir, check_orphaned_taps, check_kernel,
    check_kernel_vsock, check_rootfs, check_nested_virt, check_sha_drift, hosted.
  repeat apply Forall2_cons_2; [..|apply Forall2_nil_2];
    try (match goal with |- returns (check_named ?c) (named _ ?p ?f) => apply (named_returns c p f) end; result).
  unfold check_anthropic_api_key, anthropic_credential_result. give; named_so.
Qed.

End doctor_looks.

Lemma returns_for_each {Op : Type} {Ans : Op → Type} {C R : Type} (P : C → R → Prop) (table : list C) (ps : list (prog Ans R)) :
  Forall2 (λ c p, returns (P c) p) table ps → returns (Forall2 P table) (pfor_each id ps).
Proof.
  induction 1 as [|c p table ps Hp _ IH]; cbn [pfor_each returns]; [constructor|].
  eapply returns_bind; [exact Hp|]. intros r Hr. eapply returns_bind; [exact IH|]. intros rs Hrs. by constructor.
Qed.

(** [rooms doctor] only looks: at every point of a run, also one that never
    ends, every call so far read a file, a directory or a variable, asked
    [iptables -S], [ip link show], [getent], [kvm-ok], [sha256sum] or a
    [--version], opened [/dev/kvm], or made or removed its own probe file.  Its
    report carries schema version 1 and exactly the fifteen checks, in their
    order, whatever each call answered; the four advisory checks among them
    always pass. *)
Theorem doctor_looks_only show_path show_status show_hex resolve arch HOST_ARCH home config checksums image tr o :
  run (run_doctor show_path show_status show_hex resolve arch HOST_ARCH home config checksums image) tr o →
  all_calls looks tr ∧
  ∀ report, o = Some report → dr_schema_version report = 1%N ∧ Forall2 check_named doctor_table (dr_checks report).
Proof.
  intros Hr. split.
  - eapply only_all_calls, Hr. unfold run_doctor. apply only_bind; [|intros ?; exact I].
    apply only_for_each. intros p Hp. by eapply (proj1 (Forall_forall _ _) (looks_checks _ _ _ _ _ _ _ _ _ _)).
  - intros report ->. revert Hr. apply (returns_run (λ r, dr_schema_version r = 1%N ∧ Forall2 check_named doctor_table (dr_checks r))).
    unfold run_doctor.
    eapply returns_bind; [apply (returns_for_each check_named), checks_named|]. intros checks Hchecks. by split.
Qed.

(** A machine with nothing installed. *)
Definition bare_machine (h : list (event dans)) (op : dop) : dans op :=
  match op with DSys op => idle_host [] op | DMetadata _ => Err (io_err NotFound) end.

Lemma doctor_looks_only_witness :
  let p := run_doctor (join "/") (λ _, "1") (λ _, "0") (split_byte "/") X86_64 "x86_64" (Some ["home"]) sample_config EmptyString None in
  all_calls looks (snd (exec bare_machine p [])) ∧ length (snd (exec bare_machine p [])) = 20.
Proof.
  intros p. split; [|vm_compute; reflexivity].
  exact (proj1 (doctor_looks_only _ _ _ _ _ _ _ _ _ _ _ _ (exec_run_nil bare_machine p))).
Defined.
