(* ===== verification/Cli.v ===== *)
(** * Cli: what the command line admits and reports ([main.rs])

    The parsers of the flags, the secrets taken out of the environment, the
    action a run resolves to, and the exit codes and records of the commands.
    [clap] has already split the arguments; the environment of [harvest_secrets],
    which is read and changed before any thread starts, is a map of byte
    strings. *)

From S2P Require Import Prelude RStr Fs Room IndexedClaim Slot CloneRoutes Artifacts Prog Config Egress Sys Images Launch RestoreExec Registry Runner Matrix Doctor.
From stdpp Require Import options.

(** ** Errors *)

(** A transport or a runner error is its message. *)
Inductive RoomsError :=
| RmFirecracker (e : FirecrackerError)
| RmCloneNet (e : CloneNetError)
| RmRootfs (e : RootfsError)
| RmTransport (detail : string)
| RmRunner (detail : string)
| RmRegistry (e : RegistryError)
| RmMatrix (e : MatrixError)
| RmSlot (e : SlotError)
| RmInternal (detail : string).

Definition exit_code_for_error (e : RoomsError) : N :=
  match e with
  | RmSlot (SePoolFull _) | RmCloneNet (CnePoolFull _) => 4
  | _ => 2
  end.

Definition error_kind (e : RoomsError) : string :=
  match e with
  | RmSlot (SePoolFull _) | RmCloneNet (CnePoolFull _) => "pool_full"
  | RmSlot _ => "slot"
  | RmCloneNet _ => "clone_net"
  | RmFirecracker _ => "firecracker"
  | RmRootfs _ => "rootfs"
  | RmTransport _ => "transport"
  | RmRunner _ => "runner"
  | RmRegistry _ => "registry"
  | RmMatrix _ => "matrix"
  | RmInternal _ => "internal"
  end.

Record RunErrorRecord := { er_error_kind : string; er_message : string; er_cap : option N }.

(** [Display]: every wrapped error shows itself. *)
Definition rooms_message (show_path : path → string) (show_hex : N → string) (show_matrix : MatrixError → string)
    (e : RoomsError) : string :=
  match e with
  | RmFirecracker e => fc_message e
  | RmCloneNet e => show_CloneNetError e
  | RmRootfs e => rootfs_message show_path show_hex e
  | RmTransport detail | RmRunner detail => detail
  | RmRegistry e => re_message show_path e
  | RmMatrix e => show_matrix e
  | RmSlot e => show_SlotError e
  | RmInternal detail => "internal: " +:+ detail
  end.

Definition run_error_record (display : RoomsError → string) (e : RoomsError) : RunErrorRecord :=
  {| er_error_kind := error_kind e;
     er_message := display e;
     er_cap := match e with RmSlot (SePoolFull cap) | RmCloneNet (CnePoolFull cap) => Some cap | _ => None end |}.

(** ** Numbers *)

(** The message of [ParseIntError]: at the first byte that fails. *)
Fixpoint digits_error (max acc : N) (s : string) : string :=
  match s with
  | EmptyString => EmptyString
  | String a r =>
      match digit_value a with
      | None => "invalid digit found in string"
      | Some d =>
          let v := (acc * 10 + d)%N in
          if (v <=? max)%N then digits_error max v r else "number too large to fit in target type"
      end
  end.

Definition parse_int_error (max : N) (s : string) : string :=
  match s with
  | EmptyString => "cannot parse integer from empty string"
  | String a r =>
      if (a =? "+")%char then if is_empty r then "invalid digit found in string" else digits_error max 0 r
      else digits_error max 0 s
  end.

Definition parse_cpus (value : string) : result string N :=
  match parse_uint u8_max value with
  | None => Err (parse_int_error u8_max value)
  | Some cpus =>
      if negb ((1 <=? cpus) && (cpus <=? 32))%N || ((1 <? cpus) && negb (cpus mod 2 =? 0))%N
      then Err "CPUs must be 1 or an even number from 2 to 32" else Ok cpus
  end.

(** [str::strip_suffix] of one byte, and the seconds of the unit. *)
Definition split_duration_unit (s : string) : string * N :=
  match strip_suffix_byte "h" s with Some digits => (digits, 3600%N) | None =>
  match strip_suffix_byte "m" s with Some digits => (digits, 60%N) | None =>
  match strip_suffix_byte "s" s with Some digits => (digits, 1%N) | None => (s, 1%N) end end end.

(** Whole seconds. *)
Definition parse_max_wall (s : string) : result string N :=
  let '(digits, secs_per_unit) := split_duration_unit (trim s) in
  match parse_uint u64_max digits with
  | None => Err ("invalid --max-wall '" +:+ s +:+ "': want an integer with an optional s/m/h suffix")
  | Some value =>
      if (value =? 0)%N then Err "--max-wall must be greater than zero"
      else Ok (N.min (value * secs_per_unit) u64_max)
  end.

Definition parse_max_pool (s : string) : result string N :=
  match parse_uint u8_max (trim s) with
  | None => Err ("invalid --max-pool '" +:+ s +:+ "': want an integer 1..=" +:+ show_N MAX_SLOT)
  | Some n =>
      if (n =? 0)%N then Err "--max-pool must be greater than zero" else
      if (MAX_SLOT <? n)%N then
        Err ("--max-pool " +:+ show_N n +:+ " exceeds the addressing ceiling " +:+ show_N MAX_SLOT +:+
             ": the pool is a /24 carved into /30s (64 slots minus the reserved slot 0), so slot indices top out at " +:+
             show_N MAX_SLOT)
      else Ok n
  end.

Definition max_leases : N := N.of_nat MAX_CLONE_LEASES.

Definition parse_clone_count (s : string) : result string N :=
  match parse_uint u8_max (trim s) with
  | None => Err ("invalid clone count '" +:+ s +:+ "': want an integer 1..=" +:+ show_N max_leases)
  | Some count =>
      if (max_leases <? count)%N || (count =? 0)%N then Err ("clone count must be in 1..=" +:+ show_N max_leases) else Ok count
  end.

Definition non_empty_command (s : string) : result string string :=
  if is_empty s then Err "--command must not be empty" else Ok s.

Definition validate_clone_capacity (count cap : N) : result RoomsError unit :=
  if (count <=? cap)%N then Ok () else Err (RmCloneNet (CnePoolFull cap)).

(** ** Secrets *)

Definition valid_secret_name (s : string) : result string string :=
  let ok := match s with
            | EmptyString => false
            | String c r =>
                (is_ascii_uppercase c || (c =? "_")%char) &&
                all_bytes (λ c, is_ascii_uppercase c || is_ascii_digit c || (c =? "_")%char) r
            end in
  if ok then Ok s
  else Err ("invalid --secret name '" +:+ s +:+ "': want an env-var name matching [A-Z_][A-Z0-9_]*").

(** [String::from_utf8] succeeds: nothing of the text is replaced. *)
Definition is_utf8 (s : string) : bool := (lossy s =? s)%string.

(** [std::env::var]. *)
Definition env_var (env : gmap string string) (name : string) : option string :=
  value ← env !! name; if is_utf8 value then Some value else None.

(** The loop over the names, with those seen and the pairs taken so far. *)
Fixpoint harvest (env : gmap string string) (seen : list string) (pairs : list (string * string)) (names : list string)
    : result RoomsError (list (string * string)) * gmap string string :=
  match names with
  | [] => (Ok pairs, env)
  | name :: names =>
      if bool_decide (name ∈ seen) then harvest env seen pairs names else
      match env_var env name with
      | None => (Err (RmInternal ("--secret " +:+ name +:+ ": not set in the host environment")), env)
      | Some value =>
          if is_empty value then (Err (RmInternal ("--secret " +:+ name +:+ ": value is empty")), env) else
          if contains_byte nl value then
            (Err (RmInternal ("--secret " +:+ name +:+
                              ": value contains a newline, which the line-oriented blob cannot carry")), env)
          else harvest (delete name env) (name :: seen) (pairs ++ [(name, value)]) names
      end
  end.

(** The encoded payload, and the environment left. *)
Definition harvest_secrets (env : gmap string string) (names : list string)
    : result RoomsError (option string) * gmap string string :=
  if bool_decide (names = []) then (Ok None, env) else
  match harvest env [] [] names with
  | (Ok pairs, env) => (Ok (Some (SecretsPayload_encode pairs)), env)
  | (Err e, env) => (Err e, env)
  end.

Definition ensure_kernel_has_vsock (show_path : path → string) (kernel : path) : sys (result RoomsError unit) :=
  try* bytes := pmap_err (λ e, RmInternal ("read kernel " +:+ show_path kernel +:+ ": " +:+ message e)) (read_file kernel) in
  Ret (if kernel_carries_vsock bytes then Ok () else
       Err (RmInternal ("--secret: guest kernel " +:+ show_path kernel +:+
              " has no virtio_vsock support; use a kernel built with CONFIG_VIRTIO_VSOCKETS=y"))).

(** ** A run *)

Definition given {A : Type} (o : option A) : bool := match o with Some _ => true | None => false end.

Inductive RunnerKind := KindCommand | KindCursor.

(** Durations are nanoseconds. *)
Record RunArgs := {
  ra_resources : Resources;
  ra_image : path;
  ra_toolstore : option path;
  ra_keep : bool;
  ra_command : option string;
  ra_runner : RunnerKind;
  ra_repo : option string;
  ra_task : option path;
  ra_model : option string;
  ra_base_sha : option string;
  ra_push_branch : option string;
  ra_out_dir : option path;
  ra_readonly_rootfs : bool;
  ra_max_wall : option N;
  ra_max_pool : option N;
  ra_json : bool;
  ra_lifecycle : option path;
  ra_witness : bool;
  ra_secrets : option string;
  ra_egress : Policy
}.

Inductive Action := Keep | Exec (r : Runner) | Idle.

Definition is_exec (a : Action) : bool := match a with Exec _ => true | _ => false end.

Definition required {A : Type} (o : option A) (detail : string) : result RoomsError A := ok_or o (RmInternal detail).

Definition resolve_cursor (show_path : path → string) (args : RunArgs) : sys (result RoomsError Action) :=
  try* task_path := Ret (required (ra_task args) "--task is required for --runner cursor") in
  try* task_md := pmap_err (λ e, RmInternal ("read --task file " +:+ show_path task_path +:+ ": " +:+ message e))
                    (call (OReadText task_path)) in
  try* repo_url := Ret (required (ra_repo args) "--repo is required for --runner cursor") in
  try* base_sha := Ret (required (ra_base_sha args) "--base-sha is required for --runner cursor") in
  try* model_id := Ret (required (ra_model args) "--model is required for --runner cursor") in
  let action := Exec (Cursor {| cr_repo_url := repo_url; cr_task_md := task_md;
                                cr_meta := {| cm_base_sha := base_sha; cm_model_id := model_id |};
                                cr_push_branch := ra_push_branch args |}) in
  match ra_push_branch args with
  | None => Ret (Ok action)
  | Some _ =>
      let* token := (call (OEnv "GH_TOKEN") : sys (option string)) in
      Ret (match token with
           | None => Err (RmInternal "--push-branch requires GH_TOKEN in the environment")
           | Some _ => Ok action
           end)
  end.

Definition resolve_command (args : RunArgs) : result RoomsError Action :=
  match ra_push_branch args with
  | Some _ => Err (RmInternal "--push-branch is only valid with --runner cursor")
  | None =>
      Ok (match ra_command args with
          | None => Idle
          | Some command =>
              match ra_repo args with
              | None => Exec (Command command)
              | Some repo_url => Exec (RepositoryCommand command repo_url (default "HEAD" (ra_base_sha args)))
              end
          end)
  end.

Definition resolve_action (show_path : path → string) (args : RunArgs) : sys (result RoomsError Action) :=
  if match ra_repo args with Some repo => repo_url_has_userinfo repo | None => false end
  then Ret (Err (RmInternal "--repo URL must not embed credentials")) else
  if given (ra_base_sha args) && negb (given (ra_repo args))
  then Ret (Err (RmInternal "--base-sha requires --repo")) else
  if given (ra_repo args) && match ra_runner args with KindCommand => true | KindCursor => false end &&
     negb (given (ra_command args))
  then Ret (Err (RmInternal "--repo requires --command or --runner cursor")) else
  if ra_keep args then Ret (Ok Keep) else
  match ra_runner args with
  | KindCursor => resolve_cursor show_path args
  | KindCommand => Ret (resolve_command args)
  end.

Definition room_label (action : Action) : string :=
  match action with
  | Keep => "(keep)"
  | Idle => "(idle)"
  | Exec (Command cmd) | Exec (RepositoryCommand cmd _ _) => cmd
  | Exec (Cursor req) => "cursor:" +:+ cr_repo_url req
  end.

(** ** Exit codes and text *)

Definition changeset_exit_code (c : Changeset) : N :=
  if negb (overlay_active c) then 2 else if bool_decide (lane_escapes c = []) then 0 else 3.

(** [gc_cmd] after the report. *)
Definition gc_exit_code (r : GcReport) : N :=
  if negb (gr_dry_run r) && existsb (λ o, is_reapable (go_state o) && negb (go_reaped o)) (gr_outcomes r) then 1 else 0.

(** Of a number of seconds from 0 up. *)
Definition humanize_secs (secs : N) : string :=
  (if secs <? 60 then show_N secs +:+ "s" else
   if secs <? 3600 then show_N (secs / 60) +:+ "m" +:+ show_N (secs mod 60) +:+ "s" else
   if secs <? 86400 then show_N (secs / 3600) +:+ "h" +:+ show_N (secs mod 3600 / 60) +:+ "m" else
   show_N (secs / 86400) +:+ "d" +:+ show_N (secs mod 86400 / 3600) +:+ "h")%N.

(** Whole seconds between the two times, in nanoseconds, and at least none. *)
Definition format_age (started_at : option Z) : sys string :=
  match started_at with
  | None => Ret "?"
  | Some start => let* now := call OUtcNow in Ret (humanize_secs (Z.to_N (Z.quot (now - start) 1000000000)))
  end.

(** [chars().count()], and the first characters. *)
Definition starts_char (a : byte) : bool := negb (is_continuation a).

Definition char_count (s : string) : nat := length (filter (λ a, starts_char a = true) (String.list_ascii_of_string s)).

Fixpoint first_chars (n : nat) (s : string) : string :=
  match s with
  | EmptyString => EmptyString
  | String a r =>
      if starts_char a then match n with 0 => EmptyString | S n => String a (first_chars n r) end
      else String a (first_chars n r)
  end.

Definition truncate_label (label : option string) (max : nat) : string :=
  match label with
  | None => "-"
  | Some s => if (char_count s <=? max)%nat then s else first_chars (max - 1) s +:+ "…"
  end.
