(* ===== verification/CliSpec.v ===== *)
(** * CliSpec: what the command line's own decisions promise

    The secrets taken out of the environment, the numbers admitted, and the
    action a run resolves to. *)

From S2P Require Import Prelude RStr Fs Slot Egress Config Prog Sys Launch RestoreExec Runner Matrix Cli.
From stdpp Require Import options.

(** ** Secrets *)

(** What a reader of the blob finds: a pair on every line. *)
Definition read_blob (blob : string) : list (string * string) := omap (split_once "=") (split_byte nl blob).

Definition name_byte (c : byte) : bool := is_ascii_uppercase c || is_ascii_digit c || (c =? "_")%char.

Lemma secret_name_bytes s : valid_secret_name s = Ok s → all_bytes name_byte s = true.
Proof.
  unfold valid_secret_name. destruct s as [|c r]; [done|]. cbn [all_bytes].
  destruct (_ && _) eqn:E; [intros _|done]. apply andb_true_iff in E as [Hc Hr].
  apply andb_true_iff. split; [|exact Hr]. unfold name_byte. apply orb_true_iff in Hc as [->| ->]; by rewrite ?orb_true_r.
Qed.

Lemma secret_name_lacks c s : name_byte c = false → valid_secret_name s = Ok s → lacks c s = true.
Proof.
  intros Hc H%secret_name_bytes. eapply all_bytes_impl; [|exact H]. intros a Ha.
  destruct (Ascii.eqb_spec a c) as [->|]; [congruence|done].
Qed.

Lemma encode_cons n v pairs :
  SecretsPayload_encode ((n, v) :: pairs) = (n +:+ "=" +:+ v) +:+ String nl (SecretsPayload_encode pairs).
Proof.
  unfold SecretsPayload_encode. rewrite fmap_cons. destruct pairs as [|p pairs].
  - cbn. by rewrite !app_assoc.
  - rewrite fmap_cons. cbn [String.concat]. rewrite !app_assoc. reflexivity.
Qed.

Lemma read_encode pairs :
  Forall (λ p, valid_secret_name (fst p) = Ok (fst p) ∧ contains_byte nl (snd p) = false) pairs →
  read_blob (SecretsPayload_encode pairs) = pairs.
Proof.
  unfold read_blob. induction 1 as [|[n v] pairs [Hn Hv] _ IH]; [done|]. cbn [fst snd] in *.
  rewrite contains_byte_lacks in Hv. apply negb_false_iff in Hv.
  rewrite encode_cons, split_byte_app.
  - cbn [omap list_omap]. change (n +:+ "=" +:+ v) with (n +:+ String "=" v).
    rewrite split_once_app by (apply secret_name_lacks; done). by rewrite IH.
  - rewrite !lacks_app, Hv, (secret_name_lacks nl) by done. reflexivity.
Qed.

(** What one pass over the names leaves, from what it has seen and taken. *)
Definition harvested (env : gmap string string) (seen names : list string) (more : list (string * string)) (env' : gmap string string) : Prop :=
  NoDup (more.*1) ∧ (more.*1) `sublist_of` names ∧ (∀ n, n ∈ (more.*1) ↔ n ∈ names ∧ n ∉ seen) ∧
  (∀ n v, (n, v) ∈ more → env_var env n = Some v ∧ v ≠ EmptyString ∧ contains_byte nl v = false) ∧
  ∀ n, env' !! n = if bool_decide (n ∈ (more.*1)) then None else env !! n.

(** A variable that cannot be delivered. *)
Definition undeliverable (env : gmap string string) (name : string) : Prop :=
  match env_var env name with None => True | Some v => v = EmptyString ∨ contains_byte nl v = true end.

Lemma harvested_none env seen : harvested env seen [] [] env.
Proof. unfold harvested. split_and!; [constructor|done|set_solver..]. Qed.

Lemma harvested_skip env seen name names more env' :
  name ∈ seen → harvested env seen names more env' → harvested env seen (name :: names) more env'.
Proof.
  intros Hs (Hnd & Hsub & Hn & Hv & He). unfold harvested. split_and!; [done|by apply sublist_cons| |done..].
  intros n. rewrite Hn. set_solver.
Qed.

Lemma harvested_take env seen name value names more env' :
  name ∉ seen → env_var env name = Some value → value ≠ EmptyString → contains_byte nl value = false →
  harvested (delete name env) (name :: seen) names more env' → harvested env seen (name :: names) ((name, value) :: more) env'.
Proof.
  intros Hs Hvar Hne Hnl (Hnd & Hsub & Hn & Hv & He). unfold harvested. rewrite fmap_cons. cbn [fst]. split_and!.
  - apply NoDup_cons. split; [|done]. rewrite Hn. set_solver.
  - by apply sublist_skip.
  - intros n. rewrite elem_of_cons, Hn, elem_of_cons. destruct (decide (n = name)); set_solver.
  - intros n v [[= -> ->]|Hin]%elem_of_cons; [done|]. specialize (Hv _ _ Hin).
    assert (Hin' : n ∈ (more.*1)) by (apply list_elem_of_fmap; by exists (n, v)).
    unfold env_var in *. rewrite lookup_delete_ne in Hv by (apply Hn in Hin'; set_solver). done.
  - intros n. rewrite He. destruct (decide (n = name)) as [->|Hnn].
    + rewrite lookup_delete_eq. by rewrite (bool_decide_true (name ∈ name :: _)) by set_solver; case_bool_decide.
    + rewrite lookup_delete_ne by done. do 2 case_bool_decide; set_solver.
Qed.

Lemma harvest_spec env seen pairs names :
  match harvest env seen pairs names with
  | (Ok all, env') => ∃ more, all = pairs ++ more ∧ harvested env seen names more env'
  | (Err _, env') =>
      ∃ before name after more, names = before ++ name :: after ∧ name ∉ seen ++ before ∧ undeliverable env name ∧
        harvested env seen before more env'
  end.
Proof.
  revert env seen pairs. induction names as [|name names IH]; intros env seen pairs; cbn [harvest].
  { exists []. rewrite (right_id_L [] (++)). split; [done|apply harvested_none]. }
  case_bool_decide as Hs.
  { specialize (IH env seen pairs). destruct (harvest env seen pairs names) as [[all|e] env'].
    - destruct IH as (more & -> & H). exists more. split; [done|by apply harvested_skip].
    - destruct IH as (before & bad & after & more & -> & Hb & Hu & H). exists (name :: before), bad, after, more.
      split_and!; [done|set_solver|done|by apply harvested_skip]. }
  assert (Hbad : undeliverable env name →
    ∃ before bad after more, name :: names = before ++ bad :: after ∧ bad ∉ seen ++ before ∧ undeliverable env bad ∧
      harvested env seen before more env).
  { intros Hu. exists [], name, names, []. rewrite (right_id_L [] (++)). split_and!; [done..|apply harvested_none]. }
  unfold undeliverable at 1 in Hbad. destruct (env_var env name) as [value|] eqn:Hvar; [|by apply Hbad].
  destruct (is_empty value) eqn:Hem; [apply Hbad; left; by destruct value|].
  destruct (contains_byte nl value) eqn:Hnl; [apply Hbad; by right|]. clear Hbad.
  assert (Hne : value ≠ EmptyString) by (by intros ->).
  specialize (IH (delete name env) (name :: seen) (pairs ++ [(name, value)])).
  destruct (harvest (delete name env) _ _ names) as [[all|e] env'].
  - destruct IH as (more & -> & H). exists ((name, value) :: more). rewrite <- (assoc_L (++)). split; [done|].
    by apply harvested_take.
  - destruct IH as (before & bad & after & more & -> & Hb & Hu & H).
    exists (name :: before), bad, after, ((name, value) :: more).
    split_and!; [done|set_solver| |by apply harvested_take].
    unfold undeliverable, env_var in *. rewrite lookup_delete_ne in Hu by set_solver. done.
Qed.

(** C35. The secrets of a run, by name: when they are all taken, a reader of the
    blob gets back exactly one pair for each name asked for, in the order they
    were asked for, with the value the environment held, and the
    environment has lost exactly those names, so nothing can forward them
    again.  When it fails, it is at the first name that is unset, not UTF-8,
    empty or holds a newline, and the environment has lost exactly the names
    before it. *)
Theorem secrets_harvested env names :
  Forall (λ n, valid_secret_name n = Ok n) names →
  match harvest_secrets env names with
  | (Ok None, env') => names = [] ∧ env' = env
  | (Ok (Some blob), env') =>
      let pairs := read_blob blob in
      blob = SecretsPayload_encode pairs ∧
      NoDup (pairs.*1) ∧ ((pairs.*1) `sublist_of` names) ∧ (∀ n, n ∈ names ↔ n ∈ (pairs.*1)) ∧
      (∀ n v, (n, v) ∈ pairs → env !! n = Some v ∧ is_utf8 v = true ∧ v ≠ EmptyString) ∧
      ∀ n, env' !! n = if bool_decide (n ∈ names) then None else env !! n
  | (Err _, env') =>
      ∃ before name after, names = before ++ name :: after ∧ name ∉ before ∧ undeliverable env name ∧
        (∀ n, n ∈ before → ¬ undeliverable env n) ∧
        ∀ n, env' !! n = if bool_decide (n ∈ before) then None else env !! n
  end.
Proof.
  intros Hvalid. unfold harvest_secrets. case_bool_decide as Hnil; [done|].
  pose proof (harvest_spec env [] [] names) as H. destruct (harvest env [] [] names) as [[all|e] env'].
  - destruct H as (more & -> & Hnd & Hsub & Hn & Hv & He). cbv beta zeta. cbn [app].
    assert (Hmem : ∀ n, n ∈ names ↔ n ∈ (more.*1)) by (intros n; rewrite Hn; set_solver).
    rewrite read_encode.
    + split_and!; [done..| |].
      * intros n v Hin. destruct (Hv _ _ Hin) as (Hvar & Hne & _). unfold env_var in Hvar.
        destruct (env !! n) as [w|]; [|done]. cbn in Hvar. destruct (is_utf8 w) eqn:Hw; [|done]. by injection Hvar as ->.
      * intros n. rewrite He. by rewrite (bool_decide_ext _ _ (Hmem n)).
    + apply Forall_forall. intros [n v] Hin. cbn [fst snd]. split; [|by apply (Hv n v Hin)].
      apply (proj1 (Forall_forall _ _) Hvalid), Hmem, list_elem_of_fmap. by exists (n, v).
  - destruct H as (before & name & after & more & -> & Hb & Hu & Hnd & Hsub & Hn & Hv & He).
    assert (Hmem : ∀ n, n ∈ before ↔ n ∈ (more.*1)) by (intros n; rewrite Hn; set_solver).
    exists before, name, after. split_and!; [done..| |].
    + intros n Hin Hun. apply Hmem, list_elem_of_fmap in Hin as ([m v] & -> & Hin).
      destruct (Hv _ _ Hin) as (Hvar & Hne & Hnl). unfold undeliverable in Hun. cbn [fst] in Hun. rewrite Hvar in Hun.
      destruct Hun; congruence.
    + intros n. rewrite He. by rewrite (bool_decide_ext _ _ (Hmem n)).
Qed.

Lemma secrets_harvested_witness :
  let env := <["API_KEY" := "k=1"]> (<["TOKEN" := "t"]> (<["HOME" := "/root"]> ∅)) in
  let names := ["TOKEN"; "API_KEY"; "TOKEN"] in
  Forall (λ n, valid_secret_name n = Ok n) names ∧
  match harvest_secrets env names with
  | (Ok (Some blob), env') => read_blob blob = [("TOKEN", "t"); ("API_KEY", "k=1")] ∧ env' !! "API_KEY" = None
  | _ => False
  end.
Proof.
  intros env names. assert (Hv : Forall (λ n, valid_secret_name n = Ok n) names) by (repeat constructor).
  split; [exact Hv|]. pose proof (secrets_harvested env names Hv) as H.
  destruct (harvest_secrets env names) as [[[blob|]|e] env'] eqn:E; [|vm_compute in E; discriminate..].
  split.
  - assert (Hb : fst (harvest_secrets env names) = Ok (Some blob)) by (by rewrite E).
    vm_compute in Hb. injection Hb as <-. vm_compute. reflexivity.
  - destruct H as (_ & _ & _ & _ & _ & He). rewrite He. vm_compute. reflexivity.
Defined.

(** ** Numbers *)

(** The number a text of decimal digits denotes. *)
Fixpoint decimal (acc : N) (s : string) : N :=
  match s with EmptyString => acc | String a s => decimal (acc * 10 + (code a - 48)) s end%N.

(** A numeral: decimal digits, at least one, perhaps after a plus sign. *)
Definition denotes (s : string) (n : N) : Prop :=
  ∃ digits, (s = digits ∨ s = String "+" digits) ∧ digits ≠ EmptyString ∧ all_bytes is_ascii_digit digits = true ∧
    n = decimal 0 digits.

(** The units of a duration, by suffix, in seconds. *)
Definition wall_units : list (string * N) := [("", 1); ("s", 1); ("m", 60); ("h", 3600)]%N.

Lemma decimal_le acc s : (acc ≤ decimal acc s)%N.
Proof. revert acc; induction s as [|a s IH]; intros acc; cbn [decimal]; [done|]. etransitivity; [|apply IH]. lia. Qed.

Lemma digit_value_Some a d : digit_value a = Some d ↔ is_ascii_digit a = true ∧ d = (code a - 48)%N.
Proof. unfold digit_value. destruct (is_ascii_digit a); naive_solver. Qed.

Lemma parse_digits_iff max acc s n :
  (acc ≤ max)%N →
  parse_digits max acc s = Some n ↔ all_bytes is_ascii_digit s = true ∧ n = decimal acc s ∧ (n ≤ max)%N.
Proof.
  revert acc; induction s as [|a s IH]; intros acc Hacc; cbn [parse_digits decimal all_bytes]; [naive_solver|].
  destruct (digit_value a) as [d|] eqn:Hd.
  - apply digit_value_Some in Hd as [-> ->]. cbv zeta. cbn [andb].
    destruct (N.leb_spec (acc * 10 + (code a - 48)) max); [by apply IH|].
    pose proof (decimal_le (acc * 10 + (code a - 48)) s). split; [done|]. intros (_ & -> & ?). lia.
  - destruct (is_ascii_digit a) eqn:Ha; [|by split; [|intros []]].
    by rewrite (proj2 (digit_value_Some a _) (conj Ha eq_refl)) in Hd.
Qed.

Lemma parse_uint_iff max s n : parse_uint max s = Some n ↔ denotes s n ∧ (n ≤ max)%N.
Proof.
  unfold denotes. destruct s as [|a s]; [split; [done|]; intros [(? & [<-|[=]] & ? & _) _]; done|]. unfold parse_uint.
  destruct (Ascii.eqb_spec a "+") as [->|Ha].
  - split.
    + destruct (is_empty s) eqn:He; [done|]. intros (Hs & -> & ?)%parse_digits_iff; [|lia]. split; [|done].
      exists s. split; [by right|]. split; [by intros ->|done].
    + intros [(ds & [<-|[= <-]] & Hne & Hds & ->) Hle]; [done|]. destruct s; [done|]. by apply parse_digits_iff; [lia|].
  - rewrite parse_digits_iff by lia. split; [intros (H & -> & ?); split; [|done]; exists (String a s); by split_and!; [left|..]|].
    by intros [(ds & [<-|[= ? _]] & _ & Hds & ->) Hle].
Qed.

Lemma denotes_last s a n : is_ascii_digit a = false → ¬ denotes (s +:+ String a "") n.
Proof.
  intros Ha (ds & Hs & Hne & Hds & _).
  assert (Hlast : ∀ t, all_bytes is_ascii_digit (t +:+ String a "") = false)
    by (intros t; rewrite all_bytes_app; cbn; by rewrite Ha, andb_false_r).
  destruct Hs as [<-|Hs]; [by rewrite Hlast in Hds|]. destruct s as [|b s]; [by injection Hs as _ <-|].
  rewrite app_cons in Hs. injection Hs as _ <-. by rewrite Hlast in Hds.
Qed.

Lemma strip_other_suffix a b s : a ≠ b → strip_suffix_byte a (s +:+ String b "") = None.
Proof.
  intros Hab. induction s as [|c s IH]; [rewrite app_nil_l; cbn [strip_suffix_byte]; destruct (Ascii.eqb_spec b a); congruence|]. rewrite app_cons. cbn [strip_suffix_byte].
  rewrite IH. destruct s; by rewrite ?app_cons.
Qed.

(** The unit is told by the last byte. *)
Lemma split_duration_unit_Some t d unit :
  split_duration_unit t = (d, unit) → ∃ suffix, (suffix, unit) ∈ wall_units ∧ t = d +:+ suffix.
Proof.
  unfold split_duration_unit.
  destruct (strip_suffix_byte "h" t) as [r|] eqn:Eh.
  { intros [= <- <-]. exists "h". apply strip_suffix_byte_Some in Eh. split; [by do 3 right; left|done]. }
  destruct (strip_suffix_byte "m" t) as [r|] eqn:Em.
  { intros [= <- <-]. exists "m". apply strip_suffix_byte_Some in Em. split; [by do 2 right; left|done]. }
  destruct (strip_suffix_byte "s" t) as [r|] eqn:Es.
  { intros [= <- <-]. exists "s". apply strip_suffix_byte_Some in Es. split; [by right; left|done]. }
  intros [= <- <-]. exists "". split; [by left|by rewrite app_nil_r].
Qed.

Lemma split_duration_unit_of digits suffix unit n :
  (suffix, unit) ∈ wall_units → denotes digits n → split_duration_unit (digits +:+ suffix) = (digits, unit).
Proof.
  intros Hin Hn. unfold split_duration_unit.
  assert (Hnone : ∀ a, is_ascii_digit a = false → strip_suffix_byte a digits = None).
  { intros a Ha. destruct (strip_suffix_byte a digits) as [r|] eqn:E; [|done].
    apply strip_suffix_byte_Some in E as ->. by apply denotes_last in Hn. }
  unfold wall_units in Hin. rewrite !elem_of_cons, elem_of_nil in Hin.
  destruct Hin as [[= -> ->]|[[= -> ->]|[[= -> ->]|[[= -> ->]|[]]]]].
  - rewrite app_nil_r, !Hnone by done. done.
  - by rewrite 2!strip_other_suffix, strip_suffix_byte_app.
  - by rewrite strip_other_suffix, strip_suffix_byte_app.
  - by rewrite strip_suffix_byte_app.
Qed.

(** C37. The numbers the command line admits, by what a numeral denotes: vCPUs are 1
    or an even number up to 32; a pool ceiling is one of the 63 slots that exist; a
    clone count is at most the eight that a slot can lease; a wall-clock cap is a
    numeral that denotes a positive [u64] followed by nothing, [s], [m] or [h], and
    counts as many seconds, minutes or hours, held at the largest [u64] instead of
    wrapping. *)
Theorem numbers_admitted s :
  (∀ n, parse_cpus s = Ok n ↔ denotes s n ∧ (n = 1 ∨ (2 ≤ n ≤ 32 ∧ n mod 2 = 0)))%N ∧
  (∀ n, parse_max_pool s = Ok n ↔ denotes (trim s) n ∧ 1 ≤ n ≤ 63)%N ∧
  (∀ n, parse_clone_count s = Ok n ↔ denotes (trim s) n ∧ 1 ≤ n ≤ 8)%N ∧
  (∀ d, parse_max_wall s = Ok d ↔ ∃ digits suffix unit value, (suffix, unit) ∈ wall_units ∧ trim s = digits +:+ suffix ∧
    denotes digits value ∧ 1 ≤ value ≤ 2 ^ 64 - 1 ∧ d = N.min (value * unit) (2 ^ 64 - 1))%N.
Proof.
  assert (Hparsed : ∀ max t n (P : Prop), (P → n ≤ max)%N → parse_uint max t = Some n ∧ P ↔ denotes t n ∧ P)
    by (intros max t n P HP; rewrite parse_uint_iff; naive_solver).
  split_and!; intros n.
  - etransitivity; [|apply (Hparsed u8_max); unfold u8_max; lia].
    unfold parse_cpus. destruct (parse_uint u8_max s) as [c|]; [|naive_solver].
    assert (Hc : (negb ((1 <=? c) && (c <=? 32)) || ((1 <? c) && negb (c mod 2 =? 0)))%N = false ↔
      (c = 1 ∨ (2 ≤ c ≤ 32 ∧ c mod 2 = 0))%N).
    { generalize (N.le_refl c). destruct (N.leb_spec 1 c), (N.leb_spec c 32), (N.ltb_spec 1 c), (N.eqb_spec (c mod 2) 0);
        cbn [negb andb orb]; intuition (try discriminate; try lia). }
    destruct (_ || _); naive_solver.
  - etransitivity; [|apply (Hparsed u8_max); unfold u8_max; lia].
    unfold parse_max_pool. destruct (parse_uint u8_max (trim s)) as [c|]; [|naive_solver]. change MAX_SLOT with 63%N.
    destruct (N.eqb_spec c 0); [naive_solver lia|]. destruct (N.ltb_spec 63 c); naive_solver lia.
  - etransitivity; [|apply (Hparsed u8_max); unfold u8_max; lia].
    unfold parse_clone_count. destruct (parse_uint u8_max (trim s)) as [c|]; [|naive_solver].
    change max_leases with 8%N. destruct (N.ltb_spec 8 c); destruct (N.eqb_spec c 0); naive_solver lia.
  - unfold parse_max_wall. change (2 ^ 64 - 1)%N with u64_max. split.
    + destruct (split_duration_unit (trim s)) as [digits unit] eqn:E.
      destruct (parse_uint u64_max digits) as [v|] eqn:Ev; [|done]. apply parse_uint_iff in Ev as [Hd Hle].
      destruct (N.eqb_spec v 0); [done|]. intros [= <-].
      destruct (split_duration_unit_Some _ _ _ E) as (suffix & Hin & ->). exists digits, suffix, unit, v. split_and!; [done..|lia|done|done].
    + intros (digits & suffix & unit & v & Hin & -> & Hd & Hv & ->). rewrite (split_duration_unit_of _ _ _ _ Hin Hd).
      rewrite (proj2 (parse_uint_iff u64_max digits v)) by (split; [done|lia]). destruct (N.eqb_spec v 0); [lia|done].
Qed.

(** ** The action of a run *)

(** What an admitted action takes from the flags, and from the calls made. *)
Definition resolves (args : RunArgs) (a : Action) (tr : list sys_event) : Prop :=
  match a with
  | Keep => ra_keep args = true
  | Idle => ra_keep args = false ∧ ra_command args = None ∧ ra_repo args = None
  | Exec (Command c) => ra_keep args = false ∧ ra_command args = Some c ∧ ra_repo args = None ∧ ra_push_branch args = None
  | Exec (RepositoryCommand c url sha) =>
      ra_keep args = false ∧ ra_command args = Some c ∧ ra_repo args = Some url ∧ ra_push_branch args = None ∧
      sha = default "HEAD" (ra_base_sha args)
  | Exec (Cursor req) =>
      ra_keep args = false ∧ (∃ task, ra_task args = Some task ∧ answered tr (OReadText task) (λ text, text = Ok (cr_task_md req))) ∧
      ra_repo args = Some (cr_repo_url req) ∧ ra_base_sha args = Some (cm_base_sha (cr_meta req)) ∧
      ra_model args = Some (cm_model_id (cr_meta req)) ∧ ra_push_branch args = cr_push_branch req ∧
      (cr_push_branch req ≠ None → answered tr (OEnv "GH_TOKEN") (λ token : option string, token ≠ None))
  end.

Lemma resolve_cursor_spec show_path args :
  ra_keep args = false →
  spec (λ _ _, True) (resolve_cursor show_path args) [] (went_well (resolves args)).
Proof.
  intros Hk. unfold resolve_cursor, required.
  destruct (ra_task args) as [task|] eqn:Et; cbn [ok_or]; spec_down; [|done].
  spec_call as text; [done|]. destruct text as [text|e]; simpl map_err; cbv iota; spec_down; [|done].
  destruct (ra_repo args) as [repo|] eqn:Er; cbn [ok_or]; spec_down; [|done].
  destruct (ra_base_sha args) as [sha|] eqn:Es; cbn [ok_or]; spec_down; [|done].
  destruct (ra_model args) as [model|] eqn:Em; cbn [ok_or]; spec_down; [|done].
  assert (Ha : ∀ h, answered h (OReadText task) (λ t, t = Ok text) →
    (ra_push_branch args ≠ None → answered h (OEnv "GH_TOKEN") (λ token : option string, token ≠ None)) →
    resolves args (Exec (Cursor {| cr_repo_url := repo; cr_task_md := text;
      cr_meta := {| cm_base_sha := sha; cm_model_id := model |}; cr_push_branch := ra_push_branch args |})) h).
  { intros h Ht Hp. cbn [resolves cr_repo_url cr_task_md cr_meta cr_push_branch cm_base_sha cm_model_id]. eauto 10. }
  destruct (ra_push_branch args) as [branch|].
  - spec_call as token; [done|]. destruct token as [token|]; [|done]. intros ? [= <-]; apply Ha; [|intros _].
    + exists (Ok text). split; [set_solver|done].
    + exists (Some token). split; [set_solver|done].
  - spec_down. intros ? [= <-]; apply Ha; [|done]. exists (Ok text). split; [set_solver|done].
Qed.

(** The action of an admitted run takes everything from the flags it claims
    to: whatever the action, no repository URL embeds credentials, and a base
    commit comes with a repository; a repository is never dropped, so idling or
    a plain command means none was given; the agent runs with the task's text
    as its file was read, on the repository, commit and model given, and pushes
    only when a token was found in the environment. *)
Theorem action_resolved show_path args tr a :
  run (resolve_action show_path args) tr (Some (Ok a)) →
  (∀ repo, ra_repo args = Some repo → repo_url_has_userinfo repo = false) ∧
  (ra_base_sha args ≠ None → ra_repo args ≠ None) ∧ resolves args a tr.
Proof.
  intros Hr. eapply (spec_run (λ _ _, True) _ (went_well (λ a tr,
    (∀ repo, ra_repo args = Some repo → repo_url_has_userinfo repo = false) ∧
    (ra_base_sha args ≠ None → ra_repo args ≠ None) ∧ resolves args a tr))) in Hr as [_ Hr]; [exact (Hr _ eq_refl _ eq_refl)|].
  unfold resolve_action. destruct (match ra_repo args with Some repo => _ | None => _ end) eqn:Eu; [done|].
  destruct (given (ra_base_sha args) && _) eqn:Eb; [done|]. destruct (given (ra_repo args) && _ && _) eqn:Ec; [done|].
  assert (Hrepo : ∀ repo, ra_repo args = Some repo → repo_url_has_userinfo repo = false) by (by intros repo E; rewrite E in Eu).
  assert (Hsha : ra_base_sha args ≠ None → ra_repo args ≠ None) by (by destruct (ra_base_sha args), (ra_repo args)).
  destruct (ra_keep args) eqn:Ek; [intros ? [= <-]; by split_and!|].
  destruct (ra_runner args).
  - spec_down. unfold resolve_command. destruct (ra_push_branch args) as [b|] eqn:Ep; [done|]. intros ? [= <-].
    split_and!; [done..|]. destruct (ra_command args) as [command|] eqn:Em, (ra_repo args) as [repo|] eqn:Er; done.
  - eapply spec_mono; [by apply resolve_cursor_spec|]. intros [a'|e] h Ha; [|done]. intros ? [= <-]. split_and!; [done..|by apply Ha].
Qed.

(** The agent on a branch of a repository. *)
Definition cursor_args : RunArgs :=
  {| ra_resources := Resources_default; ra_image := ["rootfs"]; ra_toolstore := None; ra_keep := false; ra_command := None;
     ra_runner := KindCursor; ra_repo := Some "https://example.com/r.git"; ra_task := Some ["task.md"]; ra_model := Some "m";
     ra_base_sha := Some "HEAD"; ra_push_branch := Some "b"; ra_out_dir := None; ra_readonly_rootfs := true;
     ra_max_wall := None; ra_max_pool := None; ra_json := false; ra_lifecycle := None; ra_witness := false;
     ra_secrets := None; ra_egress := PolicyObserve |}.

Definition token_host (h : list sys_event) (op : sysop) : ans op :=
  match op return ans op with
  | OEnv _ => Some "token"
  | OReadText _ => Ok "Fix it."
  | op => idle_host h op
  end.

Lemma action_resolved_witness :
  let p := resolve_action (join "/") cursor_args in
  let a := Exec (Cursor {| cr_repo_url := "https://example.com/r.git"; cr_task_md := "Fix it.";
                           cr_meta := {| cm_base_sha := "HEAD"; cm_model_id := "m" |}; cr_push_branch := Some "b" |}) in
  run p (snd (exec token_host p [])) (Some (Ok a)) ∧ resolves cursor_args a (snd (exec token_host p [])).
Proof.
  intros p a.
  assert (E : fst (exec token_host p []) = Some (Ok a)) by (vm_compute; reflexivity).
  assert (Hr : run p (snd (exec token_host p [])) (Some (Ok a))) by (rewrite <- E; apply exec_run_nil).
  split; [exact Hr|]. exact (proj2 (proj2 (action_resolved (join "/") cursor_args _ a Hr))).
Defined.
