(* ===== verification/Witness.v ===== *)
(** * Witness: the capture of a room's traffic ([witness.rs])

    Starting [tcpdump] on a tap, the watcher that stops it at its size cap, and
    stopping it with the word whether the capture is complete.  The capture's
    flag is the answer of a call that names its watcher, which alone sets it. *)

From S2P Require Import Prelude RStr Fs Host Config Snapshot Intents Prog Sys.
From stdpp Require Import options.

Definition TCPDUMP : string := "tcpdump".
Definition IP : string := "ip".
Definition STAGED_PCAP_PREFIX : string := "rooms-witness-".
Definition CAPTURE_CAP_BYTES : N := 64 * 1024 * 1024.
(** Milliseconds. *)
Definition WATCH_INTERVAL : N := 1000.
Definition START_SETTLE : N := 300.

(** ** Finding [tcpdump] *)

(** Of a file's mode: that any execute bit is set. *)
Definition is_executable_file (p : path) : sys bool :=
  let* stat := call (OStat p) in
  Ret (match stat with Ok s => st_is_file s && negb (N.land (fi_mode (st_id s)) 73 =? 0)%N | Err _ => false end).

Fixpoint first_executable (candidates : list path) : sys (option path) :=
  match candidates with
  | [] => Ret None
  | p :: candidates => let* ok := is_executable_file p in if ok : bool then Ret (Some p) else first_executable candidates
  end.

Definition which_tcpdump (resolve : string → path) : sys (option path) :=
  let* path_var := (call (OEnv "PATH") : sys (option string)) in
  match path_var with
  | None => Ret None
  | Some path_var => first_executable ((λ dir, path_join (resolve dir) TCPDUMP) <$> split_byte ":" path_var)
  end.

Definition ensure_tcpdump_available (resolve : string → path) : sys (result string unit) :=
  let* found := which_tcpdump resolve in
  Ret (match found with
       | Some _ => Ok ()
       | None => Err ("--witness requested but no executable `" +:+ TCPDUMP +:+
                      "` was found on PATH; install it or drop --witness")
       end).

(** ** The command *)

Inductive CaptureTarget := HostTarget | NamespaceTarget (namespace : string).

Record CaptureCommand := { cc_program : string; cc_args : list string }.

Definition capture_command (show_path : path → string) (target : CaptureTarget) (tap : string) (pcap_path : path) : CaptureCommand :=
  let tcpdump_args := ["-i"; tap; "-w"; show_path pcap_path; "-U"; "-s"; "0"; "-n"] in
  match target with
  | HostTarget => {| cc_program := TCPDUMP; cc_args := tcpdump_args |}
  | NamespaceTarget namespace => {| cc_program := IP; cc_args := ["netns"; "exec"; namespace; TCPDUMP] ++ tcpdump_args |}
  end.

Definition spawn_error (target : CaptureTarget) (tap : string) (e : io_error) : string :=
  match target with
  | HostTarget => "spawn " +:+ TCPDUMP +:+ " on " +:+ tap +:+ ": " +:+ message e
  | NamespaceTarget namespace =>
      "spawn " +:+ TCPDUMP +:+ " on " +:+ tap +:+ " in network namespace " +:+ namespace +:+ ": " +:+ message e
  end.

(** Under [/tmp], by the name of the room's directory. *)
Definition staging_dir : path := ["tmp"].

Definition staging_pcap_path (room_dir : path) : path :=
  path_join staging_dir (STAGED_PCAP_PREFIX +:+ default "room" (last room_dir) +:+ ".pcap").

(** ** Calls *)

Inductive wop :=
| WSys (op : sysop)
| WWatch (pcap_path : path) (pid : option N)      (* [spawn_cap_watcher]'s task *)
| WAbort (task : handle)
| WCapped (watcher : handle)
| WStoreCapped
| WWaitWithin (child : handle) (ms : N)           (* [None] after the time *)
| WKill (child : handle)                          (* [kill().await] *)
| WStartKill (child : handle).

Definition wans (op : wop) : Type :=
  match op with
  | WSys op => ans op
  | WWatch _ _ => handle
  | WAbort _ | WStoreCapped => unit
  | WCapped _ => bool
  | WWaitWithin _ _ => option (result io_error (option Z))
  | WKill _ | WStartKill _ => result io_error unit
  end.

Abbreviation capturing := (prog wans) (only parsing).
Abbreviation wevent := (event wans) (only parsing).

Record Capture := { cp_tap : string; cp_pcap : path; cp_child : handle; cp_watcher : handle; cp_remove_pcap_on_drop : bool }.

Section witness.
  Variable show_path : path → string.
  Variable show_status : option Z → string.

Definition send_sigterm (pid : N) : capturing unit :=
  do* call (WSys (ORun "kill" ["-TERM"; show_N pid])) in Ret ().

Definition remove_pcap (p : path) : capturing unit := do* call (WSys (ORemoveFile p)) in Ret ().

(** The watcher's task: until the file has reached the cap. *)
Fixpoint watch_cap (fuel : nat) (pcap_path : path) (pid : N) : capturing unit :=
  match fuel with
  | 0 => Spin
  | S fuel =>
      do* call (WSys (OSleep WATCH_INTERVAL)) in
      let* stat := call (WSys (OStat pcap_path)) in
      let size := match stat with Ok s => st_len s | Err _ => 0%N end in
      if (size <? CAPTURE_CAP_BYTES)%N then watch_cap fuel pcap_path pid else
      do* call WStoreCapped in send_sigterm pid
  end.

Definition spawn_cap_watcher (fuel : nat) (pcap_path : path) (pid : option N) : capturing unit :=
  match pid with None => Ret () | Some pid => watch_cap fuel pcap_path pid end.

Definition spawn_tcpdump (target : CaptureTarget) (tap : string) (pcap_path : path) : capturing (result string handle) :=
  let plan := capture_command show_path target tap pcap_path in
  pmap_err (spawn_error target tap) (call (WSys (OSpawn (cc_program plan) (cc_args plan)))).

(** A child that is dropped is killed. *)
Definition start_for (target : CaptureTarget) (tap : string) (room_dir : path) : capturing (result string Capture) :=
  let pcap_path := staging_pcap_path room_dir in
  try* child := spawn_tcpdump target tap pcap_path in
  do* call (WSys (OSleep START_SETTLE)) in
  let* status := call (WSys (OTryWait child)) in
  match status with
  | Err error =>
      do* remove_pcap pcap_path in do* call (WSys (ODropTask child)) in
      Ret (Err ("probe tcpdump liveness: " +:+ message error))
  | Ok (Some status) =>
      do* remove_pcap pcap_path in do* call (WSys (ODropTask child)) in
      Ret (Err ("tcpdump exited immediately (" +:+ show_status status +:+ ") capturing " +:+ tap +:+ "; capture did not start"))
  | Ok None =>
      let* pid := call (WSys (OChildId child)) in
      let* watcher := call (WWatch pcap_path pid) in
      Ret (Ok {| cp_tap := tap; cp_pcap := pcap_path; cp_child := child; cp_watcher := watcher; cp_remove_pcap_on_drop := true |})
  end.

Definition start (tap : string) (room_dir : path) : capturing (result string Capture) := start_for HostTarget tap room_dir.

Definition start_in_namespace (namespace tap : string) (room_dir : path) : capturing (result string Capture) :=
  start_for (NamespaceTarget namespace) tap room_dir.

(** [Drop], and the child's own. *)
Definition capture_drop (c : Capture) : capturing unit :=
  do* call (WAbort (cp_watcher c)) in
  do* call (WStartKill (cp_child c)) in
  do* if cp_remove_pcap_on_drop c then remove_pcap (cp_pcap c) else Ret () in
  call (WSys (ODropTask (cp_child c))).

Definition keep_pcap (c : Capture) : Capture :=
  {| cp_tap := cp_tap c; cp_pcap := cp_pcap c; cp_child := cp_child c; cp_watcher := cp_watcher c; cp_remove_pcap_on_drop := false |}.

(** Ask the child to end; whether it did so in time and well. *)
Definition end_child (c : Capture) (pid : N) : capturing bool :=
  do* send_sigterm pid in
  let* waited := call (WWaitWithin (cp_child c) START_SETTLE) in
  match waited with
  | Some (Ok status) => Ret (bool_decide (status = Some 0%Z))
  | Some (Err _) => Ret false
  | None => do* call (WKill (cp_child c)) in Ret false
  end.

(** The answer is [CaptureOutcome::complete]. *)
Definition stop (c : Capture) : capturing bool :=
  do* call (WAbort (cp_watcher c)) in
  let c := keep_pcap c in
  let* stat := call (WSys (OStat (cp_pcap c))) in
  let over_cap := match stat with Ok s => (CAPTURE_CAP_BYTES <=? st_len s)%N | Err _ => false end in
  let* flag := (call (WCapped (cp_watcher c)) : capturing bool) in
  let capped := flag || over_cap in
  let* complete :=
    let* alive := call (WSys (OTryWait (cp_child c))) in
    match alive with
    | Ok (Some _) | Err _ => Ret false
    | Ok None =>
        let* pid := (call (WSys (OChildId (cp_child c))) : capturing (option N)) in
        match pid with
        | None => Ret false
        | Some pid => let* clean_exit := end_child c pid in Ret (clean_exit && negb capped)
        end
    end in
  do* capture_drop c in Ret complete.
End witness.

(** ** What is promised *)

Section promised.
  Variable show_path : path → string.
  Variable show_status : option Z → string.

(** How a start goes, well or not. *)
Definition start_trace (target : CaptureTarget) (tap : string) (room_dir : path) (r : result string Capture) (tr : list wevent) : Prop :=
  let pcap := staging_pcap_path room_dir in
  let plan := capture_command show_path target tap pcap in
  let spawn := WSys (OSpawn (cc_program plan) (cc_args plan)) in
  match r with
  | Ok c => ∃ child pid watcher,
      tr = [Event spawn (Ok child); Event (WSys (OSleep START_SETTLE)) (); Event (WSys (OTryWait child)) (Ok None);
            Event (WSys (OChildId child)) pid; Event (WWatch pcap pid) watcher] ∧
      c = {| cp_tap := tap; cp_pcap := pcap; cp_child := child; cp_watcher := watcher; cp_remove_pcap_on_drop := true |}
  | Err _ =>
      (∃ e, tr = [Event spawn (Err e)]) ∨
      ∃ child status removed, status ≠ Ok None ∧
        tr = [Event spawn (Ok child); Event (WSys (OSleep START_SETTLE)) (); Event (WSys (OTryWait child)) status;
              Event (WSys (ORemoveFile pcap)) removed; Event (WSys (ODropTask child)) ()]
  end.

(** A capture that starts was found alive after its settling time, and is
    watched from then on; one that does not start leaves no child, no watcher
    and no staged file behind: either nothing was spawned, or the file is
    removed and the child dropped.  It is started with exactly one program and
    argument list, in which the tap and the namespace are single words. *)
Theorem capture_started target tap room_dir tr r :
  run (start_for show_path show_status target tap room_dir) tr (Some r) → start_trace target tap room_dir r tr.
Proof using Type.
  intros Hr. refine (proj2 (spec_run (λ _ _, True) _ (start_trace target tap room_dir) _ _ _ Hr) _ eq_refl).
  unfold start_for, spawn_tcpdump. spec_call as child; [done|]. destruct child as [child|e]; simpl map_err; cbv iota; spec_down.
  - spec_call as u; [done|]. destruct u. spec_call as status; [done|]. destruct status as [[status|]|e]; cbv iota; unfold remove_pcap; spec_down.
    + spec_call as removed; [done|]. spec_call as u; [done|]. destruct u. right. eexists _, _, _. split; [|reflexivity]. done.
    + spec_call as pid; [done|]. spec_call as watcher; [done|]. eexists _, _, _. split; reflexivity.
    + spec_call as removed; [done|]. spec_call as u; [done|]. destruct u. right. eexists _, _, _. split; [|reflexivity]. done.
  - left. eexists. reflexivity.
Qed.

(** The file under its cap, the watcher never having stopped it, [tcpdump] alive
    until asked to end, and then ending well in time. *)
Definition honest (c : Capture) (h : list wevent) : Prop :=
  ∃ stat pid killed,
    (∀ s, stat = Ok s → (st_len s < CAPTURE_CAP_BYTES)%N) ∧
    take 7 h = [Event (WAbort (cp_watcher c)) (); Event (WSys (OStat (cp_pcap c))) stat;
                Event (WCapped (cp_watcher c)) false; Event (WSys (OTryWait (cp_child c))) (Ok None);
                Event (WSys (OChildId (cp_child c))) (Some pid);
                Event (WSys (ORun "kill" ["-TERM"; show_N pid])) killed;
                Event (WWaitWithin (cp_child c) START_SETTLE) (Some (Ok (Some 0%Z)))].

(** Something was seen by which it may be cut short. *)
Definition doubtful (c : Capture) (h : list wevent) : Prop :=
  answered h (WSys (OStat (cp_pcap c))) (λ stat : result io_error stat, ∃ s, stat = Ok s ∧ (CAPTURE_CAP_BYTES ≤ st_len s)%N) ∨
  answered h (WCapped (cp_watcher c)) (λ flag : bool, flag = true) ∨
  answered h (WSys (OTryWait (cp_child c))) (λ status : result io_error (option (option Z)), status ≠ Ok None) ∨
  answered h (WSys (OChildId (cp_child c))) (λ pid : option N, pid = None) ∨
  answered h (WWaitWithin (cp_child c) START_SETTLE)
    (λ waited : option (result io_error (option Z)), waited ≠ Some (Ok (Some 0%Z))).

(** How it ends, the file left to the caller. *)
Definition ended (c : Capture) (h : list wevent) : Prop :=
  (∃ h0 x, h = h0 ++ [Event (WAbort (cp_watcher c)) (); Event (WStartKill (cp_child c)) x; Event (WSys (ODropTask (cp_child c))) ()]) ∧
  ∀ e p, e ∈ h → ev_op e ≠ WSys (ORemoveFile p).

Lemma drop_kept c complete h :
  (∀ e p, e ∈ h → ev_op e ≠ WSys (ORemoveFile p)) → (if complete : bool then 7 ≤ length h ∧ honest c h else doubtful c h) →
  spec (λ _ _, True) (do* capture_drop (keep_pcap c) in Ret complete) h
    (λ complete tr, ended c tr ∧ if complete : bool then honest c tr else doubtful c tr).
Proof using Type.
  intros Hh Hc. unfold capture_drop. cbn [keep_pcap cp_watcher cp_child cp_pcap cp_remove_pcap_on_drop]. spec_down.
  spec_call as u; [done|]. destruct u. spec_call as x; [done|]. spec_call as u; [done|]. destruct u. rewrite <- !(assoc_L (++)).
  split; [split; [by eexists _, _|]|].
  - intros e p He. apply elem_of_app in He as [He|He]; [by apply Hh|]. cbn [app] in He.
    repeat (apply elem_of_cons in He as [->|He]; [done|]). by apply elem_of_nil in He.
  - destruct complete.
    + destruct Hc as [Hl (stat & pid & killed & Hs & E)]. exists stat, pid, killed. split; [done|]. by rewrite take_app_le.
    + unfold doubtful in *. naive_solver eauto using answered_l.
Qed.

(** At the end of [stop]. *)
Ltac kept :=
  apply drop_kept; [intros ? ? He; cbn [app] in He; repeat (apply elem_of_cons in He as [->|He]; [done|]); by apply elem_of_nil in He|]; cbv iota.

Ltac seen := eexists; split; [cbn [app]; repeat (apply list_elem_of_here || apply list_elem_of_further)|]; try done; try congruence.

(** A capture called complete misses nothing: its file had not reached the
    cap, its watcher had not stopped it, [tcpdump] was still running when it was
    asked to end and then ended well within its grace; and one is only called
    incomplete when one of these was seen to fail.  However it goes, the watcher is aborted, the child killed and
    dropped, and the staged file is left for the caller to read. *)
Theorem capture_complete c tr complete :
  run (stop c) tr (Some complete) → ended c tr ∧ if complete then honest c tr else doubtful c tr.
Proof using Type.
  intros Hr. refine (proj2 (spec_run (λ _ _, True) _ (λ (complete : bool) tr, ended c tr ∧ if complete then honest c tr else doubtful c tr) _ _ _ Hr) _ eq_refl).
  unfold stop, end_child, send_sigterm. spec_call as u; [done|]. destruct u.
  cbn [keep_pcap cp_pcap cp_watcher cp_child].
  spec_call as stat; [done|]. spec_call as flag; [done|]. spec_call as alive; [done|].
  destruct alive as [[status|]|e]; cbv iota; [spec_down; kept; right; right; left; seen| |spec_down; kept; right; right; left; seen].
  spec_call as pid; [done|]. destruct pid as [pid|]; cbv iota; [|spec_down; kept; right; right; right; left; seen].
  spec_call as killed; [done|]. spec_call as waited; [done|].
  destruct waited as [[status|e]|]; cbv iota; spec_down.
  - case_bool_decide as Hs; [subst status|kept; right; right; right; right; seen]. cbn [andb].
    destruct flag; [kept; right; left; seen|]. cbn [orb].
    assert (Hcap : ∀ s, stat = Ok s → (CAPTURE_CAP_BYTES <=? st_len s)%N = true → (CAPTURE_CAP_BYTES ≤ st_len s)%N) by (intros; by apply N.leb_le).
    destruct stat as [s|e]; [destruct (CAPTURE_CAP_BYTES <=? st_len s)%N eqn:El|]; cbn [negb].
    + kept; left. seen. eauto.
    + kept. split; [simpl; lia|]. exists (Ok s), pid, killed. split; [|done]. intros s' [= <-]. by apply N.leb_gt.
    + kept. split; [simpl; lia|]. exists (Err e), pid, killed. split; [done|reflexivity].
  - kept; right; right; right; right; seen.
  - spec_call as u; [done|]. kept; right; right; right; right; seen.
Qed.
End promised.

(** The watcher asks [tcpdump] to end only once it has seen the file at its cap,
    and has said so before. *)
Definition watch_allows (pcap : path) (pid : N) (h : list wevent) (op : wop) : Prop :=
  let full := answered h (WSys (OStat pcap)) (λ stat : result io_error stat, ∃ s, stat = Ok s ∧ (CAPTURE_CAP_BYTES ≤ st_len s)%N) in
  match op with
  | WSys (OSleep _) | WSys (OStat _) => True
  | WStoreCapped => full
  | WSys (ORun program args) => program = "kill" ∧ args = ["-TERM"; show_N pid] ∧ full ∧ Event WStoreCapped () ∈ h
  | _ => False
  end.

Lemma watch_cap_ordered fuel pcap pid h :
  spec (watch_allows pcap pid) (watch_cap fuel pcap pid) h (λ _ _, True).
Proof.
  revert h. induction fuel as [|fuel IH]; intros h; cbn [watch_cap]; [done|]. unfold send_sigterm.
  spec_call as u; [done|]. spec_call as stat; [done|].
  destruct (N.ltb_spec (match stat with Ok s => st_len s | Err _ => 0%N end) CAPTURE_CAP_BYTES) as [|Hle]; [apply IH|].
  assert (Hfull : answered ((h ++ [Event (WSys (OSleep WATCH_INTERVAL)) u]) ++ [Event (WSys (OStat pcap)) stat]) (WSys (OStat pcap))
    (λ stat : result io_error Sys.stat, ∃ s, stat = Ok s ∧ (CAPTURE_CAP_BYTES ≤ st_len s)%N)).
  { exists stat. split; [set_solver|]. destruct stat as [s|e]; [by exists s|]. cbv in Hle. done. }
  spec_call as v; [exact Hfull|]. destruct v.
  spec_call as w; [|done]. split_and!; [done..|by apply answered_l|set_solver].
Qed.

(** ** A capture *)

(** [tcpdump] runs, and ends when asked to. *)
Definition capture_host (h : list wevent) (op : wop) : wans op :=
  match op return wans op with
  | WSys op => idle_host [] op
  | WWatch _ _ => 9%N
  | WAbort _ | WStoreCapped => ()
  | WCapped _ => false
  | WWaitWithin _ _ => Some (Ok (Some 0%Z))
  | WKill _ | WStartKill _ => Ok ()
  end.

Definition sample_capture : Capture :=
  {| cp_tap := "tap-fc3"; cp_pcap := ["tmp"; "rooms-witness-r-1.pcap"]; cp_child := 5; cp_watcher := 9; cp_remove_pcap_on_drop := true |}.

Lemma capture_started_witness :
  let p := start_for (join "/") (λ _, "1") (NamespaceTarget "ns-3") "tap-fc3" ["state"; "r-1"] in
  let tr := snd (exec capture_host p []) in
  run p tr (Some (Ok sample_capture)) ∧
  start_trace (join "/") (NamespaceTarget "ns-3") "tap-fc3" ["state"; "r-1"] (Ok sample_capture) tr.
Proof.
  intros p tr. assert (E : fst (exec capture_host p []) = Some (Ok sample_capture)) by (vm_compute; reflexivity).
  assert (Hr : run p tr (Some (Ok sample_capture))) by (rewrite <- E; apply exec_run_nil).
  split; [exact Hr|]. exact (capture_started (join "/") (λ _, "1") _ _ _ _ _ Hr).
Defined.

Lemma capture_complete_witness :
  let tr := snd (exec capture_host (stop sample_capture) []) in
  run (stop sample_capture) tr (Some true) ∧ honest sample_capture tr ∧ length tr = 10.
Proof.
  intros tr. assert (E : fst (exec capture_host (stop sample_capture) []) = Some true) by (vm_compute; reflexivity).
  assert (Hr : run (stop sample_capture) tr (Some true)) by (rewrite <- E; apply exec_run_nil).
  split; [exact Hr|]. split; [exact (proj2 (capture_complete _ _ _ Hr))|vm_compute; reflexivity].
Defined.
