(* ===== verification/Run.v ===== *)
(** * Run: one room, from admission to teardown ([main.rs])

    [rooms run] and [rooms base-create] over the calls of the components they
    drive: the boot, the runner, the teardown and their host calls are the
    programs of those components, each marked with the part that makes it.  What
    is awaited under a deadline or in the race of a workload against signals and
    its cap is a call that may also answer that it was cut off.  Dropping a
    future may kill its processes, and dropping a delivery removes its socket;
    both are left out, as are log lines.  Durations are milliseconds but for the
    workload's cap, whose expiry only the race sees. *)

From S2P Require Import Prelude RStr Fs Room IndexedClaim Slot CloneRoutes Egress Registry Pcap Artifacts Lifecycle Prog Config Sys Teardown Images Launch Boot Runner Doctor Witness Cli.
From stdpp Require Import options.

Definition BARE_BOOT_LINGER : N := 3000.
Definition SECRETS_ACK_TIMEOUT : N := 10000.
Definition PRE_TEARDOWN_GRACE : N := 15000.
Definition WITNESS_JSON : string := "witness.json".
Definition WITNESS_PCAP : string := "witness.pcap".

Inductive CloneTermination := Interrupt | Terminate.

Definition termination_code (t : CloneTermination) : N := match t with Interrupt => 130 | Terminate => 143 end.

(** ** Calls *)

(** Who makes a call of the host. *)
Inductive part := PMain | PBoot | PShutdown.

(** What can cut a workload off: a signal handler of the race itself, the one
    armed for the run, the cap. *)
Inductive interruption (cap signal : bool) :=
| CtrlC
| Signalled (t : CloneTermination) (armed : signal = true)
| CapReached (capped : cap = true).

Arguments CtrlC {_ _}.
Arguments Signalled {_ _}.
Arguments CapReached {_ _}.

Inductive xop :=
| XSys (who : part) (op : sysop)
| XRun (op : rop)
| XEmit (event : Lifecycle.Event)
| XCreateStream (p : path) (room_id : string)
| XClaim (base : path) (room_id : string) (me : Claimer) (cap : N)
| XArm
| XObserved
| XCommit
| XCtrlC
| XStopWitness (capture : handle)
| XWithin (limit : N) (op : xop)
| XRaced (cap signal : bool) (op : xop).

Fixpoint xans (op : xop) : Type :=
  match op with
  | XSys _ op => ans op
  | XRun op => rans op
  | XEmit _ => unit
  | XCreateStream _ _ => result io_error unit
  | XClaim _ _ _ _ => result SlotError Slot
  | XArm => result string unit
  | XObserved => option CloneTermination
  | XCommit => result string (option CloneTermination)
  | XCtrlC => result io_error unit
  | XStopWitness _ => bool
  | XWithin _ op => option (xans op)
  | XRaced cap signal op => xans op + interruption cap signal
  end.

Abbreviation xprog := (prog xans) (only parsing).
Abbreviation xevent := (event xans) (only parsing).

Definition emit (event : Lifecycle.Event) : xprog unit := call (XEmit event).

Definition in_part {A : Type} (who : part) (p : sys A) : xprog A := translate (λ op, call (XSys who op)) p.
Definition host {A : Type} (p : sys A) : xprog A := in_part PMain p.

(** The readiness a wait observes goes onto the stream. *)
Definition run_call (op : rop) : xprog (rans op) :=
  match op return xprog (rans op) with
  | RObserve Runner.GuestReady => emit Lifecycle.GuestReady
  | RObserve Runner.SshReady => emit Lifecycle.SshReady
  | op => call (XRun op)
  end.

Definition observed {A : Type} (p : run_prog A) : xprog A := translate run_call p.

(** A boot that nothing can cancel never finds itself cancelled. *)
Definition boot_call (armed : bool) (op : sysop) : xprog (ans op) :=
  match op return xprog (ans op) with
  | OCancelled => if armed then call (XSys PBoot OCancelled) else Ret false
  | op => call (XSys PBoot op)
  end.

(** ** Deadlines and the race *)

(** What is not awaited cannot be cut off. *)
Definition at_once (op : xop) : bool :=
  match op with
  | XRun (RNow | RUtcNow | RUlid | REnv _ | RObserve _ | RComplete _ | RSpawn _ | RFeed _ _) | XEmit _ => true
  | _ => false
  end.

Section limits.
  Context {S A : Type} (update : ∀ op, xans op → S → S).

(** A variable that the calls of a program assign. *)
Fixpoint tracking (s : S) (p : xprog A) : xprog (S * A) :=
  match p with
  | Ret a => Ret (s, a)
  | Vis op k => Vis op (λ x, tracking (update op x s) (k x))
  | Spin => Spin
  end.

(** [tokio::time::timeout]. *)
Fixpoint within (limit : N) (s : S) (p : xprog A) : xprog (S * option A) :=
  match p with
  | Ret a => Ret (s, Some a)
  | Vis op k =>
      if at_once op then Vis op (λ x, within limit (update op x s) (k x))
      else Vis (XWithin limit op)
             (λ r : option (xans op), match r with Some x => within limit (update op x s) (k x) | None => Ret (s, None) end)
  | Spin => Spin
  end.

(** The biased [select!] on the work. *)
Fixpoint raced (cap signal : bool) (s : S) (p : xprog A) : xprog (S * (A + interruption cap signal)) :=
  match p with
  | Ret a => Ret (s, inl a)
  | Vis op k =>
      if at_once op then Vis op (λ x, raced cap signal (update op x s) (k x))
      else Vis (XRaced cap signal op)
             (λ r : xans op + interruption cap signal,
                match r with inl x => raced cap signal (update op x s) (k x) | inr i => Ret (s, inr i) end)
  | Spin => Spin
  end.
End limits.

(** Without such a variable. *)
Definition timeout {A : Type} (limit : N) (p : xprog A) : xprog (option A) :=
  let* done := within (λ _ _ u, u) limit tt p in Ret (snd done).

(** [completed], and the directories created. *)
Definition completed_by (op : xop) (x : xans op) (s : option GuestExecOutcome) : option GuestExecOutcome :=
  match op with XRun (RComplete o) => o | _ => s end.

Definition created_by (op : xop) : xans op → list path → list path :=
  match op return xans op → list path → list path with
  | XRun (RCreateDir p) => λ made created, match made with Ok _ => created ++ [p] | Err _ => created end
  | _ => λ _ created, created
  end.

Definition interruption_code {cap signal : bool} (i : interruption cap signal) : N :=
  match i with CtrlC => 130 | Signalled t _ => termination_code t | CapReached _ => 124 end.

(** How a cut off run is recorded. *)
Definition interruption_status {cap signal : bool} (i : interruption cap signal) : RunStatus :=
  match i with CapReached _ => TimedOut | _ => Cancelled end.

Definition workload_status (s : RunStatus) : WorkloadStatus :=
  match s with Succeeded => WlSucceeded | Failed => WlFailed | TimedOut => WlTimedOut | Cancelled => WlCancelled end.

(** ** The residue of a room *)

Record CleanupResidue := { cr_room_dir : option path; cr_jail_dir : option path; cr_slot_file : path; cr_room_id : string }.

Definition slot_still_ours (r : CleanupResidue) : sys bool :=
  let* token := call (OReadText (cr_slot_file r)) in
  Ret (match token with Ok token => bool_decide (head (lines token) = Some (cr_room_id r)) | Err _ => false end).

Definition exists_opt (p : option path) : sys bool := match p with Some p => call (OExists p) | None => Ret false end.

Definition remaining (r : CleanupResidue) : sys (option string) :=
  let* room := exists_opt (cr_room_dir r) in
  let* jail := exists_opt (cr_jail_dir r) in
  let* slot := slot_still_ours r in
  Ret (match (if room : bool then ["room dir"] else []) ++ (if jail : bool then ["jail dir"] else []) ++
             (if slot : bool then ["slot claim"] else []) with
       | [] => None
       | traces => Some (join " + " traces)
       end).

(** ** The machine *)

Definition with_guard (f : RoomGuard → RoomGuard) (vm : BootedVm) : BootedVm :=
  {| vm_witness := vm_witness vm; vm_secrets_delivery := vm_secrets_delivery vm;
     vm_provisioning_delivery := vm_provisioning_delivery vm; vm_guard := f (vm_guard vm); vm_child := vm_child vm |}.

Definition without_witness (vm : BootedVm) : BootedVm :=
  {| vm_witness := None; vm_secrets_delivery := vm_secrets_delivery vm;
     vm_provisioning_delivery := vm_provisioning_delivery vm; vm_guard := vm_guard vm; vm_child := vm_child vm |}.

Definition without_secrets (vm : BootedVm) : BootedVm :=
  {| vm_witness := vm_witness vm; vm_secrets_delivery := None;
     vm_provisioning_delivery := vm_provisioning_delivery vm; vm_guard := vm_guard vm; vm_child := vm_child vm |}.

Definition without_provisioning (vm : BootedVm) : BootedVm :=
  {| vm_witness := vm_witness vm; vm_secrets_delivery := vm_secrets_delivery vm;
     vm_provisioning_delivery := None; vm_guard := vm_guard vm; vm_child := vm_child vm |}.

Definition network_config_for (slot : Slot) : NetworkConfig :=
  {| nc_tap_name := slot_tap slot; nc_guest_ip := show_ipv4 (slot_guest slot);
     nc_gateway_ip := show_ipv4 (slot_gateway slot); nc_prefix := slot_prefix slot |}.

(** What the phase after the boot needs. *)
Record PostBootEnv := {
  pe_network : NetworkConfig;
  pe_network_namespace : option string;
  pe_key : path;
  pe_max_wall : option N;
  pe_streams : bool;              (* whether the lifecycle stream is written *)
  pe_egress : Plan
}.

Definition target_of (env : PostBootEnv) : GuestTarget :=
  {| guest_ip := nc_guest_ip (pe_network env); netns := pe_network_namespace env |}.

Record Witnessed := { wn_summary : Witness; wn_raw : string }.

Definition egress_record (plan : Plan) : EgressPolicy * list string :=
  match plan with
  | PlanObserve => (EpObserve, [])
  | PlanNone => (EpNone, [])
  | PlanAllowlist permitted => (EpAllowlist, permitted)
  end.

Section run.
  Variable show_path : path → string.
  Variable resolve : string → path.
  Variables (show_secs show_duration : N → string) (show_json : json → result string string).
  Variables (show_debug : string → string) (show_status : option Z → string).
  Variables (show_utf8_error show_int_error : string → string).
  Variables (show_result : ResultJson → string) (show_meta : CursorMeta → string) (show_changeset : Changeset → string).
  Variable show_witness : Pcap.Witness → result string string.
  Variables (immutable_flag : N) (sha256 : string → string) (parse_manifest : string → option Manifest) (target_name : string).
  Variable to_socket_addrs : string → result string (list IpAddr).
  Variables (arch : target_arch) (home : option path) (config : RoomsConfig).
  Variable fuel : nat.

(** ** Teardown *)

Definition residue_for_room (state_base : path) (claimed : Slot) (room_id : string) : CleanupResidue :=
  {| cr_room_dir := room_dir home config room_id; cr_jail_dir := jail_instance_dir home config room_id;
     cr_slot_file := path_join (path_join state_base SLOTS_DIR) (show_N (slot_index claimed)); cr_room_id := room_id |}.

(** A preserved room is dismissed and forgotten. *)
Definition teardown (vm : BootedVm) (keep : bool) (residue : CleanupResidue) : xprog unit :=
  if keep then Ret () else
  let* down := in_part PShutdown (shutdown show_path fuel vm) in
  match down with
  | Err e => emit (CleanupFailed (fc_message e))
  | Ok _ =>
      let* traces := host (remaining residue) in
      emit (match traces with
            | None => CleanupDone
            | Some traces => CleanupFailed (traces +:+ " left behind; `rooms gc` will retry")
            end)
  end.

(** ** The workload *)

Definition record_aborted_run (target : GuestTarget) (key : path) (exit_code : Z) (status : RunStatus)
    (started_at : string) (command_argv : list string) : xprog unit :=
  do* timeout PRE_TEARDOWN_GRACE (observed (
    do* ensure_guest_artifact_skeleton show_path show_status target key in
    let* ended_at := call RUtcNow in
    do* write_guest_result_json show_path show_status show_result target key
          (from_exec exit_code status started_at ended_at command_argv) in
    Ret ())) in
  Ret ().

Definition emit_readiness_failure (e : FirecrackerError) : xprog unit :=
  match e with
  | FcGuestUnreachable _ => emit (GuestUnreachable (fc_message e))
  | _ => emit (WorkloadFailed (fc_message e))
  end.

Definition wait_for_channel (env : PostBootEnv) : xprog (result RoomsError unit) :=
  let* waited := observed (wait_for_ssh_observed config show_path show_duration fuel (target_of env) (pe_key env) (pe_streams env)) in
  match waited with
  | Err e => do* emit_readiness_failure e in Ret (Err (RmFirecracker e))
  | Ok _ => Ret (Ok ())
  end.

Definition gate_on_secrets (env : PostBootEnv) (run : Runner) (delivery : handle) (started_at : string)
    : xprog (result RoomsError unit) :=
  let* delivered := host (call (OAwaitAcked delivery SECRETS_ACK_TIMEOUT)) in
  match delivered with
  | Ok _ => do* emit SecretsDelivered in Ret (Ok ())
  | Err e =>
      let error := "secrets: " +:+ e in
      do* emit (SecretsFailed error) in
      do* record_aborted_run (target_of env) (pe_key env) 1 Failed started_at (command_argv run) in
      Ret (Err (RmInternal error))
  end.

Definition workload_exited (o : GuestExecOutcome) : xprog unit :=
  emit (WorkloadExited (go_exit_code o) (workload_status (go_status o))).

(** [u8::try_from]. *)
Definition code_u8 (code : Z) : N := if ((0 <=? code) && (code <=? 255))%Z then Z.to_N code else 2.

Definition run_workload (env : PostBootEnv) (run : Runner) (secrets : option handle) (started_at : string)
    : xprog (result RoomsError N) :=
  try* _ := wait_for_channel env in
  try* _ := match secrets with Some delivery => gate_on_secrets env run delivery started_at | None => Ret (Ok ()) end in
  do* emit (WorkloadStarted (command_argv run)) in
  let* ran := tracking completed_by None
                (observed (exec_observed config show_path show_debug show_status show_utf8_error show_result show_meta
                             (target_of env) (pe_key env) run)) in
  match ran with
  | (completed, Err e) =>
      do* match completed with Some outcome => workload_exited outcome | None => Ret () end in
      do* emit (WorkloadFailed e) in
      Ret (Err (RmInternal e))
  | (_, Ok outcome) =>
      do* workload_exited outcome in
      match go_post_run_error outcome with
      | Some post_run_error => do* emit (WorkloadFailed post_run_error) in Ret (Err (RmInternal post_run_error))
      | None => Ret (Ok (code_u8 (go_exit_code outcome)))
      end
  end.

Definition record_interrupted_finalization (env : PostBootEnv) (run : Runner) (outcome : GuestExecOutcome) (exit_code : N)
    : xprog (result RoomsError N) :=
  do* workload_exited outcome in
  do* emit (WorkloadFailed ("post-run finalization interrupted (CLI exit " +:+ show_N exit_code +:+ ")")) in
  do* timeout PRE_TEARDOWN_GRACE (observed (
        write_guest_result_json show_path show_status show_result (target_of env) (pe_key env)
          (from_exec (go_exit_code outcome) (go_status outcome) (go_started_at outcome) (go_ended_at outcome) (command_argv run)))) in
  Ret (Ok exit_code).

Definition exec_workload (env : PostBootEnv) (run : Runner) (secrets : option handle) (armed : bool)
    : xprog (result RoomsError N) :=
  let* started_at := call (XRun RUtcNow) in
  let* race := raced completed_by (is_some (pe_max_wall env)) armed None (run_workload env run secrets started_at) in
  match race with
  | (_, inl res) => Ret res
  | (Some outcome, inr i) => record_interrupted_finalization env run outcome (interruption_code i)
  | (None, inr i) =>
      let code := interruption_code i in
      do* emit (WorkloadExited (Z.of_N code) (workload_status (interruption_status i))) in
      do* record_aborted_run (target_of env) (pe_key env) (Z.of_N code) (interruption_status i) started_at (command_argv run) in
      Ret (Ok code)
  end.

Definition idle_linger (vm : BootedVm) : xprog (result RoomsError N) :=
  do* host (call (OSleep BARE_BOOT_LINGER)) in
  try* alive := pmap_err RmFirecracker (host (is_alive vm)) in
  Ret (if alive : bool then Ok 0%N else Err (RmFirecracker (FcProcessExitedEarly (-1) EmptyString))).

Definition post_boot (env : PostBootEnv) (action : Action) (vm : BootedVm) (secrets : option handle) (armed : bool)
    : xprog (result RoomsError N) :=
  match action with
  | Keep => try* _ := pmap_err (λ e, RmInternal (message e)) (call XCtrlC) in Ret (Ok 0%N)
  | Exec run => exec_workload env run secrets armed
  | Idle => idle_linger vm
  end.

(** ** Artifacts *)

(** The changeset is best effort. *)
Definition collect_to_host (target : GuestTarget) (key out_dir : path) (created : list path) : run_prog (result string unit) :=
  let* primary := collect_out_to_host_observed show_path show_status target key out_dir created in
  do* collect_changeset_to_host show_path show_status show_changeset target key out_dir in
  Ret (snd primary).

(** With the directories created, also by a collection that was cut off. *)
Definition collect_and_record (target : GuestTarget) (key : path) (action : Action) (out_dir : path) (created : list path)
    : xprog (list path * result string unit) :=
  if negb (is_exec action) then Ret (created, Ok ()) else
  do* emit CollectionStarted in
  let* collected := within created_by PRE_TEARDOWN_GRACE created (observed (collect_to_host target key out_dir created)) in
  match collected with
  | (created, Some (Ok _)) => do* emit CollectionDone in Ret (created, Ok ())
  | (created, Some (Err e)) => do* emit (CollectionFailed e) in Ret (created, Err e)
  | (created, None) =>
      let error := "timed out (guest unresponsive)" in
      do* emit (CollectionFailed error) in Ret (created, Err error)
  end.

(** [capture.tap()] is the slot's tap, and [capture.pcap_path()] is [staged]. *)
Definition summarize_witness (capture : handle) (staged : path) (slot : Slot) (env : PostBootEnv) : xprog Witnessed :=
  let tap := slot_tap slot in
  let* complete := (call (XStopWitness capture) : xprog bool) in
  let* read := call (XRun (RReadFile staged)) in
  let '(raw, readable) := match read with Ok bytes => (bytes, true) | Err _ => (EmptyString, false) end in
  do* host (call (ORemoveFile staged)) in
  let local := {| gateway := slot_gateway slot; guest := slot_guest slot |} in
  let summary := summarize_pcap (String.list_ascii_of_string raw) tap local (complete && readable) in
  let '(policy, permitted) := egress_record (pe_egress env) in
  let summary := record_egress summary policy permitted in
  do* emit (WitnessDone (length (w_destinations summary)) (w_capture_complete summary)) in
  Ret {| wn_summary := summary; wn_raw := raw |}.

Definition write_out_atomic (dir : path) (name bytes : string) : run_prog (result io_error unit) :=
  try* _ := call (RWriteFile (path_join dir (name +:+ ".tmp")) bytes) in
  call (RRename (path_join dir (name +:+ ".tmp")) (path_join dir name)).

(** The files in turn, and the paths written so far. *)
Fixpoint persist_files (out_dir : path) (files : list (string * string)) (written : list path)
    : run_prog (list path * result string unit) :=
  match files with
  | [] => Ret (written, Ok ())
  | (name, data) :: files =>
      let* wrote := write_out_atomic out_dir name data in
      match wrote with
      | Err e => Ret (written, Err ("write " +:+ name +:+ ": " +:+ message e))
      | Ok _ => persist_files out_dir files (written ++ [path_join out_dir name])
      end
  end.

Definition persist_witness (w : Witnessed) (out_dir : path) (written : list path) : run_prog (list path * result string unit) :=
  let* made := create_output_directory show_path out_dir written in
  match made with
  | (written, Err e) => Ret (written, Err e)
  | (written, Ok _) =>
      match show_witness (wn_summary w) with
      | Err e => Ret (written, Err e)
      | Ok bytes => persist_files out_dir [(WITNESS_JSON, bytes); (WITNESS_PCAP, wn_raw w)] written
      end
  end.

Definition bounded_artifact_ownership (root : option path) (created : list path) : xprog (result string unit) :=
  let remaining := filter (λ p, match root with Some root => path_starts_with p root | None => false end = false) created in
  let* repaired := timeout PRE_TEARDOWN_GRACE (observed (
    try* _ := match root with
              | Some root => return_artifact_ownership show_path show_int_error [root] true
              | None => Ret (Ok ())
              end in
    return_artifact_ownership show_path show_int_error remaining false)) in
  Ret (default (Err "artifact ownership repair timed out") repaired).

Definition error_of {E A : Type} (r : result E A) : option E := match r with Err e => Some e | Ok _ => None end.

(** The directory the command's output went into, when the run made it. *)
Definition recursive_root (action : Action) (out_dir : option path) (created : list path) : sys (option path) :=
  match out_dir with
  | None => Ret None
  | Some dir =>
      let* stat := call (OStat dir) in
      let is_dir := match stat with Ok s => st_is_dir s | Err _ => false end in
      Ret (if is_dir && is_exec action && bool_decide (dir ∈ created) then Some dir else None)
  end.

Definition collect_run_artifacts (env : PostBootEnv) (action : Action) (slot : Slot) (staged : path) (out_dir : option path)
    (vm : BootedVm) : xprog (BootedVm * result RoomsError unit) :=
  let* collected := match out_dir with
                    | Some out_dir => collect_and_record (target_of env) (pe_key env) action out_dir []
                    | None => Ret ([], Ok ())
                    end in
  let '(created, collection) := collected in
  let* witnessed := match vm_witness vm with
                    | Some capture => let* w := summarize_witness capture staged slot env in Ret (Some w)
                    | None => Ret None
                    end in
  let* persisted := match witnessed, out_dir with
                    | Some w, Some out_dir => observed (persist_witness w out_dir created)
                    | _, _ => Ret (created, Ok ())
                    end in
  let '(created, witness) := persisted in
  let* root := host (recursive_root action out_dir created) in
  let* ownership := bounded_artifact_ownership root created in
  Ret (without_witness vm,
       match omap id [error_of collection; error_of witness; error_of ownership] with
       | [] => Ok ()
       | errors => Err (RmInternal ("artifact finalization failed: " +:+ join "; " errors))
       end).

(** ** Admission *)

Definition internal {A : Type} (p : sys (result string A)) : xprog (result RoomsError A) := pmap_err RmInternal (host p).

Definition ensure_witness_available (requested : bool) : xprog (result RoomsError unit) :=
  if requested then internal (ensure_tcpdump_available resolve) else Ret (Ok ()).

Definition kernel_of (image : path) : result RoomsError path :=
  match parent image with
  | Some p => Ok (path_join p "vmlinux.bin")
  | None => Err (RmInternal ("--image has no parent directory: " +:+ show_path image))
  end.

Definition when {A E : Type} (b : bool) (p : xprog (result E A)) : xprog (result E unit) :=
  if b then try* _ := p in Ret (Ok ()) else Ret (Ok ()).

Definition open_toolstore (image : path) (toolstore : option path) : xprog (result RoomsError (option Toolstore)) :=
  match toolstore with
  | None => Ret (Ok None)
  | Some dir =>
      try* store := internal (Toolstore_open show_path immutable_flag sha256 parse_manifest target_name dir) in
      try* _ := internal (validate_toolstore_image show_path image) in
      Ret (Ok (Some store))
  end.

Definition key_path : sys (result RoomsError path) :=
  let* home := (call (OEnv "HOME") : sys (option string)) in
  Ret (match home with
       | Some home => Ok (path_join (resolve home) ".ssh/id_rooms")
       | None => Err (RmInternal "HOME env var unset; rooms needs it to locate ~/.ssh/id_rooms")
       end).

(** Whether the stream is written. *)
Definition resolve_lifecycle (p : option path) (room_id : string) : xprog (result RoomsError bool) :=
  match p with
  | None => Ret (Ok false)
  | Some p =>
      try* _ := pmap_err (λ e, RmInternal ("create --lifecycle stream " +:+ show_path p +:+ ": " +:+ message e))
                  (call (XCreateStream p room_id)) in
      Ret (Ok true)
  end.

(** [Claimer::current]. *)
Definition current_claimer : sys (option Claimer) :=
  let* pid := (call OSelfPid : sys N) in
  let* starttime := starttime_of_child (Some pid) in
  Ret ((λ starttime, {| claimer_pid := pid; claimer_starttime := starttime |}) <$> starttime).

Definition no_state_base : RoomsError := RmInternal "HOME unset; cannot locate the rooms state base".
Definition no_claimer : RoomsError := RmInternal "cannot read this process's identity for the slot claim".

Record Admission := {
  ad_kernel : path;
  ad_toolstore : option Toolstore;
  ad_egress : Plan;
  ad_state_base : path;
  ad_key : path;
  ad_action : Action;
  ad_readonly_rootfs : bool;
  ad_room_id : string;
  ad_streams : bool;
  ad_me : Claimer
}.

(** Everything that is checked before the slot is claimed. *)
Definition admit_run (args : RunArgs) : xprog (result RoomsError Admission) :=
  try* _ := ensure_witness_available (ra_witness args) in
  try* kernel := Ret (kernel_of (ra_image args)) in
  try* _ := pmap_err RmRootfs (host (validate_kernel arch kernel)) in
  let disk := given (rs_disk_gib (ra_resources args)) in
  try* _ := when disk (internal (validate_scratch_image show_path (ra_image args))) in
  try* _ := when (given (ra_repo args) && negb disk) (internal (validate_overlay_image show_path (ra_image args))) in
  try* toolstore := open_toolstore (ra_image args) (ra_toolstore args) in
  try* _ := when (given (ra_secrets args)) (host (ensure_kernel_has_vsock show_path kernel)) in
  try* _ := internal ensure_rooms_fwd_installed in
  try* egress := Ret (map_err RmInternal (Egress.resolve to_socket_addrs (ra_egress args))) in
  try* state_base := Ret (ok_or (resolved_state_base home config) no_state_base) in
  try* key := host key_path in
  try* action := host (resolve_action show_path args) in
  try* _ := when (is_exec action) (pmap_err RmInternal (call XArm)) in
  let readonly_rootfs := ra_readonly_rootfs args || disk || given (ra_repo args) || given toolstore ||
                         match ra_runner args with KindCursor => true | KindCommand => false end in
  let* room_id := host (call OUlid) in
  try* streams := resolve_lifecycle (ra_lifecycle args) room_id in
  let* me := host current_claimer in
  try* me := Ret (ok_or me no_claimer) in
  Ret (Ok {| ad_kernel := kernel; ad_toolstore := toolstore; ad_egress := egress; ad_state_base := state_base; ad_key := key;
             ad_action := action; ad_readonly_rootfs := readonly_rootfs; ad_room_id := room_id; ad_streams := streams;
             ad_me := me |}).

(** ** The run *)

Definition boot (armed : bool) (req : BootRequest) : xprog (result FirecrackerError BootedVm) :=
  translate (boot_call armed)
    (boot_with_cancellation show_path resolve show_secs show_json immutable_flag home config fuel req).

Definition run_request (args : RunArgs) (a : Admission) (claimed : Slot) : BootRequest :=
  {| br_toolstore := ad_toolstore a; br_resources := ra_resources args; br_kernel := ad_kernel a; br_rootfs := ra_image args;
     br_network := Some (network_config_for claimed); br_slot := Some claimed; br_room_id := ad_room_id a;
     br_readonly_rootfs := ad_readonly_rootfs a;
     br_descriptor := {| rd_command := Some (room_label (ad_action a)); rd_keep := ra_keep args |};
     br_witness := ra_witness args; br_secrets := ra_secrets args; br_provisioning := None; br_egress := ad_egress a;
     br_base := false |}.

Definition emit_started (pid : option N) (witness_tap : option string) : xprog unit :=
  do* match witness_tap with Some tap => emit (WitnessStarted tap) | None => Ret () end in
  emit (VmmStarted pid).

(** From the booted machine to the exit code. *)
Definition drive (args : RunArgs) (a : Admission) (claimed : Slot) (vm : BootedVm) : xprog (result RoomsError N) :=
  let armed := is_exec (ad_action a) in
  do* match ad_toolstore a with Some t => emit (ToolstoreAttached (ts_digest t)) | None => Ret () end in
  let* pid := host (call (OChildId (vm_child vm))) in
  do* emit_started pid (if ra_witness args then Some (slot_tap claimed) else None) in
  let vm := if ra_keep args then with_guard (set_suppress_cleanup true) vm else vm in
  let env := {| pe_network := network_config_for claimed; pe_network_namespace := None; pe_key := ad_key a;
                pe_max_wall := ra_max_wall args; pe_streams := ad_streams a; pe_egress := ad_egress a |} in
  let secrets := vm_secrets_delivery vm in
  let vm := without_secrets vm in
  let* outcome := post_boot env (ad_action a) vm secrets armed in
  let staged := staging_pcap_path (path_join (ad_state_base a) (ad_room_id a)) in
  let* collected := collect_run_artifacts env (ad_action a) claimed staged (ra_out_dir args) vm in
  let '(vm, collection) := collected in
  do* teardown vm (ra_keep args) (residue_for_room (ad_state_base a) claimed (ad_room_id a)) in
  let result := try* code := Ret outcome in try* _ := Ret collection in Ret (Ok code) in
  if armed then
    try* signal := pmap_err RmInternal (call XCommit) in
    match signal with Some t => Ret (Ok (termination_code t)) | None => result end
  else result.

Definition boot_failed (armed : bool) (e : FirecrackerError) : xprog (result RoomsError N) :=
  do* emit (BootFailed (fc_message e)) in
  let* signal := if armed then call XObserved else Ret None in
  Ret (match signal with Some t => Ok (termination_code t) | None => Err (RmFirecracker e) end).

Definition claim_slot (a : Admission) (max_pool_flag : option N) : xprog (result SlotError Slot) :=
  call (XClaim (ad_state_base a) (ad_room_id a) (ad_me a) (effective_max_pool config max_pool_flag)).

Definition run_room_inner (args : RunArgs) : xprog (result RoomsError N) :=
  try* a := admit_run args in
  let* claimed := claim_slot a (ra_max_pool args) in
  match claimed with
  | Err e =>
      do* match e with SePoolFull cap => emit (PoolFull cap) | _ => Ret () end in
      Ret (Err (RmSlot e))
  | Ok claimed =>
      do* emit (SlotAllocated (slot_index claimed) (slot_tap claimed)) in
      let* booted := boot (is_exec (ad_action a)) (run_request args a claimed) in
      match booted with
      | Err e => boot_failed (is_exec (ad_action a)) e
      | Ok vm => drive args a claimed vm
      end
  end.

(** ** A neutral base *)

Record BaseCreateArgs := {
  ba_image : path;
  ba_resources : Resources;
  ba_toolstore : option path;
  ba_repo : option string;
  ba_base_sha : option string;
  ba_warm : option string;
  ba_max_pool : option N;
  ba_json : bool
}.

Record BaseCreatedRecord := {
  bc_room_id : string;
  bc_slot : N;
  bc_guest_ip : N;
  bc_provenance : Provenance;
  bc_toolstore_sha256 : option string;
  bc_base_repo_sha : option string
}.

Definition admit_base_inputs (args : BaseCreateArgs) : xprog (result RoomsError (path * option Toolstore)) :=
  try* kernel := Ret (kernel_of (ba_image args)) in
  try* _ := pmap_err RmRootfs (host (validate_kernel arch kernel)) in
  try* _ := pmap_err RmRootfs (host (validate_rootfs (ba_image args) (min_rootfs_bytes config))) in
  try* _ := internal (validate_snapshot_base_image show_path immutable_flag (ba_image args)) in
  try* toolstore := open_toolstore (ba_image args) (ba_toolstore args) in
  try* _ := host (ensure_kernel_has_vsock show_path kernel) in
  try* _ := internal ensure_rooms_fwd_installed in
  Ret (Ok (kernel, toolstore)).

Definition base_request (args : BaseCreateArgs) (kernel : path) (toolstore : option Toolstore) (room_id : string)
    (provisioning : ProvisioningPayload) (claimed : Slot) (egress : Plan) : BootRequest :=
  {| br_toolstore := toolstore; br_resources := ba_resources args; br_kernel := kernel; br_rootfs := ba_image args;
     br_network := Some (network_config_for claimed); br_slot := Some claimed; br_room_id := room_id;
     br_readonly_rootfs := true; br_descriptor := {| rd_command := Some "base-create"; rd_keep := true |};
     br_witness := false; br_secrets := None; br_provisioning := Some provisioning; br_egress := egress; br_base := true |}.

(** The machine is shut down, whatever that answers. *)
Definition abandon {A : Type} (vm : BootedVm) (e : RoomsError) : xprog (result RoomsError A) :=
  do* in_part PShutdown (shutdown show_path fuel vm) in Ret (Err e).

(** Wait for the base to be provisioned, and seal it; then it is left running. *)
Definition seal_provisioned (vm : BootedVm) : xprog (result RoomsError Provenance) :=
  match vm_provisioning_delivery vm with
  | None => abandon (without_provisioning vm) (RmInternal "base boot did not arm its provisioning gate")
  | Some delivery =>
      let vm := without_provisioning vm in
      let* quiesced := host (call (OAwaitAcked delivery (base_provisioning_timeout config))) in
      match quiesced with
      | Err e => abandon vm (RmInternal ("base provisioning failed: " +:+ e))
      | Ok _ =>
          let* sealed := host (seal_base vm) in
          match sealed with Err e => abandon vm (RmFirecracker e) | Ok provenance => Ret (Ok provenance) end
      end
  end.

Definition base_create_inner (args : BaseCreateArgs) : xprog (result RoomsError BaseCreatedRecord) :=
  try* inputs := admit_base_inputs args in
  let '(kernel, toolstore) := inputs in
  try* state_base := Ret (ok_or (resolved_state_base home config) no_state_base) in
  try* provisioning := pmap_err RmFirecracker (observed
        (prepare_base_provisioning show_path show_debug (ba_repo args) (ba_base_sha args) (ba_warm args))) in
  let* room_id := host (call OUlid) in
  let* me := host current_claimer in
  try* me := Ret (ok_or me no_claimer) in
  try* claimed := pmap_err RmSlot (call (XClaim state_base room_id me (effective_max_pool config (ba_max_pool args)))) in
  try* egress := Ret (map_err RmInternal (Egress.resolve to_socket_addrs PolicyNone)) in
  try* vm := pmap_err RmFirecracker (boot false (base_request args kernel toolstore room_id provisioning claimed egress)) in
  try* provenance := seal_provisioned vm in
  Ret (Ok {| bc_room_id := room_id; bc_slot := slot_index claimed; bc_guest_ip := slot_guest claimed;
             bc_provenance := provenance; bc_toolstore_sha256 := ts_digest <$> toolstore;
             bc_base_repo_sha := pp_base_repo_sha provisioning |}).
End run.
