(* ===== verification/RunOrder.v ===== *)
(** * RunOrder: the order of a run

    What a workload cut off by a signal, its cap or a deadline has done, and the
    order of the calls of a whole run, whatever the host and the guest answer
    and wherever it is cut off. *)

From S2P Require Import Prelude RStr Fs Room IndexedClaim Slot Host CloneRoutes Egress Registry Pcap Artifacts Lifecycle Prog Config Sys Teardown Images Launch Boot Runner RunnerOrder RunnerWait Returns Doctor Witness Cli Run.
From stdpp Require Import options.

(** ** Calls that can be cut off *)

(** The call itself, and what its answer says when it has one. *)
Fixpoint strip (op : xop) : xop :=
  match op with XWithin _ op | XRaced _ _ op => strip op | op => op end.

Fixpoint heard (op : xop) : xans op → list xevent :=
  match op return xans op → list xevent with
  | XWithin _ op => λ r, match r with Some x => heard op x | None => [] end
  | XRaced _ _ op => λ r, match r with inl x => heard op x | inr _ => [] end
  | op => λ x, [Event op x]
  end.

(** A history as if nothing had been cut off. *)
Definition erase (h : list xevent) : list xevent := h ≫= λ e, heard (ev_op e) (ev_ans e).

Lemma erase_app h k : erase (h ++ k) = erase h ++ erase k.
Proof. apply bind_app. Qed.

Lemma erase_snoc h op x : erase (h ++ [Event op x]) = erase h ++ heard op x.
Proof. rewrite erase_app. unfold erase at 2. cbn. by rewrite (right_id_L [] (++)). Qed.

(** What the calls of a program become under a limit: themselves, or cut off. *)
Section cut_off.
  Context {S A : Type} (update : ∀ op, xans op → S → S).

(** The race of a program makes the program's own calls, in its order; cut off,
    it has come to a call that is awaited, where [J] holds. *)
Lemma spec_raced R (J : list xevent → Prop) cap signal s (p : xprog A) g h (Q : A → list xevent → Prop) :
  spec (λ g op, R (erase g) (strip op) ∧ (at_once op = false → J (erase g))) p g (λ a g', Q a (erase g')) → erase g = erase h →
  spec (λ h op, R (erase h) (strip op)) (raced update cap signal s p) h
    (λ r h', match snd r with inl a => Q a (erase h') | inr _ => J (erase h') end).
Proof.
  revert s g h. induction p as [a|op k IH|]; intros s g h Hp E; cbn [raced spec snd]; [by rewrite <- E| |done].
  destruct Hp as [[HR HJ] Hk]. destruct (at_once op) eqn:Ho.
  - split; [by rewrite <- E|]. intros x. apply (IH x _ (g ++ [Event op x])); [apply Hk|]. by rewrite !erase_snoc, E.
  - split; [by rewrite <- E|]. intros [x|i].
    + apply (IH x _ (g ++ [Event op x])); [apply Hk|]. by rewrite !erase_snoc, E.
    + cbn [spec snd]. rewrite erase_snoc, <- E. cbn [heard]. rewrite (right_id_L [] (++)). by apply HJ.
Qed.

Lemma spec_within R (J : list xevent → Prop) limit s (p : xprog A) g h (Q : A → list xevent → Prop) :
  spec (λ g op, R (erase g) (strip op) ∧ (at_once op = false → J (erase g))) p g (λ a g', Q a (erase g')) → erase g = erase h →
  spec (λ h op, R (erase h) (strip op)) (within update limit s p) h
    (λ r h', match snd r with Some a => Q a (erase h') | None => J (erase h') end).
Proof.
  revert s g h. induction p as [a|op k IH|]; intros s g h Hp E; cbn [within spec snd]; [by rewrite <- E| |done].
  destruct Hp as [[HR HJ] Hk]. destruct (at_once op) eqn:Ho.
  - split; [by rewrite <- E|]. intros x. apply (IH x _ (g ++ [Event op x])); [apply Hk|]. by rewrite !erase_snoc, E.
  - split; [by rewrite <- E|]. intros [x|].
    + apply (IH x _ (g ++ [Event op x])); [apply Hk|]. by rewrite !erase_snoc, E.
    + cbn [spec snd]. rewrite erase_snoc, <- E. cbn [heard]. rewrite (right_id_L [] (++)). by apply HJ.
Qed.

(** The variable follows the calls that are not awaited. *)
Lemma raced_state (I : S → list xevent → Prop) cap signal s (p : xprog A) h :
  (∀ s h op x, at_once op = true → I s h → I (update op x s) (h ++ [Event op x])) →
  (∀ s h op x e, at_once op = false → I s h → I (update op x s) (h ++ [e])) → (∀ s h e, I s h → I s (h ++ [e])) →
  I s h → spec (λ _ _, True) (raced update cap signal s p) h (λ r h', I (fst r) h').
Proof.
  intros H1 H2 H3. revert s h. induction p as [a|op k IH|]; intros s h Hs; cbn [raced spec fst]; [done| |done].
  destruct (at_once op) eqn:Ho; (split; [done|]).
  - intros x. apply IH. by apply H1.
  - intros [x|i]; [apply IH; by apply H2|]. cbn [spec fst]. by apply H3.
Qed.

Lemma spec_tracking R s (p : xprog A) h (Q : A → list xevent → Prop) :
  spec R p h Q → spec R (tracking update s p) h (λ r h', Q (snd r) h').
Proof.
  revert s h. induction p as [a|op k IH|]; intros s h Hp; cbn [tracking spec snd] in *; [done| |done].
  destruct Hp as [HR Hk]. split; [done|]. intros x. by apply IH.
Qed.

End cut_off.

Section both.
  Context {Op : Type} {Ans : Op → Type} {A : Type}.

Lemma spec_and R R' (p : prog Ans A) h Q Q' :
  spec R p h Q → spec R' p h Q' → spec (λ h op, R h op ∧ R' h op) p h (λ a h', Q a h' ∧ Q' a h').
Proof.
  revert h. induction p as [a|op k IH|]; intros h; cbn [spec]; [done| |done].
  intros [HR Hk] [HR' Hk']. split; [done|]. intros x. by apply IH.
Qed.
End both.

(** ** The guest's side of a run *)

(** Talking to the guest, and what is seen of its readiness. *)
Definition observing (op : xop) : Prop :=
  match op with XRun _ | XEmit Lifecycle.GuestReady | XEmit Lifecycle.SshReady => True | _ => False end.

Definition quiet (op : xop) : Prop := observing (strip op).

Lemma heard_op op x e : e ∈ heard op x → ev_op e = strip op.
Proof.
  revert x e. induction op as [who op|op|ev|p id|base id me cap| | | | |c|limit op IH|cap signal op IH]; intros x e;
    try (intros ->%list_elem_of_singleton; reflexivity); cbn [heard strip].
  - destruct x as [x|]; [apply IH|by intros ?%elem_of_nil].
  - destruct x as [x|i]; [apply IH|by intros ?%elem_of_nil].
Qed.

Lemma erase_calls ok h : all_calls (λ op, ok (strip op)) h → all_calls ok (erase h).
Proof.
  intros Hh e (e0 & He & He0)%list_elem_of_bind. apply heard_op in He. rewrite He. by apply Hh.
Qed.

Lemma only_observed {A : Type} (p : run_prog A) : only observing (observed p).
Proof.
  eapply (only_translate (λ _, True)); [apply only_any|]. intros op _. by destruct op as [| | | | |[]| | | | | | | | | | | | | | | |].
Qed.

Lemma only_within {S A : Type} (update : ∀ op, xans op → S → S) (ok : xop → Prop) limit s (p : xprog A) :
  only ok p → only (λ op, ∃ op', strip op = strip op' ∧ ok op') (within update limit s p).
Proof.
  revert s. induction p as [a|op k IH|]; intros s Hp; cbn [within only] in *; [done| |done].
  destruct Hp as [Hop Hk]. destruct (at_once op); (split; [by exists op|]).
  - intros x. by apply IH.
  - intros [x|]; [by apply IH|done].
Qed.

Lemma only_quiet {A : Type} (p : run_prog A) : only quiet (observed p).
Proof.
  eapply only_weaken; [apply only_observed|]. intros op Hop. unfold quiet. by destruct op.
Qed.

Lemma only_quiet_timeout {A : Type} limit (p : run_prog A) : only quiet (timeout limit (observed p)).
Proof.
  unfold timeout. apply only_bind; [|intros ?; exact I]. eapply only_weaken; [apply only_within, only_quiet|].
  intros op (op' & E & Hop'). unfold quiet in *. by rewrite E.
Qed.

(** The ends of the workload that the stream records. *)
Definition exits (h : list xevent) : list (Z * WorkloadStatus) :=
  omap (λ e, match ev_op e with XEmit (WorkloadExited code status) => Some (code, status) | _ => None end) h.

Lemma exits_app h k : exits (h ++ k) = exits h ++ exits k.
Proof. apply omap_app. Qed.

Lemma exits_quiet h : all_calls quiet h → exits (erase h) = [].
Proof.
  intros Hh%erase_calls. induction (erase h) as [|e l IH]; [done|].
  assert (He : observing (ev_op e)) by (apply Hh; set_solver).
  assert (Hl : exits l = []) by (apply IH; intros e' He'; apply Hh; set_solver).
  unfold exits in *. cbn [omap list_omap]. destruct e as [op x]. cbn [ev_op] in *.
  destruct op as [| |[]| | | | | | | | |]; try done.
Qed.

(** ** The workload *)

(** A delivery was acknowledged. *)
Definition acked (g : list xevent) : Prop :=
  ∃ delivery limit, answered g (XSys PMain (OAwaitAcked delivery limit)) (λ r : result string unit, is_ok r = true).

Definition emitted (event : Lifecycle.Event) (g : list xevent) : Prop := Event (XEmit event) () ∈ g.

(** What a workload may do: its start is only recorded once the guest's SSH
    answered and, where secrets were asked for, once their delivery was
    acknowledged; its end is recorded once. *)
Definition work_allows (secret : bool) (g : list xevent) (op : xop) : Prop :=
  match op with
  | XEmit SecretsDelivered => acked g
  | XEmit (WorkloadStarted _) => emitted Lifecycle.SshReady g ∧ (secret = true → emitted SecretsDelivered g)
  | XEmit (WorkloadExited _ _) => exits g = []
  | XEmit (Lifecycle.GuestReady | Lifecycle.SshReady | GuestUnreachable _ | SecretsFailed _ | WorkloadFailed _) => True
  | XSys PMain (OAwaitAcked _ _ | OSleep _ | OTryWait _) => True
  | XRun _ | XCtrlC => True
  | _ => False
  end.

Lemma quiet_work secret g op : quiet op → work_allows secret g (strip op).
Proof. unfold quiet. by destruct (strip op) as [| |[]| | | | | | | | |]. Qed.

(** A step that only talks to the guest. *)
Lemma spec_observing {A : Type} secret (p : xprog A) g (Q : A → list xevent → Prop) :
  only quiet p → exits (erase g) = [] → (∀ a k, all_calls quiet k → run p k (Some a) → Q a (g ++ k)) →
  spec (λ g op, work_allows secret (erase g) (strip op) ∧ (at_once op = false → exits (erase g) = [])) p g Q.
Proof.
  intros Hp Hg HQ. eapply only_traced; [exact Hp| |exact HQ]. intros k op Hk Hop. split; [by apply quiet_work|].
  intros _. by rewrite erase_app, exits_app, Hg, exits_quiet.
Qed.

(** A run of a runner's program, call by call. *)
Definition lift_event (e : revent) : xevent :=
  match e with
  | Event op x =>
      match op return rans op → xevent with
      | RObserve Runner.GuestReady => λ _, Event (XEmit Lifecycle.GuestReady) ()
      | RObserve Runner.SshReady => λ _, Event (XEmit Lifecycle.SshReady) ()
      | op => λ x, Event (XRun op) x
      end x
  end.

Lemma run_observed {A : Type} (p : run_prog A) k o : run (observed p) k o → ∃ tr, run p tr o ∧ k = lift_event <$> tr.
Proof.
  revert k. induction p as [a|op j IH|]; intros k Hr; cbn [run observed translate] in *.
  - destruct Hr as [-> Ho]. by exists [].
  - assert (Hnone : ∃ tr, (run (Vis op j) tr None) ∧ [] = lift_event <$> tr) by (exists []; split; [by left|done]).
    destruct op as [| | | | |[]| | | | | | | | | | | | | | | |]; cbn in Hr;
      (destruct Hr as [[-> ->]|(x & k' & -> & Hr)]; [exact Hnone|]); clear Hnone;
      destruct (IH _ _ Hr) as (tr & Htr & ->); (match type of IH with (∀ _ : rans ?op, _) => exists (Event (Ans := rans) op x :: tr) end); (split; [right; by eauto|]); try destruct x; reflexivity.
  - destruct Hr as [-> Ho]. by exists [].
Qed.

Section workload.
  Variable show_path : path → string.
  Variable show_duration : N → string.
  Variables (show_debug : string → string) (show_status : option Z → string) (show_utf8_error : string → string).
  Variables (show_result : ResultJson → string) (show_meta : CursorMeta → string).
  Variables (config : RoomsConfig) (fuel : nat).
  Variables (env : PostBootEnv) (job : Runner).
  (** Secrets were asked for. *)
  Variable secret : bool.

Abbreviation rule := (λ g op, work_allows secret (erase g) (strip op) ∧ (at_once op = false → exits (erase g) = [])).
Abbreviation exec_workload := (exec_workload show_path show_duration show_debug show_status show_utf8_error show_result show_meta config fuel).
Abbreviation run_workload := (run_workload show_path show_duration show_debug show_status show_utf8_error show_result show_meta config fuel).

Lemma erase_emitted ev g : emitted ev g → emitted ev (erase g).
Proof. intros H. apply list_elem_of_bind. eexists. split; [|exact H]. by apply list_elem_of_singleton. Qed.

(** Nothing has ended yet, and the stream says what [P] asks. *)
Definition going (P : list xevent → Prop) (g : list xevent) : Prop := exits (erase g) = [] ∧ P (erase g).

Lemma spec_channel g :
  exits (erase g) = [] →
  spec rule (wait_for_channel show_path show_duration config fuel env) g (λ r h, exits (erase h) = [] ∧ (is_ok r = true → emitted Lifecycle.SshReady (erase h))).
Proof using All.
  intros Hg. unfold wait_for_channel. apply spec_bind. apply spec_observing; [apply only_quiet|done|].
  intros waited k Hk Hr.
  assert (Hn : exits (erase (g ++ k)) = []) by (by rewrite erase_app, exits_app, Hg, exits_quiet).
  destruct waited as [u|e].
  - split; [exact Hn|]. intros _. apply run_observed in Hr as (tr & Hr & ->).
    destruct (path_to_str show_path (pe_key env)) as [key|] eqn:Hkey.
    + pose proof (spec_wait config show_path show_duration fuel (target_of env) (pe_key env) key (pe_streams env) Hkey) as Hs.
      destruct (spec_run _ _ _ _ _ Hs Hr) as [_ H]. specialize (H _ eq_refl). cbn [RunnerWait.observed] in H.
      apply erase_emitted. unfold emitted. apply elem_of_app. right. apply list_elem_of_fmap.
      exists (Event (Ans := rans) (RObserve Runner.SshReady) ()). split; [done|].
      assert (Hin : Runner.SshReady ∈ signals tr) by (rewrite H; set_solver).
      apply list_elem_of_omap in Hin as ([op x] & Hin & E). destruct op; try discriminate. injection E as ->. by destruct x.
    + exfalso. unfold wait_for_ssh_observed in Hr. rewrite Hkey in Hr. by destruct Hr as [_ [|[=]]].
  - destruct e; cbn; (split; [split; [done|intros _; exact Hn]|]); intros []; (split; [|done]);
      rewrite erase_snoc, exits_app, Hn; done.
Qed.

#[local] Instance emitted_monotone ev : Monotone (λ h, emitted ev (erase h)).
Proof. intros h k H. unfold emitted in *. rewrite erase_app. apply elem_of_app. by left. Qed.

(** One event onto the stream that does not end the workload. *)
Lemma spec_emit ev g (Q : unit → list xevent → Prop) :
  work_allows secret (erase g) (XEmit ev) → exits (erase [Event (XEmit ev) ()]) = [] → exits (erase g) = [] →
  (exits (erase (g ++ [Event (XEmit ev) ()])) = [] → emitted ev (erase (g ++ [Event (XEmit ev) ()])) → Q () (g ++ [Event (XEmit ev) ()])) →
  spec rule (emit ev) g Q.
Proof using All.
  intros HR He Hg HQ. split; [split; [exact HR|by intros]|]. intros []. apply HQ.
  - by rewrite erase_app, exits_app, Hg, He.
  - apply erase_emitted, elem_of_app. right. by apply list_elem_of_singleton.
Qed.

Lemma spec_gate delivery started_at g :
  exits (erase g) = [] →
  spec rule (gate_on_secrets show_path show_status show_result env job delivery started_at) g
    (λ r h, exits (erase h) = [] ∧ (is_ok r = true → emitted SecretsDelivered (erase h))).
Proof using All.
  intros Hg. unfold gate_on_secrets. apply spec_bind. split; [split; [exact I|by intros]|]. intros delivered. apply spec_ret.
  assert (Hg1 : exits (erase (g ++ [Event (XSys PMain (OAwaitAcked delivery SECRETS_ACK_TIMEOUT)) delivered])) = []).
  { by rewrite erase_app, exits_app, Hg. }
  destruct delivered as [u|e].
  - apply spec_bind, spec_emit; [|done|exact Hg1|].
    + exists delivery, SECRETS_ACK_TIMEOUT, (Ok u). split; [|done]. rewrite erase_snoc. set_solver.
    + intros H1 H2. split; [exact H1|]. by intros _.
  - apply spec_bind, spec_emit; [exact I|done|exact Hg1|]. intros H1 _. apply spec_bind.
    unfold record_aborted_run. apply spec_bind, spec_observing; [apply only_quiet_timeout|exact H1|].
    intros done_ k Hk _. cbv beta. apply spec_ret, spec_ret. split; [|done]. by rewrite erase_app, exits_app, H1, exits_quiet.
Qed.

(** The workload has ended, once, or never began. *)
Definition concluded (r : result RoomsError N) (g : list xevent) : Prop :=
  match r with
  | Ok code => ∃ exit_code status, exits g = [(exit_code, status)] ∧ code = code_u8 exit_code
  | Err _ => length (exits g) ≤ 1
  end.

Lemma spec_exited o g (Q : unit → list xevent → Prop) :
  exits (erase g) = [] →
  (∀ h, exits (erase h) = [(go_exit_code o, workload_status (go_status o))] → Q () h) →
  spec rule (workload_exited o) g Q.
Proof using Type.
  intros Hg HQ. split; [split; [exact Hg|by intros]|]. intros []. apply HQ. by rewrite erase_snoc, exits_app, Hg.
Qed.

(** A last word on the stream, after the end was recorded. *)
Lemma spec_failed e (r : result RoomsError N) g n :
  length (exits (erase g)) ≤ n →
  spec rule (do* emit (WorkloadFailed e) in Ret r) g (λ r' h, r' = r ∧ length (exits (erase h)) ≤ n).
Proof using Type.
  intros Hg. split; [split; [exact I|by intros]|]. intros []. split; [done|]. rewrite erase_snoc, exits_app, length_app. cbn. lia.
Qed.

Lemma spec_run_workload secrets started_at g :
  (secret = true → secrets ≠ None) → exits (erase g) = [] → spec rule (run_workload env job secrets started_at) g (λ r h, concluded r (erase h)).
Proof using All.
  intros Hsecret Hg. unfold Run.run_workload. apply spec_try.
  eapply spec_mono; [by apply spec_channel|]. intros [u|e] h (Hh & Hssh); cbv beta; [|cbn [concluded]; rewrite Hh; cbn; lia].
  specialize (Hssh eq_refl). apply spec_try. eapply spec_mono.
  { apply (spec_keep _ _ _ (λ h, emitted Lifecycle.SshReady (erase h)) (λ r h, exits (erase h) = [] ∧
      (is_ok r = true → secret = true → emitted SecretsDelivered (erase h)))); [exact Hssh|].
    destruct secrets as [delivery|]; [|by split; [exact Hh|intros _ Hs; destruct (Hsecret Hs)]]. eapply spec_mono; [by apply spec_gate|].
    intros r h1 [H1 H2]. split; [exact H1|]. intros Hok _. by apply H2. }
  intros [u'|e] h1 (Hssh1 & Hh1 & Hsec); cbv beta; [|cbn [concluded]; rewrite Hh1; cbn; lia]. specialize (Hsec eq_refl).
  apply spec_bind, spec_emit; [by split|done|exact Hh1|]. intros Hh2 _.
  apply spec_bind. eapply spec_mono.
  { apply (spec_tracking completed_by _ _ _ _ (λ _ h, exits (erase h) = [])), spec_observing; [apply only_quiet|exact Hh2|].
    intros a k Hk _. by rewrite erase_app, exits_app, Hh2, exits_quiet. }
  intros [completed [outcome|e]] h3 Hh3; cbn [snd] in Hh3.
  - apply spec_bind, spec_exited; [exact Hh3|]. intros h4 Hh4. destruct (go_post_run_error outcome) as [e|].
    + eapply spec_mono; [apply (spec_failed e _ _ 1); rewrite Hh4; cbn; lia|]. intros r h5 [-> H5]. exact H5.
    + apply spec_ret. eexists _, _. split; [exact Hh4|done].
  - apply spec_bind. destruct completed as [outcome|].
    + apply spec_exited; [exact Hh3|]. intros h4 Hh4.
      eapply spec_mono; [apply (spec_failed e _ _ 1); rewrite Hh4; cbn; lia|]. intros r h5 [-> H5]. exact H5.
    + apply spec_ret. eapply spec_mono; [apply (spec_failed e _ _ 1); rewrite Hh3; cbn; lia|]. intros r h5 [-> H5]. exact H5.
Qed.

(** The end of a workload that was cut off, or was not. *)
Definition settled (armed : bool) (r : result RoomsError N) (g : list xevent) : Prop :=
  match r with
  | Ok code => ∃ exit_code status, exits g = [(exit_code, status)] ∧
      (code = code_u8 exit_code ∨ code = 130%N ∨ (armed = true ∧ code = 143%N) ∨ (pe_max_wall env ≠ None ∧ code = 124%N))
  | Err _ => length (exits g) ≤ 1
  end.

Lemma interruption_codes armed (i : interruption (is_some (pe_max_wall env)) armed) :
  interruption_code i = 130%N ∨ (armed = true ∧ interruption_code i = 143%N) ∨
  (pe_max_wall env ≠ None ∧ interruption_code i = 124%N).
Proof using Type.
  destruct i as [|[] Ha|Hc]; cbn; auto. right. right. split; [|done]. intros E. by rewrite E in Hc.
Qed.

Lemma spec_exec_workload secrets armed g :
  (secret = true → secrets ≠ None) → exits (erase g) = [] →
  spec (λ g op, work_allows secret (erase g) (strip op)) (exec_workload env job secrets armed) g (λ r h, settled armed r (erase h)).
Proof using All.
  intros Hsecret Hg. unfold Run.exec_workload. apply spec_bind. split; [exact I|]. intros started_at. apply spec_ret.
  assert (Hg1 : exits (erase (g ++ [Event (XRun RUtcNow) started_at])) = []) by (by rewrite erase_app, exits_app, Hg).
  apply spec_bind. eapply spec_mono.
  { eapply (spec_raced completed_by (work_allows secret) (λ g, exits g = [])); [by apply spec_run_workload|reflexivity]. }
  intros [completed [r|i]] h Hh; cbn [snd] in Hh.
  - assert (Hs : settled armed r (erase h)).
    { destruct r as [code|e]; [|exact Hh]. destruct Hh as (c & st & Hc & ->). exists c, st. split; [exact Hc|by left]. }
    by destruct completed.
  - pose proof (interruption_codes armed i) as Hcode. destruct completed as [outcome|].
    + unfold record_interrupted_finalization. apply spec_bind. split; [exact Hh|]. intros [].
      apply spec_ret, spec_bind. split; [exact I|]. intros []. apply spec_ret, spec_bind.
      eapply (only_spec quiet); [apply only_quiet_timeout|intros k op _ Hop; by apply quiet_work|].
      intros u k Hk. apply spec_ret. eexists _, _. split; [|right; exact Hcode].
      rewrite erase_app, exits_app, (exits_quiet k Hk), !erase_snoc, !exits_app, Hh. reflexivity.
    + apply spec_bind. split; [exact Hh|]. intros []. apply spec_ret, spec_bind. unfold record_aborted_run. apply spec_bind.
      eapply (only_spec quiet); [apply only_quiet_timeout|intros k op _ Hop; by apply quiet_work|].
      intros u k Hk. apply spec_ret, spec_ret. eexists _, _. split; [|right; exact Hcode].
      rewrite erase_app, exits_app, (exits_quiet k Hk), erase_snoc, exits_app, Hh. reflexivity.
Qed.

(** C12. Whatever the guest and the host answer, and wherever a signal or the cap
    cuts a workload off: its start only goes onto the stream once the guest's
    SSH answered and, where secrets were asked for, their delivery was
    acknowledged; it is recorded to have ended at most once; and when it answers
    an exit code the end was recorded exactly once, the code being the recorded
    one as a byte, or 130, or 143 where a signal source was armed, or 124 where a
    cap was set. *)
Theorem workload_recorded secrets armed tr o :
  (secret = true → secrets ≠ None) → run (exec_workload env job secrets armed) tr o →
  guarded (λ h op, work_allows secret (erase h) (strip op)) tr ∧ ∀ r, o = Some r → settled armed r (erase tr).
Proof using All.
  intros Hsecret Hr. exact (spec_run _ _ _ _ _ (spec_exec_workload secrets armed [] Hsecret eq_refl) Hr).
Qed.
End workload.

(** ** Examples *)

(** A host on which the machine boots, its guest answers, and nothing is left. *)
Fixpoint room_machine (op : xop) : xans op :=
  match op return xans op with
  | XSys PBoot op => room_host [] op
  | XSys PShutdown op =>
      match op return ans op with
      | ORun _ _ => Ok {| Host.success := false; Host.stdout := ""; Host.stderr := "" |}
      | op => idle_host [] op
      end
  | XSys PMain op =>
      match op return ans op with
      | OExists p => bool_decide (p = ["images"; "vmlinux.bin"])
      | OReadExact _ _ => Ok (Some ELF_MAGIC)
      | OReadAll _ _ => Ok "virtio_vsock"
      | OReadText _ => Err (io_err NotFound)
      | ORun _ _ => Ok {| Host.success := true; Host.stdout := ROOMS_FWD_MARKER; Host.stderr := "" |}
      | OEnv _ => Some "root"
      | OProcStat _ => sample_stat
      | OAwaitAcked _ _ => Ok ()
      | op => idle_host [] op
      end
  | XRun op => willing_guest [] op
  | XClaim _ _ _ _ => Ok (derive 3)
  | XCreateStream _ _ => Ok ()
  | XEmit _ => ()
  | XArm => Ok ()
  | XObserved => None
  | XCommit => Ok None
  | XCtrlC => Ok ()
  | XStopWitness _ => true
  | XWithin _ op => Some (room_machine op)
  | XRaced _ _ op => inl (room_machine op)
  end.

(** The same, but that the cap is reached during the workload. *)
Definition capped_machine (h : list xevent) (op : xop) : xans op :=
  match op return xans op with
  | XRaced cap signal op =>
      match op return xans (XRaced cap signal op) with
      | XRun (RWait _) => match decide (cap = true) with left E => inr (CapReached E) | right _ => inl (plain_output "") end
      | op => inl (room_machine op)
      end
  | op => room_machine op
  end.

Definition sample_env : PostBootEnv :=
  {| pe_network := network_config_for (derive 3); pe_network_namespace := None; pe_key := ["keys"; "id"]; pe_max_wall := Some 60%N;
     pe_streams := true; pe_egress := PlanObserve |}.

Definition sample_workload : xprog (result RoomsError N) :=
  exec_workload (join "/") show_N id (λ _, EmptyString) id (λ r, pretty (exit_code r)) cm_model_id quick_config 4 sample_env
    (Command "make test") (Some 8%N) true.

(** The command ended before the cap, which cut off the end of its recording. *)
Lemma workload_recorded_witness :
  let tr := snd (exec capped_machine sample_workload []) in
  run sample_workload tr (Some (Ok 124%N)) ∧ guarded (λ h op, work_allows true (erase h) (strip op)) tr ∧
  settled sample_env true (Ok 124%N) (erase tr) ∧ exits (erase tr) = [(0%Z, WlSucceeded)].
Proof.
  intros tr. assert (E : fst (exec capped_machine sample_workload []) = Some (Ok 124%N)) by (vm_compute; reflexivity).
  assert (Hr : run sample_workload tr (Some (Ok 124%N))) by (rewrite <- E; apply exec_run_nil). split; [exact Hr|].
  destruct (workload_recorded (join "/") show_N id (λ _, EmptyString) id (λ r, pretty (exit_code r)) cm_model_id quick_config 4
              sample_env (Command "make test") true (Some 8%N) true tr _ (λ _, ltac:(discriminate)) Hr) as [Hg Hs].
  split; [exact Hg|]. split; [exact (Hs _ eq_refl)|]. vm_compute. reflexivity.
Defined.
