(* ===== verification/RunEnds.v ===== *)
(** * RunEnds: the whole of a run

    Admission before the claim, the claim before the boot, the workload before
    the collection, the collection before the end of the capture, and all of it
    before the teardown, which every run that booted ends with unless the room is
    kept. *)

From S2P Require Import Prelude RStr Fs Room IndexedClaim Slot Host CloneRoutes Egress Registry Pcap Artifacts Lifecycle Prog Config Sys Teardown InodeSeal Images Launch Boot Runner RunnerOrder RunnerWait Returns Doctor Witness Cli CliSpec Run RunOrder.
From stdpp Require Import options.

(** ** The machine a boot hands over *)

(** Its guard still cleans up, and it has the delivery that was asked for. *)
Definition handed (req : BootRequest) (vm : BootedVm) : Prop :=
  (br_secrets req ≠ None → vm_secrets_delivery vm ≠ None) ∧
  g_suppress_cleanup (vm_guard vm) = false.

Definition hands {E : Type} (req : BootRequest) (r : result E BootedVm) : Prop := ∀ vm, r = Ok vm → handed req vm.

Lemma returns_unwinding {E A : Type} (P : result E A → Prop) drops (p : sys (result E A)) :
  (∀ e, P (Err e)) → returns P p → returns P (unwinding drops p).
Proof.
  intros He Hp. unfold unwinding. eapply returns_bind; [exact Hp|]. intros [a|e] Ha; [exact Ha|].
  eapply returns_bind; [apply returns_any|]. intros _ _. apply He.
Qed.

Lemma returns_map_err {E E' A : Type} (P : result E' A → Prop) (f : E → E') (p : sys (result E A)) :
  returns (λ r, P (map_err f r)) p → returns P (pmap_err f p).
Proof. intros Hp. eapply returns_bind; [exact Hp|]. intros a Ha. exact Ha. Qed.

Section handed.
  Variables (show_path : path → string) (resolve : string → path) (show_secs : N → string).
  Variables (show_json : json → result string string) (immutable_flag : N) (home : option path) (config : RoomsConfig).
  Variables (fuel : nat) (req : BootRequest).

Lemma jailer_hands guard deps layout per_room_dir chroot socket witness secrets provisioning :
  g_suppress_cleanup guard = false → (br_secrets req ≠ None → secrets ≠ None) →
  returns (hands req) (jailer_block show_path show_secs show_json config fuel req guard deps layout per_room_dir chroot socket witness secrets provisioning).
Proof using Type.
  intros Hg Hs. unfold jailer_block. apply returns_try; [done|intros _]. apply returns_try; [done|intros child].
  eapply returns_bind; [apply returns_any|]. intros pid _. eapply returns_bind; [apply returns_any|]. intros pid' _.
  apply returns_unwinding; [done|]. apply returns_try; [done|intros _]. intros vm [= <-]. by split.
Qed.

Lemma confine_hands guard deps layout per_room_dir chroot witness :
  g_suppress_cleanup guard = false →
  returns (hands req) (confine_block show_path show_secs show_json config fuel req guard deps layout per_room_dir chroot witness).
Proof using Type.
  intros Hg. unfold confine_block. apply returns_try; [done|intros _].
  apply (returns_then (λ secrets, br_secrets req ≠ None → secrets ≠ None)); [|done|].
  - unfold fails. apply returns_map_err. unfold bind_secrets_listener. destruct (br_secrets req) as [payload|].
    + apply returns_try; [done|]. intros d secrets [= <-]. done.
    + by intros secrets [= <-].
  - intros secrets Hs. apply returns_unwinding; [done|]. apply returns_try; [done|]. intros provisioning.
    apply returns_unwinding; [done|]. by apply jailer_hands.
Qed.

Lemma block_hands guard deps layout per_room_dir chroot :
  g_suppress_cleanup guard = false →
  returns (hands req) (boot_block show_path show_secs show_json config fuel req guard deps layout per_room_dir chroot).
Proof using Type.
  intros Hg. unfold boot_block. destruct (negb _); [done|]. apply returns_try; [done|intros _].
  apply returns_try; [done|intros _]. apply returns_try; [done|intros witness]. apply returns_unwinding; [done|].
  by apply confine_hands.
Qed.

Lemma boot_hands :
  returns (hands req) (boot_with_cancellation show_path resolve show_secs show_json immutable_flag home config fuel req).
Proof using Type.
  unfold boot_with_cancellation. destruct (resolved_state_base home config) as [base|]; [|done].
  apply returns_try; [done|]. intros [deps chroot]. apply returns_try; [done|]. intros layout.
  eapply returns_bind; [apply returns_any|]. intros cancelled _. destruct cancelled.
  { eapply returns_bind; [apply returns_any|]. by intros u _. }
  eapply returns_bind; [apply block_hands|].
  - unfold boot_guard, PendingSlotClaim_new, PendingSlotClaim_handoff. by destruct (br_slot req), (br_network req).
  - intros [vm|[e g]] H; [by intros vm' [= <-]; apply H|]. eapply returns_bind; [apply returns_any|]. by intros u _.
Qed.
End handed.

(** ** Admission *)

(** Reading the host: no file is opened for writing, and the only programs are
    [debugfs], which is asked about an image, and [iptables -S]. *)
Definition admits_sys (op : sysop) : Prop :=
  match op with
  | OEnv _ | OStat _ | OFstat _ | OGetFlags _ | OExists _ | OSeek _ _ | OReadExact _ _ | OReadAll _ _ | OReadText _
  | OUlid | OSelfPid | OProcStat _ => True
  | OOpen _ how => how = OpenRead ∨ how = OpenNoFollow
  | ORun program args => (∃ request image, program = "debugfs" ∧ args = ["-R"; request; image]) ∨ (program = "iptables" ∧ args = ["-S"; ROOMS_FWD_CHAIN])
  | _ => False
  end.

(** Before the claim, the signal source is armed and the stream created too. *)
Definition admits (op : xop) : Prop :=
  match op with XSys PMain op => admits_sys op | XArm | XCreateStream _ _ => True | _ => False end.

Lemma admits_host {A : Type} (p : sys A) : only admits_sys p → only admits (host p).
Proof. intros Hp. apply (only_translate admits_sys admits); [exact Hp|]. intros op Hop. by split. Qed.

Ltac admit_walk :=
  repeat (only_walk; try match goal with
  | |- only admits (host _) => apply admits_host
  | |- only admits_sys (call _) => split; [cbn; eauto 8|intros ?; exact I]
  end).

Section admission.
  Variables (show_path : path → string) (immutable_flag : N).

Lemma admits_debugfs p request : only admits_sys (debugfs show_path p request).
Proof using Type. unfold debugfs. admit_walk. Qed.

#[local] Hint Resolve admits_debugfs : only.

Lemma admits_overlay p : only admits_sys (validate_overlay_image show_path p).
Proof using Type. unfold validate_overlay_image. admit_walk. Qed.

#[local] Hint Resolve admits_overlay : only.

Lemma admits_scratch p : only admits_sys (validate_scratch_image show_path p).
Proof using Type. unfold validate_scratch_image. admit_walk. Qed.

Lemma admits_toolstore_image p : only admits_sys (validate_toolstore_image show_path p).
Proof using Type. unfold validate_toolstore_image. admit_walk. Qed.

Lemma admits_kernel arch p : only admits_sys (validate_kernel arch p).
Proof using Type. unfold validate_kernel. admit_walk. Qed.

Lemma admits_toolstore sha256 parse arch p : only admits_sys (Toolstore_open show_path immutable_flag sha256 parse arch p).
Proof using Type.
  unfold Toolstore_open, manifest_file, open_regular, require_file, require_with_ops, inspect_flags, io_context, read_exact. admit_walk.
Qed.

#[local] Hint Resolve admits_scratch admits_toolstore_image admits_kernel admits_toolstore : only.

Lemma admits_tcpdump resolve : only admits_sys (ensure_tcpdump_available resolve).
Proof using Type.
  unfold ensure_tcpdump_available, which_tcpdump. admit_walk. generalize ((λ dir, path_join (resolve dir) TCPDUMP) <$> split_byte ":" s).
  intros l. induction l as [|p l IH]; cbn [first_executable]; unfold is_executable_file; admit_walk.
Qed.

Lemma admits_fwd : only admits_sys ensure_rooms_fwd_installed.
Proof using Type. unfold ensure_rooms_fwd_installed, rooms_fwd_status. admit_walk. Qed.

Lemma admits_action args : only admits_sys (resolve_action show_path args).
Proof using Type. unfold resolve_action, resolve_cursor. admit_walk. Qed.

Lemma admits_vsock p : only admits_sys (ensure_kernel_has_vsock show_path p).
Proof using Type. unfold ensure_kernel_has_vsock, read_file. admit_walk. Qed.

#[local] Hint Resolve admits_tcpdump admits_fwd admits_action admits_vsock : only.

Lemma admits_run resolve sha256 parse target_name to_socket_addrs arch home config args :
  only admits (admit_run show_path resolve immutable_flag sha256 parse target_name to_socket_addrs arch home config args).
Proof using Type.
  unfold admit_run, ensure_witness_available, when, open_toolstore, resolve_lifecycle, internal, key_path, current_claimer, starttime_of_child.
  admit_walk.
Qed.
End admission.

(** ** What a run may do, and when *)

(** Not the teardown yet; and not the end of the capture either. *)
Definition standing_op (op : xop) : Prop :=
  match op with XSys PShutdown _ | XEmit (CleanupDone | CleanupFailed _) => False | _ => True end.

Definition capturing_op (op : xop) : Prop := match op with XStopWitness _ => False | op => standing_op op end.

Abbreviation up := (all_calls (Ans := xans) standing_op).
Abbreviation open_ := (all_calls (Ans := xans) capturing_op).

Definition claimed (h : list xevent) : Prop :=
  ∃ base id me cap, answered h (XClaim base id me cap) (λ r : result SlotError Slot, is_ok r = true).

Definition started (h : list xevent) : Prop := ∃ pid, emitted (VmmStarted pid) h.

(** Nothing of a room was found when its residue was looked at. *)
Definition cleared (r : CleanupResidue) (k : list xevent) : Prop :=
  (∀ p, cr_room_dir r = Some p → answered k (XSys PMain (OExists p)) (λ here : bool, here = false)) ∧
  (∀ p, cr_jail_dir r = Some p → answered k (XSys PMain (OExists p)) (λ here : bool, here = false)) ∧
  answered k (XSys PMain (OReadText (cr_slot_file r)))
    (λ token : result io_error string, ∀ text, token = Ok text → head (lines text) ≠ Some (cr_room_id r)).

(** The child was killed and dropped. *)
Definition down (h : list xevent) : Prop :=
  ∃ child, answered h (XSys PShutdown (OKillChild child)) (λ _, True) ∧ Event (XSys PShutdown (ODropTask child)) () ∈ h.

(** What the stream says of the cleanup. *)
Definition cleanups (h : list xevent) : list Lifecycle.Event :=
  omap (λ e, match ev_op e with XEmit ((CleanupDone | CleanupFailed _) as ev) => Some ev | _ => None end) h.

Section ends.
  Variables (home : option path) (config : RoomsConfig).
  Variables (secret keep : bool).

(** The room's own residue was just found gone, after its shutdown. *)
Definition verified_gone (h : list xevent) : Prop :=
  ∃ h0 k base id me cap slot, h = h0 ++ k ∧ down h0 ∧
    Event (XClaim base id me cap) (Ok slot) ∈ h0 ∧ cleared (residue_for_room home config base slot id) k.

Definition run_allows (h : list xevent) (op : xop) : Prop :=
  match strip op with
  | XClaim _ _ _ _ => all_calls admits h
  | XSys PBoot _ => claimed h
  | XEmit SecretsDelivered => acked (erase h)
  | XEmit (WorkloadStarted _) => emitted Lifecycle.SshReady (erase h) ∧ (secret = true → emitted SecretsDelivered (erase h))
  | XEmit (WorkloadExited _ _) => exits (erase h) = []
  | XEmit CollectionStarted => open_ h
  | XRun _ | XStopWitness _ => up h
  | XSys PShutdown _ => keep = false ∧ started h
  | XEmit CleanupDone => verified_gone h
  | _ => True
  end.

(** How a run that booted ends: a room that is kept is left alone; any other is
    shut down, and the stream says once what became of it. *)
Definition ends (h : list xevent) : Prop :=
  if keep then up h else down h ∧ length (cleanups h) = 1.

(** *** The workload and the artifacts *)

Definition working (op : xop) : Prop :=
  match op with
  | XEmit (SecretsDelivered | WorkloadStarted _ | WorkloadExited _ _ | Lifecycle.GuestReady | Lifecycle.SshReady |
           GuestUnreachable _ | SecretsFailed _ | WorkloadFailed _) => True
  | XSys PMain _ | XRun _ | XCtrlC => True
  | _ => False
  end.

Definition gathering (op : xop) : Prop :=
  match op with
  | XEmit (CollectionDone | CollectionFailed _ | WitnessDone _ _ | Lifecycle.GuestReady | Lifecycle.SshReady) | XSys PMain _ | XRun _ | XStopWitness _ => True
  | _ => False
  end.

Lemma all_calls_app {Op : Type} {Ans : Op → Type} (ok : Op → Prop) (h k : list (event Ans)) :
  all_calls ok h → all_calls ok k → all_calls ok (h ++ k).
Proof using Type. intros Hh Hk e [He|He]%elem_of_app; auto. Qed.

Lemma all_calls_weaken {Op : Type} {Ans : Op → Type} (ok ok' : Op → Prop) (h : list (event Ans)) :
  (∀ op, ok op → ok' op) → all_calls ok h → all_calls ok' h.
Proof using Type. intros H Hh e He. by apply H, Hh. Qed.

Lemma all_calls_one {Op : Type} {Ans : Op → Type} (ok : Op → Prop) op (x : Ans op) : ok op → all_calls ok [Event op x].
Proof using Type. by intros H e ->%list_elem_of_singleton. Qed.

(** A wrapped call never shuts down. *)
Lemma strip_up (ok : xop → Prop) op : (∀ op, ok op → capturing_op op) → ok (strip op) → capturing_op op.
Proof using Type. intros H Hop. destruct op; try (by apply H in Hop); done. Qed.

Lemma working_calls k : all_calls (λ op, working (strip op)) k → open_ k.
Proof using Type.
  apply all_calls_weaken. intros op. apply strip_up. by intros [[] ?| |[]| | | | | | | | |].
Qed.

Lemma gathering_calls k : all_calls (λ op, gathering (strip op)) k → up k.
Proof using Type.
  apply all_calls_weaken. intros op Hop. destruct op as [[] ?| |[]| | | | | | | | |]; done.
Qed.

Lemma up_open h : open_ h → up h.
Proof using Type. apply all_calls_weaken. by intros []. Qed.

(** What follows a workload's rules follows the run's, while nothing is torn down. *)
Lemma work_run h op : up h → work_allows secret (erase h) (strip op) → run_allows h op.
Proof using Type.
  intros Hh. unfold run_allows. by destruct (strip op) as [[] ?| |[]| | | | | | | | |].
Qed.

Lemma gathering_run h op : up h → gathering (strip op) → run_allows h op.
Proof using Type.
  intros Hh. unfold run_allows. by destruct (strip op) as [[] ?| |[]| | | | | | | | |].
Qed.

Lemma work_working op g : work_allows secret g op → working op.
Proof using Type. by destruct op as [[] ?| |[]| | | | | | | | |]. Qed.

Lemma spec_working {A : Type} (p : xprog A) h (Q : A → list xevent → Prop) :
  open_ h → spec (λ h op, work_allows secret (erase h) (strip op)) p h Q → spec run_allows p h (λ _ h', open_ h').
Proof using Type.
  intros Hh Hp. assert (Ho : only (λ op, working (strip op)) p) by (eapply spec_only_ops; [exact Hp|]; intros g op; apply work_working).
  eapply spec_mono.
  - eapply (spec_refine _ _ _ _ _ _ Ho Hp). intros k op Hk _ HR. apply work_run; [|exact HR].
    by apply up_open, all_calls_app, working_calls.
  - intros a h' (_ & k & -> & Hk). by apply all_calls_app, working_calls.
Qed.
End ends.

Section whole.
  Variable show_path : path → string.
  Variable resolve : string → path.
  Variables (show_secs show_duration : N → string) (show_json : json → result string string).
  Variables (show_debug : string → string) (show_status : option Z → string).
  Variables (show_utf8_error show_int_error : string → string).
  Variables (show_result : ResultJson → string) (show_meta : CursorMeta → string) (show_changeset : Changeset → string).
  Variable show_witness : Pcap.Witness → result string string.
  Variables (immutable_flag : N) (sha256 : string → string) (parse_manifest : string → option Manifest) (target_name : string).
  Variable to_socket_addrs : string → result string (list IpAddr).
  Variables (arch : target_arch) (home : option path) (config : RoomsConfig).
  Variable fuel : nat.
  Variable args : RunArgs.

Abbreviation secret := (given (ra_secrets args)).
Abbreviation keep := (ra_keep args).
Abbreviation allows := (run_allows home config secret keep).

(** Once the machine is up. *)
Lemma spec_post_boot env action vm secrets armed h :
  (secret = true → secrets ≠ None) → open_ h → exits (erase h) = [] →
  spec allows (post_boot show_path show_duration show_debug show_status show_utf8_error show_result show_meta config fuel
                 env action vm secrets armed) h (λ _ h', open_ h').
Proof using All.
  intros Hs Hh He. eapply spec_working with (Q := λ _ _, True); [exact Hh|]. destruct action as [|job|]; cbn [post_boot].
  - apply spec_try, spec_map_err. split; [exact I|]. by intros [].
  - eapply spec_mono; [by apply spec_exec_workload|done].
  - unfold idle_linger. apply spec_bind. split; [exact I|]. intros []. apply spec_ret, spec_try, spec_map_err.
    split; [exact I|]. intros x. cbn. by destruct x.
Qed.

Abbreviation G := (λ op, gathering (strip op)).

Lemma spec_gather {A : Type} (p : xprog A) h : only G p → up h → spec allows p h (λ _ h', up h').
Proof using Type.
  intros Hp Hh. eapply only_spec; [exact Hp| |].
  - intros k op Hk Hop. apply gathering_run; [|exact Hop]. by apply all_calls_app, gathering_calls.
  - intros _ k Hk. by apply all_calls_app, gathering_calls.
Qed.

Lemma gather_observed {A : Type} (p : run_prog A) : only G (observed p).
Proof using Type. eapply only_weaken; [apply only_quiet|]. intros op. unfold quiet. by destruct (strip op) as [| |[]| | | | | | | | |]. Qed.

Lemma gather_timeout {A : Type} limit (p : run_prog A) : only G (timeout limit (observed p)).
Proof using Type. eapply only_weaken; [apply only_quiet_timeout|]. intros op. unfold quiet. by destruct (strip op) as [| |[]| | | | | | | | |]. Qed.

Lemma gather_within {S A : Type} (update : ∀ op, xans op → S → S) limit s (p : run_prog A) :
  only G (within update limit s (observed p)).
Proof using Type.
  eapply only_weaken; [apply only_within, gather_observed|]. intros op (op' & E & H). by rewrite E.
Qed.

Lemma gather_host {A : Type} (p : sys A) : only G (host p).
Proof using Type. apply (only_translate (λ _, True) G); [apply only_any|]. intros op _. by split. Qed.

#[local] Hint Resolve gather_observed gather_timeout gather_within gather_host : only.

Ltac gather := unfold emit; only_walk.

Lemma spec_collection target key action out_dir created h :
  open_ h →
  spec allows (collect_and_record show_path show_status show_changeset target key action out_dir created) h (λ _ h', up h').
Proof using Type.
  intros Hh. unfold collect_and_record. destruct (negb (is_exec action)); [by apply up_open|].
  apply spec_bind. split; [exact Hh|]. intros [].
  apply spec_gather; [gather|apply all_calls_app; [by apply up_open|by apply all_calls_one]].
Qed.

(** The artifacts, then the capture. *)
Lemma spec_collecting env action slot staged out_dir vm h :
  open_ h →
  spec allows (collect_run_artifacts show_path show_status show_int_error show_changeset show_witness env action slot staged out_dir vm)
    h (λ r h', fst r = without_witness vm ∧ up h').
Proof using Type.
  intros Hh. unfold collect_run_artifacts. apply spec_bind. eapply spec_mono.
  { instantiate (1 := λ _ h', up h'). destruct out_dir as [out_dir|]; [by apply spec_collection|by apply up_open]. }
  intros [created collection] h1 H1. cbv beta iota. apply spec_bind. eapply spec_mono.
  { apply spec_gather; [|exact H1]. destruct (vm_witness vm); [|done]. unfold summarize_witness, egress_record. gather. }
  intros witnessed h2 H2. apply spec_bind. eapply spec_mono.
  { apply spec_gather; [|exact H2]. gather. }
  intros [created2 witness] h3 H3. cbv beta iota. apply spec_bind. eapply spec_mono.
  { apply spec_gather; [|exact H3]. gather. }
  intros root h4 H4. apply spec_bind. eapply spec_mono.
  { apply spec_gather; [|exact H4]. unfold bounded_artifact_ownership. gather. }
  intros ownership h5 H5. by split.
Qed.

(** *** The teardown *)

(** A run of a host's program, call by call. *)
Lemma run_part {A : Type} who (p : sys A) k o :
  run (in_part who p) k o → ∃ tr, run p tr o ∧ k = (λ e, Event (Ans := xans) (XSys who (ev_op e)) (ev_ans e)) <$> tr.
Proof using Type.
  revert k. induction p as [a|op j IH|]; intros k Hr; cbn in Hr.
  - destruct Hr as [-> Ho]. by exists [].
  - destruct Hr as [[-> ->]|(x & k' & -> & Hr)]; [exists []; split; [by left|done]|].
    destruct (IH _ _ Hr) as (tr & Htr & ->). exists (Event op x :: tr). split; [right; by eauto|done].
  - destruct Hr as [-> Ho]. by exists [].
Qed.

Lemma answered_part who tr op (P : ans op → Prop) :
  answered tr op P → answered ((λ e, Event (Ans := xans) (XSys who (ev_op e)) (ev_ans e)) <$> tr) (XSys who op) P.
Proof using Type. intros (x & Hx & HP). exists x. split; [|exact HP]. apply list_elem_of_fmap. by exists (Event op x). Qed.

Lemma spec_part {A : Type} who (p : sys A) h (P : A → list sys_event → Prop) (Q : A → list xevent → Prop) :
  (∀ k op, all_calls (λ op, ∃ o, op = XSys who o) k → allows (h ++ k) (XSys who op)) →
  spec (λ _ _, True) p [] P →
  (∀ a tr, P a tr → let k := (λ e, Event (Ans := xans) (XSys who (ev_op e)) (ev_ans e)) <$> tr in
     all_calls (λ op, ∃ o, op = XSys who o) k → Q a (h ++ k)) →
  spec allows (in_part who p) h Q.
Proof using Type.
  intros HR Hp HQ. eapply (only_traced (λ op, ∃ o, op = XSys who o)).
  - apply (only_translate (λ _, True)); [apply only_any|]. intros op _. split; [by eexists|done].
  - intros k op Hk [o ->]. by apply HR.
  - intros a k Hk Hr. apply run_part in Hr as (tr & Hr & ->). apply HQ; [|exact Hk].
    by apply (spec_run _ _ _ _ _ Hp Hr).
Qed.

Lemma spec_any {A : Type} (p : sys A) h : spec (λ _ _, True) p h (λ _ _, True).
Proof using Type. revert h. induction p as [a|op k IH|]; intros h; cbn; auto. Qed.

(** A step that changes nothing of what [P] says. *)
Lemma spec_past {A : Type} (p : sys A) h (P : list sys_event → Prop) `{!Monotone P} : P h → spec (λ _ _, True) p h (λ _ h', P h').
Proof using Type. intros HP. eapply spec_mono; [apply (spec_keep _ _ _ P (λ _ _, True)); [exact HP|apply spec_any]|]. by intros a h' [? _]. Qed.

Lemma spec_shutdown vm :
  g_suppress_cleanup (vm_guard vm) = false →
  spec (λ _ _, True) (shutdown show_path fuel vm) [] (λ r h, r = Ok () ∧
    answered h (OKillChild (vm_child vm)) (λ _, True) ∧ Event (ODropTask (vm_child vm)) () ∈ h).
Proof using All.
  intros Hg. unfold shutdown. rewrite Hg. apply spec_bind, spec_bind. split; [done|]. intros killed. apply spec_ret.
  assert (H0 : answered ([] ++ [Event (OKillChild (vm_child vm)) killed]) (OKillChild (vm_child vm)) (λ _, True)) by (exists killed; set_solver).
  set (K := λ h : list sys_event, answered h (OKillChild (vm_child vm)) (λ _, True)).
  eapply spec_mono; [apply (spec_past _ _ K H0)|]. intros u h1 H1. apply spec_bind.
  do 3 (eapply spec_mono; [apply (spec_past _ _ K); eassumption|]; intros ? ? ?; apply spec_bind).
  eapply spec_mono; [apply (spec_past _ _ K); eassumption|]. intros ? h5 H5. apply spec_bind. split; [done|]. intros [].
  split; [done|]. split; [by apply answered_l|set_solver].
Qed.

Lemma spec_residue r :
  spec (λ _ _, True) (remaining r) [] (λ o h, o = None →
    (∀ p, cr_room_dir r = Some p → answered h (OExists p) (λ here : bool, here = false)) ∧
    (∀ p, cr_jail_dir r = Some p → answered h (OExists p) (λ here : bool, here = false)) ∧
    answered h (OReadText (cr_slot_file r)) (λ token : result io_error string, ∀ text, token = Ok text → head (lines text) ≠ Some (cr_room_id r))).
Proof using All.
  assert (He : ∀ (p : option path) h (Q : bool → list sys_event → Prop),
    (∀ b k, (b = false → ∀ q, p = Some q → answered (h ++ k) (OExists q) (λ here : bool, here = false)) → Q b (h ++ k)) →
    spec (λ _ _, True) (exists_opt p) h Q).
  { intros [p|] h Q HQ; cbn [exists_opt].
    - split; [done|]. intros b. apply HQ. intros -> q [= ->]. exists false. split; [set_solver|done].
    - cbn. rewrite <- (right_id_L [] (++) h). by apply HQ. }
  unfold remaining, slot_still_ours. apply spec_bind, He. intros room k1 H1. apply spec_bind, He. intros jail k2 H2.
  apply spec_bind, spec_bind. split; [done|]. intros token. apply spec_ret, spec_ret. intros E.
  destruct room, jail; try discriminate.
  split; [intros p Hp; apply answered_l, answered_l, H1; done|]. split; [intros p Hp; apply answered_l, H2; done|].
  exists token. split; [set_solver|]. intros text -> Hh. rewrite bool_decide_true in E by exact Hh. discriminate.
Qed.

Lemma cleanups_none h : all_calls (λ op, match op with XEmit (CleanupDone | CleanupFailed _) => False | _ => True end) h → cleanups h = [].
Proof using All.
  intros Hh. induction h as [|e h IH]; [done|].
  assert (He : match ev_op e with XEmit (CleanupDone | CleanupFailed _) => False | _ => True end) by (apply Hh; set_solver).
  assert (Hl : cleanups h = []) by (apply IH; intros e' He'; apply Hh; set_solver).
  unfold cleanups in *. cbn [omap list_omap]. destruct e as [op x]. cbn [ev_op] in *. destruct op as [| |[]| | | | | | | | |]; done.
Qed.

Lemma cleanups_part who k : all_calls (λ op, ∃ o, op = XSys who o) k → cleanups k = [].
Proof using All. intros Hk. apply cleanups_none. eapply all_calls_weaken; [|exact Hk]. by intros ? [o ->]. Qed.

Lemma cleanups_up h : up h → cleanups h = [].
Proof using All. intros Hh. apply cleanups_none. eapply all_calls_weaken; [|exact Hh]. by intros [| |[]| | | | | | | | |]. Qed.

Lemma cleanups_app h k : cleanups (h ++ k) = cleanups h ++ cleanups k.
Proof using All. apply omap_app. Qed.

Lemma down_app h k : down h → down (h ++ k).
Proof using All. intros (c & Hk & Hd). exists c. split; [by apply answered_l|apply elem_of_app; by left]. Qed.

Lemma started_app h k : started h → started (h ++ k).
Proof using All. intros [pid Hp]. exists pid. apply elem_of_app. by left. Qed.

Lemma spec_cleanup ev h :
  down h → cleanups h = [] → (ev = CleanupDone → verified_gone home config h) → (ev = CleanupDone ∨ ∃ e, ev = CleanupFailed e) →
  keep = false → spec allows (emit ev) h (λ _ h', ends keep h').
Proof using All.
  intros Hd Hc Hv He Hk. split; [destruct He as [-> | [e ->]]; [by apply Hv|exact I]|]. intros []. cbn [spec]. unfold ends. rewrite Hk.
  split; [by apply down_app|]. unfold cleanups in *. rewrite omap_app, Hc. by destruct He as [-> | [e ->]].
Qed.

Lemma spec_teardown vm k base id me cap slot h :
  keep = k → (keep = false → g_suppress_cleanup (vm_guard vm) = false) → up h → started h → Event (XClaim base id me cap) (Ok slot) ∈ h →
  spec allows (teardown show_path fuel vm k (residue_for_room home config base slot id)) h (λ _ h', ends keep h').
Proof using All.
  intros Hk Hg Hh Hs Hc. unfold teardown. destruct k; [unfold ends; by rewrite Hk|]. apply spec_bind.
  eapply spec_part; [|by apply spec_shutdown, Hg|].
  - intros k op _. split; [done|by apply started_app].
  - intros r tr (-> & Hkill & Hdrop) k1 Hkc. apply spec_bind.
    assert (Hd : down (h ++ k1)).
    { exists (vm_child vm). split; [by apply answered_r, answered_part|]. apply elem_of_app. right. apply list_elem_of_fmap.
      by exists (Event (ODropTask (vm_child vm)) ()). }
    assert (Hn : cleanups (h ++ k1) = []) by (rewrite cleanups_app, (cleanups_up _ Hh); exact (cleanups_part _ _ Hkc)).
    eapply spec_part; [by intros|apply spec_residue|]. intros o tr2 Hgone k2 Hk2.
    assert (Hn2 : cleanups ((h ++ k1) ++ k2) = []).
    { rewrite cleanups_app, Hn. exact (cleanups_part _ _ Hk2). }
    apply spec_cleanup; [by apply down_app|exact Hn2| |destruct o; eauto|exact Hk].
    destruct o as [traces|]; [done|]. intros _. destruct (Hgone eq_refl) as (H1 & H2 & H3).
    exists (h ++ k1), k2, base, id, me, cap, slot. split; [done|]. split; [exact Hd|]. split; [apply elem_of_app; by left|].
    split; [|split].
    + intros p Hp. by apply answered_part, H1.
    + intros p Hp. by apply answered_part, H2.
    + by apply answered_part.
Qed.
(** *** The whole run *)

(** What precedes the machine's start. *)
Definition before (op : xop) : Prop :=
  match op with
  | XSys (PMain | PBoot) _ | XArm | XCreateStream _ _ | XClaim _ _ _ _ | XObserved
  | XEmit (SlotAllocated _ _ | PoolFull _ | BootFailed _) => True
  | _ => False
  end.

Lemma admits_before op : admits op → before op.
Proof using All. by destruct op as [[] ?| | | | | | | | | | |]. Qed.

Lemma before_open h : all_calls before h → open_ h.
Proof using All. apply all_calls_weaken. by intros [[] ?| |[]| | | | | | | | |]. Qed.

Lemma before_exits h : all_calls before h → exits (erase h) = [].
Proof using All.
  intros Hh. assert (He : all_calls before (erase h)).
  { apply erase_calls. eapply all_calls_weaken; [|exact Hh]. by intros []. }
  induction (erase h) as [|e l IH]; [done|]. assert (Hop : before (ev_op e)) by (apply He; set_solver).
  assert (Hl : exits l = []) by (apply IH; intros e' He'; apply He; set_solver).
  unfold exits in *. cbn [omap list_omap]. destruct e as [op x]. cbn [ev_op] in *.
  by destruct op as [| |[]| | | | | | | | |].
Qed.

Lemma before_started h : all_calls before h → ¬ started h.
Proof using All. intros Hh [pid Hp]. by specialize (Hh _ Hp). Qed.

#[local] Instance started_monotone : Monotone started.
Proof using All. intros h k. apply started_app. Qed.

#[local] Instance claim_monotone e : Monotone (λ h : list xevent, e ∈ h).
Proof using All. intros h k H. apply elem_of_app. by left. Qed.

Lemma ends_past h op x : ends keep h → standing_op op → ends keep (h ++ [Event op x]).
Proof using All.
  unfold ends. intros H Hop. destruct keep; [by apply all_calls_app, all_calls_one|]. destruct H as [Hd Hl].
  split; [by apply down_app|]. rewrite cleanups_app, length_app, Hl, cleanups_up; [done|by apply all_calls_one].
Qed.

(** What is said when the machine has started. *)
Lemma spec_emit_started pid tap h :
  open_ h → exits (erase h) = [] →
  spec allows (emit_started pid tap) h (λ _ h', open_ h' ∧ exits (erase h') = [] ∧ started h').
Proof using All.
  intros Hh He. assert (Hlast : ∀ g, open_ g → exits (erase g) = [] →
    spec allows (emit (VmmStarted pid)) g (λ _ h', open_ h' ∧ exits (erase h') = [] ∧ started h')).
  { intros g Hg Hge. split; [exact I|]. intros []. split; [by apply all_calls_app, all_calls_one|].
    split; [by rewrite erase_snoc, exits_app, Hge|]. exists pid. apply elem_of_app. right. by apply list_elem_of_singleton. }
  unfold emit_started. apply spec_bind. destruct tap as [tap|]; [|by apply Hlast]. split; [exact I|]. intros [].
  apply Hlast; [by apply all_calls_app, all_calls_one|by rewrite erase_snoc, exits_app, He].
Qed.

(** From the booted machine to the exit code. *)
Lemma spec_machine a base id me cap slot vm h :
  handed (run_request args a slot) vm → open_ h → exits (erase h) = [] →
  Event (XClaim (ad_state_base a) (ad_room_id a) me cap) (Ok slot) ∈ h →
  base = ad_state_base a → id = ad_room_id a →
  spec allows (drive show_path show_duration show_debug show_status show_utf8_error show_int_error show_result show_meta show_changeset
                 show_witness home config fuel args a slot vm) h (λ _ h', ends keep h').
Proof using All.
  intros [Hsec Hg] Hh He Hc -> ->. set (cl := Event (Ans := xans) (XClaim (ad_state_base a) (ad_room_id a) me cap) (Ok slot)) in *.
  set (K := λ h : list xevent, started h ∧ cl ∈ h).
  assert (Monotone K) by (intros g k [? ?]; split; [by apply started_app|by apply (claim_monotone cl)]). unfold drive. apply spec_bind.
  assert (H1 : spec allows (match ad_toolstore a with Some t => emit (ToolstoreAttached (ts_digest t)) | None => Ret () end) h
    (λ _ h', open_ h' ∧ exits (erase h') = [] ∧ cl ∈ h')).
  { destruct (ad_toolstore a) as [t|]; [|done]. split; [exact I|]. intros []. split; [by apply all_calls_app, all_calls_one|].
    split; [by rewrite erase_snoc, exits_app, He|by apply (claim_monotone cl)]. }
  eapply spec_mono; [exact H1|]. intros _ h1 (Hh1 & He1 & Hc1). apply spec_bind. split; [exact I|]. intros pid. apply spec_ret.
  apply spec_bind. eapply spec_mono.
  { apply (spec_keep _ _ _ (λ h, cl ∈ h)); [by apply (claim_monotone cl)|]. apply spec_emit_started.
    - by apply all_calls_app, all_calls_one.
    - by rewrite erase_snoc, exits_app, He1. }
  intros _ h2 (Hc2 & Hh2 & He2 & Hs2). apply spec_bind. eapply spec_mono.
  { apply (spec_keep _ _ _ K); [by split|]. apply spec_post_boot; [|exact Hh2|exact He2].
    intros Hsecret. destruct (ra_keep args); apply Hsec; cbn; by destruct (ra_secrets args). }
  intros outcome h3 [HK3 Hh3]. apply spec_bind. eapply spec_mono.
  { apply (spec_keep _ _ _ K); [exact HK3|]. apply spec_collecting, Hh3. }
  intros [vm' collection] h4 ([Hs4 Hc4] & Hvm & Hh4). cbn [fst] in Hvm. subst vm'. apply spec_bind. eapply spec_mono.
  { apply (spec_teardown _ _ _ _ me cap); [reflexivity| |exact Hh4|exact Hs4|exact Hc4]. intros Hk. by rewrite Hk. }
  intros u h5 Hends. cbv zeta. destruct (is_exec (ad_action a)).
  - apply spec_try, spec_map_err. split; [exact I|]. intros signal.
    assert (H5 : ends keep (h5 ++ [Event (Ans := xans) XCommit signal])) by (by apply ends_past).
    destruct signal as [[t|]|e]; cbn [map_err]; [exact H5| |exact H5]. destruct outcome; [destruct collection|]; exact H5.
  - destruct outcome; [destruct collection|]; exact Hends.
Qed.

(** A boot's calls, and the machine it hands over. *)
Lemma spec_run_boot armed req h :
  claimed h → spec allows (boot show_path resolve show_secs show_json immutable_flag home config fuel armed req) h
    (λ r h', hands req r ∧ ∃ k, h' = h ++ k ∧ all_calls before k).
Proof using All.
  intros Hc. eapply (only_traced (λ op, ∃ o, op = XSys PBoot o)).
  - apply (only_translate (λ _, True)); [apply only_any|]. intros op _. destruct op; cbn; try (split; [by eexists|done]).
    destruct armed; [split; [by eexists|done]|exact I].
  - intros k op _ [o ->]. cbn. destruct Hc as (base & id & me & cap & Hc). exists base, id, me, cap. by apply answered_l.
  - intros r k Hk Hr. split.
    + refine (returns_run _ _ _ _ _ Hr). apply returns_translate, boot_hands.
    + exists k. split; [done|]. eapply all_calls_weaken; [|exact Hk]. by intros ? [o ->].
Qed.

Abbreviation run_room :=
  (run_room_inner show_path resolve show_secs show_duration show_json show_debug show_status show_utf8_error show_int_error
     show_result show_meta show_changeset show_witness immutable_flag sha256 parse_manifest target_name to_socket_addrs arch home
     config fuel args).

Lemma spec_run_room : spec allows run_room [] (λ _ h, started h → ends keep h).
Proof using All.
  assert (Hno : ∀ h, all_calls before h → started h → ends keep h) by (intros h Hh Hs; by apply before_started in Hh).
  unfold run_room_inner. apply spec_try. eapply only_spec; [apply admits_run| |].
  - intros k op _ Hop. by destruct op as [[] ?| | | | | | | | | | |].
  - intros r k Hk. assert (Hb : all_calls before k) by (eapply all_calls_weaken; [apply admits_before|exact Hk]).
    destruct r as [a|e]; [|by apply Hno]. apply spec_bind. unfold claim_slot. split; [exact Hk|].
    intros answer. apply spec_ret.
    set (h1 := _ ++ [Event (XClaim _ _ _ _) answer]). assert (Hb1 : all_calls before h1) by (by apply all_calls_app, all_calls_one).
    destruct answer as [slot|e].
    2:{ destruct e; try (by apply spec_bind, spec_ret, spec_ret, Hno). split; [exact I|]. intros []. refine (Hno (h1 ++ _) _). by apply all_calls_app, all_calls_one. }
    apply spec_bind. split; [exact I|]. intros [].
    set (h2 := h1 ++ _). assert (Hb2 : all_calls before h2) by (by apply all_calls_app, all_calls_one).
    set (cl := Event (XClaim _ _ _ _) _) in h1. assert (Hc2 : cl ∈ h2) by (by unfold h2, h1; set_solver).
    apply spec_bind. eapply spec_mono.
    { apply (spec_keep _ _ _ (λ h, cl ∈ h)); [exact Hc2|]. apply spec_run_boot. eexists _, _, _, _, _. split; [exact Hc2|done]. }
    intros [vm|e] h3 (Hc3 & Hv & k3 & -> & Hk3).
    + eapply spec_mono; [refine (spec_machine a _ _ _ _ slot vm _ (Hv vm eq_refl) _ _ Hc3 eq_refl eq_refl)|by intros r h4 H _].
      * apply before_open. by apply all_calls_app.
      * apply before_exits. by apply all_calls_app.
    + assert (Hb3 : all_calls before (h2 ++ k3)) by (by apply all_calls_app). unfold boot_failed. apply spec_bind.
      split; [exact I|]. intros []. assert (Hb4 : all_calls before ((h2 ++ k3) ++ [Event (XEmit (BootFailed (fc_message e))) ()])) by (by apply all_calls_app, all_calls_one).
      apply spec_bind. destruct (is_exec (ad_action a)); [|apply spec_ret, spec_ret; exact (Hno _ Hb4)].
      split; [exact I|]. intros signal. apply spec_ret. refine (Hno (_ ++ _) _). by apply all_calls_app, all_calls_one.
Qed.

(** C11. Whatever the host and the guest answer: the slot of [rooms run] is
    claimed when the run has only read the host, armed its signals and begun its
    stream; the machine is booted for a slot that was claimed; the workload's
    start and end keep their rules; the collection comes before the end of the
    capture, and both before any teardown; nothing of a room that is kept is torn
    down; the stream says that the cleanup is done only when, after the machine's
    process was killed and dropped, the room's and the jail's directories and the
    slot's token were just looked for and found gone.  And a run that answers,
    once its machine had started, either kept the room or has killed and dropped
    its process and said once how its cleanup ended. *)
Theorem run_ordered tr o :
  run run_room tr o → guarded allows tr ∧ ∀ r, o = Some r → started tr → ends keep tr.
Proof using All. intros Hr. exact (spec_run _ _ _ _ _ spec_run_room Hr). Qed.

End whole.

(** ** Examples *)

Definition secret_args : RunArgs :=
  {| ra_resources := Resources_default; ra_image := ["images"; "rootfs"]; ra_toolstore := None; ra_keep := false;
     ra_command := Some "make test"; ra_runner := KindCommand; ra_repo := None; ra_task := None; ra_model := None;
     ra_base_sha := None; ra_push_branch := None; ra_out_dir := Some ["out"]; ra_readonly_rootfs := true;
     ra_max_wall := Some 60%N; ra_max_pool := None; ra_json := false; ra_lifecycle := Some ["stream"]; ra_witness := false;
     ra_secrets := Some "K=v"; ra_egress := PolicyObserve |}.

Definition sample_run : xprog (result RoomsError N) :=
  run_room_inner (join "/") (λ s, [s]) show_N show_N (λ _, Ok "{}") id (λ _, EmptyString) id id (λ r, pretty (exit_code r))
    cm_model_id (λ _, "") (λ _, Ok "{}") 16 id (λ _, None) "linux" (λ _, Ok []) X86_64 None boot_config 5 secret_args.

(** The machine starts, the workload runs, and the room is gone. *)
Lemma run_ordered_witness :
  let tr := snd (exec (λ _, room_machine) sample_run []) in
  fst (exec (λ _, room_machine) sample_run []) = Some (Ok 0%N) ∧ emitted (WorkloadExited 0 WlSucceeded) (erase tr) ∧
  emitted CleanupDone tr ∧ guarded (run_allows None boot_config true false) tr ∧ ends false tr.
Proof.
  intros tr. assert (E : fst (exec (λ _, room_machine) sample_run []) = Some (Ok 0%N)) by (vm_compute; reflexivity).
  split; [exact E|]. split; [apply (list_elem_of_lookup_2 _ 86); vm_compute; reflexivity|].
  split; [apply (list_elem_of_lookup_2 _ 117); vm_compute; reflexivity|].
  pose proof (exec_run_nil (λ _, room_machine) sample_run) as Hr.
  destruct (run_ordered (join "/") (λ s, [s]) show_N show_N (λ _, Ok "{}") id (λ _, EmptyString) id id (λ r, pretty (exit_code r))
    cm_model_id (λ _, "") (λ _, Ok "{}") 16 id (λ _, None) "linux" (λ _, Ok []) X86_64 None boot_config 5 secret_args tr _ Hr) as [Hg He].
  split; [exact Hg|]. apply (He (Ok 0%N) E). exists (Some 7%N). apply (list_elem_of_lookup_2 _ 66). vm_compute. reflexivity.
Defined.
