(* ===== verification/Handoff.v ===== *)
(** * Handoff: who owns a signal ([CloneSignalSource] of [main.rs])

    A batch, or a run with a workload, registers both termination signals before
    anything happens.  A listener task takes the first that arrives and publishes
    it; the batch may at its end ask the listener whether it is over, and the
    listener either agrees, and listens no more, or has taken a signal.  The two
    tasks run on threads of their own: what each does between two looks at what
    they share is a step, a schedule is any order of such steps with the signals
    that arrive, and the theorems are of every schedule. *)

From S2P Require Import Prelude Prog Run.
From stdpp Require Import options.

(** ** The two tasks *)

(** The listener: in its select; with a signal it has not published yet, the
    receiver of the request gone with the select; with a request it has not
    acknowledged yet; over. *)
Inductive listener := Selecting | Taken (s : CloneTermination) | Acknowledging | Exited.

(** The sender of the acknowledgement, which travels in the request. *)
Inductive acknowledgement := AckUnsent | AckPending | AckSent | AckDropped.

(** The owner: in [commit_terminal_handoff] past its first look, refused by the
    listener's end, waiting, acknowledged; answered; dropped. *)
Inductive owner :=
| Idle
| Looked
| Refused
| Awaiting
| Acknowledged
| Answered (r : result string (option CloneTermination))
| Dropped.

Record source := {
  so_interrupt : bool;
  so_terminate : bool;
  so_published : option CloneTermination;
  so_listener : listener;
  so_commit : bool;
  so_ack : acknowledgement;
  so_owner : owner
}.

Definition with_listener (l : listener) (s : source) : source :=
  {| so_interrupt := so_interrupt s; so_terminate := so_terminate s; so_published := so_published s; so_listener := l;
     so_commit := so_commit s; so_ack := so_ack s; so_owner := so_owner s |}.

Definition with_owner (o : owner) (s : source) : source :=
  {| so_interrupt := so_interrupt s; so_terminate := so_terminate s; so_published := so_published s; so_listener := so_listener s;
     so_commit := so_commit s; so_ack := so_ack s; so_owner := o |}.

Definition with_ack (a : acknowledgement) (s : source) : source :=
  {| so_interrupt := so_interrupt s; so_terminate := so_terminate s; so_published := so_published s; so_listener := so_listener s;
     so_commit := so_commit s; so_ack := a; so_owner := so_owner s |}.

Definition publish (t : CloneTermination) (s : source) : source :=
  {| so_interrupt := so_interrupt s; so_terminate := so_terminate s; so_published := Some t; so_listener := so_listener s;
     so_commit := so_commit s; so_ack := so_ack s; so_owner := so_owner s |}.

Definition with_pending (interrupt terminate : bool) (s : source) : source :=
  {| so_interrupt := interrupt; so_terminate := terminate; so_published := so_published s; so_listener := so_listener s;
     so_commit := so_commit s; so_ack := so_ack s; so_owner := so_owner s |}.

Definition take_commit (s : source) : source :=
  {| so_interrupt := so_interrupt s; so_terminate := so_terminate s; so_published := so_published s; so_listener := so_listener s;
     so_commit := false; so_ack := so_ack s; so_owner := so_owner s |}.

Definition armed : source :=
  {| so_interrupt := false; so_terminate := false; so_published := None; so_listener := Selecting; so_commit := true;
     so_ack := AckUnsent; so_owner := Idle |}.

(** [CloneSignalSource::arm], by what the two registrations answer. *)
Definition arm (interrupt terminate : result string unit) : result string source :=
  let? _ := map_err (λ e, "register clone SIGINT handler: " +:+ e) interrupt in
  let? _ := map_err (λ e, "register clone SIGTERM handler: " +:+ e) terminate in
  Ok armed.

(** A look at what is published; a wait ends once there is something. *)
Definition observed_clone_termination (s : source) : option CloneTermination := so_published s.

(** The select is over: what waits in the request's channel is dropped with its receiver. *)
Definition drop_request (s : source) : source :=
  match so_ack s with AckPending => with_ack AckDropped s | _ => s end.

(** One step of the listener, [None] when it waits or is over.  Its select is
    biased: an interrupt first, then a termination, then the request. *)
Definition listen (s : source) : option source :=
  match so_listener s with
  | Selecting =>
      if so_interrupt s then Some (drop_request (with_listener (Taken Interrupt) (with_pending false (so_terminate s) s)))
      else if so_terminate s then Some (drop_request (with_listener (Taken Terminate) (with_pending false false s)))
      else match so_ack s with AckPending => Some (with_listener Acknowledging s) | _ => None end
  | Taken t => Some (with_listener Exited (publish t s))
  | Acknowledging => Some (with_listener Exited (with_ack AckSent s))
  | Exited => None
  end.

Definition committed_twice : string := "clone terminal handoff was already committed".
Definition listener_exited : string := "clone signal listener exited before terminal handoff".
Definition ack_dropped : string := "clone signal listener dropped the terminal-handoff acknowledgement".

(** [commit_terminal_handoff] is called: its first look. *)
Definition commit_terminal_handoff (s : source) : source :=
  match so_published s with Some t => with_owner (Answered (Ok (Some t))) s | None => with_owner Looked s end.

(** And its steps after that, [None] when it waits. *)
Definition resume (s : source) : option source :=
  match so_owner s with
  | Looked =>
      if so_commit s then
        match so_listener s with
        | Selecting => Some (with_owner Awaiting (with_ack AckPending (take_commit s)))
        | _ => Some (with_owner Refused (take_commit s))
        end
      else Some (with_owner (Answered (Err committed_twice)) s)
  | Refused =>
      Some (with_owner (Answered match so_published s with Some t => Ok (Some t) | None => Err listener_exited end) s)
  | Awaiting =>
      match so_ack s with
      | AckSent => Some (with_owner Acknowledged s)
      | AckDropped => Some (with_owner (Answered (Err ack_dropped)) s)
      | _ => None
      end
  | Acknowledged => Some (with_owner (Answered (Ok (so_published s))) s)
  | Idle | Answered _ | Dropped => None
  end.

(** [Drop]: the listener is aborted at its next wait. *)
Definition drop (s : source) : source :=
  with_owner Dropped (match so_listener s with Selecting => with_listener Exited s | _ => s end).

(** ** Schedules *)

Inductive action := ADeliver (t : CloneTermination) | AListen | ACommit | AResume | ADrop.

(** Arrivals of the same signal that were not yet received are one. *)
Definition deliver (t : CloneTermination) (s : source) : source :=
  match t with Interrupt => with_pending true (so_terminate s) s | Terminate => with_pending (so_interrupt s) true s end.

(** Only a source that is not inside a commit is called or dropped. *)
Definition act (a : action) (s : source) : source :=
  match a with
  | ADeliver t => deliver t s
  | AListen => default s (listen s)
  | ACommit => match so_owner s with Idle | Answered _ => commit_terminal_handoff s | _ => s end
  | AResume => default s (resume s)
  | ADrop => match so_owner s with Idle | Answered _ => drop s | _ => s end
  end.

Definition acts (l : list action) (s : source) : source := fold_left (λ s a, act a s) l s.

Definition delivered (l : list action) : list CloneTermination :=
  omap (λ a, match a with ADeliver t => Some t | _ => None end) l.

(** ** What was decided *)

(** The specification: nothing is decided until the listener takes a signal or
    agrees, and what is decided stays. *)
Definition decision (s : source) : option (option CloneTermination) :=
  match so_listener s with
  | Selecting => None
  | Taken t => Some (Some t)
  | Acknowledging => Some None
  | Exited => match so_published s, so_ack s with Some t, _ => Some (Some t) | None, AckSent => Some None | None, _ => None end
  end.

Lemma delivered_app l k : delivered (l ++ k) = delivered l ++ delivered k.
Proof. apply omap_app. Qed.

Lemma acts_app l k s : acts (l ++ k) s = acts k (acts l s).
Proof. apply fold_left_app. Qed.

Definition unsent (a : acknowledgement) : Prop := a = AckUnsent ∨ a = AckDropped.

(** What the listener holds, by the signals that were delivered. *)
Definition listening (d : list CloneTermination) (s : source) : Prop :=
  match so_listener s with
  | Selecting =>
      so_published s = None ∧ (so_interrupt s = true ↔ Interrupt ∈ d) ∧ (so_terminate s = true ↔ Terminate ∈ d) ∧
      so_ack s ≠ AckSent ∧ so_ack s ≠ AckDropped
  | Taken t => so_published s = None ∧ t ∈ d ∧ unsent (so_ack s)
  | Acknowledging => so_published s = None ∧ so_ack s = AckPending
  | Exited => match so_published s with Some t => t ∈ d ∧ unsent (so_ack s) | None => so_ack s = AckSent ∨ so_owner s = Dropped end
  end.

Definition taken (s : source) : Prop := ∃ t, decision s = Some (Some t).

(** What the owner was told. *)
Definition owning (s : source) : Prop :=
  match so_owner s with
  | Idle => so_commit s = true
  | Looked | Dropped => True
  | Refused => taken s
  | Awaiting => so_ack s ≠ AckUnsent
  | Acknowledged => decision s = Some None
  | Answered (Ok x) => decision s = Some x
  | Answered (Err e) => e = committed_twice ∨ taken s
  end.

(** What is in flight between them. *)
Definition in_flight (s : source) : Prop :=
  (so_commit s = true → so_ack s = AckUnsent) ∧ (so_ack s = AckPending → so_owner s = Awaiting) ∧
  (so_ack s = AckDropped → taken s) ∧ (so_owner s = Awaiting → so_commit s = false).

Definition source_inv (d : list CloneTermination) (s : source) : Prop := listening d s ∧ owning s ∧ in_flight s.

Lemma armed_inv : source_inv [] armed.
Proof. repeat split; try done; by intros ?%elem_of_nil. Qed.

Lemma deliver_inv d t s : source_inv d s → source_inv (d ++ [t]) (deliver t s).
Proof.
  destruct s as [i j p ls c k o]. unfold source_inv, listening, owning, in_flight, taken, decision, deliver, with_pending.
  destruct t, ls, p; cbn; rewrite ?elem_of_app, ?list_elem_of_singleton; naive_solver.
Qed.

Lemma listen_inv d s s' : listen s = Some s' → source_inv d s → source_inv d s'.
Proof.
  destruct s as [i j p ls c k o]. unfold source_inv, listening, owning, in_flight, taken, unsent, decision, listen, drop_request, with_listener,
    with_ack, with_pending, publish.
  destruct ls, k, i, j; cbn; intros [= <-]; cbn; destruct p, o as [| | | | |[]|]; naive_solver.
Qed.

Lemma resume_inv d s s' : resume s = Some s' → source_inv d s → source_inv d s'.
Proof.
  destruct s as [i j p ls c k o]. unfold source_inv, listening, owning, in_flight, taken, unsent, decision, resume, with_owner,
    with_ack, take_commit.
  destruct o as [| | | | |[]|], ls, c, k; cbn; intros [= <-]; cbn; destruct p; naive_solver.
Qed.

Lemma commit_inv d s : (so_owner s = Idle ∨ ∃ r, so_owner s = Answered r) → source_inv d s → source_inv d (commit_terminal_handoff s).
Proof.
  destruct s as [i j p ls c k o]. unfold source_inv, listening, owning, in_flight, taken, unsent, decision, commit_terminal_handoff, with_owner.
  destruct p, o as [| | | | |[]|], ls; cbn; naive_solver.
Qed.

Lemma drop_inv d s : (so_owner s = Idle ∨ ∃ r, so_owner s = Answered r) → source_inv d s → source_inv d (drop s).
Proof.
  destruct s as [i j p ls c k o]. unfold source_inv, listening, owning, in_flight, taken, unsent, decision, drop, with_listener, with_owner.
  destruct p, o as [| | | | |[]|], ls, k; cbn; naive_solver.
Qed.

Lemma act_inv d a s : source_inv d s → source_inv (d ++ delivered [a]) (act a s).
Proof.
  intros Hs. destruct a as [t| | | |]; [by apply deliver_inv|..]; cbn [delivered omap list_omap]; rewrite (right_id_L [] (++)).
  - unfold act. destruct (listen s) eqn:E; [by eapply listen_inv|done].
  - unfold act. destruct (so_owner s) eqn:E; try done; apply commit_inv; rewrite ?E; eauto.
  - unfold act. destruct (resume s) eqn:E; [by eapply resume_inv|done].
  - unfold act. destruct (so_owner s) eqn:E; try done; apply drop_inv; rewrite ?E; eauto.
Qed.

Lemma acts_inv d l s : source_inv d s → source_inv (d ++ delivered l) (acts l s).
Proof.
  revert d s. induction l as [|a l IH]; intros d s Hs; [by cbn; rewrite (right_id_L [] (++))|].
  change (a :: l) with ([a] ++ l). rewrite delivered_app, (assoc_L (++)), acts_app. by apply IH, act_inv.
Qed.

Lemma reached_inv l : source_inv (delivered l) (acts l armed).
Proof. apply (acts_inv [] l), armed_inv. Qed.

Definition decided_by (d : list CloneTermination) (s s' : source) : Prop :=
  match decision s' with
  | Some (Some t) => t ∈ d
  | Some None => d = [] ∧ so_owner s = Awaiting
  | None => False
  end.

Lemma listen_decides d s s' : listen s = Some s' → source_inv d s → decision s' = decision s ∨ (decision s = None ∧ decided_by d s s').
Proof.
  destruct s as [i j p ls c k o]. unfold listen. destruct ls as [|t| |]; cbn; intros Hl (Hlis & _ & _ & Hp & _); unfold listening in Hlis; cbn in *.
  - destruct Hlis as (-> & Hi & Hj & _). right. split; [done|]. destruct i; [injection Hl as <-; unfold drop_request, decided_by; cbn; destruct k; by apply Hi|].
    destruct j; [injection Hl as <-; unfold drop_request, decided_by; cbn; destruct k; by apply Hj|].
    destruct k; try done. injection Hl as <-. unfold decided_by. cbn. split; [|by apply Hp].
    destruct d as [|[] d]; [done| |]; exfalso; [assert (false = true) by (apply Hi; by left)|assert (false = true) by (apply Hj; by left)]; done.
  - injection Hl as <-. by left.
  - injection Hl as <-. destruct Hlis as [-> _]. by left.
  - done.
Qed.

(** A decision is the listener's, by what was delivered before it. *)
Lemma decides d a s : source_inv d s →
  decision (act a s) = decision s ∨ (a = AListen ∧ decision s = None ∧ decided_by d s (act a s)).
Proof.
  intros Hs. destruct a as [t| | | |]; cbn [act].
  - left. destruct s as [i j p ls c k o]. by destruct t.
  - destruct (listen s) as [s'|] eqn:E; cbn [from_option id]; [|by left]. destruct (listen_decides d s s' E Hs) as [H|[H1 H2]]; [by left|by right].
  - left. destruct s as [i j p ls c k o]. by destruct o, p.
  - left. destruct Hs as (Hl & _ & Hc & _ & Hd & _). destruct s as [i j p ls c k o]. unfold resume, decision, listening, taken in *.
    destruct o; try done; cbn in *; [|by destruct k]. destruct c; [|done]. by destruct ls.
  - left. destruct s as [i j p ls c k o]. destruct Hs as (Hl & _ & _). unfold drop, decision, listening in *.
    destruct o; try done; destruct ls; cbn in *; try done; by destruct Hl as (-> & _ & _ & ? & _), k.
Qed.

Lemma decision_stays d l s x : source_inv d s → decision s = Some x → decision (acts l s) = Some x.
Proof.
  revert d s. induction l as [|a l IH]; intros d s Hs Hx; [done|]. change (a :: l) with ([a] ++ l). rewrite acts_app.
  apply (IH (d ++ delivered [a])); [by apply act_inv|]. change (acts [a] s) with (act a s).
  destruct (decides d a s Hs) as [->|(_ & Hn & _)]; [done|congruence].
Qed.

Lemma published_decided d s : source_inv d s → ∀ x, decision s = Some x → ∀ t, so_published s = Some t → x = Some t.
Proof.
  intros [Hl _] x Hx t Ht. destruct s as [i j p ls c k o]. unfold listening, decision in *. cbn in *. subst p.
  destruct ls; cbn in *; destruct Hl; naive_solver.
Qed.

(** ** The commit ends *)

Definition committing (s : source) : Prop := match so_owner s with Looked | Refused | Awaiting | Acknowledged => True | _ => False end.

Definition answered_with (s : source) : Prop := ∃ r, so_owner s = Answered r.

(** The steps left. *)
Definition steps_left (s : source) : nat :=
  match so_owner s with Looked => 3 | Awaiting => 2 | Refused | Acknowledged => 1 | _ => 0 end +
  match so_listener s with Selecting => 2 | Taken _ | Acknowledging => 1 | Exited => 0 end.

(** All but the signals that wait to be received. *)
Definition core (s : source) := (so_owner s, so_ack s, so_listener s, so_commit s, so_published s).

Lemma core_resume s s' : core s = core s' → resume s = None → resume s' = None.
Proof.
  destruct s as [i j p ls c k o], s' as [i' j' p' ls' c' k' o']. unfold core, resume. cbn. intros [= <- <- <- <- <-].
  destruct o; try done; [by destruct c, ls|by destruct k].
Qed.

(** One of the two can go on. *)
Lemma not_both_stuck d s : source_inv d s → committing s → listen s = None → resume s = None → False.
Proof.
  intros (Hl & Ho & _) Hc Hn Hr. destruct s as [i j p ls c k o]. unfold listening, owning, committing, listen, resume, unsent in *.
  cbn in *. destruct o; try done; [by destruct c, ls|]. destruct k; try done. destruct ls; try done; [by destruct i, j|].
  destruct p; [by destruct Hl as [_ [?|?]]|by destruct Hl].
Qed.

(** An action ends the commit, leaves fewer steps, or was of a task that waits. *)
Lemma act_progress d a s : source_inv d s → committing s →
  answered_with (act a s) ∨
  (committing (act a s) ∧ (steps_left (act a s) < steps_left s ∨
     (core (act a s) = core s ∧ (a = AListen → listen s = None) ∧ (a = AResume → resume s = None)))).
Proof.
  intros Hs Hc. destruct a as [t| | | |]; cbn [act].
  - right. destruct s as [i j p ls c k o]. destruct t; (split; [done|]); by right.
  - right. destruct (listen s) as [s'|] eqn:E; cbn [from_option id]; [|split; [done|]; by right].
    assert (Ho : so_owner s' = so_owner s ∧ steps_left s' < steps_left s).
    { destruct s as [i j p ls c k o]. unfold listen, drop_request, steps_left in *.
      destruct ls, k, i, j; try done; injection E as <-; split; cbn; try done; lia. }
    destruct Ho as [Ho Hlt]. split; [unfold committing in *; by rewrite Ho|by left].
  - right. unfold committing in Hc. destruct (so_owner s) eqn:E; try done; (split; [unfold committing; by rewrite E|by right]).
  - destruct (resume s) as [s'|] eqn:E; cbn [from_option id]; [|right; split; [done|]; by right].
    destruct s as [i j p ls c k o]. unfold committing, resume, answered_with, steps_left in *. cbn in *.
    destruct o as [| | | | |r|]; try done; cbn in *; [destruct c, ls|destruct p|destruct k|]; try done; injection E as <-; cbn; try (left; by eexists);
      right; (split; [done|]); left; lia.
  - right. unfold committing in Hc. destruct (so_owner s) eqn:E; try done; (split; [unfold committing; by rewrite E|by right]).
Qed.

(** At some point of the schedule. *)
Definition answers (l : list action) (s : source) : Prop := ∃ l1 l2, l = l1 ++ l2 ∧ answered_with (acts l1 s).

Lemma acts_progress d l s : source_inv d s → committing s →
  answers l s ∨
  (committing (acts l s) ∧ (steps_left (acts l s) < steps_left s ∨
     (core (acts l s) = core s ∧ (AListen ∈ l → resume s ≠ None) ∧ (AResume ∈ l → resume s = None)))).
Proof.
  revert d s. induction l as [|a l IH]; intros d s Hs Hc.
  { right. split; [done|]. right. split; [done|]. by split; intros ?%elem_of_nil. }
  destruct (act_progress d a s Hs Hc) as [Ha|[Hc' Hp]]; [left; exists [a], l; by split|].
  destruct (IH _ _ (act_inv d a s Hs) Hc') as [(l1 & l2 & -> & Ha)|[Hc2 Hp2]]; [left; exists (a :: l1), l2; by split|].
  right. change (acts (a :: l) s) with (acts l (act a s)). split; [exact Hc2|].
  destruct Hp as [Hlt|(E & H1 & H2)], Hp2 as [Hlt2|(E2 & H3 & H4)]; [left; lia| | |].
  - left. injection E2 as E2a _ E2b _ _. unfold steps_left in *. rewrite E2a, E2b. exact Hlt.
  - left. injection E as Ea _ Eb _ _. unfold steps_left in *. rewrite <- Ea, <- Eb. exact Hlt2.
  - right. split; [congruence|]. split.
    + intros [<-|Hin]%elem_of_cons Hn; [exact (not_both_stuck d s Hs Hc (H1 eq_refl) Hn)|]. apply (H3 Hin).
      by apply (core_resume s).
    + intros [<-|Hin]%elem_of_cons; [by apply H2|]. eapply core_resume; [exact E|by apply H4].
Qed.

(** A round of a fair schedule: each task gets a step, and anything else may happen. *)
Definition fair_round (l : list action) : Prop := AListen ∈ l ∧ AResume ∈ l.

Lemma rounds_answer d rounds s : source_inv d s → committing s → Forall fair_round rounds → steps_left s < length rounds →
  answers (concat rounds) s.
Proof.
  revert d s. induction rounds as [|l rounds IH]; intros d s Hs Hc HF Hn; cbn in Hn; [lia|].
  apply Forall_cons in HF as [Hl Hr]. destruct Hl as [Hl1 Hl2]. destruct (acts_progress d l s Hs Hc) as [(l1 & l2 & -> & Ha)|[Hc2 [Hlt|(_ & H1 & H2)]]].
  - exists l1, (l2 ++ concat rounds). cbn. by rewrite <- (assoc_L (++)).
  - destruct (IH _ _ (acts_inv d l s Hs) Hc2 Hr ltac:(lia)) as (l1 & l2 & E & Ha). exists (l ++ l1), l2.
    cbn. rewrite E, <- (assoc_L (++)). by rewrite acts_app.
  - exfalso. by apply H1, H2.
Qed.

(** ** What the owner can rely on *)

Lemma decision_delivered d s t : source_inv d s → decision s = Some (Some t) → t ∈ d.
Proof.
  intros [Hl _] Hd. destruct s as [i j p ls c k o]. unfold listening, decision in *. cbn in *.
  destruct ls; try done; [injection Hd as ->; apply Hl|]. destruct p; [injection Hd as ->; apply Hl|by destruct k].
Qed.

Lemma observed_decision d s t : source_inv d s → observed_clone_termination s = Some t → decision s = Some (Some t).
Proof.
  intros [Hl _] Hp. destruct s as [i j p ls c k o]. unfold listening, decision, observed_clone_termination in *. cbn in *. subst p.
  destruct ls; try done; by destruct Hl.
Qed.

(** C15.  Signals and the end of a batch are in one order.  In every schedule of the
    listener and the owner, at most one step decides: the listener's, which takes a
    signal that was delivered, or agrees that the batch is over, and then no signal
    was delivered before it and the owner was waiting for it.  No step changes what
    is decided.  What is observed is the signal that was decided on.  A commit that
    succeeds answers the decision; one that fails either was not the first, and says
    so, or fails when the decision is a signal that was delivered. *)
Theorem handoff_decides l a :
  let s := acts l armed in
  (decision (act a s) = decision s ∨ (a = AListen ∧ decision s = None ∧ decided_by (delivered l) s (act a s))) ∧
  (∀ t, observed_clone_termination s = Some t → decision s = Some (Some t)) ∧
  (∀ x, so_owner s = Answered (Ok x) → decision s = Some x) ∧
  (∀ e, so_owner s = Answered (Err e) → e = committed_twice ∨ ∃ t, decision s = Some (Some t) ∧ t ∈ delivered l).
Proof.
  intros s. pose proof (reached_inv l : source_inv (delivered l) s) as Hs. split; [by apply decides|].
  split; [intros t; by apply (observed_decision (delivered l))|]. pose proof Hs as (_ & Ho & _). unfold owning in Ho. split; [intros x E; by rewrite E in Ho|].
  intros e E. rewrite E in Ho. destruct Ho as [->|[t Ht]]; [by left|]. right. exists t. split; [exact Ht|].
  by apply (decision_delivered (delivered l) s t).
Qed.

(** C16.  A commit that was begun is answered: whatever arrives, once each of the two
    tasks has had a step in each of six rounds, in any order within a round. *)
Theorem commit_answers l rounds :
  committing (acts l armed) → Forall fair_round rounds → 6 ≤ length rounds → answers (concat rounds) (acts l armed).
Proof.
  intros Hc Hf Hn. apply (rounds_answer _ _ _ (reached_inv l) Hc Hf). unfold steps_left.
  destruct (so_owner _), (so_listener _); cbn; lia.
Qed.

(** The signal arrives when the commit has begun: it is answered, with an error. *)
Lemma commit_answers_witness :
  answers (concat (replicate 6 [AResume; ADeliver Terminate; AListen])) (acts [ACommit] armed).
Proof.
  apply (commit_answers [ACommit]); [exact I| |vm_compute; lia].
  apply Forall_replicate. split; [right; right; by left|by left].
Defined.

Lemma handoff_decides_witness :
  let s := acts [ADeliver Terminate; AListen; AListen; ACommit] armed in
  so_owner s = Answered (Ok (Some Terminate)) ∧ decision s = Some (Some Terminate).
Proof.
  intros s. split; [reflexivity|].
  exact (proj1 (proj2 (proj2 (handoff_decides [ADeliver Terminate; AListen; AListen; ACommit] ADrop))) (Some Terminate) eq_refl).
Defined.

(** A signal taken while the request is in its channel drops the request, and the
    commit answers an error; so does a commit refused before the signal that the
    listener has taken is published. *)
Lemma signal_fails_commit :
  so_owner (acts [ACommit; AResume; ADeliver Interrupt; AListen; AListen; AResume] armed) = Answered (Err ack_dropped) ∧
  so_owner (acts [ADeliver Interrupt; AListen; ACommit; AResume; AResume; AListen] armed) = Answered (Err listener_exited) ∧
  so_published (acts [ACommit; AResume; ADeliver Interrupt; AListen; AListen; AResume] armed) = Some Interrupt ∧
  so_published (acts [ADeliver Interrupt; AListen; ACommit; AResume; AResume; AListen] armed) = Some Interrupt.
Proof. repeat split; reflexivity. Qed.
