(* ===== verification/CloneRecords.v ===== *)
(** * CloneRecords: what a clone batch reports ([main.rs])

    The members of a batch, their failures, the records of a batch that was
    restored, failed or was cancelled, and the lines printed of them.  Members
    finish in any order; the records are sorted by the index of their network.
    Serialization is a parameter of the lines. *)

From S2P Require Import Prelude RStr Fs Room IndexedClaim Slot CloneRoutes CloneNet Matrix Lifecycle Prog Config Egress Sys Boot RestoreExec Registry Runner Doctor Cli Run.
From stdpp Require Import options.

Definition u8_MAX : N := 255.

(** [Vec::is_empty]. *)
Definition is_nil {A : Type} (l : list A) : bool := match l with [] => true | _ => false end.

(** ** Workloads *)

Record CloneWorkload := { wl_case_id : option string; wl_command : string; wl_command_sha256 : option string }.

Definition broadcast (command : string) : CloneWorkload :=
  {| wl_case_id := None; wl_command := command; wl_command_sha256 := None |}.

(** [CloneWorkload::matrix]. *)
Definition matrix_workload (case : Matrix.Case) : CloneWorkload :=
  {| wl_case_id := Some (cs_id case); wl_command := cs_command case; wl_command_sha256 := Some (command_sha256 case) |}.

Definition workload_label (w : CloneWorkload) : string :=
  match wl_case_id w with Some id => "matrix:" +:+ id | None => wl_command w end.

Definition case_id_of (w : option CloneWorkload) : option string := w ≫= wl_case_id.
Definition command_sha256_of (w : option CloneWorkload) : option string := w ≫= wl_command_sha256.

Record CloneArgs := {
  ca_snapshot_dir : path;
  ca_image : path;
  ca_toolstore : option path;
  ca_count : N;
  ca_command : option string;
  ca_workloads : option (list CloneWorkload);
  ca_matrix_sha256 : option string;
  ca_out_dir : option path;
  ca_witness : bool;
  ca_secrets : option string;
  ca_egress : Policy;
  ca_max_wall : option N;
  ca_max_pool : option N;
  ca_json : bool
}.

Definition runs_commands (args : CloneArgs) : bool := given (ca_command args) || given (ca_workloads args).

Definition assigned_workloads (args : CloneArgs) : list (option CloneWorkload) :=
  match ca_workloads args with
  | Some workloads => Some <$> workloads
  | None =>
      match ca_command args with
      | None => replicate (N.to_nat (ca_count args)) None
      | Some command => replicate (N.to_nat (ca_count args)) (Some (broadcast command))
      end
  end.

Record MatrixArgs := {
  mx_snapshot_dir : path;
  mx_image : path;
  mx_toolstore : option path;
  mx_cases : path;
  mx_out_dir : path;
  mx_witness : bool;
  mx_secrets : option string;
  mx_egress : Policy;
  mx_max_wall : option N;
  mx_max_pool : option N;
  mx_json : bool
}.

Definition matrix_clone_args (args : MatrixArgs) (manifest : Matrix.Manifest) : CloneArgs :=
  {| ca_snapshot_dir := mx_snapshot_dir args; ca_image := mx_image args; ca_toolstore := mx_toolstore args;
     ca_count := Matrix.count manifest; ca_command := None; ca_workloads := Some (matrix_workload <$> mn_cases manifest);
     ca_matrix_sha256 := Some (mn_sha256 manifest); ca_out_dir := Some (mx_out_dir args); ca_witness := mx_witness args;
     ca_secrets := mx_secrets args; ca_egress := mx_egress args; ca_max_wall := mx_max_wall args;
     ca_max_pool := mx_max_pool args; ca_json := mx_json args |}.

Definition termination_name (t : CloneTermination) : string :=
  match t with Interrupt => "SIGINT" | Terminate => "SIGTERM" end.

Definition clone_output_dir (root : option path) (room_id : string) (case_id : option string) : option path :=
  root ← root; Some (path_join root (default room_id case_id)).

Definition validate_json_emitted_path (p : option path) (json : bool) (flag : string) : result RoomsError unit :=
  if negb json then Ok () else
  match p with
  | None => Ok ()
  | Some p => if forallb is_utf8 p then Ok () else Err (RmInternal (flag +:+ " must be valid UTF-8 when --json is set"))
  end.

(** ** Records *)

Record CloneRecord := {
  rec_readiness : option ReadinessTiming;
  rec_case_id : option string;
  rec_command_sha256 : option string;
  rec_room_id : string;
  rec_snapshot_id : string;
  rec_slot : N;
  rec_guest_ip : string;
  rec_clone_net_index : N;
  rec_namespace : string;
  rec_host_veth : string;
  rec_status : string;
  rec_exit_code : option N;
  rec_out_dir : option path;
  rec_toolstore_sha256 : option string;
  rec_base_repo_sha : option string
}.

Definition no_clone_network : RoomsError := RmInternal "clone restore returned no clone network".

Definition from_ready (restored : Restored) (out_dir : option path) (workload : option CloneWorkload) (status : string)
    (exit_code : option N) : result RoomsError CloneRecord :=
  let? clone_net := ok_or (rs_clone_net restored) no_clone_network in
  Ok {| rec_readiness := None; rec_case_id := case_id_of workload; rec_command_sha256 := command_sha256_of workload;
        rec_room_id := rs_room_id restored; rec_snapshot_id := rs_snapshot_id restored; rec_slot := slot_index (rs_slot restored);
        rec_guest_ip := show_ipv4 (slot_guest (rs_slot restored)); rec_clone_net_index := net_index clone_net;
        rec_namespace := CloneRoutes.netns clone_net; rec_host_veth := veth_host clone_net; rec_status := status;
        rec_exit_code := exit_code; rec_out_dir := out_dir; rec_toolstore_sha256 := rs_toolstore_sha256 restored;
        rec_base_repo_sha := rs_base_repo_sha restored |}.

Definition with_readiness (timing : option ReadinessTiming) (r : CloneRecord) : CloneRecord :=
  {| rec_readiness := timing; rec_case_id := rec_case_id r; rec_command_sha256 := rec_command_sha256 r;
     rec_room_id := rec_room_id r; rec_snapshot_id := rec_snapshot_id r; rec_slot := rec_slot r;
     rec_guest_ip := rec_guest_ip r; rec_clone_net_index := rec_clone_net_index r; rec_namespace := rec_namespace r;
     rec_host_veth := rec_host_veth r; rec_status := rec_status r; rec_exit_code := rec_exit_code r;
     rec_out_dir := rec_out_dir r; rec_toolstore_sha256 := rec_toolstore_sha256 r; rec_base_repo_sha := rec_base_repo_sha r |}.

Definition with_status (status : string) (exit_code : option N) (r : CloneRecord) : CloneRecord :=
  {| rec_readiness := rec_readiness r; rec_case_id := rec_case_id r; rec_command_sha256 := rec_command_sha256 r;
     rec_room_id := rec_room_id r; rec_snapshot_id := rec_snapshot_id r; rec_slot := rec_slot r;
     rec_guest_ip := rec_guest_ip r; rec_clone_net_index := rec_clone_net_index r; rec_namespace := rec_namespace r;
     rec_host_veth := rec_host_veth r; rec_status := status; rec_exit_code := exit_code;
     rec_out_dir := rec_out_dir r; rec_toolstore_sha256 := rec_toolstore_sha256 r; rec_base_repo_sha := rec_base_repo_sha r |}.

(** Rust's stable [sort_by_key] on an index. *)
Definition sort_by_index {A : Type} (key : A → N) (l : list A) : list A := sort_by_key (λ x, N.to_nat (key x)) l.

Definition sort_records : list CloneRecord → list CloneRecord := sort_by_index rec_clone_net_index.

(** ** Failures *)

Record CloneFailure := {
  cf_clone_net_index : N;
  cf_room_id : string;
  cf_case_id : option string;
  cf_command_sha256 : option string;
  cf_out_dir : option path;
  cf_error : RoomsError
}.

(** [CloneFailure::with_output], then [for_case]. *)
Definition clone_failure (index : N) (room_id : string) (out_dir : option path) (case_id command_sha256 : option string)
    (error : RoomsError) : CloneFailure :=
  {| cf_clone_net_index := index; cf_room_id := room_id; cf_case_id := case_id; cf_command_sha256 := command_sha256;
     cf_out_dir := out_dir; cf_error := error |}.

(** [CloneFailure::new]. *)
Definition CloneFailure_new (index : N) (room_id : string) (error : RoomsError) : CloneFailure :=
  clone_failure index room_id None None None error.

Record CloneFailureRecord := {
  fl_case_id : option string;
  fl_command_sha256 : option string;
  fl_clone_net_index : N;
  fl_room_id : string;
  fl_status : string;
  fl_error_kind : string;
  fl_message : string;
  fl_out_dir : option path
}.

Record CloneCommandBatchFailure := {
  cb_clones : list CloneRecord; cb_failures : list CloneFailureRecord; cb_task_failures : list string
}.

Record CloneRestoreBatchFailure := {
  rb_clones : list CloneRecord; rb_failures : list CloneFailureRecord; rb_cleanup_failures : list string
}.

Record CloneCancellation := {
  cc_signal : CloneTermination;
  cc_clones : list CloneRecord;
  cc_failures : list CloneFailureRecord;
  cc_cleanup_failures : list string
}.

Inductive CloneRunError :=
| Standard (e : RoomsError)
| RestoreBatch (failure : CloneRestoreBatchFailure)
| CommandBatch (failure : CloneCommandBatchFailure)
| BatchCancelled (cancellation : CloneCancellation).

Definition mark_cancelled (signal : CloneTermination) (clone : CloneRecord) : CloneRecord :=
  if bool_decide (rec_exit_code clone = Some (termination_code signal)) then with_status "cancelled" (rec_exit_code clone) clone
  else clone.

Definition with_details (signal : CloneTermination) (clones : list CloneRecord) (failures : list CloneFailureRecord)
    (cleanup_failures : list string) : CloneCancellation :=
  {| cc_signal := signal; cc_clones := sort_records (mark_cancelled signal <$> clones);
     cc_failures := sort_by_index fl_clone_net_index failures; cc_cleanup_failures := str_sort cleanup_failures |}.

Definition with_clones (signal : CloneTermination) (clones : list CloneRecord) (cleanup_failures : list string) : CloneCancellation :=
  with_details signal clones [] cleanup_failures.

(** [CloneCancellation::clean]. *)
Definition clean_cancellation (signal : CloneTermination) : CloneCancellation :=
  {| cc_signal := signal; cc_clones := []; cc_failures := []; cc_cleanup_failures := [] |}.

Definition cancellation_exit_code (c : CloneCancellation) : N :=
  if is_nil (cc_cleanup_failures c) && is_nil (cc_failures c) then termination_code (cc_signal c) else 2.

(** [CloneCommandBatchFailure::into_cancellation]. *)
Definition into_cancellation (f : CloneCommandBatchFailure) (signal : CloneTermination) : CloneCancellation :=
  with_details signal (cb_clones f) (cb_failures f) (str_sort (cb_task_failures f)).

Definition case_label (case_id : option string) : string :=
  match case_id with Some id => "case " +:+ id +:+ " " | None => "" end.

Section display.
  Variable display : RoomsError → string.

Definition failure_record (f : CloneFailure) : CloneFailureRecord :=
  {| fl_case_id := cf_case_id f; fl_command_sha256 := cf_command_sha256 f; fl_clone_net_index := cf_clone_net_index f;
     fl_room_id := cf_room_id f; fl_status := "failed"; fl_error_kind := error_kind (cf_error f);
     fl_message := display (cf_error f); fl_out_dir := cf_out_dir f |}.

(** [CloneCommandBatchFailure::new]. *)
Definition command_batch_failure (clones : list CloneRecord) (failures : list CloneFailure) (task_failures : list string)
    : CloneCommandBatchFailure :=
  {| cb_clones := sort_records clones; cb_failures := failure_record <$> sort_by_index cf_clone_net_index failures;
     cb_task_failures := str_sort task_failures |}.

(** [CloneRestoreBatchFailure::new]. *)
Definition restore_batch_failure (clones : list CloneRecord) (failures : list CloneFailure) (cleanup_failures : list string)
    : CloneRestoreBatchFailure :=
  {| rb_clones := sort_records clones; rb_failures := failure_record <$> sort_by_index cf_clone_net_index failures;
     rb_cleanup_failures := str_sort cleanup_failures |}.

Definition command_summary (f : CloneCommandBatchFailure) : string :=
  "clone command batch failed for " +:+ show_N (N.of_nat (length (cb_failures f))) +:+ " member(s) and " +:+
  show_N (N.of_nat (length (cb_task_failures f))) +:+ " task(s)".

Definition failure_evidence (index : N) (room_id : string) (case_id : option string) (text : string) : string :=
  case_label case_id +:+ "net " +:+ show_N index +:+ " room " +:+ room_id +:+ ": " +:+ text.

Definition restore_summary (f : CloneRestoreBatchFailure) : string :=
  let failures := join "; " ((λ f, failure_evidence (fl_clone_net_index f) (fl_room_id f) (fl_case_id f) (fl_message f)) <$> rb_failures f) in
  if is_nil (rb_cleanup_failures f) then "clone restore failed: " +:+ failures else
  "clone restore failed: " +:+ failures +:+ "; partial clone cleanup incomplete: " +:+ join "; " (rb_cleanup_failures f).

Definition collapse_clone_failures (stage : string) (failures : list CloneFailure) : option RoomsError :=
  if is_nil failures then None else
  let evidence := join "; " ((λ f, failure_evidence (cf_clone_net_index f) (cf_room_id f) (cf_case_id f) (display (cf_error f))) <$>
                              sort_by_index cf_clone_net_index failures) in
  Some (RmInternal ("clone " +:+ stage +:+ " failed: " +:+ evidence)).

(** One error stays as it is. *)
Definition combine_clone_command_errors (errors : list RoomsError) : RoomsError :=
  match errors with [e] => e | errors => RmInternal (join "; " (display <$> errors)) end.
End display.

(** ** Lines *)

Definition MATRIX_RESULT_SCHEMA : string := "rooms.matrix.result.v1".

Definition matrix_result_schema (matrix_sha256 : option string) : option string :=
  match matrix_sha256 with Some _ => Some MATRIX_RESULT_SCHEMA | None => None end.

Record CloneCommandFailureEnvelope := {
  cfe_schema : option string; cfe_matrix_sha256 : option string; cfe_status : string; cfe_error_kind : string;
  cfe_clones : list CloneRecord; cfe_failures : list CloneFailureRecord; cfe_task_failures : list string
}.

Record CloneRestoreFailureEnvelope := {
  rfe_schema : option string; rfe_matrix_sha256 : option string; rfe_status : string; rfe_error_kind : string;
  rfe_clones : list CloneRecord; rfe_failures : list CloneFailureRecord; rfe_cleanup_failures : list string
}.

Record CloneCancellationEnvelope := {
  cce_schema : option string; cce_matrix_sha256 : option string; cce_status : string; cce_error_kind : string;
  cce_signal : string; cce_exit_code : N; cce_cleanup_complete : bool;
  cce_clones : list CloneRecord; cce_failures : list CloneFailureRecord; cce_cleanup_failures : list string
}.

Record CloneBatchEnvelope := {
  cbe_schema : option string; cbe_matrix_sha256 : option string; cbe_status : option string; cbe_clones : list CloneRecord
}.

Record MatrixRunErrorRecord := {
  mre_schema : string; mre_matrix_sha256 : string; mre_status : string; mre_error : RunErrorRecord; mre_clones : list CloneRecord
}.

Record RestoredRecord := {
  rsr_room_id : string; rsr_snapshot_id : string; rsr_slot : N; rsr_guest_ip : N;
  rsr_toolstore_sha256 : option string; rsr_base_repo_sha : option string
}.

(** What is serialized onto standard output. *)
Inductive report :=
| CommandFailureLine (e : CloneCommandFailureEnvelope)
| RestoreFailureLine (e : CloneRestoreFailureEnvelope)
| CancellationLine (e : CloneCancellationEnvelope)
| BatchLine (e : CloneBatchEnvelope)
| RunErrorLine (e : RunErrorRecord)
| MatrixErrorLine (e : MatrixRunErrorRecord)
| RestoredLine (e : RestoredRecord).

Definition clone_command_failure_report (f : CloneCommandBatchFailure) (matrix_sha256 : option string) : report :=
  CommandFailureLine
    {| cfe_schema := matrix_result_schema matrix_sha256; cfe_matrix_sha256 := matrix_sha256; cfe_status := "failed";
       cfe_error_kind := "clone_batch"; cfe_clones := cb_clones f; cfe_failures := cb_failures f;
       cfe_task_failures := cb_task_failures f |}.

Definition clone_restore_failure_report (f : CloneRestoreBatchFailure) (matrix_sha256 : option string) : report :=
  RestoreFailureLine
    {| rfe_schema := matrix_result_schema matrix_sha256; rfe_matrix_sha256 := matrix_sha256; rfe_status := "failed";
       rfe_error_kind := "clone_restore_batch"; rfe_clones := rb_clones f; rfe_failures := rb_failures f;
       rfe_cleanup_failures := rb_cleanup_failures f |}.

Definition clone_cancellation_report (c : CloneCancellation) (matrix_sha256 : option string) : report :=
  CancellationLine
    {| cce_schema := matrix_result_schema matrix_sha256; cce_matrix_sha256 := matrix_sha256; cce_status := "cancelled";
       cce_error_kind := "cancelled"; cce_signal := termination_name (cc_signal c); cce_exit_code := cancellation_exit_code c;
       cce_cleanup_complete := is_nil (cc_cleanup_failures c); cce_clones := cc_clones c; cce_failures := cc_failures c;
       cce_cleanup_failures := cc_cleanup_failures c |}.

Definition clone_records_report (records : list CloneRecord) (matrix_sha256 : option string) : report :=
  BatchLine
    {| cbe_schema := matrix_result_schema matrix_sha256; cbe_matrix_sha256 := matrix_sha256;
       cbe_status := (λ _, "completed") <$> matrix_sha256; cbe_clones := records |}.

Definition matrix_run_error_report (display : RoomsError → string) (e : RoomsError) (matrix_sha256 : string) : report :=
  MatrixErrorLine
    {| mre_schema := MATRIX_RESULT_SCHEMA; mre_matrix_sha256 := matrix_sha256; mre_status := "failed";
       mre_error := run_error_record display e; mre_clones := [] |}.

Definition restored_report (restored : Restored) : report :=
  RestoredLine
    {| rsr_room_id := rs_room_id restored; rsr_snapshot_id := rs_snapshot_id restored;
       rsr_slot := slot_index (rs_slot restored); rsr_guest_ip := slot_guest (rs_slot restored);
       rsr_toolstore_sha256 := rs_toolstore_sha256 restored; rsr_base_repo_sha := rs_base_repo_sha restored |}.

Definition show_code (code : option N) : string := match code with Some code => " " +:+ show_N code | None => "" end.

(** The line for a reader. *)
Definition record_line (r : CloneRecord) : string :=
  match rec_case_id r with
  | Some case_id =>
      "matrix case " +:+ case_id +:+ ": room " +:+ rec_room_id r +:+ " in " +:+ rec_namespace r +:+ " " +:+ rec_status r +:+
      show_code (rec_exit_code r) +:+ "; evidence " +:+ default "unavailable" (rec_command_sha256 r)
  | None =>
      "clone: room " +:+ rec_room_id r +:+ " from " +:+ rec_snapshot_id r +:+ " in " +:+ rec_namespace r +:+ " (guest " +:+
      rec_guest_ip r +:+ ", net " +:+ show_N (rec_clone_net_index r) +:+ ", host " +:+ rec_host_veth r +:+ ") " +:+
      rec_status r +:+ show_code (rec_exit_code r)
  end.
