(* ===== verification/CloneBatch.v ===== *)
(** * CloneBatch: the clones of a snapshot, and one restored room ([main.rs])

    [rooms restore], [rooms clone] and [rooms matrix] over the programs of the
    components they drive.  A batch spawns tasks and joins them in whatever order
    they finish: spawning is a call that names the task's job and answers its id, a
    join is a call that answers an id with what its task came to.  [work] is the
    program of each job.  The calls that belong to one component's operation carry
    its stage.  What a panicking worker drops is left out, and so are log lines. *)

From S2P Require Import Prelude RStr Fs Room IndexedClaim Slot CloneRoutes CloneNet Egress Registry Pcap Artifacts Matrix Lifecycle Prog Config Snapshot Intents Sys Teardown Images Launch Boot RestoreSource RestoreTeardown RestoreExec Runner Doctor Witness Cli Run CloneRecords.
From stdpp Require Import options.

Definition RESTORE_ACK_TIMEOUT : N := 60000.

(** ** Custody *)

(** A clone network until a restore takes it over. *)
Record AllocatedClone := { ac_room_id : string; ac_network : option CloneNet; ac_state_base : path }.

Record CloneTaskIdentity := {
  tk_clone_net_index : N; tk_room_id : string; tk_case_id : option string; tk_command_sha256 : option string; tk_out_dir : option path
}.

Definition unknown_identity : CloneTaskIdentity :=
  {| tk_clone_net_index := u8_MAX; tk_room_id := "unknown"; tk_case_id := None; tk_command_sha256 := None; tk_out_dir := None |}.

Definition allocated_clone_task_identity (allocation : AllocatedClone) (workload : option CloneWorkload) (out_dir : option path)
    : CloneTaskIdentity :=
  {| tk_clone_net_index := match ac_network allocation with Some network => net_index network | None => u8_MAX end;
     tk_room_id := ac_room_id allocation; tk_case_id := case_id_of workload; tk_command_sha256 := command_sha256_of workload;
     tk_out_dir := out_dir |}.

(** A restored clone; its lifecycle is shared with the readiness probe. *)
Record CloneCustody := {
  cu_lifecycle : handle; cu_restored : option Restored; cu_out_dir : option path; cu_workload : option CloneWorkload
}.

Definition consumed : RoomsError := RmInternal "clone restore custody was already consumed".

Definition custody_restored (c : CloneCustody) : result RoomsError Restored := ok_or (cu_restored c) consumed.

Definition custody_identity (c : CloneCustody) : result RoomsError (N * string) :=
  let? restored := custody_restored c in
  let? network := ok_or (rs_clone_net restored) no_clone_network in
  Ok (net_index network, rs_room_id restored).

Definition identity_or_unknown (c : CloneCustody) : N * string :=
  match custody_identity c with Ok identity => identity | Err _ => (u8_MAX, "unknown") end.

Definition sort_custody : list CloneCustody → list CloneCustody := sort_by_index (λ c, fst (identity_or_unknown c)).

Record CloneCommandOutcome := { co_record : CloneRecord; co_exit_code : N }.
Record CloneCommandInnerFailure := { ci_record : option CloneRecord; ci_error : RoomsError }.
Record CloneCommandMemberFailure := { cm_record : option CloneRecord; cm_failure : CloneFailure }.

(** ** Tasks and calls *)

Inductive kind := SourceTask | AllocationTask | RestoreTask | ProbeTask | CommandTask.

Definition out (k : kind) : Type :=
  match k with
  | SourceTask => result string PreparedRestoreSource
  | AllocationTask => result RoomsError (list AllocatedClone)
  | RestoreTask => result CloneFailure CloneCustody
  | ProbeTask => result RoomsError unit
  | CommandTask => result CloneCommandMemberFailure CloneCommandOutcome
  end.

Record CloneReadinessProbe := {
  pb_clone_net_index : N; pb_room_id : string; pb_guest_ip : string; pb_namespace : string; pb_lifecycle : handle
}.

Inductive job : kind → Type :=
| JSource (snapshot_dir image : path) (toolstore : option path) : job SourceTask
| JAllocate (state_base : path) (count cap : N) (me : Claimer) : job AllocationTask
| JRestore (prepared : PreparedRestoreSource) (allocation : AllocatedClone) (workload : option CloneWorkload)
    (out_dir : option path) (lifecycle : handle) : job RestoreTask
| JProbe (probe : CloneReadinessProbe) : job ProbeTask
| JCommand (custody : CloneCustody) : job CommandTask.

Inductive JoinError := JoinPanicked | JoinCancelled | JoinFailed.

Definition clone_join_error_kind (e : JoinError) : string :=
  match e with JoinPanicked => "panicked" | JoinCancelled => "was cancelled" | JoinFailed => "failed" end.

(** Whose operation a host call belongs to. *)
Inductive stage :=
| RestoreOf (room_id : string)
| ShutdownOf (vm : BootedVm)
| DropOf (vm : BootedVm)
| FinishOf (room_id snapshot_id : string) (slot_index : N) (clone_net_index : option N)
| KillOf (room_id : string)
| SourceOf.

Inductive kop :=
| KSys (s : stage) (op : sysop)
| KRun (lifecycle : option handle) (op : xop)
| KMeasured
| KReadiness (lifecycle : handle)
| KFreeNetwork (base : path) (index : N) (room_id : string)
| KAllocateBatch (base : path) (owner_ids : list string) (me : Claimer) (cap : N)
| KLoadMatrix (p : path)
| KPrint (line : string)
| KSpawn (k : kind) (j : job k)
| KJoin (k : kind)
| KJoinOrSignal (k : kind)
| KBoth (source allocation : N)
| KBothOrSignal (source allocation : N).

Abbreviation both := (result JoinError (out SourceTask) * result JoinError (out AllocationTask))%type (only parsing).

Definition kans (op : kop) : Type :=
  match op with
  | KSys _ op => ans op
  | KRun _ op => xans op
  | KMeasured => handle
  | KReadiness _ => option ReadinessTiming
  | KFreeNetwork _ _ _ => result CloneNetError CloneNet.Freed
  | KAllocateBatch _ _ _ _ => result JoinError (result BatchAllocationError (list BatchAllocation))
  | KLoadMatrix _ => result MatrixError Matrix.Manifest
  | KPrint _ => unit
  | KSpawn _ _ => N
  | KJoin k => option (N * result JoinError (out k))
  | KJoinOrSignal k => CloneTermination + option (N * result JoinError (out k))
  | KBoth _ _ => both
  | KBothOrSignal _ _ => CloneTermination + both
  end.

Abbreviation kprog := (prog kans) (only parsing).
Abbreviation kevent := (event kans) (only parsing).

(** An operation of another component. *)
Definition staged {A : Type} (s : stage) (p : sys A) : kprog A := translate (λ op, call (KSys s op)) p.

(** What a room's run does, its readiness going to its lifecycle. *)
Definition running {A : Type} (lifecycle : option handle) (p : xprog A) : kprog A := translate (λ op, call (KRun lifecycle op)) p.

Definition own {A : Type} (p : xprog A) : kprog A := running None p.

(** Nothing is observed. *)
Definition unobserved_call (op : rop) : run_prog (rans op) :=
  match op return run_prog (rans op) with RObserve _ => Ret () | op => call op end.

(** [runner::wait_for_ssh]. *)
Definition wait_for_ssh (config : RoomsConfig) (show_path : path → string) (show_duration : N → string) (fuel : nat)
    (target : GuestTarget) (key_path : path) : run_prog (result FirecrackerError unit) :=
  translate unobserved_call (wait_for_ssh_observed config show_path show_duration fuel target key_path false).

Section batch.
  Variable show_path : path → string.
  Variable resolve : string → path.
  Variables (show_secs show_duration : N → string) (show_json : json → result string string).
  Variables (show_debug : string → string) (show_status : option Z → string).
  Variables (show_utf8_error show_int_error : string → string).
  Variables (show_result : ResultJson → string) (show_meta : CursorMeta → string) (show_changeset : Changeset → string).
  Variable show_witness : Pcap.Witness → result string string.
  Variables (immutable_flag : N) (sha256 : string → string) (parse_manifest : string → option Images.Manifest).
  Variables (parse_meta : string → result string SnapshotMeta) (parse_attestation : string → option SnapshotAttestation).
  Variable to_socket_addrs : string → result string (list IpAddr).
  Variables (arch : string) (home : option path) (config : RoomsConfig).
  Variable fuel : nat.
  (** [Display] of an error, of a failed join, and [serde_json::to_string]. *)
  Variable display : RoomsError → string.
  Variable show_join : JoinError → string.
  Variable to_json : report → result string string.

(** ** Ends *)

Definition free_network (allocation : AllocatedClone) : kprog unit :=
  match ac_network allocation with
  | None => Ret ()
  | Some network => do* call (KFreeNetwork (ac_state_base allocation) (net_index network) (ac_room_id allocation)) in Ret ()
  end.

Definition drop_allocations (l : list AllocatedClone) : kprog unit := do* pfor_each free_network l in Ret ().

Definition finish_clone (restored : Restored) : kprog (result string unit) :=
  let net := net_index <$> rs_clone_net restored in
  staged (FinishOf (rs_room_id restored) (rs_snapshot_id restored) (slot_index (rs_slot restored)) net)
    (finish_teardown show_path home config fuel (rs_room_id restored) (rs_snapshot_id restored) (slot_index (rs_slot restored)) net).

(** What the shutdown answers is only logged. *)
Definition teardown_restored_clone (restored : Restored) : kprog (result RoomsError unit) :=
  do* staged (ShutdownOf (rs_vm restored)) (shutdown show_path fuel (rs_vm restored)) in
  let* finished := finish_clone restored in
  Ret (map_err (λ e, RmInternal ("clone " +:+ rs_room_id restored +:+ " teardown incomplete: " +:+ e)) finished).

Definition custody_teardown (c : CloneCustody) : kprog (result RoomsError unit) :=
  match custody_restored c with Err e => Ret (Err e) | Ok restored => teardown_restored_clone restored end.

(** [Drop] of a machine, its fields in their order. *)
Definition vm_drop (vm : BootedVm) : sys unit :=
  do* drop_task (vm_witness vm) in
  do* drop_task (vm_secrets_delivery vm) in
  do* drop_task (vm_provisioning_delivery vm) in
  do* guard_drop show_path fuel (vm_guard vm) in
  call (ODropTask (vm_child vm)).

(** [Drop] of a custody: what the end answers is only logged. *)
Definition custody_drop (c : CloneCustody) : kprog unit :=
  match cu_restored c with
  | None => Ret ()
  | Some restored => do* staged (DropOf (rs_vm restored)) (vm_drop (rs_vm restored)) in do* finish_clone restored in Ret ()
  end.

(** The machine is dismissed and forgotten. *)
Definition preserve (c : CloneCustody) : result RoomsError unit := let? _ := custody_restored c in Ok ().

Definition custody_record (c : CloneCustody) (status : string) (exit_code : option N) : kprog (result RoomsError CloneRecord) :=
  try* record := Ret (let? restored := custody_restored c in from_ready restored (cu_out_dir c) (cu_workload c) status exit_code) in
  let* readiness := call (KReadiness (cu_lifecycle c)) in
  Ret (Ok (with_readiness readiness record)).

Definition member_text (c : CloneCustody) : string :=
  let '(index, room_id) := identity_or_unknown c in "net " +:+ show_N index +:+ " room " +:+ room_id.

Fixpoint teardown_each (l : list CloneCustody) : kprog (list string) :=
  match l with
  | [] => Ret []
  | c :: l =>
      let* down := custody_teardown c in
      let* errors := teardown_each l in
      Ret (match down with Ok _ => errors | Err e => (member_text c +:+ ": " +:+ display e) :: errors end)
  end.

Definition teardown_clone_custody (ready : list CloneCustody) : kprog (list string) := teardown_each (sort_custody ready).

Definition cleanup_partial_restore (ready : list CloneCustody) (original : RoomsError) : kprog RoomsError :=
  let* cleanup_errors := teardown_clone_custody ready in
  Ret (if is_nil cleanup_errors then original else
       RmInternal (display original +:+ "; partial clone cleanup incomplete: " +:+ join "; " cleanup_errors)).

Fixpoint record_each (l : list CloneCustody) (status : string) (exit_code : option N) : kprog (list CloneRecord * list string) :=
  match l with
  | [] => Ret ([], [])
  | c :: l =>
      let* record := custody_record c status exit_code in
      let* rest := record_each l status exit_code in
      let '(records, failures) := rest in
      Ret (match record with
           | Ok record => (record :: records, failures)
           | Err e => (records, (member_text c +:+ ": cannot record terminal custody: " +:+ display e) :: failures)
           end)
  end.

Definition clone_custody_records (ready : list CloneCustody) (status : string) (exit_code : option N)
    : kprog (list CloneRecord * list string) :=
  let* recorded := record_each ready status exit_code in
  let '(records, failures) := recorded in Ret (sort_records records, str_sort failures).

Definition cleanup_restore_batch_failure (ready : list CloneCustody) (failures : list CloneFailure)
    : kprog CloneRestoreBatchFailure :=
  let* recorded := clone_custody_records ready "aborted" None in
  let '(records, cleanup_failures) := recorded in
  let* errors := teardown_clone_custody ready in
  Ret (restore_batch_failure display records failures (cleanup_failures ++ errors)).

Definition cancel_clone_custody (ready : list CloneCustody) (signal : CloneTermination) (prior_failures : list CloneFailure)
    : kprog CloneRunError :=
  let* recorded := clone_custody_records ready "cancelled" (Some (termination_code signal)) in
  let '(records, cleanup_failures) := recorded in
  let* errors := teardown_clone_custody ready in
  Ret (BatchCancelled (with_details signal records (failure_record display <$> prior_failures) (cleanup_failures ++ errors))).

Definition drop_custodies (l : list CloneCustody) : kprog unit := do* pfor_each custody_drop l in Ret ().

(** The custodies not yet reached are dropped with an error. *)
Fixpoint preserve_each (l : list CloneCustody) : kprog (result RoomsError unit) :=
  match l with
  | [] => Ret (Ok ())
  | c :: l => match preserve c with Err e => do* drop_custodies l in Ret (Err e) | Ok _ => preserve_each l end
  end.

Definition preserve_clone_batch (ready : list CloneCustody) : kprog (result RoomsError (list CloneRecord)) :=
  let* records := ptry_each (λ c, custody_record c "kept" None) ready in
  match records with
  | Err e => do* drop_custodies ready in Ret (Err e)
  | Ok records => try* _ := preserve_each ready in Ret (Ok (sort_records records))
  end.

(** What a kill reports that is not clean. *)
Definition kill_failures (record : CloneRecord) (killed : result RegistryError KillReport) : list string :=
  let who := "net " +:+ show_N (rec_clone_net_index record) +:+ " room " +:+ rec_room_id record in
  match killed with
  | Ok report =>
      omap (λ o, match ko_disposition o with
                 | Killed => None
                 | d => Some (who +:+ " rollback was " +:+ show_N (Registry.exit_code d) +:+ ": " +:+ ko_reason o)
                 end) (kr_outcomes report)
  | Err e => [who +:+ " rollback failed: " +:+ re_message show_path e]
  end.

Definition reap_preserved_clones (records : list CloneRecord) : kprog (list string) :=
  let* killed := pfor_each (λ record,
    let* killed := staged (KillOf (rec_room_id record)) (kill show_path home config fuel (rec_room_id record)) in
    Ret (kill_failures record killed)) records in
  Ret (str_sort (concat killed)).

Definition cancel_preserved_clones (records : list CloneRecord) (signal : CloneTermination) : kprog CloneCancellation :=
  let* cleanup_failures := reap_preserved_clones records in
  Ret (with_clones signal (with_status "cancelled" (Some (termination_code signal)) <$> records) cleanup_failures).

(** ** Signals and joins *)

Definition observed_termination : kprog (option CloneTermination) := own (call XObserved).

Definition commit_terminal_handoff : kprog (result RoomsError (option CloneTermination)) := own (pmap_err RmInternal (call XCommit)).

(** Until a signal is seen each join is raced with it, and waits on after it. *)
Definition next_join (k : kind) (cancelled : option CloneTermination)
    : kprog (option CloneTermination * option (N * result JoinError (out k))) :=
  match cancelled with
  | Some signal => let* joined := (call (KJoin k) : kprog (option (N * result JoinError (out k)))) in Ret (Some signal, joined)
  | None =>
      let* raced := (call (KJoinOrSignal k) : kprog (CloneTermination + option (N * result JoinError (out k)))) in
      match raced with
      | inr joined => Ret (None, joined)
      | inl signal => let* joined := (call (KJoin k) : kprog (option (N * result JoinError (out k)))) in Ret (Some signal, joined)
      end
  end.

(** ** Restoring the batch *)

Record CloneRestoreBatch := {
  br_ready : list CloneCustody; br_failures : list CloneFailure; br_cancelled : option CloneTermination
}.

(** The job of one restore. *)
Definition restore_request (args : CloneArgs) (plan : Egress.Plan) (room_id : string) (workload : option CloneWorkload)
    (out_dir : option path) (network : CloneNet) : RestoreRequest :=
  {| rr_request_room := room_id; rr_snapshot_dir := ca_snapshot_dir args; rr_image := ca_image args;
     rr_toolstore := ca_toolstore args; rr_target_slot := None;
     rr_label := Some (match workload with None => "clone" | Some w => workload_label w end);
     rr_keep := negb (given workload); rr_witness := ca_witness args; rr_egress := plan; rr_secrets := ca_secrets args;
     rr_out_dir := out_dir; rr_ack_timeout := RESTORE_ACK_TIMEOUT; rr_clone_net := Some network |}.

(** Until the restore has the network, dropping the allocation frees it. *)
Definition restore_worker (args : CloneArgs) (plan : Egress.Plan) (prepared : PreparedRestoreSource) (allocation : AllocatedClone)
    (workload : option CloneWorkload) (out_dir : option path) (lifecycle : handle) : kprog (result CloneFailure CloneCustody) :=
  let room_id := ac_room_id allocation in
  let failed index error := clone_failure index room_id out_dir (case_id_of workload) (command_sha256_of workload) error in
  match ac_network allocation with
  | None => Ret (Err (failed 0%N (RmInternal "clone network custody was already transferred")))
  | Some network =>
      let* restored := staged (RestoreOf room_id)
        (restore_prepared show_path resolve show_secs show_json immutable_flag sha256 home config fuel
           (restore_request args plan room_id workload out_dir network) prepared) in
      match restored with
      | Err e => do* free_network allocation in Ret (Err (failed (net_index network) (RmInternal e)))
      | Ok restored =>
          do* call (KRun (Some lifecycle) (XEmit ResumeReady)) in
          Ret (Ok {| cu_lifecycle := lifecycle; cu_restored := Some restored; cu_out_dir := out_dir; cu_workload := workload |})
      end
  end.

(** The outcome when no restore may start. *)
Definition refuse_clone_batch (allocated planned : nat) : kprog (option CloneRestoreBatch) :=
  let* signal := observed_termination in
  Ret (match signal with
       | Some signal => Some {| br_ready := []; br_failures := []; br_cancelled := Some signal |}
       | None =>
           if (planned =? allocated)%nat then None else
           Some {| br_ready := [];
                   br_failures := [CloneFailure_new u8_MAX "unknown"
                                     (RmInternal "clone workload count did not match allocated clone count")];
                   br_cancelled := None |}
       end).

(** What a joined restore adds. *)
Definition join_failure (what : string) (identity : CloneTaskIdentity) (e : JoinError) : CloneFailure :=
  clone_failure (tk_clone_net_index identity) (tk_room_id identity) (tk_out_dir identity) (tk_case_id identity)
    (tk_command_sha256 identity) (RmInternal (what +:+ " worker " +:+ clone_join_error_kind e)).

Definition identity_of (ids : gmap N CloneTaskIdentity) (id : N) : CloneTaskIdentity := default unknown_identity (ids !! id).

Definition add_restore (cancelled : option CloneTermination) (ids : gmap N CloneTaskIdentity) (id : N)
    (joined : result JoinError (out RestoreTask)) (ready : list CloneCustody) (failures : list CloneFailure)
    : list CloneCustody * list CloneFailure :=
  match joined with
  | Ok (Ok custody) => (ready ++ [custody], failures)
  | Ok (Err failure) => (ready, failures ++ [failure])
  | Err e =>
      match cancelled, e with
      | Some _, JoinCancelled => (ready, failures)
      | _, _ => (ready, failures ++ [join_failure "restore" (identity_of ids id) e])
      end
  end.

(** The set is empty after as many joins as were spawned, or earlier by [None]. *)
Fixpoint collect_restores (n : nat) (ids : gmap N CloneTaskIdentity) (ready : list CloneCustody) (failures : list CloneFailure)
    (cancelled : option CloneTermination) : kprog CloneRestoreBatch :=
  let batch cancelled := {| br_ready := sort_custody ready; br_failures := failures; br_cancelled := cancelled |} in
  match n with
  | 0 => Ret (batch cancelled)
  | S n =>
      let* next := next_join RestoreTask cancelled in
      match next with
      | (cancelled, None) => Ret (batch cancelled)
      | (cancelled, Some (id, joined)) =>
          let '(ready, failures) := add_restore cancelled ids id joined ready failures in
          collect_restores n (delete id ids) ready failures cancelled
      end
  end.

Definition collect_clone_restores (n : nat) (ids : gmap N CloneTaskIdentity) : kprog CloneRestoreBatch :=
  collect_restores n ids [] [] None.

Fixpoint spawn_restores (args : CloneArgs) (prepared : PreparedRestoreSource) (l : list (AllocatedClone * option CloneWorkload))
    (ids : gmap N CloneTaskIdentity) : kprog (gmap N CloneTaskIdentity) :=
  match l with
  | [] => Ret ids
  | (allocation, workload) :: l =>
      let out_dir := clone_output_dir (ca_out_dir args) (ac_room_id allocation) (case_id_of workload) in
      let* lifecycle := call KMeasured in
      let* id := (call (KSpawn RestoreTask (JRestore prepared allocation workload out_dir lifecycle)) : kprog N) in
      spawn_restores args prepared l (<[id := allocated_clone_task_identity allocation workload out_dir]> ids)
  end.

Definition restore_clone_batch (allocations : list AllocatedClone) (prepared : PreparedRestoreSource) (args : CloneArgs)
    : kprog CloneRestoreBatch :=
  let workloads := assigned_workloads args in
  let* refused := refuse_clone_batch (length allocations) (length workloads) in
  match refused with
  | Some refused => do* drop_allocations allocations in Ret refused
  | None =>
      let l := zip allocations workloads in
      let* ids := spawn_restores args prepared l ∅ in
      collect_clone_restores (length l) ids
  end.

(** ** Setting up *)

Definition allocated_clone (state_base : path) (allocation : BatchAllocation) : AllocatedClone :=
  {| ac_room_id := alloc_owner allocation; ac_network := Some (alloc_network allocation); ac_state_base := state_base |}.

Definition allocate_clone_networks (state_base : path) (count cap : N) (me : Claimer)
    : kprog (result RoomsError (list AllocatedClone)) :=
  let* owner_ids := own (host (pfor_each (λ _, (call OUlid : sys string)) (replicate (N.to_nat count) ()))) in
  let* batch := call (KAllocateBatch state_base owner_ids me cap) in
  Ret (match batch with
       | Err e => Err (RmInternal ("clone network allocation task failed: " +:+ show_join e))
       | Ok (Err e) =>
           Err (match pool_full_cap e with
                | Some cap => RmCloneNet (CnePoolFull cap)
                | None => RmInternal (show_BatchAllocationError e)
                end)
       | Ok (Ok batch) => Ok (allocated_clone state_base <$> batch)
       end).

(** The source's error comes first, and what was allocated is then dropped. *)
Definition setup_result (ended : both) : kprog (result RoomsError (PreparedRestoreSource * list AllocatedClone)) :=
  let '(source, allocations) := ended in
  let prepared := match source with
                  | Err e => Err (RmInternal ("clone source preparation task failed: " +:+ show_join e))
                  | Ok (Err e) => Err (RmInternal e)
                  | Ok (Ok prepared) => Ok prepared
                  end in
  match prepared with
  | Err e => do* match allocations with Ok (Ok l) => drop_allocations l | _ => Ret () end in Ret (Err e)
  | Ok prepared =>
      Ret (match allocations with
           | Err e => Err (RmInternal ("clone allocation coordinator failed: " +:+ show_join e))
           | Ok (Err e) => Err e
           | Ok (Ok l) => Ok (prepared, l)
           end)
  end.

Definition prepare_clone_batch (args : CloneArgs) (state_base : path) (cap : N) (me : Claimer)
    : kprog (result CloneRunError (PreparedRestoreSource * list AllocatedClone)) :=
  let* signal := observed_termination in
  match signal with
  | Some signal => Ret (Err (BatchCancelled (clean_cancellation signal)))
  | None =>
      let* source := (call (KSpawn SourceTask (JSource (ca_snapshot_dir args) (ca_image args) (ca_toolstore args))) : kprog N) in
      let* allocation := (call (KSpawn AllocationTask (JAllocate state_base (ca_count args) cap me)) : kprog N) in
      let* raced := (call (KBothOrSignal source allocation) : kprog (CloneTermination + both)) in
      match raced with
      | inl signal =>
          let* ended := (call (KBoth source allocation) : kprog both) in
          let* completed := setup_result ended in
          do* match completed with Ok (_, allocations) => drop_allocations allocations | Err _ => Ret () end in
          Ret (Err (BatchCancelled (clean_cancellation signal)))
      | inr ended => let* completed := setup_result ended in Ret (map_err Standard completed)
      end
  end.
(** ** Readiness *)

Inductive CloneReadinessBarrierError := BarrierFailed (e : RoomsError) | BarrierCancelled (signal : CloneTermination).

Definition probe_of (c : CloneCustody) : result RoomsError CloneReadinessProbe :=
  let? restored := custody_restored c in
  let? network := ok_or (rs_clone_net restored) no_clone_network in
  Ok {| pb_clone_net_index := net_index network; pb_room_id := rs_room_id restored;
        pb_guest_ip := show_ipv4 (slot_guest (rs_slot restored)); pb_namespace := CloneRoutes.netns network;
        pb_lifecycle := cu_lifecycle c |}.

Fixpoint probes_of (ready : list CloneCustody) : result RoomsError (list CloneReadinessProbe) :=
  match ready with
  | [] => Ok []
  | c :: ready => let? probe := probe_of c in let? probes := probes_of ready in Ok (probe :: probes)
  end.

Definition probe_worker (key : path) (probe : CloneReadinessProbe) : kprog (result RoomsError unit) :=
  try* _ := pmap_err RmFirecracker (own (observed
    (wait_for_ssh config show_path show_duration fuel {| guest_ip := pb_guest_ip probe; netns := Some (pb_namespace probe) |} key))) in
  do* call (KRun (Some (pb_lifecycle probe)) (XEmit Lifecycle.SshReady)) in
  Ret (Ok ()).

Definition probe_identity (ids : gmap N (N * string)) (id : N) : N * string := default (u8_MAX, "unknown") (ids !! id).

Definition add_probe (ids : gmap N (N * string)) (id : N) (joined : result JoinError (out ProbeTask)) (failures : list CloneFailure)
    : list CloneFailure :=
  let '(index, room_id) := probe_identity ids id in
  match joined with
  | Ok (Ok _) => failures
  | Ok (Err e) => failures ++ [CloneFailure_new index room_id e]
  | Err e => failures ++ [CloneFailure_new index room_id (RmInternal ("SSH readiness worker " +:+ clone_join_error_kind e))]
  end.

Fixpoint collect_probes (n : nat) (ids : gmap N (N * string)) (failures : list CloneFailure) (cancelled : option CloneTermination)
    : kprog (list CloneFailure * option CloneTermination) :=
  match n with
  | 0 => Ret (failures, cancelled)
  | S n =>
      let* next := next_join ProbeTask cancelled in
      match next with
      | (cancelled, None) => Ret (failures, cancelled)
      | (cancelled, Some (id, joined)) => collect_probes n (delete id ids) (add_probe ids id joined failures) cancelled
      end
  end.

Fixpoint spawn_probes (l : list CloneReadinessProbe) (ids : gmap N (N * string)) : kprog (gmap N (N * string)) :=
  match l with
  | [] => Ret ids
  | probe :: l =>
      let* id := (call (KSpawn ProbeTask (JProbe probe)) : kprog N) in
      spawn_probes l (<[id := (pb_clone_net_index probe, pb_room_id probe)]> ids)
  end.

Definition run_clone_readiness_barrier (probes : list CloneReadinessProbe) : kprog (result CloneReadinessBarrierError unit) :=
  let* signal := observed_termination in
  match signal with
  | Some signal => Ret (Err (BarrierCancelled signal))
  | None =>
      let* ids := spawn_probes probes ∅ in
      let* ended := collect_probes (length probes) ids [] None in
      Ret (match ended with
           | (_, Some signal) => Err (BarrierCancelled signal)
           | (failures, None) =>
               match collapse_clone_failures display "SSH readiness" failures with Some e => Err (BarrierFailed e) | None => Ok () end
           end)
  end.

Definition wait_kept_clone_batch_ready (ready : list CloneCustody) : kprog (result CloneReadinessBarrierError unit) :=
  try* probes := Ret (map_err BarrierFailed (probes_of ready)) in run_clone_readiness_barrier probes.

(** ** Commands *)

(** With the machine as the run left it. *)
Definition with_vm (restored : Restored) (vm : BootedVm) : Restored :=
  {| rs_vm := vm; rs_slot := rs_slot restored; rs_room_id := rs_room_id restored; rs_snapshot_id := rs_snapshot_id restored;
     rs_clone_net := rs_clone_net restored; rs_toolstore_sha256 := rs_toolstore_sha256 restored;
     rs_base_repo_sha := rs_base_repo_sha restored |}.

Definition with_restored (c : CloneCustody) (restored : Restored) : CloneCustody :=
  {| cu_lifecycle := cu_lifecycle c; cu_restored := Some restored; cu_out_dir := cu_out_dir c; cu_workload := cu_workload c |}.

Definition restored_env (restored : Restored) (key : path) (max_wall : option N) (plan : Egress.Plan) : PostBootEnv :=
  {| pe_network := network_config_for (rs_slot restored);
     pe_network_namespace := CloneRoutes.netns <$> rs_clone_net restored; pe_key := key; pe_max_wall := max_wall;
     pe_streams := false; pe_egress := plan |}.

(** The command in the guest, and what it leaves. *)
Definition run_restored (lifecycle : option handle) (restored : Restored) (command : string) (key : path) (max_wall : option N)
    (plan : Egress.Plan) (out_dir : option path) (signals : bool)
    : kprog (result RoomsError N * (BootedVm * result RoomsError unit)) :=
  let env := restored_env restored key max_wall plan in
  let action := Exec (Command command) in
  let* outcome := running lifecycle
    (post_boot show_path show_duration show_debug show_status show_utf8_error show_result show_meta config fuel env action
       (rs_vm restored) None signals) in
  let* collected := running lifecycle
    (collect_run_artifacts show_path show_status show_int_error show_changeset show_witness env action (rs_slot restored)
       (staging_pcap_path (default [] (room_dir home config (rs_room_id restored)))) out_dir (rs_vm restored)) in
  Ret (outcome, collected).

(** What the errors of a command come to, its clone torn down. *)
Definition command_result (strict : bool) (recorded : option (result RoomsError CloneRecord)) (outcome : result RoomsError N)
    (collection teardown : result RoomsError unit) : result CloneCommandInnerFailure CloneCommandOutcome :=
  let record := match recorded with Some (Ok record) => Some record | _ => None end in
  let errors := match recorded with Some (Err e) => [e] | _ => [] end ++
                match outcome with Err e => [e] | Ok _ => [] end ++
                (if strict then match collection with Err e => [e] | Ok _ => [] end else []) in
  let errors := match record, errors with
                | None, [] => [RmInternal "clone command completed without a result record"]
                | _, _ => errors
                end ++ match teardown with Err e => [e] | Ok _ => [] end in
  if negb (is_nil errors) then Err {| ci_record := record; ci_error := combine_clone_command_errors display errors |} else
  match record ≫= rec_exit_code with
  | None => Err {| ci_record := record; ci_error := RmInternal "clone command result lost its exit code" |}
  | Some exit_code =>
      match record with
      | None => Err {| ci_record := None; ci_error := RmInternal "clone command completed without a result record" |}
      | Some record => Ok {| co_record := record; co_exit_code := exit_code |}
      end
  end.

Definition execute_clone_command_inner (custody : CloneCustody) (command : string) (key : path) (max_wall : option N)
    (plan : Egress.Plan) : kprog (result CloneCommandInnerFailure CloneCommandOutcome) :=
  let strict := given (case_id_of (cu_workload custody)) in
  match custody_restored custody with
  | Err e => Ret (Err {| ci_record := None; ci_error := e |})
  | Ok restored =>
      let* ran := run_restored (Some (cu_lifecycle custody)) restored command key max_wall plan (cu_out_dir custody) true in
      let '(outcome, (vm, collection)) := ran in
      let custody := with_restored custody (with_vm restored vm) in
      let* recorded :=
        match outcome with
        | Err _ => Ret None
        | Ok code =>
            let* signal := observed_termination in
            let* record := custody_record custody (if is_some signal then "cancelled" else "exited") (Some code) in
            Ret (Some record)
        end in
      let* teardown := custody_teardown custody in
      Ret (command_result strict recorded outcome collection teardown)
  end.

Definition execute_clone_command (custody : CloneCustody) (key : path) (max_wall : option N) (plan : Egress.Plan)
    : kprog (result CloneCommandMemberFailure CloneCommandOutcome) :=
  let out_dir := cu_out_dir custody in
  match cu_workload custody with
  | None =>
      do* custody_drop custody in
      Ret (Err {| cm_record := None;
                  cm_failure := clone_failure 0 "unknown" out_dir None None (RmInternal "command clone has no assigned workload") |})
  | Some workload =>
      let failed index room_id := clone_failure index room_id out_dir (wl_case_id workload) (wl_command_sha256 workload) in
      match custody_restored custody with
      | Err e => Ret (Err {| cm_record := None; cm_failure := failed 0%N "unknown" e |})
      | Ok restored =>
          pmap_err (λ f, {| cm_record := ci_record f;
                            cm_failure := failed match rs_clone_net restored with Some net => net_index net | None => 0%N end
                                            (rs_room_id restored) (ci_error f) |})
            (execute_clone_command_inner custody (wl_command workload) key max_wall plan)
      end
  end.

(** The members that answered, the records of those that did not, the failures. *)
Record command_joins := { cj_outcomes : list CloneCommandOutcome; cj_records : list CloneRecord; cj_failures : list CloneFailure }.

Definition add_command (ids : gmap N CloneTaskIdentity) (id : N) (joined : result JoinError (out CommandTask)) (s : command_joins)
    : command_joins :=
  match joined with
  | Ok (Ok outcome) => {| cj_outcomes := cj_outcomes s ++ [outcome]; cj_records := cj_records s; cj_failures := cj_failures s |}
  | Ok (Err failure) =>
      {| cj_outcomes := cj_outcomes s; cj_records := cj_records s ++ option_list (cm_record failure);
         cj_failures := cj_failures s ++ [cm_failure failure] |}
  | Err e =>
      {| cj_outcomes := cj_outcomes s; cj_records := cj_records s;
         cj_failures := cj_failures s ++ [join_failure "command" (identity_of ids id) e] |}
  end.

(** Every command is waited for; each sees the signal itself. *)
Fixpoint collect_commands (n : nat) (ids : gmap N CloneTaskIdentity) (s : command_joins) : kprog command_joins :=
  match n with
  | 0 => Ret s
  | S n =>
      let* joined := (call (KJoin CommandTask) : kprog (option (N * result JoinError (out CommandTask)))) in
      match joined with
      | None => Ret s
      | Some (id, joined) => collect_commands n (delete id ids) (add_command ids id joined s)
      end
  end.

Definition custody_task_identity (c : CloneCustody) : CloneTaskIdentity :=
  let '(index, room_id) := identity_or_unknown c in
  {| tk_clone_net_index := index; tk_room_id := room_id; tk_case_id := case_id_of (cu_workload c);
     tk_command_sha256 := command_sha256_of (cu_workload c); tk_out_dir := cu_out_dir c |}.

Fixpoint spawn_commands (l : list CloneCustody) (ids : gmap N CloneTaskIdentity) : kprog (gmap N CloneTaskIdentity) :=
  match l with
  | [] => Ret ids
  | c :: l =>
      let* id := (call (KSpawn CommandTask (JCommand c)) : kprog N) in
      spawn_commands l (<[id := custody_task_identity c]> ids)
  end.

(** The first code that is not zero, in the order of the networks. *)
Definition batch_code (outcomes : list CloneCommandOutcome) : N :=
  match find (λ o, negb (co_exit_code o =? 0)%N) outcomes with Some o => co_exit_code o | None => 0 end.

Definition commands_result (s : command_joins) : result CloneCommandBatchFailure (N * list CloneRecord) :=
  let outcomes := sort_by_index (λ o, rec_clone_net_index (co_record o)) (cj_outcomes s) in
  let records := sort_records ((co_record <$> outcomes) ++ cj_records s) in
  if is_nil (cj_failures s) then Ok (batch_code outcomes, records)
  else Err (command_batch_failure display records (cj_failures s) []).

Definition run_clone_commands (ready : list CloneCustody) : kprog (result CloneCommandBatchFailure (N * list CloneRecord)) :=
  let* ids := spawn_commands ready ∅ in
  let* joined := collect_commands (length ready) ids {| cj_outcomes := []; cj_records := []; cj_failures := [] |} in
  Ret (commands_result joined).

(** ** The batch *)

Definition print (line : string) : kprog unit := call (KPrint line).

Definition print_report (r : report) : kprog (result RoomsError unit) :=
  try* line := Ret (map_err RmInternal (to_json r)) in do* print line in Ret (Ok ()).

(** A line that cannot be serialized is only logged. *)
Definition print_best_effort (r : report) : kprog unit := do* print_report r in Ret ().

Definition emit_clone_records (records : list CloneRecord) (json : bool) (matrix_sha256 : option string)
    : kprog (result RoomsError unit) :=
  if json then print_report (clone_records_report records matrix_sha256) else
  do* match matrix_sha256 with Some sha => print ("matrix evidence: " +:+ sha) | None => Ret () end in
  do* pfor_each (λ r, print (record_line r)) records in
  Ret (Ok ()).

Definition emit_run_error_json (e : RoomsError) : kprog unit := print_best_effort (RunErrorLine (run_error_record display e)).

Definition emit_clone_run_error_json (e : RoomsError) (matrix_sha256 : option string) : kprog unit :=
  match matrix_sha256 with
  | None => emit_run_error_json e
  | Some sha => print_best_effort (matrix_run_error_report display e sha)
  end.

Definition finish_kept_clone_batch (ready : list CloneCustody) (json : bool) (matrix_sha256 : option string)
    : kprog (result CloneRunError N) :=
  let* signal := observed_termination in
  match signal with
  | Some signal => let* e := cancel_clone_custody ready signal [] in Ret (Err e)
  | None =>
      try* records := pmap_err Standard (preserve_clone_batch ready) in
      let* committed := commit_terminal_handoff in
      match committed with
      | Ok (Some signal) => let* c := cancel_preserved_clones records signal in Ret (Err (BatchCancelled c))
      | Ok None => try* _ := pmap_err Standard (emit_clone_records records json matrix_sha256) in Ret (Ok 0%N)
      | Err e =>
          let* cleanup_failures := reap_preserved_clones records in
          Ret (Err (Standard (if is_nil cleanup_failures then e else
            RmInternal (display e +:+ "; kept-fleet rollback incomplete: " +:+ join "; " cleanup_failures))))
      end
  end.

(** What a fleet that is not ready comes to. *)
Definition barrier_failed (ready : list CloneCustody) (e : CloneReadinessBarrierError) : kprog CloneRunError :=
  match e with
  | BarrierCancelled signal => cancel_clone_custody ready signal []
  | BarrierFailed error =>
      let* committed := commit_terminal_handoff in
      match committed with
      | Ok (Some signal) => cancel_clone_custody ready signal []
      | Ok None => let* e := cleanup_partial_restore ready error in Ret (Standard e)
      | Err arbitration =>
          let combined := RmInternal (display error +:+ "; clone readiness terminal arbitration failed: " +:+ display arbitration) in
          let* e := cleanup_partial_restore ready combined in Ret (Standard e)
      end
  end.

Definition keep_fleet (args : CloneArgs) (ready : list CloneCustody) : kprog (result CloneRunError N) :=
  let* barrier := wait_kept_clone_batch_ready ready in
  match barrier with
  | Err e => let* e := barrier_failed ready e in Ret (Err e)
  | Ok _ => finish_kept_clone_batch ready (ca_json args) (ca_matrix_sha256 args)
  end.

Definition run_fleet (args : CloneArgs) (ready : list CloneCustody) : kprog (result CloneRunError N) :=
  let* ran := run_clone_commands ready in
  try* signal := pmap_err Standard commit_terminal_handoff in
  match signal with
  | Some signal =>
      Ret (Err (BatchCancelled match ran with
                               | Ok (_, clones) => with_clones signal clones []
                               | Err failure => into_cancellation failure signal
                               end))
  | None =>
      try* ran := Ret (map_err CommandBatch ran) in
      let '(code, records) := ran in
      try* _ := pmap_err Standard (emit_clone_records records (ca_json args) (ca_matrix_sha256 args)) in
      Ret (Ok code)
  end.

(** What is checked before any task: the state base, the cap and the claimer. *)
Definition admit_clone (args : CloneArgs) : kprog (result RoomsError (Egress.Plan * path * path * N * Claimer)) :=
  try* _ := Ret (validate_json_emitted_path (ca_out_dir args) (ca_json args) "clone --out") in
  try* _ := own (pmap_err RmInternal (call XArm)) in
  try* _ := own (ensure_witness_available resolve (ca_witness args)) in
  try* _ := own (internal ensure_rooms_fwd_installed) in
  try* plan := Ret (map_err RmInternal (Egress.resolve to_socket_addrs (ca_egress args))) in
  try* key := own (host (key_path resolve)) in
  try* state_base := Ret (ok_or (resolved_state_base home config) no_state_base) in
  let cap := effective_max_pool config (ca_max_pool args) in
  try* _ := Ret (validate_clone_capacity (ca_count args) cap) in
  let* me := own (host current_claimer) in
  try* me := Ret (ok_or me (RmInternal "cannot read this process's identity for clone claims")) in
  Ret (Ok (plan, key, state_base, cap, me)).

Definition clone_rooms_inner (args : CloneArgs) : kprog (result CloneRunError N) :=
  try* admitted := pmap_err Standard (admit_clone args) in
  let '(plan, key, state_base, cap, me) := admitted in
  try* prepared := prepare_clone_batch args state_base cap me in
  let '(prepared, allocations) := prepared in
  let* restored := restore_clone_batch allocations prepared args in
  match br_cancelled restored with
  | Some signal => let* e := cancel_clone_custody (br_ready restored) signal (br_failures restored) in Ret (Err e)
  | None =>
      if negb (is_nil (br_failures restored)) then
        let* failure := cleanup_restore_batch_failure (br_ready restored) (br_failures restored) in
        Ret (Err (RestoreBatch failure))
      else if runs_commands args then run_fleet args (br_ready restored)
      else keep_fleet args (br_ready restored)
  end.

Definition clone_rooms (args : CloneArgs) : kprog (result RoomsError N) :=
  let json := ca_json args in
  let sha := ca_matrix_sha256 args in
  let* ran := clone_rooms_inner args in
  match ran with
  | Ok code => Ret (Ok code)
  | Err (Standard e) => do* if json then emit_clone_run_error_json e sha else Ret () in Ret (Err e)
  | Err (RestoreBatch failure) =>
      let e := RmInternal (restore_summary failure) in
      try* _ := if json then match sha with
                             | Some _ => print_report (clone_restore_failure_report failure sha)
                             | None => do* emit_run_error_json e in Ret (Ok ())
                             end
                else Ret (Ok ()) in
      Ret (Err e)
  | Err (CommandBatch failure) =>
      try* _ := if json then print_report (clone_command_failure_report failure sha) else Ret (Ok ()) in
      Ret (Err (RmInternal (command_summary failure)))
  | Err (BatchCancelled cancellation) =>
      try* _ := if json then print_report (clone_cancellation_report cancellation sha) else Ret (Ok ()) in
      Ret (Ok (cancellation_exit_code cancellation))
  end.

Definition matrix_rooms (args : MatrixArgs) : kprog (result RoomsError N) :=
  let* manifest := call (KLoadMatrix (mx_cases args)) in
  match manifest with
  | Err e => do* if mx_json args then emit_run_error_json (RmMatrix e) else Ret () in Ret (Err (RmMatrix e))
  | Ok manifest => clone_rooms (matrix_clone_args args manifest)
  end.

(** The program of each task. *)
Definition work (args : CloneArgs) (plan : Egress.Plan) (key : path) {k : kind} (j : job k) : kprog (out k) :=
  match j in job k return kprog (out k) with
  | JSource snapshot_dir image toolstore =>
      staged SourceOf (prepare_restore show_path immutable_flag sha256 parse_manifest parse_meta parse_attestation arch home config
                         snapshot_dir image toolstore)
  | JAllocate state_base count cap me => allocate_clone_networks state_base count cap me
  | JRestore prepared allocation workload out_dir lifecycle =>
      restore_worker args plan prepared allocation workload out_dir lifecycle
  | JProbe probe => probe_worker key probe
  | JCommand custody => execute_clone_command custody key (ca_max_wall args) plan
  end.

(** ** One restored room *)

Record RestoreArgs := {
  re_snapshot_dir : path;
  re_image : path;
  re_toolstore : option path;
  re_keep : bool;
  re_command : option string;
  re_slot : option N;
  re_out_dir : option path;
  re_witness : bool;
  re_secrets : option string;
  re_egress : Policy;
  re_max_wall : option N;
  re_json : bool
}.

Definition emit_restored (restored : Restored) (json : bool) : kprog unit :=
  if json then print_best_effort (restored_report restored) else
  print ("restored: room " +:+ rs_room_id restored +:+ " from snapshot " +:+ rs_snapshot_id restored +:+ " on slot " +:+
                show_N (slot_index (rs_slot restored)) +:+ " (guest " +:+ show_ipv4 (slot_guest (rs_slot restored)) +:+ ")").

Definition single_request (args : RestoreArgs) (plan : Egress.Plan) (room_id : string) : RestoreRequest :=
  {| rr_request_room := room_id; rr_snapshot_dir := re_snapshot_dir args; rr_image := re_image args;
     rr_toolstore := re_toolstore args; rr_target_slot := re_slot args;
     rr_label := Some (default "restore" (re_command args)); rr_keep := re_keep args; rr_witness := re_witness args;
     rr_egress := plan; rr_secrets := re_secrets args; rr_out_dir := re_out_dir args;
     rr_ack_timeout := RESTORE_ACK_TIMEOUT; rr_clone_net := None |}.

(** A kept room must accept a login before it is left. *)
Definition keep_restored (args : RestoreArgs) (key : path) (restored : Restored) : kprog (result RoomsError N) :=
  let target := {| guest_ip := show_ipv4 (slot_guest (rs_slot restored)); netns := CloneRoutes.netns <$> rs_clone_net restored |} in
  let* ready := own (observed (wait_for_ssh config show_path show_duration fuel target key)) in
  match ready with
  | Ok _ => do* emit_restored restored (re_json args) in Ret (Ok 0%N)
  | Err readiness =>
      let original := RmFirecracker readiness in
      let* down := teardown_restored_clone restored in
      Ret (Err (match down with
                | Ok _ => original
                | Err cleanup => RmInternal (display original +:+ "; restore SSH-readiness cleanup incomplete: " +:+ display cleanup)
                end))
  end.

Definition run_single (args : RestoreArgs) (plan : Egress.Plan) (key : path) (restored : Restored) : kprog (result RoomsError N) :=
  do* emit_restored restored (re_json args) in
  match re_command args with
  | None =>
      do* staged (DropOf (rs_vm restored)) (vm_drop (rs_vm restored)) in Ret (Err (RmInternal "restore lifecycle lost its command"))
  | Some command =>
      let* ran := run_restored None restored command key (re_max_wall args) plan (re_out_dir args) false in
      let '(outcome, (vm, _)) := ran in
      do* staged (ShutdownOf vm) (shutdown show_path fuel vm) in
      try* _ := pmap_err (λ e, RmInternal ("restore teardown incomplete: " +:+ e)) (finish_clone restored) in
      Ret outcome
  end.

Definition restore_room_inner (args : RestoreArgs) : kprog (result RoomsError N) :=
  if negb (re_keep args) && negb (given (re_command args)) then
    Ret (Err (RmInternal "restore requires exactly one lifecycle mode: --keep or --command"))
  else
  try* _ := own (ensure_witness_available resolve (re_witness args)) in
  try* _ := own (internal ensure_rooms_fwd_installed) in
  try* plan := Ret (map_err RmInternal (Egress.resolve to_socket_addrs (re_egress args))) in
  try* key := own (host (key_path resolve)) in
  let* room_id := own (host (call OUlid)) in
  try* restored := pmap_err RmInternal (staged (RestoreOf room_id)
    (restore show_path resolve show_secs show_json immutable_flag sha256 parse_manifest parse_meta parse_attestation arch home
       config fuel (single_request args plan room_id))) in
  if re_keep args then keep_restored args key restored else run_single args plan key restored.

Definition restore_room (args : RestoreArgs) : kprog (result RoomsError N) :=
  let* ran := restore_room_inner args in
  do* match ran with Err e => if re_json args then emit_run_error_json e else Ret () | Ok _ => Ret () end in
  Ret ran.

End batch.
