(* ===== verification/CloneFates.v ===== *)
(** * CloneFates: what becomes of each clone of a batch

    The ways a restored clone's custody ends, each as the calls that were made in
    one stretch of a history, and the programs that end it.  Every program that is
    given custodies ends each of them, whatever is answered. *)

From S2P Require Import Prelude RStr Fs Room IndexedClaim Slot CloneRoutes CloneNet Egress Registry Pcap Artifacts Matrix Lifecycle Prog Config Snapshot Intents Sys Teardown Images Launch Boot RestoreSource RestoreTeardown RestoreExec Runner Returns Doctor Witness Cli Run CloneRecords CloneBatch.
From stdpp Require Import options.

(** A call of a component's operation. *)
Definition tag (s : stage) (e : sys_event) : kevent := Event (Ans := kans) (KSys s (ev_op e)) (ev_ans e).

(** The operation [p] went from its first call to its end. *)
Definition ended {A : Type} (s : stage) (p : sys A) (r : A) (k : list kevent) : Prop :=
  ∃ tr, k = tag s <$> tr ∧ run p tr (Some r).

Lemma run_staged {A : Type} s (p : sys A) k o : run (staged s p) k o → ∃ tr, run p tr o ∧ k = tag s <$> tr.
Proof.
  revert k. induction p as [a|op j IH|]; intros k Hr; cbn in Hr.
  - destruct Hr as [-> Ho]. by exists [].
  - destruct Hr as [[-> ->]|(x & k' & -> & Hr)]; [exists []; split; [by left|done]|].
    destruct (IH _ _ Hr) as (tr & Htr & ->). exists (Event op x :: tr). split; [right; by eauto|done].
  - destruct Hr as [-> Ho]. by exists [].
Qed.

Section fates.
  Variables (show_path : path → string) (home : option path) (config : RoomsConfig) (fuel : nat).

(** The same clone, in whatever state its machine's record is. *)
Definition same_clone (a b : Restored) : Prop :=
  vm_child (rs_vm a) = vm_child (rs_vm b) ∧ rs_room_id a = rs_room_id b ∧ rs_snapshot_id a = rs_snapshot_id b ∧
  rs_slot a = rs_slot b ∧ rs_clone_net a = rs_clone_net b.

Definition finish_of (rs : Restored) : sys (result string unit) :=
  let net := net_index <$> rs_clone_net rs in
  finish_teardown show_path home config fuel (rs_room_id rs) (rs_snapshot_id rs) (slot_index (rs_slot rs)) net.

Definition finish_stage (rs : Restored) : stage :=
  FinishOf (rs_room_id rs) (rs_snapshot_id rs) (slot_index (rs_slot rs)) (net_index <$> rs_clone_net rs).

(** Its machine was shut down or dropped, and right after that the end of its
    restore went through: the room reaped, its network and lease given back, its
    intent cleared, as far as each succeeded. *)
Definition torn_by (rs : Restored) (r : result string unit) (h : list kevent) : Prop :=
  ∃ h1 k1 k2 h2, h = h1 ++ k1 ++ k2 ++ h2 ∧
    ((∃ r, ended (ShutdownOf (rs_vm rs)) (shutdown show_path fuel (rs_vm rs)) r k1) ∨
     ended (DropOf (rs_vm rs)) (vm_drop show_path fuel (rs_vm rs)) () k1) ∧
    ended (finish_stage rs) (finish_of rs) r k2.

Definition torn (rs : Restored) (h : list kevent) : Prop := ∃ rs' r, same_clone rs rs' ∧ torn_by rs' r h.

Definition gone (c : CloneCustody) (h : list kevent) : Prop := ∀ rs, cu_restored c = Some rs → torn rs h.

(** [rooms kill] was run on the room, to its end. *)
Definition killed (room_id : string) (h : list kevent) : Prop :=
  ∃ h1 k h2 r, h = h1 ++ k ++ h2 ∧ ended (KillOf room_id) (kill show_path home config fuel room_id) r k.

(** The network of the allocation was given back. *)
Definition freed (a : AllocatedClone) (h : list kevent) : Prop :=
  ∀ net, ac_network a = Some net → ∃ x, Event (KFreeNetwork (ac_state_base a) (net_index net) (ac_room_id a)) x ∈ h.

Lemma same_clone_refl rs : same_clone rs rs.
Proof using Type. by repeat split. Qed.

#[global] Instance torn_monotone rs : Monotone (torn rs).
Proof using Type.
  intros h k (rs' & r & Hs & h1 & k1 & k2 & h2 & -> & H1 & H2). exists rs', r. split; [done|]. exists h1, k1, k2, (h2 ++ k).
  split; [by rewrite <- !(assoc_L (++))|done].
Qed.

#[global] Instance gone_monotone c : Monotone (gone c).
Proof using Type. intros h k H rs Hrs. by apply torn_monotone, H. Qed.

#[global] Instance killed_monotone room_id : Monotone (killed room_id).
Proof using Type.
  intros h j (h1 & k & h2 & r & -> & H). exists h1, k, (h2 ++ j), r. split; [by rewrite <- !(assoc_L (++))|done].
Qed.

#[global] Instance freed_monotone a : Monotone (freed a).
Proof using Type. intros h k H net Hn. destruct (H net Hn) as [x Hx]. exists x. apply elem_of_app. by left. Qed.

(** ** Ends *)

(** Neither starting nor joining a task, nor printing. *)
Definition plain (op : kop) : Prop :=
  match op with KSpawn _ _ | KJoin _ | KJoinOrSignal _ | KBoth _ _ | KBothOrSignal _ _ | KPrint _ => False | _ => True end.

(** Nothing of another component is run. *)
Definition untouched (h : list kevent) : Prop := all_calls (λ op, match op with KSys _ _ => False | _ => True end) h.

  Context (R : list kevent → kop → Prop) (R_plain : ∀ h op, plain op → R h op).

Lemma spec_staged {A : Type} s (p : sys A) h (Q : A → list kevent → Prop) :
  (∀ a k, ended s p a k → Q a (h ++ k)) → spec R (staged s p) h Q.
Proof using R_plain.
  intros HQ. eapply (only_traced (λ op, ∃ o, op = KSys s o)).
  - apply (only_translate (λ _, True)); [apply only_any|]. intros op _. split; [by eexists|done].
  - intros k op _ [o ->]. by apply R_plain.
  - intros a k _ Hr. apply run_staged in Hr as (tr & Hr & ->). apply HQ. by exists tr.
Qed.

Lemma spec_finish_clone rs r h1 k1 h (Q : result string unit → list kevent → Prop) :
  h = h1 ++ k1 →
  ((∃ r, ended (ShutdownOf (rs_vm rs)) (shutdown show_path fuel (rs_vm rs)) r k1) ∨
   ended (DropOf (rs_vm rs)) (vm_drop show_path fuel (rs_vm rs)) () k1) → same_clone r rs →
  (∀ a h', torn r h' → Q a h') → spec R (finish_clone show_path home config fuel rs) h Q.
Proof using R_plain.
  intros -> H1 Hs HQ. unfold finish_clone. apply spec_staged. intros a k Hk. apply HQ. exists rs, a. split; [exact Hs|].
  exists h1, k1, k, []. rewrite (right_id_L [] (++)). split; [by rewrite <- (assoc_L (++))|done].
Qed.

Lemma spec_teardown_restored rs h :
  spec R (teardown_restored_clone show_path home config fuel rs) h (λ _ h', torn rs h').
Proof using R_plain.
  unfold teardown_restored_clone. apply spec_bind, spec_staged. intros down k Hk. apply spec_bind.
  eapply (spec_finish_clone rs rs h k); [done|left; by exists down|apply same_clone_refl|]. by intros a h' Ht.
Qed.

Lemma spec_custody_teardown c h : spec R (custody_teardown show_path home config fuel c) h (λ _ h', gone c h').
Proof using R_plain.
  unfold custody_teardown, custody_restored, gone. destruct (cu_restored c) as [rs|]; cbn [ok_or]; [|done].
  eapply spec_mono; [apply spec_teardown_restored|]. by intros a h' Ht rs' [= <-].
Qed.

Lemma spec_custody_drop c h : spec R (custody_drop show_path home config fuel c) h (λ _ h', gone c h').
Proof using R_plain.
  unfold custody_drop, gone. destruct (cu_restored c) as [rs|]; [|done].
  apply spec_bind, spec_staged. intros [] k Hk. apply spec_bind.
  eapply (spec_finish_clone rs rs h k); [done|by right|apply same_clone_refl|]. by intros a h' Ht rs' [= <-].
Qed.

Definition all_gone (l : list CloneCustody) (h : list kevent) : Prop := ∀ c, c ∈ l → gone c h.

#[local] Instance all_gone_monotone l : Monotone (all_gone l).
Proof using Type. intros h k H c Hc. by apply gone_monotone, H. Qed.

Lemma spec_drop_custodies l h : spec R (drop_custodies show_path home config fuel l) h (λ _ h', all_gone l h').
Proof using R_plain.
  unfold drop_custodies. apply spec_bind. revert h. induction l as [|c l IH]; intros h; cbn [pfor_each]; [by intros c ?%elem_of_nil|].
  apply spec_bind. eapply spec_mono; [apply spec_custody_drop|]. intros u h1 Hc. apply spec_bind.
  eapply spec_mono; [apply (spec_keep _ _ _ (gone c) (λ _ h', all_gone l h') Hc), IH|]. intros us h2 [Hc2 Hl] c' [->|Hin]%elem_of_cons; [done|by apply Hl].
Qed.

Lemma spec_teardown_each display l h : spec R (teardown_each show_path home config fuel display l) h (λ _ h', all_gone l h').
Proof using R_plain.
  revert h. induction l as [|c l IH]; intros h; cbn [teardown_each]; [by intros c ?%elem_of_nil|].
  apply spec_bind. eapply spec_mono; [apply spec_custody_teardown|]. intros down h1 Hc. apply spec_bind.
  eapply spec_mono; [apply (spec_keep _ _ _ (gone c) (λ _ h', all_gone l h') Hc), IH|]. intros errors h2 [Hc2 Hl] c' [->|Hin]%elem_of_cons; [done|by apply Hl].
Qed.

Lemma insert_by_key_perm {A : Type} (key : A → nat) x l : insert_by_key key x l ≡ₚ x :: l.
Proof using Type.
  induction l as [|y l IH]; cbn [insert_by_key]; [done|]. destruct (_ <=? _); [done|]. by rewrite IH, Permutation_swap.
Qed.

Lemma sort_by_index_perm {A : Type} (key : A → N) l : sort_by_index key l ≡ₚ l.
Proof using Type.
  unfold sort_by_index. induction l as [|x l IH]; cbn [sort_by_key]; [done|]. by rewrite insert_by_key_perm, IH.
Qed.

Lemma spec_teardown_custody display l h : spec R (teardown_clone_custody show_path home config fuel display l) h (λ _ h', all_gone l h').
Proof using R_plain.
  eapply spec_mono; [apply spec_teardown_each|]. intros errors h' H c Hc. apply H. unfold sort_custody. by rewrite sort_by_index_perm.
Qed.

(** Recording reads the clock of a lifecycle only. *)
Lemma only_custody_record c status code : only plain (custody_record c status code).
Proof using Type. unfold custody_record. only_walk. Qed.

#[local] Hint Resolve only_custody_record : only.

Lemma only_records display l status code : only plain (clone_custody_records display l status code).
Proof using Type.
  unfold clone_custody_records. apply only_bind; [|by intros []].
  induction l as [|c l IH]; cbn [record_each]; [done|]. only_walk.
Qed.

Lemma spec_plain {A : Type} (p : kprog A) h : only plain p → spec R p h (λ _ _, True).
Proof using R_plain. intros Hp. eapply only_spec; [exact Hp| |done]. intros k op _. apply R_plain. Qed.

Lemma spec_cleanup_partial display l original h :
  spec R (cleanup_partial_restore show_path home config fuel display l original) h (λ _ h', all_gone l h').
Proof using R_plain. unfold cleanup_partial_restore. apply spec_bind, spec_teardown_custody. Qed.

Lemma spec_cleanup_failure display l failures h :
  spec R (cleanup_restore_batch_failure show_path home config fuel display l failures) h (λ _ h', all_gone l h').
Proof using R_plain.
  unfold cleanup_restore_batch_failure. apply spec_bind. eapply spec_mono; [apply spec_plain, only_records|].
  intros [records fails] h1 _. apply spec_bind, spec_teardown_custody.
Qed.

Lemma spec_cancel display l signal prior h :
  spec R (cancel_clone_custody show_path home config fuel display l signal prior) h
    (λ e h', all_gone l h' ∧ ∃ c, e = BatchCancelled c ∧ cc_signal c = signal).
Proof using R_plain.
  unfold cancel_clone_custody. apply spec_bind. eapply spec_mono; [apply spec_plain, only_records|].
  intros [records fails] h1 _. apply spec_bind. eapply spec_mono; [apply spec_teardown_custody|]. intros errors h2 Hg.
  split; [exact Hg|]. by eexists.
Qed.
(** ** Keeping *)

(** The record names the custody's room. *)
Definition records_of (c : CloneCustody) (records : list CloneRecord) : Prop :=
  ∃ rs record, cu_restored c = Some rs ∧ record ∈ records ∧ rec_room_id record = rs_room_id rs.

Lemma spec_custody_record c status code h :
  spec R (custody_record c status code) h (λ r _, ∀ record, r = Ok record → records_of c [record]).
Proof using R_plain.
  unfold custody_record, custody_restored. apply spec_try, spec_ret.
  destruct (cu_restored c) as [rs|] eqn:Hc; cbn [ok_or rbind]; [|done]. unfold from_ready.
  destruct (rs_clone_net rs) as [net|]; cbn [ok_or rbind]; [|done]. apply spec_bind, spec_call; [by apply R_plain|].
  intros timing. apply spec_ret. intros record [= <-]. exists rs. eexists. split; [done|]. split; [by apply list_elem_of_singleton|done].
Qed.

Lemma records_of_mono c l l' : (∀ x, x ∈ l → x ∈ l') → records_of c l → records_of c l'.
Proof using Type. intros H (rs & rec & H1 & H2 & H3). exists rs, rec. auto. Qed.

Lemma spec_records_kept l h :
  spec R (ptry_each (λ c, custody_record c "kept" None) l) h (λ r _, ∀ records c, r = Ok records → c ∈ l → records_of c records).
Proof using R_plain.
  revert h. induction l as [|c l IH]; intros h; cbn [ptry_each]; [by intros records c' _ ?%elem_of_nil|].
  apply spec_try. eapply spec_mono; [apply spec_custody_record|]. intros [record|e] h1 Hr; [|done].
  apply spec_try. eapply spec_mono; [apply IH|]. intros [records|e] h2 Hrs; [|done].
  intros ? c' [= <-] [->|Hc]%elem_of_cons.
  - eapply records_of_mono, Hr; [|done]. intros x ->%list_elem_of_singleton. by left.
  - eapply records_of_mono, (Hrs _ c' eq_refl Hc). intros x Hx. by right.
Qed.

Lemma preserve_each_all l records : (∀ c, c ∈ l → records_of c records) → preserve_each show_path home config fuel l = Ret (Ok ()).
Proof using Type.
  intros H. induction l as [|c l IH]; cbn [preserve_each]; [done|]. destruct (H c ltac:(by left)) as (rs & rec & Hc & _).
  unfold preserve, custody_restored. rewrite Hc. cbn [ok_or rbind]. apply IH. intros c' Hc'. apply H. by right.
Qed.

Lemma only_untouched_record c status code : only (λ op, ∃ l, op = KReadiness l) (custody_record c status code).
Proof using Type. unfold custody_record. apply only_try; [done|]. intros record. split; [by eexists|]. by intros timing. Qed.

(** Either every machine was left running, each with its record, or every one is ended. *)
Lemma spec_preserve l h :
  spec R (preserve_clone_batch show_path home config fuel l) h
    (λ r h', match r with
             | Ok records => (∀ c, c ∈ l → records_of c records) ∧ ∃ k, h' = h ++ k ∧ untouched k
             | Err _ => all_gone l h'
             end).
Proof using R_plain.
  unfold preserve_clone_batch. apply spec_bind. eapply spec_mono.
  { apply (spec_only (λ op, ∃ l, op = KReadiness l)); [|apply spec_records_kept].
    apply only_try_each. intros c _. apply only_untouched_record. }
  intros [records|e] h1 (Hr & k & -> & Hk).
  - apply spec_try. rewrite (preserve_each_all l records) by (intros c Hc; by apply Hr). cbn [spec]. split.
    + intros c Hc. eapply records_of_mono, (Hr _ c eq_refl Hc). intros x Hx. unfold sort_records. by rewrite sort_by_index_perm.
    + exists k. split; [done|]. intros ev Hev. destruct (Hk ev Hev) as [r E]. by rewrite E.
  - apply spec_bind. eapply spec_mono; [apply spec_drop_custodies|]. by intros u h2 H.
Qed.

Lemma spec_kill_record record h :
  spec R (staged (KillOf (rec_room_id record)) (kill show_path home config fuel (rec_room_id record))) h
    (λ _ h', killed (rec_room_id record) h').
Proof using R_plain. apply spec_staged. intros r k Hk. exists h, k, [], r. by rewrite (right_id_L [] (++)). Qed.

Lemma spec_reap records h :
  spec R (reap_preserved_clones show_path home config fuel records) h (λ _ h', ∀ record, record ∈ records → killed (rec_room_id record) h').
Proof using R_plain.
  unfold reap_preserved_clones. apply spec_bind. revert h. induction records as [|record l IH]; intros h; cbn [pfor_each].
  { intros record Hin. by apply elem_of_nil in Hin. }
  apply spec_bind, spec_bind. eapply spec_mono; [apply spec_kill_record|]. intros r h1 Hk. apply spec_ret, spec_bind.
  eapply spec_mono.
  { apply (spec_keep _ _ _ (killed (rec_room_id record)) (λ _ h', ∀ record, record ∈ l → killed (rec_room_id record) h') Hk), IH. }
  intros us h2 [Hk2 Hl] record' [->|Hin]%elem_of_cons; [exact Hk2|by apply Hl].
Qed.

(** Killed as the record's room. *)
Definition killed_clone (c : CloneCustody) (h : list kevent) : Prop := ∃ rs, cu_restored c = Some rs ∧ killed (rs_room_id rs) h.

#[global] Instance killed_clone_monotone c : Monotone (killed_clone c).
Proof using Type. intros h k (rs & Hc & Hk). exists rs. split; [done|by apply killed_monotone]. Qed.

Lemma reaped_clones (l : list CloneCustody) records h :
  (∀ c, c ∈ l → records_of c records) → (∀ record, record ∈ records → killed (rec_room_id record) h) →
  ∀ c, c ∈ l → killed_clone c h.
Proof using Type. intros Hl Hk c Hc. destruct (Hl c Hc) as (rs & rec & Hr & Hin & E). exists rs. split; [done|]. rewrite <- E. by apply Hk. Qed.

(** ** Workers *)

Lemma spec_free a h : spec R (free_network a) h (λ _ h', freed a h').
Proof using R_plain.
  unfold free_network, freed. destruct (ac_network a) as [net|]; [|done]. apply spec_bind, spec_call; [by apply R_plain|].
  intros x net' [= <-]. exists x. apply elem_of_app. right. by apply list_elem_of_singleton.
Qed.

Lemma spec_drop_allocations l h : spec R (drop_allocations l) h (λ _ h', ∀ a, a ∈ l → freed a h').
Proof using R_plain.
  unfold drop_allocations. apply spec_bind. revert h. induction l as [|a l IH]; intros h; cbn [pfor_each].
  { intros a Hin. by apply elem_of_nil in Hin. }
  apply spec_bind. eapply spec_mono; [apply spec_free|]. intros u h1 Ha. apply spec_bind.
  eapply spec_mono; [apply (spec_keep _ _ _ (freed a) (λ _ h', ∀ a, a ∈ l → freed a h') Ha), IH|].
  intros us h2 [Ha2 Hl] a' [->|Hin]%elem_of_cons; [exact Ha2|by apply Hl].
Qed.

(** A run's program makes plain calls, whatever it returns. *)
Lemma spec_running {A : Type} l (p : xprog A) (P : A → Prop) h (Q : A → list kevent → Prop) :
  returns P p → (∀ a h', P a → Q a h') → spec R (running l p) h Q.
Proof using R_plain.
  intros Hp HQ. eapply (only_traced plain).
  - apply (only_translate (λ _, True)); [apply only_any|]. intros op _. by split.
  - intros k op _. apply R_plain.
  - intros a k _ Hr. apply HQ. refine (returns_run _ _ _ _ _ Hr). by apply returns_translate.
Qed.

(** *** The calls of these programs *)

Lemma only_staged {A : Type} st (p : sys A) : only plain (staged st p).
Proof using Type. apply (only_translate (λ _, True)); [apply only_any|]. intros op _. by split. Qed.

Lemma only_running {A : Type} l (p : xprog A) : only plain (running l p).
Proof using Type. apply (only_translate (λ _, True)); [apply only_any|]. intros op _. by split. Qed.

Lemma only_own {A : Type} (p : xprog A) : only plain (own p).
Proof using Type. apply only_running. Qed.

#[local] Hint Resolve only_staged only_running only_own only_records : only.

Lemma only_teardown_restored rs : only plain (teardown_restored_clone show_path home config fuel rs).
Proof using Type. unfold teardown_restored_clone, finish_clone. only_walk. Qed.

Lemma only_custody_drop c : only plain (custody_drop show_path home config fuel c).
Proof using Type. unfold custody_drop, finish_clone. only_walk. Qed.

#[local] Hint Resolve only_teardown_restored only_custody_drop : only.

Lemma only_drop_custodies l : only plain (drop_custodies show_path home config fuel l).
Proof using Type. unfold drop_custodies. only_walk. Qed.

Lemma only_teardown_each display l : only plain (teardown_each show_path home config fuel display l).
Proof using Type. induction l as [|c l IH]; cbn [teardown_each]; [done|]. unfold custody_teardown. only_walk. Qed.

#[local] Hint Resolve only_teardown_each only_drop_custodies : only.

Lemma only_cleanup_partial display l original : only plain (cleanup_partial_restore show_path home config fuel display l original).
Proof using Type. unfold cleanup_partial_restore, teardown_clone_custody. only_walk. Qed.

Lemma only_cleanup_failure display l failures : only plain (cleanup_restore_batch_failure show_path home config fuel display l failures).
Proof using Type. unfold cleanup_restore_batch_failure, teardown_clone_custody. only_walk. Qed.

Lemma only_cancel display l signal prior : only plain (cancel_clone_custody show_path home config fuel display l signal prior).
Proof using Type. unfold cancel_clone_custody, teardown_clone_custody. only_walk. Qed.

Lemma only_preserve_each l : only plain (preserve_each show_path home config fuel l).
Proof using Type. induction l as [|c l IH]; cbn [preserve_each]; [done|]. only_walk. Qed.

#[local] Hint Resolve only_preserve_each only_custody_record : only.

Lemma only_preserve l : only plain (preserve_clone_batch show_path home config fuel l).
Proof using Type. unfold preserve_clone_batch. only_walk. Qed.

Lemma only_reap records : only plain (reap_preserved_clones show_path home config fuel records).
Proof using Type. unfold reap_preserved_clones. apply only_bind; [|done]. apply only_for_each. intros r _. only_walk. Qed.

Lemma only_free a : only plain (free_network a).
Proof using Type. unfold free_network. only_walk. Qed.

#[local] Hint Resolve only_free : only.

Lemma only_drop_allocations l : only plain (drop_allocations l).
Proof using Type. unfold drop_allocations. only_walk. Qed.

End fates.
