(* ===== verification/CloneOrder.v ===== *)
(** * CloneOrder: a batch of clones leaves none behind

    What the workers of a batch come to, what the batch's own program does with
    what they came to, and, for the two together, that every clone that was
    restored is ended, killed, or kept by a batch that committed to keep it. *)

From S2P Require Import Prelude RStr Fs Room IndexedClaim Slot CloneRoutes CloneNet Egress Registry Pcap Artifacts Matrix Lifecycle Prog Config Snapshot Intents Sys Teardown Images Launch Boot RestoreSource RestoreTeardown RestoreExec Runner Returns Doctor Witness Cli Run CloneRecords CloneBatch CloneFates.
From stdpp Require Import options.

Lemma returns_collected show_path show_status show_int_error show_changeset show_witness env action slot pcap out_dir vm :
  returns (λ r, fst r = without_witness vm)
    (collect_run_artifacts show_path show_status show_int_error show_changeset show_witness env action slot pcap out_dir vm).
Proof.
  unfold collect_run_artifacts. eapply returns_bind; [apply returns_any|]. intros [created collection] _.
  eapply returns_bind; [apply returns_any|]. intros witnessed _.
  eapply returns_bind; [apply returns_any|]. intros [created' witness] _.
  eapply returns_bind; [apply returns_any|]. intros root _. eapply returns_bind; [apply returns_any|]. by intros ownership _.
Qed.

(** ** The histories of a batch *)

#[global] Instance kind_eq_dec : EqDecision kind.
Proof. solve_decision. Defined.

Abbreviation any_job := {k : kind & job k} (only parsing).
Abbreviation any_join := {k : kind & (N * result JoinError (out k))%type} (only parsing).

(** The tasks spawned, by their ids. *)
Definition spawn_of (e : kevent) : option (N * any_job) :=
  match e with
  | Event op x => match op return kans op → option (N * any_job) with KSpawn k j => λ id, Some (id, existT k j) | _ => λ _, None end x
  end.

Definition spawns (h : list kevent) : list (N * any_job) := omap spawn_of h.

(** What the joins answered. *)
Definition join_of (e : kevent) : option any_join :=
  match e with
  | Event op x =>
      match op return kans op → option any_join with
      | KJoin k => λ joined, match joined with Some j => Some (existT k j) | None => None end
      | KJoinOrSignal k => λ raced, match raced with inr (Some j) => Some (existT k j) | _ => None end
      | _ => λ _, None
      end x
  end.

Definition joins (h : list kevent) : list any_join := omap join_of h.

(** The join found the set empty. *)
Definition empty_join (k : kind) (e : kevent) : Prop :=
  e = Event (Ans := kans) (KJoin k) None ∨ e = Event (Ans := kans) (KJoinOrSignal k) (inr None).

Definition spawned_ids (k : kind) (h : list kevent) : list N :=
  omap (λ s : N * any_job, if decide (projT1 (snd s) = k) then Some (fst s) else None) (spawns h).

Definition joined_ids (k : kind) (h : list kevent) : list N :=
  omap (λ j : any_join, if decide (projT1 j = k) then Some (fst (projT2 j)) else None) (joins h).

(** The set was found empty, and nothing was added to it after that. *)
Definition exhausted (k : kind) (h : list kevent) : Prop := ∃ h1 e h2, h = h1 ++ e :: h2 ∧ empty_join k e ∧ spawned_ids k h2 = [].

(** What the restores came to. *)
Definition restore_result (j : any_join) : option (result JoinError (result CloneFailure CloneCustody)) :=
  match j with existT RestoreTask j => Some (snd j) | _ => None end.

Definition restore_results (h : list kevent) : list (result JoinError (result CloneFailure CloneCustody)) :=
  omap restore_result (joins h).

Definition custody_in (r : result JoinError (result CloneFailure CloneCustody)) : option CloneCustody :=
  match r with Ok (Ok c) => Some c | _ => None end.

(** The clones the batch was handed. *)
Definition custodies (h : list kevent) : list CloneCustody := omap custody_in (restore_results h).

(** Each restore that was joined came to a clone. *)
Definition all_restored (h : list kevent) : Prop := Forall (λ r, is_Some (custody_in r)) (restore_results h).

(** As many tasks were joined as were spawned, or none is left. *)
Definition complete (k : kind) (h : list kevent) : Prop :=
  length (joined_ids k h) = length (spawned_ids k h) ∨ exhausted k h.

(** The allocations the batch was given. *)
Definition given_allocations (ended : both) : list AllocatedClone := match snd ended with Ok (Ok l) => l | _ => [] end.

Definition allocations_of (e : kevent) : list AllocatedClone :=
  match e with
  | Event op x =>
      match op return kans op → list AllocatedClone with
      | KBoth _ _ => given_allocations
      | KBothOrSignal _ _ => λ raced, match raced with inr ended => given_allocations ended | inl _ => [] end
      | _ => λ _, []
      end x
  end.

Definition allocated (h : list kevent) : list AllocatedClone := h ≫= allocations_of.

(** The signals' owner agreed that the batch is over. *)
Definition committed (h : list kevent) : Prop := Event (Ans := kans) (KRun None XCommit) (Ok None) ∈ h.

Definition restoring (a : AllocatedClone) (h : list kevent) : Prop :=
  ∃ id prepared workload out_dir lifecycle, Event (Ans := kans) (KSpawn RestoreTask (JRestore prepared a workload out_dir lifecycle)) id ∈ h.

Definition commanded (c : CloneCustody) (h : list kevent) : Prop := ∃ id, Event (Ans := kans) (KSpawn CommandTask (JCommand c)) id ∈ h.

Lemma spawns_app h k : spawns (h ++ k) = spawns h ++ spawns k.
Proof. apply omap_app. Qed.
Lemma joins_app h k : joins (h ++ k) = joins h ++ joins k.
Proof. apply omap_app. Qed.
Lemma spawned_ids_app kd h k : spawned_ids kd (h ++ k) = spawned_ids kd h ++ spawned_ids kd k.
Proof. unfold spawned_ids. by rewrite spawns_app, omap_app. Qed.
Lemma joined_ids_app kd h k : joined_ids kd (h ++ k) = joined_ids kd h ++ joined_ids kd k.
Proof. unfold joined_ids. by rewrite joins_app, omap_app. Qed.
Lemma restore_results_app h k : restore_results (h ++ k) = restore_results h ++ restore_results k.
Proof. unfold restore_results. by rewrite joins_app, omap_app. Qed.
Lemma custodies_app h k : custodies (h ++ k) = custodies h ++ custodies k.
Proof. unfold custodies. by rewrite restore_results_app, omap_app. Qed.
Lemma allocated_app h k : allocated (h ++ k) = allocated h ++ allocated k.
Proof. apply bind_app. Qed.


Lemma exhausted_keeps k h j : spawned_ids k j = [] → exhausted k h → exhausted k (h ++ j).
Proof.
  intros Hj (h1 & e & h2 & -> & He & H2). exists h1, e, (h2 ++ j). rewrite <- (assoc_L (++)). split; [done|]. split; [done|].
  by rewrite spawned_ids_app, H2.
Qed.

Lemma exhausted_after k h j : exhausted k j → exhausted k (h ++ j).
Proof. intros (h1 & e & h2 & -> & He & H2). exists (h ++ h1), e, h2. by rewrite <- (assoc_L (++)). Qed.

Lemma exhausted_last k h e : empty_join k e → exhausted k (h ++ [e]).
Proof. intros He. exists h, e, []. by split. Qed.

#[global] Instance committed_monotone : Monotone committed.
Proof. intros h j H. apply elem_of_app. by left. Qed.
#[global] Instance restoring_monotone a : Monotone (restoring a).
Proof. intros h j (id & p & w & o & l & H). exists id, p, w, o, l. apply elem_of_app. by left. Qed.
#[global] Instance commanded_monotone c : Monotone (commanded c).
Proof. intros h j (id & H). exists id. apply elem_of_app. by left. Qed.

(** ** The rules of a batch *)

(** No task that was spawned for a clone still runs. *)
Definition settled (h : list kevent) : Prop := complete RestoreTask h ∧ complete ProbeTask h ∧ complete CommandTask h.

(** The batch's own program: a restore is only started for what was allocated, a
    probe or a command only when every restore of the batch came to a clone;
    nothing of a clone is torn down while a task of the batch may still run; and a
    fleet is only reported once the signals' owner agreed that the batch is over. *)
Definition batch_allows (h : list kevent) (op : kop) : Prop :=
  match op with
  | KSpawn _ j =>
      match j with
      | JRestore _ a _ _ _ => a ∈ allocated h
      | JProbe _ => all_restored h ∧ complete RestoreTask h
      | JCommand c => all_restored h ∧ complete RestoreTask h ∧ c ∈ custodies h
      | _ => True
      end
  | KSys _ _ => settled h
  | KPrint _ => committed h
  | _ => True
  end.

(** What plain calls leave as it is. *)
Lemma plain_keeps kd (k : list kevent) : all_calls plain k →
  joined_ids kd k = [] ∧ spawned_ids kd k = [] ∧ restore_results k = [] ∧ allocated k = [].
Proof.
  intros Hk. induction k as [|e k IH]; [done|].
  destruct IH as (H1 & H2 & H3 & H4); [intros e' He'; apply Hk; by right|].
  assert (He : plain (ev_op e)) by (apply Hk; by left).
  assert (Hc : joined_ids kd [e] = [] ∧ spawned_ids kd [e] = [] ∧ restore_results [e] = [] ∧ allocated [e] = []).
  { by destruct e as [[] x]. }
  destruct Hc as (C1 & C2 & C3 & C4).
  change (e :: k) with ([e] ++ k). by rewrite restore_results_app, joined_ids_app, spawned_ids_app, allocated_app, C1, C2, C3, C4, H1, H2, H3, H4.
Qed.

Lemma complete_same kd h k : joined_ids kd k = [] → spawned_ids kd k = [] → complete kd h → complete kd (h ++ k).
Proof.
  intros Hj Hs [H|H]; [left|right; by apply exhausted_keeps].
  by rewrite joined_ids_app, spawned_ids_app, Hj, Hs, !(right_id_L [] (++)).
Qed.

Lemma settled_plain h (k : list kevent) : all_calls plain k → settled h → settled (h ++ k).
Proof. intros Hk (H1 & H2 & H3). repeat split; (apply complete_same; [by apply plain_keeps..|done]). Qed.

(** Ending clones, once no task runs. *)
Lemma spec_settled {A : Type} (p : kprog A) h (Q : A → list kevent → Prop) :
  only plain p → settled h → spec (λ _ _, True) p h Q →
  spec batch_allows p h (λ a h', Q a h' ∧ ∃ k, h' = h ++ k ∧ all_calls plain k).
Proof.
  intros Hp Hh HQ. eapply spec_refine; [exact Hp|exact HQ|]. intros k op Hk Hop _.
  destruct op as [| | | | | | | |k0 j| | | |]; try done. by apply settled_plain.
Qed.

(** Plain calls of no component. *)
Definition calm (op : kop) : Prop := match op with KSys _ _ => False | op => plain op end.

Lemma spec_batch_calm {A : Type} (p : kprog A) h (Q : A → list kevent → Prop) :
  only calm p → (∀ a k, all_calls calm k → run p k (Some a) → Q a (h ++ k)) → spec batch_allows p h Q.
Proof. intros Hp HQ. eapply only_traced; [exact Hp| |exact HQ]. intros k op _ Hop. by destruct op. Qed.

Lemma calm_plain (k : list kevent) : all_calls calm k → all_calls plain k.
Proof. intros Hk e He. specialize (Hk e He). by destruct (ev_op e). Qed.

Lemma calm_untouched (k : list kevent) : all_calls calm k → untouched k.
Proof. intros Hk e He. specialize (Hk e He). by destruct (ev_op e). Qed.

Lemma only_calm_running {A : Type} l (p : xprog A) : only calm (running l p).
Proof. apply (only_translate (λ _, True)); [apply only_any|]. intros op _. by split. Qed.

Lemma only_calm_own {A : Type} (p : xprog A) : only calm (own p).
Proof. apply only_calm_running. Qed.

#[export] Hint Resolve only_calm_running only_calm_own : only.

(** ** Joins *)

Definition join_op (kd : kind) (op : kop) : Prop := op = KJoin kd ∨ op = KJoinOrSignal kd.

Lemma join_keeps kd (k : list kevent) : all_calls (join_op kd) k →
  (∀ kd', spawned_ids kd' k = []) ∧ allocated k = [] ∧ untouched k ∧ (∀ kd', kd' ≠ kd → joined_ids kd' k = []) ∧
  (kd ≠ RestoreTask → restore_results k = []).
Proof.
  intros Hk. assert (Hu : untouched k) by (intros e He; destruct (Hk e He) as [E|E]; by rewrite E).
  induction k as [|e k IH]; [done|].
  destruct IH as (H1 & H2 & _ & H3 & H4); [intros e' He'; apply Hk; by right|intros e' He'; apply Hu; by right|].
  assert (He : join_op kd (ev_op e)) by (apply Hk; by left). change (e :: k) with ([e] ++ k).
  destruct e as [op x]; cbn in He. destruct He as [-> | ->]; cbn in x.
  - split; [intros kd'; rewrite spawned_ids_app, H1; done|]. split; [rewrite allocated_app, H2; done|]. split; [exact Hu|].
    split; [intros kd' Hne; rewrite joined_ids_app, H3 by done; destruct x as [[id j]|]; [|done]; unfold joined_ids, joins; cbn; by rewrite decide_False|].
    intros Hr. rewrite restore_results_app, H4 by done. destruct x as [[id j]|]; [|done]. by destruct kd.
  - split; [intros kd'; rewrite spawned_ids_app, H1; done|]. split; [rewrite allocated_app, H2; done|]. split; [exact Hu|].
    split; [intros kd' Hne; rewrite joined_ids_app, H3 by done; destruct x as [?|[[id j]|]]; [done| |done]; unfold joined_ids, joins; cbn; by rewrite decide_False|].
    intros Hr. rewrite restore_results_app, H4 by done. destruct x as [?|[[id j]|]]; [done| |done]. by destruct kd.
Qed.

Lemma spec_next_join kd cancelled h (Q : _ → list kevent → Prop) :
  (∀ c r k, all_calls (join_op kd) k → joins k = match r with Some j => [existT kd j] | None => [] end →
     (r = None → exhausted kd k) → (c = None → cancelled = None) → Q (c, r) (h ++ k)) →
  spec batch_allows (next_join kd cancelled) h Q.
Proof.
  intros HQ.
  assert (H1 : ∀ (x : option (N * result JoinError (out kd))), all_calls (join_op kd) [Event (Ans := kans) (KJoin kd) x]).
  { intros x e ->%list_elem_of_singleton. by left. }
  destruct cancelled as [signal|]; cbn [next_join].
  - apply spec_bind. split; [exact I|]. intros x. apply spec_ret, spec_ret, HQ; [apply H1|by destruct x as [[]|]| |done].
    intros ->. apply (exhausted_last _ []). by left.
  - apply spec_bind. split; [exact I|]. intros [signal|x]; apply spec_ret.
    + apply spec_bind. split; [exact I|]. intros x. apply spec_ret, spec_ret. rewrite <- (assoc_L (++)). apply HQ; [|by destruct x as [[]|]| |done].
      * intros e [->%list_elem_of_singleton|He]%elem_of_app; [by right|by apply (H1 x)].
      * intros ->. apply exhausted_last. by left.
    + apply spec_ret, HQ; [intros e ->%list_elem_of_singleton; by right|by destruct x as [[]|]| |done].
      intros ->. apply (exhausted_last _ []). by right.
Qed.

Lemma joins_one kd id (x : result JoinError (out kd)) k : joins k = [existT kd (id, x)] → joined_ids kd k = [id].
Proof. intros E. unfold joined_ids. rewrite E. cbn. by rewrite decide_True. Qed.

(** A set is drained: its joins come to as many as are awaited, or find it empty. *)
Definition drained (kd : kind) (n : nat) (k : list kevent) : Prop :=
  all_calls (join_op kd) k ∧ (length (joined_ids kd k) = n ∨ exhausted kd k).

Lemma drained_step kd n id (x : result JoinError (out kd)) k k' :
  all_calls (join_op kd) k → joins k = [existT kd (id, x)] → drained kd n k' → drained kd (S n) (k ++ k').
Proof.
  intros Hk E [Hk' H]. split; [intros e [He|He]%elem_of_app; auto|]. destruct H as [H|H]; [left|right; by apply exhausted_after].
  rewrite joined_ids_app, (joins_one _ _ _ _ E), length_app, H. done.
Qed.

Lemma spec_collect_restores n ids ready failures cancelled h :
  spec batch_allows (collect_restores n ids ready failures cancelled) h (λ b h', ∃ k, h' = h ++ k ∧ drained RestoreTask n k ∧
    br_ready b ≡ₚ ready ++ custodies k ∧
    (br_failures b = [] → br_cancelled b = None → failures = [] ∧ cancelled = None ∧ all_restored k)).
Proof.
  revert ids ready failures cancelled h. induction n as [|n IH]; intros ids ready failures cancelled h; cbn [collect_restores].
  { exists []. rewrite !(right_id_L [] (++)). split; [done|]. split; [split; [by intros e ?%elem_of_nil|by left]|].
    split; [cbn; rewrite (right_id_L [] (++)); apply sort_by_index_perm|]. cbn. intros -> ->. repeat split. constructor. }
  apply spec_bind, spec_next_join. intros c [[id x]|] k Hk E Hnone Hc.
  - destruct (add_restore c ids id x ready failures) as [ready' failures'] eqn:Ha. eapply spec_mono; [apply IH|].
    assert (Hr : restore_results k = [x]) by (unfold restore_results; by rewrite E).
    intros b h' (k' & -> & Hd & Hp & Hf). exists (k ++ k'). rewrite (assoc_L (++)). split; [done|].
    split; [by eapply drained_step|]. unfold custodies in *. rewrite restore_results_app, omap_app, Hr. split.
    + rewrite Hp. destruct x as [[custody|failure]|[]]; destruct c; simplify_eq/=; by rewrite <- ?(assoc_L (++)).
    + intros H1 H2. destruct (Hf H1 H2) as (-> & -> & Ha').
      assert (Hx : failures = [] ∧ is_Some (custody_in x)).
      { destruct x as [[custody|failure]|[]]; simplify_eq/=; [done|by destruct failures..]. }
      destruct Hx as [-> Hx]. split; [done|]. split; [by apply Hc|]. unfold all_restored. rewrite restore_results_app, Hr.
      apply Forall_app. split; [by constructor|done].
  - apply spec_ret. exists k. split; [done|]. split; [split; [done|right; by apply Hnone]|].
    assert (Hr : restore_results k = []) by (unfold restore_results; by rewrite E). unfold custodies, all_restored. rewrite Hr.
    cbn. rewrite (right_id_L [] (++)). split; [apply sort_by_index_perm|]. intros -> ->. split; [done|]. split; [by apply Hc|constructor].
Qed.

(** ** Restoring *)

(** Starting tasks of a kind. *)
Definition spawning (kd : kind) (op : kop) : Prop := op = KMeasured ∨ ∃ j, op = KSpawn kd j.

Lemma spawning_keeps kd (k : list kevent) : all_calls (spawning kd) k →
  (∀ kd', joined_ids kd' k = []) ∧ (∀ kd', kd' ≠ kd → spawned_ids kd' k = []) ∧ restore_results k = [] ∧ allocated k = [] ∧ untouched k.
Proof.
  intros Hk. induction k as [|e k IH]; [by repeat split; intros e ?%elem_of_nil|].
  destruct IH as (H1 & H2 & H3 & H4 & H5); [intros e' He'; apply Hk; by right|].
  assert (He : spawning kd (ev_op e)) by (apply Hk; by left). change (e :: k) with ([e] ++ k).
  rewrite restore_results_app, allocated_app, H3, H4. destruct e as [op x]; cbn in He.
  assert (Hu : untouched ([Event op x] ++ k)).
  { intros e [->%list_elem_of_singleton|?]%elem_of_app; [|by apply H5]. by destruct He as [-> |[j ->]]. }
  destruct He as [-> |[j ->]]; (split; [intros kd'; by rewrite joined_ids_app, H1|]); (split; [|by repeat split]); intros kd' Hne;
    rewrite spawned_ids_app, H2 by done; [done|]. unfold spawned_ids, spawns. cbn. by rewrite decide_False.
Qed.

Lemma spec_spawn_restores args prepared l ids h :
  (∀ a, a ∈ l.*1 → a ∈ allocated h) →
  spec batch_allows (spawn_restores args prepared l ids) h (λ _ h', ∃ k, h' = h ++ k ∧ all_calls (spawning RestoreTask) k ∧
    (∀ a, a ∈ l.*1 → restoring a k) ∧ length (spawned_ids RestoreTask k) = length l).
Proof.
  revert ids h. induction l as [|[a w] l IH]; intros ids h Hl; cbn [spawn_restores].
  { exists []. rewrite (right_id_L [] (++)). split; [done|]. split; [by intros e ?%elem_of_nil|]. split; [|done].
    intros a Ha. by apply elem_of_nil in Ha. }
  apply spec_bind. split; [exact I|]. intros lifecycle. apply spec_ret, spec_bind.
  assert (Ha : ∀ a' k, a' ∈ (l.*1) ∨ a' = a → a' ∈ allocated (h ++ k)).
  { intros a' k Hin. rewrite allocated_app. apply elem_of_app. left. apply Hl. cbn. destruct Hin as [Hin| ->]; [by right|by left]. }
  split; [apply Ha; by right|]. intros id. apply spec_ret. rewrite <- (assoc_L (++)).
  eapply spec_mono; [apply IH; intros a' Hin; apply Ha; by left|]. intros ids' h' (k & -> & Hk & Hr & Hn).
  set (e1 := Event (Ans := kans) KMeasured lifecycle). set (j := JRestore _ _ _ _ _). set (e2 := Event (Ans := kans) (KSpawn RestoreTask j) id).
  exists ([e1; e2] ++ k). split; [by rewrite <- (assoc_L (++))|]. split.
  { intros e [He|He]%elem_of_app; [|by apply Hk]. apply elem_of_cons in He as [-> | ->%list_elem_of_singleton]; [by left|right; by exists j]. }
  split.
  - intros a' [->|Hin]%elem_of_cons; [|].
    + unfold j in e2. eexists id, prepared, w, _, lifecycle. apply elem_of_app. left. right. by left.
    + destruct (Hr a' Hin) as (i & p & w' & o & lc & Hi). exists i, p, w', o, lc. apply elem_of_app. by right.
  - rewrite spawned_ids_app, length_app, Hn. done.
Qed.

(** No task of the kind was started yet. *)
Definition unstarted (kd : kind) (h : list kevent) : Prop := joined_ids kd h = [] ∧ spawned_ids kd h = [].

(** What the batch has when its restores are over. *)
Definition restored_batch (b : CloneRestoreBatch) (h : list kevent) : Prop :=
  br_ready b ≡ₚ custodies h ∧ settled h ∧ untouched h ∧ (∀ a, a ∈ allocated h → freed a h ∨ restoring a h) ∧
  unstarted ProbeTask h ∧ unstarted CommandTask h ∧ (br_failures b = [] → br_cancelled b = None → all_restored h).

(** Before any restore. *)
Definition fresh (h : list kevent) : Prop :=
  restore_results h = [] ∧ untouched h ∧ ∀ kd, kd = RestoreTask ∨ kd = ProbeTask ∨ kd = CommandTask → unstarted kd h.

Lemma untouched_app h k : untouched h → untouched k → untouched (h ++ k).
Proof. intros Hh Hk e [He|He]%elem_of_app; [by apply Hh|by apply Hk]. Qed.

Lemma fresh_calm h k : fresh h → all_calls calm k → fresh (h ++ k).
Proof.
  intros (Hr & Hu & Hn) Hk. pose proof (λ kd, plain_keeps kd k (calm_plain k Hk)) as Hp. split; [|split].
  - rewrite restore_results_app, Hr. apply (Hp RestoreTask).
  - by apply untouched_app, calm_untouched.
  - intros kd Hkd. destruct (Hn kd Hkd) as [H1 H2], (Hp kd) as (P1 & P2 & _). unfold unstarted. by rewrite joined_ids_app, spawned_ids_app, H1, H2, P1, P2.
Qed.

Lemma fresh_settled h : fresh h → settled h.
Proof. intros (_ & _ & H). repeat split; left; (destruct (H RestoreTask), (H ProbeTask), (H CommandTask); eauto); congruence. Qed.

Lemma fresh_allocated_calm h k : all_calls calm k → allocated (h ++ k) = allocated h.
Proof. intros Hk. rewrite allocated_app. destruct (plain_keeps RestoreTask k (calm_plain k Hk)) as (_ & _ & _ & ->). apply (right_id_L [] (++)). Qed.

Lemma only_calm_free a : only calm (free_network a).
Proof. unfold free_network. only_walk. Qed.

#[local] Hint Resolve only_calm_free : only.

Lemma only_calm_drop l : only calm (drop_allocations l).
Proof. unfold drop_allocations. apply only_bind; [|done]. apply only_for_each. intros a _. apply only_calm_free. Qed.

#[local] Hint Resolve only_calm_drop : only.

Lemma spec_drop_calm l h :
  spec batch_allows (drop_allocations l) h (λ _ h', ∃ k, h' = h ++ k ∧ all_calls calm k ∧ ∀ a, a ∈ l → freed a h').
Proof.
  eapply spec_mono.
  - eapply (spec_refine calm (λ _ _, True)); [apply only_calm_drop|apply (spec_drop_allocations (λ _ _, True)); done|].
    intros k op _ Hop _. by destruct op.
  - intros u h' (H & k & -> & Hk). by exists k.
Qed.

Lemma batch_refused b h (k : list kevent) (allocations : list AllocatedClone) :
  fresh h → all_calls calm k → (∀ a, a ∈ allocations → freed a (h ++ k)) → (∀ a, a ∈ allocated h → a ∈ allocations) →
  br_ready b = [] → (br_failures b ≠ [] ∨ br_cancelled b ≠ None) → restored_batch b (h ++ k).
Proof.
  intros Hf Hk Hfree Hin Hr Hno. assert (Hf' : fresh (h ++ k)) by (by apply fresh_calm). split.
  - unfold custodies. destruct Hf' as [-> _]. by rewrite Hr.
  - split; [by apply fresh_settled|]. split; [apply Hf'|]. rewrite (fresh_allocated_calm h k Hk). split; [intros a Ha; left; by apply Hfree, Hin|].
    destruct Hf' as (_ & _ & Hn). split; [apply Hn; auto|]. split; [apply Hn; auto|]. intros H1 H2. by destruct Hno.
Qed.

Lemma spec_restore_batch allocations prepared args h :
  fresh h → (∀ a, a ∈ allocations ↔ a ∈ allocated h) →
  spec batch_allows (restore_clone_batch allocations prepared args) h restored_batch.
Proof.
  intros Hf Ha. unfold restore_clone_batch, refuse_clone_batch. apply spec_bind, spec_bind.
  apply spec_batch_calm; [apply only_calm_own|]. intros signal k Hk _. apply spec_ret.
  assert (Hrefuse : ∀ b, br_ready b = [] → (br_failures b ≠ [] ∨ br_cancelled b ≠ None) →
    spec batch_allows (do* drop_allocations allocations in Ret b) (h ++ k) restored_batch).
  { intros b Hb Hno. apply spec_bind. eapply spec_mono; [apply spec_drop_calm|]. intros u h2 (k2 & -> & Hk2 & Hfree).
    apply spec_ret. apply batch_refused with allocations; auto; [by apply fresh_calm|].
    intros a. rewrite (fresh_allocated_calm h k Hk). by apply Ha. }
  destruct signal as [signal|]; [apply Hrefuse; [done|by right]|].
  destruct (_ =? _)%nat eqn:Hlen; [|apply Hrefuse; [done|by left]]. apply Nat.eqb_eq in Hlen.
  set (l := zip allocations (assigned_workloads args)). assert (Hl : l.*1 = allocations) by (apply fst_zip; lia).
  apply spec_bind. eapply spec_mono; [apply spec_spawn_restores|].
  { intros a. rewrite Hl, (fresh_allocated_calm h k Hk). apply Ha. }
  intros ids h2 (k2 & -> & Hk2 & Hr & Hn). eapply spec_mono; [apply spec_collect_restores|].
  intros b h3 (k3 & -> & [Hk3 Hd] & Hp & Hall). assert (Hf1 : fresh (h ++ k)) by (by apply fresh_calm).
  destruct Hf1 as (F1 & F2 & F3). destruct (spawning_keeps _ k2 Hk2) as (S1 & S2 & S3 & S4 & S5).
  destruct (join_keeps RestoreTask k3 Hk3) as (J1 & J2 & J3 & J4 & _).
  assert (Hother : ∀ kd, kd = ProbeTask ∨ kd = CommandTask → unstarted kd (((h ++ k) ++ k2) ++ k3)).
  { intros kd Hkd. destruct (F3 kd) as [G1 G2]; [tauto|]. assert (kd ≠ RestoreTask) by (by destruct Hkd as [-> | ->]). unfold unstarted.
    by rewrite (joined_ids_app _ _ k3), (joined_ids_app _ _ k2), (spawned_ids_app _ _ k3), (spawned_ids_app _ _ k2), G1, G2, S1, S2, J1, J4. }
  assert (Hnone : ∀ kd, unstarted kd (((h ++ k) ++ k2) ++ k3) → complete kd (((h ++ k) ++ k2) ++ k3)).
  { intros kd [U1 U2]. left. by rewrite U1, U2. }
  split; [|split; [|split; [|split; [|split; [auto|split; [auto|]]]]]].
  - rewrite Hp. unfold custodies. by rewrite (restore_results_app _ k3), (restore_results_app _ k2), S3, F1.
  - split; [|split].
    + destruct Hd as [Hd|Hd]; [left|right; by apply exhausted_after].
      destruct (F3 RestoreTask) as [G1 G2]; [auto|].
      rewrite (joined_ids_app _ _ k3), (joined_ids_app _ _ k2), (spawned_ids_app _ _ k3), (spawned_ids_app _ _ k2), G1, G2, S1, J1, !List.app_nil_r.
      cbn. by rewrite Hd.
    + apply Hnone; auto.
    + apply Hnone; auto.
  - apply untouched_app; [apply untouched_app|]; done.
  - intros a. rewrite !(allocated_app _ k3), !(allocated_app _ k2), J2, S4, !(right_id_L [] (++)), (fresh_allocated_calm h k Hk), <- Ha.
    intros Hin. right. apply restoring_monotone. rewrite <- Hl in Hin.
    destruct (Hr a Hin) as (i & p & w & o & lc & Hi). exists i, p, w, o, lc. apply elem_of_app. by right.
  - intros H1 H2. destruct (Hall H1 H2) as (_ & _ & H3). unfold all_restored in *. by rewrite (restore_results_app _ k3), (restore_results_app _ k2), F1, S3.
Qed.

(** A program that was followed to the end was followed at every step. *)
Lemma spec_unbind {A B : Type} R (p : kprog A) (k : A → kprog B) h (Q : B → list kevent → Prop) :
  spec R (pbind p k) h Q → spec R p h (λ a h', spec R (k a) h' Q).
Proof.
  revert h. induction p as [a|op j IH|]; intros h; cbn [pbind spec]; [done| |done]. intros [HR Hj]. split; [done|].
  intros x. by apply IH.
Qed.

(** ** The fleet *)

Section fleet.
  Variables (show_path : path → string) (home : option path) (config : RoomsConfig) (fuel : nat).
  Variables (show_duration : N → string) (display : RoomsError → string) (to_json : report → result string string).
  Variable args : CloneArgs.

(** What became of a clone the batch was handed. *)
Definition fate (c : CloneCustody) (h : list kevent) : Prop :=
  gone show_path home config fuel c h ∨ killed_clone show_path home config fuel c h ∨ commanded c h ∨
  (runs_commands args = false ∧ committed h).

#[local] Instance fate_monotone c : Monotone (fate c).
Proof using Type. unfold fate. apply _. Qed.

(** The clones at hand are those the restores came to, and no task is running. *)
Definition base (L : list CloneCustody) (h : list kevent) : Prop :=
  L ≡ₚ custodies h ∧ settled h ∧ ∀ a, a ∈ allocated h → freed a h ∨ restoring a h.

(** And each restore came to one, and none was touched yet. *)
Definition phase (L : list CloneCustody) (h : list kevent) : Prop := base L h ∧ untouched h ∧ all_restored h.

(** How the batch ends. *)
Definition accounted (r : result CloneRunError N) (h : list kevent) : Prop :=
  settled h ∧ (∀ a, a ∈ allocated h → freed a h ∨ restoring a h) ∧ (∀ c, c ∈ custodies h → fate c h) ∧
  ∀ code, r = Ok code → all_restored h ∧ untouched h ∧ committed h ∧
    if runs_commands args then ∀ c, c ∈ custodies h → commanded c h else code = 0%N.

Lemma base_ext L h k :
  restore_results k = [] → allocated k = [] → settled (h ++ k) → base L h → base L (h ++ k).
Proof using Type.
  intros Hr Ha Hs (HL & _ & Hal). split; [|split; [exact Hs|]].
  - rewrite HL. unfold custodies. by rewrite restore_results_app, Hr, List.app_nil_r.
  - rewrite allocated_app, Ha, List.app_nil_r. intros a Hin. destruct (Hal a Hin); [left|right]; by apply monotone.
Qed.

Lemma base_plain L h k : all_calls plain k → base L h → base L (h ++ k).
Proof using Type.
  intros Hk Hb. destruct (plain_keeps RestoreTask k Hk) as (_ & _ & Hr & Ha). apply base_ext; [done..| |done].
  apply settled_plain; [done|apply Hb].
Qed.

Lemma phase_ext L h k :
  restore_results k = [] → allocated k = [] → untouched k → settled (h ++ k) → phase L h → phase L (h ++ k).
Proof using Type.
  intros Hr Ha Hu Hs (Hb & Hu' & Hall). split; [by apply base_ext|]. split; [by apply untouched_app|].
  unfold all_restored. by rewrite restore_results_app, Hr, List.app_nil_r.
Qed.

Lemma phase_calm L h k : all_calls calm k → phase L h → phase L (h ++ k).
Proof using Type.
  intros Hk Hp. destruct (plain_keeps RestoreTask k (calm_plain k Hk)) as (_ & _ & Hr & Ha).
  apply phase_ext; [done..|by apply calm_untouched| |done]. apply settled_plain; [by apply calm_plain|apply Hp].
Qed.

Lemma accounted_err L h e : base L h → (∀ c, c ∈ L → fate c h) → accounted (Err e) h.
Proof using Type.
  intros (HL & Hs & Ha) Hf. split; [done|]. split; [done|]. split; [|done]. intros c. rewrite <- HL. apply Hf.
Qed.

(** Ending what is at hand. *)
Lemma spec_end {A : Type} (p : kprog A) L h (Q : A → list kevent → Prop) :
  only plain p → base L h → spec (λ _ _, True) p h Q → spec batch_allows p h (λ a h', Q a h' ∧ base L h').
Proof using Type.
  intros Hp Hb HQ. eapply spec_mono; [apply spec_settled; [done|apply Hb|exact HQ]|].
  intros a h' (Ha & k & -> & Hk). split; [done|by apply base_plain].
Qed.

Lemma all_gone_fate L h : all_gone show_path home config fuel L h → ∀ c, c ∈ L → fate c h.
Proof using Type. intros H c Hc. left. by apply H. Qed.

Lemma spec_cancel_fleet L signal prior h :
  base L h →
  spec batch_allows (let* e := cancel_clone_custody show_path home config fuel display L signal prior in Ret (Err e)) h accounted.
Proof using Type.
  intros Hb. apply spec_bind. eapply spec_mono.
  { apply spec_end; [apply only_cancel|exact Hb|]. apply (spec_cancel show_path home config fuel (λ _ _, True)). done. }
  intros e h' [[Hg _] Hb']. apply (accounted_err L); [exact Hb'|by apply all_gone_fate].
Qed.

Lemma spec_partial_fleet L original h :
  base L h →
  spec batch_allows (let* e := cleanup_partial_restore show_path home config fuel display L original in Ret (Err (Standard e))) h accounted.
Proof using Type.
  intros Hb. apply spec_bind. eapply spec_mono.
  { apply spec_end; [apply only_cleanup_partial|exact Hb|]. apply (spec_cleanup_partial show_path home config fuel (λ _ _, True)). done. }
  intros e h' [Hg Hb']. apply (accounted_err L); [exact Hb'|by apply all_gone_fate].
Qed.

(** The handoff, and what it says. *)
Lemma spec_commit h (Q : result RoomsError (option CloneTermination) → list kevent → Prop) :
  (∀ r k, all_calls calm k → (r = Ok None → committed k) → Q r (h ++ k)) →
  spec batch_allows commit_terminal_handoff h Q.
Proof using Type.
  intros HQ. split; [exact I|]. intros x. cbn in x. apply HQ.
  - by intros e ->%list_elem_of_singleton.
  - destruct x as [[signal|]|e]; [done| |done]. intros _. by apply list_elem_of_singleton.
Qed.

Lemma spec_observed h (Q : option CloneTermination → list kevent → Prop) :
  (∀ r k, all_calls calm k → Q r (h ++ k)) → spec batch_allows observed_termination h Q.
Proof using Type. intros HQ. apply spec_batch_calm; [apply only_calm_own|]. intros r k Hk _. by apply HQ. Qed.

(** Printing, once it is agreed. *)
Definition printing (op : kop) : Prop := ∃ line, op = KPrint line.

Lemma printing_keeps (k : list kevent) : all_calls printing k →
  (∀ kd, joined_ids kd k = [] ∧ spawned_ids kd k = []) ∧ restore_results k = [] ∧ allocated k = [] ∧ untouched k.
Proof using Type.
  intros Hk. induction k as [|e k IH]; [by repeat split; intros e ?%elem_of_nil|].
  destruct IH as (H1 & H2 & H3 & H4); [intros e' He'; apply Hk; by right|].
  destruct (Hk e ltac:(by left)) as [line E]. destruct e as [op x]; cbn in E. subst op. change (?e :: k) with ([e] ++ k).
  rewrite restore_results_app, allocated_app, H2, H3. split; [|split; [done|split; [done|]]].
  - intros kd. rewrite joined_ids_app, spawned_ids_app. destruct (H1 kd) as [-> ->]. done.
  - by intros e [->%list_elem_of_singleton|?]%elem_of_app; [|apply H4].
Qed.

Lemma only_print line : only printing (print line).
Proof using Type. split; [by exists line|done]. Qed.

#[local] Hint Resolve only_print : only.

Lemma only_records_printed records json sha : only printing (emit_clone_records to_json records json sha).
Proof using Type.
  unfold emit_clone_records, print_report. destruct json; [only_walk|]. apply only_bind; [only_walk|]. intros _.
  apply only_bind; [|done]. apply only_for_each. intros r _. only_walk.
Qed.

Lemma phase_printing L h k : all_calls printing k → phase L h → phase L (h ++ k).
Proof using Type.
  intros Hk Hp. destruct (printing_keeps k Hk) as (Hn & Hr & Ha & Hu). apply phase_ext; [done..| |done].
  destruct Hp as ((_ & (S1 & S2 & S3) & _) & _). repeat split; (apply complete_same; [by apply Hn..|done]).
Qed.

Lemma spec_print L records json sha h (Q : result RoomsError unit → list kevent → Prop) :
  phase L h → committed h → (∀ r h', phase L h' → committed h' → Q r h') →
  spec batch_allows (emit_clone_records to_json records json sha) h Q.
Proof using Type.
  intros Hp Hc HQ. eapply only_spec; [apply only_records_printed| |].
  - intros k op Hk [line ->]. by apply committed_monotone.
  - intros r k Hk. apply HQ; [by apply phase_printing|by apply committed_monotone].
Qed.

(** *** A kept fleet *)

Lemma spec_killed_fleet L records h {A : Type} (k : list string → A) (Q : A → list kevent → Prop) :
  base L h → (∀ c, c ∈ L → records_of c records) →
  (∀ failures h', base L h' → (∀ c, c ∈ L → fate c h') → Q (k failures) h') →
  spec batch_allows (let* failures := reap_preserved_clones show_path home config fuel records in Ret (k failures)) h Q.
Proof using Type.
  intros Hb Hr HQ. apply spec_bind. eapply spec_mono.
  { apply spec_end; [apply only_reap|exact Hb|]. apply (spec_reap show_path home config fuel (λ _ _, True)). done. }
  intros failures h' [Hk Hb']. apply spec_ret, HQ; [exact Hb'|]. intros c Hc. right. left. by eapply reaped_clones.
Qed.

Lemma spec_finish_kept L json sha h :
  runs_commands args = false → phase L h →
  spec batch_allows (finish_kept_clone_batch show_path home config fuel display to_json L json sha) h accounted.
Proof using Type.
  intros Hrun Hp. unfold finish_kept_clone_batch. apply spec_bind, spec_observed. intros signal k Hk.
  assert (Hp1 : phase L (h ++ k)) by (by apply phase_calm). destruct signal as [signal|]; [by apply spec_cancel_fleet, Hp1|].
  apply spec_try, spec_map_err. eapply spec_mono.
  { apply spec_settled; [apply only_preserve|apply Hp1|]. apply (spec_preserve show_path home config fuel (λ _ _, True)). done. }
  intros r h2 (Hr & k2 & -> & Hk2). destruct r as [records|e]; cbn [map_err]; cbv iota.
  2:{ apply (accounted_err L); [by apply base_plain; [|apply Hp1]|by apply all_gone_fate]. }
  destruct Hr as (Hrec & k2' & E & Hu). apply app_inv_head in E. subst k2'.
  assert (Hp2 : phase L ((h ++ k) ++ k2)).
  { destruct (plain_keeps RestoreTask k2 Hk2) as (_ & _ & Hrr & Haa). apply phase_ext; [done..| |done].
    apply settled_plain; [done|apply Hp1]. }
  apply spec_bind, spec_commit. intros committed_ k3 Hk3 Hc.
  assert (Hp3 : phase L (((h ++ k) ++ k2) ++ k3)) by (by apply phase_calm).
  destruct committed_ as [[signal|]|e]; cbv iota.
  - unfold cancel_preserved_clones. apply spec_bind. apply (spec_killed_fleet L records); [apply Hp3|exact Hrec|].
    intros failures h' Hb Hf. by apply (accounted_err L).
  - apply spec_try, spec_map_err. specialize (Hc eq_refl). apply (spec_print L); [exact Hp3|apply elem_of_app; by right|].
    intros r h' (Hb & Hu' & Hall) Hc'. destruct r as [u|e]; cbn [map_err]; cbv iota.
    + destruct Hb as (HL & Hs & Ha). split; [done|]. split; [done|]. split; [intros c Hcc; right; right; by right|].
      intros code [= <-]. rewrite Hrun. by repeat split.
    + apply (accounted_err L); [exact Hb|]. intros c Hcc. right. right. by right.
  - apply (spec_killed_fleet L records); [apply Hp3|exact Hrec|]. intros failures h' Hb Hf. by apply (accounted_err L).
Qed.
(** Tasks of a kind were started, then all joined. *)
Lemma task_phase L kd n h k2 k3 :
  kd = ProbeTask ∨ kd = CommandTask → unstarted kd h → phase L h →
  all_calls (spawning kd) k2 → length (spawned_ids kd k2) = n → drained kd n k3 → phase L ((h ++ k2) ++ k3).
Proof using Type.
  intros Hkd [Hj0 Hs0] Hp Hk2 Hn [Hk3 Hd]. assert (Hne : kd ≠ RestoreTask) by (by destruct Hkd as [-> | ->]).
  destruct (spawning_keeps kd k2 Hk2) as (S1 & S2 & S3 & S4 & S5).
  destruct (join_keeps kd k3 Hk3) as (J1 & J2 & J3 & J4 & J5). rewrite <- (assoc_L (++)). apply phase_ext; [| | | |exact Hp].
  - by rewrite restore_results_app, S3, J5.
  - by rewrite allocated_app, S4, J2.
  - by apply untouched_app.
  - destruct Hp as ((_ & (C1 & C2 & C3) & _) & _).
    assert (Hother : ∀ kd', kd' ≠ kd → complete kd' h → complete kd' (h ++ k2 ++ k3)).
    { intros kd' Hkd' Hc. apply complete_same; [rewrite joined_ids_app, S1, J4|rewrite spawned_ids_app, S2, J1|]; done. }
    assert (Hthis : complete kd (h ++ k2 ++ k3)).
    { destruct Hd as [Hd|Hd]; [left|right].
      - rewrite !joined_ids_app, !spawned_ids_app, Hs0, Hj0, S1, J1, List.app_nil_r. cbn. congruence.
      - rewrite (assoc_L (++)). by apply exhausted_after. }
    destruct Hkd as [-> | ->]; repeat split; auto.
Qed.

Lemma spec_spawn_probes probes ids h :
  all_restored h → complete RestoreTask h →
  spec batch_allows (spawn_probes probes ids) h (λ _ h', ∃ k, h' = h ++ k ∧ all_calls (spawning ProbeTask) k ∧
    length (spawned_ids ProbeTask k) = length probes).
Proof using Type.
  revert ids h. induction probes as [|probe l IH]; intros ids h Hall Hc; cbn [spawn_probes].
  { exists []. rewrite List.app_nil_r. split; [done|]. split; [by intros e ?%elem_of_nil|done]. }
  apply spec_bind. split; [by split|]. intros id. apply spec_ret. set (e1 := Event _ _).
  assert (Hk1 : all_calls (spawning ProbeTask) [e1]) by (intros e ->%list_elem_of_singleton; right; by eexists).
  eapply spec_mono; [apply IH|].
  - unfold all_restored. by rewrite restore_results_app, (proj1 (proj2 (proj2 (spawning_keeps _ _ Hk1)))), List.app_nil_r.
  - apply complete_same; [| |done]; by apply (spawning_keeps _ _ Hk1).
  - intros ids' h' (k & -> & Hk & Hn). exists ([e1] ++ k). rewrite (assoc_L (++)). split; [done|].
    split; [intros e [He|He]%elem_of_app; [by apply Hk1|by apply Hk]|]. by rewrite spawned_ids_app, length_app, Hn.
Qed.

Lemma spec_collect_probes n ids failures cancelled h :
  spec batch_allows (collect_probes n ids failures cancelled) h (λ _ h', ∃ k, h' = h ++ k ∧ drained ProbeTask n k).
Proof using Type.
  revert ids failures cancelled h. induction n as [|n IH]; intros ids failures cancelled h; cbn [collect_probes].
  { exists []. rewrite List.app_nil_r. split; [done|]. split; [by intros e ?%elem_of_nil|by left]. }
  apply spec_bind, spec_next_join. intros c [[id x]|] k Hk E Hnone _.
  - eapply spec_mono; [apply IH|]. intros r h' (k' & -> & Hd). exists (k ++ k'). rewrite (assoc_L (++)). split; [done|].
    by eapply drained_step.
  - apply spec_ret. exists k. split; [done|]. split; [done|right; by apply Hnone].
Qed.

Lemma unstarted_plain kd h k : all_calls plain k → unstarted kd h → unstarted kd (h ++ k).
Proof using Type.
  intros Hk [H1 H2]. destruct (plain_keeps kd k Hk) as (P1 & P2 & _). by split; rewrite ?spawned_ids_app, ?joined_ids_app, ?H1, ?H2, ?P1, ?P2.
Qed.

Lemma spec_wait_kept L h :
  phase L h → unstarted ProbeTask h →
  spec batch_allows (wait_kept_clone_batch_ready display L) h (λ _ h', phase L h').
Proof using Type.
  intros Hp Hn. unfold wait_kept_clone_batch_ready. apply spec_try, spec_ret.
  destruct (probes_of L) as [probes|e]; cbn [map_err]; [|exact Hp].
  unfold run_clone_readiness_barrier. apply spec_bind, spec_observed. intros signal k Hk.
  assert (Hp1 : phase L (h ++ k)) by (by apply phase_calm). destruct signal as [signal|]; [exact Hp1|].
  apply spec_bind. eapply spec_mono; [apply spec_spawn_probes; apply Hp1|]. intros ids h2 (k2 & -> & Hk2 & Hn2).
  apply spec_bind. eapply spec_mono; [apply spec_collect_probes|]. intros [failures cancelled] h3 (k3 & -> & Hd).
  assert (Hp3 : phase L (((h ++ k) ++ k2) ++ k3)).
  { apply (task_phase L ProbeTask (length probes)); auto. by apply unstarted_plain; [apply calm_plain|]. }
  destruct cancelled; [exact Hp3|]. destruct (collapse_clone_failures _ _ _); exact Hp3.
Qed.

Lemma spec_barrier_failed L e h :
  phase L h →
  spec batch_allows (let* e := barrier_failed show_path home config fuel display L e in Ret (Err e)) h accounted.
Proof using Type.
  intros Hp. destruct e as [error|signal]; cbn [barrier_failed]; [|by apply spec_cancel_fleet, Hp].
  apply spec_bind, spec_bind, spec_commit. intros r k Hk _. assert (Hp1 : phase L (h ++ k)) by (by apply phase_calm).
  destruct r as [[signal|]|arbitration]; cbv iota.
  - pose proof (spec_cancel_fleet L signal [] _ (proj1 Hp1)) as Hs. exact (spec_unbind _ _ _ _ _ Hs).
  - apply spec_bind. pose proof (spec_partial_fleet L error _ (proj1 Hp1)) as Hs. exact (spec_unbind _ _ _ _ _ Hs).
  - apply spec_bind. set (combined := RmInternal _). pose proof (spec_partial_fleet L combined _ (proj1 Hp1)) as Hs.
    exact (spec_unbind _ _ _ _ _ Hs).
Qed.

Lemma spec_keep_fleet L h :
  runs_commands args = false → phase L h → unstarted ProbeTask h →
  spec batch_allows (keep_fleet show_path home config fuel display to_json args L) h accounted.
Proof using Type.
  intros Hrun Hp Hn. unfold keep_fleet. apply spec_bind. eapply spec_mono; [by apply spec_wait_kept|].
  intros [[]|e] h' Hp'; cbv iota; [by apply spec_finish_kept|by apply spec_barrier_failed].
Qed.

(** *** A fleet that runs commands *)

Lemma spec_spawn_commands l ids h :
  all_restored h → complete RestoreTask h → (∀ c, c ∈ l → c ∈ custodies h) →
  spec batch_allows (spawn_commands l ids) h (λ _ h', ∃ k, h' = h ++ k ∧ all_calls (spawning CommandTask) k ∧
    length (spawned_ids CommandTask k) = length l ∧ ∀ c, c ∈ l → commanded c k).
Proof using Type.
  revert ids h. induction l as [|c l IH]; intros ids h Hall Hc Hin; cbn [spawn_commands].
  { exists []. rewrite List.app_nil_r. split; [done|]. split; [by intros e ?%elem_of_nil|]. split; [done|by intros c ?%elem_of_nil]. }
  apply spec_bind. split; [split; [done|split; [done|apply Hin; by left]]|]. intros id. apply spec_ret. set (e1 := Event _ _).
  assert (Hk1 : all_calls (spawning CommandTask) [e1]) by (intros e ->%list_elem_of_singleton; right; by eexists).
  destruct (spawning_keeps _ _ Hk1) as (S1 & S2 & S3 & _). eapply spec_mono; [apply IH|].
  - unfold all_restored. by rewrite restore_results_app, S3, List.app_nil_r.
  - apply complete_same; [apply S1|by apply S2|done].
  - intros c' Hc'. rewrite custodies_app. apply elem_of_app. left. apply Hin. by right.
  - intros ids' h' (k & -> & Hk & Hn & Hcs). exists ([e1] ++ k). rewrite (assoc_L (++)). split; [done|].
    split; [intros e [He|He]%elem_of_app; [by apply Hk1|by apply Hk]|]. split; [by rewrite spawned_ids_app, length_app, Hn|].
    intros c' [->|Hc']%elem_of_cons; [exists id; apply elem_of_app; left; by apply list_elem_of_singleton|].
    destruct (Hcs c' Hc') as [i Hi]. exists i. apply elem_of_app. by right.
Qed.

Lemma spec_collect_commands n ids s h :
  spec batch_allows (collect_commands n ids s) h (λ _ h', ∃ k, h' = h ++ k ∧ drained CommandTask n k).
Proof using Type.
  revert ids s h. induction n as [|n IH]; intros ids s h; cbn [collect_commands].
  { exists []. rewrite List.app_nil_r. split; [done|]. split; [by intros e ?%elem_of_nil|by left]. }
  apply spec_bind. split; [exact I|]. intros x. apply spec_ret. set (e1 := Event _ _).
  assert (Hk1 : all_calls (join_op CommandTask) [e1]) by (intros e ->%list_elem_of_singleton; by left).
  destruct x as [[id x]|].
  - eapply spec_mono; [apply IH|]. intros r h' (k & -> & Hd). exists ([e1] ++ k). rewrite (assoc_L (++)). split; [done|].
    by apply (drained_step _ _ id x).
  - exists [e1]. split; [done|]. split; [exact Hk1|]. right. apply (exhausted_last _ []). by left.
Qed.

Lemma spec_run_commands L h :
  phase L h → unstarted CommandTask h →
  spec batch_allows (run_clone_commands display L) h (λ _ h', phase L h' ∧ ∀ c, c ∈ L → commanded c h').
Proof using Type.
  intros Hp Hn. unfold run_clone_commands. apply spec_bind. eapply spec_mono.
  { apply spec_spawn_commands; [apply Hp..|]. intros c. by rewrite (proj1 (proj1 Hp)). }
  intros ids h2 (k2 & -> & Hk2 & Hn2 & Hc). apply spec_bind. eapply spec_mono; [apply spec_collect_commands|].
  intros s h3 (k3 & -> & Hd). split; [apply (task_phase L CommandTask (length L)); auto|].
  intros c Hin. apply commanded_monotone. destruct (Hc c Hin) as [i Hi]. exists i. apply elem_of_app. by right.
Qed.

Lemma commanded_accounted L h e : base L h → (∀ c, c ∈ L → commanded c h) → accounted (Err e) h.
Proof using Type. intros Hb Hc. apply (accounted_err L); [done|]. intros c Hin. right. right. left. by apply Hc. Qed.

Lemma spec_run_fleet L h :
  runs_commands args = true → phase L h → unstarted CommandTask h →
  spec batch_allows (run_fleet display to_json args L) h accounted.
Proof using Type.
  intros Hrun Hp Hn. unfold run_fleet. apply spec_bind. eapply spec_mono; [by apply spec_run_commands|].
  intros ran h1 [Hp1 Hc1]. apply spec_try, spec_map_err, spec_commit. intros r k Hk Hcommit.
  assert (Hp2 : phase L (h1 ++ k)) by (by apply phase_calm).
  assert (Hc2 : ∀ c, c ∈ L → commanded c (h1 ++ k)) by (intros c Hin; by apply commanded_monotone, Hc1).
  destruct r as [[signal|]|e]; cbn [map_err]; cbv iota; [eapply commanded_accounted; [apply Hp2|done]| |eapply commanded_accounted; [apply Hp2|done]].
  apply spec_try, spec_ret. destruct ran as [[code records]|failure]; cbn [map_err]; cbv iota;
    [|eapply commanded_accounted; [apply Hp2|done]].
  apply spec_try, spec_map_err. specialize (Hcommit eq_refl).
  eapply spec_mono; [eapply (spec_keep _ _ _ (λ h, ∀ c, c ∈ L → commanded c h) (λ _ h', phase L h' ∧ committed h') Hc2)|].
  { apply (spec_print L); [done|apply elem_of_app; by right|by auto]. }
  intros r h' (Hc & Hp' & Hcm). destruct r as [u|e]; cbn [map_err]; cbv iota;
    [|eapply commanded_accounted; [apply Hp'|done]].
  destruct Hp' as ((HL & Hs & Ha) & Hu & Hall). assert (Hcs : ∀ c, c ∈ custodies h' → commanded c h') by (intros c; rewrite <- HL; apply Hc).
  split; [done|]. split; [done|].
  split; [intros c Hin; right; right; left; by apply Hcs|]. intros code' [= <-]. rewrite Hrun. by repeat split.
Qed.
End fleet.
