(* ===== verification/CloneEnds.v ===== *)
(** * CloneEnds: the whole of a batch, and what its workers come to

    The batch from its first call to its last, over the fleet of [CloneOrder], and
    the programs of its tasks: a restore that fails gives its network back, and a
    command ends its clone. *)

From S2P Require Import Prelude RStr Fs Room IndexedClaim Slot CloneRoutes CloneNet Egress Registry Pcap Artifacts Matrix Lifecycle Prog Config Snapshot Intents Sys Teardown Images Launch Boot RestoreSource RestoreTeardown RestoreExec Runner Returns Doctor Witness Cli Run CloneRecords CloneBatch CloneFates CloneOrder.
From stdpp Require Import options.

(** ** Setting up *)

(** Calls that start or join a setup task. *)
Definition setup_op (op : kop) : Prop :=
  match op with KSpawn SourceTask _ | KSpawn AllocationTask _ | KBoth _ _ | KBothOrSignal _ _ => True | _ => False end.

Lemma fresh_setup h op (x : kans op) : setup_op op → fresh h → fresh (h ++ [Event op x]).
Proof.
  intros Hop (Hr & Hu & Hn). split; [|split].
  - rewrite restore_results_app, Hr. by destruct op as [| | | | | | | |[] j| | | |].
  - intros e [He| ->%list_elem_of_singleton]%elem_of_app; [by apply Hu|]. by destruct op.
  - intros kd Hkd. destruct (Hn kd Hkd) as [H1 H2]. unfold unstarted. rewrite joined_ids_app, spawned_ids_app, H1, H2.
    destruct Hkd as [-> |[-> | ->]]; by destruct op as [| | | | | | | |[] j| | | |].
Qed.

(** What was allocated is handed on, or given back. *)
Lemma spec_setup_result show_join ended h :
  spec batch_allows (setup_result show_join ended) h (λ r h', ∃ k, h' = h ++ k ∧ all_calls calm k ∧
    match r with Ok (_, l) => l = given_allocations ended | Err _ => ∀ a, a ∈ given_allocations ended → freed a h' end).
Proof.
  destruct ended as [source allocations]. unfold setup_result, given_allocations. cbn [snd].
  assert (Hstay : ∀ e : RoomsError, ∃ k, h = h ++ k ∧ all_calls calm k ∧ ∀ a, a ∈ ([] : list AllocatedClone) → freed a h).
  { intros _. exists []. rewrite List.app_nil_r. split; [done|]. split; [by intros e ?%elem_of_nil|by intros a ?%elem_of_nil]. }
  destruct (match source with Err _ => _ | Ok _ => _ end) as [prepared|e]; cbv iota.
  - apply spec_ret. destruct allocations as [[l|e]|e]; [|exact (Hstay e)|exact (Hstay (RmInternal ""))].
    destruct (Hstay (RmInternal "")) as (k & H1 & H2 & _). by exists k.
  - apply spec_bind. destruct allocations as [[l|e']|e']; [|apply spec_ret, spec_ret, Hstay; exact e..].
    eapply spec_mono; [apply spec_drop_calm|]. intros u h' H. by apply spec_ret.
Qed.

(** What was set up. *)
Definition set_up (r : result CloneRunError (PreparedRestoreSource * list AllocatedClone)) (h : list kevent) : Prop :=
  fresh h ∧ match r with Ok (_, l) => ∀ a, a ∈ l ↔ a ∈ allocated h | Err _ => ∀ a, a ∈ allocated h → freed a h end.

Lemma spec_prepare_batch show_join args state_base cap me h :
  fresh h → allocated h = [] → spec batch_allows (prepare_clone_batch show_join args state_base cap me) h set_up.
Proof.
  intros Hf Ha. unfold prepare_clone_batch. apply spec_bind, spec_batch_calm; [apply only_calm_own|]. intros signal k Hk _.
  assert (Hf1 : fresh (h ++ k)) by (by apply fresh_calm).
  assert (Ha1 : allocated (h ++ k) = []) by (by rewrite fresh_allocated_calm).
  destruct signal as [signal|]; [apply spec_ret; split; [done|]; rewrite Ha1; by intros a ?%elem_of_nil|].
  apply spec_bind. split; [exact I|]. intros s. apply spec_ret, spec_bind. split; [exact I|]. intros l. apply spec_ret.
  set (h2 := (_ ++ [_]) ++ [_]). assert (Hf2 : fresh h2) by (by repeat apply fresh_setup).
  assert (Ha2 : allocated h2 = []) by (unfold h2; by rewrite !allocated_app, Ha, (proj2 (proj2 (proj2 (plain_keeps RestoreTask k (calm_plain k Hk)))))).
  clearbody h2. apply spec_bind. split; [exact I|]. intros [signal|ended]; apply spec_ret.
  - apply spec_bind. split; [exact I|]. intros ended. apply spec_ret, spec_bind. set (h3 := (_ ++ [_]) ++ [_]).
    assert (Hf3 : fresh h3) by (by repeat apply fresh_setup).
    assert (Ha3 : allocated h3 = given_allocations ended) by (unfold h3; rewrite !allocated_app, Ha2; apply List.app_nil_r).
    clearbody h3. eapply spec_mono; [apply spec_setup_result|]. intros r h4 (k4 & -> & Hk4 & Hr). apply spec_bind.
    assert (Hf4 : fresh (h3 ++ k4)) by (by apply fresh_calm). destruct r as [[prepared allocations]|e].
    + subst allocations. eapply spec_mono; [apply spec_drop_calm|]. intros u h5 (k5 & -> & Hk5 & Hfree). apply spec_ret.
      split; [by apply fresh_calm|]. by rewrite !fresh_allocated_calm, Ha3 by done.
    + apply spec_ret, spec_ret. split; [done|]. by rewrite fresh_allocated_calm, Ha3 by done.
  - apply spec_bind. set (h3 := _ ++ [_]). assert (Hf3 : fresh h3) by (by apply fresh_setup).
    assert (Ha3 : allocated h3 = given_allocations ended) by (unfold h3; rewrite !allocated_app, Ha2; apply List.app_nil_r).
    clearbody h3. eapply spec_mono; [apply spec_setup_result|]. intros r h4 (k4 & -> & Hk4 & Hr). apply spec_ret.
    split; [by apply fresh_calm|]. rewrite fresh_allocated_calm, Ha3 by done. by destruct r as [[prepared allocations]|e]; [subst|].
Qed.

(** ** The batch *)

Section batch_ends.
  Variables (show_path : path → string) (resolve : string → path) (to_socket_addrs : string → result string (list IpAddr)).
  Variables (home : option path) (config : RoomsConfig) (fuel : nat).
  Variables (display : RoomsError → string) (show_join : JoinError → string) (to_json : report → result string string).
  Variable args : CloneArgs.

Lemma only_calm_admit : only calm (admit_clone resolve to_socket_addrs home config args).
Proof using Type. unfold admit_clone. only_walk. Qed.

Lemma fresh_nil : fresh [].
Proof using Type. split; [done|]. split; [by intros e ?%elem_of_nil|done]. Qed.

Lemma fresh_accounted e h : fresh h → (∀ a, a ∈ allocated h → freed a h) → accounted show_path home config fuel args (Err e) h.
Proof using Type.
  intros Hf Ha. apply (accounted_err _ _ _ _ _ []); [|by intros c ?%elem_of_nil]. split; [unfold custodies; by destruct Hf as [-> _]|].
  split; [by apply fresh_settled|]. intros a Hin. left. by apply Ha.
Qed.

Lemma spec_restored allocations prepared h :
  fresh h → (∀ a, a ∈ allocations ↔ a ∈ allocated h) →
  spec batch_allows
    (let* restored := restore_clone_batch allocations prepared args in
     match br_cancelled restored with
     | Some signal =>
         let* e := cancel_clone_custody show_path home config fuel display (br_ready restored) signal (br_failures restored) in Ret (Err e)
     | None =>
         if negb (is_nil (br_failures restored)) then
           let* failure := cleanup_restore_batch_failure show_path home config fuel display (br_ready restored) (br_failures restored) in
           Ret (Err (RestoreBatch failure))
         else if runs_commands args then run_fleet display to_json args (br_ready restored)
         else keep_fleet show_path home config fuel display to_json args (br_ready restored)
     end) h (accounted show_path home config fuel args).
Proof using Type.
  intros Hf Ha. apply spec_bind. eapply spec_mono; [by apply spec_restore_batch|].
  intros b h' (Hp & Hs & Hu & Hal & Hnp & Hnc & Hall). assert (Hb : base (br_ready b) h') by done.
  destruct (br_cancelled b) as [signal|] eqn:Hc; [by apply spec_cancel_fleet|].
  destruct (br_failures b) as [|failure failures] eqn:Hfs; cbn [is_nil negb]; cbv iota.
  - assert (Hph : phase (br_ready b) h') by (split; [done|]; split; [done|by apply Hall]).
    destruct (runs_commands args) eqn:Hrun; [by apply spec_run_fleet|by apply spec_keep_fleet].
  - apply spec_bind. eapply spec_mono.
    { apply spec_end; [apply only_cleanup_failure|exact Hb|]. apply (spec_cleanup_failure show_path home config fuel (λ _ _, True)). done. }
    intros e h2 [Hg Hb2]. apply (accounted_err _ _ _ _ _ (br_ready b)); [exact Hb2|by apply all_gone_fate].
Qed.

Lemma spec_batch :
  spec batch_allows (clone_rooms_inner show_path resolve to_socket_addrs home config fuel display show_join to_json args) []
    (accounted show_path home config fuel args).
Proof using Type.
  unfold clone_rooms_inner. apply spec_try, spec_map_err, spec_batch_calm; [apply only_calm_admit|]. intros r k Hk _.
  assert (Hf : fresh ([] ++ k)) by (apply fresh_calm; [apply fresh_nil|done]).
  assert (Ha : allocated ([] ++ k) = []) by (by rewrite fresh_allocated_calm).
  destruct r as [[[[[plan key] state_base] cap] me]|e]; cbn [map_err]; cbv iota.
  2:{ apply fresh_accounted; [done|]. rewrite Ha. by intros a ?%elem_of_nil. }
  apply spec_try. eapply spec_mono; [by apply spec_prepare_batch|]. intros [[prepared allocations]|e] h' [Hf' Hset]; cbv iota.
  - by apply spec_restored.
  - by apply fresh_accounted.
Qed.

End batch_ends.

(** ** The tasks *)

Section workers.
  Variable show_path : path → string.
  Variable resolve : string → path.
  Variables (show_secs show_duration : N → string) (show_json : json → result string string).
  Variables (show_debug : string → string) (show_status : option Z → string).
  Variables (show_utf8_error show_int_error : string → string).
  Variables (show_result : ResultJson → string) (show_meta : CursorMeta → string) (show_changeset : Changeset → string).
  Variable show_witness : Pcap.Witness → result string string.
  Variables (immutable_flag : N) (sha256 : string → string).
  Variables (home : option path) (config : RoomsConfig) (fuel : nat).
  Variable display : RoomsError → string.
  Context (R : list kevent → kop → Prop) (R_plain : ∀ h op, plain op → R h op).

(** A restored room is the one that was asked for. *)
Lemma returns_restored req prepared :
  returns (λ r, ∀ rs, r = Ok rs → rs_room_id rs = rr_request_room req)
    (restore_prepared show_path resolve show_secs show_json immutable_flag sha256 home config fuel req prepared).
Proof using Type.
  assert (Herr : ∀ {A : Type} (p : sys A) (e : string),
    returns (λ r : result string Restored, ∀ rs, r = Ok rs → rs_room_id rs = rr_request_room req) (do* p in Ret (Err e))).
  { intros A p e. eapply returns_bind; [apply returns_any|]. done. }
  unfold restore_prepared. destruct (negb _); [done|]. repeat (apply returns_try; [done|intros ?]). unfold restore_indexed.
  eapply returns_bind; [apply returns_any|]. intros [|e] _; [|apply Herr].
  eapply returns_bind; [apply returns_any|]. intros [launch|e] _; [|apply Herr]. unfold restore_launched.
  destruct (jail_root_dir _ _ _); [|apply Herr]. eapply returns_bind; [apply returns_any|]. intros [|e] _; [|apply Herr].
  eapply returns_bind; [apply returns_any|]. intros [[[slot witness] launch']|[e launch']] _; [|apply Herr].
  by intros rs [= <-].
Qed.

(** A restore hands over the allocation's room, or gives its network back. *)
Lemma spec_restore_worker args plan prepared a workload out_dir lifecycle h :
  spec R (restore_worker show_path resolve show_secs show_json immutable_flag sha256 home config fuel args plan prepared a
            workload out_dir lifecycle) h
    (λ r h', match r with
             | Ok c => ∃ rs, cu_restored c = Some rs ∧ rs_room_id rs = ac_room_id a
             | Err _ => freed a h'
             end).
Proof using R_plain.
  unfold restore_worker. destruct (ac_network a) as [network|] eqn:Hnet; [|intros net' E; congruence].
  apply spec_bind, spec_staged; [exact R_plain|]. intros r k (tr & _ & Hr). eapply returns_run in Hr; [|apply returns_restored].
  destruct r as [rs|e].
  - apply spec_bind, spec_call; [by apply R_plain|]. intros u. exists rs. split; [done|]. exact (Hr rs eq_refl).
  - apply spec_bind. eapply spec_mono; [by apply spec_free|]. by intros u h' Hf.
Qed.

Lemma same_clone_trans a b c : same_clone a b → same_clone b c → same_clone a c.
Proof using Type. intros (A1 & A2 & A3 & A4 & A5) (B1 & B2 & B3 & B4 & B5). repeat split; congruence. Qed.

Lemma gone_same c rs rs' h :
  cu_restored c = Some rs → same_clone rs rs' → gone show_path home config fuel (with_restored c rs') h →
  gone show_path home config fuel c h.
Proof using Type.
  intros Hc Hs Hg rs0 E. assert (rs0 = rs) as -> by congruence. destruct (Hg rs' eq_refl) as (rs2 & r & Hs2 & Ht).
  exists rs2, r. split; [by eapply same_clone_trans|done].
Qed.

(** A command ends its clone, whatever the guest does. *)
Lemma spec_command_task c key max_wall plan h :
  spec R (execute_clone_command show_path show_duration show_debug show_status show_utf8_error show_int_error show_result
            show_meta show_changeset show_witness home config fuel display c key max_wall plan) h
    (λ _ h', gone show_path home config fuel c h').
Proof using R_plain.
  unfold execute_clone_command, custody_restored. destruct (cu_workload c) as [workload|].
  2:{ apply spec_bind. eapply spec_mono; [by apply spec_custody_drop|]. by intros u h' Hg. }
  destruct (cu_restored c) as [rs|] eqn:Hc; cbn [ok_or]; [|intros rs E; congruence].
  apply spec_map_err. unfold execute_clone_command_inner, custody_restored. rewrite Hc. cbn [ok_or].
  apply spec_bind. unfold run_restored. apply spec_bind.
  eapply (spec_running R R_plain _ _ (λ _, True)); [apply returns_any|]. intros outcome h1 _. apply spec_bind.
  eapply (spec_running R R_plain); [apply returns_collected|]. intros [vm collection] h2 Hvm. cbn [fst] in Hvm. apply spec_ret.
  apply spec_bind. eapply spec_mono.
  { apply (spec_plain R R_plain). destruct outcome; [|done]. unfold observed_termination.
    apply only_bind; [apply only_own|]. intros signal. apply only_bind; [apply only_custody_record|done]. }
  intros recorded h3 _. apply spec_bind. eapply spec_mono; [by apply spec_custody_teardown|]. intros down h4 Hg.
  eapply (gone_same c rs); [exact Hc| |exact Hg]. subst vm. by repeat split.
Qed.

End workers.
