(* ===== verification/CloneLeaks.v ===== *)
(** * CloneLeaks: no clone is left behind

    The batch and its tasks together: from how the sets of tasks behave and that
    what a join answers is what the task's own program came to, every network the
    batch was given is given back, or its clone is torn down, killed, or kept. *)

From S2P Require Import Prelude RStr Fs Room IndexedClaim Slot CloneRoutes CloneNet Egress Registry Pcap Artifacts Matrix Lifecycle Prog Config Snapshot Intents Sys Teardown Images Launch Boot RestoreSource RestoreTeardown RestoreExec RestoreOrder Runner RunnerOrder RunnerWait Returns Collect Doctor Witness Cli Run RunOrder RunEnds CloneRecords CloneBatch CloneFates CloneOrder CloneEnds.
From stdpp Require Import options.

(** ** Sets of tasks *)

(** A set answers each task once, only tasks it holds, and none only when it is empty. *)
Record join_sets (h : list kevent) : Prop := {
  js_spawned : ∀ kd, NoDup (spawned_ids kd h);
  js_joined : ∀ kd, NoDup (joined_ids kd h);
  js_held : ∀ kd, joined_ids kd h ⊆ spawned_ids kd h;
  js_empty : ∀ kd h1 e h2, h = h1 ++ e :: h2 → empty_join kd e → spawned_ids kd h1 ⊆ joined_ids kd h1
}.

(** Once the set is empty, each task was joined. *)
Lemma complete_joined kd h id : join_sets h → complete kd h → id ∈ spawned_ids kd h → id ∈ joined_ids kd h.
Proof.
  intros [Hs Hj Hheld Hempty] [Hlen|(h1 & e & h2 & -> & He & H2)] Hin.
  - assert (Hp : joined_ids kd h ≡ₚ spawned_ids kd h) by (apply submseteq_length_Permutation; [apply NoDup_submseteq; [apply Hj|apply Hheld]|by rewrite Hlen]).
    by rewrite Hp.
  - change (e :: h2) with ([e] ++ h2) in *. rewrite !spawned_ids_app, H2, List.app_nil_r in Hin. rewrite joined_ids_app. apply elem_of_app. left.
    apply (Hempty _ _ _ h2 eq_refl He). by destruct He as [-> | ->]; cbn in Hin; rewrite List.app_nil_r in Hin.
Qed.

Lemma spawned_id kd (j : job kd) id h : Event (Ans := kans) (KSpawn kd j) id ∈ h → id ∈ spawned_ids kd h.
Proof.
  intros Hin. unfold spawned_ids, spawns. apply list_elem_of_omap. exists (id, existT kd j). split.
  - apply list_elem_of_omap. by exists (Event (Ans := kans) (KSpawn kd j) id).
  - cbn. by rewrite decide_True.
Qed.

(** What the join of a task answered. *)
Definition came_to (kd : kind) (id : N) (x : result JoinError (out kd)) (h : list kevent) : Prop := existT kd (id, x) ∈ joins h.

Lemma joined_id kd id h : id ∈ joined_ids kd h → ∃ x, came_to kd id x h.
Proof.
  intros ([kd' [id' x]] & Hin & E)%list_elem_of_omap. cbn in E. case_decide as Hkd; [|done]. subst kd'. injection E as ->. by exists x.
Qed.

Lemma task_joined kd (j : job kd) id h :
  join_sets h → complete kd h → Event (Ans := kans) (KSpawn kd j) id ∈ h → ∃ x, came_to kd id x h.
Proof. intros Hsets Hc Hin. eapply joined_id, complete_joined; [done..|]. by eapply spawned_id. Qed.

Lemma came_custody id c h : came_to RestoreTask id (Ok (Ok c)) h → c ∈ custodies h.
Proof.
  intros Hin. apply list_elem_of_omap. exists (Ok (Ok c)). split; [|done]. apply list_elem_of_omap. by exists (existT RestoreTask (id, Ok (Ok c))).
Qed.

Section leaks.
  Variable show_path : path → string.
  Variable resolve : string → path.
  Variables (show_secs show_duration : N → string) (show_json : json → result string string).
  Variables (show_debug : string → string) (show_status : option Z → string).
  Variables (show_utf8_error show_int_error : string → string).
  Variables (show_result : ResultJson → string) (show_meta : CursorMeta → string) (show_changeset : Changeset → string).
  Variable show_witness : Pcap.Witness → result string string.
  Variables (immutable_flag : N) (sha256 : string → string) (parse_manifest : string → option Images.Manifest).
  Variables (parse_meta : string → result string SnapshotMeta) (parse_attestation : string → option SnapshotAttestation).
  Variable to_socket_addrs : string → result string (list IpAddr).
  Variables (arch : string) (home : option path) (config : RoomsConfig).
  Variable fuel : nat.
  Variables (display : RoomsError → string) (show_join : JoinError → string) (to_json : report → result string string).
  Variable args : CloneArgs.

Definition task (plan : Egress.Plan) (key : path) {kd : kind} (j : job kd) : kprog (out kd) :=
  work show_path resolve show_secs show_duration show_json show_debug show_status show_utf8_error show_int_error show_result
    show_meta show_changeset show_witness immutable_flag sha256 parse_manifest parse_meta parse_attestation arch home config
    fuel display show_join args plan key j.

(** What a join answers is what the task's program came to, by the calls in its log. *)
Definition honest (logs : ∀ kd : kind, N → list kevent) (h : list kevent) : Prop :=
  ∀ kd (j : job kd) id x, Event (Ans := kans) (KSpawn kd j) id ∈ h → came_to kd id (Ok x) h →
    ∃ plan key, run (task plan key j) (logs kd id) (Some x).

(** A worker that panicked; nothing else fails a join, the batch aborts no task. *)
Definition failed (kd : kind) (id : N) (h : list kevent) : Prop := ∃ e, came_to kd id (Err e) h.

(** The clone is over, in the batch's own calls or in those of its command, or kept. *)
Definition concluded (logs : ∀ kd : kind, N → list kevent) (c : CloneCustody) (h : list kevent) : Prop :=
  gone show_path home config fuel c h ∨ killed_clone show_path home config fuel c h ∨
  (∃ id, Event (Ans := kans) (KSpawn CommandTask (JCommand c)) id ∈ h ∧
     (gone show_path home config fuel c (logs CommandTask id) ∨ failed CommandTask id h)) ∨
  (runs_commands args = false ∧ committed h).

(** The network of an allocation is given back by the batch or by its restore, or
    the clone that took it is over. *)
Definition returned (logs : ∀ kd : kind, N → list kevent) (a : AllocatedClone) (h : list kevent) : Prop :=
  freed a h ∨
  ∃ id prepared workload out_dir lifecycle,
    Event (Ans := kans) (KSpawn RestoreTask (JRestore prepared a workload out_dir lifecycle)) id ∈ h ∧
    (failed RestoreTask id h ∨ freed a (logs RestoreTask id) ∨
     ∃ c rs, cu_restored c = Some rs ∧ rs_room_id rs = ac_room_id a ∧ came_to RestoreTask id (Ok (Ok c)) h ∧ concluded logs c h).

Lemma fate_concluded logs c h :
  join_sets h → honest logs h → settled h → fate show_path home config fuel args c h → concluded logs c h.
Proof using Type.
  intros Hsets Hlogs (_ & _ & Hc) [H|[H|[[id Hid]|H]]]; [by left|by right; left| |by do 3 right].
  right. right. left. exists id. split; [exact Hid|]. destruct (task_joined CommandTask _ id h Hsets Hc Hid) as [[x|e] Hx].
  - left. destruct (Hlogs _ _ _ _ Hid Hx) as (plan & key & Hrun).
    apply (spec_run (λ _ _, True) _ (λ _ h', gone show_path home config fuel c h')) in Hrun as [_ Hq]; [by eapply Hq|].
    by apply spec_command_task.
  - right. by exists e.
Qed.

Lemma restoring_returned logs a h :
  join_sets h → honest logs h → settled h → (∀ c, c ∈ custodies h → concluded logs c h) → restoring a h → returned logs a h.
Proof using Type.
  intros Hsets Hlogs (Hr & _) Hc (id & prepared & workload & out_dir & lifecycle & Hid). right.
  exists id, prepared, workload, out_dir, lifecycle. split; [exact Hid|].
  destruct (task_joined RestoreTask _ id h Hsets Hr Hid) as [[x|e] Hx]; [right|left; by exists e].
  destruct (Hlogs _ _ _ _ Hid Hx) as (plan & key & Hrun).
  eapply (spec_run (λ _ _, True)) in Hrun as [_ Hq]; [|by apply spec_restore_worker]. specialize (Hq _ eq_refl). cbv beta in Hq.
  destruct x as [c|failure]; [right|by left]. destruct Hq as (rs & Hrs & Hroom). exists c, rs. repeat split; [done..|].
  apply Hc. by eapply came_custody.
Qed.

Definition batch : kprog (result CloneRunError N) :=
  clone_rooms_inner show_path resolve to_socket_addrs home config fuel display show_join to_json args.

(** C14.  A batch of clones, whatever its host and its tasks answer and wherever it
    stops.  A restore is started only for what was allocated, a probe or a command
    only when every restore of the batch was joined and came to a clone, nothing of
    a clone is torn down, killed or dropped while a task of the batch may still run,
    and a fleet is reported only once the signals' owner agreed that it is over.  A
    batch that returns has joined each of its tasks; each network it was given was
    given back or went to a restore; each clone it was handed was torn down,
    killed, given to a command, or kept by agreement; and when it succeeds no
    restore failed and it tore nothing down itself. *)
Theorem batch_ordered tr o :
  run batch tr o →
  guarded batch_allows tr ∧ ∀ r, o = Some r → accounted show_path home config fuel args r tr.
Proof using Type. intros Hr. eapply spec_run, Hr. apply spec_batch. Qed.

(** C13.  No clone is left behind.  When the sets of tasks answer each task they hold
    once, and what a join answers is what that task's own program came to, then for
    every network a batch that returns was given: the batch gave it back; or the
    restore it was given to failed and gave it back; or the clone of that room was
    torn down or killed by the batch, or torn down by its command, or is kept by a
    batch that the signals' owner agreed is over — unless the worker panicked. *)
Theorem no_clone_left (logs : ∀ kd : kind, N → list kevent) tr r :
  run batch tr (Some r) → join_sets tr → honest logs tr → ∀ a, a ∈ allocated tr → returned logs a tr.
Proof using Type.
  intros Hr Hsets Hlogs a Ha.
  pose proof (spec_run _ _ _ _ _ (spec_batch show_path resolve to_socket_addrs home config fuel display show_join to_json args) Hr) as [_ Hq].
  destruct (Hq r eq_refl) as (Hs & Hal & Hc & _). destruct (Hal a Ha) as [Hf|Hres]; [by left|].
  apply restoring_returned; [done..| |exact Hres]. intros c Hin. by apply fate_concluded, Hc.
Qed.
End leaks.

(** ** Examples *)

Definition sys_log (h : list kevent) : list sys_event :=
  omap (λ e : kevent, match e with Event op x =>
    match op return kans op → option sys_event with KSys _ op => λ x, Some (Event op x) | _ => λ _, None end x end) h.

(** A host for the tasks: restores succeed, and guests answer. *)
Definition task_host (h : list kevent) (op : kop) : kans op :=
  match op return kans op with
  | KSys (FinishOf _ _ _ _) op => leased_host [] op
  | KSys _ op => restore_host (sys_log h) op
  | KRun _ op => room_machine op
  | KMeasured => 1%N
  | KReadiness _ => None
  | KFreeNetwork _ _ _ => Ok CfRemoved
  | KAllocateBatch _ _ _ _ => Err JoinFailed
  | KLoadMatrix _ => Ok {| mn_sha256 := ""; mn_cases := [] |}
  | KPrint _ => ()
  | KSpawn k _ => match k with SourceTask => 1%N | AllocationTask => 2%N | RestoreTask => 3%N | _ => 4%N end
  | KJoin _ => None
  | KJoinOrSignal _ => inr None
  | KBoth _ _ => (Err JoinFailed, Err JoinFailed)
  | KBothOrSignal _ _ => inr (Err JoinFailed, Err JoinFailed)
  end.

Definition fleet_args (command : option string) : CloneArgs :=
  {| ca_snapshot_dir := ["snap"]; ca_image := ["image"]; ca_toolstore := None; ca_count := 1; ca_command := command;
     ca_workloads := None; ca_matrix_sha256 := None; ca_out_dir := None; ca_witness := false; ca_secrets := None;
     ca_egress := PolicyObserve; ca_max_wall := None; ca_max_pool := None; ca_json := false |}.

Definition sample_net : CloneNet := match CloneNet_derive 1 with Ok net => net | Err _ => Build_CloneNet 0 "" "" "" 0 0 0 end.

Definition sample_allocation : AllocatedClone :=
  {| ac_room_id := "01hzzzzzzzzzzzzzzzzzzzzzzz"; ac_network := Some sample_net; ac_state_base := ["s"] |}.

Definition sample_task {kd : kind} (args : CloneArgs) (j : job kd) : kprog (out kd) :=
  task (join "/") (λ s, [s]) show_N show_N (λ _, Ok "{}") id (λ _, EmptyString) id id (λ r, pretty (exit_code r))
    cm_model_id (λ _, "") (λ _, Ok "{}") 16 id (λ _, None) (λ _, Err "") (λ _, None) "linux" None boot_config 5 (λ _, "error")
    (λ _, "failed") args PlanObserve ["keys"; "id"] j.

Definition sample_restore_job : job RestoreTask :=
  JRestore sample_prepared sample_allocation (Some (broadcast "make test")) None 1.

Definition restore_run := exec task_host (sample_task (fleet_args (Some "make test")) sample_restore_job) [].

(** The outcome of a task that ran alone. *)
Definition outcome {kd : kind} (ran : option (out kd) * list kevent) : result JoinError (out kd) := ok_or (fst ran) JoinFailed.

Definition sample_custody : CloneCustody :=
  match outcome restore_run with
  | Ok (Ok c) => c
  | _ => {| cu_lifecycle := 0; cu_restored := None; cu_out_dir := None; cu_workload := None |}
  end.

Definition command_run := exec task_host (sample_task (fleet_args (Some "make test")) (JCommand sample_custody)) [].

(** A host for the batch, whose joins answer what the tasks came to. *)
Definition fleet_host (h : list kevent) (op : kop) : kans op :=
  match op return kans op with
  | KBothOrSignal _ _ => inr (Ok (Ok sample_prepared), Ok (Ok [sample_allocation]))
  | KJoinOrSignal k =>
      match k return kans (KJoinOrSignal k) with RestoreTask => inr (Some (3%N, outcome restore_run)) | _ => inr None end
  | KJoin k => match k return kans (KJoin k) with CommandTask => Some (4%N, outcome command_run) | _ => None end
  | op => task_host h op
  end.

Definition sample_batch : kprog (result CloneRunError N) :=
  batch (join "/") (λ s, [s]) (λ _, Ok []) None boot_config 5 (λ _, "error") (λ _, "failed") (λ _, Ok "{}")
    (fleet_args (Some "make test")).

Definition fleet_trace : list kevent := snd (exec fleet_host sample_batch []).

Definition sample_allocate : job AllocationTask := JAllocate ["s"] 1 8 {| claimer_pid := 2; claimer_starttime := 9 |}.

Lemma fleet_spawns :
  spawns fleet_trace =
    [(1%N, existT SourceTask (JSource ["snap"] ["image"] None)); (2%N, existT AllocationTask sample_allocate);
     (3%N, existT RestoreTask sample_restore_job); (4%N, existT CommandTask (JCommand sample_custody))].
Proof. vm_compute. reflexivity. Qed.

Lemma fleet_joins :
  joins fleet_trace = [existT RestoreTask (3%N, outcome restore_run); existT CommandTask (4%N, outcome command_run)].
Proof. vm_compute. reflexivity. Qed.

Lemma fleet_sets : join_sets fleet_trace.
Proof.
  split.
  - intros kd. unfold spawned_ids. rewrite fleet_spawns. destruct kd; cbn; repeat constructor; by apply not_elem_of_nil.
  - intros kd. unfold joined_ids. rewrite fleet_joins. destruct kd; cbn; repeat constructor; by apply not_elem_of_nil.
  - intros kd. unfold spawned_ids, joined_ids. rewrite fleet_spawns, fleet_joins. destruct kd; cbn; set_solver.
  - intros kd h1 e h2 Hs He. exfalso.
    set (full := λ e : kevent, match e with
      Event op x => match op return kans op → bool with
                    | KJoin _ => λ x, is_some x
                    | KJoinOrSignal _ => λ x, match x with inr None => false | _ => true end
                    | _ => λ _, true end x end).
    assert (Hall : forallb full fleet_trace = true) by (vm_compute; reflexivity). rewrite Hs, forallb_app in Hall. cbn in Hall.
    destruct He as [-> | ->]; cbn in Hall; by rewrite andb_false_r in Hall.
Qed.

Definition fleet_logs (kd : kind) (id : N) : list kevent :=
  match kd with RestoreTask => snd restore_run | CommandTask => snd command_run | _ => [] end.

(** What ran alone came to what it answers. *)
Lemma exec_outcome {kd : kind} host (p : kprog (out kd)) x :
  outcome (exec host p []) = Ok x → run p (snd (exec host p [])) (Some x).
Proof.
  unfold outcome. intros E. pose proof (exec_run_nil host p) as Hr. destruct (fst (exec host p [])) as [y|]; [|done].
  injection E as ->. exact Hr.
Qed.

Definition fleet_honest_at (args : CloneArgs) : Prop :=
  honest (join "/") (λ s, [s]) show_N show_N (λ _, Ok "{}") id (λ _, EmptyString) id id (λ r, pretty (exit_code r))
    cm_model_id (λ _, "") (λ _, Ok "{}") 16 id (λ _, None) (λ _, Err "") (λ _, None) "linux" None boot_config 5 (λ _, "error")
    (λ _, "failed") args fleet_logs fleet_trace.

Lemma existT_join kd kd' i i' (x : result JoinError (out kd)) (x' : result JoinError (out kd')) :
  (existT kd (i, x) : any_join) = existT kd' (i', x') → ∃ E : kd = kd', i = i' ∧ eq_rect kd (λ k, result JoinError (out k)) x kd' E = x'.
Proof.
  intros H. assert (E : kd = kd') by exact (f_equal (@projT1 _ _) H). subst kd'. exists eq_refl.
  apply (Eqdep_dec.inj_pair2_eq_dec _ (decide_rel (=))) in H. by injection H as -> ->.
Qed.

Lemma existT_job kd (i i' : N) (j j' : job kd) : (i, existT kd j : any_job) = (i', existT kd j' : any_job) → i = i' ∧ j = j'.
Proof. intros [= -> H]. by apply (Eqdep_dec.inj_pair2_eq_dec _ (decide_rel (=))) in H as ->. Qed.

(** The jobs of a kind that one such task was spawned for. *)
Lemma fleet_job kd j (id : N) : (id, existT kd j : any_job) ∈ spawns fleet_trace →
  (∀ E : kd = RestoreTask, eq_rect kd job j RestoreTask E = sample_restore_job) ∧
  (∀ E : kd = CommandTask, eq_rect kd job j CommandTask E = JCommand sample_custody).
Proof.
  rewrite fleet_spawns. generalize sample_restore_job sample_custody sample_allocate. intros restore custody allocate Hin.
  split; intros ->; cbn [eq_rect]; repeat (apply elem_of_cons in Hin as [Hin|Hin]; [try (by injection Hin); by apply existT_job in Hin as [_ ->]|]);
    by apply elem_of_nil in Hin.
Qed.

Lemma fleet_honest : fleet_honest_at (fleet_args (Some "make test")).
Proof.
  intros kd j id x Hs Hc. exists PlanObserve, ["keys"; "id"].
  assert (Hj : (id, existT kd j) ∈ spawns fleet_trace) by (apply list_elem_of_omap; by exists (Event (Ans := kans) (KSpawn kd j) id)).
  clear Hs. apply fleet_job in Hj as [Hr Hd]. unfold came_to in Hc. rewrite fleet_joins in Hc.
  apply elem_of_cons in Hc as [Hc|Hc%list_elem_of_singleton]; apply existT_join in Hc as (E & -> & E').
  - subst kd. rewrite (Hr eq_refl : j = _). symmetry in E'. exact (exec_outcome task_host _ x E').
  - subst kd. rewrite (Hd eq_refl : j = _). symmetry in E'. exact (exec_outcome task_host _ x E').
Qed.

Lemma batch_ordered_witness :
  fst (exec fleet_host sample_batch []) = Some (Ok 0%N) ∧ guarded batch_allows fleet_trace ∧
  accounted (join "/") None boot_config 5 (fleet_args (Some "make test")) (Ok 0%N) fleet_trace.
Proof.
  assert (E : fst (exec fleet_host sample_batch []) = Some (Ok 0%N)) by (vm_compute; reflexivity). split; [exact E|].
  pose proof (exec_run_nil fleet_host sample_batch) as Hr.
  destruct (batch_ordered (join "/") (λ s, [s]) (λ _, Ok []) None boot_config 5 (λ _, "error") (λ _, "failed") (λ _, Ok "{}")
              (fleet_args (Some "make test")) fleet_trace _ Hr) as [Hg Ha].
  split; [exact Hg|exact (Ha _ E)].
Defined.

Lemma no_clone_left_witness :
  returned (join "/") None boot_config 5 (fleet_args (Some "make test")) fleet_logs sample_allocation fleet_trace.
Proof.
  assert (E : fst (exec fleet_host sample_batch []) = Some (Ok 0%N)) by (vm_compute; reflexivity).
  pose proof (exec_run_nil fleet_host sample_batch) as Hr. rewrite E in Hr.
  refine (no_clone_left (join "/") (λ s, [s]) show_N show_N (λ _, Ok "{}") id (λ _, EmptyString) id id (λ r, pretty (exit_code r))
    cm_model_id (λ _, "") (λ _, Ok "{}") 16 id (λ _, None) (λ _, Err "") (λ _, None) (λ _, Ok []) "linux" None boot_config 5
    (λ _, "error") (λ _, "failed") (λ _, Ok "{}") (fleet_args (Some "make test")) fleet_logs fleet_trace (Ok 0%N) Hr fleet_sets
    fleet_honest sample_allocation _).
  assert (Ea : allocated fleet_trace = [sample_allocation]) by (vm_compute; reflexivity). rewrite Ea. by left.
Defined.
