(* ===== verification/Dispatch.v ===== *)
(** * Dispatch: from the command line to an exit code ([main.rs])

    The parsed commands, the dispatch to the programs of the components, what each
    command prints on standard output and on standard error, and the code the
    process exits with.  [clap] has split the arguments, parsed each value with its
    parser, filled in defaults and refused the combinations of flags its attributes
    exclude; logging is left out. *)

From S2P Require Import Prelude RStr Fs Room Slot CloneRoutes CloneNet Artifacts Prog Config Egress Snapshot Intents Sys Images Launch RestoreSource Registry SnapshotExec Runner Doctor Cli Run CloneRecords CloneBatch.
From stdpp Require Import options.

(** ** Commands *)

Record RunCommand := {
  rn_image : path;
  rn_cpus : N;
  rn_memory : N;
  rn_disk : option N;
  rn_toolstore : option path;
  rn_keep : bool;
  rn_command : option string;
  rn_runner : RunnerKind;
  rn_repo : option string;
  rn_task : option path;
  rn_model : option string;
  rn_base_sha : option string;
  rn_push_branch : option string;
  rn_out_dir : option path;
  rn_readonly_rootfs : bool;
  rn_max_wall : option N;
  rn_max_pool : option N;
  rn_json : bool;
  rn_lifecycle : option path;
  rn_witness : bool;
  rn_secret : list string;
  rn_egress : option Policy
}.

Record BaseCreateCommand := {
  bs_image : path;
  bs_cpus : N;
  bs_memory : N;
  bs_toolstore : option path;
  bs_repo : option string;
  bs_base_sha : option string;
  bs_warm : option string;
  bs_readonly_rootfs : bool;
  bs_max_pool : option N;
  bs_json : bool
}.

Record RestoreCommand := {
  rt_snapshot_dir : path;
  rt_image : path;
  rt_toolstore : option path;
  rt_keep : bool;
  rt_command : option string;
  rt_slot : option N;
  rt_out_dir : option path;
  rt_witness : bool;
  rt_secret : list string;
  rt_egress : option Policy;
  rt_max_wall : option N;
  rt_json : bool
}.

Record CloneCommand := {
  cl_snapshot_dir : path;
  cl_image : path;
  cl_toolstore : option path;
  cl_count : N;
  cl_command : option string;
  cl_out_dir : option path;
  cl_witness : bool;
  cl_secret : list string;
  cl_egress : option Policy;
  cl_max_wall : option N;
  cl_max_pool : option N;
  cl_json : bool
}.

Record MatrixCommand := {
  mt_snapshot_dir : path;
  mt_image : path;
  mt_toolstore : option path;
  mt_cases : path;
  mt_out_dir : path;
  mt_witness : bool;
  mt_secret : list string;
  mt_egress : option Policy;
  mt_max_wall : option N;
  mt_max_pool : option N;
  mt_json : bool
}.

(** The enum's variants, without [Cmd]. *)
Inductive Command :=
| CmdRun (c : RunCommand)
| CmdBaseCreate (c : BaseCreateCommand)
| CmdSnapshot (id : string) (out : option path) (json : bool)
| CmdRestore (c : RestoreCommand)
| CmdClone (c : CloneCommand)
| CmdMatrix (c : MatrixCommand)
| CmdSnapshotRecover (id : option string) (json : bool)
| CmdCollect (from : path)
| CmdDoctor (image : option path) (json : bool)
| CmdDiff (from : path) (json : bool)
| CmdLs (json : bool)
| CmdGc (dry_run : bool) (id : option string)
| CmdKill (id : string) (json : bool).

(** Only these carry secrets. *)
Definition harvest_cli_secrets (env : gmap string string) (c : Command) : result RoomsError (option string) * gmap string string :=
  match c with
  | CmdRun c => harvest_secrets env (rn_secret c)
  | CmdRestore c => harvest_secrets env (rt_secret c)
  | CmdClone c => harvest_secrets env (cl_secret c)
  | CmdMatrix c => harvest_secrets env (mt_secret c)
  | _ => (Ok None, env)
  end.

Definition wants_json_error_record (c : Command) : bool :=
  match c with
  | CmdRun c => rn_json c
  | CmdBaseCreate c => bs_json c
  | CmdRestore c => rt_json c
  | CmdClone c => cl_json c
  | CmdMatrix c => mt_json c
  | _ => false
  end.

(** The arguments of the component's own program. *)
Definition run_args (c : RunCommand) (secrets : option string) : RunArgs :=
  {| ra_resources := {| rs_cpus := rn_cpus c; rs_memory_mib := rn_memory c; rs_disk_gib := rn_disk c |};
     ra_image := rn_image c; ra_toolstore := rn_toolstore c; ra_keep := rn_keep c; ra_command := rn_command c;
     ra_runner := rn_runner c; ra_repo := rn_repo c; ra_task := rn_task c; ra_model := rn_model c;
     ra_base_sha := rn_base_sha c; ra_push_branch := rn_push_branch c; ra_out_dir := rn_out_dir c;
     ra_readonly_rootfs := rn_readonly_rootfs c; ra_max_wall := rn_max_wall c; ra_max_pool := rn_max_pool c;
     ra_json := rn_json c; ra_lifecycle := rn_lifecycle c; ra_witness := rn_witness c; ra_secrets := secrets;
     ra_egress := default PolicyObserve (rn_egress c) |}.

Definition base_create_args (c : BaseCreateCommand) : BaseCreateArgs :=
  {| ba_image := bs_image c; ba_resources := {| rs_cpus := bs_cpus c; rs_memory_mib := bs_memory c; rs_disk_gib := None |};
     ba_toolstore := bs_toolstore c; ba_repo := bs_repo c; ba_base_sha := bs_base_sha c; ba_warm := bs_warm c;
     ba_max_pool := bs_max_pool c; ba_json := bs_json c |}.

Definition restore_args (c : RestoreCommand) (secrets : option string) : RestoreArgs :=
  {| re_snapshot_dir := rt_snapshot_dir c; re_image := rt_image c; re_toolstore := rt_toolstore c; re_keep := rt_keep c;
     re_command := rt_command c; re_slot := rt_slot c; re_out_dir := rt_out_dir c; re_witness := rt_witness c;
     re_secrets := secrets; re_egress := default PolicyObserve (rt_egress c); re_max_wall := rt_max_wall c;
     re_json := rt_json c |}.

Definition clone_args (c : CloneCommand) (secrets : option string) : CloneArgs :=
  {| ca_snapshot_dir := cl_snapshot_dir c; ca_image := cl_image c; ca_toolstore := cl_toolstore c; ca_count := cl_count c;
     ca_command := cl_command c; ca_workloads := None; ca_matrix_sha256 := None; ca_out_dir := cl_out_dir c;
     ca_witness := cl_witness c; ca_secrets := secrets; ca_egress := default PolicyObserve (cl_egress c);
     ca_max_wall := cl_max_wall c; ca_max_pool := cl_max_pool c; ca_json := cl_json c |}.

Definition matrix_args (c : MatrixCommand) (secrets : option string) : MatrixArgs :=
  {| mx_snapshot_dir := mt_snapshot_dir c; mx_image := mt_image c; mx_toolstore := mt_toolstore c; mx_cases := mt_cases c;
     mx_out_dir := mt_out_dir c; mx_witness := mt_witness c; mx_secrets := secrets;
     mx_egress := default PolicyObserve (mt_egress c); mx_max_wall := mt_max_wall c; mx_max_pool := mt_max_pool c;
     mx_json := mt_json c |}.

(** ** Calls *)

(** A call of a batch or a run, of the doctor, the loading of artifacts, and a line
    on standard error. *)
Inductive cop :=
| CKop (op : kop)
| CDoctor (op : dop)
| CLoad (from : path)
| CErr (line : string).

Definition cans (op : cop) : Type :=
  match op with
  | CKop op => kans op
  | CDoctor op => dans op
  | CLoad _ => result ArtifactsError RunnerArtifacts
  | CErr _ => unit
  end.

Abbreviation cprog := (prog cans) (only parsing).
Abbreviation cevent := (event cans) (only parsing).

Definition batched {A : Type} (p : kprog A) : cprog A := translate (λ op, call (CKop op)) p.
Definition hosting {A : Type} (p : sys A) : cprog A := batched (own (host p)).
Definition examined {A : Type} (p : prog dans A) : cprog A := translate (λ op, call (CDoctor op)) p.

Definition println (line : string) : cprog unit := batched (print line).
Definition eprintln (line : string) : cprog unit := call (CErr line).
Definition println_each (l : list string) : cprog unit := do* pfor_each println l in Ret ().
Definition eprintln_each (l : list string) : cprog unit := do* pfor_each eprintln l in Ret ().

(** What else is serialized, by [serde_json] too. *)
Inductive document :=
| SnapshotDocument (r : SnapshotResult)
| RecoveryDocument (r : RecoveryReport)
| DoctorDocument (r : DoctorReport)
| ListDocument (r : ListReport)
| KillDocument (r : KillReport)
| BaseDocument (r : BaseCreatedRecord).

(** ** Text *)

Definition show_ArtifactsError (show_path : path → string) (e : ArtifactsError) : string :=
  match e with
  | MissingRequired p => "missing required artifact: " +:+ p
  | UnsupportedSchemaVersion version => "unsupported result.json schema_version: " +:+ show_N version
  | DanglingReference p => "result.json references missing file: " +:+ p
  | UnsafeReference p => "result.json reference escapes the artifact dir: " +:+ p
  | InvalidJson detail => "invalid result.json: " +:+ detail
  | ArtifactsIo p text => "read " +:+ show_path p +:+ ": " +:+ text
  end.

Definition spaces (n : nat) : string := String.concat "" (replicate n " ").

(** [{:<n}]: to [n] characters, with spaces after. *)
Definition pad (n : nat) (s : string) : string := s +:+ spaces (n - char_count s).

Definition columns (id state pid age slot label : string) : string :=
  pad 26 id +:+ "  " +:+ pad 13 state +:+ "  " +:+ pad 7 pid +:+ "  " +:+ pad 8 age +:+ "  " +:+ pad 4 slot +:+ "  " +:+ label.

Definition show_opt_N (n : option N) : string := match n with Some n => show_N n | None => "-" end.

(** [print_escapes_by_op]. *)
Definition escapes_by_op (c : Changeset) : list string :=
  let of_op (mark : string) (l : list string) := (λ p, "    " +:+ mark +:+ " /" +:+ p) <$> filter (λ p, is_lane_escape p = true) l in
  of_op "A" (added c) ++ of_op "M" (modified c) ++ of_op "D" (deleted c).

Definition show_nat (n : nat) : string := show_N (N.of_nat n).

(** What is printed of a change set with an overlay. *)
Definition changeset_lines (c : Changeset) : list string :=
  let escapes := lane_escapes c in
  let '(a, m, d) := workspace_counts c in
  (if bool_decide (escapes = []) then [] else
   ("[!] " +:+ show_nat (length escapes) +:+ " lane escape(s) — writes outside /workspace to persistent paths:") :: escapes_by_op c) ++
  ["/workspace: +" +:+ show_nat a +:+ " ~" +:+ show_nat m +:+ " -" +:+ show_nat d] ++
  (if (0 <? ephemeral_count c)%nat
   then ["(" +:+ show_nat (ephemeral_count c) +:+ " runtime write(s) under /run, /var/log, ... filtered)"] else []) ++
  (if Changeset_is_empty c then ["(no changes)"] else []).

Definition gc_lines (r : GcReport) (only : option string) : list string :=
  match gr_outcomes r with
  | [] => [match only with None => "no rooms to reap" | Some id => "no room with id " +:+ id +:+ " (already gone?)" end]
  | outcomes =>
      ((λ o, go_id o +:+ "  " +:+ go_reason o) <$> outcomes) ++
      [if gr_dry_run r
       then "dry-run: " +:+ show_nat (length (filter (λ o, is_reapable (go_state o) = true) outcomes)) +:+ " room(s) would be reaped"
       else "reaped " +:+ show_nat (length (filter (λ o, go_reaped o = true) outcomes)) +:+ " room(s)"]
  end.

Definition kill_line (r : KillReport) (id : string) : string :=
  match kr_outcomes r with
  | [] => "no room with id " +:+ id +:+ " (already gone?)"
  | o :: _ => ko_id o +:+ "  " +:+ ko_reason o
  end.

Definition snapshot_line (show_path : path → string) (r : SnapshotResult) : string :=
  "snapshot " +:+ sn_snapshot_id r +:+ " created at " +:+ show_path (sn_directory r) +:+ " from base " +:+ sn_base_room r +:+
  " on slot " +:+ show_N (sn_slot r) +:+ " (provenance=" +:+ show_Provenance (sn_provenance r) +:+ ")".

Definition pending_line (p : PendingSnapshot) : string :=
  ps_snapshot_id p +:+ "  base=" +:+ ps_base_room p +:+ "  boundary=" +:+ ps_boundary p +:+ "  " +:+ ps_next_action p.

Definition check_line (c : CheckResult) : string :=
  let status := if negb (ck_ok c) then "FAIL" else if is_warning c then "WARN" else "ok" in
  "[" +:+ status +:+ "] " +:+ ck_name c +:+ ": " +:+ ck_message c.

Section dispatch.
  Variable show_path : path → string.
  Variable resolve : string → path.
  Variables (show_secs show_duration show_hex : N → string) (show_json : json → result string string).
  Variables (show_debug : string → string) (show_status : option Z → string).
  Variables (show_utf8_error show_int_error : string → string).
  Variables (show_result : ResultJson → string) (show_meta : CursorMeta → string) (show_changeset : Changeset → string).
  Variable show_witness : Pcap.Witness → result string string.
  Variables (immutable_flag : N) (sha256 : string → string) (parse_manifest : string → option Images.Manifest).
  Variables (parse_meta : string → result string SnapshotMeta) (parse_attestation : string → option SnapshotAttestation).
  Variables (parse_receipt : string → result string SnapshotAttestation) (show_receipt : SnapshotAttestation → result string string).
  Variable parse_changeset : string → result string Changeset.
  Variable to_socket_addrs : string → result string (list IpAddr).
  Variables (target : target_arch) (target_name CHECKSUMS_TXT : string) (home : option path).
  Variable fuel : nat.
  (** [Display] of an error and of a failed join, [serde_json::to_string], and
      [to_string_pretty] where the code prints it so. *)
  Variable display : RoomsError → string.
  Variable show_join : JoinError → string.
  Variable to_json : report → result string string.
  Variable to_text : document → result string string.

Definition config : RoomsConfig := RoomsConfig_default.

Definition print_document (d : document) : cprog (result RoomsError unit) :=
  try* line := Ret (map_err RmInternal (to_text d)) in do* println line in Ret (Ok ()).

(** The record of an error, when it is asked for. *)
Definition with_record {A : Type} (json : bool) (p : cprog (result RoomsError A)) : cprog (result RoomsError A) :=
  let* r := p in
  do* match r with Err e => if json then batched (emit_run_error_json display to_json e) else Ret () | Ok _ => Ret () end in
  Ret r.

Definition run_room (args : RunArgs) : cprog (result RoomsError N) :=
  with_record (ra_json args)
    (batched (own (run_room_inner show_path resolve show_secs show_duration show_json show_debug show_status show_utf8_error
       show_int_error show_result show_meta show_changeset show_witness immutable_flag sha256 parse_manifest target_name
       to_socket_addrs target home config fuel args))).

(** A record that cannot be serialized is only logged. *)
Definition emit_base_created (r : BaseCreatedRecord) (json : bool) : cprog unit :=
  if json then do* print_document (BaseDocument r) in Ret () else
  println ("base created: room " +:+ bc_room_id r +:+ " on slot " +:+ show_N (bc_slot r) +:+ " (guest " +:+
           show_ipv4 (bc_guest_ip r) +:+ "); provenance=neutral — ready for `rooms snapshot`").

Definition base_create (args : BaseCreateArgs) : cprog (result RoomsError N) :=
  with_record (ba_json args) (
    try* record := batched (own (base_create_inner show_path resolve show_secs show_json show_debug immutable_flag sha256
                     parse_manifest target_name to_socket_addrs target home config fuel args)) in
    do* emit_base_created record (ba_json args) in
    Ret (Ok 0%N)).

(** ** Snapshots *)

Definition render_snapshot_result (r : SnapshotResult) (json : bool) : cprog (result RoomsError unit) :=
  if json then print_document (SnapshotDocument r) else do* println (snapshot_line show_path r) in Ret (Ok ()).

Definition snapshot_cmd (id : string) (out : option path) (json : bool) : cprog (result RoomsError N) :=
  try* _ := Ret (validate_json_emitted_path out json "snapshot --out") in
  try* r := pmap_err RmInternal (hosting (SnapshotExec.create show_path show_secs show_json immutable_flag sha256 parse_meta
              parse_receipt show_receipt home config fuel id out)) in
  try* _ := render_snapshot_result r json in
  Ret (Ok 0%N).

Definition snapshot_recover_cmd (id : option string) (json : bool) : cprog (result RoomsError N) :=
  try* report := pmap_err RmInternal (hosting (recover show_path show_secs show_json immutable_flag parse_meta parse_receipt
                   show_receipt home config fuel id)) in
  if json then try* _ := print_document (RecoveryDocument report) in Ret (Ok 0%N) else
  match rc_completed report with
  | Some completed => try* _ := render_snapshot_result completed false in Ret (Ok 0%N)
  | None => do* println_each (pending_line <$> rc_pending report) in Ret (Ok 0%N)
  end.

(** ** Reports *)

Definition run_doctor_cmd (image : option path) (json : bool) : cprog (result RoomsError N) :=
  let* report := examined (run_doctor show_path show_status show_hex resolve target target_name home config CHECKSUMS_TXT image) in
  try* _ := if json then print_document (DoctorDocument report)
            else do* eprintln_each (check_line <$> dr_checks report) in Ret (Ok ()) in
  Ret (Ok (if all_ok report then 0 else 1)%N).

Definition collect_artifacts (from : path) : cprog (result RoomsError N) :=
  let* loaded := (call (CLoad from) : cprog (result ArtifactsError RunnerArtifacts)) in
  Ret (match loaded with Err e => Err (RmInternal (show_ArtifactsError show_path e)) | Ok _ => Ok 0%N end).

Definition render_changeset (c : Changeset) (raw : string) (json : bool) : cprog unit :=
  if json then println raw else
  if negb (overlay_active c) then
    eprintln "no overlay change set: this run used a writable rootfs (only --runner cursor or --readonly-rootfs produce an overlay)"
  else println_each (changeset_lines c).

Definition diff_changeset (from : path) (json : bool) : cprog (result RoomsError N) :=
  let* metadata := hosting (call (OStat from)) in
  let is_dir := match metadata with Ok st => match st_kind st with KindDir => true | _ => false end | Err _ => false end in
  if negb is_dir then do* eprintln ("--from is not an existing directory: " +:+ show_path from) in Ret (Ok 2%N) else
  let p := path_join from CHANGESET_JSON in
  let* read := hosting (call (OReadText p)) in
  match read with
  | Err e =>
      if decide (Fs.kind e = NotFound) then
        do* eprintln ("no " +:+ CHANGESET_JSON +:+ " in " +:+ show_path from +:+
                      ": collect the run with --out, under --runner cursor or --readonly-rootfs") in
        Ret (Ok 2%N)
      else Ret (Err (RmInternal ("read " +:+ show_path p +:+ ": " +:+ message e)))
  | Ok raw =>
      try* changeset := Ret (map_err (λ e, RmInternal ("parse changeset: " +:+ e)) (parse_changeset raw)) in
      if negb (cs_schema_version changeset =? CHANGESET_SCHEMA_VERSION)%N then
        do* eprintln ("changeset.json schema_version " +:+ show_N (cs_schema_version changeset) +:+ " != supported " +:+
                      show_N CHANGESET_SCHEMA_VERSION +:+ ": regenerate with this rooms build") in
        Ret (Ok 2%N)
      else do* render_changeset changeset raw json in Ret (Ok (changeset_exit_code changeset))
  end.

Definition room_row (r : RoomEntry) : cprog string :=
  let* age := hosting (format_age (en_started_at r)) in
  Ret (columns (en_id r) (RoomState_label (en_state r)) (show_opt_N (en_pid r)) age (show_opt_N (slot_index <$> en_slot r))
         (truncate_label (en_label r) 48)).

Definition render_rooms_json (rooms : list RoomEntry) : cprog (result RoomsError N) :=
  try* _ := print_document (ListDocument (ListReport_new rooms)) in Ret (Ok 0%N).

Definition render_rooms_human (rooms : list RoomEntry) : cprog unit :=
  match rooms with
  | [] => eprintln "no rooms"
  | rooms =>
      do* println (columns "ID" "STATE" "PID" "AGE" "SLOT" "COMMAND") in
      do* pfor_each (λ r, let* row := room_row r in println row) rooms in
      Ret ()
  end.

Definition list_rooms_cmd (json : bool) : cprog (result RoomsError N) :=
  try* rooms := pmap_err RmRegistry (hosting (list_rooms home config)) in
  if json then render_rooms_json rooms else do* render_rooms_human rooms in Ret (Ok 0%N).

Definition gc_cmd (dry_run : bool) (id : option string) : cprog (result RoomsError N) :=
  try* report := pmap_err RmRegistry (hosting (gc show_path home config fuel {| gc_dry_run := dry_run; gc_only := id |})) in
  do* eprintln_each (gc_lines report id) in
  Ret (Ok (gc_exit_code report)).

Definition kill_cmd (id : string) (json : bool) : cprog (result RoomsError N) :=
  try* report := pmap_err RmRegistry (hosting (kill show_path home config fuel id)) in
  try* _ := if json then print_document (KillDocument report) else do* eprintln (kill_line report id) in Ret (Ok ()) in
  Ret (Ok (KillReport_exit_code report)).

(** ** The process *)

Definition dispatch (c : Command) (secrets : option string) : cprog (result RoomsError N) :=
  match c with
  | CmdRun c => run_room (run_args c secrets)
  | CmdBaseCreate c => base_create (base_create_args c)
  | CmdSnapshot id out json => snapshot_cmd id out json
  | CmdRestore c =>
      batched (restore_room show_path resolve show_secs show_duration show_json show_debug show_status show_utf8_error
        show_int_error show_result show_meta show_changeset show_witness immutable_flag sha256 parse_manifest parse_meta
        parse_attestation to_socket_addrs target_name home config fuel display to_json (restore_args c secrets))
  | CmdClone c =>
      batched (clone_rooms show_path resolve to_socket_addrs home config fuel display show_join to_json (clone_args c secrets))
  | CmdMatrix c =>
      batched (matrix_rooms show_path resolve to_socket_addrs home config fuel display show_join to_json (matrix_args c secrets))
  | CmdSnapshotRecover id json => snapshot_recover_cmd id json
  | CmdCollect from => collect_artifacts from
  | CmdDoctor image json => run_doctor_cmd image json
  | CmdDiff from json => diff_changeset from json
  | CmdLs json => list_rooms_cmd json
  | CmdGc dry_run id => gc_cmd dry_run id
  | CmdKill id json => kill_cmd id json
  end.

Definition process_code (r : result RoomsError N) : N := match r with Ok code => code | Err e => exit_code_for_error e end.

Definition async_main (c : Command) (secrets : option string) : cprog N := let* r := dispatch c secrets in Ret (process_code r).

(** What is left of the environment is the process's from then on. *)
Definition main (env : gmap string string) (c : Command) : cprog N :=
  match fst (harvest_cli_secrets env c) with
  | Err e =>
      do* if wants_json_error_record c then batched (emit_run_error_json display to_json e) else Ret () in
      Ret (exit_code_for_error e)
  | Ok secrets => async_main c secrets
  end.
End dispatch.
