(* ===== verification/DispatchSpec.v ===== *)
(** * DispatchSpec: what a process leaves on its standard output

    A command that was asked for a machine-readable outcome prints one when it
    fails, whatever failed; and the gate of [rooms diff] passes only what it read. *)

From S2P Require Import Prelude RStr Fs Room Slot CloneRoutes CloneNet Artifacts Prog Config Egress Snapshot Intents Sys Images Launch RestoreSource Registry SnapshotExec Runner RunnerOrder RunnerWait Boot Returns Doctor Cli Run RunOrder RunEnds CloneRecords CloneBatch CloneFates CloneLeaks Dispatch.
From stdpp Require Import options.

(** The batch's calls among those of the process. *)
Definition lift_event (e : event kans) : cevent := Event (Ans := cans) (CKop (ev_op e)) (ev_ans e).

Lemma run_batched {A : Type} (p : prog kans A) k o : run (batched p) k o → ∃ tr, run p tr o ∧ k = lift_event <$> tr.
Proof.
  revert k. induction p as [a|op j IH|]; intros k Hr; cbn in Hr.
  - destruct Hr as [-> Ho]. by exists [].
  - destruct Hr as [[-> ->]|(x & k' & -> & Hr)]; [exists []; split; [by left|done]|].
    destruct (IH _ _ Hr) as (tr & Htr & ->). exists (Event op x :: tr). split; [right; by eauto|done].
  - destruct Hr as [-> Ho]. by exists [].
Qed.

Lemma spec_batched {A : Type} (p : prog kans A) h (P : A → list (event kans) → Prop) (Q : A → list cevent → Prop) :
  spec (λ _ _, True) p [] P → (∀ a k, P a k → Q a (h ++ (lift_event <$> k))) → spec (λ _ _, True) (batched p) h Q.
Proof.
  intros Hp HQ. eapply (only_traced (λ _, True)); [apply only_any|done|]. intros a k _ Hr.
  apply run_batched in Hr as (tr & Hr & ->). apply HQ. by apply (spec_run _ _ _ _ _ Hp Hr).
Qed.

(** A program that only renders what another returns. *)
Lemma run_bind_ret {A B : Type} (p : cprog A) (f : A → B) tr b :
  run (let* a := p in Ret (f a)) tr (Some b) → ∃ a, run p tr (Some a) ∧ b = f a.
Proof.
  revert tr. induction p as [a|op j IH|]; intros tr Hr; cbn in Hr.
  - destruct Hr as [-> [|[= ->]]]; [done|]. exists a. cbn. auto.
  - destruct Hr as [[_ ?]|(x & tr' & -> & Hr)]; [done|]. destruct (IH _ _ Hr) as (a & Ha & ->).
    exists a. split; [right; eauto|done].
  - by destruct Hr.
Qed.

Section recorded.
  Variables (display : RoomsError → string) (to_json : report → result string string).

(** The ceiling of the pool that was full, when that is the error. *)
Definition pool_full (e : RoomsError) : option N :=
  match e with RmSlot (SePoolFull cap) | RmCloneNet (CnePoolFull cap) => Some cap | _ => None end.

(** The record of an error: its text, and its ceiling and the kind [pool_full] just
    when the pool was full. *)
Definition record_tells (e : RoomsError) (r : RunErrorRecord) : Prop :=
  er_message r = display e ∧ er_cap r = pool_full e ∧ (er_error_kind r = "pool_full" ↔ pool_full e ≠ None).

(** A line that tells of the error: its own record, alone or in a matrix's, or the
    failures of a batch. *)
Definition reports (e : RoomsError) (r : report) : Prop :=
  (∃ rec, record_tells e rec ∧ (r = RunErrorLine rec ∨
     ∃ m, r = MatrixErrorLine m ∧ mre_status m = "failed" ∧ mre_error m = rec)) ∨
  (∃ f sha, r = clone_restore_failure_report f sha ∧ e = RmInternal (restore_summary f)) ∨
  (∃ f sha, r = clone_command_failure_report f sha ∧ e = RmInternal (command_summary f)).

Lemma record_of_tells e : record_tells e (run_error_record display e).
Proof using Type. destruct e as [|[]| | | | | |[]|]; by repeat split. Qed.

Lemma reports_record e : reports e (RunErrorLine (run_error_record display e)).
Proof using Type. left. eexists. split; [apply record_of_tells|by left]. Qed.

Lemma reports_matrix e sha : reports e (matrix_run_error_report display e sha).
Proof using Type. left. eexists. split; [apply record_of_tells|]. right. by eexists. Qed.

Definition printed (e : RoomsError) (h : list (event kans)) : Prop :=
  ∃ r line, to_json r = Ok line ∧ reports e r ∧ Event (Ans := kans) (KPrint line) () ∈ h.

Definition recorded (e : RoomsError) (h : list cevent) : Prop :=
  ∃ r line, to_json r = Ok line ∧ reports e r ∧ Event (Ans := cans) (CKop (KPrint line)) () ∈ h.

Lemma printed_recorded e h k : printed e k → recorded e (h ++ (lift_event <$> k)).
Proof using Type.
  intros (r & line & Hr & He & Hin). exists r, line. split; [done|]. split; [done|]. apply elem_of_app. right.
  by apply (list_elem_of_fmap_2 lift_event _ _ Hin).
Qed.

  (** The serializer does not fail. *)
  Context (to_json_total : ∀ r, ∃ line, to_json r = Ok line).

Lemma spec_print_report e r h :
  reports e r → spec (λ _ _, True) (print_report to_json r) h (λ x h', x = Ok () ∧ printed e h').
Proof using to_json_total.
  intros Hr. unfold print_report. destruct (to_json_total r) as [line E]. apply spec_try, spec_ret. rewrite E. cbn [map_err].
  unfold print. apply spec_bind. split; [exact I|]. intros []. split; [done|]. exists r, line. split; [done|]. split; [done|].
  apply elem_of_app. right. by apply list_elem_of_singleton.
Qed.

Lemma spec_emit_error e h :
  spec (λ _ _, True) (emit_run_error_json display to_json e) h (λ _ h', printed e h').
Proof using to_json_total.
  unfold emit_run_error_json, print_best_effort. apply spec_bind. eapply spec_mono; [apply (spec_print_report e), reports_record|].
  by intros x h' [_ H].
Qed.

Lemma spec_emit_clone_error e sha h :
  spec (λ _ _, True) (emit_clone_run_error_json display to_json e sha) h (λ _ h', printed e h').
Proof using to_json_total.
  unfold emit_clone_run_error_json. destruct sha as [sha|]; [|by apply spec_emit_error].
  unfold print_best_effort. apply spec_bind. eapply spec_mono; [apply (spec_print_report e), reports_matrix|].
  by intros x h' [_ H].
Qed.

(** An error of a command that prints records. *)
Definition told (r : result RoomsError N) (h : list (event kans)) : Prop := ∀ e, r = Err e → printed e h.

Lemma spec_any_run {A : Type} (p : prog kans A) h : spec (λ _ _, True) p h (λ _ _, True).
Proof using Type. eapply (only_spec (λ _, True)); [apply only_any|done|done]. Qed.

Lemma spec_clone_rooms show_path resolve to_socket_addrs home config fuel show_join args h :
  ca_json args = true →
  spec (λ _ _, True) (clone_rooms show_path resolve to_socket_addrs home config fuel display show_join to_json args) h told.
Proof using to_json_total.
  intros Hj. unfold clone_rooms. apply spec_bind. eapply spec_mono; [apply spec_any_run|]. intros r h1 _. rewrite Hj.
  destruct r as [code|[e|failure|failure|c]]; [done|..].
  - apply spec_bind. eapply spec_mono; [apply spec_emit_clone_error|]. by intros u h2 H e' [= <-].
  - destruct (ca_matrix_sha256 args) as [sha|].
    + apply spec_try. eapply spec_mono.
      { apply (spec_print_report (RmInternal (restore_summary failure))). right. left. by eexists _, _. }
      intros x h2 [-> H]. by intros e' [= <-].
    + apply spec_try, spec_bind. eapply spec_mono; [apply spec_emit_error|]. intros u h2 H. apply spec_ret. by intros e' [= <-].
  - apply spec_try. eapply spec_mono.
    { apply (spec_print_report (RmInternal (command_summary failure))). right. right. by eexists _, _. }
    intros x h2 [-> H]. by intros e' [= <-].
  - unfold print_report. destruct (to_json_total (clone_cancellation_report c (ca_matrix_sha256 args))) as [line E].
    apply spec_try, spec_try, spec_ret. rewrite E. cbn [map_err]. unfold print. apply spec_bind. split; [exact I|]. by intros [].
Qed.

Lemma spec_matrix_rooms show_path resolve to_socket_addrs home config fuel show_join args h :
  mx_json args = true →
  spec (λ _ _, True) (matrix_rooms show_path resolve to_socket_addrs home config fuel display show_join to_json args) h told.
Proof using to_json_total.
  intros Hj. unfold matrix_rooms. apply spec_bind. split; [exact I|]. intros manifest. apply spec_ret. rewrite Hj.
  destruct manifest as [manifest|e]; [by apply spec_clone_rooms|].
  apply spec_bind. eapply spec_mono; [apply spec_emit_error|]. by intros u h2 H e' [= <-].
Qed.

(** The same, of the process. *)
Definition told_all (r : result RoomsError N) (h : list cevent) : Prop := ∀ e, r = Err e → recorded e h.

Lemma spec_told (p : prog kans (result RoomsError N)) h :
  spec (λ _ _, True) p [] told → spec (λ _ _, True) (batched p) h told_all.
Proof using Type. intros Hp. eapply spec_batched; [exact Hp|]. intros r k Hr e E. apply printed_recorded. by apply Hr. Qed.

Lemma spec_with_record (p : cprog (result RoomsError N)) h :
  spec (λ _ _, True) (with_record display to_json true p) h told_all.
Proof using to_json_total.
  unfold with_record. apply spec_bind. eapply (only_spec (λ _, True)); [apply only_any|done|]. intros [code|e] k _.
  - apply spec_bind, spec_ret. intros e E. discriminate E.
  - apply spec_bind. eapply spec_batched; [apply (spec_emit_error e)|]. intros u k2 Hp. apply spec_ret. intros e' [= <-].
    by apply printed_recorded.
Qed.
End recorded.

Section whole_process.
  Variable show_path : path → string.
  Variable resolve : string → path.
  Variables (show_secs show_duration show_hex : N → string) (show_json : json → result string string).
  Variables (show_debug : string → string) (show_status : option Z → string).
  Variables (show_utf8_error show_int_error : string → string).
  Variables (show_result : ResultJson → string) (show_meta : CursorMeta → string) (show_changeset : Changeset → string).
  Variable show_witness : Pcap.Witness → result string string.
  Variables (immutable_flag : N) (sha256 : string → string) (parse_manifest : string → option Images.Manifest).
  Variables (parse_meta : string → result string SnapshotMeta) (parse_attestation : string → option SnapshotAttestation).
  Variables (parse_receipt : string → result string SnapshotAttestation) (show_receipt : SnapshotAttestation → result string string).
  Variable parse_changeset : string → result string Changeset.
  Variable to_socket_addrs : string → result string (list IpAddr).
  Variables (target : target_arch) (target_name CHECKSUMS_TXT : string) (home : option path).
  Variable fuel : nat.
  Variable display : RoomsError → string.
  Variable show_join : JoinError → string.
  Variable to_json : report → result string string.
  Variable to_text : document → result string string.

Definition dispatched (c : Command) (secrets : option string) : cprog (result RoomsError N) :=
  dispatch show_path resolve show_secs show_duration show_hex show_json show_debug show_status show_utf8_error show_int_error
    show_result show_meta show_changeset show_witness immutable_flag sha256 parse_manifest parse_meta parse_attestation
    parse_receipt show_receipt parse_changeset to_socket_addrs target target_name CHECKSUMS_TXT home fuel display show_join
    to_json to_text c secrets.

Definition process (env : gmap string string) (c : Command) : cprog N :=
  main show_path resolve show_secs show_duration show_hex show_json show_debug show_status show_utf8_error show_int_error
    show_result show_meta show_changeset show_witness immutable_flag sha256 parse_manifest parse_meta parse_attestation
    parse_receipt show_receipt parse_changeset to_socket_addrs target target_name CHECKSUMS_TXT home fuel display show_join
    to_json to_text env c.

Lemma spec_dispatched c secrets :
  (∀ r, ∃ line, to_json r = Ok line) → wants_json_error_record c = true →
  spec (λ _ _, True) (dispatched c secrets) [] (told_all display to_json).
Proof using Type.
  intros Ht Hj. unfold dispatched. destruct c as [c|c| |c|c|c| | | | | | |]; cbn [wants_json_error_record] in Hj; try discriminate Hj;
    cbn [dispatch].
  - unfold run_room. cbn [ra_json run_args]. rewrite Hj. by apply spec_with_record.
  - unfold base_create. cbn [ba_json base_create_args]. rewrite Hj. by apply spec_with_record.
  - apply spec_told. unfold restore_room. apply spec_bind. eapply spec_mono; [apply spec_any_run|]. intros [code|e] h _.
    + apply spec_bind, spec_ret. intros e E. discriminate E.
    + cbn [re_json restore_args]. rewrite Hj. apply spec_bind. eapply spec_mono; [by apply spec_emit_error|]. by intros u h2 H e' [= <-].
  - by apply spec_told, spec_clone_rooms.
  - by apply spec_told, spec_matrix_rooms.
Qed.

(** What a process comes to: its secrets are refused, or its command answers. *)
Definition comes_to (env : gmap string string) (c : Command) (tr : list cevent) (r : result RoomsError N) : Prop :=
  match fst (harvest_cli_secrets env c) with
  | Err e => r = Err e
  | Ok secrets => run (dispatched c secrets) tr (Some r)
  end.

(** C38.  A process that was asked for a machine-readable outcome tells of its
    failure.  When the serializer does not fail: a process with [--json] that exits
    exits with the code its command answered, or it failed, with its secrets refused
    or in its command; then it has printed a line on standard output that tells of
    that very error, its own record with its text and, just when the pool was full,
    the kind [pool_full] and the ceiling, or the failures of its batch; and it exits
    with 4 when the pool was full and with 2 otherwise. *)
Theorem failures_recorded env c tr code :
  (∀ r, ∃ line, to_json r = Ok line) → wants_json_error_record c = true → run (process env c) tr (Some code) →
  ∃ r, comes_to env c tr r ∧
    match r with
    | Ok answered => code = answered
    | Err e => recorded display to_json e tr ∧ code = match pool_full e with Some _ => 4%N | None => 2%N end
    end.
Proof using Type.
  intros Ht Hj Hr. unfold comes_to. unfold process, main in Hr. rewrite Hj in Hr.
  assert (Hcode : ∀ e, exit_code_for_error e = match pool_full e with Some _ => 4%N | None => 2%N end)
    by (by intros [|[]| | | | | |[]|]).
  destruct (fst (harvest_cli_secrets env c)) as [secrets|e].
  - unfold async_main in Hr. fold (dispatched c secrets) in Hr. apply run_bind_ret in Hr as (r & Hr & ->).
    exists r. split; [exact Hr|]. destruct r as [answered|e]; [done|]. split; [|apply Hcode].
    destruct (spec_run _ _ _ _ _ (spec_dispatched c secrets Ht Hj) Hr) as [_ Hq]. by apply (Hq _ eq_refl).
  - exists (Err e). split; [done|].
    apply (spec_run (λ _ _, True) _ (λ code h, recorded display to_json e h ∧ code = exit_code_for_error e)) in Hr as [_ Hq].
    + destruct (Hq code eq_refl) as [H ->]. by split.
    + apply spec_bind. eapply spec_batched; [by apply spec_emit_error|]. intros u k Hp. apply spec_ret. split; [|done].
      by apply printed_recorded.
Qed.

(** The gate passes only what it read.  [rooms diff] answers 0 only when the
    change set was read and parsed, has the supported version and an active
    overlay, and no change escapes the workspace; it answers 3 only when one does. *)
Theorem diff_gates from json tr code :
  run (diff_changeset show_path parse_changeset from json) tr (Some (Ok code)) → code ≠ 2%N →
  ∃ raw c, Event (Ans := cans) (CKop (KRun None (XSys PMain (OReadText (path_join from CHANGESET_JSON))))) (Ok raw) ∈ tr ∧
    parse_changeset raw = Ok c ∧ cs_schema_version c = CHANGESET_SCHEMA_VERSION ∧ overlay_active c = true ∧
    ((code = 0%N ∧ lane_escapes c = []) ∨ (code = 3%N ∧ lane_escapes c ≠ [])).
Proof using Type.
  intros Hr Hc. set (gate := λ (r : result RoomsError N) (h : list cevent), ∀ code, r = Ok code → code ≠ 2%N →
    ∃ raw c, Event (Ans := cans) (CKop (KRun None (XSys PMain (OReadText (path_join from CHANGESET_JSON))))) (Ok raw) ∈ h ∧
      parse_changeset raw = Ok c ∧ cs_schema_version c = CHANGESET_SCHEMA_VERSION ∧ overlay_active c = true ∧
      ((code = 0%N ∧ lane_escapes c = []) ∨ (code = 3%N ∧ lane_escapes c ≠ []))).
  assert (Htwo : ∀ (p : cprog unit) h, spec (λ _ _, True) (do* p in Ret (Ok 2%N)) h gate).
  { intros p h. apply spec_bind. eapply (only_spec (λ _, True)); [apply only_any|done|]. intros u k _ code' [= <-]. done. }
  apply (spec_run (λ _ _, True) _ gate) in Hr as [_ Hq]; [by apply (Hq _ eq_refl)|]. clear Hr Hc code. unfold diff_changeset.
  apply spec_bind. split; [exact I|]. intros st. apply spec_ret.
  destruct (negb _); [apply Htwo|]. apply spec_bind. split; [exact I|]. intros [raw|e]; apply spec_ret.
  2:{ destruct (decide _); [apply Htwo|]. done. }
  apply spec_try, spec_ret. destruct (parse_changeset raw) as [c|e] eqn:Hp; cbn [map_err]; [|done].
  destruct (negb _) eqn:Hv; [apply Htwo|]. apply spec_bind. eapply (only_spec (λ _, True)); [apply only_any|done|].
  intros u k _ code [= <-] H2. exists raw, c. split; [apply elem_of_app; left; apply elem_of_app; right; by apply list_elem_of_singleton|].
  split; [exact Hp|]. split; [by apply negb_false_iff, N.eqb_eq in Hv|]. unfold changeset_exit_code in *.
  destruct (overlay_active c); [|done]. split; [done|]. cbn in *. case_bool_decide; [by left|by right].
Qed.
End whole_process.

(** ** Examples *)

(** A host on which the output directory was collected. *)
Definition process_host (h : list cevent) (op : cop) : cans op :=
  match op return cans op with
  | CKop op =>
      match op return kans op with
      | KRun _ (XSys PMain op) =>
          match op return ans op with
          | OStat _ => Ok {| st_kind := KindDir; st_uid := 0; st_id := st_id idle_stat |}
          | OReadText _ => Ok "changes"
          | op => idle_host [] op
          end
      | op => task_host [] op
      end
  | CDoctor op => match op return dans op with DSys op => idle_host [] op | DMetadata _ => Ok (0, 0, 0)%N end
  | CLoad _ => Err (MissingRequired "result.json")
  | CErr _ => ()
  end.

Definition sample_matrix : Command :=
  CmdMatrix {| mt_snapshot_dir := ["snap"]; mt_image := ["image"]; mt_toolstore := None; mt_cases := ["cases"];
               mt_out_dir := ["out"]; mt_witness := false; mt_secret := ["TOKEN"]; mt_egress := None; mt_max_wall := None;
               mt_max_pool := None; mt_json := true |}.

(** Two clones, and one place. *)
Definition sample_clone : Command :=
  CmdClone {| cl_snapshot_dir := ["snap"]; cl_image := ["image"]; cl_toolstore := None; cl_count := 2; cl_command := None;
              cl_out_dir := None; cl_witness := false; cl_secret := []; cl_egress := None; cl_max_wall := None;
              cl_max_pool := Some 1%N; cl_json := true |}.

(** A host with a home, whose iptables cannot be run. *)
Definition home_host (h : list cevent) (op : cop) : cans op :=
  match op return cans op with
  | CKop op =>
      match op return kans op with
      | KRun _ (XSys PMain op) =>
          match op return ans op with
          | OEnv _ => Some "/root"
          | ORun _ _ => Err (io_err NotFound)
          | op => idle_host [] op
          end
      | op => task_host [] op
      end
  | op => process_host h op
  end.

Definition sample_process (c : Command) : cprog N :=
  process (join "/") (λ s, [s]) show_N show_N show_N (λ _, Ok "{}") id (λ _, EmptyString) id id (λ r, pretty (Artifacts.exit_code r))
    cm_model_id (λ _, "") (λ _, Ok "{}") 16 id (λ _, None) (λ _, Err "") (λ _, None) (λ _, Err "") (λ _, Ok "")
    (λ _, Ok Changeset_inactive) (λ _, Ok []) X86_64 "x86_64" "" (Some ["root"]) 5 (λ _, "error") (λ _, "failed") (λ _, Ok "{}") (λ _, Ok "{}")
    ∅ c.

Definition sample_outcome (c : Command) (tr : list cevent) (r : result RoomsError N) : Prop :=
  comes_to (join "/") (λ s, [s]) show_N show_N show_N (λ _, Ok "{}") id (λ _, EmptyString) id id (λ r, pretty (Artifacts.exit_code r))
    cm_model_id (λ _, "") (λ _, Ok "{}") 16 id (λ _, None) (λ _, Err "") (λ _, None) (λ _, Err "") (λ _, Ok "")
    (λ _, Ok Changeset_inactive) (λ _, Ok []) X86_64 "x86_64" "" (Some ["root"]) 5 (λ _, "error") (λ _, "failed") (λ _, Ok "{}") (λ _, Ok "{}")
    ∅ c tr r.

Definition sample_recorded (e : RoomsError) (tr : list cevent) : Prop := recorded (λ _, "error") (λ _, Ok "{}") e tr.

(** The secret is not set: the record is printed, and the code is 2.  Two clones
    where the pool has one place: the command's error has the ceiling, and the code
    is 4. *)
Lemma failures_recorded_witness :
  let e := RmInternal "--secret TOKEN: not set in the host environment" in
  let matrix := exec process_host (sample_process sample_matrix) [] in
  let clone := exec home_host (sample_process sample_clone) [] in
  (fst matrix = Some 2%N ∧ sample_recorded e (snd matrix)) ∧
  fst clone = Some 4%N ∧
  fst (exec home_host (dispatched (join "/") (λ s, [s]) show_N show_N show_N (λ _, Ok "{}") id (λ _, EmptyString) id id (λ r, pretty (Artifacts.exit_code r))
    cm_model_id (λ _, "") (λ _, Ok "{}") 16 id (λ _, None) (λ _, Err "") (λ _, None) (λ _, Err "") (λ _, Ok "")
    (λ _, Ok Changeset_inactive) (λ _, Ok []) X86_64 "x86_64" "" (Some ["root"]) 5 (λ _, "error") (λ _, "failed") (λ _, Ok "{}") (λ _, Ok "{}")
    sample_clone None) []) = Some (Err (RmCloneNet (CnePoolFull 1))) ∧
  ∃ r, sample_outcome sample_clone (snd clone) r ∧
    match r with Ok answered => answered = 4%N | Err e => sample_recorded e (snd clone) ∧ pool_full e ≠ None end.
Proof.
  assert (Happ : ∀ c tr code, wants_json_error_record c = true → run (sample_process c) tr (Some code) →
    ∃ r, sample_outcome c tr r ∧ match r with
      | Ok answered => code = answered
      | Err e => sample_recorded e tr ∧ code = match pool_full e with Some _ => 4%N | None => 2%N end
      end).
  { intros c tr code Hj Hr. exact (failures_recorded (join "/") (λ s, [s]) show_N show_N show_N (λ _, Ok "{}") id (λ _, EmptyString) id id (λ r, pretty (Artifacts.exit_code r))
    cm_model_id (λ _, "") (λ _, Ok "{}") 16 id (λ _, None) (λ _, Err "") (λ _, None) (λ _, Err "") (λ _, Ok "")
    (λ _, Ok Changeset_inactive) (λ _, Ok []) X86_64 "x86_64" "" (Some ["root"]) 5 (λ _, "error") (λ _, "failed") (λ _, Ok "{}") (λ _, Ok "{}")
    ∅ c tr code (λ _, ex_intro _ "{}" eq_refl) Hj Hr). }
  intros e matrix clone.
  assert (E : fst matrix = Some 2%N) by (vm_compute; reflexivity). assert (E' : fst clone = Some 4%N) by (vm_compute; reflexivity).
  split; [split; [exact E|]|split; [exact E'|split; [vm_compute; reflexivity|]]].
  - pose proof (exec_run_nil process_host (sample_process sample_matrix)) as Hr. fold matrix in Hr. rewrite E in Hr.
    destruct (Happ sample_matrix _ _ eq_refl Hr) as (r & Hc & H).
    assert (r = Err e) as -> by exact Hc. exact (proj1 H).
  - pose proof (exec_run_nil home_host (sample_process sample_clone)) as Hr. fold clone in Hr. rewrite E' in Hr.
    destruct (Happ sample_clone _ _ eq_refl Hr) as (r & Hc & H). exists r. split; [exact Hc|].
    destruct r as [answered|err]; [by symmetry|]. destruct H as [H Hcode]. split; [exact H|]. by destruct (pool_full err).
Defined.

Definition clean_changeset : Changeset :=
  {| cs_schema_version := CHANGESET_SCHEMA_VERSION; overlay_active := true; added := ["workspace/a"]; modified := []; deleted := [] |}.

Definition sample_diff : cprog (result RoomsError N) := diff_changeset (join "/") (λ _, Ok clean_changeset) ["out"] false.

Lemma diff_gates_witness :
  fst (exec process_host sample_diff []) = Some (Ok 0%N) ∧ ∃ raw c, (λ _ : string, Ok (E := string) clean_changeset) raw = Ok c ∧ lane_escapes c = [].
Proof.
  assert (E : fst (exec process_host sample_diff []) = Some (Ok 0%N)) by (vm_compute; reflexivity). split; [exact E|].
  pose proof (exec_run_nil process_host sample_diff) as Hr. rewrite E in Hr.
  destruct (diff_gates (join "/") (λ _, Ok clean_changeset) ["out"] false _ 0%N Hr ltac:(discriminate))
    as (raw & c & _ & Hp & _ & _ & [[_ Hl]|[H _]]); [|discriminate H].
  exists raw, c. by split.
Defined.
